(* ===== verification/_CoqProject ===== *)
-Q . S2P
Prelude.v
Pid.v
Mailbox.v
MailboxConc.v
Registry.v
Buffer.v
Supervisor.v
SupervisorConc.v
LinkConc.v
Runtime.v
RuntimeInv.v
Lifecycle.v
ActorSpec.v
Liveness.v
CleanUp.v
Restarting.v
SlabPoison.v
Actors.v
Interface.v
Timers.v
Wire.v
Connection.v
Server.v
Listener.v
PeerPool.v
PoolConc.v
Duration.v
Monitor.v
PyMembrane.v
PyApi.v
PyContract.v
PyModule.v
PyActors.v
SharedBuffer.v
LogLock.v
NodeMembrane.v
NodeApi.v
Waiting.v
EndToEnd.v
NetNode.v
PySystem.v
