(* ===== verification/Prelude.v ===== *)
(** * Iris/Myrmidon: a model of the actor runtime and its correctness

    The program is an actor runtime in Rust with Python and JavaScript
    front-ends.  Actors are asynchronous tasks with a mailbox, named by 64-bit
    PIDs; supervisors restart them, links tell peers of their end, names and
    paths find them, timers send to them later, and a TCP protocol reaches them
    from other nodes.  This library models the Rust code under [src/src/] and
    proves what each part promises.

    ** Files, parts and sources

    - [Prelude]: machine integers ([wrap], [fits]), [result] and [poll], vectors,
      transition systems ([reachable]), tactics and hint databases.
    - [Pid] ([pid.rs]): the slab of generations.  [PidAllocator] is the interface
      the runtime is written against; [slab_pid_allocator] discharges it.
    - [Mailbox], [MailboxConc] ([mailbox.rs]): two queues, the stash and the
      counter.  [Mailbox] treats a call as one step and refines it to an abstract
      two-class queue ([abs], [abs_recv]); [MailboxConc] interleaves the single
      atomic operations of sends and receives.
    - [Registry] ([registry.rs]): names and path listings.
    - [Buffer] ([buffer.rs]): buffers handed to guest languages.
    - [Supervisor] ([supervisor.rs]): children, links, restart marks; a restart
      task is a value that advances one factory call at a time.
      [SupervisorConc] makes every call a program of single map operations that
      interleave, and shows that run alone these are the calls of [Supervisor];
      [LinkConc] follows links through clean-ups that interleave.
    - [Runtime] ([lib.rs]): the shared state of a node and the operations of
      [impl Runtime]; an actor's clean-up is a value that advances one atomic
      operation at a time.  [RuntimeInv] makes it a transition system in which
      calls, polls, clean-ups and restart tasks interleave freely, and proves the
      invariant [rt_inv]; [Lifecycle] and [Actors] hold the theorems.
      [ActorSpec] is the contract: an abstract node of PIDs, phases and queues
      with the events it shows, and the proof that the runtime, labelled with its
      own events, implements it. [Liveness] adds infinite executions with weak
      fairness, [CleanUp] follows an actor's clean-up among everything else that
      happens, [Restarting] a restart from the end of an actor to its successor,
      [SlabPoison] the error paths of the mutex of the slab.
    - [Interface]: the class [Node], what network and timers need of a runtime,
      with its laws, and the instance for [Runtime].
    - [Timers] ([lib.rs]): [send_after], [send_interval], [cancel_timer].
    - [Wire], [Connection], [Server] ([network.rs]): the wire format, the
      connection handler over scripts of reads and writes, its theorems, and
      remote resolution end to end.
    - [Listener] ([network.rs], [lib.rs] [listen]): the accept loop and the
      connections as tasks that suspend at every read, write and call of the
      node, with anything else the node does in between.
    - [PeerPool], [PoolConc] ([network.rs], [lib.rs] [send_remote]): persistent
      outgoing connections; [PeerPool] runs a send without interference,
      [PoolConc] makes sends and writing tasks tasks that interleave at every
      await.
    - [Duration], [Monitor] ([network.rs]): durations as IEEE doubles; heartbeat
      probes and backoff.
    - [PyMembrane] ([py.rs]): messages as Python sees them, strategies, the
      handler of one push actor; [PyApi]: every method of [PyRuntime] that acts
      on the runtime and the transition system of a Python program; [PyContract]:
      what each of these calls promises its caller; [PyActors]:
      [spawn_py_handler] with the actors, threads and pool it shares;
      [PyModule]: what the module exports;
      [SharedBuffer] (with [buffer.rs]): the memory behind [allocate_buffer] and
      [send_buffer]; [LogLock]: the lock of a message log and the GIL.
    - [NodeMembrane], [NodeApi] ([node.rs]): casts and messages as JavaScript sees
      them; the calls, push and pull actors, PIDs as JavaScript numbers.
    - [Waiting] ([py.rs], [node.rs], [lib.rs]): the receives, joins and waits, over
      scripts of what happens while they wait.
    - [EndToEnd]: the parts joined, from the [send_remote] tasks of one node to the
      callable of a push actor on another.
    - [NetNode] ([lib.rs], [py.rs], [node.rs]): the network calls of [Runtime] and
      of both front-ends, and a node with its servers, connections, sends and
      monitors, all as tasks side by side.
    - [PySystem]: the push actors of [PyActors] inside the runtime of [ActorSpec].

    ** How the code is represented

    Unsigned integers are [Z]; every operation that wraps in the source wraps
    here.  Concurrent maps are [gmap] or [gset] whose operations are atomic, as
    the locks of the maps make them.  Tasks are explicit state that advances by
    turns, so that theorems can quantify over interleavings.  User code - actor
    bodies, handlers, factories, matchers, Python callables - is not modelled: its
    results are arguments, its calls are the operations of the API.  Where the
    order of a hash map's iteration is visible the theorems hold for the order
    [map_to_list] gives and do not depend on it.

    ** What the theorems show

    - PIDs: an allocated PID was not alive and becomes so, freeing affects exactly
      the PID freed, and a stale PID stays invalid until its slot has been reused
      2^32 times.
    - Mailboxes: nothing is lost, invented or duplicated; receives refine a
      priority queue; selective receive finds the oldest match and ends; the
      counter is the number of queued user messages, also between the atomic
      operations of concurrent senders up to those in flight.
    - The node: the runtime implements the abstract node, so that in every
      interleaving no message is lost, duplicated or invented, each class of
      messages stays in order, nothing reaches the PID of a built-in loop after
      its end, and a push actor's callable is called with what was delivered.
    - In the end: in fair executions what is queued for a built-in loop is handled,
      user messages unless system messages keep coming, and a stopped actor ends
      and gives its PID back; a clean-up tells every peer linked when it looks;
      a supervised actor comes back unless its factory fails three times or
      answers the old PID; a panic under the mutex of the slab ends all that.
    - Life cycle: which PIDs are alive and which have a mailbox in every reachable
      state; spawn, send and the whole clean-up; who receives an EXIT message, and
      the interleavings in which nobody does.
    - Supervision: for calls that do not overlap, symmetric links, restart marks
      and tasks, the course of a restart, overlapping restarts; between single map
      operations, that the mark keeps the restarts of a PID apart as long as
      nobody unmarks it, that links are symmetric up to removals in flight as long
      as no clean-up cuts a [link] in two, and what happens when one does.
    - Loops: fairness of handlers, the log of observed actors.
    - Network: what any byte stream makes the server do, in any chunks; that no
      input breaks an invariant of the node; remote resolution, probes and sends
      from the client's call to the server's effect, and on to the callable of a
      push actor; the state of the pool; with sends and writing tasks
      interleaved, which frames each connection carries and what the other node
      makes of them; that a send ends.
    - Timers and monitors: when a timer sends and when cancelling stops it; when a
      peer is declared down, also by a monitor that runs among other tasks.
    - Listener: connections that interleave with each other and with the node end,
      serve every frame, refine the handler run alone, and leave the runtime in
      its reachable states.
    - Front-ends: a Python program keeps every invariant, each of its calls does
      what it promises, is typed, and panics only over a buffer beyond
      [isize::MAX] or after one;
      the JavaScript calls are the Python ones up to the casts; where the order of
      a push actor's messages is kept and where it is not, how many threads there
      are and when they end; blocking receives answer in time and lose nothing.
    - Memory and locks: who owns a buffer, what a memoryview can reach; how the
      tasks of a pool, and the calls that use a message log, can wait for each
      other and for the GIL in a circle.

    ** Bounds and fuel

    [selective_loop] runs with as much fuel as there are queued messages plus one;
    [connection_loop] with one more than the bytes still to be read;
    [sliced_wait] with one more than the events of its script; [keep_alive] with
    the seconds until JavaScript lets go; all are proved never to run out.  The
    clean-up of an actor takes six turns plus one per path supervisor and one per
    linked peer.  Steps that create PIDs require fewer than 2^32 slots, and timers
    and buffers fewer than 2^64 ids.

    ** Not modelled

    Sockets below reads, writes and [accept]; logging; the Python and JavaScript
    runtimes themselves (the interpreter is up throughout, and what a callable
    does is a call of the API); [message_to_js], which does not type-check; the
    modules outside [src/src/].  Fairness of the executor is a hypothesis of
    [Liveness], and not modelled further: actors that own their receiver, timers
    and restart tasks may be delayed for ever.
    A spawn is a single step, and so is a lookup with the send that follows, for
    which the source holds the map's entry; the clean-up reads the list of path
    supervisors once.  The mailbox's atomic operations interleave in
    [MailboxConc] only, the supervisor's in [SupervisorConc] and [LinkConc] only:
    elsewhere a call of either is a step.
    The receiver of an actor ends with its body.  A user body can hand it on: the
    [PyMailbox] of a Python pull actor can be copied and kept beyond the actor's
    end, go on receiving, and keep the channel open until the clean-up removes
    the mailbox; theorems on the end of an actor therefore speak of built-in
    loops.  What a factory has spawned before it raises is the factory's own.
    Locks are modelled where the GIL meets them: the callable's lock in
    [PyActors], the message log's in [LogLock]; the shard locks of the concurrent
    maps are not.  Memory does not run out. *)
From stdpp Require Export base tactics list gmap strings fin_maps sets.
From Stdlib Require Export ZArith Lia.

Open Scope Z_scope.

(** ** Machine integers

    A [w]-bit unsigned integer is a [Z]; [wrap w] is the reduction every
    wrapping operation of the source performs. *)
Definition wrap (w z : Z) : Z := z mod 2 ^ w.

(** The ranges of the Rust types [u8], [u32] and [u64]/[usize]. *)
Definition fits (w z : Z) : Prop := 0 <= z < 2 ^ w.

Declare Scope actor_scope.
Delimit Scope actor_scope with actor.
Notation "⌊ z ⌋₃₂" := (wrap 32 z) (at level 0, z at level 200) : actor_scope.
Notation "⌊ z ⌋₆₄" := (wrap 64 z) (at level 0, z at level 200) : actor_scope.
Open Scope actor_scope.

(** ** Results and polls

    [result] is Rust's [Result]; [poll] is the outcome of polling a future
    once. *)
Inductive result (A E : Type) : Type :=
| Ok (a : A)
| Err (e : E).
Arguments Ok {A E} _.
Arguments Err {A E} _.

Inductive poll (A : Type) : Type :=
| Ready (a : A)
| Pending.
Arguments Ready {A} _.
Arguments Pending {A}.

Definition is_ok {A E} (r : result A E) : bool :=
  match r with Ok _ => true | Err _ => false end.

(** ** Vectors and deques

    [position] is [Iterator::position], [vec_remove] is [Vec::remove] and
    [VecDeque::remove] at an index, [vec_pop] is [Vec::pop]. *)
Fixpoint position {A} (p : A → bool) (l : list A) : option nat :=
  match l with
  | [] => None
  | x :: l' => if p x then Some 0%nat else S <$> position p l'
  end.

Fixpoint vec_remove {A} (i : nat) (l : list A) : option (A * list A) :=
  match i, l with
  | _, [] => None
  | O, x :: l' => Some (x, l')
  | S i', x :: l' =>
      match vec_remove i' l' with
      | Some (y, r) => Some (y, x :: r)
      | None => None
      end
  end.

Fixpoint vec_pop {A} (l : list A) : option (A * list A) :=
  match l with
  | [] => None
  | [x] => Some (x, [])
  | x :: l' =>
      match vec_pop l' with
      | Some (y, r) => Some (y, x :: r)
      | None => None
      end
  end.

(** ** Transition systems *)
Section transition_system.
Context {S : Type} (init : S → Prop) (step : S → S → Prop).

Inductive reachable : S → Prop :=
| reach_init s : init s → reachable s
| reach_step s s' : reachable s → step s s' → reachable s'.
End transition_system.

(** ** Automation *)
Create HintDb actor discriminated.
Create Rewrite HintDb actor_rw.

(** Case analysis on the scrutinee of a [match] or [if] in the goal or in a
    hypothesis. *)
Ltac split_match :=
  match goal with
  | |- context [match ?x with _ => _ end] => destruct x eqn:?
  | H : context [match ?x with _ => _ end] |- _ => destruct x eqn:?
  end.

(** Turn boolean comparisons into propositions. *)
Ltac breflect :=
  repeat match goal with
  | H : (_ && _) = true |- _ => apply andb_true_iff in H as [? ?]
  | H : (_ || _) = false |- _ => apply orb_false_iff in H as [? ?]
  | H : (_ <? _) = true |- _ => apply Z.ltb_lt in H
  | H : (_ <? _) = false |- _ => apply Z.ltb_ge in H
  | H : (_ <=? _) = true |- _ => apply Z.leb_le in H
  | H : (_ <=? _) = false |- _ => apply Z.leb_gt in H
  | H : (_ =? _) = true |- _ => apply Z.eqb_eq in H
  | H : (_ =? _) = false |- _ => apply Z.eqb_neq in H
  | H : negb _ = true |- _ => apply negb_true_iff in H
  | H : negb _ = false |- _ => apply negb_false_iff in H
  end.

(** ** Lemmas shared by the components *)
Lemma wrap_small w z : fits w z → wrap w z = z.
Proof. intros H. by apply Z.mod_small. Qed.

Lemma wrap_fits w z : 0 <= w → fits w (wrap w z).
Proof. intros H. apply Z.mod_pos_bound. by apply Z.pow_pos_nonneg. Qed.

Lemma wrap_add_l w a b : wrap w (wrap w a + b) = wrap w (a + b).
Proof. apply Zplus_mod_idemp_l. Qed.

Lemma wrap_sub_l w a b : wrap w (wrap w a - b) = wrap w (a - b).
Proof. apply Zminus_mod_idemp_l. Qed.

Lemma wrap_wrap w a : wrap w (wrap w a) = wrap w a.
Proof. apply Zmod_mod. Qed.

(** Bits of two numbers that do not overlap add up. *)
Lemma lor_disjoint w a b : 0 <= w → fits w b → Z.lor (a * 2 ^ w) b = a * 2 ^ w + b.
Proof.
  intros Hw Hb. symmetry. apply Z.add_nocarry_lor.
  apply Z.bits_inj'; intros k Hk. rewrite Z.land_spec, Z.bits_0.
  destruct (Z.ltb_spec k w); [by rewrite Z.mul_pow2_bits_low|].
  rewrite <-(Z.mod_small b (2 ^ w)) by done.
  rewrite Z.mod_pow2_bits_high by lia. apply andb_false_r.
Qed.

Lemma vec_pop_nil {A} (l : list A) : vec_pop l = None ↔ l = [].
Proof.
  split; [|by intros ->]. induction l as [|x [|y l] IH]; [done..|].
  simpl in *. repeat split_match; try done. by specialize (IH eq_refl).
Qed.

Lemma vec_pop_snoc {A} (l : list A) x : vec_pop (l ++ [x]) = Some (x, l).
Proof.
  induction l as [|y l IH]; [done|]. rewrite <-app_comm_cons.
  destruct (l ++ [x]) as [|z r] eqn:E; [by destruct l|].
  change (vec_pop (y :: z :: r)) with
    (match vec_pop (z :: r) with Some (y', r') => Some (y', y :: r') | None => None end).
  by rewrite IH.
Qed.

Lemma vec_pop_Some {A} (l : list A) x l' : vec_pop l = Some (x, l') → l = l' ++ [x].
Proof.
  destruct l as [|z l] using rev_ind; [done|].
  rewrite vec_pop_snoc. by intros [= -> ->].
Qed.

Lemma position_Some {A} (p : A → bool) l i :
  position p l = Some i →
  ∃ l1 x l2, l = l1 ++ x :: l2 ∧ length l1 = i ∧ p x = true ∧ Forall (λ y, p y = false) l1.
Proof.
  revert i; induction l as [|y l IH]; intros i; [done|]. simpl.
  destruct (p y) eqn:Ep; [intros [= <-]; by exists [], y, l|].
  intros (j & Hj & ->)%fmap_Some. destruct (IH _ Hj) as (l1 & x & l2 & -> & <- & Hx & Hl1).
  exists (y :: l1), x, l2. by repeat (split || constructor).
Qed.

Lemma position_None {A} (p : A → bool) l :
  position p l = None ↔ Forall (λ y, p y = false) l.
Proof.
  induction l as [|y l IH]; simpl; [by split; [constructor|]|].
  rewrite Forall_cons. destruct (p y) eqn:Ep; [naive_solver|].
  rewrite fmap_None, IH. naive_solver.
Qed.

Lemma vec_remove_middle {A} (l1 l2 : list A) x :
  vec_remove (length l1) (l1 ++ x :: l2) = Some (x, l1 ++ l2).
Proof. induction l1 as [|y l1 IH]; [done|]. simpl. by rewrite IH. Qed.

(** Replacing one element of a list under [omap]. *)
Lemma omap_insert {A B} (f : A → option B) (l : list A) (i : nat) x y : l !! i = Some x → f x = None →
  omap f (<[i := y]> l) ≡ₚ option_list (f y) ++ omap f l.
Proof.
  intros Hi Hx. rewrite insert_take_drop by (by eapply lookup_lt_Some).
  rewrite <-(take_drop_middle l i x Hi) at 3. rewrite !omap_app. simpl. rewrite Hx.
  destruct (f y); simpl; solve_Permutation.
Qed.

Lemma omap_insert_same {A B} (f : A → option B) (l : list A) (i : nat) x y : l !! i = Some x → f y = f x →
  omap f (<[i := y]> l) = omap f l.
Proof.
  intros Hi Hx. rewrite insert_take_drop by (by eapply lookup_lt_Some).
  rewrite <-(take_drop_middle l i x Hi) at 3. rewrite !omap_app. simpl. by rewrite Hx.
Qed.

(** An invariant holds of every reachable state. *)
Lemma reachable_invariant {S} (init : S → Prop) (step : S → S → Prop) (P : S → Prop) :
  (∀ s, init s → P s) → (∀ s s', P s → step s s' → P s') → ∀ s, reachable init step s → P s.
Proof. intros Hi Hs s. induction 1; eauto. Qed.

Lemma reachable_rtc {S} (init : S → Prop) (step : S → S → Prop) s s' :
  reachable init step s → rtc step s s' → reachable init step s'.
Proof. intros Hr Hs. induction Hs as [|s1 s2 s3 H12 _ IH]; [done|]. apply IH. by eapply reach_step. Qed.

Lemma rtc_invariant {S} (step : S → S → Prop) (P : S → Prop) s s' :
  (∀ s s', step s s' → P s → P s') → rtc step s s' → P s → P s'.
Proof. intros Hstep Hs. induction Hs; eauto. Qed.

#[export] Hint Resolve wrap_fits wrap_small : actor.
#[export] Hint Rewrite @vec_pop_snoc @vec_remove_middle @wrap_wrap wrap_add_l wrap_sub_l : actor_rw.
