(* ===== verification/Pid.v ===== *)
(** * The generational PID slab ([src/src/pid.rs])

    [SlabAllocator] hands out 64-bit PIDs laid out as
    [generation:u32 | index:u32].  A freed slot goes to a LIFO free list and
    its generation is bumped, so that a stale PID is told apart from the slot's
    next occupant.  The file models the five functions of the module, shows
    that they implement a set of live PIDs, and bounds how long a stale PID
    stays invalid.  [PidAllocator] is the contract the runtime relies on. *)
From S2P Require Import Prelude.

Abbreviation Pid := Z.

(** ** Data *)
Record Entry := mkEntry { generation : Z; occupied : bool }.

Record SlabAllocator := mkSlab { entries : list Entry; free_list : list nat }.

(** ** Operations *)
Definition make_pid (index : nat) (generation : Z) : Pid :=
  Z.lor ⌊Z.shiftl generation 32⌋₆₄ (Z.of_nat index).

Definition split_pid (pid : Pid) : Z * Z :=
  (Z.land pid 0xffffffff, ⌊Z.shiftr pid 32⌋₃₂).

Definition slab_new : SlabAllocator := mkSlab [] [].

(** [None] is the panic of an out-of-range [self.entries[idx]]. *)
Definition allocate (s : SlabAllocator) : option (SlabAllocator * Pid) :=
  match vec_pop (free_list s) with
  | Some (idx, rest) =>
      match entries s !! idx with
      | Some e =>
          Some (mkSlab (<[idx := mkEntry (generation e) true]> (entries s)) rest,
                make_pid idx (generation e))
      | None => None
      end
  | None =>
      let idx := length (entries s) in
      Some (mkSlab (entries s ++ [mkEntry 1 true]) (free_list s), make_pid idx 1)
  end.

(** The bounds test [idx >= self.entries.len()] precedes the indexing, so the
    indexing cannot panic. *)
Definition deallocate (s : SlabAllocator) (pid : Pid) : SlabAllocator * bool :=
  let (idx, gen) := split_pid pid in
  if Z.of_nat (length (entries s)) <=? idx then (s, false)
  else
    match entries s !! Z.to_nat idx with
    | None => (s, false)
    | Some e =>
        if negb (occupied e) || negb (generation e =? gen) then (s, false)
        else
          (mkSlab (<[Z.to_nat idx := mkEntry ⌊generation e + 1⌋₃₂ false]> (entries s))
                  (free_list s ++ [Z.to_nat idx]), true)
    end.

Definition is_valid (s : SlabAllocator) (pid : Pid) : bool :=
  let (idx, gen) := split_pid pid in
  (idx <? Z.of_nat (length (entries s))) &&
  match entries s !! Z.to_nat idx with
  | Some e => occupied e && (generation e =? gen)
  | None => false
  end.

(** ** Specification vocabulary *)

(** What the allocator keeps true of its own data: the free list names each
    vacant slot exactly once, generations are 32-bit, and slots are addressable
    by the 32-bit index field. *)
Record slab_ok (s : SlabAllocator) : Prop := {
  ok_free_nodup : NoDup (free_list s);
  ok_free_vacant : ∀ i, i ∈ free_list s ↔ ∃ e, entries s !! i = Some e ∧ occupied e = false;
  ok_gen : ∀ i e, entries s !! i = Some e → fits 32 (generation e);
  ok_size : Z.of_nat (length (entries s)) <= 2 ^ 32
}.

(** Calls on the allocator and the state after a sequence of them. *)
Inductive slab_op := OpAllocate | OpDeallocate (pid : Pid).

Definition slab_run1 (s : SlabAllocator) (o : slab_op) : SlabAllocator :=
  match o with
  | OpAllocate => match allocate s with Some (s', _) => s' | None => s end
  | OpDeallocate pid => fst (deallocate s pid)
  end.

Definition slab_run (s : SlabAllocator) (os : list slab_op) : SlabAllocator :=
  fold_left slab_run1 os s.

(** How many of the calls can free a slot. *)
Definition is_dealloc (o : slab_op) : bool :=
  match o with OpDeallocate _ => true | OpAllocate => false end.

Definition deallocs (os : list slab_op) : Z := Z.of_nat (length (List.filter is_dealloc os)).

(** The contract a PID allocator offers its clients: a set of live PIDs to
    which [pa_alloc] adds a PID that was not in it and from which [pa_free]
    removes the one it is given. *)
Class PidAllocator (S : Type) := {
  pa_new : S;
  pa_alloc : S → option (S * Pid);
  pa_free : S → Pid → S * bool;
  pa_live : S → Pid → bool;
  pa_ok : S → Prop;
  pa_room : S → Prop;
  pa_ok_new : pa_ok pa_new;
  pa_new_dead : ∀ p, pa_live pa_new p = false;
  pa_alloc_total : ∀ s, pa_ok s → ∃ s' p, pa_alloc s = Some (s', p);
  pa_alloc_ok : ∀ s s' p, pa_ok s → pa_room s → pa_alloc s = Some (s', p) → pa_ok s';
  pa_alloc_fresh : ∀ s s' p, pa_ok s → pa_room s → pa_alloc s = Some (s', p) → pa_live s p = false;
  pa_alloc_live : ∀ s s' p q, pa_ok s → pa_room s → pa_alloc s = Some (s', p) →
    fits 64 q → pa_live s' q = bool_decide (q = p) || pa_live s q;
  pa_alloc_fits : ∀ s s' p, pa_ok s → pa_room s → pa_alloc s = Some (s', p) → fits 64 p;
  pa_free_ok : ∀ s p, pa_ok s → pa_ok (fst (pa_free s p));
  pa_free_result : ∀ s p, snd (pa_free s p) = pa_live s p;
  pa_free_live : ∀ s p q, pa_ok s → fits 64 p → fits 64 q →
    pa_live (fst (pa_free s p)) q = negb (bool_decide (q = p)) && pa_live s q
}.

(** The slot and the generation a PID names. *)
Definition slot_of (pid : Pid) : nat := Z.to_nat (fst (split_pid pid)).

Definition gen_of (pid : Pid) : Z := snd (split_pid pid).

(** ** The PID codec *)
Lemma make_pid_arith i g :
  Z.of_nat i < 2 ^ 32 → fits 32 g → make_pid i g = g * 2 ^ 32 + Z.of_nat i.
Proof.
  intros Hi Hg. unfold make_pid. rewrite Z.shiftl_mul_pow2 by lia.
  rewrite wrap_small by (unfold fits in *; lia).
  apply lor_disjoint; unfold fits; lia.
Qed.

Lemma split_pid_arith p : split_pid p = (p mod 2 ^ 32, (p / 2 ^ 32) mod 2 ^ 32).
Proof.
  unfold split_pid. change 0xffffffff with (Z.ones 32).
  by rewrite Z.land_ones, Z.shiftr_div_pow2 by lia.
Qed.

Lemma split_make i g :
  Z.of_nat i < 2 ^ 32 → fits 32 g → split_pid (make_pid i g) = (Z.of_nat i, g).
Proof.
  intros Hi Hg. rewrite make_pid_arith, split_pid_arith by done. unfold fits in *.
  rewrite Z.add_comm, Z.mod_add, Z.div_add, Z.div_small by lia.
  by rewrite !Z.mod_small by lia.
Qed.

Lemma slot_make i g : Z.of_nat i < 2 ^ 32 → fits 32 g → slot_of (make_pid i g) = i.
Proof. intros. unfold slot_of. rewrite split_make by done. apply Nat2Z.id. Qed.

Lemma gen_make i g : Z.of_nat i < 2 ^ 32 → fits 32 g → gen_of (make_pid i g) = g.
Proof. intros. unfold gen_of. by rewrite split_make. Qed.

Lemma slot_of_bound p : Z.of_nat (slot_of p) < 2 ^ 32.
Proof.
  unfold slot_of. rewrite split_pid_arith. simpl fst.
  pose proof (Z.mod_pos_bound p (2 ^ 32)). lia.
Qed.

Lemma gen_of_fits p : fits 32 (gen_of p).
Proof. unfold gen_of. rewrite split_pid_arith. by apply Z.mod_pos_bound. Qed.

Lemma make_split p : fits 64 p → make_pid (slot_of p) (gen_of p) = p.
Proof.
  intros Hp. rewrite make_pid_arith by auto using slot_of_bound, gen_of_fits.
  unfold slot_of, gen_of. rewrite split_pid_arith. simpl fst. simpl snd. unfold fits in *.
  rewrite Z2Nat.id by (apply Z.mod_pos_bound; lia).
  rewrite (Z.mod_small (p / 2 ^ 32)); [rewrite Z.mul_comm; symmetry; by apply Z.div_mod|].
  split; [apply Z.div_pos; lia|apply Z.div_lt_upper_bound; lia].
Qed.

Lemma make_pid_fits i g : Z.of_nat i < 2 ^ 32 → fits 32 g → fits 64 (make_pid i g).
Proof. intros ??. rewrite make_pid_arith by done. unfold fits in *. lia. Qed.

#[export] Hint Resolve slot_of_bound gen_of_fits make_pid_fits : actor.

(** Two 64-bit PIDs that name the same slot and generation are equal. *)
Lemma pid_ext p q : fits 64 p → fits 64 q → slot_of p = slot_of q → gen_of p = gen_of q → p = q.
Proof. intros Hp Hq Hs Hg. rewrite <-(make_split p), <-(make_split q) by done. by rewrite Hs, Hg. Qed.

(** ** What the operations do *)
Lemma is_valid_iff s p :
  is_valid s p = true ↔
  ∃ e, entries s !! slot_of p = Some e ∧ occupied e = true ∧ generation e = gen_of p.
Proof.
  unfold is_valid, slot_of, gen_of. destruct (split_pid p) as [i g] eqn:E. simpl.
  assert (0 <= i). { rewrite split_pid_arith in E. injection E as <- _. apply Z.mod_pos_bound. lia. }
  destruct (entries s !! Z.to_nat i) as [e|] eqn:Ee; [|rewrite andb_false_r; naive_solver].
  apply lookup_lt_Some in Ee. split.
  - intros H'. breflect. exists e. auto.
  - intros (e' & [= <-] & Ho & Hg). rewrite Ho, Hg, Z.eqb_refl. simpl.
    rewrite andb_true_r. apply Z.ltb_lt. lia.
Qed.

Lemma deallocate_spec s p :
  deallocate s p =
  match entries s !! slot_of p with
  | Some e =>
      if is_valid s p then
        (mkSlab (<[slot_of p := mkEntry ⌊generation e + 1⌋₃₂ false]> (entries s))
                (free_list s ++ [slot_of p]), true)
      else (s, false)
  | None => (s, false)
  end.
Proof.
  unfold deallocate, is_valid, slot_of. destruct (split_pid p) as [i g] eqn:E. simpl.
  assert (0 <= i). { rewrite split_pid_arith in E. injection E as <- _. apply Z.mod_pos_bound. lia. }
  destruct (entries s !! Z.to_nat i) as [e|] eqn:Ee.
  - apply lookup_lt_Some in Ee as Hlt. rewrite (proj2 (Z.leb_gt _ _)) by lia.
    rewrite (proj2 (Z.ltb_lt _ _)) by lia. simpl.
    by destruct (occupied e), (generation e =? g).
  - by destruct (_ <=? _).
Qed.

(** The successful branches of [allocate]: the chosen slot was vacant or is
    new, and every other slot is untouched. *)
Lemma allocate_inv s s' p :
  slab_ok s → Z.of_nat (length (entries s)) < 2 ^ 32 → allocate s = Some (s', p) →
  ∃ i g, p = make_pid i g ∧ Z.of_nat i < 2 ^ 32 ∧ fits 32 g ∧
    entries s' !! i = Some (mkEntry g true) ∧
    (∀ j, j ≠ i → entries s' !! j = entries s !! j) ∧
    (entries s !! i = None ∨ entries s !! i = Some (mkEntry g false)) ∧
    Z.of_nat (length (entries s')) <= 2 ^ 32 ∧
    (∀ j, j ∈ free_list s' ↔ j ∈ free_list s ∧ j ≠ i) ∧ NoDup (free_list s').
Proof.
  intros [Hnd Hvac Hgen Hsz] Hroom Ha. unfold allocate in Ha.
  destruct (vec_pop (free_list s)) as [[i rest]|] eqn:Ep.
  - apply vec_pop_Some in Ep. rewrite Ep in Hnd. apply NoDup_app in Hnd as (Hnd & Hdis & _).
    destruct (entries s !! i) as [e|] eqn:Ee; [|done]. injection Ha as <- <-.
    assert (Hocc : occupied e = false).
    { destruct (proj1 (Hvac i)) as (e' & He' & Ho); [rewrite Ep; set_solver|congruence]. }
    apply lookup_lt_Some in Ee as Hlt.
    exists i, (generation e). split_and!; try done; simpl.
    + lia.
    + eauto.
    + by apply list_lookup_insert_eq.
    + intros j Hj. by apply list_lookup_insert_ne.
    + right. rewrite Ee. destruct e; simpl in *. by subst.
    + by rewrite length_insert.
    + intros j. rewrite Ep. split; [|set_solver].
      intros Hj. split; [set_solver|]. intros ->. apply (Hdis i); set_solver.
  - injection Ha as <- <-. apply vec_pop_nil in Ep.
    exists (length (entries s)), 1. split_and!; try done; simpl.
    + by apply list_lookup_middle.
    + intros j Hj. destruct (decide (j < length (entries s))%nat) as [Hl|Hl].
      * by apply lookup_app_l.
      * rewrite lookup_ge_None_2 by (rewrite length_app; simpl; lia).
        symmetry. apply lookup_ge_None_2. lia.
    + left. by apply lookup_ge_None_2.
    + rewrite length_app. simpl. lia.
    + intros j. rewrite Ep. set_solver.
Qed.

Lemma allocate_total s : slab_ok s → ∃ s' p, allocate s = Some (s', p).
Proof.
  intros Hok. unfold allocate. destruct (vec_pop (free_list s)) as [[i rest]|] eqn:Ep; [|eauto].
  apply vec_pop_Some in Ep. destruct (proj1 (ok_free_vacant s Hok i)) as (e & -> & _); eauto.
  rewrite Ep. set_solver.
Qed.

Lemma allocate_ok s s' p :
  slab_ok s → Z.of_nat (length (entries s)) < 2 ^ 32 → allocate s = Some (s', p) → slab_ok s'.
Proof.
  intros Hok Hroom Ha.
  destruct (allocate_inv s s' p Hok Hroom Ha) as (i & g & -> & Hi & Hg & He & Hne & Hold & Hsz & Hfl & Hnd).
  split; [done| |intros j e Hj|done].
  - intros j. rewrite Hfl, (ok_free_vacant s Hok). destruct (decide (j = i)) as [->|Hj].
    + rewrite He. naive_solver.
    + rewrite Hne by done. naive_solver.
  - destruct (decide (j = i)) as [->|]; [|rewrite Hne in Hj by done; by eapply ok_gen].
    rewrite He in Hj. by injection Hj as <-.
Qed.

Lemma allocate_fresh s s' p :
  slab_ok s → Z.of_nat (length (entries s)) < 2 ^ 32 → allocate s = Some (s', p) →
  is_valid s p = false.
Proof.
  intros Hok Hroom Ha.
  destruct (allocate_inv s s' p Hok Hroom Ha) as (i & g & -> & Hi & Hg & He & Hne & Hold & _).
  apply not_true_iff_false. rewrite is_valid_iff, slot_make by done. naive_solver.
Qed.

Lemma allocate_fits s s' p :
  slab_ok s → Z.of_nat (length (entries s)) < 2 ^ 32 → allocate s = Some (s', p) → fits 64 p.
Proof.
  intros Hok Hroom Ha.
  destruct (allocate_inv s s' p Hok Hroom Ha) as (i & g & -> & ? & ? & _). auto with actor.
Qed.

Lemma allocate_valid s s' p q :
  slab_ok s → Z.of_nat (length (entries s)) < 2 ^ 32 → allocate s = Some (s', p) → fits 64 q →
  is_valid s' q = bool_decide (q = p) || is_valid s q.
Proof.
  intros Hok Hroom Ha Hq.
  destruct (allocate_inv s s' p Hok Hroom Ha) as (i & g & -> & Hi & Hg & He & Hne & Hold & _).
  apply eq_true_iff_eq. rewrite orb_true_iff, bool_decide_eq_true, !is_valid_iff. split.
  - intros (e & Hse & Ho & Hge). destruct (decide (slot_of q = i)) as [Hs|Hs].
    + left. rewrite Hs, He in Hse. injection Hse as <-. simpl in Hge.
      apply pid_ext; [done|auto with actor|by rewrite slot_make|by rewrite gen_make].
    + right. rewrite Hne in Hse by done. eauto.
  - intros [->|(e & Hse & Ho & Hge)].
    + rewrite slot_make, gen_make by done. eauto.
    + exists e. rewrite Hne; [done|]. intros <-. naive_solver.
Qed.

Lemma slab_new_ok : slab_ok slab_new.
Proof.
  split; simpl; [constructor| |intros i e; by rewrite lookup_nil|lia].
  intros i. rewrite lookup_nil. split; [set_solver|naive_solver].
Qed.

Lemma slab_new_dead p : is_valid slab_new p = false.
Proof. apply not_true_iff_false. rewrite is_valid_iff. simpl. setoid_rewrite lookup_nil. naive_solver. Qed.

Lemma deallocate_invalid s p : is_valid s p = false → deallocate s p = (s, false).
Proof. intros H. rewrite deallocate_spec, H. by destruct (_ !! _). Qed.

(** The state after a successful [deallocate]. *)
Lemma deallocate_freed s p : is_valid s p = true →
  ∃ e, entries s !! slot_of p = Some e ∧ occupied e = true ∧ generation e = gen_of p ∧
    deallocate s p =
      (mkSlab (<[slot_of p := mkEntry ⌊gen_of p + 1⌋₃₂ false]> (entries s))
              (free_list s ++ [slot_of p]), true).
Proof.
  intros H. apply is_valid_iff in H as Hv. destruct Hv as (e & He & Ho & Hg).
  exists e. split_and!; [done..|]. by rewrite deallocate_spec, He, H, Hg.
Qed.

Lemma deallocate_result s p : snd (deallocate s p) = is_valid s p.
Proof.
  destruct (is_valid s p) eqn:E; [|by rewrite deallocate_invalid].
  destruct (deallocate_freed s p E) as (e & _ & _ & _ & ->). done.
Qed.

Lemma deallocate_ok s p : slab_ok s → slab_ok (fst (deallocate s p)).
Proof.
  intros Hok. destruct (is_valid s p) eqn:E; [|by rewrite deallocate_invalid].
  destruct (deallocate_freed s p E) as (e & He & Ho & Hg & ->). simpl.
  assert (Hlt := lookup_lt_Some _ _ _ He). destruct Hok as [Hnd Hvac Hgen Hsz].
  assert (Hnin : slot_of p ∉ free_list s) by (intros (e' & He' & Ho')%Hvac; congruence).
  split; simpl.
  - apply NoDup_app. split_and!; [done|set_solver|apply NoDup_singleton].
  - intros i. rewrite elem_of_app, list_elem_of_singleton, Hvac.
    destruct (decide (i = slot_of p)) as [->|Hi].
    + rewrite list_lookup_insert_eq by done. naive_solver.
    + rewrite list_lookup_insert_ne by done. naive_solver.
  - intros i e' Hi. destruct (decide (i = slot_of p)) as [->|Hne].
    + rewrite list_lookup_insert_eq in Hi by done. injection Hi as <-. simpl. by apply wrap_fits.
    + rewrite list_lookup_insert_ne in Hi by done. eauto.
  - by rewrite length_insert.
Qed.

Lemma deallocate_valid s p q : fits 64 p → fits 64 q →
  is_valid (fst (deallocate s p)) q = negb (bool_decide (q = p)) && is_valid s q.
Proof.
  intros Hp Hq. destruct (is_valid s p) eqn:E.
  - destruct (deallocate_freed s p E) as (e & He & Ho & Hg & ->). simpl.
    assert (Hlt := lookup_lt_Some _ _ _ He).
    apply eq_true_iff_eq. rewrite andb_true_iff, negb_true_iff, bool_decide_eq_false, !is_valid_iff.
    simpl. destruct (decide (slot_of q = slot_of p)) as [Hs|Hs].
    + rewrite Hs, list_lookup_insert_eq, He by done. split; [naive_solver|].
      intros (Hne & e' & [= <-] & _ & Hge). destruct Hne. apply pid_ext; congruence.
    + rewrite list_lookup_insert_ne by done. naive_solver.
  - rewrite deallocate_invalid by done. simpl. case_bool_decide; [by subst; rewrite E|done].
Qed.

#[export] Instance slab_pid_allocator : PidAllocator SlabAllocator := {|
  pa_new := slab_new;
  pa_alloc := allocate;
  pa_free := deallocate;
  pa_live := is_valid;
  pa_ok := slab_ok;
  pa_room := λ s, Z.of_nat (length (entries s)) < 2 ^ 32;
  pa_ok_new := slab_new_ok;
  pa_new_dead := slab_new_dead;
  pa_alloc_total := allocate_total;
  pa_alloc_ok := allocate_ok;
  pa_alloc_fresh := allocate_fresh;
  pa_alloc_live := allocate_valid;
  pa_alloc_fits := allocate_fits;
  pa_free_ok := deallocate_ok;
  pa_free_result := deallocate_result;
  pa_free_live := λ s p q _, deallocate_valid s p q
|}.

(** ** Stale PIDs

    A call moves a slot's generation by at most one step, and only when it
    frees the slot. *)
Lemma slab_run1_gen s o i e : entries s !! i = Some e →
  ∃ e', entries (slab_run1 s o) !! i = Some e' ∧
    (generation e' = generation e ∨
     is_dealloc o = true ∧ generation e' = ⌊generation e + 1⌋₃₂).
Proof.
  intros He. assert (Hlt := lookup_lt_Some _ _ _ He). destruct o as [|p]; simpl.
  - unfold allocate. destruct (vec_pop (free_list s)) as [[j rest]|].
    + destruct (entries s !! j) as [ej|] eqn:Ej; [|by eauto]. simpl.
      destruct (decide (j = i)) as [->|]; [|rewrite list_lookup_insert_ne by done; eauto].
      rewrite list_lookup_insert_eq by done. replace ej with e in * by congruence. eauto.
    + simpl. rewrite lookup_app_l by done. eauto.
  - destruct (is_valid s p) eqn:E; [|rewrite deallocate_invalid by done; eauto].
    destruct (deallocate_freed s p E) as (ep & Hep & _ & Hg & ->). simpl.
    destruct (decide (slot_of p = i)) as [<-|]; [|rewrite list_lookup_insert_ne by done; eauto].
    rewrite list_lookup_insert_eq by done. replace ep with e in * by congruence.
    rewrite <-Hg. eauto.
Qed.

(** After any sequence of calls a slot's generation has advanced by at most as
    many steps as there were [deallocate] calls. *)
Lemma slab_run_gen os s i e : entries s !! i = Some e → fits 32 (generation e) →
  ∃ e' k, entries (slab_run s os) !! i = Some e' ∧
    generation e' = ⌊generation e + k⌋₃₂ ∧ 0 <= k <= deallocs os.
Proof.
  revert s e. induction os as [|o os IH]; intros s e He Hg; simpl.
  { exists e, 0. rewrite Z.add_0_r, wrap_small by done. unfold deallocs. simpl. auto with lia. }
  destruct (slab_run1_gen s o i e He) as (e1 & He1 & Hcase).
  assert (Hg1 : fits 32 (generation e1)).
  { destruct Hcase as [->|[_ ->]]; [done|by apply wrap_fits]. }
  destruct (IH _ _ He1 Hg1) as (e2 & k & He2 & Hk & Hb).
  unfold deallocs in *. simpl. destruct Hcase as [Hc|[Ho Hc]].
  - exists e2, k. rewrite Hc in Hk. split; [done|]. split; [done|]. destruct (is_dealloc o); simpl; lia.
  - exists e2, (k + 1). rewrite Hc, wrap_add_l in Hk. rewrite Ho. simpl length.
    split_and!; [done|rewrite Hk; f_equal; lia|lia..].
Qed.

Lemma slab_run_app s os1 os2 : slab_run s (os1 ++ os2) = slab_run (slab_run s os1) os2.
Proof. apply fold_left_app. Qed.

(** Free and reuse one slot [n] times. *)
Lemma slab_cycle g n : fits 32 g →
  ∃ os, deallocs os = Z.of_nat n ∧
    slab_run (mkSlab [mkEntry g false] [0%nat]) os =
    mkSlab [mkEntry ⌊g + Z.of_nat n⌋₃₂ false] [0%nat].
Proof.
  revert g. induction n as [|n IH]; intros g Hg.
  { exists []. split; [done|]. simpl. by rewrite Z.add_0_r, wrap_small by done. }
  destruct (IH ⌊g + 1⌋₃₂) as (os & Hd & Hr); [by apply wrap_fits|].
  exists (OpAllocate :: OpDeallocate (make_pid 0 g) :: os).
  split; [unfold deallocs in *; simpl in *; lia|]. simpl. unfold allocate. simpl.
  rewrite deallocate_spec, slot_make by (assumption || lia). simpl.
  assert (Hv : is_valid (mkSlab [mkEntry g true] []) (make_pid 0 g) = true).
  { apply is_valid_iff. rewrite slot_make, gen_make by (assumption || lia). by eexists. }
  rewrite Hv. simpl. rewrite Hr, wrap_add_l. do 4 f_equal. lia.
Qed.

(** ** Properties *)
Lemma slab_one_ok : slab_ok (mkSlab [mkEntry 1 true] []).
Proof. apply (allocate_ok slab_new _ (make_pid 0 1)); [apply slab_new_ok|simpl; lia|done]. Qed.

(** packing an index and a generation into a PID and splitting it back
    gives the same pair, and every 64-bit PID is the packing of its two
    halves. *)
Theorem pid_roundtrip i g p :
  Z.of_nat i < 2 ^ 32 → fits 32 g → fits 64 p →
  split_pid (make_pid i g) = (Z.of_nat i, g) ∧
  make_pid (Z.to_nat (fst (split_pid p))) (snd (split_pid p)) = p.
Proof. intros. split; [by apply split_make|by apply make_split]. Qed.

Lemma pid_roundtrip_witness :
  split_pid (make_pid 7 3) = (7, 3) ∧
  make_pid (Z.to_nat (fst (split_pid 12884901895))) (snd (split_pid 12884901895)) = 12884901895.
Proof. apply (pid_roundtrip 7 3 12884901895); unfold fits; lia. Defined.

(** C4: [allocate] on a well-formed slab with a free 32-bit index does not
    panic, returns a 64-bit PID that was not valid before and is valid after,
    leaves the validity of every other PID alone and keeps the slab
    well-formed. *)
Theorem allocate_correct s :
  slab_ok s → Z.of_nat (length (entries s)) < 2 ^ 32 →
  ∃ s' p, allocate s = Some (s', p) ∧ slab_ok s' ∧ fits 64 p ∧
    is_valid s p = false ∧ is_valid s' p = true ∧
    ∀ q, fits 64 q → q ≠ p → is_valid s' q = is_valid s q.
Proof.
  intros Hok Hroom. destruct (allocate_total s Hok) as (s' & p & Ha). exists s', p.
  assert (Hp := allocate_fits s s' p Hok Hroom Ha).
  split_and!; eauto using allocate_ok, allocate_fresh.
  - rewrite (allocate_valid s s' p p) by done. by rewrite bool_decide_eq_true_2.
  - intros q Hq Hne. rewrite (allocate_valid s s' p q) by done. by rewrite bool_decide_eq_false_2.
Qed.

Lemma allocate_correct_witness :
  ∃ s' p, allocate slab_new = Some (s', p) ∧ slab_ok s' ∧ fits 64 p ∧
    is_valid slab_new p = false ∧ is_valid s' p = true ∧
    ∀ q, fits 64 q → q ≠ p → is_valid s' q = is_valid slab_new q.
Proof. apply (allocate_correct slab_new); [apply slab_new_ok|simpl; lia]. Defined.

(** C5: [deallocate] answers whether the PID was valid; when it was, the PID
    becomes invalid and no other PID's validity changes; when it was not, the
    slab is unchanged. *)
Theorem deallocate_correct s p :
  slab_ok s → fits 64 p →
  let (s', freed) := deallocate s p in
  freed = is_valid s p ∧ slab_ok s' ∧ is_valid s' p = false ∧
  (freed = false → s' = s) ∧
  ∀ q, fits 64 q → q ≠ p → is_valid s' q = is_valid s q.
Proof.
  intros Hok Hp. assert (Hr := deallocate_result s p). assert (Ho := deallocate_ok s p Hok).
  assert (Hv := λ q, deallocate_valid s p q Hp). assert (Hi := deallocate_invalid s p).
  destruct (deallocate s p) as [s' freed]. simpl in *. subst freed.
  split_and!; [done|done| | |].
  - rewrite Hv by done. by rewrite bool_decide_eq_true_2.
  - intros E. specialize (Hi E). congruence.
  - intros q Hq Hne. rewrite Hv by done. by rewrite bool_decide_eq_false_2.
Qed.

Lemma deallocate_correct_witness :
  let s := mkSlab [mkEntry 1 true] [] in
  let (s', freed) := deallocate s (make_pid 0 1) in
  freed = is_valid s (make_pid 0 1) ∧ slab_ok s' ∧ is_valid s' (make_pid 0 1) = false ∧
  (freed = false → s' = s) ∧
  ∀ q, fits 64 q → q ≠ make_pid 0 1 → is_valid s' q = is_valid s q.
Proof.
  apply (deallocate_correct (mkSlab [mkEntry 1 true] []) (make_pid 0 1)).
  - apply slab_one_ok.
  - split; [vm_compute; discriminate|reflexivity].
Defined.

(** once a PID has been freed, no sequence of calls with fewer than
    [2^32 - 1] further [deallocate] calls makes it valid again. *)
Theorem stale_pid_stays_invalid s p os :
  is_valid s p = true → deallocs os < 2 ^ 32 - 1 →
  is_valid (slab_run (fst (deallocate s p)) os) p = false.
Proof.
  intros Hv Hn. destruct (deallocate_freed s p Hv) as (e & He & _ & Hg & ->). simpl fst.
  assert (Hgen := gen_of_fits p). assert (Hlt := lookup_lt_Some _ _ _ He).
  set (s1 := mkSlab _ _).
  destruct (slab_run_gen os s1 (slot_of p) (mkEntry ⌊gen_of p + 1⌋₃₂ false))
    as (e' & k & He' & Hk & Hb); [by apply list_lookup_insert_eq|by apply wrap_fits|].
  apply not_true_iff_false. rewrite is_valid_iff. intros (e2 & He2 & _ & Hg2).
  simplify_eq. simpl in Hk. rewrite wrap_add_l in Hk.
  unfold fits, wrap in *. rewrite Hk in Hg2.
  destruct (Z.ltb_spec (gen_of p + 1 + k) (2 ^ 32)).
  - rewrite Z.mod_small in Hg2; lia.
  - rewrite <-(Z.mod_unique (gen_of p + 1 + k) (2 ^ 32) 1 (gen_of p + 1 + k - 2 ^ 32)) in Hg2; lia.
Qed.

Lemma stale_pid_stays_invalid_witness :
  let s := mkSlab [mkEntry 1 true] [] in
  is_valid (slab_run (fst (deallocate s (make_pid 0 1))) [OpAllocate]) (make_pid 0 1) = false.
Proof. apply (stale_pid_stays_invalid _ _ [OpAllocate]); [reflexivity|reflexivity]. Defined.

(** the bound is sharp: after [2^32 - 1] further reuses of its slot the
    generation has wrapped around and a freed PID is valid again; in the same
    way the allocator eventually hands out PID 0. *)
Theorem stale_pid_can_revive :
  (∃ s p os, is_valid s p = true ∧ deallocs os = 2 ^ 32 - 1 ∧
     is_valid (slab_run (fst (deallocate s p)) os) p = true) ∧
  (∃ os, is_valid (slab_run slab_new os) 0 = true).
Proof.
  destruct (slab_cycle 2 (Z.to_nat (2 ^ 32 - 1))) as (os & Hd & Hr); [unfold fits; lia|].
  destruct (slab_cycle 2 (Z.to_nat (2 ^ 32 - 2))) as (os0 & Hd0 & Hr0); [unfold fits; lia|].
  rewrite Z2Nat.id in * by lia. split.
  - exists (mkSlab [mkEntry 1 true] []), (make_pid 0 1), (os ++ [OpAllocate]).
    split_and!; [done| |].
    + unfold deallocs in *. rewrite List.filter_app, length_app. simpl. lia.
    + rewrite slab_run_app. change (fst (deallocate (mkSlab [mkEntry 1 true] []) (make_pid 0 1)))
        with (mkSlab [mkEntry 2 false] [0%nat]). by rewrite Hr.
  - exists ([OpAllocate; OpDeallocate (make_pid 0 1)] ++ os0 ++ [OpAllocate]).
    rewrite !slab_run_app.
    change (slab_run slab_new [OpAllocate; OpDeallocate (make_pid 0 1)])
      with (mkSlab [mkEntry 2 false] [0%nat]). by rewrite Hr0.
Qed.
