(* ===== verification/Mailbox.v ===== *)
(** * Mailboxes ([src/src/mailbox.rs])

    A mailbox is a pair of unbounded channels, one for system messages and one
    for user payloads, a receiver-side stash of deferred messages, and a shared
    count of queued user messages.  The file models the message types, the
    sender and the receiver, and shows that the three queues implement two
    FIFO queues with priority for system messages.

    The channels are tokio's [mpsc::unbounded_channel]: [send] fails exactly
    when the receiver is gone, [recv] yields [None] exactly when the queue is
    empty and every sender is gone.  An [async fn] is modelled by one poll of
    its future.  Every [MailboxSender] holds one sender of each channel, so a
    single sender count serves both.  The matcher of a selective receive is a
    pure predicate. *)
From S2P Require Import Prelude.
From Stdlib Require Import Strings.Byte.

Abbreviation Bytes := (list byte).

#[export] Instance byte_eq_decision : EqDecision byte := Byte.byte_eq_dec.

(** ** Messages *)
Inductive ExitReason :=
| Normal
| Panic
| Timeout
| Killed
| Oom
| Other (s : string).

Record ExitInfo := mkExitInfo {
  from : Z;
  reason : ExitReason;
  metadata : option string
}.

Inductive SystemMessage :=
| Exit (info : ExitInfo)
| HotSwap (ptr : Z)
| Ping
| Pong.

Inductive Message :=
| User (b : Bytes)
| System (s : SystemMessage).

#[export] Instance exit_reason_eq : EqDecision ExitReason.
Proof. solve_decision. Defined.

#[export] Instance exit_info_eq : EqDecision ExitInfo.
Proof. solve_decision. Defined.

#[export] Instance system_message_eq : EqDecision SystemMessage.
Proof. solve_decision. Defined.

#[export] Instance message_eq : EqDecision Message.
Proof. solve_decision. Defined.

Definition is_system (m : Message) : bool :=
  match m with System _ => true | User _ => false end.

Definition is_user (m : Message) : bool := negb (is_system m).

(** ** State: the two channels, the stash and the counter *)
Record Mailbox := mkMailbox {
  rx_user : list Bytes;
  rx_sys : list SystemMessage;
  stash : list Message;
  counter : Z;
  senders : nat;
  receiver_alive : bool
}.

Definition set_user (q : list Bytes) (m : Mailbox) : Mailbox :=
  mkMailbox q (rx_sys m) (stash m) (counter m) (senders m) (receiver_alive m).

Definition set_sys (q : list SystemMessage) (m : Mailbox) : Mailbox :=
  mkMailbox (rx_user m) q (stash m) (counter m) (senders m) (receiver_alive m).

Definition set_stash (q : list Message) (m : Mailbox) : Mailbox :=
  mkMailbox (rx_user m) (rx_sys m) q (counter m) (senders m) (receiver_alive m).

Definition set_senders (n : nat) (m : Mailbox) : Mailbox :=
  mkMailbox (rx_user m) (rx_sys m) (stash m) (counter m) n (receiver_alive m).

Definition set_alive (b : bool) (m : Mailbox) : Mailbox :=
  mkMailbox (rx_user m) (rx_sys m) (stash m) (counter m) (senders m) b.

(** [AtomicUsize::fetch_add] and [fetch_sub] wrap. *)
Definition fetch_add (d : Z) (m : Mailbox) : Mailbox :=
  mkMailbox (rx_user m) (rx_sys m) (stash m) ⌊counter m + d⌋₆₄ (senders m) (receiver_alive m).

Definition fetch_sub (d : Z) (m : Mailbox) : Mailbox :=
  mkMailbox (rx_user m) (rx_sys m) (stash m) ⌊counter m - d⌋₆₄ (senders m) (receiver_alive m).

(** ** Creation, cloning and dropping of the halves *)
Definition channel : Mailbox := mkMailbox [] [] [] 0 1 true.

Definition clone_sender (m : Mailbox) : Mailbox := set_senders (S (senders m)) m.

Definition drop_sender (m : Mailbox) : Mailbox := set_senders (pred (senders m)) m.

(** Dropping the receiver drops what is queued in its channels. *)
Definition drop_receiver (m : Mailbox) : Mailbox := set_alive false (set_user [] (set_sys [] (set_stash [] m))).

(** ** The sender half *)
Definition tx_user_send (b : Bytes) (m : Mailbox) : Mailbox * result unit Bytes :=
  if receiver_alive m then (set_user (rx_user m ++ [b]) m, Ok tt) else (m, Err b).

Definition tx_sys_send (s : SystemMessage) (m : Mailbox) : Mailbox * result unit SystemMessage :=
  if receiver_alive m then (set_sys (rx_sys m ++ [s]) m, Ok tt) else (m, Err s).

Definition send_user_bytes (b : Bytes) (m : Mailbox) : Mailbox * result unit Bytes :=
  let m1 := fetch_add 1 m in
  let backup := b in
  match tx_user_send b m1 with
  | (m2, Ok _) => (m2, Ok tt)
  | (m2, Err _) => (fetch_sub 1 m2, Err backup)
  end.

Definition send_system (s : SystemMessage) (m : Mailbox) : Mailbox * result unit SystemMessage :=
  let backup := s in
  match tx_sys_send s m with
  | (m1, Ok _) => (m1, Ok tt)
  | (m1, Err _) => (m1, Err backup)
  end.

Definition send (msg : Message) (m : Mailbox) : Mailbox * result unit Message :=
  match msg with
  | User b =>
      let m1 := fetch_add 1 m in
      let backup := User b in
      match tx_user_send b m1 with
      | (m2, Ok _) => (m2, Ok tt)
      | (m2, Err _) => (fetch_sub 1 m2, Err backup)
      end
  | System s =>
      let backup := System s in
      match tx_sys_send s m with
      | (m1, Ok _) => (m1, Ok tt)
      | (m1, Err _) => (m1, Err backup)
      end
  end.

Definition len (m : Mailbox) : Z := counter m.

(** ** The receiver half *)

(** The [tokio::select!] at the end of [recv], biased towards the system
    channel. *)
Definition recv_select (m : Mailbox) : Mailbox * poll (option Message) :=
  match rx_sys m with
  | s :: q => (set_sys q m, Ready (Some (System s)))
  | [] =>
      if (senders m =? 0)%nat then (m, Ready None)
      else
        match rx_user m with
        | b :: q => (fetch_sub 1 (set_user q m), Ready (Some (User b)))
        | [] => (m, Pending)
        end
  end.

Definition recv (m : Mailbox) : Mailbox * poll (option Message) :=
  match position is_system (stash m) with
  | Some pos =>
      match vec_remove pos (stash m) with
      | Some (x, st) => (set_stash st m, Ready (Some x))
      | None => (m, Ready None)
      end
  | None =>
      match rx_sys m with
      | s :: q => (set_sys q m, Ready (Some (System s)))
      | [] =>
          match stash m with
          | front :: st =>
              let m1 := set_stash st m in
              (if is_user front then fetch_sub 1 m1 else m1, Ready (Some front))
          | [] => recv_select m
          end
      end
  end.

Definition try_recv (m : Mailbox) : Mailbox * option Message :=
  match position is_system (stash m) with
  | Some pos =>
      match vec_remove pos (stash m) with
      | Some (x, st) => (set_stash st m, Some x)
      | None => (m, None)
      end
  | None =>
      match rx_sys m with
      | s :: q => (set_sys q m, Some (System s))
      | [] =>
          match stash m with
          | front :: st =>
              let m1 := set_stash st m in
              (if is_user front then fetch_sub 1 m1 else m1, Some front)
          | [] =>
              match rx_user m with
              | b :: q => (fetch_sub 1 (set_user q m), Some (User b))
              | [] => (m, None)
              end
          end
      end
  end.

(** One turn of the [loop] of [selective_recv]. *)
Inductive turn :=
| Return (r : option Message)
| Continue
| Park.

Definition offer_sys (matcher : Message → bool) (s : SystemMessage) (m : Mailbox) : Mailbox * turn :=
  let x := System s in
  if matcher x then (m, Return (Some x)) else (set_stash (stash m ++ [x]) m, Continue).

Definition offer_user (matcher : Message → bool) (b : Bytes) (m : Mailbox) : Mailbox * turn :=
  let x := User b in
  if matcher x then (fetch_sub 1 m, Return (Some x)) else (set_stash (stash m ++ [x]) m, Continue).

Definition selective_select (matcher : Message → bool) (m : Mailbox) : Mailbox * turn :=
  match rx_sys m with
  | s :: q => offer_sys matcher s (set_sys q m)
  | [] =>
      if (senders m =? 0)%nat then (m, Return None)
      else
        match rx_user m with
        | b :: q => offer_user matcher b (set_user q m)
        | [] => (m, Park)
        end
  end.

Definition selective_turn (matcher : Message → bool) (m : Mailbox) : Mailbox * turn :=
  match rx_sys m with
  | s :: q => offer_sys matcher s (set_sys q m)
  | [] => selective_select matcher m
  end.

(** [None] is running out of fuel; [selective_loop_spec] shows that the fuel
    [selective_recv] gives is enough. *)
Fixpoint selective_loop (fuel : nat) (matcher : Message → bool) (m : Mailbox)
  : option (Mailbox * poll (option Message)) :=
  match fuel with
  | O => None
  | S fuel' =>
      match selective_turn matcher m with
      | (m', Return r) => Some (m', Ready r)
      | (m', Continue) => selective_loop fuel' matcher m'
      | (m', Park) => Some (m', Pending)
      end
  end.

Definition selective_recv (matcher : Message → bool) (m : Mailbox)
  : option (Mailbox * poll (option Message)) :=
  match position matcher (stash m) with
  | Some idx =>
      match vec_remove idx (stash m) with
      | Some (x, st) =>
          let m1 := set_stash st m in
          Some (if is_user x then fetch_sub 1 m1 else m1, Ready (Some x))
      | None => Some (m, Ready None)
      end
  | None => selective_loop (S (length (rx_sys m) + length (rx_user m))) matcher m
  end.

(** ** The abstract mailbox: two FIFO queues *)
Record AbsMailbox := mkAbs { a_sys : list SystemMessage; a_user : list Bytes }.

Definition sys_of (l : list Message) : list SystemMessage :=
  omap (λ x, match x with System s => Some s | User _ => None end) l.

Definition user_of (l : list Message) : list Bytes :=
  omap (λ x, match x with User b => Some b | System _ => None end) l.

Definition abs (m : Mailbox) : AbsMailbox :=
  mkAbs (sys_of (stash m) ++ rx_sys m) (user_of (stash m) ++ rx_user m).

(** Take the oldest system message, else the oldest user message. *)
Definition abs_recv (a : AbsMailbox) : option (Message * AbsMailbox) :=
  match a_sys a, a_user a with
  | s :: q, u => Some (System s, mkAbs q u)
  | [], b :: q => Some (User b, mkAbs [] q)
  | [], [] => None
  end.

(** [x] is the oldest message of its class that satisfies the matcher, and
    [a'] is [a] without it. *)
Definition abs_select (matcher : Message → bool) (a : AbsMailbox) (x : Message) (a' : AbsMailbox) : Prop :=
  matcher x = true ∧
  match x with
  | System s => ∃ l1 l2, a_sys a = l1 ++ s :: l2 ∧ a' = mkAbs (l1 ++ l2) (a_user a) ∧
      Forall (λ y, matcher (System y) = false) l1
  | User b => ∃ l1 l2, a_user a = l1 ++ b :: l2 ∧ a' = mkAbs (a_sys a) (l1 ++ l2) ∧
      Forall (λ y, matcher (User y) = false) l1
  end.

Definition abs_none_matches (matcher : Message → bool) (a : AbsMailbox) : Prop :=
  Forall (λ y, matcher (System y) = false) (a_sys a) ∧
  Forall (λ y, matcher (User y) = false) (a_user a).

(** The count of queued user messages is what [counter] holds. *)
Definition counter_ok (m : Mailbox) : Prop :=
  counter m = ⌊Z.of_nat (length (a_user (abs m)))⌋₆₄.

(** Calls on an open mailbox, what each delivers, and a run of them. *)
Inductive mailbox_op :=
| DoSend (msg : Message)
| DoRecv
| DoTryRecv
| DoSelect (matcher : Message → bool).

Definition mailbox_op_run (m : Mailbox) (o : mailbox_op) : Mailbox * list Message :=
  match o with
  | DoSend msg => (fst (send msg m), [])
  | DoRecv => match recv m with (m', Ready (Some x)) => (m', [x]) | (m', _) => (m', []) end
  | DoTryRecv => match try_recv m with (m', Some x) => (m', [x]) | (m', None) => (m', []) end
  | DoSelect f =>
      match selective_recv f m with
      | Some (m', Ready (Some x)) => (m', [x])
      | Some (m', _) => (m', [])
      | None => (m, [])
      end
  end.

Fixpoint mailbox_run (m : Mailbox) (os : list mailbox_op) : Mailbox * list Message :=
  match os with
  | [] => (m, [])
  | o :: os' =>
      let (m1, d1) := mailbox_op_run m o in
      let (m2, d2) := mailbox_run m1 os' in
      (m2, d1 ++ d2)
  end.

Definition sent (os : list mailbox_op) : list Message :=
  omap (λ o, match o with DoSend msg => Some msg | _ => None end) os.

Definition is_select (o : mailbox_op) : bool :=
  match o with DoSelect _ => true | _ => false end.

Definition open (m : Mailbox) : Prop := senders m ≠ 0%nat ∧ receiver_alive m = true.

(** The branch a receive takes: a stashed system message, a queued system
    message, the front of the stash, or the channels alone. *)
Inductive recv_view (m : Mailbox) : Prop :=
| view_stash_sys l1 s l2 :
    stash m = l1 ++ System s :: l2 → sys_of l1 = [] →
    recv m = (set_stash (l1 ++ l2) m, Ready (Some (System s))) →
    try_recv m = (set_stash (l1 ++ l2) m, Some (System s)) → recv_view m
| view_sys s q :
    sys_of (stash m) = [] → rx_sys m = s :: q →
    recv m = (set_sys q m, Ready (Some (System s))) →
    try_recv m = (set_sys q m, Some (System s)) → recv_view m
| view_stash_user b st :
    sys_of (stash m) = [] → rx_sys m = [] → stash m = User b :: st →
    recv m = (fetch_sub 1 (set_stash st m), Ready (Some (User b))) →
    try_recv m = (fetch_sub 1 (set_stash st m), Some (User b)) → recv_view m
| view_channels :
    stash m = [] → rx_sys m = [] → recv m = recv_select m →
    try_recv m = match rx_user m with
                 | b :: q => (fetch_sub 1 (set_user q m), Some (User b))
                 | [] => (m, None)
                 end → recv_view m.

(** ** Lemmas on the stash *)
Lemma sys_of_app l1 l2 : sys_of (l1 ++ l2) = sys_of l1 ++ sys_of l2.
Proof. apply omap_app. Qed.

Lemma user_of_app l1 l2 : user_of (l1 ++ l2) = user_of l1 ++ user_of l2.
Proof. apply omap_app. Qed.

#[export] Hint Rewrite sys_of_app user_of_app : actor_rw.

Lemma sys_of_users l : Forall (λ x, is_system x = false) l → sys_of l = [].
Proof. induction 1 as [|[b|s] l Hx Hl IH]; [done|exact IH|done]. Qed.

Lemma forall_sys_of (f : Message → bool) l :
  Forall (λ x, f x = false) l → Forall (λ s, f (System s) = false) (sys_of l).
Proof. induction 1 as [|[b|s] l Hx Hl IH]; [constructor|exact IH|by constructor]. Qed.

Lemma forall_user_of (f : Message → bool) l :
  Forall (λ x, f x = false) l → Forall (λ b, f (User b) = false) (user_of l).
Proof. induction 1 as [|[b|s] l Hx Hl IH]; [constructor|by constructor|exact IH]. Qed.

(** The state after taking a message out of the middle of the stash. *)
Lemma stash_take_sys m l1 s l2 : stash m = l1 ++ System s :: l2 →
  abs m = mkAbs (sys_of l1 ++ s :: sys_of l2 ++ rx_sys m) (user_of (l1 ++ l2) ++ rx_user m) ∧
  abs (set_stash (l1 ++ l2) m) = mkAbs (sys_of l1 ++ sys_of l2 ++ rx_sys m) (user_of (l1 ++ l2) ++ rx_user m).
Proof.
  intros E. unfold abs. rewrite E. simpl. autorewrite with actor_rw. simpl.
  by rewrite <-!(assoc_L (++)).
Qed.

Lemma stash_take_user m l1 b l2 : stash m = l1 ++ User b :: l2 →
  abs m = mkAbs (sys_of (l1 ++ l2) ++ rx_sys m) (user_of l1 ++ b :: user_of l2 ++ rx_user m) ∧
  abs (fetch_sub 1 (set_stash (l1 ++ l2) m)) =
    mkAbs (sys_of (l1 ++ l2) ++ rx_sys m) (user_of l1 ++ user_of l2 ++ rx_user m).
Proof.
  intros E. unfold abs. rewrite E. simpl. autorewrite with actor_rw. simpl.
  by rewrite <-!(assoc_L (++)).
Qed.

(** ** [recv] and [try_recv] on the abstract queues *)
Lemma recv_viewP m : recv_view m.
Proof.
  destruct (position is_system (stash m)) as [i|] eqn:Ep.
  - destruct (position_Some _ _ _ Ep) as (l1 & [b|s] & l2 & E & <- & Hx & Hl); [done|].
    apply (view_stash_sys m l1 s l2); auto using sys_of_users;
      unfold recv, try_recv; by rewrite Ep, E, vec_remove_middle.
  - apply position_None in Ep as Hu. destruct (rx_sys m) as [|s q] eqn:Es.
    + destruct (stash m) as [|[b|s] st] eqn:E; [|..|by inversion Hu].
      * by apply view_channels; unfold recv, try_recv; rewrite ?E, ?Ep, ?Es.
      * apply (view_stash_user m b st); try rewrite E; auto using sys_of_users;
          unfold recv, try_recv; by rewrite E, Ep, Es.
    + apply (view_sys m s q); auto using sys_of_users;
        unfold recv, try_recv; by rewrite Ep, Es.
Qed.

Lemma try_recv_abs m :
  match abs_recv (abs m) with
  | Some (x, a) => ∃ m', try_recv m = (m', Some x) ∧ abs m' = a
  | None => try_recv m = (m, None)
  end.
Proof.
  destruct (recv_viewP m) as [l1 s l2 E Hl _ ->|s q Hs E _ ->|b st Hs Es E _ ->|E Es _ ->].
  - destruct (stash_take_sys m l1 s l2 E) as [Ha Ha']. rewrite Ha. unfold abs_recv. simpl.
    rewrite Hl. simpl. eexists; split; [done|]. by rewrite Ha', Hl.
  - unfold abs_recv, abs. simpl. rewrite Hs, E. simpl. eexists; split; [done|].
    by simpl; rewrite Hs.
  - destruct (stash_take_user m [] b st E) as [Ha Ha']. rewrite Ha. simpl in *.
    rewrite E in Hs. simpl in Hs. unfold abs_recv. simpl. rewrite Hs, Es. simpl.
    eexists; split; [done|]. by rewrite Ha', Hs, Es.
  - unfold abs_recv, abs. rewrite E, Es. simpl.
    destruct (rx_user m) as [|b q] eqn:Eu; [done|]. eexists; split; [done|].
    simpl. by rewrite E, Es.
Qed.

Lemma recv_open_eq m : senders m ≠ 0%nat →
  recv m = match try_recv m with
           | (m', Some x) => (m', Ready (Some x))
           | (m', None) => (m', Pending)
           end.
Proof.
  intros Ho. destruct (recv_viewP m) as [l1 s l2 E Hl -> ->|s q Hs E -> ->|b st Hs Es E -> ->|E Es -> ->];
    try done.
  unfold recv_select. rewrite Es. apply Nat.eqb_neq in Ho as ->. by destruct (rx_user m).
Qed.

Lemma recv_abs m : senders m ≠ 0%nat →
  match abs_recv (abs m) with
  | Some (x, a) => ∃ m', recv m = (m', Ready (Some x)) ∧ abs m' = a
  | None => recv m = (m, Pending)
  end.
Proof.
  intros Ho. rewrite recv_open_eq by done. assert (H := try_recv_abs m).
  destruct (abs_recv (abs m)) as [[x a]|]; [destruct H as (m' & -> & Ha); eauto|by rewrite H].
Qed.

(** ** Selective receive *)

(** What a receive may change besides the queues: the counter drops by one
    exactly when a user message is delivered. *)
Definition receive_frame (m m' : Mailbox) (d : option Message) : Prop :=
  senders m' = senders m ∧ receiver_alive m' = receiver_alive m ∧
  counter m' = match d with Some (User _) => ⌊counter m - 1⌋₆₄ | _ => counter m end.

Definition delivered (r : poll (option Message)) : option Message :=
  match r with Ready o => o | Pending => None end.

(** Moving the head of a channel to the end of the stash keeps the queues. *)
Lemma abs_stash_sys m s q : rx_sys m = s :: q →
  abs (set_stash (stash m ++ [System s]) (set_sys q m)) = abs m.
Proof. intros E. unfold abs. rewrite E. simpl. autorewrite with actor_rw. simpl. by rewrite <-!(assoc_L (++)). Qed.

Lemma abs_stash_user m b q : rx_user m = b :: q →
  abs (set_stash (stash m ++ [User b]) (set_user q m)) = abs m.
Proof. intros E. unfold abs. rewrite E. simpl. autorewrite with actor_rw. simpl. by rewrite <-!(assoc_L (++)). Qed.

Lemma selective_loop_spec (f : Message → bool) fuel m :
  (length (rx_sys m) + length (rx_user m) < fuel)%nat →
  Forall (λ x, f x = false) (stash m) →
  ∃ m' r, selective_loop fuel f m = Some (m', r) ∧ receive_frame m m' (delivered r) ∧
    match r with
    | Ready (Some x) => abs_select f (abs m) x (abs m')
    | Ready None =>
        senders m = 0%nat ∧ abs m' = abs m ∧ rx_user m' = rx_user m ∧ rx_sys m' = [] ∧
        Forall (λ y, f y = false) (stash m')
    | Pending =>
        senders m ≠ 0%nat ∧ abs m' = abs m ∧ rx_sys m' = [] ∧ rx_user m' = [] ∧
        Forall (λ y, f y = false) (stash m')
    end.
Proof.
  revert m. induction fuel as [|fuel IH]; intros m Hf Hst; [lia|]. simpl.
  unfold selective_turn, selective_select. destruct (rx_sys m) as [|s q] eqn:Es.
  - destruct (senders m =? 0)%nat eqn:En; [|destruct (rx_user m) as [|b q] eqn:Eu].
    + apply Nat.eqb_eq in En. by eexists _, (Ready None).
    + apply Nat.eqb_neq in En. by eexists _, Pending.
    + apply Nat.eqb_neq in En. unfold offer_user. destruct (f (User b)) eqn:Efb.
      * eexists _, (Ready (Some (User b))). split_and!; [done|done|]. split; [done|].
        exists (user_of (stash m)), q. unfold abs. simpl. rewrite Eu.
        auto using forall_user_of.
      * simpl. edestruct (IH (set_stash (stash m ++ [User b]) (set_user q m))) as (m' & r & -> & Hfr & Hr).
        { simpl in *. rewrite Es. simpl. lia. }
        { simpl. apply Forall_app. by repeat constructor. }
        eexists _, _. rewrite abs_stash_user in Hr by done. split_and!; [done|done|].
        destruct r as [[x|]|]; [done|naive_solver|done].
  - unfold offer_sys. destruct (f (System s)) eqn:Efs.
    + eexists _, (Ready (Some (System s))). split_and!; [done|done|]. split; [done|].
      exists (sys_of (stash m)), q. unfold abs. simpl. rewrite Es. auto using forall_sys_of.
    + simpl. edestruct (IH (set_stash (stash m ++ [System s]) (set_sys q m))) as (m' & r & -> & Hfr & Hr).
      { simpl in *. lia. }
      { simpl. apply Forall_app. by repeat constructor. }
      eexists _, _. rewrite abs_stash_sys in Hr by done. done.
Qed.

Lemma selective_recv_spec (f : Message → bool) m :
  ∃ m' r, selective_recv f m = Some (m', r) ∧ receive_frame m m' (delivered r) ∧
    match r with
    | Ready (Some x) => abs_select f (abs m) x (abs m')
    | Ready None =>
        senders m = 0%nat ∧ abs m' = abs m ∧ rx_user m' = rx_user m ∧ rx_sys m' = [] ∧
        Forall (λ y, f y = false) (stash m')
    | Pending =>
        senders m ≠ 0%nat ∧ abs m' = abs m ∧ rx_sys m' = [] ∧ rx_user m' = [] ∧
        Forall (λ y, f y = false) (stash m')
    end.
Proof.
  unfold selective_recv. destruct (position f (stash m)) as [i|] eqn:Ep.
  - destruct (position_Some _ _ _ Ep) as (l1 & x & l2 & E & <- & Hx & Hl).
    assert (vec_remove (length l1) (stash m) = Some (x, l1 ++ l2)) as ->
      by (rewrite E; apply vec_remove_middle).
    eexists _, (Ready (Some x)).
    split; [done|]. destruct x as [b|s]; simpl; (split; [done|split; [done|]]).
    + destruct (stash_take_user m l1 b l2 E) as [-> Ha]. simpl in *.
      exists (user_of l1), (user_of l2 ++ rx_user m). auto using forall_user_of.
    + destruct (stash_take_sys m l1 s l2 E) as [-> Ha]. simpl in *.
      exists (sys_of l1), (sys_of l2 ++ rx_sys m). auto using forall_sys_of.
  - apply position_None in Ep. apply selective_loop_spec; [lia|done].
Qed.

Lemma none_matches_stash (f : Message → bool) m :
  rx_sys m = [] → rx_user m = [] → Forall (λ y, f y = false) (stash m) →
  abs_none_matches f (abs m).
Proof.
  intros Es Eu Hst. unfold abs_none_matches, abs. rewrite Es, Eu. simpl. rewrite !app_nil_r.
  auto using forall_sys_of, forall_user_of.
Qed.

(** ** The counter *)
Lemma try_recv_frame m : receive_frame m (fst (try_recv m)) (snd (try_recv m)).
Proof.
  destruct (recv_viewP m) as [l1 s l2 E Hl _ ->|s q Hs E _ ->|b st Hs Es E _ ->|E Es _ ->]; try done.
  by destruct (rx_user m).
Qed.

Lemma recv_frame m : receive_frame m (fst (recv m)) (delivered (snd (recv m))).
Proof.
  destruct (recv_viewP m) as [l1 s l2 E Hl -> _|s q Hs E -> _|b st Hs Es E -> _|E Es -> _]; try done.
  unfold recv_select. rewrite Es. destruct (_ =? 0)%nat; [done|]. by destruct (rx_user m).
Qed.

(** The counter stays right when a delivery shortens the user queue by the
    message it hands out. *)
Lemma counter_ok_deliver m m' d :
  counter_ok m → receive_frame m m' d →
  Z.of_nat (length (a_user (abs m))) =
    Z.of_nat (length (a_user (abs m'))) + match d with Some (User _) => 1 | _ => 0 end →
  counter_ok m'.
Proof.
  unfold counter_ok. intros Hc (_ & _ & Hd) Hl. rewrite Hd, Hc, Hl.
  destruct d as [[b|s]|]; rewrite ?Z.add_0_r; [|done..]. rewrite wrap_sub_l. f_equal. lia.
Qed.

Lemma abs_select_length f a x a' : abs_select f a x a' →
  Z.of_nat (length (a_user a)) =
    Z.of_nat (length (a_user a')) + match x with User _ => 1 | System _ => 0 end.
Proof.
  intros [_ Hx]. destruct x as [b|s]; destruct Hx as (l1 & l2 & Hl & -> & _); simpl;
    rewrite ?Hl, ?length_app; simpl; lia.
Qed.

Lemma send_counter_ok msg m : counter_ok m → counter_ok (fst (send msg m)).
Proof.
  unfold counter_ok, send, tx_user_send, tx_sys_send, abs. intros Hc.
  destruct msg as [b|s]; simpl; destruct (receiver_alive m); simpl; rewrite ?Hc;
    rewrite ?wrap_add_l, ?wrap_sub_l, ?length_app; simpl; f_equal;
    rewrite ?length_app; simpl; lia.
Qed.

(** ** Runs of calls *)
#[local] Arguments abs : simpl never.
#[local] Arguments sys_of : simpl never.
#[local] Arguments user_of : simpl never.

Definition abs_all (a : AbsMailbox) : list Message :=
  (System <$> a_sys a) ++ (User <$> a_user a).

Lemma frame_open m m' d : receive_frame m m' d → open m → open m'.
Proof. unfold open. by intros (-> & -> & _). Qed.

Lemma abs_recv_all a x a' : abs_recv a = Some (x, a') → abs_all a ≡ₚ x :: abs_all a'.
Proof. destruct a as [[|s q] [|b u]]; intros [= <- <-]; done. Qed.

Lemma abs_recv_length a x a' : abs_recv a = Some (x, a') →
  Z.of_nat (length (a_user a)) =
    Z.of_nat (length (a_user a')) + match x with User _ => 1 | System _ => 0 end.
Proof. destruct a as [[|s q] [|b u]]; intros [= <- <-]; simpl; lia. Qed.

Lemma abs_recv_order a x a' : abs_recv a = Some (x, a') →
  a_sys a = sys_of [x] ++ a_sys a' ∧ a_user a = user_of [x] ++ a_user a'.
Proof. destruct a as [[|s q] [|b u]]; by intros [= <- <-]. Qed.

Lemma abs_select_all f a x a' : abs_select f a x a' → abs_all a ≡ₚ x :: abs_all a'.
Proof.
  intros [_ Hx]. unfold abs_all. destruct x as [b|s]; destruct Hx as (l1 & l2 & Hl & -> & _); simpl;
    rewrite Hl, !fmap_app, fmap_cons; solve_Permutation.
Qed.

Lemma send_open msg m : receiver_alive m = true →
  abs (fst (send msg m)) =
    mkAbs (a_sys (abs m) ++ sys_of [msg]) (a_user (abs m) ++ user_of [msg]) ∧
  senders (fst (send msg m)) = senders m ∧ receiver_alive (fst (send msg m)) = true ∧
  snd (send msg m) = Ok tt.
Proof.
  intros Ha. unfold send, tx_user_send, tx_sys_send, abs.
  destruct msg as [b|s]; simpl; rewrite Ha; simpl;
    by rewrite ?app_nil_r, <-?(assoc_L (++)).
Qed.

(** One call on an open mailbox: it stays open, its counter stays right, no
    message is lost or duplicated, and order is kept without selection. *)
Lemma mailbox_op_step m o : open m → counter_ok m →
  let (m', d) := mailbox_op_run m o in
  open m' ∧ counter_ok m' ∧
  sent [o] ++ abs_all (abs m) ≡ₚ d ++ abs_all (abs m') ∧
  (is_select o = false →
   a_sys (abs m) ++ sys_of (sent [o]) = sys_of d ++ a_sys (abs m') ∧
   a_user (abs m) ++ user_of (sent [o]) = user_of d ++ a_user (abs m')).
Proof.
  intros [Ho Ha] Hc. destruct o as [msg| | |f]; cbn [mailbox_op_run sent omap list_omap is_select].
  - destruct (send_open msg m Ha) as (Habs & Hs & Hr & _).
    split; [split; congruence|]. split; [by apply send_counter_ok|]. rewrite Habs.
    split; [|done]. unfold abs_all.
    destruct msg; simpl; rewrite !fmap_app; simpl; rewrite ?app_nil_r; solve_Permutation.
  - assert (H := recv_abs m Ho). assert (Hf := recv_frame m).
    destruct (abs_recv (abs m)) as [[x a]|] eqn:E; [destruct H as (m' & Hm & <-)|rename H into Hm];
      rewrite Hm in *; simpl in Hf.
    + destruct (abs_recv_order _ _ _ E) as [-> ->]. rewrite !app_nil_r.
      split_and!; [by eapply frame_open| | |done].
      * apply (counter_ok_deliver m m' (Some x)); auto using abs_recv_length.
      * by apply abs_recv_all.
    + rewrite !app_nil_r. done.
  - assert (H := try_recv_abs m). assert (Hf := try_recv_frame m).
    destruct (abs_recv (abs m)) as [[x a]|] eqn:E; [destruct H as (m' & Hm & <-)|rename H into Hm];
      rewrite Hm in *; simpl in Hf.
    + destruct (abs_recv_order _ _ _ E) as [-> ->]. rewrite !app_nil_r.
      split_and!; [by eapply frame_open| | |done].
      * apply (counter_ok_deliver m m' (Some x)); auto using abs_recv_length.
      * by apply abs_recv_all.
    + rewrite !app_nil_r. done.
  - destruct (selective_recv_spec f m) as (m' & r & -> & Hf & Hr).
    assert (Hopen : open m') by (by eapply frame_open).
    destruct r as [[x|]|]; simpl in Hf.
    + split_and!; [done| |by eapply abs_select_all|done].
      apply (counter_ok_deliver m m' (Some x)); auto. by eapply abs_select_length.
    + by destruct Hr.
    + destruct Hr as (_ & Hr & _). rewrite Hr. split_and!; [done| |done|done].
      apply (counter_ok_deliver m m' None); auto. rewrite Hr. lia.
Qed.

Lemma sent_cons o os : sent (o :: os) = sent [o] ++ sent os.
Proof. by destruct o. Qed.

Lemma mailbox_run_inv os m : open m → counter_ok m →
  let (m', d) := mailbox_run m os in
  open m' ∧ counter_ok m' ∧
  sent os ++ abs_all (abs m) ≡ₚ d ++ abs_all (abs m') ∧
  (Forall (λ o, is_select o = false) os →
   a_sys (abs m) ++ sys_of (sent os) = sys_of d ++ a_sys (abs m') ∧
   a_user (abs m) ++ user_of (sent os) = user_of d ++ a_user (abs m')).
Proof.
  revert m. induction os as [|o os IH]; intros m Ho Hc; cbn [mailbox_run].
  { split_and!; auto. intros _. by rewrite !app_nil_r. }
  assert (H1 := mailbox_op_step m o Ho Hc). destruct (mailbox_op_run m o) as [m1 d1].
  destruct H1 as (Ho1 & Hc1 & Hp1 & Hf1). specialize (IH m1 Ho1 Hc1).
  destruct (mailbox_run m1 os) as [m2 d2]. destruct IH as (Ho2 & Hc2 & Hp2 & Hf2).
  rewrite (sent_cons o os). split_and!; [done|done| |].
  - rewrite <-!(assoc_L (++)), <-Hp2, (Permutation_app_swap_app (sent [o])), Hp1.
    apply Permutation_app_swap_app.
  - intros [Hs Hss]%Forall_cons. destruct (Hf1 Hs) as [Es Eu]. destruct (Hf2 Hss) as [Es2 Eu2].
    autorewrite with actor_rw. rewrite !(assoc_L (++)), Es, Eu, <-!(assoc_L (++)).
    by rewrite Es2, Eu2.
Qed.

(** ** Closed mailboxes *)
Lemma recv_closed m : senders m = 0%nat →
  rx_user (fst (recv m)) = rx_user m ∧
  match abs_recv (abs (set_user [] m)) with
  | Some (x, a) => ∃ m', recv m = (m', Ready (Some x)) ∧ abs (set_user [] m') = a
  | None => recv m = (m, Ready None)
  end.
Proof.
  intros Hz. destruct (recv_viewP m) as [l1 s l2 E Hl -> _|s q Hs E -> _|b st Hs Es E -> _|E Es -> _].
  - split; [done|]. destruct (stash_take_sys (set_user [] m) l1 s l2 E) as [-> Ha'].
    unfold abs_recv. simpl. rewrite Hl. simpl. eexists; split; [done|].
    change (set_user [] (set_stash (l1 ++ l2) m)) with (set_stash (l1 ++ l2) (set_user [] m)).
    by rewrite Ha', Hl.
  - split; [done|]. unfold abs_recv, abs. simpl. rewrite Hs, E. simpl.
    eexists; split; [done|]. simpl. by rewrite Hs.
  - split; [done|]. destruct (stash_take_user (set_user [] m) [] b st E) as [-> Ha']. simpl in *.
    rewrite E in Hs. unfold abs_recv. simpl in *. change (sys_of st = []) in Hs.
    rewrite Hs, Es. simpl. eexists; split; [done|].
    change (set_user [] (fetch_sub 1 (set_stash st m))) with (fetch_sub 1 (set_stash st (set_user [] m))).
    rewrite Ha'. simpl. by rewrite Hs, Es.
  - unfold recv_select, abs_recv, abs. rewrite Es, Hz. simpl. rewrite E, Es. done.
Qed.

(** ** Properties *)
Lemma channel_open : open channel.
Proof. done. Qed.

Lemma channel_counter_ok : counter_ok channel.
Proof. done. Qed.

#[export] Hint Resolve channel_open channel_counter_ok : actor.

(** C2: on an open mailbox [recv] and [try_recv] implement a queue with
    priority: they hand out the oldest system message when there is one, else
    the oldest user message, remove exactly that message, and wait
    ([try_recv]: answer nothing) when nothing is queued. *)
Theorem recv_is_priority_queue m :
  senders m ≠ 0%nat →
  match abs_recv (abs m) with
  | Some (x, a) =>
      ∃ m', recv m = (m', Ready (Some x)) ∧ try_recv m = (m', Some x) ∧ abs m' = a
  | None => recv m = (m, Pending) ∧ try_recv m = (m, None)
  end.
Proof.
  intros Ho. assert (H := try_recv_abs m). rewrite recv_open_eq by done.
  destruct (abs_recv (abs m)) as [[x a]|]; [destruct H as (m' & -> & Ha)|rewrite H]; eauto.
Qed.

Lemma recv_is_priority_queue_witness :
  let m := mkMailbox [[x01]] [Ping] [User [x00]] 2 1 true in
  match abs_recv (abs m) with
  | Some (x, a) =>
      ∃ m', recv m = (m', Ready (Some x)) ∧ try_recv m = (m', Some x) ∧ abs m' = a
  | None => recv m = (m, Pending) ∧ try_recv m = (m, None)
  end.
Proof. apply (recv_is_priority_queue (mkMailbox [[x01]] [Ping] [User [x00]] 2 1 true)). done. Defined.

(** C3: [selective_recv] terminates. On an open mailbox it delivers a message
    that satisfies the matcher, the oldest such of its class, and removes
    exactly that one; or it waits, and then no queued message satisfies the
    matcher and neither queue has changed, so a receive that is cancelled
    while it waits loses nothing. *)
Theorem selective_recv_correct f m :
  senders m ≠ 0%nat →
  ∃ m' r, selective_recv f m = Some (m', r) ∧
    match r with
    | Ready (Some x) => abs_select f (abs m) x (abs m')
    | Ready None => False
    | Pending => abs m' = abs m ∧ abs_none_matches f (abs m')
    end.
Proof.
  intros Ho. destruct (selective_recv_spec f m) as (m' & r & Hm & _ & Hr).
  exists m', r. split; [done|]. destruct r as [[x|]|]; [done|naive_solver|].
  destruct Hr as (_ & Ha & Es & Eu & Hst). auto using none_matches_stash.
Qed.

Lemma selective_recv_correct_witness :
  let f := λ x, bool_decide (x = User [x01]) in
  let m := mkMailbox [[x00]; [x01]] [Ping] [] 2 1 true in
  ∃ m' r, selective_recv f m = Some (m', r) ∧
    match r with
    | Ready (Some x) => abs_select f (abs m) x (abs m')
    | Ready None => False
    | Pending => abs m' = abs m ∧ abs_none_matches f (abs m')
    end.
Proof.
  apply (selective_recv_correct (λ x, bool_decide (x = User [x01]))
    (mkMailbox [[x00]; [x01]] [Ping] [] 2 1 true)). done.
Defined.

(** C1: no call sequence on a fresh mailbox loses, invents or duplicates a
    message: what was sent is, up to order, what was delivered together with
    what is still queued. *)
Theorem mailbox_no_loss os :
  let (m, d) := mailbox_run channel os in
  sent os ≡ₚ d ++ abs_all (abs m).
Proof.
  assert (H := mailbox_run_inv os channel channel_open channel_counter_ok).
  destruct (mailbox_run channel os) as [m d]. destruct H as (_ & _ & Hp & _).
  change (abs_all (abs channel)) with (@nil Message) in Hp. by rewrite app_nil_r in Hp.
Qed.

(** without selective receives each class of messages is delivered in
    the order it was sent. *)
Theorem mailbox_fifo os :
  Forall (λ o, is_select o = false) os →
  let (m, d) := mailbox_run channel os in
  sys_of (sent os) = sys_of d ++ a_sys (abs m) ∧ user_of (sent os) = user_of d ++ a_user (abs m).
Proof.
  intros Hs. assert (H := mailbox_run_inv os channel channel_open channel_counter_ok).
  destruct (mailbox_run channel os) as [m d]. destruct H as (_ & _ & _ & H). by apply H.
Qed.

Lemma mailbox_fifo_witness :
  let os := [DoSend (User [x00]); DoSend (System Ping); DoRecv; DoSend (User [x01]); DoTryRecv] in
  let (m, d) := mailbox_run channel os in
  sys_of (sent os) = sys_of d ++ a_sys (abs m) ∧ user_of (sent os) = user_of d ++ a_user (abs m).
Proof.
  apply (mailbox_fifo [DoSend (User [x00]); DoSend (System Ping); DoRecv; DoSend (User [x01]); DoTryRecv]).
  repeat constructor.
Defined.

(** after any call sequence on a fresh mailbox, [len] is the number of
    queued user messages, stashed ones included, as long as that number is a
    [usize]. *)
Theorem mailbox_len_exact os :
  let (m, _) := mailbox_run channel os in
  fits 64 (Z.of_nat (length (a_user (abs m)))) →
  len m = Z.of_nat (length (a_user (abs m))).
Proof.
  assert (H := mailbox_run_inv os channel channel_open channel_counter_ok).
  destruct (mailbox_run channel os) as [m d]. destruct H as (_ & Hc & _).
  intros Hf. unfold len. rewrite Hc. by apply wrap_small.
Qed.

Lemma mailbox_len_exact_witness :
  let os := [DoSend (User [x00]); DoSend (User [x01]); DoSelect (λ _, false); DoRecv] in
  let (m, _) := mailbox_run channel os in
  len m = Z.of_nat (length (a_user (abs m))).
Proof.
  assert (H := mailbox_len_exact [DoSend (User [x00]); DoSend (User [x01]); DoSelect (λ _, false); DoRecv]).
  vm_compute in H |- *. apply H. split; [discriminate|reflexivity].
Defined.

(** a send to a mailbox whose receiver is gone gives the message back and
    leaves the mailbox, its counter included, as it was; a send to a live one
    appends the message to its class. *)
Theorem send_result msg m :
  fits 64 (counter m) →
  if receiver_alive m then
    snd (send msg m) = Ok tt ∧
    abs (fst (send msg m)) =
      mkAbs (a_sys (abs m) ++ sys_of [msg]) (a_user (abs m) ++ user_of [msg])
  else send msg m = (m, Err msg).
Proof.
  intros Hf. destruct (receiver_alive m) eqn:Ha; [by destruct (send_open msg m Ha) as (? & _ & _ & ?)|].
  unfold send, tx_user_send, tx_sys_send. destruct msg as [b|s]; simpl; rewrite Ha; [|done].
  f_equal. destruct m. unfold fetch_sub, fetch_add. simpl in *. f_equal.
  rewrite wrap_sub_l, Z.add_simpl_r. by apply wrap_small.
Qed.

Lemma send_result_witness :
  let m := drop_receiver channel in send (User [x00]) m = (m, Err (User [x00])).
Proof. apply (send_result (User [x00]) (drop_receiver channel)). split; [discriminate|reflexivity]. Defined.

(** once the last sender is gone [recv] never takes another message from
    the user channel: it hands out the remaining system messages and the
    stash, then answers [None], whatever user messages were still queued. *)
Theorem recv_closed_drops_user m :
  senders m = 0%nat →
  rx_user (fst (recv m)) = rx_user m ∧
  (abs_recv (abs (set_user [] m)) = None → recv m = (m, Ready None)).
Proof.
  intros Hz. destruct (recv_closed m Hz) as [Hu Hr]. split; [done|]. intros E. by rewrite E in Hr.
Qed.

Lemma recv_closed_drops_user_witness :
  let m := drop_sender (fst (send (User [x00]) channel)) in
  rx_user m = [[x00]] ∧ recv m = (m, Ready None).
Proof.
  split; [done|].
  apply (recv_closed_drops_user (drop_sender (fst (send (User [x00]) channel)))); reflexivity.
Defined.

(** deferred messages are not always handed out in the order they were
    encountered: a user message deferred before a system message is delivered
    after it. *)
Theorem deferred_order_not_kept b s :
  snd (mailbox_run channel
    [DoSend (User b); DoSelect (λ _, false); DoSend (System s); DoSelect (λ _, false)]) = [] ∧
  stash (fst (mailbox_run channel
    [DoSend (User b); DoSelect (λ _, false); DoSend (System s); DoSelect (λ _, false)])) =
    [User b; System s] ∧
  snd (mailbox_run channel
    [DoSend (User b); DoSelect (λ _, false); DoSend (System s); DoSelect (λ _, false);
     DoRecv; DoRecv]) = [System s; User b].
Proof. done. Qed.
