(* ===== verification/MailboxConc.v ===== *)
(** * Concurrent senders on one mailbox ([src/src/mailbox.rs])

    [send] and the receive functions touch the shared counter and the channel
    in two separate atomic operations, so another thread can run between them.
    This file models each of those operations as a step of its own, with any
    number of senders in flight and one receiver, and relates [len] to the
    messages that are really queued at every point of every interleaving. *)
From S2P Require Import Prelude Mailbox.

(** ** State

    [incremented] sends have counted their message but not handed it to the
    channel; [failed] sends found the receiver gone and have not rolled the
    count back; [popping] says that the receiver has taken a user message out
    and not yet decremented; [dropped] user messages were queued when the
    receiver went away. *)
Record ConcMailbox := mkConc {
  mb : Mailbox;
  incremented : nat;
  failed : nat;
  popping : bool;
  dropped : nat
}.

Definition conc_init (c : ConcMailbox) : Prop := c = mkConc channel 0 0 false 0.

(** ** Steps *)
Inductive conc_step : ConcMailbox → ConcMailbox → Prop :=
| step_send_count m i f p d : senders m ≠ 0%nat →
    conc_step (mkConc m i f p d) (mkConc (fetch_add 1 m) (S i) f p d)
| step_send_push m m' i f p d b : tx_user_send b m = (m', Ok tt) →
    conc_step (mkConc m (S i) f p d) (mkConc m' i f p d)
| step_send_fail m m' i f p d b : tx_user_send b m = (m', Err b) →
    conc_step (mkConc m (S i) f p d) (mkConc m' i (S f) p d)
| step_send_rollback m i f p d :
    conc_step (mkConc m i (S f) p d) (mkConc (fetch_sub 1 m) i f p d)
| step_send_system m i f p d s : senders m ≠ 0%nat →
    conc_step (mkConc m i f p d) (mkConc (fst (tx_sys_send s m)) i f p d)
| step_clone m i f p d : senders m ≠ 0%nat →
    conc_step (mkConc m i f p d) (mkConc (clone_sender m) i f p d)
| step_drop_sender m i f p d :
    conc_step (mkConc m i f p d) (mkConc (drop_sender m) i f p d)
| step_pop_stash_user m i f d l1 b l2 :
    receiver_alive m = true → stash m = l1 ++ User b :: l2 →
    conc_step (mkConc m i f false d) (mkConc (set_stash (l1 ++ l2) m) i f true d)
| step_pop_user m i f d b q :
    receiver_alive m = true → rx_user m = b :: q →
    conc_step (mkConc m i f false d) (mkConc (set_user q m) i f true d)
| step_pop_done m i f d :
    conc_step (mkConc m i f true d) (mkConc (fetch_sub 1 m) i f false d)
| step_pop_stash_sys m i f d l1 s l2 :
    receiver_alive m = true → stash m = l1 ++ System s :: l2 →
    conc_step (mkConc m i f false d) (mkConc (set_stash (l1 ++ l2) m) i f false d)
| step_pop_sys m i f d s q :
    receiver_alive m = true → rx_sys m = s :: q →
    conc_step (mkConc m i f false d) (mkConc (set_sys q m) i f false d)
| step_defer_user m i f d b q :
    receiver_alive m = true → rx_user m = b :: q →
    conc_step (mkConc m i f false d)
      (mkConc (set_stash (stash m ++ [User b]) (set_user q m)) i f false d)
| step_defer_sys m i f d s q :
    receiver_alive m = true → rx_sys m = s :: q →
    conc_step (mkConc m i f false d)
      (mkConc (set_stash (stash m ++ [System s]) (set_sys q m)) i f false d)
| step_drop_receiver m i f d :
    receiver_alive m = true →
    conc_step (mkConc m i f false d)
      (mkConc (drop_receiver m) i f false (d + length (a_user (abs m)))).

(** User messages queued, counting the stash. *)
Definition queued (c : ConcMailbox) : nat := length (a_user (abs (mb c))).

(** What the counter stands for. *)
Definition accounted (c : ConcMailbox) : Z :=
  Z.of_nat (queued c + incremented c + failed c + Nat.b2n (popping c) + dropped c).

(** The receiver drops nothing before it goes away. *)
Definition conc_inv (c : ConcMailbox) : Prop :=
  counter (mb c) = ⌊accounted c⌋₆₄ ∧
  (receiver_alive (mb c) = true → dropped c = 0%nat ∧ failed c = 0%nat).

(** ** The invariant *)
Lemma conc_init_inv c : conc_init c → conc_inv c.
Proof. by intros ->. Qed.

Lemma abs_user_length m :
  length (a_user (abs m)) = (length (user_of (stash m)) + length (rx_user m))%nat.
Proof. apply length_app. Qed.

Lemma conc_step_inv c c' : conc_inv c → conc_step c c' → conc_inv c'.
Proof.
  unfold conc_inv, accounted, queued. intros [Hc Hd] Hs.
  destruct Hs; unfold tx_user_send, tx_sys_send in *; simpl mb in *; simpl popping in *;
    simpl incremented in *; simpl failed in *; simpl dropped in *; simpl Nat.b2n in *;
    rewrite !abs_user_length in *; repeat split_match; simplify_eq; simpl in *;
    repeat match goal with
    | E : stash ?x = _ |- _ => rewrite E in *; clear E
    | E : rx_user ?x = _ |- _ => rewrite E in *; clear E
    | E : rx_sys ?x = _ |- _ => rewrite E in *; clear E
    end;
    autorewrite with actor_rw in *; rewrite ?Hc, ?length_app in *; simpl in *;
    rewrite ?wrap_add_l, ?wrap_sub_l;
    (split; [f_equal; lia|intros Ha; try congruence; try destruct (Hd Ha); split; lia]).
Qed.

(** ** Properties *)

(** in every interleaving of any number of senders with the receiver the
    counter is the number of queued user messages plus the sends and receives
    that are half done plus what was dropped with the receiver; it therefore
    never underflows and, while the receiver lives, [len] is at least the
    number of queued messages and exact when nothing is half done. *)
Theorem concurrent_len c :
  reachable conc_init conc_step c → accounted c < 2 ^ 64 →
  len (mb c) = accounted c ∧
  (receiver_alive (mb c) = true →
     Z.of_nat (queued c) <= len (mb c) ∧
     len (mb c) = Z.of_nat (queued c) + Z.of_nat (incremented c) + Z.b2z (popping c)).
Proof.
  intros Hr Hb.
  assert (Hi : conc_inv c)
    by (eapply reachable_invariant; [apply conc_init_inv|apply conc_step_inv|exact Hr]).
  destruct Hi as [Hc Hd]. unfold len.
  assert (Hl : counter (mb c) = accounted c)
    by (rewrite Hc; apply wrap_small; unfold fits, accounted in *; lia).
  split; [done|]. intros Ha. destruct (Hd Ha) as [Hd0 Hf0]. unfold accounted in *.
  destruct (popping c); simpl in *; lia.
Qed.

Lemma concurrent_len_witness :
  let c := mkConc (set_user [[]] (fetch_add 1 (fetch_add 1 channel))) 1 0 false 0 in
  len (mb c) = accounted c ∧
  (receiver_alive (mb c) = true →
     Z.of_nat (queued c) <= len (mb c) ∧
     len (mb c) = Z.of_nat (queued c) + Z.of_nat (incremented c) + Z.b2z (popping c)).
Proof.
  apply concurrent_len; [|reflexivity].
  apply (reach_step _ _ (mkConc (fetch_add 1 (fetch_add 1 channel)) 2 0 false 0));
    [|by apply (step_send_push _ _ _ _ _ _ [])].
  apply (reach_step _ _ (mkConc (fetch_add 1 channel) 1 0 false 0)); [|by apply step_send_count].
  apply (reach_step _ _ (mkConc channel 0 0 false 0)); [|by apply step_send_count].
  by apply reach_init.
Defined.
