(* ===== verification/Registry.v ===== *)
(** * The name registry ([src/src/registry.rs])

    A map from names (or hierarchical paths) to PIDs, with two listings by path
    prefix.  A path is a byte string whose segments are separated by ['/'];
    every test the code makes on it looks for the ASCII byte ['/'] or compares
    prefixes, so working on bytes is exact for UTF-8 strings.  The order in
    which the concurrent map is iterated is unspecified: theorems about a
    listing speak of its members. *)
From S2P Require Import Prelude Pid.
From Stdlib Require Import Strings.String Strings.Ascii.

Abbreviation NameRegistry := (gmap string Pid).

(** ** String primitives the module uses *)
Definition is_slash (c : ascii) : bool := Ascii.eqb c "/"%char.

Fixpoint ends_with_slash (s : string) : bool :=
  match s with
  | EmptyString => false
  | String c EmptyString => is_slash c
  | String _ s' => ends_with_slash s'
  end.

(** [trim_end_matches('/')] *)
Fixpoint trim_end_slashes (s : string) : string :=
  match s with
  | EmptyString => EmptyString
  | String c s' =>
      let t := trim_end_slashes s' in
      if is_slash c && (t =? "")%string then EmptyString else String c t
  end.

Fixpoint contains_slash (s : string) : bool :=
  match s with
  | EmptyString => false
  | String c s' => is_slash c || contains_slash s'
  end.

Definition starts_with (key m : string) : bool := String.prefix m key.

(** [&key[n..]] *)
Fixpoint slice_from (n : nat) (s : string) : string :=
  match n, s with
  | S n', String _ s' => slice_from n' s'
  | _, _ => s
  end.

(** ** Operations *)
Definition registry_new : NameRegistry := ∅.

Definition register (names : NameRegistry) (name : string) (pid : Pid) : NameRegistry :=
  <[name := pid]> names.

Definition resolve (names : NameRegistry) (name : string) : option Pid := names !! name.

Definition unregister (names : NameRegistry) (name : string) : NameRegistry := delete name names.

Definition norm (prefix : string) : string :=
  if (prefix =? "")%string || (prefix =? "/")%string then ""
  else if ends_with_slash prefix then trim_end_slashes prefix
  else prefix.

Definition list_children (names : NameRegistry) (prefix : string) : list (string * Pid) :=
  let n := norm prefix in
  let matcher := if (n =? "")%string then None else Some (n +:+ "/") in
  List.filter
    (λ r : string * Pid,
       match matcher with
       | Some m => starts_with (fst r) m
       | None => true
       end)
    (map_to_list names).

Definition list_direct_children (names : NameRegistry) (prefix : string) : list (string * Pid) :=
  let n := norm prefix in
  let matcher := if (n =? "")%string then "" else n +:+ "/" in
  List.filter
    (λ r : string * Pid,
       let key := fst r in
       if negb (matcher =? "")%string then
         if negb (starts_with key matcher) then false
         else
           let tail := slice_from (String.length matcher) key in
           if contains_slash tail then false else true
       else
         let tail := if starts_with key "/" then slice_from 1 key else key in
         if contains_slash tail then false else true)
    (map_to_list names).

(** ** Lemmas on strings *)
Lemma starts_with_iff k m : starts_with k m = true ↔ ∃ t, k = m +:+ t.
Proof.
  unfold starts_with. revert k. induction m as [|c m IH]; intros k.
  { destruct k; split; intros _; by eauto. }
  destruct k as [|c' k]; [split; [discriminate|intros [t Ht]; discriminate]|].
  change (String.prefix (String c m) (String c' k))
    with (if ascii_dec c c' then String.prefix m k else false).
  destruct (ascii_dec c c') as [->|Hne].
  - rewrite IH. split; [intros [t ->]; by exists t|intros [t [= ->]]; by exists t].
  - split; [discriminate|intros [t [= ? ?]]; congruence].
Qed.

Lemma append_assoc a b c : (a +:+ b) +:+ c = a +:+ (b +:+ c).
Proof. induction a as [|x a IH]; [done|]. exact (f_equal (String x) IH). Qed.

Lemma slice_app m t : slice_from (String.length m) (m +:+ t) = t.
Proof. induction m as [|c m IH]; [by destruct t|exact IH]. Qed.

Lemma is_slash_iff c : is_slash c = true ↔ c = "/"%char.
Proof. apply Ascii.eqb_eq. Qed.

Lemma trim_snoc s : trim_end_slashes (s +:+ "/") = trim_end_slashes s.
Proof. induction s as [|c s IH]; [done|]. simpl. by rewrite IH. Qed.

Lemma ends_with_snoc s : ends_with_slash (s +:+ "/") = true.
Proof. induction s as [|c s IH]; [done|]. simpl. by destruct (s +:+ "/") eqn:E; [destruct s|]. Qed.

Lemma trim_no_slash s : ends_with_slash s = false → trim_end_slashes s = s.
Proof.
  induction s as [|c s IH]; [done|]. simpl. destruct s as [|c' s].
  - simpl. by intros ->.
  - intros H. rewrite (IH H). by rewrite andb_false_r.
Qed.

Lemma ends_with_trim s : ends_with_slash (trim_end_slashes s) = false.
Proof.
  induction s as [|c s IH]; [done|]. simpl.
  destruct (is_slash c) eqn:Ec, (trim_end_slashes s) as [|c' t] eqn:Et; simpl; try done; by rewrite Ec.
Qed.

(** [norm] removes every trailing slash. *)
Lemma norm_trim s : norm s = trim_end_slashes s.
Proof.
  unfold norm. destruct (String.eqb_spec s ""%string) as [->|Hs]; [done|].
  destruct (String.eqb_spec s "/"%string) as [->|Hs']; [done|]. simpl.
  destruct (ends_with_slash s) eqn:E; [done|]. by rewrite trim_no_slash.
Qed.

(** ** Members of the listings *)
Lemma list_filter_nodup (names : NameRegistry) f : NoDup (List.filter f (map_to_list names)).
Proof. apply NoDup_ListNoDup, List.NoDup_filter, NoDup_ListNoDup, NoDup_map_to_list. Qed.

Lemma if_negb_true (b : bool) : (if b then false else true) = true ↔ b = false.
Proof. by destruct b. Qed.

Lemma append_inj a b c : a +:+ b = a +:+ c → b = c.
Proof. induction a as [|x a IH]; [done|]. intros H. apply IH. by injection H. Qed.

Lemma list_children_elem names prefix k pid :
  (k, pid) ∈ list_children names prefix ↔
    resolve names k = Some pid ∧
    (trim_end_slashes prefix = "" ∨ ∃ t, k = trim_end_slashes prefix +:+ "/" +:+ t).
Proof.
  unfold list_children. rewrite norm_trim. set (n := trim_end_slashes prefix).
  rewrite list_elem_of_In, List.filter_In, <-list_elem_of_In, elem_of_map_to_list. simpl.
  unfold resolve. destruct (String.eqb_spec n ""%string) as [->|Hn]; [naive_solver|].
  rewrite starts_with_iff. setoid_rewrite append_assoc. naive_solver.
Qed.

Lemma list_direct_elem names prefix k pid :
  (k, pid) ∈ list_direct_children names prefix ↔
    resolve names k = Some pid ∧
    let n := trim_end_slashes prefix in
    ∃ t, contains_slash t = false ∧
      if (n =? "")%string then k = t ∨ k = "/" +:+ t else k = n +:+ "/" +:+ t.
Proof.
  unfold list_direct_children. rewrite norm_trim. set (n := trim_end_slashes prefix).
  rewrite list_elem_of_In, List.filter_In, <-list_elem_of_In, elem_of_map_to_list. simpl.
  unfold resolve. apply and_iff_compat_l.
  destruct (String.eqb_spec n ""%string) as [->|Hn]; simpl.
  - destruct (starts_with k "/") eqn:Es.
    + apply starts_with_iff in Es as [t ->].
      replace (slice_from 1 ("/" +:+ t)) with t by (by destruct t).
      rewrite if_negb_true. split; [intros Ht; exists t; by auto|].
      intros (t' & Ht' & [<-|Heq]); [discriminate|]. by apply append_inj in Heq as ->.
    + rewrite if_negb_true. split; [intros Ht; exists k; by auto|].
      intros (t' & Ht' & [->|Hk]); [done|].
      assert (starts_with k "/" = true) by (apply starts_with_iff; eauto). congruence.
  - assert (n +:+ "/" <> "")%string as Hne%String.eqb_neq by (by destruct n).
    rewrite Hne. simpl. destruct (starts_with k (n +:+ "/")) eqn:Es; simpl.
    + apply starts_with_iff in Es as [t ->]. rewrite slice_app, append_assoc, if_negb_true.
      split; [intros Ht; exists t; by auto|].
      intros (t' & Ht' & Heq). by apply append_inj, append_inj in Heq as ->.
    + split; [done|]. intros (t & _ & ->).
      assert (starts_with (n +:+ "/" +:+ t) (n +:+ "/") = true); [|congruence].
      apply starts_with_iff. exists t. by rewrite append_assoc.
Qed.

(** ** Properties *)

(** [register] binds exactly the given name, replacing an earlier binding;
    [unregister] unbinds exactly the given name; neither affects another
    name. *)
Theorem registry_laws names a b pid :
  resolve (register names a pid) a = Some pid ∧
  resolve (unregister names a) a = None ∧
  (a ≠ b → resolve (register names a pid) b = resolve names b) ∧
  (a ≠ b → resolve (unregister names a) b = resolve names b) ∧
  unregister (register names a pid) a = unregister names a.
Proof.
  unfold resolve, register, unregister. split_and!.
  - apply lookup_insert_eq.
  - apply lookup_delete_eq.
  - intros. by apply lookup_insert_ne.
  - intros. by apply lookup_delete_ne.
  - apply delete_insert_eq.
Qed.

(** [list_children] lists, each once, exactly the bindings strictly below
    the prefix, that is those whose key is the prefix without its trailing
    slashes, a slash and anything; when nothing of the prefix remains it lists
    every binding. *)
Theorem list_children_spec names prefix k pid :
  NoDup (list_children names prefix) ∧
  ((k, pid) ∈ list_children names prefix ↔
    resolve names k = Some pid ∧
    (trim_end_slashes prefix = "" ∨ ∃ t, k = trim_end_slashes prefix +:+ "/" +:+ t)).
Proof. split; [apply list_filter_nodup|apply list_children_elem]. Qed.

(** [list_direct_children] lists, each once, exactly the bindings one
    level below the prefix: the key is the prefix without its trailing
    slashes, a slash and one segment without a slash; when nothing of the
    prefix remains, a segment with or without a leading slash. *)
Theorem list_direct_children_spec names prefix k pid :
  NoDup (list_direct_children names prefix) ∧
  ((k, pid) ∈ list_direct_children names prefix ↔
    resolve names k = Some pid ∧
    let n := trim_end_slashes prefix in
    ∃ t, contains_slash t = false ∧
      if (n =? "")%string then k = t ∨ k = "/" +:+ t else k = n +:+ "/" +:+ t).
Proof. split; [apply list_filter_nodup|apply list_direct_elem]. Qed.

(** every direct child is a child, and trailing slashes of the prefix
    change neither listing. *)
Theorem listings_agree names prefix :
  list_direct_children names prefix ⊆ list_children names prefix ∧
  list_children names (prefix +:+ "/") = list_children names prefix ∧
  list_direct_children names (prefix +:+ "/") = list_direct_children names prefix.
Proof.
  split_and!.
  - intros [k pid] [Hk (t & _ & Ht)]%list_direct_elem. apply list_children_elem.
    split; [done|]. destruct (String.eqb_spec (trim_end_slashes prefix) ""%string); eauto.
  - unfold list_children. by rewrite !norm_trim, trim_snoc.
  - unfold list_direct_children. by rewrite !norm_trim, trim_snoc.
Qed.

(** A tree of four registrations, as in the repository's tests. *)
Example listing_example :
  let names := register (register (register (register registry_new
    "/system/service/one" 1) "/system/service/two" 2) "/system/service/two/grand" 3) "top" 4 in
  list_direct_children names "/system/service/" ≡ₚ
    [("/system/service/one", 1); ("/system/service/two", 2)] ∧
  list_children names "/system/service/two" = [("/system/service/two/grand", 3)] ∧
  list_direct_children names "" = [("top", 4)].
Proof. vm_compute. split_and!; [|done..]. solve_Permutation. Qed.
