(* ===== verification/Buffer.v ===== *)
(** * The buffer registry ([src/src/buffer.rs])

    Zero-copy buffers handed to guest languages: an id names a byte vector until
    somebody takes or frees it.  The module's mutex makes each operation on the
    map atomic; [allocate] draws its id from an atomic counter first.  The raw
    pointer [ptr_len] returns is represented by the bytes it points to.

    [allocate] makes its vector under the mutex: a size beyond [isize::MAX] is a
    capacity overflow, which panics there and poisons the mutex; from then on
    [lock().unwrap()] panics in every operation. *)
From S2P Require Import Prelude.
From Stdlib Require Import Strings.Byte.

Abbreviation BufferId := Z.

Record BufferRegistry := mkBuffers { inner : gmap BufferId (list byte); next : Z; buf_poisoned : bool }.

(** What an operation under the mutex comes to: its value, or a panic. *)
Inductive locked (A : Type) := Value (a : A) | Panicked.
Arguments Value {A} a.
Arguments Panicked {A}.

Definition isize_max : Z := 2 ^ 63 - 1.

(** ** Operations *)
Definition buffers_new : BufferRegistry := mkBuffers ∅ 1 false.

(** [let mut map = self.inner.lock().unwrap()] and what is done with the map. *)
Definition with_buffers {A} (r : BufferRegistry) (f : gmap BufferId (list byte) → gmap BufferId (list byte) * A)
  : BufferRegistry * locked A :=
  if buf_poisoned r then (r, Panicked)
  else let (m, a) := f (inner r) in (mkBuffers m (next r) false, Value a).

Definition buf_allocate (r : BufferRegistry) (size : Z) : BufferRegistry * locked BufferId :=
  let id := next r in
  let r := mkBuffers (inner r) ⌊next r + 1⌋₆₄ (buf_poisoned r) in
  if buf_poisoned r then (r, Panicked)
  else if isize_max <? size then (mkBuffers (inner r) (next r) true, Panicked)
  else (mkBuffers (<[id := replicate (Z.to_nat size) x00]> (inner r)) (next r) false, Value id).

Definition ptr_len (r : BufferRegistry) (id : BufferId) : locked (option (list byte * nat)) :=
  snd (with_buffers r (λ map, (map, (λ v, (v, length v)) <$> map !! id))).

Definition buf_take (r : BufferRegistry) (id : BufferId) : BufferRegistry * locked (option (list byte)) :=
  with_buffers r (λ map, (delete id map, map !! id)).

Definition buf_free (r : BufferRegistry) (id : BufferId) : BufferRegistry * locked unit :=
  with_buffers r (λ map, (delete id map, tt)).

(** ** Call sequences, the ids they allocate and the ids they take *)
Inductive buf_op := BufAllocate (size : Z) | BufTake (id : BufferId) | BufFree (id : BufferId).

Inductive buf_event := Allocated (id : BufferId) | Taken (id : BufferId) | Nothing.

Definition buf_run1 (r : BufferRegistry) (o : buf_op) : BufferRegistry * buf_event :=
  match o with
  | BufAllocate size =>
      match buf_allocate r size with
      | (r', Value id) => (r', Allocated id)
      | (r', Panicked) => (r', Nothing)
      end
  | BufTake id =>
      match buf_take r id with
      | (r', Value (Some _)) => (r', Taken id)
      | (r', _) => (r', Nothing)
      end
  | BufFree id => (fst (buf_free r id), Nothing)
  end.

Fixpoint buf_run (r : BufferRegistry) (os : list buf_op) : BufferRegistry * list buf_event :=
  match os with
  | [] => (r, [])
  | o :: os' =>
      let (r1, e) := buf_run1 r o in
      let (r2, es) := buf_run r1 os' in (r2, e :: es)
  end.

Definition allocated (es : list buf_event) : list BufferId :=
  omap (λ e, match e with Allocated id => Some id | _ => None end) es.

Definition taken (es : list buf_event) : list BufferId :=
  omap (λ e, match e with Taken id => Some id | _ => None end) es.

(** Live ids were drawn from the counter. *)
Definition buffers_ok (r : BufferRegistry) : Prop :=
  1 <= next r ∧ ∀ id, is_Some (inner r !! id) → 1 <= id < next r.

(** An id that names nothing and will never be drawn again. *)
Definition spent (r : BufferRegistry) (id : BufferId) : Prop :=
  inner r !! id = None ∧ id < next r.

(** ** Lemmas *)
Lemma buffers_new_ok : buffers_ok buffers_new.
Proof. split; simpl; [lia|]. intros id [v Hv]. by rewrite lookup_empty in Hv. Qed.

Lemma buf_take_eq r id : buf_take r id =
  if buf_poisoned r then (r, Panicked) else (mkBuffers (delete id (inner r)) (next r) false, Value (inner r !! id)).
Proof. done. Qed.

Lemma buf_free_eq r id : buf_free r id =
  if buf_poisoned r then (r, Panicked) else (mkBuffers (delete id (inner r)) (next r) false, Value tt).
Proof. done. Qed.

Lemma buf_allocate_eq r size : next r + 1 < 2 ^ 64 → 1 <= next r → buf_allocate r size =
  if buf_poisoned r || (isize_max <? size) then (mkBuffers (inner r) (next r + 1) true, Panicked)
  else (mkBuffers (<[next r := replicate (Z.to_nat size) x00]> (inner r)) (next r + 1) false, Value (next r)).
Proof.
  intros H1 H2. unfold buf_allocate. simpl. rewrite wrap_small by (unfold fits; lia).
  by destruct (buf_poisoned r), (isize_max <? size).
Qed.

Lemma buf_delete_ok r id b : buffers_ok r → buffers_ok (mkBuffers (delete id (inner r)) (next r) b).
Proof. intros [Hn Hd]. split; [done|]. simpl. intros id' [v [_ Hv]%lookup_delete_Some]. eauto. Qed.

Lemma spent_delete r id id' b : spent r id' → spent (mkBuffers (delete id (inner r)) (next r) b) id'.
Proof. intros [Hs Hl]. split; [|done]. simpl. apply lookup_delete_None. auto. Qed.

Lemma buf_take_ok r id : buffers_ok r → buffers_ok (fst (buf_take r id)).
Proof. intros H. rewrite buf_take_eq. destruct (buf_poisoned r); [done|]. by apply buf_delete_ok. Qed.

Lemma buf_free_ok r id : buffers_ok r → buffers_ok (fst (buf_free r id)).
Proof. intros H. rewrite buf_free_eq. destruct (buf_poisoned r); [done|]. by apply buf_delete_ok. Qed.

Lemma buf_allocate_ok r size : buffers_ok r → next r + 1 < 2 ^ 64 → buffers_ok (fst (buf_allocate r size)).
Proof.
  intros [H1 Hd] Hn. rewrite buf_allocate_eq by done. destruct (_ || _); (split; simpl; [lia|]).
  - intros id Hid%Hd. lia.
  - intros id [v [[<- _]|[_ Hv]]%lookup_insert_Some]; [lia|]. assert (1 <= id < next r) by eauto. lia.
Qed.

Lemma buf_run1_spec r o : buffers_ok r → next r + 1 < 2 ^ 64 →
  let (r', e) := buf_run1 r o in
  buffers_ok r' ∧ next r <= next r' <= next r + 1 ∧ (∀ id, spent r id → spent r' id) ∧
  match e with
  | Allocated id => id = next r ∧ next r' = next r + 1
  | Taken id => is_Some (inner r !! id) ∧ spent r' id
  | Nothing => True
  end.
Proof.
  intros Hok Hn. assert (H := Hok). destruct H as [H1 Hd]. destruct o as [size|id|id]; cbn [buf_run1].
  - assert (Ha := buf_allocate_ok r size Hok Hn). rewrite buf_allocate_eq in Ha |- * by done.
    destruct (_ || _); (split; [done|]; split; [simpl; lia|]; split; [|done]); intros id [Hs Hl]; (split; simpl; [|lia]); [done|].
    rewrite lookup_insert_ne; [done|lia].
  - assert (Ht := buf_take_ok r id Hok). rewrite buf_take_eq in Ht |- *.
    destruct (buf_poisoned r); [split_and!; [done|lia|lia|done|done]|].
    destruct (inner r !! id) as [v|] eqn:E; (split; [done|]; split; [simpl; lia|]; split; [intros id'; by apply spent_delete|]); [|done].
    split; [by eexists|]. split; simpl; [apply lookup_delete_eq|apply Hd; eauto].
  - assert (Hf := buf_free_ok r id Hok). rewrite buf_free_eq in Hf |- *.
    destruct (buf_poisoned r); (split_and!; [done|simpl; lia|simpl; lia| |done]); [done|]. intros id'. by apply spent_delete.
Qed.

Lemma buf_run_spec os r : buffers_ok r → next r + Z.of_nat (length os) < 2 ^ 64 →
  let (r', es) := buf_run r os in
  buffers_ok r' ∧
  NoDup (allocated es) ∧ (∀ id, id ∈ allocated es → next r <= id) ∧
  NoDup (taken es) ∧ (∀ id, id ∈ taken es → ¬ spent r id).
Proof.
  revert r. induction os as [|o os IH]; intros r Hok Hn; simpl.
  { split; [done|]. split_and!; first [apply NoDup_nil_2|set_solver]. }
  assert (H1 := buf_run1_spec r o Hok). destruct (buf_run1 r o) as [r1 e].
  simpl in Hn. destruct H1 as (Hok1 & Hn1 & Hsp & He); [lia|].
  specialize (IH r1 Hok1). destruct (buf_run r1 os) as [r2 es].
  destruct IH as (Hok2 & Hnd & Hge & Hndt & Hnt); [lia|].
  assert (Hge' : ∀ id, id ∈ allocated es → next r <= id).
  { intros id Hid. specialize (Hge id Hid). lia. }
  assert (Hnt' : ∀ id, id ∈ taken es → ¬ spent r id) by (intros id Hid Hs; by apply (Hnt id), Hsp).
  destruct e as [id|id|]; simpl; [| |by auto].
  - destruct He as [-> Hnx]. split_and!; [done| |set_solver by lia|done|done].
    constructor; [|done]. intros Hin%Hge. lia.
  - destruct He as [[v Hv] Hs]. split_and!; [done|done|done| |].
    + constructor; [|done]. intros Hin%Hnt. by destruct Hin.
    + intros id' [->|Hin]%elem_of_cons; [|by auto]. intros [Hs' _]. congruence.
Qed.

(** ** Properties *)

(** over any sequence of calls shorter than [2^64 - 1] every [allocate]
    returns a new id, and no id is taken successfully more than once, so a
    buffer has at most one owner. *)
Theorem buffer_ownership os :
  Z.of_nat (length os) < 2 ^ 64 - 1 →
  let (_, es) := buf_run buffers_new os in NoDup (allocated es) ∧ NoDup (taken es).
Proof.
  intros Hn. assert (H := buf_run_spec os buffers_new buffers_new_ok).
  destruct (buf_run buffers_new os) as [r es]. destruct H as (_ & Ha & _ & Ht & _); [simpl; lia|done].
Qed.

Lemma buffer_ownership_witness :
  let (_, es) := buf_run buffers_new
    [BufAllocate 2; BufTake 1; BufTake 1; BufAllocate 1; BufFree 2; BufTake 2] in
  NoDup (allocated es) ∧ NoDup (taken es).
Proof.
  apply (buffer_ownership [BufAllocate 2; BufTake 1; BufTake 1; BufAllocate 1; BufFree 2; BufTake 2]).
  reflexivity.
Defined.

(** a freshly allocated buffer is [size] zero bytes; taking it returns
    them once and afterwards, like after freeing it, the id names nothing;
    other ids are unaffected. *)
Theorem buffer_lifecycle r size id r1 i : buf_allocate r size = (r1, Value i) →
  ptr_len r1 i = Value (Some (replicate (Z.to_nat size) x00, Z.to_nat size)) ∧
  snd (buf_take r1 i) = Value (Some (replicate (Z.to_nat size) x00)) ∧
  ptr_len (fst (buf_take r1 i)) i = Value None ∧ ptr_len (fst (buf_free r1 i)) i = Value None ∧
  (id ≠ i → ptr_len r1 id = ptr_len r id ∧ ptr_len (fst (buf_take r1 i)) id = ptr_len r id).
Proof.
  unfold buf_allocate, buf_take, buf_free, ptr_len, with_buffers. cbn [buf_poisoned]. intros H.
  destruct (buf_poisoned r); [done|]. destruct (isize_max <? size); [done|]. injection H as <- <-. simpl.
  rewrite lookup_insert_eq, !lookup_delete_eq. simpl. rewrite length_replicate.
  split_and!; try done. intros Hne. by rewrite lookup_delete_ne, lookup_insert_ne by done.
Qed.

(** an allocation beyond [isize::MAX] panics and leaves a registry on which
    every operation panics, without a way back. *)
Theorem poisoned_for_good r size id size' :
  isize_max < size →
  let r1 := fst (buf_allocate r size) in
  snd (buf_allocate r size) = Panicked ∧ snd (buf_allocate r1 size') = Panicked ∧ snd (buf_take r1 id) = Panicked ∧
  snd (buf_free r1 id) = Panicked ∧ ptr_len r1 id = Panicked ∧
  buf_poisoned (fst (buf_allocate r1 size')) = true ∧ buf_poisoned (fst (buf_take r1 id)) = true ∧
  buf_poisoned (fst (buf_free r1 id)) = true.
Proof.
  intros H%Z.ltb_lt. unfold buf_allocate, buf_take, buf_free, ptr_len, with_buffers. rewrite H. simpl.
  destruct (buf_poisoned r) eqn:E; simpl; by rewrite ?E.
Qed.

Lemma buffer_lifecycle_witness :
  buf_allocate buffers_new 2 = (mkBuffers {[ 1 := [x00; x00] ]} 2 false, Value 1) ∧
  snd (buf_take (mkBuffers {[ 1 := [x00; x00] ]} 2 false) 1) = Value (Some [x00; x00]).
Proof.
  split; [reflexivity|].
  apply (buffer_lifecycle buffers_new 2 5 (mkBuffers {[ 1 := [x00; x00] ]} 2 false) 1). reflexivity.
Defined.

Lemma poisoned_for_good_witness :
  snd (buf_allocate buffers_new (2 ^ 63)) = Panicked ∧
  snd (buf_take (fst (buf_allocate buffers_new (2 ^ 63))) 1) = Panicked.
Proof. split; apply (poisoned_for_good buffers_new (2 ^ 63) 1 0); reflexivity. Defined.
