(* ===== verification/Supervisor.v ===== *)
(** * Supervisors ([src/src/supervisor.rs])

    A supervisor keeps child specifications, bidirectional links, the errors of
    failed restarts and the set of PIDs being restarted.  [notify_exit] starts
    background restart tasks; a task calls the child's factory up to three
    times, with an exponential pause between the calls, and then swaps the new
    PID in or drops the child.

    A factory is arbitrary user code: here a value of an abstract type [F], or
    the constant factory that [watch] builds.  Each operation of the supervisor
    is modelled as a function on its state; a restart task is a value, and
    [restart_attempt] is one turn of its loop once the factory has answered, so
    that a runtime can interleave the turns of many tasks with everything else.
    Maps are iterated in an unspecified order; theorems do not depend on it.

    Here every operation is one step.  [link], [unlink], [linked_pids],
    [remove_child] and [notify_exit] are several map operations in the source,
    between which other calls can run: [SupervisorConc] has them one by one, says
    when the steps here are what they come to, and what goes wrong when a
    clean-up falls between the two operations of [link]. *)
From S2P Require Import Prelude Pid.

Section supervisor.
Context {F : Type}.

(** ** Data *)
Inductive RestartStrategy := RestartOne | RestartAll.

Inductive Factory :=
| ConstPid (pid : Pid)
| UserFactory (f : F).

Record ChildSpec := mkSpec { factory : Factory; strategy : RestartStrategy }.

Record Supervisor := mkSup {
  children : gmap Pid ChildSpec;
  errors : list string;
  links : gmap Pid (list Pid);
  restarting : gset Pid
}.

(** The captured variables of a spawned restart task. *)
Record RestartTask := mkTask {
  orig_pid : Pid;
  spec : ChildSpec;
  attempts : Z;
  backoff_ms : Z
}.

Definition max_attempts : Z := 3.

Definition set_children (c : gmap Pid ChildSpec) (s : Supervisor) : Supervisor :=
  mkSup c (errors s) (links s) (restarting s).

Definition set_links (l : gmap Pid (list Pid)) (s : Supervisor) : Supervisor :=
  mkSup (children s) (errors s) l (restarting s).

Definition set_restarting (r : gset Pid) (s : Supervisor) : Supervisor :=
  mkSup (children s) (errors s) (links s) r.

Definition push_error (e : string) (s : Supervisor) : Supervisor :=
  mkSup (children s) (errors s ++ [e]) (links s) (restarting s).

(** ** Operations *)
Definition supervisor_new : Supervisor := mkSup ∅ [] ∅ ∅.

Definition add_child (pid : Pid) (sp : ChildSpec) (s : Supervisor) : Supervisor :=
  set_children (<[pid := sp]> (children s)) s.

(** [entry.retain(|&p| p != b)] on the entry of [a], if there is one. *)
Definition retain_ne (b : Pid) (a : Pid) (l : gmap Pid (list Pid)) : gmap Pid (list Pid) :=
  alter (filter (λ p, p ≠ b)) a l.

(** Remove the entry of [pid] and [pid] from the lists of its peers. *)
Definition purge_links (pid : Pid) (l : gmap Pid (list Pid)) : gmap Pid (list Pid) :=
  match l !! pid with
  | Some linked_peers =>
      fold_left (λ acc peer, retain_ne pid peer acc) linked_peers (delete pid l)
  | None => l
  end.

Definition cleanup_links_internal (pid : Pid) (s : Supervisor) : Supervisor :=
  set_links (purge_links pid (links s)) s.

Definition remove_child (pid : Pid) (s : Supervisor) : Supervisor :=
  let s1 := set_children (delete pid (children s)) s in
  let s2 := set_restarting (restarting s1 ∖ {[pid]}) s1 in
  cleanup_links_internal pid s2.

(** Two operations of the map, here one step, as in [link] and [linked_pids]. *)
Definition unlink (a b : Pid) (s : Supervisor) : Supervisor :=
  set_links (retain_ne a b (retain_ne b a (links s))) s.

Definition watch (pid : Pid) (s : Supervisor) : Supervisor :=
  set_children (<[pid := mkSpec (ConstPid pid) RestartOne]> (children s)) s.

(** [entry(a).or_insert_with(Vec::new).push(b)] *)
Definition push_link (a b : Pid) (l : gmap Pid (list Pid)) : gmap Pid (list Pid) :=
  <[a := default [] (l !! a) ++ [b]]> l.

(** Two operations of the map, here one step; see [SupervisorConc.p_link]. *)
Definition link (a b : Pid) (s : Supervisor) : Supervisor :=
  set_links (push_link b a (push_link a b (links s))) s.

(** The removal of the entry and of [pid] from its peers' lists, here one step;
    see [SupervisorConc.p_linked_pids]. *)
Definition linked_pids (pid : Pid) (s : Supervisor) : Supervisor * list Pid :=
  match links s !! pid with
  | Some linked_peers => (set_links (purge_links pid (links s)) s, linked_peers)
  | None => (s, [])
  end.

Definition unwatch (pid : Pid) (s : Supervisor) : Supervisor :=
  let s1 := set_children (delete pid (children s)) s in
  set_restarting (restarting s1 ∖ {[pid]}) s1.

Definition contains_child (pid : Pid) (s : Supervisor) : bool :=
  bool_decide (is_Some (children s !! pid)).

Definition children_count (s : Supervisor) : nat := size (children s).

Definition child_pids (s : Supervisor) : list Pid := fst <$> map_to_list (children s).

Definition spawn_restart (pid : Pid) (sp : ChildSpec) : RestartTask := mkTask pid sp 0 100.

Definition notify_exit (pid : Pid) (s : Supervisor) : Supervisor * list RestartTask :=
  if bool_decide (pid ∈ restarting s) then (s, [])
  else
    let s1 := set_restarting ({[pid]} ∪ restarting s) s in
    match children s1 !! pid with
    | None => (set_restarting (restarting s1 ∖ {[pid]}) s1, [])
    | Some sp =>
        match strategy sp with
        | RestartAll =>
            let all := map_to_list (children s1) in
            let s2 := set_restarting (list_to_set (fst <$> all) ∪ restarting s1) s1 in
            (s2, (λ kv, spawn_restart (fst kv) (snd kv)) <$> all)
        | RestartOne => (s1, [spawn_restart pid sp])
        end
    end.

(** What a restart task does after a turn of its loop. *)
Inductive task_next :=
| Finished
| Sleep (ms : Z) (t : RestartTask).

(** One turn of a restart task's loop, the factory having answered [r].  The
    source writes the loop twice, once per strategy, with the same body. *)
Definition restart_attempt (t : RestartTask) (r : result Pid string) (s : Supervisor)
  : Supervisor * task_next :=
  let pid := orig_pid t in
  let n := attempts t + 1 in
  match r with
  | Ok new_pid =>
      let s1 := set_children (<[new_pid := spec t]> (children s)) s in
      let s2 := set_children (delete pid (children s1)) s1 in
      let s3 := set_links (purge_links pid (links s2)) s2 in
      (set_restarting (restarting s3 ∖ {[pid]}) s3, Finished)
  | Err err =>
      let s1 := push_error err s in
      if max_attempts <=? n then
        let s2 := set_children (delete pid (children s1)) s1 in
        let s3 := set_links (purge_links pid (links s2)) s2 in
        (set_restarting (restarting s3 ∖ {[pid]}) s3, Finished)
      else
        (s1, Sleep (backoff_ms t)
               (mkTask pid (spec t) n (Z.min (2 ^ 64 - 1) (backoff_ms t * 2))))
  end.

(** ** A task run on its own

    [answers] are the results of successive factory calls; the run gives the
    supervisor, the pauses made and whether the task has finished. *)
Fixpoint task_run (t : RestartTask) (answers : list (result Pid string)) (s : Supervisor)
  : Supervisor * list Z * bool :=
  match answers with
  | [] => (s, [], false)
  | r :: rs =>
      match restart_attempt t r s with
      | (s', Finished) => (s', [], true)
      | (s', Sleep ms t') =>
          let '(s'', pauses, fin) := task_run t' rs s' in (s'', ms :: pauses, fin)
      end
  end.

(** ** A supervisor together with its restart tasks *)
Record SupSystem := mkSys { sup : Supervisor; tasks : list RestartTask }.

Definition sys_init (y : SupSystem) : Prop := y = mkSys supervisor_new [].

Inductive sys_step : SupSystem → SupSystem → Prop :=
| sys_add pid sp s ts : sys_step (mkSys s ts) (mkSys (add_child pid sp s) ts)
| sys_remove pid s ts : sys_step (mkSys s ts) (mkSys (remove_child pid s) ts)
| sys_watch pid s ts : sys_step (mkSys s ts) (mkSys (watch pid s) ts)
| sys_unwatch pid s ts : sys_step (mkSys s ts) (mkSys (unwatch pid s) ts)
| sys_link a b s ts : sys_step (mkSys s ts) (mkSys (link a b s) ts)
| sys_unlink a b s ts : sys_step (mkSys s ts) (mkSys (unlink a b s) ts)
| sys_linked pid s ts : sys_step (mkSys s ts) (mkSys (fst (linked_pids pid s)) ts)
| sys_notify pid s s' ts new : notify_exit pid s = (s', new) →
    sys_step (mkSys s ts) (mkSys s' (ts ++ new))
| sys_finish s s' ts1 t ts2 r : restart_attempt t r s = (s', Finished) →
    sys_step (mkSys s (ts1 ++ t :: ts2)) (mkSys s' (ts1 ++ ts2))
| sys_retry s s' ts1 t ts2 r ms t' : restart_attempt t r s = (s', Sleep ms t') →
    sys_step (mkSys s (ts1 ++ t :: ts2)) (mkSys s' (ts1 ++ t' :: ts2)).

(** ** Specification vocabulary *)
Definition linked (l : gmap Pid (list Pid)) (a : Pid) : list Pid := default [] (l !! a).

(** Links are bidirectional. *)
Definition links_symmetric (l : gmap Pid (list Pid)) : Prop :=
  ∀ a b, a ∈ linked l b ↔ b ∈ linked l a.

(** A PID marked as restarting has a task that will unmark it, and a task
    has calls left. *)
Definition sys_inv (y : SupSystem) : Prop :=
  links_symmetric (links (sup y)) ∧
  (∀ pid, pid ∈ restarting (sup y) → ∃ t, t ∈ tasks y ∧ orig_pid t = pid) ∧
  Forall (λ t, 0 <= attempts t < max_attempts) (tasks y).

(** Factory calls the running tasks can still make. *)
Definition calls_left (ts : list RestartTask) : Z :=
  foldr (λ t n, (max_attempts - attempts t) + n) 0 ts.
End supervisor.

Arguments Factory : clear implicits.
Arguments ChildSpec : clear implicits.
Arguments Supervisor : clear implicits.
Arguments RestartTask : clear implicits.
Arguments task_next : clear implicits.
Arguments SupSystem : clear implicits.

Section supervisor_lemmas.
Context {F : Type}.
Implicit Types (s : Supervisor F) (t : RestartTask F) (l : gmap Pid (list Pid)) (p q a b : Pid).

(** ** Links *)
Lemma linked_retain l b a q :
  linked (retain_ne b a l) q = if decide (q = a) then filter (λ p, p ≠ b) (linked l q) else linked l q.
Proof.
  unfold linked, retain_ne. destruct (decide (q = a)) as [->|Hne].
  - rewrite lookup_alter_eq. by destruct (l !! a).
  - by rewrite lookup_alter_ne.
Qed.

Lemma linked_push l a b q :
  linked (push_link a b l) q = if decide (q = a) then linked l q ++ [b] else linked l q.
Proof.
  unfold linked, push_link. destruct (decide (q = a)) as [->|Hne].
  - by rewrite lookup_insert_eq.
  - by rewrite lookup_insert_ne.
Qed.

Lemma elem_of_linked_fold p ps l q x :
  x ∈ linked (fold_left (λ acc peer, retain_ne p peer acc) ps l) q ↔
  x ∈ linked l q ∧ (q ∈ ps → x ≠ p).
Proof.
  revert l. induction ps as [|r ps IH]; intros l; simpl; [set_solver|].
  rewrite IH, linked_retain. destruct (decide (q = r)) as [->|Hne].
  - rewrite list_elem_of_filter. set_solver.
  - set_solver.
Qed.

Lemma linked_delete p l q : linked (delete p l) q = if decide (q = p) then [] else linked l q.
Proof.
  unfold linked. destruct (decide (q = p)) as [->|Hne].
  - by rewrite lookup_delete_eq.
  - by rewrite lookup_delete_ne.
Qed.

Lemma elem_of_linked_purge p l q x : links_symmetric l →
  x ∈ linked (purge_links p l) q ↔ x ∈ linked l q ∧ q ≠ p ∧ x ≠ p.
Proof.
  intros Hsym. unfold purge_links. destruct (l !! p) as [peers|] eqn:Ep.
  - assert (Hp : linked l p = peers) by (unfold linked; by rewrite Ep).
    rewrite elem_of_linked_fold, linked_delete, <-Hp. destruct (decide (q = p)) as [->|Hne]; [set_solver|].
    split; [|naive_solver]. intros [Hx Hq]. split_and!; try done. intros ->.
    by apply Hq; [apply Hsym|].
  - assert (Hp : linked l p = []) by (unfold linked; by rewrite Ep).
    split; [|naive_solver]. intros Hx. split_and!; [done| |].
    + intros ->. rewrite Hp in Hx. by apply elem_of_nil in Hx.
    + intros ->. apply Hsym in Hx. rewrite Hp in Hx. by apply elem_of_nil in Hx.
Qed.

Lemma symmetric_purge p l : links_symmetric l → links_symmetric (purge_links p l).
Proof. intros Hsym a b. rewrite !elem_of_linked_purge by done. specialize (Hsym a b). naive_solver. Qed.

Lemma symmetric_link a b l : links_symmetric l → links_symmetric (push_link b a (push_link a b l)).
Proof.
  intros Hsym x y. specialize (Hsym x y). rewrite !linked_push.
  repeat case_decide; subst; rewrite ?elem_of_app, ?list_elem_of_singleton; naive_solver.
Qed.

Lemma symmetric_unlink a b l : links_symmetric l → links_symmetric (retain_ne a b (retain_ne b a l)).
Proof.
  intros Hsym x y. specialize (Hsym x y). rewrite !linked_retain.
  repeat case_decide; subst; rewrite ?list_elem_of_filter; naive_solver.
Qed.

Lemma symmetric_empty : links_symmetric ∅.
Proof. intros a b. unfold linked. rewrite !lookup_empty. set_solver. Qed.

Hint Resolve symmetric_purge symmetric_link symmetric_unlink symmetric_empty : actor.

Lemma linked_pids_eq p s :
  linked_pids p s = (set_links (purge_links p (links s)) s, linked (links s) p).
Proof.
  unfold linked_pids, purge_links, linked. destruct (links s !! p) eqn:E; [done|].
  by destruct s.
Qed.

(** ** [notify_exit] *)
Lemma notify_exit_debounced p s : p ∈ restarting s → notify_exit p s = (s, []).
Proof. intros H. unfold notify_exit. by rewrite bool_decide_eq_true_2. Qed.

Lemma notify_exit_unknown p s : children s !! p = None → notify_exit p s = (s, []).
Proof.
  intros Hc. unfold notify_exit. case_bool_decide as Hr; [done|]. simpl. rewrite Hc.
  f_equal. destruct s as [c e l r]. unfold set_restarting. simpl in *. f_equal. set_solver.
Qed.

Lemma notify_exit_one p s sp :
  p ∉ restarting s → children s !! p = Some sp → strategy sp = RestartOne →
  notify_exit p s = (set_restarting ({[p]} ∪ restarting s) s, [spawn_restart p sp]).
Proof. intros Hr Hc Hs. unfold notify_exit. rewrite bool_decide_eq_false_2 by done. simpl. by rewrite Hc, Hs. Qed.

Lemma notify_exit_all p s sp :
  p ∉ restarting s → children s !! p = Some sp → strategy sp = RestartAll →
  notify_exit p s =
    (set_restarting (dom (children s) ∪ restarting s) s,
     (λ kv, spawn_restart kv.1 kv.2) <$> map_to_list (children s)).
Proof.
  intros Hr Hc Hs. unfold notify_exit. rewrite bool_decide_eq_false_2 by done. simpl. rewrite Hc, Hs.
  f_equal. destruct s as [c e l r]. unfold set_restarting. simpl in *. f_equal.
  rewrite <-(leibniz_equiv _ _ (dom_alt c)). assert (p ∈ dom c) by (apply elem_of_dom; eauto). set_solver.
Qed.

(** The tasks [notify_exit] starts, in every case. *)
Lemma notify_exit_tasks p s s' new : notify_exit p s = (s', new) →
  links s' = links s ∧ children s' = children s ∧ errors s' = errors s ∧
  (∀ q, q ∈ restarting s' → q ∈ restarting s ∨ ∃ t, t ∈ new ∧ orig_pid t = q) ∧
  Forall (λ t, attempts t = 0 ∧ backoff_ms t = 100 ∧ children s !! orig_pid t = Some (spec t)) new.
Proof.
  intros H. destruct (decide (p ∈ restarting s)) as [Hr|Hr].
  { rewrite notify_exit_debounced in H by done. injection H as <- <-. auto 10. }
  destruct (children s !! p) as [sp|] eqn:Hc;
    [|rewrite notify_exit_unknown in H by done; injection H as <- <-; auto 10].
  destruct (strategy sp) eqn:Hs.
  - rewrite (notify_exit_one p s sp) in H by done. injection H as <- <-. simpl.
    split_and!; [done..| |by repeat constructor].
    intros q [->%elem_of_singleton|Hq]%elem_of_union; [|auto]. right. eexists. split; [by left|done].
  - rewrite (notify_exit_all p s sp) in H by done. injection H as <- <-. simpl.
    split_and!; [done..| |].
    + intros q [[sq Hq]%elem_of_dom|Hq]%elem_of_union; [|auto]. right.
      exists (spawn_restart q sq). split; [|done].
      apply list_elem_of_fmap. exists (q, sq). by rewrite elem_of_map_to_list.
    + apply Forall_fmap, Forall_forall. intros [q sq] Hq. simpl. by rewrite <-elem_of_map_to_list.
Qed.

(** ** Restart tasks *)
Lemma restart_attempt_spec t r s :
  let '(s', next) := restart_attempt t r s in
  match next with
  | Finished =>
      links s' = purge_links (orig_pid t) (links s) ∧
      restarting s' = restarting s ∖ {[orig_pid t]}
  | Sleep ms t' =>
      links s' = links s ∧ restarting s' = restarting s ∧ children s' = children s ∧
      orig_pid t' = orig_pid t ∧ spec t' = spec t ∧ attempts t' = attempts t + 1 ∧
      attempts t' < max_attempts
  end.
Proof.
  unfold restart_attempt. destruct r as [np|e]; simpl; [done|].
  destruct (max_attempts <=? attempts t + 1) eqn:E; simpl; [done|]. by breflect.
Qed.

Lemma sys_init_inv (y : SupSystem F) : sys_init y → sys_inv y.
Proof. intros ->. split_and!; simpl; [apply symmetric_empty|set_solver|constructor]. Qed.

Lemma sys_step_inv (y y' : SupSystem F) : sys_inv y → sys_step y y' → sys_inv y'.
Proof.
  intros (Hl & Hr & Ht) Hs. unfold sys_inv.
  destruct Hs; simpl in *; try (split_and!; by auto with actor).
  - split_and!; [by auto with actor|set_solver|done].
  - split_and!; [by auto with actor|set_solver|done].
  - rewrite linked_pids_eq. simpl. split_and!; [by auto with actor|done..].
  - apply notify_exit_tasks in H as (-> & _ & _ & Hnew & Hz). split_and!; [done| |].
    + intros q [Hq|(t & Ht' & <-)]%Hnew; [destruct (Hr q Hq) as (t & ? & <-)|]; exists t; set_solver.
    + apply Forall_app; split; [done|]. eapply Forall_impl; [exact Hz|].
      intros t' (-> & _). unfold max_attempts. lia.
  - assert (Ha := restart_attempt_spec t r s). rewrite H in Ha. destruct Ha as [-> ->].
    split_and!; [by auto with actor| |].
    + intros q [Hq Hne]%elem_of_difference. destruct (Hr q Hq) as (t' & Ht' & <-).
      exists t'. split; [|done]. apply elem_of_app in Ht' as [|[->|]%elem_of_cons]; set_solver.
    + rewrite !Forall_app, Forall_cons in *. naive_solver.
  - assert (Ha := restart_attempt_spec t r s). rewrite H in Ha.
    destruct Ha as (-> & -> & _ & Ho & _ & Hn & Hlt). split_and!; [done| |].
    + intros q Hq. destruct (Hr q Hq) as (t1 & Ht1 & <-).
      apply elem_of_app in Ht1 as [|[->|]%elem_of_cons]; [exists t1; set_solver|exists t'; set_solver|exists t1; set_solver].
    + rewrite !Forall_app, !Forall_cons in *. destruct Ht as (? & ? & ?). split_and!; try done; lia.
Qed.

Lemma sys_reachable_inv (y : SupSystem F) : reachable sys_init sys_step y → sys_inv y.
Proof. apply reachable_invariant; [apply sys_init_inv|apply sys_step_inv]. Qed.

Lemma calls_left_app (ts1 ts2 : list (RestartTask F)) :
  calls_left (ts1 ++ ts2) = calls_left ts1 + calls_left ts2.
Proof. unfold calls_left. induction ts1 as [|t ts1 IH]; simpl; [done|]. rewrite IH. lia. Qed.
End supervisor_lemmas.

(** ** Properties *)
Section supervisor_properties.
Context {F : Type}.
Implicit Types (s : Supervisor F) (sp : ChildSpec F) (p q : Pid).

(** In every interleaving of calls that do not overlap with each other or with
    the turns of restart tasks (each is one step here; [LinkConc] and
    [SupervisorConc] say what is left when they do), links stay bidirectional, every PID marked as restarting has a live
    task that will unmark it, every task has between one and three factory
    calls left, and once no task is left no PID is marked. *)
Theorem supervisor_invariant (y : SupSystem F) :
  reachable sys_init sys_step y →
  links_symmetric (links (sup y)) ∧
  (∀ pid, pid ∈ restarting (sup y) → ∃ t, t ∈ tasks y ∧ orig_pid t = pid) ∧
  Forall (λ t, 1 <= max_attempts - attempts t <= 3) (tasks y) ∧
  (tasks y = [] → restarting (sup y) = ∅).
Proof.
  intros (Hl & Hr & Ht)%sys_reachable_inv. split_and!; [done|done| |].
  - eapply Forall_impl; [exact Ht|]. unfold max_attempts. intros t H. lia.
  - intros He. rewrite He in Hr. apply leibniz_equiv. intros pid. split; [|set_solver].
    intros (t & Hin & _)%Hr. set_solver.
Qed.

(** [linked_pids] of a supervisor with bidirectional links returns the
    peers of the PID and removes the PID from the link table on both sides; the
    links among the others, the children and the restarting set are kept. *)
Theorem linked_pids_correct p s :
  links_symmetric (links s) →
  let (s', peers) := linked_pids p s in
  peers = linked (links s) p ∧ linked (links s') p = [] ∧
  (∀ q x, x ∈ linked (links s') q ↔ x ∈ linked (links s) q ∧ q ≠ p ∧ x ≠ p) ∧
  links_symmetric (links s') ∧
  children s' = children s ∧ restarting s' = restarting s ∧ errors s' = errors s.
Proof.
  intros Hl. rewrite linked_pids_eq. split_and!; try done.
  - simpl. destruct (linked (purge_links p (links s)) p) as [|x r] eqn:E; [done|].
    assert (x ∈ linked (purge_links p (links s)) p) as Hx by (rewrite E; by left).
    rewrite elem_of_linked_purge in Hx by done. naive_solver.
  - intros q x. by apply elem_of_linked_purge.
  - by apply symmetric_purge.
Qed.

(** [notify_exit] is ignored for a PID that is not a child or is already
    being restarted; otherwise it marks the PID and starts one task
    ([RestartOne]), or marks every child and starts a task for each
    ([RestartAll]). *)
Theorem notify_exit_correct p s :
  match children s !! p with
  | None => notify_exit p s = (s, [])
  | Some sp =>
      if decide (p ∈ restarting s) then notify_exit p s = (s, [])
      else
        match strategy sp with
        | RestartOne =>
            notify_exit p s =
              (set_restarting ({[p]} ∪ restarting s) s, [mkTask p sp 0 100])
        | RestartAll =>
            ∃ s' ts, notify_exit p s = (s', ts) ∧
              s' = set_restarting (dom (children s) ∪ restarting s) s ∧
              orig_pid <$> ts ≡ₚ child_pids s ∧
              (∀ t, t ∈ ts ↔ ∃ q sq, children s !! q = Some sq ∧ t = mkTask q sq 0 100)
        end
  end.
Proof.
  destruct (children s !! p) as [sp|] eqn:Hc; [|by apply notify_exit_unknown].
  case_decide as Hr; [by apply notify_exit_debounced|]. destruct (strategy sp) eqn:Hs.
  - by apply notify_exit_one.
  - rewrite (notify_exit_all p s sp) by done. eexists _, _. split_and!; [done..| |].
    + unfold child_pids. by rewrite <-list_fmap_compose.
    + intros t. rewrite list_elem_of_fmap. split.
      * intros ([q sq] & -> & Hq). apply elem_of_map_to_list in Hq. eauto.
      * intros (q & sq & Hq & ->). exists (q, sq). by rewrite elem_of_map_to_list.
Qed.

(** a restart task finishes within three factory calls. It swaps the new
    PID in after the first success, pausing 100 ms and then 200 ms between
    calls and recording the error of each failed one; after three failures it
    drops the child. In every case it unmarks the PID and forgets its
    links. *)
Theorem restart_task_outcome p sp r1 r2 r3 s :
  let done_with (c : gmap Pid (ChildSpec F)) (errs : list string) (pauses : list Z) :=
    (mkSup c (errors s ++ errs) (purge_links p (links s)) (restarting s ∖ {[p]}), pauses, true) in
  task_run (mkTask p sp 0 100) [r1; r2; r3] s =
  match r1, r2, r3 with
  | Ok n, _, _ => done_with (delete p (<[n := sp]> (children s))) [] []
  | Err e1, Ok n, _ => done_with (delete p (<[n := sp]> (children s))) [e1] [100]
  | Err e1, Err e2, Ok n => done_with (delete p (<[n := sp]> (children s))) [e1; e2] [100; 200]
  | Err e1, Err e2, Err e3 => done_with (delete p (children s)) [e1; e2; e3] [100; 200]
  end.
Proof.
  destruct s as [c e l r], r1 as [n1|e1], r2 as [n2|e2], r3 as [n3|e3];
    unfold restart_attempt; simpl; unfold push_error, set_children, set_links, set_restarting; simpl;
    rewrite ?app_nil_r, <-?(assoc_L (++)); done.
Qed.

(** a restart whose factory returns a PID that is not yet a child keeps
    the number of children: the new PID is supervised under the same
    specification and the old one no longer is. *)
Theorem restart_keeps_group_size t n s :
  children s !! orig_pid t = Some (spec t) → children s !! n = None →
  let (s', _) := restart_attempt t (Ok n) s in
  children_count s' = children_count s ∧
  children s' !! n = Some (spec t) ∧ contains_child (orig_pid t) s' = false ∧
  ∀ q, q ≠ n → q ≠ orig_pid t → children s' !! q = children s !! q.
Proof.
  intros Hp Hn. assert (orig_pid t ≠ n) by congruence. simpl.
  unfold children_count, contains_child. simpl. split_and!.
  - rewrite map_size_delete, lookup_insert_ne, Hp by done.
    rewrite map_size_insert_None by done. simpl. lia.
  - by rewrite lookup_delete_ne, lookup_insert_eq by done.
  - by rewrite lookup_delete_eq.
  - intros q Hq Hq'. by rewrite lookup_delete_ne, lookup_insert_ne by done.
Qed.

(** the swap inserts the new PID before it removes the old one, so a
    factory that answers with the PID that exited, as the one [watch] installs
    always does, leaves the child unsupervised. *)
Theorem watched_child_lost_on_restart p s :
  p ∉ restarting s →
  ∃ t, snd (notify_exit p (watch p s)) = [t] ∧ factory (spec t) = ConstPid p ∧
    let (s', next) := restart_attempt t (Ok p) (fst (notify_exit p (watch p s))) in
    next = Finished ∧ contains_child p s' = false.
Proof.
  intros Hr. rewrite (notify_exit_one p (watch p s) (mkSpec (ConstPid p) RestartOne));
    [|done|apply lookup_insert_eq|done].
  eexists. split_and!; [done..|]. simpl. split; [done|].
  unfold contains_child. simpl. by rewrite lookup_delete_eq.
Qed.

(** neither [unwatch] nor [remove_child] reaches a restart that is under
    way: when its factory succeeds afterwards the child is back under
    supervision, with the PID not marked as restarting. *)
Theorem unwatch_does_not_cancel_restart t n s :
  n ≠ orig_pid t →
  contains_child n (fst (restart_attempt t (Ok n) (unwatch (orig_pid t) s))) = true ∧
  contains_child n (fst (restart_attempt t (Ok n) (remove_child (orig_pid t) s))) = true.
Proof.
  intros Hne. unfold contains_child. simpl.
  split; apply bool_decide_eq_true_2; rewrite lookup_delete_ne, lookup_insert_eq by done; eauto.
Qed.
(** Restarts of one child can overlap.  When [a] is being restarted on its
    own and [b], of strategy [RestartAll], exits, a second task for [a] starts;
    if every factory answers a fresh PID, a group of two ends with three
    children. *)
Theorem overlapping_restarts_grow_group (a b n1 n2 n3 : Pid) (fa fb : Factory F) :
  NoDup [a; b; n1; n2; n3] →
  let s := add_child b (mkSpec fb RestartAll) (add_child a (mkSpec fa RestartOne) supervisor_new) in
  ∃ ta tb ts s1 s2,
    notify_exit a s = (s1, [ta]) ∧ notify_exit b s1 = (s2, ts) ∧ ts ≡ₚ [ta; tb] ∧ orig_pid tb = b ∧
    let s3 := fst (restart_attempt ta (Ok n1) s2) in
    let s4 := fst (restart_attempt ta (Ok n2) s3) in
    let s5 := fst (restart_attempt tb (Ok n3) s4) in
    children_count s = 2%nat ∧ children_count s5 = 3%nat ∧ restarting s5 = ∅.
Proof.
  intros Hnd. cbn zeta. rewrite !NoDup_cons, !not_elem_of_cons in Hnd. destruct_and! Hnd.
  set (spa := mkSpec fa RestartOne). set (spb := mkSpec fb RestartAll).
  set (s := add_child b spb (add_child a spa supervisor_new)).
  assert (Ha : children s !! a = Some spa)
    by (simpl; by rewrite lookup_insert_ne, lookup_insert_eq).
  assert (Hb : children s !! b = Some spb) by (simpl; by rewrite lookup_insert_eq).
  exists (spawn_restart a spa), (spawn_restart b spb).
  rewrite (notify_exit_one a s spa) by (done || set_solver). eexists _, _, _. split; [done|].
  rewrite (notify_exit_all b _ spb) by (done || set_solver). split; [done|]. cbn [children set_restarting].
  split_and!.
  - simpl. rewrite !map_to_list_insert, map_to_list_empty by (by rewrite ?lookup_insert_ne).
    cbn. apply Permutation_swap.
  - done.
  - unfold children_count. simpl. by rewrite !map_size_insert_None, map_size_empty by (by rewrite ?lookup_insert_ne).
  - unfold children_count.
    match goal with |- size ?m = _ => replace m with (<[n3 := spb]> (<[n2 := spa]> (<[n1 := spa]> (∅ : gmap Pid (ChildSpec F))))) end.
    + rewrite !map_size_insert_None, map_size_empty; [done|..]; rewrite ?lookup_insert_ne by set_solver; done.
    + apply map_eq. intros q. simpl.
      destruct (decide (q = n3)) as [->|]; [by simplify_map_eq|].
      destruct (decide (q = n2)) as [->|]; [by simplify_map_eq|].
      destruct (decide (q = n1)) as [->|]; [by simplify_map_eq|].
      destruct (decide (q = a)) as [->|]; [by simplify_map_eq|].
      destruct (decide (q = b)) as [->|]; by simplify_map_eq.
  - simpl. set_solver.
Qed.
End supervisor_properties.

Lemma overlapping_restarts_grow_group_witness :
  let s := add_child 2 (mkSpec (UserFactory tt) RestartAll) (add_child 1 (mkSpec (UserFactory tt) RestartOne) supervisor_new) in
  ∃ ta tb ts s1 s2,
    notify_exit 1 s = (s1, [ta]) ∧ notify_exit 2 s1 = (s2, ts) ∧ ts ≡ₚ [ta; tb] ∧ orig_pid tb = 2 ∧
    let s3 := fst (restart_attempt ta (Ok 3) s2) in
    let s4 := fst (restart_attempt ta (Ok 4) s3) in
    let s5 := fst (restart_attempt tb (Ok 5) s4) in
    children_count s = 2%nat ∧ children_count s5 = 3%nat ∧ restarting s5 = ∅.
Proof. apply (overlapping_restarts_grow_group 1 2 3 4 5). by apply (bool_decide_unpack _). Defined.

Lemma supervisor_invariant_witness :
  let y := mkSys (fst (notify_exit 7 (link 7 8 (watch 7 supervisor_new))))
                 (snd (notify_exit 7 (link 7 8 (watch 7 (@supervisor_new unit))))) in
  links_symmetric (links (sup y)) ∧
  (∀ pid, pid ∈ restarting (sup y) → ∃ t, t ∈ tasks y ∧ orig_pid t = pid) ∧
  Forall (λ t, 1 <= max_attempts - attempts t <= 3) (tasks y) ∧
  (tasks y = [] → restarting (sup y) = ∅).
Proof.
  apply supervisor_invariant.
  apply (reach_step _ _ (mkSys (link 7 8 (watch 7 supervisor_new)) []));
    [|by apply (sys_notify 7 _ _ [])].
  apply (reach_step _ _ (mkSys (watch 7 supervisor_new) [])); [|apply sys_link].
  apply (reach_step _ _ (mkSys supervisor_new [])); [by apply reach_init|apply sys_watch].
Defined.

Lemma linked_pids_correct_witness :
  let s : Supervisor unit := link 1 2 supervisor_new in
  let (s', peers) := linked_pids 1 s in
  peers = linked (links s) 1 ∧ linked (links s') 1 = [] ∧
  (∀ q x, x ∈ linked (links s') q ↔ x ∈ linked (links s) q ∧ q ≠ 1 ∧ x ≠ 1) ∧
  links_symmetric (links s') ∧
  children s' = children s ∧ restarting s' = restarting s ∧ errors s' = errors s.
Proof.
  apply (linked_pids_correct 1 (link 1 2 supervisor_new)).
  apply symmetric_link, symmetric_empty.
Defined.

Lemma restart_keeps_group_size_witness :
  let sp := mkSpec (@ConstPid unit 5) RestartOne in
  let s := add_child 5 sp supervisor_new in
  let (s', _) := restart_attempt (mkTask 5 sp 0 100) (Ok 6) s in
  children_count s' = children_count s ∧
  children s' !! 6 = Some sp ∧ contains_child 5 s' = false ∧
  ∀ q, q ≠ 6 → q ≠ 5 → children s' !! q = children s !! q.
Proof.
  apply (restart_keeps_group_size (mkTask 5 (mkSpec (@ConstPid unit 5) RestartOne) 0 100) 6);
    reflexivity.
Defined.

Lemma watched_child_lost_on_restart_witness :
  ∃ t, snd (notify_exit 3 (watch 3 (@supervisor_new unit))) = [t] ∧ factory (spec t) = ConstPid 3 ∧
    let (s', next) := restart_attempt t (Ok 3) (fst (notify_exit 3 (watch 3 supervisor_new))) in
    next = Finished ∧ contains_child 3 s' = false.
Proof. apply (watched_child_lost_on_restart 3 supervisor_new). set_solver. Defined.

Lemma unwatch_does_not_cancel_restart_witness :
  let t := mkTask 5 (mkSpec (@UserFactory unit tt) RestartOne) 1 200 in
  contains_child 9 (fst (restart_attempt t (Ok 9) (unwatch 5 supervisor_new))) = true ∧
  contains_child 9 (fst (restart_attempt t (Ok 9) (remove_child 5 supervisor_new))) = true.
Proof.
  apply (unwatch_does_not_cancel_restart (mkTask 5 (mkSpec (@UserFactory unit tt) RestartOne) 1 200)).
  done.
Defined.
