(* ===== verification/SupervisorConc.v ===== *)
(** * Supervisors, one map operation at a time ([src/src/supervisor.rs])

    [Supervisor] takes each call as one step. In the program the maps are
    concurrent: a call is a sequence of atomic operations on them, and restart
    tasks and calls from any thread run between these. Here a call is a program
    [sprog] whose constructors are the operations, and a system is the shared
    supervisor with any number of such programs.

    - Run alone, the programs are the functions of [Supervisor]
      ([solo_calls], [solo_restart]).
    - The mark in [restarting] is a resource that one program holds at a time:
      [shape] is a type system for programs that use it so, and with
      [RestartOne] children every call obeys it.
    - The two lists of a link are two operations, and a call that cleans one end
      up in between leaves one of them behind. *)
From S2P Require Import Prelude Pid Supervisor.

Section conc.
Context {F : Type}.

(** ** Programs *)

(** [PChildAll] is the collection of an iterator over [children]; [PSpawn] is
    [tokio::spawn]; [PFactory] a call of the child's factory; [PReturn] the
    list [linked_pids] answers. *)
Inductive sprog :=
| PDone
| PReturn (l : list Pid)
| PChildInsert (pid : Pid) (sp : ChildSpec F) (k : sprog)
| PChildRemove (pid : Pid) (k : sprog)
| PChildGet (pid : Pid) (k : option (ChildSpec F) → sprog)
| PChildAll (k : list (Pid * ChildSpec F) → sprog)
| PMarkInsert (pid : Pid) (k : bool → sprog)
| PMarkRemove (pid : Pid) (k : sprog)
| PLinksRemove (pid : Pid) (k : option (list Pid) → sprog)
| PRetain (owner x : Pid) (k : sprog)
| PPush (owner x : Pid) (k : sprog)
| PError (e : string) (k : sprog)
| PSpawn (p : sprog) (k : sprog)
| PFactory (f : Factory F) (k : result Pid string → sprog)
| PSleep (ms : Z) (k : sprog).

(** ** The calls *)
Definition p_add_child (pid : Pid) (sp : ChildSpec F) : sprog := PChildInsert pid sp PDone.

Definition p_watch (pid : Pid) : sprog := PChildInsert pid (mkSpec (ConstPid pid) RestartOne) PDone.

(** [entry.retain] for each peer. *)
Fixpoint p_retain_all (pid : Pid) (peers : list Pid) (k : sprog) : sprog :=
  match peers with
  | [] => k
  | q :: qs => PRetain q pid (p_retain_all pid qs k)
  end.

(** [links.remove(&pid)] and the removal from the peers' lists. *)
Definition p_cleanup (pid : Pid) (k : sprog) : sprog :=
  PLinksRemove pid (λ o, match o with Some peers => p_retain_all pid peers k | None => k end).

Definition p_remove_child (pid : Pid) : sprog :=
  PChildRemove pid (PMarkRemove pid (p_cleanup pid PDone)).

Definition p_unlink (a b : Pid) : sprog := PRetain a b (PRetain b a PDone).

Definition p_link (a b : Pid) : sprog := PPush a b (PPush b a PDone).

Definition p_linked_pids (pid : Pid) : sprog :=
  PLinksRemove pid (λ o, match o with
                         | Some peers => p_retain_all pid peers (PReturn peers)
                         | None => PReturn []
                         end).

Definition p_unwatch (pid : Pid) : sprog := PChildRemove pid (PMarkRemove pid PDone).

(** The end of a restart task: clean the links up and unmark. *)
Definition p_restart_end (pid : Pid) : sprog := p_cleanup pid (PMarkRemove pid PDone).

(** The loop of a restart task with [left] factory calls left. *)
Fixpoint p_restart_loop (left : nat) (pid : Pid) (sp : ChildSpec F) (backoff : Z) : sprog :=
  PFactory (factory sp) (λ r,
    match r with
    | Ok new_pid => PChildInsert new_pid sp (PChildRemove pid (p_restart_end pid))
    | Err err =>
        PError err
          match left with
          | O | Datatypes.S O => PChildRemove pid (p_restart_end pid)
          | Datatypes.S left' => PSleep backoff (p_restart_loop left' pid sp (Z.min (2 ^ 64 - 1) (backoff * 2)))
          end
    end).

Definition p_restart (pid : Pid) (sp : ChildSpec F) : sprog := p_restart_loop 3 pid sp 100.

Fixpoint p_mark_all (pids : list Pid) (k : sprog) : sprog :=
  match pids with
  | [] => k
  | p :: ps => PMarkInsert p (λ _, p_mark_all ps k)
  end.

Fixpoint p_spawn_all (kvs : list (Pid * ChildSpec F)) (k : sprog) : sprog :=
  match kvs with
  | [] => k
  | (p, sp) :: rest => PSpawn (p_restart p sp) (p_spawn_all rest k)
  end.

Definition p_notify_exit (pid : Pid) : sprog :=
  PMarkInsert pid (λ new,
    if new then
      PChildGet pid (λ o,
        match o with
        | None => PMarkRemove pid PDone
        | Some sp =>
            match strategy sp with
            | RestartAll => PChildAll (λ all, p_mark_all (fst <$> all) (p_spawn_all all PDone))
            | RestartOne => PSpawn (p_restart pid sp) PDone
            end
        end)
    else PDone).

(** ** Running programs *)

(** One operation: the program left, the supervisor, and a program spawned.
    [r] is what a factory called now answers. *)
Definition prog_step (r : result Pid string) (p : sprog) (s : Supervisor F) : sprog * Supervisor F * option sprog :=
  match p with
  | PDone => (PDone, s, None)
  | PReturn l => (PReturn l, s, None)
  | PChildInsert pid sp k => (k, set_children (<[pid := sp]> (children s)) s, None)
  | PChildRemove pid k => (k, set_children (delete pid (children s)) s, None)
  | PChildGet pid k => (k (children s !! pid), s, None)
  | PChildAll k => (k (map_to_list (children s)), s, None)
  | PMarkInsert pid k =>
      (k (bool_decide (pid ∉ restarting s)), set_restarting ({[pid]} ∪ restarting s) s, None)
  | PMarkRemove pid k => (k, set_restarting (restarting s ∖ {[pid]}) s, None)
  | PLinksRemove pid k => (k (links s !! pid), set_links (delete pid (links s)) s, None)
  | PRetain owner x k => (k, set_links (retain_ne x owner (links s)) s, None)
  | PPush owner x k => (k, set_links (push_link owner x (links s)) s, None)
  | PError e k => (k, push_error e s, None)
  | PSpawn p' k => (k, s, Some p')
  | PFactory _ k => (k r, s, None)
  | PSleep _ k => (k, s, None)
  end.

Record SupConc := mkConc { c_sup : Supervisor F; c_progs : list sprog }.

Definition conc_turn (i : nat) (r : result Pid string) (y : SupConc) : SupConc :=
  match c_progs y !! i with
  | Some p =>
      let '(p', s', new) := prog_step r p (c_sup y) in
      mkConc s' (<[i := p']> (c_progs y) ++ option_list new)
  | None => y
  end.

(** The public calls, their programs, and what they do in [Supervisor]: the
    supervisor, the restart tasks started and the PIDs answered. *)
Inductive sup_api :=
| ApiAdd (pid : Pid) (sp : ChildSpec F)
| ApiRemove (pid : Pid)
| ApiWatch (pid : Pid)
| ApiUnwatch (pid : Pid)
| ApiLink (a b : Pid)
| ApiUnlink (a b : Pid)
| ApiLinked (pid : Pid)
| ApiNotify (pid : Pid).

Definition api_prog (c : sup_api) : sprog :=
  match c with
  | ApiAdd pid sp => p_add_child pid sp
  | ApiRemove pid => p_remove_child pid
  | ApiWatch pid => p_watch pid
  | ApiUnwatch pid => p_unwatch pid
  | ApiLink a b => p_link a b
  | ApiUnlink a b => p_unlink a b
  | ApiLinked pid => p_linked_pids pid
  | ApiNotify pid => p_notify_exit pid
  end.

Definition api_effect (c : sup_api) (s : Supervisor F) : Supervisor F * list (RestartTask F) * list Pid :=
  match c with
  | ApiAdd pid sp => (add_child pid sp s, [], [])
  | ApiRemove pid => (remove_child pid s, [], [])
  | ApiWatch pid => (watch pid s, [], [])
  | ApiUnwatch pid => (unwatch pid s, [], [])
  | ApiLink a b => (link a b s, [], [])
  | ApiUnlink a b => (unlink a b s, [], [])
  | ApiLinked pid => (fst (linked_pids pid s), [], snd (linked_pids pid s))
  | ApiNotify pid => (fst (notify_exit pid s), snd (notify_exit pid s), [])
  end.

(** [calls] is what may be called. *)
Inductive conc_sup_step (calls : sup_api → Prop) (y : SupConc) : SupConc → Prop :=
| cs_call c : calls c → conc_sup_step calls y (mkConc (c_sup y) (c_progs y ++ [api_prog c]))
| cs_turn i r : conc_sup_step calls y (conc_turn i r y).

Definition conc_sup_init (y : SupConc) : Prop := y = mkConc supervisor_new [].

(** A program run alone, with the answers of the factories it calls; the
    programs it spawns are collected. [None] is when the answers run out. *)
Fixpoint solo_run (answers : list (result Pid string)) (p : sprog) (s : Supervisor F) {struct p}
  : option (Supervisor F * list sprog * list Pid * list Z) :=
  let next p' s' := solo_run answers p' s' in
  match p with
  | PDone => Some (s, [], [], [])
  | PReturn l => Some (s, [], l, [])
  | PChildInsert pid sp k => next k (set_children (<[pid := sp]> (children s)) s)
  | PChildRemove pid k => next k (set_children (delete pid (children s)) s)
  | PChildGet pid k => next (k (children s !! pid)) s
  | PChildAll k => next (k (map_to_list (children s))) s
  | PMarkInsert pid k => next (k (bool_decide (pid ∉ restarting s))) (set_restarting ({[pid]} ∪ restarting s) s)
  | PMarkRemove pid k => next k (set_restarting (restarting s ∖ {[pid]}) s)
  | PLinksRemove pid k => next (k (links s !! pid)) (set_links (delete pid (links s)) s)
  | PRetain owner x k => next k (set_links (retain_ne x owner (links s)) s)
  | PPush owner x k => next k (set_links (push_link owner x (links s)) s)
  | PError e k => next k (push_error e s)
  | PSpawn p' k =>
      match next k s with
      | Some (s', ps, l, z) => Some (s', p' :: ps, l, z)
      | None => None
      end
  | PFactory _ k =>
      match answers with
      | r :: rs => solo_run rs (k r) s
      | [] => None
      end
  | PSleep ms k =>
      match next k s with
      | Some (s', ps, l, z) => Some (s', ps, l, ms :: z)
      | None => None
      end
  end.

(** The program of a restart task of [Supervisor]. *)
Definition task_prog (t : RestartTask F) : sprog :=
  p_restart_loop (Z.to_nat (max_attempts - attempts t)) (orig_pid t) (spec t) (backoff_ms t).

Definition finished (p : sprog) : Prop := match p with PDone | PReturn _ => True | _ => False end.

(** ** The mark as a resource

    [shape h p]: [p] holds the marks of [h] (none or one) and gives each back
    exactly once, when the supervisor's children are all [RestartOne]. A mark is
    taken by an insertion that found it absent, and passed on by a spawn. *)
Definition one_for_one (sp : ChildSpec F) : Prop := strategy sp = RestartOne.

Fixpoint shape (h : option Pid) (p : sprog) : Prop :=
  match p with
  | PDone | PReturn _ => h = None
  | PChildInsert _ sp k => one_for_one sp ∧ shape h k
  | PChildRemove _ k | PRetain _ _ k | PPush _ _ k | PError _ k | PSleep _ k => shape h k
  | PChildGet _ k => ∀ o, match o with Some sp => one_for_one sp | None => True end → shape h (k o)
  | PChildAll k => ∀ l, shape h (k l)
  | PMarkInsert pid k => h = None ∧ shape (Some pid) (k true) ∧ shape None (k false)
  | PMarkRemove pid k => h = Some pid ∧ shape None k
  | PLinksRemove _ k => ∀ o, shape h (k o)
  | PSpawn p' k => shape h p' ∧ shape None k
  | PFactory _ k => ∀ r, shape h (k r)
  end.

(** The calls that never unmark what another program marked. *)
Definition mark_safe (c : sup_api) : Prop :=
  match c with
  | ApiAdd _ sp => one_for_one sp
  | ApiRemove _ | ApiUnwatch _ => False
  | _ => True
  end.

(** Every program holds a mark or none; together they hold exactly the marks
    of the supervisor, no two of them the same. *)
Definition marks_inv (y : SupConc) : Prop :=
  ∃ hs, Forall2 shape hs (c_progs y) ∧ NoDup (omap id hs) ∧
    (∀ pid, pid ∈ restarting (c_sup y) ↔ pid ∈ omap id hs) ∧
    map_Forall (λ _ sp, one_for_one sp) (children (c_sup y)).
End conc.

Arguments sprog : clear implicits.
Arguments sup_api : clear implicits.
Arguments SupConc : clear implicits.

(** ** Programs run alone *)
Section solo.
Context {F : Type}.
Implicit Types (s : Supervisor F) (p : sprog F) (t : RestartTask F).

Lemma set_links_id s : set_links (links s) s = s.
Proof. by destruct s. Qed.

Lemma solo_retain_all answers pid peers k s :
  solo_run answers (p_retain_all pid peers k) s =
  solo_run answers k (set_links (fold_left (λ acc q, retain_ne pid q acc) peers (links s)) s).
Proof.
  revert s. induction peers as [|q peers IH]; intros s; [simpl; by rewrite set_links_id|]. cbn [p_retain_all solo_run].
  by rewrite IH.
Qed.

Lemma delete_links_none pid s : links s !! pid = None → set_links (delete pid (links s)) s = s.
Proof. intros H. rewrite delete_id by done. apply set_links_id. Qed.

Lemma solo_cleanup answers pid k s :
  solo_run answers (p_cleanup pid k) s = solo_run answers k (cleanup_links_internal pid s).
Proof.
  unfold p_cleanup, cleanup_links_internal, purge_links. cbn [solo_run].
  destruct (links s !! pid) as [peers|] eqn:E; [by rewrite solo_retain_all|].
  by rewrite delete_links_none, set_links_id.
Qed.

Lemma solo_restart_end answers pid s :
  solo_run answers (p_restart_end pid) s =
  Some (set_restarting (restarting s ∖ {[pid]}) (cleanup_links_internal pid s), [], [], []).
Proof. unfold p_restart_end. by rewrite solo_cleanup. Qed.

Lemma solo_mark_all answers ps k s :
  solo_run answers (p_mark_all ps k) s =
  solo_run answers k (set_restarting (list_to_set ps ∪ restarting s) s).
Proof.
  revert s. induction ps as [|p ps IH]; intros s; cbn [p_mark_all solo_run].
  - rewrite list_to_set_nil, (left_id_L ∅ (∪)). by destruct s.
  - rewrite IH. f_equal. unfold set_restarting. cbn. f_equal. set_solver.
Qed.

Lemma solo_spawn_all answers kvs s :
  solo_run answers (p_spawn_all kvs PDone) s = Some (s, (λ kv, task_prog (spawn_restart (fst kv) (snd kv))) <$> kvs, [], []).
Proof. induction kvs as [|[p sp] kvs IH]; [done|]. cbn [p_spawn_all solo_run]. by rewrite IH. Qed.

Lemma solo_api c s :
  let '(s', ts, l) := api_effect c s in
  solo_run [] (api_prog c) s = Some (s', task_prog <$> ts, l, []).
Proof.
  destruct c as [pid sp|pid|pid|pid|a b|a b|pid|pid]; cbn [api_effect api_prog]; try done.
  - unfold p_remove_child. cbn [solo_run]. by rewrite solo_cleanup.
  - unfold p_linked_pids, linked_pids, purge_links. cbn [solo_run].
    destruct (links s !! pid) as [peers|] eqn:E; [by rewrite solo_retain_all|]. simpl. by rewrite delete_links_none.
  - unfold p_notify_exit, notify_exit. cbn [solo_run].
    destruct (decide (pid ∈ restarting s)) as [Hin|Hin].
    + rewrite (bool_decide_true (pid ∈ restarting s)), (bool_decide_false (pid ∉ restarting s)) by set_solver.
      cbn [solo_run fst snd]. replace ({[pid]} ∪ restarting s) with (restarting s) by set_solver. by destruct s.
    + rewrite (bool_decide_false (pid ∈ restarting s)), (bool_decide_true (pid ∉ restarting s)) by done.
      cbn [solo_run children set_restarting]. destruct (children s !! pid) as [sp|]; [|done].
      destruct (strategy sp); [done|]. cbn [solo_run]. rewrite solo_mark_all, solo_spawn_all. simpl.
      by rewrite <-list_fmap_compose.
Qed.

Lemma restart_loop_S n pid (sp : ChildSpec F) b :
  p_restart_loop (Datatypes.S n) pid sp b = PFactory (factory sp) (λ r,
    match r with
    | Ok new_pid => PChildInsert new_pid sp (PChildRemove pid (p_restart_end pid))
    | Err err => PError err
        match n with
        | O => PChildRemove pid (p_restart_end pid)
        | _ => PSleep b (p_restart_loop n pid sp (Z.min (2 ^ 64 - 1) (b * 2)))
        end
    end).
Proof. done. Qed.

Lemma solo_task answers t s : 0 <= attempts t < max_attempts →
  solo_run answers (task_prog t) s =
  match task_run t answers s with
  | (s', pauses, true) => Some (s', [], [], pauses)
  | (_, _, false) => None
  end.
Proof.
  revert t s. induction answers as [|r answers IH]; intros t s Ht; unfold task_prog;
    destruct (Z.to_nat (max_attempts - attempts t)) as [|n] eqn:En; unfold max_attempts in *; try lia;
    rewrite restart_loop_S; cbn [solo_run task_run]; [done|].
  unfold restart_attempt. destruct r as [new|err].
  - cbn [solo_run]. rewrite solo_restart_end. done.
  - cbn [solo_run]. unfold max_attempts. destruct (3 <=? attempts t + 1) eqn:El; breflect.
    + assert (n = O) as -> by lia. cbn [solo_run]. rewrite solo_restart_end. done.
    + destruct n as [|n]; [lia|]. cbn [solo_run].
      specialize (IH (mkTask (orig_pid t) (spec t) (attempts t + 1) (Z.min (2 ^ 64 - 1) (backoff_ms t * 2))) (push_error err s)).
      unfold task_prog in IH. cbn [attempts orig_pid spec backoff_ms] in IH. unfold max_attempts in IH.
      replace (Z.to_nat (3 - (attempts t + 1))) with (Datatypes.S n) in IH by lia. rewrite IH by lia.
      by destruct (task_run _ answers (push_error err s)) as [[s' z] []].
Qed.
End solo.

(** ** The concurrent system *)
Section conc_lemmas.
Context {F : Type}.
Implicit Types (s : Supervisor F) (p : sprog F) (y : SupConc F).

(** Turns of the program at [i] only. *)
Definition turn_of (i : nat) y y' : Prop := ∃ r, y' = conc_turn i r y.

Lemma conc_turn_at i r p ps s : ps !! i = Some p →
  conc_turn i r (mkConc s ps) =
  (let '(p', s', new) := prog_step r p s in mkConc s' (<[i := p']> ps ++ option_list new)).
Proof. intros Hp. unfold conc_turn. cbn [c_progs c_sup]. by rewrite Hp. Qed.

(** In the system, while the others pause, a program does what it does alone,
    and the programs it spawns join the others. *)
Lemma solo_in_system answers p s s' new l z i ps : ps !! i = Some p →
  solo_run answers p s = Some (s', new, l, z) →
  ∃ p', finished p' ∧ (p' = PReturn l ∨ l = []) ∧
    rtc (turn_of i) (mkConc s ps) (mkConc s' (<[i := p']> ps ++ new)).
Proof.
  revert answers s s' new l z ps.
  assert (Hnext : ∀ (k p : sprog F) s1 s s' new l ps (P : Prop),
    ps !! i = Some p → (∃ r, prog_step r p s = (k, s1, None)) →
    (∀ ps, ps !! i = Some k → ∃ p', finished p' ∧ (p' = PReturn l ∨ l = []) ∧
       rtc (turn_of i) (mkConc s1 ps) (mkConc s' (<[i := p']> ps ++ new))) →
    ∃ p', finished p' ∧ (p' = PReturn l ∨ l = []) ∧
      rtc (turn_of i) (mkConc s ps) (mkConc s' (<[i := p']> ps ++ new))).
  { intros k p0 s1 s s' new l ps _ Hp [r Hstep] IH.
    destruct (IH (<[i := k]> ps)) as (p' & Hf & Hl & Hr).
    { apply list_lookup_insert_eq. by eapply lookup_lt_Some. }
    exists p'. split_and!; [done|done|]. rewrite list_insert_insert_eq in Hr.
    eapply rtc_l; [|exact Hr]. exists r. rewrite (conc_turn_at i r p0) by done. rewrite Hstep. simpl.
    by rewrite app_nil_r. }
  induction p as [|l0|pid sp k IH|pid k IH|pid k IH|k IH|pid k IH|pid k IH|pid k IH|o x k IH|o x k IH|e k IH|p1 IH1 k IH|f k IH|ms k IH];
    intros answers s s' new l z ps Hp Hs; cbn [solo_run] in Hs;
    try (eapply (Hnext _ _ _ _ _ _ _ _ True Hp); [by exists (Ok 0)|intros ps' Hp'; by eapply IH]).
  - injection Hs as <- <- <- _. exists PDone. split_and!; [done|by right|].
    rewrite list_insert_id, app_nil_r by done. apply rtc_refl.
  - injection Hs as <- <- <- _. exists (PReturn l0). split_and!; [done|by left|].
    rewrite list_insert_id, app_nil_r by done. apply rtc_refl.
  - destruct (solo_run answers k s) as [[[[s1 ps1] l1] z1]|] eqn:E; [|done]. injection Hs as -> <- -> _.
    assert (Hlt := lookup_lt_Some _ _ _ Hp).
    destruct (IH _ _ _ _ _ _ (<[i := k]> ps ++ [p1]) ltac:(rewrite lookup_app_l by (by rewrite length_insert); by apply list_lookup_insert_eq) E)
      as (p' & Hf & Hl & Hr).
    exists p'. split_and!; [done|done|]. rewrite insert_app_l, list_insert_insert_eq, <-(assoc_L (++)) in Hr by (by rewrite length_insert).
    eapply rtc_l; [|exact Hr]. exists (Ok 0). by rewrite (conc_turn_at i _ _ _ _ Hp).
  - destruct answers as [|r rs]; [done|].
    eapply (Hnext _ _ _ _ _ _ _ _ True Hp); [by exists r|intros ps' Hp'; by eapply IH].
  - destruct (solo_run answers k s) as [[[[s1 ps1] l1] z1]|] eqn:E; [|done]. injection Hs as -> <- -> _.
    eapply (Hnext _ _ _ _ _ _ _ _ True Hp); [by exists (Ok 0)|intros ps' Hp'; by eapply IH].
Qed.

(** ** The type system *)
Lemma shape_retain_all h pid peers (k : sprog F) : shape h k → shape h (p_retain_all pid peers k).
Proof. intros Hk. by induction peers. Qed.

Lemma shape_cleanup h pid (k : sprog F) : shape h k → shape h (p_cleanup pid k).
Proof. intros Hk [peers|]; [by apply shape_retain_all|done]. Qed.

Lemma shape_restart_loop n pid (sp : ChildSpec F) b : one_for_one sp → shape (Some pid) (p_restart_loop n pid sp b).
Proof.
  intros Ho. assert (Hend : shape (F := F) (Some pid) (p_restart_end pid)) by by apply shape_cleanup.
  revert b. induction n as [|n IH]; intros b [new|e]; try done. destruct n; [done|]. apply IH.
Qed.

Lemma shape_loop_holder h n pid (sp : ChildSpec F) b : shape h (p_restart_loop n pid sp b) → h = Some pid.
Proof. destruct n as [|n]; intros H; destruct (H (Ok 0)) as [_ He]; by destruct (He None). Qed.

Lemma shape_api c : mark_safe (F := F) c → shape None (api_prog c).
Proof.
  destruct c as [pid sp|pid|pid|pid|a b|a b|pid|pid]; cbn [mark_safe api_prog]; try done.
  - intros _ [peers|]; [by apply shape_retain_all|done].
  - intros _. split; [done|]. split; [|done]. intros [sp|] Ho; [|done].
    unfold one_for_one in Ho. rewrite Ho. split; [by apply shape_restart_loop|done].
Qed.

(** ** The invariant *)
Lemma mark_released (hs : list (option Pid)) i q : hs !! i = Some (Some q) →
  omap id hs ≡ₚ q :: omap id (<[i := None]> hs).
Proof.
  intros Hh. assert (Hlt := lookup_lt_Some _ _ _ Hh). set (hs' := <[i := None]> hs).
  assert (Hback : hs = <[i := Some q]> hs') by (unfold hs'; by rewrite list_insert_insert_eq, list_insert_id).
  rewrite Hback at 1. apply (omap_insert id hs' i None (Some q)); [|done]. by apply list_lookup_insert_eq.
Qed.

Lemma mark_passed_on (hs : list (option Pid)) i h : hs !! i = Some h →
  omap id (<[i := None]> hs ++ [h]) ≡ₚ omap id hs.
Proof.
  intros Hh. rewrite omap_app. destruct h as [q|].
  - rewrite (mark_released hs i q Hh). simpl. by rewrite Permutation_app_comm.
  - rewrite list_insert_id by done. simpl. by rewrite app_nil_r.
Qed.

Lemma marks_inv_turn i r y : marks_inv y → marks_inv (conc_turn i r y).
Proof.
  intros (hs & Hsh & Hnd & Hm & Hch). unfold conc_turn. destruct (c_progs y !! i) as [p|] eqn:Hp; [|by exists hs].
  destruct (Forall2_lookup_r _ _ _ _ _ Hsh Hp) as (h & Hh & Hph). assert (Hlt := lookup_lt_Some _ _ _ Hh).
  assert (Hsame : ∀ p' s', shape h p' → restarting s' = restarting (c_sup y) →
    map_Forall (λ _ sp, one_for_one sp) (children s') → marks_inv (mkConc s' (<[i := p']> (c_progs y) ++ []))).
  { intros p' s' Hp' Hr Hc. exists hs. cbn [c_progs c_sup]. rewrite app_nil_r, Hr. split_and!; try done.
    rewrite <-(list_insert_id hs i h Hh). by apply Forall2_insert. }
  destruct p as [|l0|pid sp k|pid k|pid k|k|pid k|pid k|pid k|o x k|o x k|e k|p1 k|f k|ms k]; cbn [prog_step option_list shape] in *.
  - by apply Hsame.
  - by apply Hsame.
  - destruct Hph as [Ho Hk]. apply Hsame; [done|done|]. by apply map_Forall_insert_2.
  - apply Hsame; [done|done|]. by apply map_Forall_delete.
  - apply Hsame; [|done|done]. apply Hph. destruct (children (c_sup y) !! pid) as [sp|] eqn:E; [|done]. by eapply Hch.
  - by apply Hsame.
  - destruct Hph as (-> & Ht & Hf). destruct (decide (pid ∈ restarting (c_sup y))) as [Hin|Hin].
    + rewrite bool_decide_false by set_solver. apply Hsame; [done|cbn; set_solver|done].
    + rewrite bool_decide_true by done. exists (<[i := Some pid]> hs). cbn [c_progs c_sup set_restarting restarting children].
      assert (Hom : omap id (<[i := Some pid]> hs) ≡ₚ pid :: omap id hs) by (by apply (omap_insert id hs i None (Some pid))).
      rewrite app_nil_r. split_and!; [by apply Forall2_insert| | |done].
      * rewrite Hom. constructor; [|done]. by rewrite <-Hm.
      * intros q. rewrite Hom, elem_of_union, elem_of_singleton, elem_of_cons, Hm. done.
  - destruct Hph as (-> & Hk). assert (Hom := mark_released hs i pid Hh).
    exists (<[i := None]> hs). cbn [c_progs c_sup set_restarting restarting children]. rewrite app_nil_r.
    rewrite Hom in Hnd. apply NoDup_cons in Hnd as [Hni Hnd].
    split_and!; [by apply Forall2_insert|done| |done].
    intros q. rewrite elem_of_difference, elem_of_singleton, Hm, Hom, elem_of_cons. split; [naive_solver|].
    intros Hq. split; [by right|]. intros ->. done.
  - by apply Hsame.
  - by apply Hsame.
  - by apply Hsame.
  - by apply Hsame.
  - destruct Hph as [H1 Hk]. exists (<[i := None]> hs ++ [h]). cbn [c_progs c_sup].
    assert (Hom := mark_passed_on hs i h Hh).
    rewrite Hom. split_and!; [|done| |done].
    + apply Forall2_app; [by apply Forall2_insert|by repeat constructor].
    + intros q. by rewrite Hom.
  - by apply Hsame.
  - by apply Hsame.
Qed.

Lemma marks_reachable y : reachable conc_sup_init (conc_sup_step mark_safe) y → marks_inv y.
Proof.
  revert y. apply reachable_invariant.
  - intros y ->. exists []. split_and!; [constructor|constructor| |].
    + intros pid. simpl. set_solver.
    + intros k x. cbn. by rewrite lookup_empty.
  - intros y y' Hi [c Hc|i r]; [|by apply marks_inv_turn].
    destruct Hi as (hs & Hsh & Hnd & Hm & Hch). exists (hs ++ [None]). cbn [c_progs c_sup].
    assert (omap id (hs ++ [None]) = omap id hs) as -> by (rewrite omap_app; simpl; by rewrite app_nil_r).
    split_and!; try done. apply Forall2_app; [done|]. constructor; [by apply shape_api|constructor].
Qed.
End conc_lemmas.

(** Two holders of one mark are the same program. *)
Lemma held_once (hs : list (option Pid)) i j q : NoDup (omap id hs) →
  hs !! i = Some (Some q) → hs !! j = Some (Some q) → i = j.
Proof.
  intros Hnd Hi Hj. destruct (decide (i = j)) as [|Hne]; [done|exfalso].
  assert (Hom : omap id hs ≡ₚ q :: omap id (<[i := None]> hs)).
  { rewrite <-(list_insert_id hs i (Some q) Hi) at 1. rewrite <-(list_insert_insert_eq hs i (Some q) None).
    apply (omap_insert id _ i None (Some q)); [|done]. apply list_lookup_insert_eq. by eapply lookup_lt_Some. }
  rewrite Hom in Hnd. apply NoDup_cons in Hnd as [Hni _]. apply Hni, list_elem_of_omap. exists (Some q).
  split; [|done]. apply list_elem_of_lookup. exists j. by rewrite list_lookup_insert_ne.
Qed.

(** ** Properties *)
Section conc_theorems.
Context {F : Type}.
Implicit Types (s : Supervisor F) (y : SupConc F) (t : RestartTask F).

(** C16: Among any other programs that pause, a public call made of single map
    operations does exactly what [Supervisor] says in one step: it leaves that
    supervisor, has started the programs of those restart tasks and answers
    those PIDs. *)
Theorem supervisor_calls_refined c s i ps :
  ps !! i = Some (api_prog (F := F) c) →
  let '(s', ts, l) := api_effect c s in
  ∃ p', finished p' ∧ (p' = PReturn l ∨ l = []) ∧
    rtc (turn_of i) (mkConc s ps) (mkConc s' (<[i := p']> ps ++ (task_prog <$> ts))).
Proof.
  intros Hp. assert (H := solo_api c s). destruct (api_effect c s) as [[s' ts] l].
  by eapply solo_in_system.
Qed.

(** So does a restart task: whatever its factory answers, with these
    answers the task of [Supervisor] finishes with the same supervisor. *)
Theorem restart_task_refined t answers s s' pauses i ps :
  0 <= attempts t < max_attempts → task_run t answers s = (s', pauses, true) → ps !! i = Some (task_prog t) →
  ∃ p', finished p' ∧ rtc (turn_of i) (mkConc s ps) (mkConc s' (<[i := p']> ps)).
Proof.
  intros Ht Hrun Hp. assert (H := solo_task answers t s Ht). rewrite Hrun in H.
  destruct (solo_in_system _ _ _ _ _ _ _ _ _ Hp H) as (p' & Hf & _ & Hr).
  rewrite app_nil_r in Hr. by exists p'.
Qed.

(** C17: The mark of a PID keeps restarts apart, in every interleaving of single
    map operations: with RestartOne children, and as long as nobody calls
    [unwatch] or [remove_child], no two tasks restart the same PID at the same
    time, a PID that is being restarted is marked, and when nothing runs any more
    no PID is left marked. *)
Theorem restarts_exclude_each_other y :
  reachable conc_sup_init (conc_sup_step mark_safe) y →
  (∀ i j pid n n' sp sp' b b', c_progs y !! i = Some (p_restart_loop n pid sp b) →
    c_progs y !! j = Some (p_restart_loop n' pid sp' b') → i = j) ∧
  (∀ i pid n sp b, c_progs y !! i = Some (p_restart_loop n pid sp b) → pid ∈ restarting (c_sup y)) ∧
  (Forall finished (c_progs y) → restarting (c_sup y) = ∅).
Proof.
  intros Hr. destruct (marks_reachable y Hr) as (hs & Hsh & Hnd & Hm & _).
  assert (Hheld : ∀ i pid n (sp : ChildSpec F) b, c_progs y !! i = Some (p_restart_loop n pid sp b) → hs !! i = Some (Some pid)).
  { intros i pid n sp b Hi. destruct (Forall2_lookup_r _ _ _ _ _ Hsh Hi) as (h & Hh & Hs).
    by rewrite Hh, (shape_loop_holder _ _ _ _ _ Hs). }
  split_and!.
  - intros i j pid n n' sp sp' b b' Hi%Hheld Hj%Hheld. by eapply (held_once hs).
  - intros i pid n sp b Hi%Hheld. apply Hm, list_elem_of_omap. exists (Some pid). split; [|done].
    by eapply list_elem_of_lookup_2.
  - intros Hf. apply set_eq. intros pid. rewrite Hm. split; [|set_solver].
    intros (h & [i Hi]%list_elem_of_lookup & Hid)%list_elem_of_omap.
    destruct (Forall2_lookup_l _ _ _ _ _ Hsh Hi) as (p & Hp & Hs). rewrite Forall_lookup in Hf.
    specialize (Hf i p Hp). destruct p; try done; simpl in Hs; by subst h.
Qed.
End conc_theorems.

(** ** Links *)
Module LinkRace.
Definition race (second : sup_api unit) (schedule : list nat) : SupConc unit :=
  fold_left (λ y i, conc_turn i (Ok 0) y) schedule
    (mkConc supervisor_new [api_prog (ApiLink 1 2); api_prog second]).

(** [linked_pids(1)] runs between the two operations of [link(1, 2)]. *)
Definition first_dies : SupConc unit := race (ApiLinked 1) [0; 1; 1; 0]%nat.

Definition second_dies : SupConc unit := race (ApiLinked 2) [0; 1; 0]%nat.
End LinkRace.

Lemma race_reachable_sup second schedule :
  reachable conc_sup_init (conc_sup_step (λ _, True)) (LinkRace.race second schedule).
Proof.
  unfold LinkRace.race. induction schedule as [|i schedule IH] using rev_ind.
  - eapply reach_step; [|by apply (cs_call _ (mkConc supervisor_new [api_prog (ApiLink 1 2)]) second)].
    eapply reach_step; [|by apply (cs_call _ (mkConc supervisor_new []) (ApiLink 1 2))]. by apply reach_init.
  - rewrite fold_left_app. eapply reach_step; [exact IH|apply cs_turn].
Qed.

(** The two lists of a link are filled one after the other. When one end
    ends in between, its clean-up takes the half that is there: if it is the
    first end, the other keeps it in its list for good, and links are no longer
    symmetric; if it is the second, the clean-up answers no peer, so that the
    first end, which then lists it, is never told. *)
Theorem link_races_with_cleanup :
  (∃ y : SupConc unit, reachable conc_sup_init (conc_sup_step (λ _, True)) y ∧
    c_progs y = [PDone; PReturn [2]] ∧ links (c_sup y) !! 1 = None ∧ links (c_sup y) !! 2 = Some [1]) ∧
  (∃ y : SupConc unit, reachable conc_sup_init (conc_sup_step (λ _, True)) y ∧
    c_progs y = [PDone; PReturn []] ∧ links (c_sup y) !! 1 = Some [2]).
Proof.
  split.
  - exists LinkRace.first_dies. split; [apply race_reachable_sup|by vm_compute].
  - exists LinkRace.second_dies. split; [apply race_reachable_sup|by vm_compute].
Qed.

(** ** Instances *)
Module ConcDemo.
Definition child : ChildSpec unit := mkSpec (UserFactory tt) RestartOne.

(** A child is added, and two reports of its exit race. *)
Definition reported : SupConc unit :=
  fold_left (λ y i, conc_turn i (Ok 9) y) [0; 1; 2; 1; 1; 2]%nat
    (mkConc supervisor_new (api_prog <$> [ApiAdd 7 child; ApiNotify 7; ApiNotify 7])).
End ConcDemo.

Example conc_demo_progs : c_progs ConcDemo.reported = [PDone; PDone; PDone; p_restart 7 ConcDemo.child].
Proof. done. Qed.

Lemma conc_demo_reachable : reachable conc_sup_init (conc_sup_step mark_safe) ConcDemo.reported.
Proof.
  unfold ConcDemo.reported. cbn [fold_left]. do 6 (eapply reach_step; [|apply cs_turn]).
  assert (Hcall : ∀ c l, mark_safe (F := unit) c → reachable conc_sup_init (conc_sup_step mark_safe) (mkConc supervisor_new (api_prog <$> l)) →
    reachable conc_sup_init (conc_sup_step mark_safe) (mkConc supervisor_new (api_prog <$> (l ++ [c])))).
  { intros c l Hc Hr. eapply reach_step; [exact Hr|]. rewrite fmap_app. by apply (cs_call _ (mkConc supervisor_new _)). }
  apply (Hcall (ApiNotify 7) [ApiAdd 7 ConcDemo.child; ApiNotify 7]); [done|].
  apply (Hcall (ApiNotify 7) [ApiAdd 7 ConcDemo.child]); [done|].
  apply (Hcall (ApiAdd 7 ConcDemo.child) []); [done|]. by apply reach_init.
Qed.

Lemma supervisor_calls_refined_witness :
  let '(s', ts, l) := api_effect (ApiNotify 7) (c_sup ConcDemo.reported) in
  ∃ p', finished p' ∧ (p' = PReturn l ∨ l = []) ∧
    rtc (turn_of 0) (mkConc (c_sup ConcDemo.reported) [api_prog (ApiNotify 7); PDone])
      (mkConc s' (<[0%nat := p']> [api_prog (ApiNotify 7); PDone] ++ (task_prog <$> ts))).
Proof. apply (supervisor_calls_refined (ApiNotify 7) (c_sup ConcDemo.reported) 0). reflexivity. Defined.

Lemma restart_task_refined_witness :
  ∃ p', finished p' ∧ rtc (turn_of 0)
    (mkConc (c_sup ConcDemo.reported) [task_prog (spawn_restart 7 ConcDemo.child)])
    (mkConc (fst (fst (task_run (spawn_restart 7 ConcDemo.child) [Err "e"%string; Ok 8] (c_sup ConcDemo.reported))))
       (<[0%nat := p']> [task_prog (spawn_restart 7 ConcDemo.child)])).
Proof.
  apply (restart_task_refined (spawn_restart 7 ConcDemo.child) [Err "e"%string; Ok 8] (c_sup ConcDemo.reported) _ [100]);
    [split; [discriminate|reflexivity]|reflexivity|reflexivity].
Defined.

Lemma restarts_exclude_each_other_witness :
  (∀ i j pid n n' sp sp' b b', c_progs ConcDemo.reported !! i = Some (p_restart_loop n pid sp b) →
    c_progs ConcDemo.reported !! j = Some (p_restart_loop n' pid sp' b') → i = j) ∧
  (∀ i pid n sp b, c_progs ConcDemo.reported !! i = Some (p_restart_loop n pid sp b) →
    pid ∈ restarting (c_sup ConcDemo.reported)) ∧
  (Forall finished (c_progs ConcDemo.reported) → restarting (c_sup ConcDemo.reported) = ∅).
Proof. apply (restarts_exclude_each_other ConcDemo.reported). apply conc_demo_reachable. Defined.
