(* ===== verification/LinkConc.v ===== *)
(** * Links among concurrent clean-ups ([src/src/supervisor.rs])

    The programs of [SupervisorConc] interleaved with one restriction: a [link]
    makes its two operations one after the other, at a time when no program is
    in the middle of removing links.  Everything else - ends of actors, [unlink],
    [remove_child], restarts - interleaves freely. Then a link can be one-sided only for as long as a running program
    still has to take it out. Without the restriction this fails
    ([SupervisorConc.link_races_with_cleanup]). *)
From S2P Require Import Prelude Pid Supervisor SupervisorConc.

Section link_conc.
Context {F : Type}.
Implicit Types (s : Supervisor F) (p : sprog F) (y : SupConc F).

(** The removals a program is in the middle of: which owner loses which
    entry. *)
Fixpoint pending (p : sprog F) : list (Pid * Pid) :=
  match p with
  | PRetain owner x k => (owner, x) :: pending k
  | _ => []
  end.

Definition quiet (p : sprog F) : Prop := pending p = [].

(** [link] by itself: its two operations one after the other. *)
Definition link_alone (a b : Pid) (y : SupConc F) : SupConc F :=
  let n := length (c_progs y) in
  conc_turn n (Err EmptyString) (conc_turn n (Err EmptyString) (mkConc (c_sup y) (c_progs y ++ [api_prog (ApiLink a b)]))).

Inductive link_step (y : SupConc F) : SupConc F → Prop :=
| ls_call c : (∀ a b, c ≠ ApiLink a b) → link_step y (mkConc (c_sup y) (c_progs y ++ [api_prog c]))
| ls_turn i r : link_step y (conc_turn i r y)
| ls_link a b : Forall quiet (c_progs y) → link_step y (link_alone a b y).

(** ** The invariant

    [tidy p]: [p] adds no link, and takes an entry of the table away only to
    remove its PID from every peer it lists next. *)
Fixpoint tidy (p : sprog F) : Prop :=
  match p with
  | PDone | PReturn _ => True
  | PChildInsert _ _ k | PChildRemove _ k | PMarkRemove _ k | PError _ k | PSleep _ k => quiet k ∧ tidy k
  | PRetain _ _ k => tidy k
  | PChildGet _ k => ∀ o, quiet (k o) ∧ tidy (k o)
  | PChildAll k => ∀ l, quiet (k l) ∧ tidy (k l)
  | PMarkInsert _ k => ∀ b, quiet (k b) ∧ tidy (k b)
  | PFactory _ k => ∀ r, quiet (k r) ∧ tidy (k r)
  | PLinksRemove pid k => ∀ o, pending (k o) = (λ q, (q, pid)) <$> default [] o ∧ tidy (k o)
  | PSpawn p' k => (quiet p' ∧ tidy p') ∧ quiet k ∧ tidy k
  | PPush _ _ _ => False
  end.

Definition Links := gmap Pid (list Pid).

(** An entry about to be removed has no counterpart, or that is about to be
    removed too. *)
Definition owes (l : Links) (p : sprog F) : Prop :=
  ∀ q x, (q, x) ∈ pending p → q ∈ linked l x → (x, q) ∈ pending p.

Definition two_sided (l : Links) (ps : list (sprog F)) : Prop :=
  ∀ q x, x ∈ linked l q → q ∈ linked l x ∨ ∃ p, p ∈ ps ∧ (q, x) ∈ pending p.

Definition links_inv (y : SupConc F) : Prop :=
  Forall (λ p, tidy p ∧ owes (links (c_sup y)) p) (c_progs y) ∧ two_sided (links (c_sup y)) (c_progs y).

(** ** Every call is tidy *)
Lemma pending_retain_all pid peers k :
  pending (p_retain_all pid peers k) = ((λ q, (q, pid)) <$> peers) ++ pending k.
Proof. induction peers as [|q peers IH]; [done|]. cbn [p_retain_all pending]. by rewrite IH. Qed.

Lemma tidy_retain_all pid peers k : tidy k → tidy (p_retain_all pid peers k).
Proof. intros Hk. by induction peers. Qed.

Lemma tidy_cleanup pid k : quiet k → tidy k → tidy (p_cleanup pid k).
Proof.
  intros Hq Hk [peers|]; cbn [default]; [|done]. rewrite pending_retain_all, Hq, app_nil_r.
  split; [done|]. by apply tidy_retain_all.
Qed.

Lemma tidy_restart_end pid : tidy (p_restart_end pid).
Proof. by apply tidy_cleanup. Qed.

Lemma tidy_restart_loop n pid sp b : tidy (p_restart_loop n pid sp b).
Proof.
  assert (He := tidy_restart_end pid). revert b.
  induction n as [|n IH]; intros b [new|err]; (split; [done|]); repeat (split; [done|]); try done.
  destruct n as [|n]; repeat (split; [done|]); [done|]. by apply IH.
Qed.

Lemma tidy_mark_all ps k : quiet k → tidy k → quiet (p_mark_all ps k) ∧ tidy (p_mark_all ps k).
Proof. intros Hq Hk. induction ps as [|q ps [Hq' IH]]; [done|]. split; [done|]. by intros b. Qed.

Lemma tidy_spawn_all kvs : quiet (p_spawn_all (F := F) kvs PDone) ∧ tidy (p_spawn_all kvs PDone).
Proof.
  induction kvs as [|[q sp] kvs [Hq IH]]; [done|]. split; [done|]. split; [|done].
  split; [done|]. apply tidy_restart_loop.
Qed.

Lemma tidy_api c : (∀ a b, c ≠ ApiLink (F := F) a b) → tidy (api_prog c) ∧ ∀ l, owes l (api_prog c).
Proof.
  destruct c as [pid sp|pid|pid|pid|a b|a b|pid|pid]; intros Hc; cbn [api_prog];
    try (split; [|by intros l q x []%elem_of_nil]; try done).
  - split; [done|]. split; [done|]. by apply tidy_cleanup.
  - by destruct (Hc a b).
  - split; [done|]. intros l q x [[= -> ->]|[[= -> ->]|[]%elem_of_nil]%elem_of_cons]%elem_of_cons _; set_solver.
  - intros [peers|]; [|done]. cbn [default]. rewrite pending_retain_all. cbn [pending]. rewrite app_nil_r.
    split; [done|]. by apply tidy_retain_all.
  - intros [|]; [|done]. split; [done|]. intros [sp|]; [|done]. destruct (strategy sp).
    + split; [done|]. split; [|done]. split; [done|]. apply tidy_restart_loop.
    + split; [done|]. intros kvs. destruct (tidy_spawn_all kvs). by apply tidy_mark_all.
Qed.

(** ** Every operation keeps the invariant *)
Lemma owes_shrink (l l' : Links) p : (∀ q x, x ∈ linked l' q → x ∈ linked l q) → owes l p → owes l' p.
Proof. intros Hl Ho q x Hp Hx. by apply Ho, Hl. Qed.

Lemma owes_quiet l p : quiet p → owes l p.
Proof. intros Hq q x. rewrite Hq. by intros []%elem_of_nil. Qed.

Lemma two_sided_turn (l l' : Links) ps i p p' new : ps !! i = Some p → two_sided l ps →
  (∀ q x, x ∈ linked l' q → x ∈ linked l q) →
  (∀ q x, x ∈ linked l' q → q ∈ linked l x → q ∈ linked l' x ∨ (q, x) ∈ pending p') →
  (∀ q x, (q, x) ∈ pending p → x ∈ linked l' q → (q, x) ∈ pending p') →
  two_sided l' (<[i := p']> ps ++ new).
Proof.
  intros Hi Hl Hsub Hback Hkeep q x Hx.
  assert (Hmine : p' ∈ <[i := p']> ps ++ new).
  { apply elem_of_app. left. apply list_elem_of_lookup. exists i. apply list_lookup_insert_eq. by eapply lookup_lt_Some. }
  destruct (Hl q x (Hsub q x Hx)) as [Hq|(p0 & Hp0 & Hpend)].
  - destruct (Hback q x Hx Hq) as [|]; [by left|right; by exists p'].
  - right. apply list_elem_of_lookup in Hp0 as [j Hj]. destruct (decide (i = j)) as [<-|Hne].
    + simplify_eq. exists p'. split; [done|]. by apply Hkeep.
    + exists p0. split; [|done]. apply elem_of_app. left. apply list_elem_of_lookup. exists j.
      by rewrite list_lookup_insert_ne.
Qed.

Lemma links_inv_turn_gen y i p p' s' new : c_progs y !! i = Some p → links_inv y →
  (∀ q x, x ∈ linked (links s') q → x ∈ linked (links (c_sup y)) q) →
  (∀ q x, x ∈ linked (links s') q → q ∈ linked (links (c_sup y)) x →
    q ∈ linked (links s') x ∨ (q, x) ∈ pending p') →
  (∀ q x, (q, x) ∈ pending p → x ∈ linked (links s') q → (q, x) ∈ pending p') →
  tidy p' → owes (links s') p' → Forall (λ p, tidy p ∧ quiet p) new →
  links_inv (mkConc s' (<[i := p']> (c_progs y) ++ new)).
Proof.
  intros Hi [Hf Hl] Hsub Hback Hkeep Ht Ho Hnew. split; [|by eapply two_sided_turn].
  apply Forall_app. cbn [c_sup c_progs]. split.
  - apply Forall_insert; [|by split]. eapply Forall_impl; [exact Hf|]. intros p0 [? ?]. split; [done|by eapply owes_shrink].
  - eapply Forall_impl; [exact Hnew|]. intros p0 [? ?]. split; [done|by apply owes_quiet].
Qed.

(** An operation that leaves the link table alone. *)
Lemma links_inv_same y i p p' s' new : c_progs y !! i = Some p → links_inv y → quiet p →
  links s' = links (c_sup y) → quiet p' → tidy p' → Forall (λ p, tidy p ∧ quiet p) new →
  links_inv (mkConc s' (<[i := p']> (c_progs y) ++ new)).
Proof.
  intros Hi Hinv Hq Hs Hq' Ht Hnew. apply (links_inv_turn_gen y i p); rewrite ?Hs; try done; [by left| |by apply owes_quiet].
  intros q x. rewrite Hq. by intros []%elem_of_nil.
Qed.

Lemma links_inv_remove y i pid k : c_progs y !! i = Some (PLinksRemove pid k) → links_inv y →
  links_inv (mkConc (set_links (delete pid (links (c_sup y))) (c_sup y)) (<[i := k (links (c_sup y) !! pid)]> (c_progs y) ++ [])).
Proof.
  intros Hi Hinv. destruct (Forall_lookup_1 _ _ _ _ (proj1 Hinv) Hi) as [Ht _].
  destruct (Ht (links (c_sup y) !! pid)) as [Hp Hk].
  apply (links_inv_turn_gen y i (PLinksRemove pid k)); try done; cbn [set_links links].
  - intros q x. rewrite linked_delete. case_decide; [by intros []%elem_of_nil|done].
  - intros q x _ Hq. rewrite linked_delete. case_decide as Hx; [subst x; right|by left].
    rewrite Hp. by apply list_elem_of_fmap_2 with (f := λ q, (q, pid)).
  - intros q x []%elem_of_nil.
  - intros q x Hq Hx. rewrite Hp in Hq. apply list_elem_of_fmap in Hq as (? & [= <- <-] & _).
    rewrite linked_delete, decide_True in Hx by done. by apply elem_of_nil in Hx.
Qed.

Lemma links_inv_retain y i o x k : c_progs y !! i = Some (PRetain o x k) → links_inv y →
  links_inv (mkConc (set_links (retain_ne x o (links (c_sup y))) (c_sup y)) (<[i := k]> (c_progs y) ++ [])).
Proof.
  intros Hi Hinv. destruct (Forall_lookup_1 _ _ _ _ (proj1 Hinv) Hi) as [Ht Ho]. cbn [pending] in Ho.
  assert (Hsub : ∀ q z, z ∈ linked (retain_ne x o (links (c_sup y))) q → z ∈ linked (links (c_sup y)) q ∧ (q, z) ≠ (o, x)).
  { intros q z. rewrite linked_retain. case_decide; [rewrite list_elem_of_filter|]; naive_solver. }
  assert (Hleft : ∀ q z, z ∈ linked (links (c_sup y)) q → (q, z) ≠ (o, x) → z ∈ linked (retain_ne x o (links (c_sup y))) q).
  { intros q z Hz Hne. rewrite linked_retain. case_decide; [rewrite list_elem_of_filter|]; naive_solver. }
  apply (links_inv_turn_gen y i (PRetain o x k)); try done; cbn [set_links links].
  - intros q z Hz. by apply Hsub.
  - intros q z [Hz Hne]%Hsub Hq. destruct (decide ((z, q) = (o, x))) as [[= -> ->]|]; [|left; by apply Hleft].
    right. destruct (proj1 (elem_of_cons _ _ _) (Ho o x ltac:(left) Hz)) as [[= ->]|]; [by destruct (Hne)|done].
  - intros q z [[= -> ->]|Hin]%elem_of_cons Hz%Hsub; [naive_solver|done].
  - intros q z Hin [Hz Hne]%Hsub. destruct (proj1 (elem_of_cons _ _ _) (Ho q z ltac:(by right) Hz)) as [[= -> ->]|]; [|done].
    naive_solver.
Qed.

Lemma links_inv_turn i r y : links_inv y → links_inv (conc_turn i r y).
Proof.
  intros Hinv. unfold conc_turn. destruct (c_progs y !! i) as [p|] eqn:Hi; [|done].
  destruct (Forall_lookup_1 _ _ _ _ (proj1 Hinv) Hi) as [Ht _].
  assert (Hsame : quiet p → ∀ p' s' new, links s' = links (c_sup y) → quiet p' ∧ tidy p' → Forall (λ p, tidy p ∧ quiet p) new →
    links_inv (mkConc s' (<[i := p']> (c_progs y) ++ new))).
  { intros Hq p' s' new Hs [Hq' Ht'] Hn. by eapply links_inv_same. }
  destruct p as [|l0|pid sp k|pid k|pid k|k|pid k|pid k|pid k|o x k|o x k|e k|p1 k|f k|ms k];
    cbn [prog_step option_list tidy] in *; try (by apply Hsame).
  - by apply links_inv_remove.
  - by apply links_inv_retain.
  - destruct Ht as ([Hq1 Ht1] & Hk). apply Hsame; [done|done|done|]. by constructor.
Qed.

Lemma links_inv_link a b y : links_inv y → Forall quiet (c_progs y) → links_inv (link_alone a b y).
Proof.
  intros [Hf Hl] Hq. assert (Hsym : links_symmetric (links (c_sup y))).
  { assert (H : ∀ q x, x ∈ linked (links (c_sup y)) q → q ∈ linked (links (c_sup y)) x).
    { intros q x Hx. destruct (Hl q x Hx) as [|(p & Hp & Hpend)]; [done|]. rewrite Forall_forall in Hq.
      rewrite (Hq p Hp) in Hpend. by apply elem_of_nil in Hpend. }
    intros q x. split; apply H. }
  assert (He : link_alone a b y = mkConc (link a b (c_sup y)) (c_progs y ++ [PDone])).
  { assert (Hin : ∀ ps (p p' : sprog F), <[length ps := p']> (ps ++ [p]) = ps ++ [p'])
      by (intros ps p p'; induction ps as [|? ps IH]; [done|]; cbn; by f_equal).
    assert (Hat : ∀ ps (p : sprog F), (ps ++ [p]) !! length ps = Some p) by (intros; by apply list_lookup_middle).
    unfold link_alone, conc_turn. cbn [c_progs]. rewrite Hat. cbn [api_prog p_link prog_step option_list c_progs c_sup].
    rewrite Hin, app_nil_r, Hat. cbn [prog_step option_list]. by rewrite Hin, app_nil_r. }
  rewrite He. split; cbn [c_sup c_progs].
  - apply Forall_app. split; [|repeat constructor; by apply owes_quiet].
    apply Forall_forall. intros p Hp. rewrite Forall_forall in Hf, Hq. destruct (Hf p Hp). split; [done|]. by apply owes_quiet, Hq.
  - intros q x Hx. left. by apply (symmetric_link a b _ Hsym).
Qed.

Lemma links_inv_reachable y : reachable conc_sup_init link_step y → links_inv y.
Proof.
  revert y. apply reachable_invariant.
  - intros y ->. split; [constructor|]. intros q x. cbn. unfold linked. rewrite lookup_empty. by intros []%elem_of_nil.
  - intros y y' Hi [c Hc|i r|a b Hq]; [|by apply links_inv_turn|by apply links_inv_link].
    destruct Hi as [Hf Hl]. destruct (tidy_api c Hc) as [Ht Ho]. split; cbn [c_sup c_progs].
    + apply Forall_app. split; [done|]. by repeat constructor.
    + intros q x Hx. destruct (Hl q x Hx) as [|(p & Hp & ?)]; [by left|]. right. exists p. rewrite elem_of_app. auto.
Qed.

(** These runs are runs of [SupervisorConc]. *)
Lemma link_step_runs y y' : link_step y y' → rtc (conc_sup_step (λ _, True)) y y'.
Proof.
  intros [c _|i r|a b _]; [apply rtc_once; by constructor|apply rtc_once; constructor|].
  eapply rtc_l; [by apply (cs_call _ y (ApiLink a b))|]. eapply rtc_l; [apply cs_turn|]. apply rtc_once, cs_turn.
Qed.

(** ** Properties *)

(** C32: As long as every [link] runs undisturbed, and never amid a removal, links
    are bidirectional up to the removals in flight, in every interleaving of ends of actors, [unlink],
    [remove_child], restarts and the rest: a one-sided entry is one that a
    running program still has to remove, so that links are symmetric whenever
    no removal is under way; and the clean-up of a PID answers every PID that
    lists it, except where a program is just removing that entry. *)
Theorem links_stay_symmetric y : reachable conc_sup_init link_step y →
  let l := links (c_sup y) in
  (∀ q x, x ∈ linked l q → q ∈ linked l x ∨ ∃ p, p ∈ c_progs y ∧ (q, x) ∈ pending p) ∧
  (Forall quiet (c_progs y) → links_symmetric l) ∧
  (∀ i pid r q, c_progs y !! i = Some (p_linked_pids pid) → pid ∈ linked l q →
    (∀ p, p ∈ c_progs y → (q, pid) ∉ pending p) →
    ∃ peers, c_progs (conc_turn i r y) !! i = Some (p_retain_all pid peers (PReturn peers)) ∧ q ∈ peers).
Proof.
  intros Hr l. destruct (links_inv_reachable y Hr) as [_ Hl]. fold l in Hl. split_and!; [done| |].
  - intros Hq. assert (H : ∀ q x, x ∈ linked l q → q ∈ linked l x); [|intros a b; split; apply H].
    intros q x Hx. destruct (Hl q x Hx) as [|(p & Hp & Hin)]; [done|]. rewrite Forall_forall in Hq.
    rewrite (Hq p Hp) in Hin. by apply elem_of_nil in Hin.
  - intros i pid r q Hi Hx Hno. destruct (Hl q pid Hx) as [Hq|(p & Hp & Hin)]; [|by destruct (Hno p Hp)].
    unfold linked in Hq. unfold conc_turn. rewrite Hi. cbn [p_linked_pids prog_step c_progs option_list].
    destruct (links (c_sup y) !! pid) as [peers|] eqn:E; unfold l in Hq; rewrite E in Hq; [|by apply elem_of_nil in Hq].
    exists peers. split; [|done]. rewrite app_nil_r. apply list_lookup_insert_eq. by eapply lookup_lt_Some.
Qed.
End link_conc.

(** ** Instances *)
Module LinkDemo.
(** 1 is linked to 2 and to 3; both 1 and 2 end, and 1's clean-up has taken
    its list when 2's begins. *)
Definition linked3 : SupConc unit := link_alone 1 3 (link_alone 1 2 (mkConc supervisor_new [])).

Definition ending : SupConc unit :=
  conc_turn 2 (Err EmptyString)
    (mkConc (c_sup linked3) ((c_progs linked3 ++ [api_prog (ApiLinked 1)]) ++ [api_prog (ApiLinked 2)])).
End LinkDemo.

Lemma links_stay_symmetric_witness :
  let y := LinkDemo.ending in let l := links (c_sup y) in
  (1 ∈ linked l 2 ∧ linked l 1 = []) ∧
  (∀ q x, x ∈ linked l q → q ∈ linked l x ∨ ∃ p, p ∈ c_progs y ∧ (q, x) ∈ pending p) ∧
  (Forall quiet (c_progs y) → links_symmetric l) ∧
  (∀ i pid r q, c_progs y !! i = Some (p_linked_pids pid) → pid ∈ linked l q →
    (∀ p, p ∈ c_progs y → (q, pid) ∉ pending p) →
    ∃ peers, c_progs (conc_turn i r y) !! i = Some (p_retain_all pid peers (PReturn peers)) ∧ q ∈ peers).
Proof.
  split; [split; [apply (bool_decide_unpack _)|]; by vm_compute|].
  apply (links_stay_symmetric LinkDemo.ending). unfold LinkDemo.ending.
  eapply reach_step; [|apply ls_turn].
  eapply reach_step; [|by apply (ls_call (mkConc (c_sup LinkDemo.linked3) (c_progs LinkDemo.linked3 ++ [api_prog (ApiLinked 1)])))].
  eapply reach_step; [|by apply ls_call]. unfold LinkDemo.linked3.
  eapply reach_step; [|apply ls_link; by repeat constructor]. eapply reach_step; [|apply ls_link; constructor].
  by apply reach_init.
Defined.
