(* ===== verification/Runtime.v ===== *)
(** * The runtime ([src/src/lib.rs])

    The shared state of a node and the operations of [impl Runtime] on it:
    configuration, name registry, path-scoped supervisors, spawning, sending,
    stopping, hot swapping, observation and links, the message loops of the
    built-in actor kinds and the clean-up that follows an actor's end.

    - PIDs come from any [PidAllocator]; [Pid.slab_pid_allocator] is the one the
      program uses.
    - [mailboxes] holds the PIDs whose sender is in the concurrent map, [boxes]
      the mailbox objects themselves: a mailbox outlives its map entry as long
      as its actor keeps the receiver.
    - Supervisors live in a heap, so that a path supervisor that is replaced or
      removed is still reachable from the restart tasks that captured it; index 0
      is the node's own supervisor.
    - An actor's clean-up is a value [ExitTask] that advances one atomic
      operation at a time, so that it can be interleaved with everything else.
    - User code (actor bodies, handlers, factories) is not modelled: its calls
      are operations like any others, its outcome an argument. *)
From S2P Require Import Prelude Pid Mailbox Registry Supervisor.
From Stdlib Require Import Floats.SpecFloat.

Section runtime.
Context {F S : Type} `{PA : PidAllocator S}.

(** ** Configuration *)
Record Config := mkConfig {
  network_io_timeout : Z;
  network_max_payload : Z;
  network_max_name_len : Z;
  monitor_backoff_factor : spec_float;
  monitor_backoff_max : Z;
  monitor_failure_threshold : Z;
  release_gil_max_threads : Z;
  gil_pool_size : Z;
  release_gil_strict : bool
}.

(** The [f64] 2.0. *)
Definition f64_two : spec_float := S754_finite false 4503599627370496 (-51).

(** Durations are in nanoseconds. *)
Definition config_new : Config :=
  mkConfig (5 * 10 ^ 9) (1024 * 1024) 1024 f64_two (60 * 10 ^ 9) 1 256 8 false.

(** ** Actors and their clean-up *)
Inductive ActorKind :=
| Raw
| Handler (budget : Z) (processed : Z)
| Observed.

(** The outcome of [actor_handle.await]: a [JoinError] carries whether it is a
    panic and its debug text. *)
Inductive JoinResult := JoinOk | JoinErr (is_panic : bool) (debug : string).

Inductive ExitStage :=
| ExRemoveMailbox
| ExNotify
| ExNotifyPaths (rest : list nat)
| ExDeallocate
| ExLinks
| ExSend (rest : list Pid)
| ExDone.

#[export] Instance exit_stage_eq_dec : EqDecision ExitStage.
Proof. solve_decision. Defined.

Record ExitTask := mkExit { ex_pid : Pid; ex_result : JoinResult; ex_stage : ExitStage }.

Record Runtime := mkRt {
  slab : S;
  mailboxes : gset Pid;
  boxes : gmap Pid Mailbox;
  observers : gmap Pid (list Message);
  registry : NameRegistry;
  sup_heap : gmap nat (Supervisor F);
  path_supervisors : gmap string nat;
  sup_next : nat;
  config : Config;
  actors : gmap Pid ActorKind;
  exits : list ExitTask;
  restarts : list (nat * RestartTask F)
}.

Definition set_slab x rt := mkRt x (mailboxes rt) (boxes rt) (observers rt) (registry rt) (sup_heap rt) (path_supervisors rt) (sup_next rt) (config rt) (actors rt) (exits rt) (restarts rt).

Definition set_mailboxes x rt := mkRt (slab rt) x (boxes rt) (observers rt) (registry rt) (sup_heap rt) (path_supervisors rt) (sup_next rt) (config rt) (actors rt) (exits rt) (restarts rt).

Definition set_boxes x rt := mkRt (slab rt) (mailboxes rt) x (observers rt) (registry rt) (sup_heap rt) (path_supervisors rt) (sup_next rt) (config rt) (actors rt) (exits rt) (restarts rt).

Definition set_observers x rt := mkRt (slab rt) (mailboxes rt) (boxes rt) x (registry rt) (sup_heap rt) (path_supervisors rt) (sup_next rt) (config rt) (actors rt) (exits rt) (restarts rt).

Definition set_registry x rt := mkRt (slab rt) (mailboxes rt) (boxes rt) (observers rt) x (sup_heap rt) (path_supervisors rt) (sup_next rt) (config rt) (actors rt) (exits rt) (restarts rt).

Definition set_sup_heap x rt := mkRt (slab rt) (mailboxes rt) (boxes rt) (observers rt) (registry rt) x (path_supervisors rt) (sup_next rt) (config rt) (actors rt) (exits rt) (restarts rt).

Definition set_paths x n rt := mkRt (slab rt) (mailboxes rt) (boxes rt) (observers rt) (registry rt) (sup_heap rt) x n (config rt) (actors rt) (exits rt) (restarts rt).

Definition set_config x rt := mkRt (slab rt) (mailboxes rt) (boxes rt) (observers rt) (registry rt) (sup_heap rt) (path_supervisors rt) (sup_next rt) x (actors rt) (exits rt) (restarts rt).

Definition set_actors x rt := mkRt (slab rt) (mailboxes rt) (boxes rt) (observers rt) (registry rt) (sup_heap rt) (path_supervisors rt) (sup_next rt) (config rt) x (exits rt) (restarts rt).

Definition set_exits x rt := mkRt (slab rt) (mailboxes rt) (boxes rt) (observers rt) (registry rt) (sup_heap rt) (path_supervisors rt) (sup_next rt) (config rt) (actors rt) x (restarts rt).

Definition set_restarts x rt := mkRt (slab rt) (mailboxes rt) (boxes rt) (observers rt) (registry rt) (sup_heap rt) (path_supervisors rt) (sup_next rt) (config rt) (actors rt) (exits rt) x.

Definition runtime_new : Runtime :=
  mkRt pa_new ∅ ∅ ∅ registry_new {[0%nat := supervisor_new]} ∅ 1 config_new ∅ [] [].

(** ** Configuration calls *)
Definition set_release_gil_limits (max_threads pool_size : Z) (c : Config) : Config :=
  mkConfig (network_io_timeout c) (network_max_payload c) (network_max_name_len c)
    (monitor_backoff_factor c) (monitor_backoff_max c) (monitor_failure_threshold c) max_threads pool_size (release_gil_strict c).

Definition set_release_gil_strict (strict : bool) (c : Config) : Config :=
  mkConfig (network_io_timeout c) (network_max_payload c) (network_max_name_len c)
    (monitor_backoff_factor c) (monitor_backoff_max c) (monitor_failure_threshold c)
    (release_gil_max_threads c) (gil_pool_size c) strict.

Definition get_release_gil_limits (c : Config) : Z * Z := (release_gil_max_threads c, gil_pool_size c).

Definition set_network_io_timeout (t : Z) (c : Config) : Config :=
  mkConfig t (network_max_payload c) (network_max_name_len c) (monitor_backoff_factor c)
    (monitor_backoff_max c) (monitor_failure_threshold c) (release_gil_max_threads c)
    (gil_pool_size c) (release_gil_strict c).

Definition set_network_max_payload (bytes : Z) (c : Config) : Config :=
  mkConfig (network_io_timeout c) bytes (network_max_name_len c) (monitor_backoff_factor c)
    (monitor_backoff_max c) (monitor_failure_threshold c) (release_gil_max_threads c)
    (gil_pool_size c) (release_gil_strict c).

Definition set_network_max_name_len (bytes : Z) (c : Config) : Config :=
  mkConfig (network_io_timeout c) (network_max_payload c) bytes (monitor_backoff_factor c)
    (monitor_backoff_max c) (monitor_failure_threshold c) (release_gil_max_threads c)
    (gil_pool_size c) (release_gil_strict c).

Definition set_monitor_backoff (factor : spec_float) (max : Z) (failure_threshold : Z) (c : Config) : Config :=
  mkConfig (network_io_timeout c) (network_max_payload c) (network_max_name_len c) factor max
    failure_threshold (release_gil_max_threads c) (gil_pool_size c) (release_gil_strict c).

Definition is_release_gil_strict (rt : Runtime) : bool := release_gil_strict (config rt).

Definition get_network_io_timeout (rt : Runtime) : Z := network_io_timeout (config rt).

Definition get_network_max_payload (rt : Runtime) : Z := network_max_payload (config rt).

Definition get_network_max_name_len (rt : Runtime) : Z := network_max_name_len (config rt).

Definition get_monitor_backoff_factor (rt : Runtime) : spec_float := monitor_backoff_factor (config rt).

Definition get_monitor_backoff_max (rt : Runtime) : Z := monitor_backoff_max (config rt).

Definition get_monitor_failure_threshold (rt : Runtime) : Z := monitor_failure_threshold (config rt).

(** ** Supervisors of the node *)
Definition sup_of (id : nat) (rt : Runtime) : Supervisor F := default supervisor_new (sup_heap rt !! id).

Definition on_sup (id : nat) (f : Supervisor F → Supervisor F) (rt : Runtime) : Runtime :=
  set_sup_heap (<[id := f (sup_of id rt)]> (sup_heap rt)) rt.

Definition supervisor (rt : Runtime) : Supervisor F := sup_of 0 rt.

Definition rt_link (a b : Pid) (rt : Runtime) : Runtime := on_sup 0 (link a b) rt.

Definition rt_unlink (a b : Pid) (rt : Runtime) : Runtime := on_sup 0 (unlink a b) rt.

Definition supervise (pid : Pid) (f : Factory F) (st : RestartStrategy) (rt : Runtime) : Runtime :=
  on_sup 0 (add_child pid (mkSpec f st)) rt.

(** Call [notify_exit] of a supervisor; the tasks it spawns join the pool. *)
Definition rt_notify (id : nat) (pid : Pid) (rt : Runtime) : Runtime :=
  let (s', new) := notify_exit pid (sup_of id rt) in
  set_restarts (restarts rt ++ (pair id <$> new)) (set_sup_heap (<[id := s']> (sup_heap rt)) rt).

(** [entry(path).or_insert_with(Supervisor::new)] *)
Definition path_entry (path : string) (rt : Runtime) : Runtime * nat :=
  match path_supervisors rt !! path with
  | Some id => (rt, id)
  | None =>
      let id := sup_next rt in
      (set_sup_heap (<[id := supervisor_new]> (sup_heap rt))
         (set_paths (<[path := id]> (path_supervisors rt)) (id + 1) rt), id)
  end.

Definition create_path_supervisor (path : string) (rt : Runtime) : Runtime := fst (path_entry path rt).

Definition remove_path_supervisor (path : string) (rt : Runtime) : Runtime :=
  set_paths (delete path (path_supervisors rt)) (sup_next rt) rt.

Definition path_supervisor_watch (path : string) (pid : Pid) (rt : Runtime) : Runtime :=
  match path_supervisors rt !! path with
  | Some id => on_sup id (watch pid) rt
  | None => on_sup 0 (watch pid) rt
  end.

Definition path_supervisor_children (path : string) (rt : Runtime) : list Pid :=
  match path_supervisors rt !! path with
  | Some id => child_pids (sup_of id rt)
  | None => []
  end.

Definition path_supervise_with_factory (path : string) (pid : Pid) (f : Factory F)
    (st : RestartStrategy) (rt : Runtime) : Runtime :=
  let (rt1, id) := path_entry path rt in
  on_sup id (add_child pid (mkSpec f st)) rt1.

(** ** Names and paths *)
Definition rt_register (name : string) (pid : Pid) (rt : Runtime) : Runtime :=
  set_registry (register (registry rt) name pid) rt.

Definition rt_unregister (name : string) (rt : Runtime) : Runtime :=
  set_registry (unregister (registry rt) name) rt.

Definition rt_resolve (name : string) (rt : Runtime) : option Pid := resolve (registry rt) name.

Definition register_path := rt_register.

Definition unregister_path := rt_unregister.

Definition whereis_path := rt_resolve.

Definition rt_list_children (prefix : string) (rt : Runtime) : list (string * Pid) :=
  list_children (registry rt) prefix.

Definition list_children_direct (prefix : string) (rt : Runtime) : list (string * Pid) :=
  list_direct_children (registry rt) prefix.

Definition watch_path (prefix : string) (rt : Runtime) : Runtime :=
  fold_left (λ acc kv, on_sup 0 (watch (snd kv)) acc) (list_children_direct prefix rt) rt.

(** ** Messages *)
Definition rt_send (pid : Pid) (msg : Message) (rt : Runtime) : Runtime * result unit Message :=
  match (if decide (pid ∈ mailboxes rt) then boxes rt !! pid else None) with
  | Some m => let (m', r) := send msg m in (set_boxes (<[pid := m']> (boxes rt)) rt, r)
  | None => (rt, Err msg)
  end.

Definition send_named (name : string) (msg : Message) (rt : Runtime) : Runtime * result unit string :=
  match rt_resolve name rt with
  | Some pid =>
      match rt_send pid msg rt with
      | (rt', Ok _) => (rt', Ok tt)
      | (rt', Err _) => (rt', Err "Send failed"%string)
      end
  | None => (rt, Err ("Name '" +:+ name +:+ "' not found")%string)
  end.

Definition hot_swap (pid : Pid) (handler_ptr : Z) (rt : Runtime) : Runtime :=
  match (if decide (pid ∈ mailboxes rt) then boxes rt !! pid else None) with
  | Some m => set_boxes (<[pid := fst (send_system (HotSwap handler_ptr) m)]> (boxes rt)) rt
  | None => rt
  end.

Definition mailbox_size (pid : Pid) (rt : Runtime) : option Z :=
  len <$> (if decide (pid ∈ mailboxes rt) then boxes rt !! pid else None).

Definition is_alive (pid : Pid) (rt : Runtime) : bool := pa_live (slab rt) pid.

(** [mailboxes.remove(&pid)] drops the map's sender. *)
Definition stop (pid : Pid) (rt : Runtime) : Runtime :=
  if decide (pid ∈ mailboxes rt) then
    set_boxes (alter drop_sender pid (boxes rt)) (set_mailboxes (mailboxes rt ∖ {[pid]}) rt)
  else rt.

Definition get_observed_messages (pid : Pid) (rt : Runtime) : option (list Message) := observers rt !! pid.

Definition take_observed_message_matching (pid : Pid) (matcher : Message → bool) (rt : Runtime)
  : Runtime * option Message :=
  match observers rt !! pid with
  | Some guard =>
      match position matcher guard with
      | Some pos =>
          match vec_remove pos guard with
          | Some (x, rest) => (set_observers (<[pid := rest]> (observers rt)) rt, Some x)
          | None => (rt, None)
          end
      | None => (rt, None)
      end
  | None => (rt, None)
  end.

(** ** Spawning

    The four spawn functions allocate a PID, create a mailbox, publish its
    sender and start the actor; the local sender is dropped on return.  [None]
    is a panic of the allocator. *)
Definition spawn (kind : ActorKind) (rt : Runtime) : option (Runtime * Pid) :=
  match pa_alloc (slab rt) with
  | Some (slab', pid) =>
      let rt1 := set_slab slab' rt in
      let m := drop_sender (clone_sender channel) in
      let rt2 := set_boxes (<[pid := m]> (boxes rt1)) (set_mailboxes ({[pid]} ∪ mailboxes rt1) rt1) in
      let rt3 := match kind with
                 | Observed => set_observers (<[pid := []]> (observers rt2)) rt2
                 | _ => rt2
                 end in
      Some (set_actors (<[pid := kind]> (actors rt3)) rt3, pid)
  | None => None
  end.

Definition spawn_actor : Runtime → option (Runtime * Pid) := spawn Raw.

Definition spawn_actor_with_budget (_budget : Z) : Runtime → option (Runtime * Pid) := spawn Raw.

Definition spawn_handler_with_budget (budget : Z) : Runtime → option (Runtime * Pid) :=
  spawn (Handler budget 0).

Definition spawn_observed_handler (_budget : Z) : Runtime → option (Runtime * Pid) := spawn Observed.

Definition spawn_with_path_observed (budget : Z) (path : string) (rt : Runtime) : option (Runtime * Pid) :=
  match spawn_observed_handler budget rt with
  | Some (rt', pid) => Some (register_path path pid rt', pid)
  | None => None
  end.

(** ** Actor bodies *)

(** The actor's future has completed: its receiver is dropped with it, and the
    supervising task wakes up with the result.  The built-in loops own their
    receiver.  A user body is given its receiver and could hand it on - the
    [PyMailbox] of a Python pull actor can be copied and kept - in which case
    messages can still be sent until the mailbox is removed, and received; such a
    body is outside the model from here on. *)
Definition actor_done (pid : Pid) (res : JoinResult) (rt : Runtime) : Runtime :=
  set_exits (exits rt ++ [mkExit pid res ExRemoveMailbox])
    (set_actors (delete pid (actors rt))
       (set_boxes (alter drop_receiver pid (boxes rt)) rt)).

(** One poll of an actor's [rx.recv().await]. *)
Definition actor_recv (pid : Pid) (rt : Runtime) : Runtime * poll (option Message) :=
  match boxes rt !! pid with
  | Some m => let (m', r) := recv m in (set_boxes (<[pid := m']> (boxes rt)) rt, r)
  | None => (rt, Ready None)
  end.

(** One turn of the observer's loop. *)
Definition observed_turn (pid : Pid) (rt : Runtime) : Runtime :=
  match actor_recv pid rt with
  | (rt', Ready (Some msg)) =>
      set_observers (alter (λ v, v ++ [msg]) pid (observers rt')) rt'
  | (rt', Ready None) => actor_done pid JoinOk rt'
  | (rt', Pending) => rt'
  end.

(** What a turn of a handler's loop did: the message it handled and whether it
    then yielded to the scheduler. *)
Inductive turn_event := Handled (msg : Message) (yielded : bool) | Stopped | Waiting.

(** One turn of a handler's loop, given how the handler's own future ends:
    [None] is a normal return, [Some debug] a panic. *)
Definition handler_turn (pid : Pid) (panics : option string) (rt : Runtime) : Runtime * turn_event :=
  match actors rt !! pid with
  | Some (Handler budget processed) =>
      match actor_recv pid rt with
      | (rt', Ready (Some msg)) =>
          match panics with
          | Some debug => (actor_done pid (JoinErr true debug) rt', Stopped)
          | None =>
              let n := processed + 1 in
              let yields := budget <=? n in
              (set_actors (<[pid := Handler budget (if yields then 0 else n)]> (actors rt')) rt',
               Handled msg yields)
          end
      | (rt', Ready None) => (actor_done pid JoinOk rt', Stopped)
      | (rt', Pending) => (rt', Waiting)
      end
  | _ => (rt, Waiting)
  end.

(** ** Clean-up after an actor's end *)
Definition exit_reason (res : JoinResult) : ExitReason * option string :=
  match res with
  | JoinOk => (Normal, None)
  | JoinErr is_panic debug =>
      if is_panic then (Panic, Some ("join_error: " +:+ debug)%string)
      else (Other "join_error", Some ("join_error: " +:+ debug)%string)
  end.

Definition exit_message (e : ExitTask) : Message :=
  let (rs, meta) := exit_reason (ex_result e) in
  System (Exit (mkExitInfo (ex_pid e) rs meta)).

(** The next atomic operation of a clean-up. *)
Definition exit_turn (e : ExitTask) (rt : Runtime) : Runtime * ExitTask :=
  let pid := ex_pid e in
  let goto := mkExit pid (ex_result e) in
  match ex_stage e with
  | ExRemoveMailbox => (stop pid rt, goto ExNotify)
  | ExNotify =>
      (rt_notify 0 pid rt, goto (ExNotifyPaths (snd <$> map_to_list (path_supervisors rt))))
  | ExNotifyPaths (id :: rest) =>
      (if contains_child pid (sup_of id rt) then rt_notify id pid rt else rt, goto (ExNotifyPaths rest))
  | ExNotifyPaths [] => (rt, goto ExDeallocate)
  | ExDeallocate => (set_slab (fst (pa_free (slab rt) pid)) rt, goto ExLinks)
  | ExLinks =>
      let (s', peers) := linked_pids pid (sup_of 0 rt) in
      (set_sup_heap (<[0%nat := s']> (sup_heap rt)) rt, goto (ExSend peers))
  | ExSend (lp :: rest) => (fst (rt_send lp (exit_message e) rt), goto (ExSend rest))
  | ExSend [] => (rt, goto ExDone)
  | ExDone => (rt, e)
  end.

(** One turn of the [i]-th running clean-up. *)
Definition exits_turn (i : nat) (rt : Runtime) : Runtime :=
  match exits rt !! i with
  | Some e => let (rt', e') := exit_turn e rt in set_exits (<[i := e']> (exits rt')) rt'
  | None => rt
  end.

(** One turn of the [i]-th restart task, its factory having answered [r]. *)
Definition restart_turn (i : nat) (r : result Pid string) (rt : Runtime) : Runtime :=
  match restarts rt !! i with
  | Some (id, t) =>
      let (s', next) := restart_attempt t r (sup_of id rt) in
      let rt1 := set_sup_heap (<[id := s']> (sup_heap rt)) rt in
      match next with
      | Finished => set_restarts (delete i (restarts rt1)) rt1
      | Sleep _ t' => set_restarts (<[i := (id, t')]> (restarts rt1)) rt1
      end
  | None => rt
  end.

(** ** The configuration calls *)
Lemma config_get_set c (rt : Runtime) limits pool strict t bytes len factor max n :
  let rt' := set_config (set_monitor_backoff factor max n (set_network_max_name_len len (set_network_max_payload bytes
    (set_network_io_timeout t (set_release_gil_strict strict (set_release_gil_limits limits pool c)))))) rt in
  get_release_gil_limits (config rt') = (limits, pool) ∧ is_release_gil_strict rt' = strict ∧
  get_network_io_timeout rt' = t ∧ get_network_max_payload rt' = bytes ∧ get_network_max_name_len rt' = len ∧
  get_monitor_backoff_factor rt' = factor ∧ get_monitor_backoff_max rt' = max ∧
  get_monitor_failure_threshold rt' = n.
Proof. done. Qed.
End runtime.

Arguments Runtime : clear implicits.
