(* ===== verification/RuntimeInv.v ===== *)
(** * Invariants of the runtime ([src/src/lib.rs])

    The runtime as a transition system: every call of the API, every poll of an
    actor, every atomic operation of a clean-up and every turn of a restart
    task is a step, in any order.  The file shows which PIDs are alive and which
    have a mailbox in every reachable state, for any PID allocator. *)
From S2P Require Import Prelude Pid Mailbox Registry Supervisor Runtime.

Section runtime_inv.
Context {F S : Type} `{PA : PidAllocator S}.
Implicit Types (rt : Runtime F S) (p q : Pid) (e : ExitTask).

(** ** Steps *)

(** The supervisor calls the API exposes. *)
Inductive sup_call : (Supervisor F → Supervisor F) → Prop :=
| call_add pid sp : sup_call (add_child pid sp)
| call_remove pid : sup_call (remove_child pid)
| call_watch pid : sup_call (watch pid)
| call_unwatch pid : sup_call (unwatch pid)
| call_link a b : sup_call (link a b)
| call_unlink a b : sup_call (unlink a b)
| call_linked pid : sup_call (λ s, fst (linked_pids pid s)).

(** The receiver calls of an actor whose body owns its receiver. *)
Inductive recv_call (m : Mailbox) : Mailbox → Prop :=
| call_recv : recv_call m (fst (recv m))
| call_try_recv : recv_call m (fst (try_recv m))
| call_selective f m' r : selective_recv f m = Some (m', r) → recv_call m m'.

Inductive rt_step : Runtime F S → Runtime F S → Prop :=
| st_spawn k rt rt' p : pa_room (slab rt) → spawn k rt = Some (rt', p) → rt_step rt rt'
| st_send p msg rt : rt_step rt (fst (rt_send p msg rt))
| st_hot_swap p ptr rt : rt_step rt (hot_swap p ptr rt)
| st_stop p rt : rt_step rt (stop p rt)
| st_register n p rt : rt_step rt (rt_register n p rt)
| st_unregister n rt : rt_step rt (rt_unregister n rt)
| st_sup id f rt : sup_call f → rt_step rt (on_sup id f rt)
| st_notify id p rt : rt_step rt (rt_notify id p rt)
| st_create_path path rt : rt_step rt (create_path_supervisor path rt)
| st_remove_path path rt : rt_step rt (remove_path_supervisor path rt)
| st_take p f rt : rt_step rt (fst (take_observed_message_matching p f rt))
| st_config c rt : rt_step rt (set_config c rt)
| st_observed p rt : actors rt !! p = Some Observed → rt_step rt (observed_turn p rt)
| st_handler p pn rt : rt_step rt (fst (handler_turn p pn rt))
| st_raw_recv p m m' rt : actors rt !! p = Some Raw → boxes rt !! p = Some m → recv_call m m' →
    rt_step rt (set_boxes (<[p := m']> (boxes rt)) rt)
| st_raw_done p res rt : actors rt !! p = Some Raw → rt_step rt (actor_done p res rt)
| st_exit i rt : rt_step rt (exits_turn i rt)
| st_restart i r rt : rt_step rt (restart_turn i r rt).

Definition rt_init rt : Prop := rt = runtime_new.

(** ** Invariant *)

(** The clean-up has not given the slot back yet. *)
Definition holds_slot (g : ExitStage) : bool :=
  match g with
  | ExRemoveMailbox | ExNotify | ExNotifyPaths _ | ExDeallocate => true
  | _ => false
  end.

(** A PID in use: its actor runs, or its clean-up still holds the slot. *)
Definition in_use rt p : Prop :=
  is_Some (actors rt !! p) ∨
  ∃ i e, exits rt !! i = Some e ∧ holds_slot (ex_stage e) = true ∧ ex_pid e = p.

Record rt_inv rt : Prop := {
  inv_slab : pa_ok (slab rt);
  inv_fits : ∀ p, in_use rt p → fits 64 p;
  inv_live : ∀ p, fits 64 p → is_alive p rt = true ↔ in_use rt p;
  inv_disjoint : ∀ i e, exits rt !! i = Some e → holds_slot (ex_stage e) = true →
    actors rt !! ex_pid e = None;
  inv_unique : ∀ i j e e', exits rt !! i = Some e → exits rt !! j = Some e' →
    holds_slot (ex_stage e) = true → holds_slot (ex_stage e') = true → ex_pid e = ex_pid e' → i = j;
  inv_mail : ∀ p, p ∈ mailboxes rt → is_Some (actors rt !! p) ∨
    ∃ i e, exits rt !! i = Some e ∧ ex_stage e = ExRemoveMailbox ∧ ex_pid e = p;
  inv_box : ∀ p, p ∈ mailboxes rt → ∃ m, boxes rt !! p = Some m ∧ senders m = 1%nat ∧
    (receiver_alive m = true ↔ is_Some (actors rt !! p));
  inv_actor : ∀ p, is_Some (actors rt !! p) → ∃ m, boxes rt !! p = Some m ∧
    receiver_alive m = true ∧ (p ∉ mailboxes rt → senders m = 0%nat)
}.

(** Two states that agree on what the invariant reads. *)
Record same_shape rt rt' : Prop := {
  sh_slab : slab rt' = slab rt;
  sh_mail : mailboxes rt' = mailboxes rt;
  sh_exits : exits rt' = exits rt;
  sh_actors : ∀ p, is_Some (actors rt' !! p) ↔ is_Some (actors rt !! p);
  sh_boxes : ∀ p m, boxes rt !! p = Some m → ∃ m', boxes rt' !! p = Some m' ∧
    senders m' = senders m ∧ receiver_alive m' = receiver_alive m
}.

Lemma same_shape_refl rt : same_shape rt rt.
Proof. split; naive_solver. Qed.

Lemma same_shape_trans rt1 rt2 rt3 : same_shape rt1 rt2 → same_shape rt2 rt3 → same_shape rt1 rt3.
Proof.
  intros [] []. split; try congruence; [naive_solver|].
  intros p m Hm. destruct (sh_boxes0 p m Hm) as (m2 & Hm2 & ? & ?).
  destruct (sh_boxes1 p m2 Hm2) as (m3 & ? & ? & ?). exists m3. split_and!; congruence.
Qed.

Lemma same_shape_inv rt rt' : rt_inv rt → same_shape rt rt' → rt_inv rt'.
Proof.
  intros Hi [Hs Hm He Ha Hb].
  assert (Hu : ∀ p, in_use rt' p ↔ in_use rt p) by (intros p; unfold in_use; by rewrite Ha, He).
  split; unfold is_alive; rewrite ?Hs, ?Hm, ?He.
  - apply Hi.
  - intros p. rewrite Hu. apply Hi.
  - intros p. rewrite Hu. apply (inv_live _ Hi).
  - intros i e Hie Hh. rewrite eq_None_not_Some, Ha, <-eq_None_not_Some. by eapply inv_disjoint.
  - apply Hi.
  - intros p. rewrite Ha. apply Hi.
  - intros p Hp. destruct (inv_box _ Hi p Hp) as (m & Hbm & Hsm & Hrm).
    destruct (Hb p m Hbm) as (m' & ? & Hsm' & Hrm'). exists m'. by rewrite Ha, Hsm', Hrm'.
  - intros p. rewrite Ha. intros (m & Hbm & Hr & Hn)%(inv_actor _ Hi).
    destruct (Hb p m Hbm) as (m' & ? & Hs' & Hr'). exists m'. rewrite Hs', Hr'. auto.
Qed.

(** ** Steps that keep the shape *)
Lemma shape_box rt p m m' :
  boxes rt !! p = Some m → senders m' = senders m → receiver_alive m' = receiver_alive m →
  same_shape rt (set_boxes (<[p := m']> (boxes rt)) rt).
Proof.
  intros Hm Hs Hr. split; simpl; try done. intros q mq Hq.
  destruct (decide (q = p)) as [->|Hne].
  - rewrite lookup_insert_eq. exists m'. split_and!; congruence.
  - rewrite lookup_insert_ne by done. eauto.
Qed.

Lemma send_shape msg m :
  senders (fst (send msg m)) = senders m ∧ receiver_alive (fst (send msg m)) = receiver_alive m.
Proof. unfold send, tx_user_send, tx_sys_send. destruct msg; simpl; by destruct (receiver_alive m) eqn:E; simpl; rewrite ?E. Qed.

Lemma send_system_shape x m :
  senders (fst (send_system x m)) = senders m ∧
  receiver_alive (fst (send_system x m)) = receiver_alive m.
Proof. unfold send_system, tx_sys_send. by destruct (receiver_alive m) eqn:E; simpl; rewrite ?E. Qed.

Lemma shape_send p msg rt : same_shape rt (fst (rt_send p msg rt)).
Proof.
  unfold rt_send. case_decide; [|apply same_shape_refl].
  destruct (boxes rt !! p) as [m|] eqn:Hm; [|apply same_shape_refl].
  destruct (send_shape msg m). destruct (send msg m) as [m' r] eqn:E.
  by apply (shape_box _ _ m).
Qed.

Lemma shape_hot_swap p ptr rt : same_shape rt (hot_swap p ptr rt).
Proof.
  unfold hot_swap. case_decide; [|apply same_shape_refl].
  destruct (boxes rt !! p) as [m|] eqn:Hm; [|apply same_shape_refl].
  destruct (send_system_shape (HotSwap ptr) m). by apply (shape_box _ _ m).
Qed.

Lemma shape_recv_call p m m' rt : boxes rt !! p = Some m → recv_call m m' →
  same_shape rt (set_boxes (<[p := m']> (boxes rt)) rt).
Proof.
  intros Hm Hc. destruct Hc as [| |f m' r Hs].
  - destruct (recv_frame m) as (? & ? & _). by apply (shape_box _ _ m).
  - destruct (try_recv_frame m) as (? & ? & _). by apply (shape_box _ _ m).
  - destruct (selective_recv_spec f m) as (m2 & r2 & Hs2 & (? & ? & _) & _).
    replace m2 with m' in * by congruence. by apply (shape_box _ _ m).
Qed.

Lemma shape_actor_recv p rt : same_shape rt (fst (actor_recv p rt)).
Proof.
  unfold actor_recv. destruct (boxes rt !! p) as [m|] eqn:Hm; [|apply same_shape_refl].
  destruct (recv m) as [m' r] eqn:E. simpl. apply (shape_recv_call p m); [done|].
  replace m' with (fst (recv m)) by by rewrite E. constructor.
Qed.

Lemma shape_restart i r rt : same_shape rt (restart_turn i r rt).
Proof.
  unfold restart_turn. destruct (restarts rt !! i) as [[id t]|]; [|apply same_shape_refl].
  destruct (restart_attempt t r (sup_of id rt)) as [s' [|ms t']]; split; naive_solver.
Qed.

Lemma shape_notify id p rt : same_shape rt (rt_notify id p rt).
Proof. unfold rt_notify. destruct (notify_exit p (sup_of id rt)). split; naive_solver. Qed.

Lemma shape_take p f rt : same_shape rt (fst (take_observed_message_matching p f rt)).
Proof. unfold take_observed_message_matching. repeat split_match; split; naive_solver. Qed.

Lemma shape_create_path path rt : same_shape rt (create_path_supervisor path rt).
Proof. unfold create_path_supervisor, path_entry. split_match; split; naive_solver. Qed.

Lemma shape_set_actors k p rt : is_Some (actors rt !! p) →
  same_shape rt (set_actors (<[p := k]> (actors rt)) rt).
Proof.
  intros Hp. split; simpl; try naive_solver. intros q. destruct (decide (q = p)) as [->|Hne].
  - rewrite lookup_insert_eq. naive_solver.
  - by rewrite lookup_insert_ne.
Qed.

Lemma shape_set_observers v rt : same_shape rt (set_observers v rt).
Proof. split; naive_solver. Qed.

(** ** Steps that change the shape *)
Lemma inv_stop p rt : rt_inv rt → rt_inv (stop p rt).
Proof.
  intros Hi. unfold stop. case_decide as Hp; [|done]. split; try apply Hi; simpl.
  - intros q [Hq _]%elem_of_difference. by apply (inv_mail _ Hi).
  - intros q [Hq Hne]%elem_of_difference. rewrite lookup_alter_ne by set_solver.
    by apply (inv_box _ Hi).
  - intros q (m & Hm & Hr & Hn)%(inv_actor _ Hi). destruct (decide (q = p)) as [->|Hne].
    + rewrite lookup_alter_eq, Hm. eexists. split_and!; [done|done|]. intros _.
      destruct (inv_box _ Hi p Hp) as (m' & ? & Hs & _). replace m' with m in * by congruence.
      simpl. by rewrite Hs.
    + rewrite lookup_alter_ne by done. exists m. split_and!; [done|done|]. set_solver.
Qed.

Lemma stop_not_in p rt : p ∉ mailboxes (stop p rt).
Proof. unfold stop. case_decide; simpl; set_solver. Qed.

Lemma stop_exits p rt : exits (stop p rt) = exits rt.
Proof. unfold stop. by case_decide. Qed.

Lemma in_use_done p res rt q : is_Some (actors rt !! p) →
  in_use (actor_done p res rt) q ↔ in_use rt q.
Proof.
  intros Hp. unfold in_use, actor_done. simpl. split.
  - intros [[k [_ Hk]%lookup_delete_Some]|(i & e & He & Hh & <-)]; [left; by eexists|].
    apply lookup_app_Some in He as [He|[_ He]]; [right; eauto|].
    apply list_lookup_singleton_Some in He as [_ <-]. by left.
  - intros [Hk|(i & e & He & Hh & <-)].
    + destruct (decide (q = p)) as [->|Hne]; [|left; by rewrite lookup_delete_ne].
      right. exists (length (exits rt)), (mkExit p res ExRemoveMailbox). split; [|done].
      by rewrite lookup_app_r, Nat.sub_diag by done.
    + right. exists i, e. split; [|done]. by apply lookup_app_l_Some.
Qed.

Lemma exits_snoc (l : list ExitTask) x i e :
  (l ++ [x]) !! i = Some e → l !! i = Some e ∨ i = length l ∧ e = x.
Proof.
  intros [?|[Hi He]]%lookup_app_Some; [by left|right].
  apply list_lookup_singleton_Some in He as [He <-]. split; [lia|done].
Qed.

Lemma inv_actor_done p res rt : is_Some (actors rt !! p) → rt_inv rt → rt_inv (actor_done p res rt).
Proof.
  intros Hp Hi. split; try (intros q; rewrite in_use_done by done); try apply Hi; simpl.
  - intros i e [He|[-> ->]]%exits_snoc Hh; simpl; [|apply lookup_delete_eq].
    apply lookup_delete_None. right. by eapply inv_disjoint.
  - assert (Hnew : ∀ i e, exits rt !! i = Some e → holds_slot (ex_stage e) = true → ex_pid e ≠ p).
    { intros i e He Hh Heq. apply (inv_disjoint _ Hi i e He) in Hh. rewrite Heq in Hh.
      destruct Hp. congruence. }
    intros i j e e' [He|[-> ->]]%exits_snoc [He'|[-> ->]]%exits_snoc Hh Hh' Heq; simpl in *;
      [by eapply inv_unique|by destruct (Hnew i e)|by destruct (Hnew j e')|done].
  - intros q [Hq|(i & e & He & Hs & <-)]%(inv_mail _ Hi).
    + destruct (decide (q = p)) as [->|Hne]; [|left; by rewrite lookup_delete_ne].
      right. exists (length (exits rt)), (mkExit p res ExRemoveMailbox). split; [|done].
      by rewrite lookup_app_r, Nat.sub_diag by done.
    + right. exists i, e. split; [|done]. by apply lookup_app_l_Some.
  - intros q (m & Hm & Hs & Hr)%(inv_box _ Hi). destruct (decide (q = p)) as [->|Hne].
    + rewrite lookup_alter_eq, lookup_delete_eq, Hm. eexists. split_and!; [done|done|].
      simpl. split; [done|by intros []].
    + rewrite lookup_alter_ne, lookup_delete_ne by done. eauto.
  - intros q [k [Hne Hk]%lookup_delete_Some]. rewrite lookup_alter_ne by done.
    apply (inv_actor _ Hi). by eexists.
Qed.

Lemma inv_spawn k rt rt' p :
  rt_inv rt → pa_room (slab rt) → spawn k rt = Some (rt', p) → rt_inv rt'.
Proof.
  intros Hi Hroom Hs. unfold spawn in Hs.
  destruct (pa_alloc (slab rt)) as [[sl pid]|] eqn:Ha; [|done]. injection Hs as <- <-.
  assert (Hok := inv_slab _ Hi).
  assert (Hfit := pa_alloc_fits _ _ _ Hok Hroom Ha).
  assert (Hdead := pa_alloc_fresh _ _ _ Hok Hroom Ha).
  assert (Hnu : ¬ in_use rt pid) by (rewrite <-(inv_live _ Hi pid Hfit); unfold is_alive; congruence).
  set (rt' := set_actors _ _).
  assert (Hsh : slab rt' = sl ∧ mailboxes rt' = {[pid]} ∪ mailboxes rt ∧ exits rt' = exits rt ∧
    actors rt' = <[pid := k]> (actors rt) ∧
    boxes rt' = <[pid := drop_sender (clone_sender channel)]> (boxes rt)) by (by destruct k).
  clearbody rt'. destruct Hsh as (Es & Em & Ee & Eact & Eb).
  assert (Hu : ∀ q, in_use rt' q ↔ q = pid ∨ in_use rt q).
  { intros q. unfold in_use. rewrite Ee, Eact. destruct (decide (q = pid)) as [->|Hne].
    - rewrite lookup_insert_eq. naive_solver.
    - rewrite lookup_insert_ne by done. naive_solver. }
  split; unfold is_alive; rewrite ?Es, ?Em, ?Ee, ?Eact, ?Eb.
  - by eapply pa_alloc_ok.
  - intros q [->|Hq]%Hu; [done|]. by apply (inv_fits _ Hi).
  - intros q Hq. rewrite Hu, (pa_alloc_live _ _ _ q Hok Hroom Ha Hq), orb_true_iff, bool_decide_eq_true.
    apply or_iff_compat_l. by apply (inv_live _ Hi).
  - intros i e He Hh. rewrite lookup_insert_ne; [by eapply inv_disjoint|].
    intros Heq. apply Hnu. right. eauto.
  - apply Hi.
  - intros q [->%elem_of_singleton|Hq]%elem_of_union; [left; by rewrite lookup_insert_eq|].
    destruct (inv_mail _ Hi q Hq) as [Hs|?]; [left|by right].
    destruct (decide (q = pid)) as [->|]; [by rewrite lookup_insert_eq|by rewrite lookup_insert_ne].
  - intros q Hq. destruct (decide (q = pid)) as [->|Hne].
    + rewrite !lookup_insert_eq. eexists. split_and!; [done|done|]. done.
    + rewrite !lookup_insert_ne by done. apply (inv_box _ Hi). set_solver.
  - intros q Hq. destruct (decide (q = pid)) as [->|Hne].
    + rewrite lookup_insert_eq. eexists. split_and!; [done|done|]. set_solver.
    + rewrite lookup_insert_ne in Hq by done. rewrite lookup_insert_ne by done.
      destruct (inv_actor _ Hi q Hq) as (m & ? & ? & ?). exists m. split_and!; [done|done|]. set_solver.
Qed.
(** Replacing the [i]-th clean-up by its next stage. *)
Lemma exits_insert (l : list ExitTask) i e e' j x :
  l !! i = Some e → <[i := e']> l !! j = Some x → (j = i ∧ x = e') ∨ (j ≠ i ∧ l !! j = Some x).
Proof.
  intros Hi Hj. destruct (decide (j = i)) as [->|Hne].
  - rewrite list_lookup_insert_eq in Hj by (by eapply lookup_lt_Some). left. naive_solver.
  - rewrite list_lookup_insert_ne in Hj by done. by right.
Qed.

Lemma exits_insert_some (l : list ExitTask) i e e' j x :
  l !! i = Some e → l !! j = Some x → j ≠ i → <[i := e']> l !! j = Some x.
Proof. intros _ Hj Hne. by rewrite list_lookup_insert_ne. Qed.

(** A clean-up that keeps its slot moves on. *)
Lemma inv_exit_keep rt i e e' :
  rt_inv rt → exits rt !! i = Some e → ex_pid e' = ex_pid e →
  holds_slot (ex_stage e') = holds_slot (ex_stage e) →
  (ex_stage e = ExRemoveMailbox → ex_stage e' = ex_stage e ∨ ex_pid e ∉ mailboxes rt) →
  rt_inv (set_exits (<[i := e']> (exits rt)) rt).
Proof.
  intros Hi He Hp Hh Hm.
  assert (Hlt : (i < length (exits rt))%nat) by by eapply lookup_lt_Some.
  assert (Hu : ∀ q, in_use (set_exits (<[i := e']> (exits rt)) rt) q ↔ in_use rt q).
  { intros q. unfold in_use. simpl. apply or_iff_compat_l. split.
    - intros (j & x & [[-> ->]|[Hne Hx]]%(exits_insert _ i e _ _ _ He) & Hs & <-).
      + exists i, e. split_and!; [done|congruence|done].
      + exists j, x. done.
    - intros (j & x & Hx & Hs & <-). destruct (decide (j = i)) as [->|Hne].
      + exists i, e'. replace x with e in * by congruence.
        rewrite list_lookup_insert_eq by done. split_and!; [done|congruence|done].
      + exists j, x. split; [by apply (exits_insert_some _ i e)|done]. }
  split; try (intros q; rewrite Hu); try apply Hi; simpl.
  - intros j x [[-> ->]|[Hne Hx]]%(exits_insert _ i e _ _ _ He) Hs.
    + rewrite Hp. eapply (inv_disjoint _ Hi); [done|congruence].
    + by eapply (inv_disjoint _ Hi).
  - intros j k x y [[-> ->]|[Hne Hx]]%(exits_insert _ i e _ _ _ He) [[-> ->]|[Hne' Hy]]%(exits_insert _ i e _ _ _ He) Hs Hs' Heq;
      [done|eapply (inv_unique _ Hi i k e y)|eapply (inv_unique _ Hi j i x e)|eapply (inv_unique _ Hi)|..];
      done || congruence.
  - intros q Hq. destruct (inv_mail _ Hi q Hq) as [?|(j & x & Hx & Hs & <-)]; [by left|right].
    destruct (decide (j = i)) as [->|Hne].
    + replace x with e in * by congruence. destruct (Hm Hs) as [Hs'|?]; [|done].
      exists i, e'. rewrite list_lookup_insert_eq by done. split_and!; [done|congruence|done].
    + exists j, x. split; [by apply (exits_insert_some _ i e)|done].
Qed.

(** A clean-up that has given its slot back moves on: nothing depends on it. *)
Lemma inv_exit_free rt i e e' :
  rt_inv rt → exits rt !! i = Some e → ex_pid e' = ex_pid e → ex_stage e = ExDeallocate →
  holds_slot (ex_stage e') = false →
  rt_inv (set_exits (<[i := e']> (exits rt)) (set_slab (fst (pa_free (slab rt) (ex_pid e))) rt)).
Proof.
  intros Hi He Hp Hst Hh.
  assert (Hlt : (i < length (exits rt))%nat) by by eapply lookup_lt_Some.
  assert (Hok := inv_slab _ Hi).
  assert (Hold : in_use rt (ex_pid e)) by (right; exists i, e; by rewrite Hst).
  assert (Hfit := inv_fits _ Hi _ Hold).
  set (rt' := set_exits _ _).
  assert (Hu : ∀ q, in_use rt' q ↔ in_use rt q ∧ q ≠ ex_pid e).
  { intros q. unfold in_use. simpl. split.
    - intros [Hq|(j & x & [[-> ->]|[Hne Hx]]%(exits_insert _ i e _ _ _ He) & Hs & <-)]; [|congruence|].
      + split; [by left|]. intros ->. destruct Hq as [k Hk].
        rewrite (inv_disjoint _ Hi i e) in Hk; [done|done|by rewrite Hst].
      + split; [right; eauto|]. intros Heq. apply Hne.
        by apply (inv_unique _ Hi j i x e); rewrite ?Hst.
    - intros [[Hq|(j & x & Hx & Hs & <-)] Hne]; [by left|right].
      destruct (decide (j = i)) as [->|Hji]; [congruence|].
      exists j, x. split; [by apply (exits_insert_some _ i e)|done]. }
  split; try (intros q; rewrite Hu); try apply Hi; simpl.
  - by apply pa_free_ok.
  - intros [Hq _]. by apply (inv_fits _ Hi).
  - intros Hq. unfold is_alive. simpl. rewrite (pa_free_live _ _ q Hok Hfit Hq), andb_true_iff, negb_true_iff, bool_decide_eq_false.
    rewrite (inv_live _ Hi q Hq). tauto.
  - intros j x [[-> ->]|[Hne Hx]]%(exits_insert _ i e _ _ _ He) Hs; [congruence|].
    by eapply (inv_disjoint _ Hi).
  - intros j k x y [[-> ->]|[Hne Hx]]%(exits_insert _ i e _ _ _ He) [[-> ->]|[Hne' Hy]]%(exits_insert _ i e _ _ _ He) Hs Hs' Heq;
      try congruence. by eapply (inv_unique _ Hi).
  - intros q Hq. destruct (inv_mail _ Hi q Hq) as [?|(j & x & Hx & Hs & <-)]; [by left|right].
    destruct (decide (j = i)) as [->|Hne]; [congruence|].
    exists j, x. split; [by apply (exits_insert_some _ i e)|done].
Qed.
Lemma exits_turn_stage i e rt :
  exits rt !! i = Some e →
  exits_turn i rt = set_exits (<[i := snd (exit_turn e rt)]> (exits (fst (exit_turn e rt)))) (fst (exit_turn e rt)).
Proof. intros He. unfold exits_turn. rewrite He. by destruct (exit_turn e rt). Qed.

(** A stage before or after the slot is given back only touches what the shape
    leaves free, except that the first one removes the mailbox. *)
Lemma exit_turn_shape e rt :
  ex_stage e ≠ ExRemoveMailbox → ex_stage e ≠ ExDeallocate →
  same_shape rt (fst (exit_turn e rt)) ∧ ex_pid (snd (exit_turn e rt)) = ex_pid e ∧
  holds_slot (ex_stage (snd (exit_turn e rt))) = holds_slot (ex_stage e).
Proof.
  intros H1 H2. unfold exit_turn. destruct (ex_stage e) as [| |[|id rest]| | |[|lp rest]|] eqn:E; simpl;
    try done; split_and!; try done; try (by rewrite ?E); try apply same_shape_refl.
  - apply shape_notify.
  - split_match; [apply shape_notify|apply same_shape_refl].
  - destruct (linked_pids (ex_pid e) (sup_of 0 rt)); split; naive_solver.
  - by destruct (linked_pids (ex_pid e) (sup_of 0 rt)).
  - by destruct (linked_pids (ex_pid e) (sup_of 0 rt)).
  - apply shape_send.
Qed.

Lemma inv_exits_turn i rt : rt_inv rt → rt_inv (exits_turn i rt).
Proof.
  intros Hi. destruct (exits rt !! i) as [e|] eqn:He; [|unfold exits_turn; by rewrite He].
  rewrite (exits_turn_stage i e rt He).
  destruct (decide (ex_stage e = ExRemoveMailbox)) as [Hr|Hr].
  { unfold exit_turn. rewrite Hr. simpl. apply (inv_exit_keep _ i e).
    - by apply inv_stop.
    - by rewrite stop_exits.
    - done.
    - by rewrite Hr.
    - intros _. right. apply stop_not_in. }
  destruct (decide (ex_stage e = ExDeallocate)) as [Hd|Hd].
  { unfold exit_turn. rewrite Hd. simpl. by apply (inv_exit_free _ i e). }
  destruct (exit_turn_shape e rt Hr Hd) as (Hs & Hp & Hh).
  apply (inv_exit_keep _ i e); [by apply (same_shape_inv rt)|by rewrite (sh_exits _ _ Hs)|done|done|done].
Qed.

(** ** Actor turns *)
Lemma inv_actor_recv p rt : rt_inv rt → rt_inv (fst (actor_recv p rt)).
Proof. intros Hi. apply (same_shape_inv rt); [done|apply shape_actor_recv]. Qed.

Lemma actor_recv_actors p rt : actors (fst (actor_recv p rt)) = actors rt.
Proof. unfold actor_recv. destruct (boxes rt !! p) as [m|]; [|done]. by destruct (recv m). Qed.

Lemma inv_observed_turn p rt : is_Some (actors rt !! p) → rt_inv rt → rt_inv (observed_turn p rt).
Proof.
  intros Hp Hi. assert (Hr := inv_actor_recv p rt Hi). assert (Ha := actor_recv_actors p rt).
  unfold observed_turn. destruct (actor_recv p rt) as [rt' [[msg|]|]]; simpl in *.
  - apply (same_shape_inv rt'); [done|apply shape_set_observers].
  - apply inv_actor_done; [by rewrite Ha|done].
  - done.
Qed.

Lemma inv_handler_turn p pn rt : rt_inv rt → rt_inv (fst (handler_turn p pn rt)).
Proof.
  intros Hi. unfold handler_turn. destruct (actors rt !! p) as [[|budget n|]|] eqn:Hp; try done.
  assert (Hr := inv_actor_recv p rt Hi). assert (Ha := actor_recv_actors p rt).
  destruct (actor_recv p rt) as [rt' [[msg|]|]]; simpl in *; [destruct pn as [debug|]; simpl| |done].
  - apply inv_actor_done; [by rewrite Ha, Hp|done].
  - apply (same_shape_inv rt'); [done|]. apply shape_set_actors. by rewrite Ha, Hp.
  - apply inv_actor_done; [by rewrite Ha, Hp|done].
Qed.

#[local] Hint Resolve same_shape_refl shape_send shape_hot_swap shape_notify shape_create_path shape_take
  shape_restart shape_recv_call inv_spawn inv_stop inv_actor_done inv_handler_turn inv_observed_turn
  inv_exits_turn : actor.
#[local] Hint Extern 4 (rt_inv _) => eapply same_shape_inv; [eassumption|] : actor.
#[local] Hint Extern 3 (is_Some _) => eexists; eassumption : actor.

(** ** Every step keeps the invariant *)
Lemma rt_inv_new : rt_inv runtime_new.
Proof.
  split; simpl.
  - apply pa_ok_new.
  - intros p [[k Hk]|(i & e & He & _)]; simpl in *; [by rewrite lookup_empty in Hk|by rewrite lookup_nil in He].
  - intros p _. unfold is_alive. simpl. rewrite pa_new_dead. split; [done|].
    intros [[k Hk]|(i & e & He & _)]; simpl in *; [by rewrite lookup_empty in Hk|by rewrite lookup_nil in He].
  - intros i e He. by rewrite lookup_nil in He.
  - intros i j e e' He. by rewrite lookup_nil in He.
  - set_solver.
  - set_solver.
  - intros p [k Hk]. simpl in *. by rewrite lookup_empty in Hk.
Qed.

Lemma rt_step_inv rt rt' : rt_inv rt → rt_step rt rt' → rt_inv rt'.
Proof.
  intros Hi Hs. destruct Hs; try (by apply (same_shape_inv rt); [done|split; naive_solver]); eauto with actor.
Qed.

Lemma rt_reachable_inv rt : reachable rt_init rt_step rt → rt_inv rt.
Proof. apply reachable_invariant; [by intros ? ->; apply rt_inv_new|apply rt_step_inv]. Qed.
End runtime_inv.

(** ** A small run

    Two actors are spawned and linked, the first is supervised and ends. *)
Module Demo.
Definition start : Runtime unit SlabAllocator := runtime_new.

Definition spawned (k : ActorKind) (rt : Runtime unit SlabAllocator) : Runtime unit SlabAllocator :=
  match spawn k rt with Some (rt', _) => rt' | None => rt end.

Definition a : Pid := 4294967296.

Definition b : Pid := 4294967297.

Definition one : Runtime unit SlabAllocator := spawned Raw start.

Definition two : Runtime unit SlabAllocator := spawned Raw one.

Definition joined : Runtime unit SlabAllocator := rt_link a b two.

Definition supervised : Runtime unit SlabAllocator := supervise a (UserFactory tt) RestartOne joined.

Definition ended : Runtime unit SlabAllocator := actor_done a (JoinErr true "boom") supervised.

(** The clean-up of [a] after its first [n] turns. *)
Definition cleaning (n : nat) : Runtime unit SlabAllocator := Nat.iter n (exits_turn 0) ended.
End Demo.

Lemma demo_spawned k rt : (∃ p, spawn k rt = Some (Demo.spawned k rt, p)) → pa_room (slab rt) →
  reachable rt_init rt_step rt → reachable rt_init rt_step (Demo.spawned k rt).
Proof. intros [p Hp] Hr H. eapply reach_step; [exact H|]. by apply (st_spawn k _ _ p). Qed.

Lemma demo_joined_reachable : reachable rt_init rt_step Demo.joined.
Proof.
  apply (reach_step _ _ Demo.two); [|apply st_sup; constructor].
  apply demo_spawned; [by eexists|done|]. apply demo_spawned; [by eexists|done|].
  by apply reach_init.
Qed.

Lemma demo_ended_reachable : reachable rt_init rt_step Demo.ended.
Proof.
  apply (reach_step _ _ Demo.supervised); [|by apply st_raw_done].
  apply (reach_step _ _ Demo.joined); [apply demo_joined_reachable|apply st_sup; constructor].
Qed.

Lemma demo_cleaning_reachable n : reachable rt_init rt_step (Demo.cleaning n).
Proof.
  induction n as [|n IH]; [apply demo_ended_reachable|].
  apply (reach_step _ _ (Demo.cleaning n)); [done|apply st_exit].
Qed.
