(* ===== verification/Lifecycle.v ===== *)
(** * Life cycle of an actor ([src/src/lib.rs])

    What [Runtime] promises about an actor from its spawn to the end of its
    clean-up, on top of the invariant of [RuntimeInv]: which PIDs are alive,
    what a send does, what the clean-up achieves when nothing comes between its
    operations, and what other operations can do to it when something does. *)
From S2P Require Import Prelude Pid Mailbox Registry Supervisor Runtime RuntimeInv.

Section lifecycle.
Context {F S : Type} `{PA : PidAllocator S}.
Implicit Types (rt : Runtime F S) (p q : Pid) (e : ExitTask).

(** ** Links stay symmetric *)
Definition links_inv rt : Prop := ∀ id, links_symmetric (links (sup_of id rt)).

Lemma sup_of_on_sup id f rt j :
  sup_of j (on_sup id f rt) = if decide (j = id) then f (sup_of id rt) else sup_of j rt.
Proof.
  unfold sup_of, on_sup. simpl. destruct (decide (j = id)) as [->|Hne].
  - by rewrite lookup_insert_eq.
  - by rewrite lookup_insert_ne.
Qed.

Lemma sup_of_heap_insert id s h rt j : sup_heap rt = <[id := s]> h →
  sup_of j rt = if decide (j = id) then s else default supervisor_new (h !! j).
Proof.
  unfold sup_of. intros ->. destruct (decide (j = id)) as [->|Hne].
  - by rewrite lookup_insert_eq.
  - by rewrite lookup_insert_ne.
Qed.

Lemma sup_call_links (f : Supervisor F → Supervisor F) s : sup_call f → links_symmetric (links s) → links_symmetric (links (f s)).
Proof.
  intros Hf Hl. destruct Hf as [| | | |a b|a b|pid]; simpl; try done.
  - by apply symmetric_purge.
  - by apply symmetric_link.
  - by apply symmetric_unlink.
  - rewrite linked_pids_eq. simpl. by apply symmetric_purge.
Qed.

Lemma notify_exit_links p (s : Supervisor F) : links (fst (notify_exit p s)) = links s.
Proof.
  unfold notify_exit. case_bool_decide; [done|]. cbn [children set_restarting].
  destruct (children s !! p) as [sp|]; [|done]. by destruct (strategy sp).
Qed.

Lemma links_inv_heap rt rt' :
  (∀ id, sup_of id rt' = sup_of id rt) → links_inv rt → links_inv rt'.
Proof. intros H Hl id. rewrite H. apply Hl. Qed.

Lemma rt_notify_links id j p rt : links (sup_of j (rt_notify id p rt)) = links (sup_of j rt).
Proof.
  unfold rt_notify. assert (H := notify_exit_links p (sup_of id rt)).
  destruct (notify_exit p (sup_of id rt)) as [s' new]. simpl in H.
  rewrite (sup_of_heap_insert id s' (sup_heap rt)) by done.
  destruct (decide (j = id)) as [->|]; [done|by unfold sup_of].
Qed.
Lemma restart_attempt_links t r (s : Supervisor F) :
  links_symmetric (links s) → links_symmetric (links (fst (restart_attempt t r s))).
Proof.
  intros Hl. unfold restart_attempt. destruct r as [n|err]; [by apply symmetric_purge|].
  destruct (max_attempts <=? attempts t + 1); [by apply symmetric_purge|done].
Qed.

Lemma restart_turn_links i r rt : links_inv rt → links_inv (restart_turn i r rt).
Proof.
  intros Hl. unfold restart_turn. destruct (restarts rt !! i) as [[id t]|]; [|done].
  assert (H := restart_attempt_links t r _ (Hl id)).
  destruct (restart_attempt t r (sup_of id rt)) as [s' next]. simpl in H. intros j.
  rewrite (sup_of_heap_insert id s' (sup_heap rt)) by by destruct next.
  destruct (decide (j = id)) as [->|]; [done|apply Hl].
Qed.

Lemma exits_turn_links i rt : links_inv rt → links_inv (exits_turn i rt).
Proof.
  intros Hl. destruct (exits rt !! i) as [e|] eqn:He; [|unfold exits_turn; by rewrite He].
  rewrite (exits_turn_stage i e rt He). apply (links_inv_heap (fst (exit_turn e rt))); [done|].
  unfold exit_turn. destruct (ex_stage e) as [| |[|id rest]| | |[|lp rest]|]; simpl; try done.
  - apply (links_inv_heap rt); [|done]. unfold stop. by case_decide.
  - intros j. rewrite rt_notify_links. apply Hl.
  - split_match; [intros j; rewrite rt_notify_links; apply Hl|done].
  - rewrite linked_pids_eq. simpl. intros j. rewrite (sup_of_heap_insert 0 _ (sup_heap rt)) by done.
    destruct (decide (j = 0%nat)); [apply symmetric_purge; apply Hl|apply Hl].
  - apply (links_inv_heap rt); [|done]. unfold rt_send. repeat split_match; done.
Qed.

Lemma create_path_links path rt : links_inv rt → links_inv (create_path_supervisor path rt).
Proof.
  intros Hl. unfold create_path_supervisor, path_entry.
  destruct (path_supervisors rt !! path); [done|]. intros j. simpl.
  rewrite (sup_of_heap_insert (sup_next rt) supervisor_new (sup_heap rt)) by done.
  destruct (decide _); [apply symmetric_empty|apply Hl].
Qed.

Lemma actor_done_sup p res rt j : sup_of j (actor_done p res rt) = sup_of j rt.
Proof. done. Qed.

Lemma actor_recv_sup p rt j : sup_of j (fst (actor_recv p rt)) = sup_of j rt.
Proof. unfold actor_recv. destruct (boxes rt !! p) as [m|]; [|done]. by destruct (recv m). Qed.

Lemma rt_step_links rt rt' : links_inv rt → rt_step rt rt' → links_inv rt'.
Proof.
  intros Hl Hs. destruct Hs as [k rt rt' p _ Hs|p msg rt| |p rt| | |id f rt Hf|id p rt|path rt| |p f rt| |p rt|p pn rt
    | | | |]; try done.
  - apply (links_inv_heap rt); [|done]. unfold spawn in Hs. destruct (pa_alloc _) as [[]|]; [|done].
    injection Hs as <- <-. by destruct k.
  - apply (links_inv_heap rt); [|done]. unfold rt_send. by repeat split_match.
  - apply (links_inv_heap rt); [|done]. unfold hot_swap. by repeat split_match.
  - apply (links_inv_heap rt); [|done]. unfold stop. by case_decide.
  - intros j. rewrite sup_of_on_sup. destruct (decide (j = id)) as [->|]; [|apply Hl].
    apply sup_call_links; [done|apply Hl].
  - intros j. rewrite rt_notify_links. apply Hl.
  - by apply create_path_links.
  - apply (links_inv_heap rt); [|done]. unfold take_observed_message_matching. by repeat split_match.
  - apply (links_inv_heap rt); [|done]. intros j. rewrite <-(actor_recv_sup p rt j). unfold observed_turn.
    by destruct (actor_recv p rt) as [rt' [[msg|]|]].
  - apply (links_inv_heap rt); [|done]. intros j. unfold handler_turn.
    destruct (actors rt !! p) as [[]|]; try done. rewrite <-(actor_recv_sup p rt j).
    by destruct (actor_recv p rt) as [rt' [[msg|]|]]; [destruct pn| |].
  - by apply exits_turn_links.
  - by apply restart_turn_links.
Qed.

Lemma rt_reachable_links rt : reachable rt_init rt_step rt → links_inv rt.
Proof.
  apply reachable_invariant; [|apply rt_step_links].
  intros ? -> id. unfold sup_of. simpl. destruct (decide (id = 0%nat)) as [->|Hne].
  - rewrite lookup_singleton_eq. apply symmetric_empty.
  - rewrite lookup_singleton_ne by done. apply symmetric_empty.
Qed.
(** ** Sending *)
Lemma rt_send_box p msg rt q :
  q ≠ p → boxes (fst (rt_send p msg rt)) !! q = boxes rt !! q.
Proof.
  intros Hne. unfold rt_send. case_decide; [|done]. destruct (boxes rt !! p) as [m|]; [|done].
  destruct (send msg m) as [m' r]. simpl. by rewrite lookup_insert_ne.
Qed.

Lemma rt_send_frame p msg rt :
  fst (rt_send p msg rt) = set_boxes (boxes (fst (rt_send p msg rt))) rt.
Proof.
  unfold rt_send. case_decide; [|by destruct rt]. destruct (boxes rt !! p) as [m|]; [|by destruct rt].
  by destruct (send msg m).
Qed.

Lemma rt_send_live p msg rt m :
  p ∈ mailboxes rt → boxes rt !! p = Some m → receiver_alive m = true →
  snd (rt_send p msg rt) = Ok tt ∧ boxes (fst (rt_send p msg rt)) !! p = Some (fst (send msg m)).
Proof.
  intros Hp Hm Hr. unfold rt_send. rewrite decide_True, Hm by done.
  destruct (send_open msg m Hr) as (_ & _ & _ & Hok). destruct (send msg m) as [m' r].
  simpl in *. by rewrite lookup_insert_eq.
Qed.

Lemma send_dead msg m : receiver_alive m = false →
  snd (send msg m) = Err msg ∧ abs (fst (send msg m)) = abs m.
Proof. intros Hr. unfold send, tx_user_send, tx_sys_send. destruct msg; simpl; by rewrite Hr. Qed.

(** What a send does in a state that satisfies the invariant. *)
Lemma rt_send_spec rt p msg :
  rt_inv rt →
  let (rt', r) := rt_send p msg rt in
  rt' = set_boxes (boxes rt') rt ∧ (∀ q, q ≠ p → boxes rt' !! q = boxes rt !! q) ∧
  if decide (p ∈ mailboxes rt ∧ is_Some (actors rt !! p)) then
    r = Ok tt ∧ ∃ m m', boxes rt !! p = Some m ∧ boxes rt' !! p = Some m' ∧
      abs m' = mkAbs (a_sys (abs m) ++ sys_of [msg]) (a_user (abs m) ++ user_of [msg])
  else r = Err msg ∧ (abs <$> (boxes rt' !! p)) = (abs <$> (boxes rt !! p)).
Proof.
  intros Hi.
  assert (Hf := rt_send_frame p msg rt). assert (Hb := λ q, rt_send_box p msg rt q).
  assert (Hlive : ∀ m, p ∈ mailboxes rt → boxes rt !! p = Some m → receiver_alive m = true →
    snd (rt_send p msg rt) = Ok tt ∧ boxes (fst (rt_send p msg rt)) !! p = Some (fst (send msg m)))
    by (intros m; apply rt_send_live).
  destruct (rt_send p msg rt) as [rt' r] eqn:E. cbn [fst snd] in *. split_and!; try done.
  case_decide as Hd; [destruct Hd as [Hp Ha]|].
  - destruct (inv_box _ Hi p Hp) as (m & Hm & _ & Hr).
    destruct (Hlive m) as [-> Hb']; [done|done|by apply Hr|]. split; [done|].
    exists m, (fst (send msg m)). split_and!; [done|done|]. by apply send_open, Hr.
  - clear Hlive Hf Hb. unfold rt_send in E. case_decide as Hp; [|by injection E as <- <-].
    destruct (inv_box _ Hi p Hp) as (m & Hm & _ & Hr). rewrite Hm in *.
    assert (Hdead : receiver_alive m = false) by (apply not_true_is_false; rewrite Hr; tauto).
    destruct (send_dead msg m Hdead) as [H1 H2]. destruct (send msg m) as [m' r']. injection E as <- <-.
    simpl in *. rewrite lookup_insert_eq. simpl. split; [done|by rewrite H2].
Qed.

(** ** The clean-up, run on its own *)
Lemma exit_turn_exits e rt : exits (fst (exit_turn e rt)) = exits rt.
Proof.
  unfold exit_turn. destruct (ex_stage e) as [| |[|id rest]| | |[|lp rest]|]; simpl; try done.
  - apply stop_exits.
  - unfold rt_notify. by destruct (notify_exit _ _).
  - unfold rt_notify. split_match; [by destruct (notify_exit _ _)|done].
  - by destruct (linked_pids _ _).
  - rewrite rt_send_frame. done.
Qed.

Lemma exits_turn_at i e rt : exits rt !! i = Some e →
  exits (exits_turn i rt) !! i = Some (snd (exit_turn e rt)).
Proof.
  intros He. rewrite (exits_turn_stage i e rt He), exit_turn_exits. simpl.
  apply list_lookup_insert_eq. by eapply lookup_lt_Some.
Qed.

(** What notifying supervisors leaves alone. *)
Record notify_frame rt rt' : Prop := {
  nf_slab : slab rt' = slab rt;
  nf_mail : mailboxes rt' = mailboxes rt;
  nf_boxes : boxes rt' = boxes rt;
  nf_actors : actors rt' = actors rt;
  nf_links : ∀ id, links (sup_of id rt') = links (sup_of id rt)
}.

Lemma notify_frame_trans rt1 rt2 rt3 :
  notify_frame rt1 rt2 → notify_frame rt2 rt3 → notify_frame rt1 rt3.
Proof. intros [] []. split; try congruence. Qed.

Lemma rt_notify_frame id p rt : notify_frame rt (rt_notify id p rt).
Proof. split; try (intros j; apply rt_notify_links); unfold rt_notify; by destruct (notify_exit _ _). Qed.

Lemma notify_turn i e rt : exits rt !! i = Some e →
  ex_stage e = ExNotify ∨ (∃ ids, ex_stage e = ExNotifyPaths ids) →
  notify_frame rt (exits_turn i rt).
Proof.
  intros He Hst. rewrite (exits_turn_stage i e rt He).
  apply (notify_frame_trans _ (fst (exit_turn e rt))); [|by split]. unfold exit_turn.
  destruct Hst as [Hst|[[|id ids] Hst]]; rewrite Hst; simpl; [apply rt_notify_frame|by split|].
  split_match; [apply rt_notify_frame|by split].
Qed.

Lemma notify_paths_run i p res ids rt : exits rt !! i = Some (mkExit p res (ExNotifyPaths ids)) →
  let rt' := Nat.iter (length ids + 1) (exits_turn i) rt in
  exits rt' !! i = Some (mkExit p res ExDeallocate) ∧ notify_frame rt rt'.
Proof.
  revert rt. induction ids as [|id ids IH]; intros rt He.
  - cbn [length Nat.add Nat.iter nat_rect].
    split; [by rewrite (exits_turn_at i _ rt He)|]. apply (notify_turn i _ rt He). right. by eexists.
  - cbn [length Nat.add]. rewrite Nat.iter_succ_r.
    destruct (IH (exits_turn i rt)) as [H1 H2]; [by rewrite (exits_turn_at i _ rt He)|].
    split; [done|]. eapply notify_frame_trans; [|exact H2].
    apply (notify_turn i _ rt He). right. by eexists.
Qed.

(** How often [q] occurs in [l]. *)
Definition occurrences q (l : list Pid) : nat := length (filter (λ x, x = q) l).

Lemma send_run i p res peers rt s : exits rt !! i = Some (mkExit p res (ExSend peers)) →
  exit_message (mkExit p res ExDone) = System s →
  let rt' := Nat.iter (length peers + 1) (exits_turn i) rt in
  exits rt' !! i = Some (mkExit p res ExDone) ∧
  slab rt' = slab rt ∧ mailboxes rt' = mailboxes rt ∧ sup_heap rt' = sup_heap rt ∧
  (peers = [] → boxes rt' = boxes rt) ∧
  ∀ q m, q ∈ mailboxes rt → boxes rt !! q = Some m → receiver_alive m = true →
    ∃ m', boxes rt' !! q = Some m' ∧
      abs m' = mkAbs (a_sys (abs m) ++ replicate (occurrences q peers) s) (a_user (abs m)).
Proof.
  intros He Hx. revert rt He. induction peers as [|lp peers IH]; intros rt He.
  - cbn [length Nat.add Nat.iter nat_rect].
    split; [by rewrite (exits_turn_at i _ rt He)|]. rewrite (exits_turn_stage i _ rt He). simpl.
    split_and!; [done..|]. intros q m Hq Hm Hr. exists m. split; [done|].
    rewrite app_nil_r. done.
  - cbn [length Nat.add]. rewrite Nat.iter_succ_r.
    assert (Hturn := exits_turn_stage i _ rt He). unfold exit_turn in Hturn. simpl in Hturn.
    replace (exit_message _) with (System s) in Hturn.
    destruct (IH (exits_turn i rt)) as (H1 & H2 & H3 & H4 & _ & H5); [by rewrite (exits_turn_at i _ rt He)|].
    assert (Hf : slab (exits_turn i rt) = slab rt ∧ mailboxes (exits_turn i rt) = mailboxes rt ∧
      sup_heap (exits_turn i rt) = sup_heap rt ∧
      boxes (exits_turn i rt) = boxes (fst (rt_send lp (System s) rt))).
    { rewrite Hturn. simpl. rewrite (rt_send_frame lp (System s) rt). done. }
    destruct Hf as (F1 & F2 & F3 & F4). rewrite H2, H3, H4. rewrite F2, F4 in H5. split_and!; try done.
    intros q m Hq Hm Hr. unfold occurrences in *. rewrite filter_cons. destruct (decide (lp = q)) as [->|Hne].
    + destruct (rt_send_live q (System s) rt m Hq Hm Hr) as [_ Hb].
      destruct (send_open (System s) m Hr) as (Habs & _ & Hr' & _).
      destruct (H5 q (fst (send (System s) m))) as (m' & Hm' & Hab); [done..|].
      exists m'. split; [done|]. rewrite Hab, Habs. simpl. by rewrite app_nil_r, <-(assoc_L (++)).
    + apply H5; [done|by rewrite rt_send_box|done].
Qed.
Lemma cleanup_prefix i p res rt : exits rt !! i = Some (mkExit p res ExRemoveMailbox) →
  let n := size (path_supervisors rt) in
  let rt' := Nat.iter (n + 3) (exits_turn i) rt in
  exits rt' !! i = Some (mkExit p res ExDeallocate) ∧ notify_frame (stop p rt) rt'.
Proof.
  intros He. cbn zeta.
  set (rt1 := exits_turn i rt). assert (H1 := exits_turn_at i _ rt He). fold rt1 in H1.
  set (rt2 := exits_turn i rt1). assert (H2 := exits_turn_at i _ rt1 H1). fold rt2 in H2.
  assert (Hps : path_supervisors rt1 = path_supervisors rt).
  { unfold rt1. rewrite (exits_turn_stage i _ rt He). simpl. unfold stop. by case_decide. }
  assert (F1 : notify_frame (stop p rt) rt1).
  { unfold rt1. rewrite (exits_turn_stage i _ rt He). by split. }
  assert (F2 : notify_frame rt1 rt2) by (apply (notify_turn i _ rt1 H1); by left).
  replace (size (path_supervisors rt) + 3)%nat
    with (2 + (length (snd <$> map_to_list (path_supervisors rt1)) + 1))%nat
    by (rewrite Hps, length_fmap, length_map_to_list; lia).
  cbn [Nat.add]. rewrite !Nat.iter_succ_r. fold rt1. fold rt2.
  destruct (notify_paths_run i p res _ rt2 H2) as [H3 F3]. split; [done|].
  eapply notify_frame_trans; [exact F1|]. by eapply notify_frame_trans.
Qed.

Lemma cleanup_suffix i p res rt s :
  exits rt !! i = Some (mkExit p res ExDeallocate) →
  exit_message (mkExit p res ExDone) = System s →
  let peers := linked (links (supervisor rt)) p in
  let rt' := Nat.iter (3 + length peers) (exits_turn i) rt in
  exits rt' !! i = Some (mkExit p res ExDone) ∧
  slab rt' = fst (pa_free (slab rt) p) ∧ mailboxes rt' = mailboxes rt ∧
  links (supervisor rt') = purge_links p (links (supervisor rt)) ∧
  (peers = [] → boxes rt' = boxes rt) ∧
  ∀ q m, q ∈ mailboxes rt → boxes rt !! q = Some m → receiver_alive m = true →
    ∃ m', boxes rt' !! q = Some m' ∧
      abs m' = mkAbs (a_sys (abs m) ++ replicate (occurrences q peers) s) (a_user (abs m)).
Proof.
  intros H1 Hx peers. cbn zeta.
  replace (3 + length peers)%nat with ((length peers + 1) + 2)%nat by lia.
  rewrite (Nat.iter_add (length peers + 1)).
  change (Nat.iter 2 (exits_turn i) rt) with (exits_turn i (exits_turn i rt)).
  set (rt2 := exits_turn i rt). assert (H2 := exits_turn_at i _ rt H1). fold rt2 in H2.
  assert (E2 := exits_turn_stage i _ rt H1). unfold exit_turn in E2. simpl in E2. fold rt2 in E2.
  set (rt3 := exits_turn i rt2). assert (H3 := exits_turn_at i _ rt2 H2). fold rt3 in H3.
  assert (E3 := exits_turn_stage i _ rt2 H2). unfold exit_turn in E3, H3. simpl in E3, H3. fold rt3 in E3.
  rewrite linked_pids_eq in E3, H3. simpl in E3, H3.
  assert (Hs2 : sup_of 0 rt2 = sup_of 0 rt) by (by rewrite E2). rewrite Hs2 in H3. fold (supervisor rt) in H3.
  destruct (send_run i p res peers rt3 s H3 Hx) as (H4 & R1 & R2 & R3 & R4 & R5).
  assert (Eb : slab rt3 = fst (pa_free (slab rt) p) ∧ mailboxes rt3 = mailboxes rt ∧
    boxes rt3 = boxes rt ∧ sup_of 0 rt3 = set_links (purge_links p (links (sup_of 0 rt))) (sup_of 0 rt)).
  { rewrite E3. simpl. rewrite E2. simpl. split_and!; try done.
    unfold sup_of. simpl. by rewrite lookup_insert_eq. }
  destruct Eb as (B1 & B2 & B3 & B4). rewrite R1, R2, B1, B2. split_and!; try done.
  - unfold supervisor, sup_of at 1. rewrite R3. fold (sup_of 0 rt3). by rewrite B4.
  - intros Hp. by rewrite R4.
  - intros q m Hq Hm Hr. apply R5; [by rewrite B2|by rewrite B3|done].
Qed.

Lemma stop_frame p rt :
  slab (stop p rt) = slab rt ∧ mailboxes (stop p rt) = mailboxes rt ∖ {[p]} ∧
  (∀ id, sup_of id (stop p rt) = sup_of id rt) ∧ ∀ q, q ≠ p → boxes (stop p rt) !! q = boxes rt !! q.
Proof.
  unfold stop. case_decide; simpl; split_and!; try done; [|set_solver].
  intros q Hq. by rewrite lookup_alter_ne.
Qed.

Lemma cleanup_run i p res rt s :
  exits rt !! i = Some (mkExit p res ExRemoveMailbox) →
  exit_message (mkExit p res ExDone) = System s →
  let peers := linked (links (supervisor rt)) p in
  let rt' := Nat.iter (6 + size (path_supervisors rt) + length peers) (exits_turn i) rt in
  exits rt' !! i = Some (mkExit p res ExDone) ∧
  slab rt' = fst (pa_free (slab rt) p) ∧ mailboxes rt' = mailboxes rt ∖ {[p]} ∧
  links (supervisor rt') = purge_links p (links (supervisor rt)) ∧
  ∀ q m, q ∈ mailboxes rt → q ≠ p → boxes rt !! q = Some m → receiver_alive m = true →
    ∃ m', boxes rt' !! q = Some m' ∧
      abs m' = mkAbs (a_sys (abs m) ++ replicate (occurrences q peers) s) (a_user (abs m)).
Proof.
  intros He Hx peers. cbn zeta.
  replace (6 + size (path_supervisors rt) + length peers)%nat
    with ((3 + length peers) + (size (path_supervisors rt) + 3))%nat by lia.
  rewrite (Nat.iter_add (3 + length peers)).
  destruct (cleanup_prefix i p res rt He) as [H1 [N1 N2 N3 _ N5]].
  set (rt1 := Nat.iter (size (path_supervisors rt) + 3) (exits_turn i) rt) in *.
  destruct (stop_frame p rt) as (S1 & S2 & S3 & S4).
  assert (Hl1 : links (supervisor rt1) = links (supervisor rt)) by (unfold supervisor; by rewrite N5, S3).
  destruct (cleanup_suffix i p res rt1 s H1 Hx) as (R1 & R2 & R3 & R4 & _ & R5).
  rewrite Hl1 in R1, R2, R3, R4, R5. fold peers in R1, R2, R3, R4, R5. rewrite R2, R3, R4, N1, N2, S1, S2. split_and!; try done.
  intros q m Hq Hne Hm Hr. apply R5; [|by rewrite N3, S4|done].
  rewrite N2, S2. apply elem_of_difference. split; [done|]. by rewrite elem_of_singleton.
Qed.

(** What takes the links of [p] away: a restart of [p] that succeeds or fails
    for the third time, and [remove_child]. *)
Inductive takes_links (p : Pid) (j : nat) rt : Runtime F S → Prop :=
| takes_success t n : restarts rt !! j = Some (0%nat, t) → orig_pid t = p → takes_links p j rt (restart_turn j (Ok n) rt)
| takes_failure t err : restarts rt !! j = Some (0%nat, t) → orig_pid t = p → attempts t = 2 →
    takes_links p j rt (restart_turn j (Err err) rt)
| takes_remove : takes_links p j rt (on_sup 0 (remove_child p) rt).

Lemma takes_links_frame p j rt rt1 : takes_links p j rt rt1 →
  exits rt1 = exits rt ∧ boxes rt1 = boxes rt ∧ links (supervisor rt1) = purge_links p (links (supervisor rt)).
Proof.
  intros [t n Hj <-|t err Hj <- Ha|]; unfold restart_turn, supervisor; try rewrite Hj; simpl.
  - split_and!; [done..|]. unfold sup_of at 1. simpl. by rewrite lookup_insert_eq.
  - rewrite Ha. simpl. split_and!; [done..|]. unfold sup_of at 1. simpl. by rewrite lookup_insert_eq.
  - split_and!; [done..|]. by rewrite sup_of_on_sup, decide_True.
Qed.

(** ** Properties *)

(** C12: In every reachable state the PIDs the slab holds valid are exactly
    those whose actor runs or whose clean-up has not yet given the slot back,
    never both; every PID in the mailbox map is alive; and a running actor's
    mailbox has a live receiver, with the map's sender as its only one until it
    is stopped. *)
Theorem liveness_invariant rt :
  reachable rt_init rt_step rt →
  (∀ p, fits 64 p → is_alive p rt = true ↔ in_use rt p) ∧
  (∀ i e, exits rt !! i = Some e → holds_slot (ex_stage e) = true → actors rt !! ex_pid e = None) ∧
  (∀ p, p ∈ mailboxes rt → is_alive p rt = true) ∧
  (∀ p, is_Some (actors rt !! p) → ∃ m, boxes rt !! p = Some m ∧ receiver_alive m = true ∧
     senders m = if decide (p ∈ mailboxes rt) then 1%nat else 0%nat).
Proof.
  intros Hi%rt_reachable_inv. split_and!.
  - apply (inv_live _ Hi).
  - apply (inv_disjoint _ Hi).
  - intros p Hp. assert (Hu : in_use rt p).
    { destruct (inv_mail _ Hi p Hp) as [?|(i & e & He & Hs & <-)]; [by left|right].
      exists i, e. by rewrite Hs. }
    apply (inv_live _ Hi); [by apply (inv_fits _ Hi)|done].
  - intros p Hp. destruct (inv_actor _ Hi p Hp) as (m & Hm & Hr & Hn). exists m. split_and!; try done.
    case_decide as Hd; [|by apply Hn]. destruct (inv_box _ Hi p Hd) as (m' & Hm' & Hs & _). congruence.
Qed.

(** [send] to a running, unstopped actor answers Ok and appends the message
    behind those of its class; to any other PID it gives the message back and
    queues nothing.  No other mailbox and no other part of the state changes. *)
Theorem rt_send_correct rt p msg :
  reachable rt_init rt_step rt →
  let (rt', r) := rt_send p msg rt in
  rt' = set_boxes (boxes rt') rt ∧ (∀ q, q ≠ p → boxes rt' !! q = boxes rt !! q) ∧
  if decide (p ∈ mailboxes rt ∧ is_Some (actors rt !! p)) then
    r = Ok tt ∧ ∃ m m', boxes rt !! p = Some m ∧ boxes rt' !! p = Some m' ∧
      abs m' = mkAbs (a_sys (abs m) ++ sys_of [msg]) (a_user (abs m) ++ user_of [msg])
  else r = Err msg ∧ (abs <$> (boxes rt' !! p)) = (abs <$> (boxes rt !! p)).
Proof. intros Hi. by apply rt_send_spec, rt_reachable_inv. Qed.

(** The clean-up of an ended actor, run with nothing in between, completes
    within six turns plus one per path supervisor and one per linked peer.  When
    it has, the PID is not alive and has no mailbox, nobody is linked to it, and
    every running peer has received its EXIT message with the reason of the end,
    once per link.  [CleanUp] has the clean-up among everything else. *)
Theorem exit_cleanup_completes i p res rt :
  reachable rt_init rt_step rt → exits rt !! i = Some (mkExit p res ExRemoveMailbox) →
  let peers := linked (links (supervisor rt)) p in
  let rt' := Nat.iter (6 + size (path_supervisors rt) + length peers) (exits_turn i) rt in
  let (reason, metadata) := exit_reason res in
  exits rt' !! i = Some (mkExit p res ExDone) ∧
  is_alive p rt' = false ∧ (p ∉ mailboxes rt') ∧
  linked (links (supervisor rt')) p = [] ∧ (∀ q, p ∉ linked (links (supervisor rt')) q) ∧
  ∀ q m, q ∈ mailboxes rt → boxes rt !! q = Some m → is_Some (actors rt !! q) →
    ∃ m', boxes rt' !! q = Some m' ∧
      abs m' = mkAbs (a_sys (abs m) ++
                 replicate (occurrences q peers) (Exit (mkExitInfo p reason metadata)))
               (a_user (abs m)).
Proof.
  intros Hreach He. assert (Hi := rt_reachable_inv rt Hreach). assert (Hl := rt_reachable_links rt Hreach).
  cbn zeta. destruct (exit_reason res) as [reason metadata] eqn:Er.
  destruct (cleanup_run i p res rt (Exit (mkExitInfo p reason metadata)) He) as (H1 & H2 & H3 & H4 & H5).
  { unfold exit_message. simpl. by rewrite Er. }
  assert (Hlk : ∀ q, p ∉ linked (purge_links p (links (supervisor rt))) q).
  { intros q Hq. apply elem_of_linked_purge in Hq; [tauto|apply Hl]. }
  assert (Hfit : fits 64 p) by (apply (inv_fits _ Hi); right; by exists i, (mkExit p res ExRemoveMailbox)).
  split_and!; [done| |rewrite H3, elem_of_difference, elem_of_singleton; tauto| |by rewrite H4|].
  - unfold is_alive. rewrite H2, pa_free_live by (done || apply Hi). by rewrite bool_decide_true.
  - apply elem_of_nil_inv. rewrite H4. intros x Hx.
    apply elem_of_linked_purge in Hx; [tauto|apply Hl].
  - intros q m Hq Hm Ha. apply H5; [done| |done|].
    + intros ->. assert (Hn := inv_disjoint _ Hi i _ He eq_refl). simpl in Hn. rewrite Hn in Ha. by destruct Ha.
    + destruct (inv_box _ Hi q Hq) as (m' & Hm' & _ & Hr). replace m' with m in * by congruence. by apply Hr.
Qed.
(** Spawning gives a PID that was not alive, makes exactly that PID alive
    besides those that were, starts its actor with an empty mailbox open to
    sends (and an empty observation log for an observed actor) and leaves every
    other actor and mailbox as it was. *)
Theorem spawn_correct k rt :
  reachable rt_init rt_step rt → pa_room (slab rt) →
  ∃ rt' p, spawn k rt = Some (rt', p) ∧ fits 64 p ∧ is_alive p rt = false ∧
    (∀ q, fits 64 q → is_alive q rt' = bool_decide (q = p) || is_alive q rt) ∧
    actors rt' = <[p := k]> (actors rt) ∧ mailboxes rt' = {[p]} ∪ mailboxes rt ∧
    (∃ m, boxes rt' !! p = Some m ∧ abs m = mkAbs [] [] ∧ len m = 0 ∧
       ∀ msg, snd (rt_send p msg rt') = Ok tt) ∧
    (∀ q, q ≠ p → boxes rt' !! q = boxes rt !! q ∧ observers rt' !! q = observers rt !! q) ∧
    (k = Observed → observers rt' !! p = Some []).
Proof.
  intros Hi%rt_reachable_inv Hroom. assert (Hok := inv_slab _ Hi).
  destruct (pa_alloc_total (slab rt) Hok) as (sl & p & Ha).
  unfold spawn. rewrite Ha. eexists _, p. split; [reflexivity|].
  set (m := drop_sender (clone_sender channel)). set (rt' := set_actors _ _).
  assert (Hsh : slab rt' = sl ∧ mailboxes rt' = {[p]} ∪ mailboxes rt ∧
    actors rt' = <[p := k]> (actors rt) ∧ boxes rt' = <[p := m]> (boxes rt) ∧
    observers rt' = match k with Observed => <[p := []]> (observers rt) | _ => observers rt end)
    by (by destruct k).
  clearbody rt'. destruct Hsh as (Es & Em & Eact & Eb & Eo). split_and!.
  - by eapply pa_alloc_fits.
  - by eapply pa_alloc_fresh.
  - intros q Hq. unfold is_alive. rewrite Es. by eapply pa_alloc_live.
  - done.
  - done.
  - exists m. rewrite Eb, lookup_insert_eq. split_and!; [done..|]. intros msg.
    apply (rt_send_live p msg rt' m); [rewrite Em; set_solver|by rewrite Eb, lookup_insert_eq|done].
  - intros q Hne. rewrite Eb, Eo. destruct k; by rewrite !lookup_insert_ne.
  - intros ->. by rewrite Eo, lookup_insert_eq.
Qed.

(** A restart, of one child or of a group, never ends an actor: when the
    factory of a child that still runs answers a new PID, the old actor goes on
    with its mailbox open, but is no longer supervised. *)
Theorem restart_orphans_live_child j id t n rt :
  restarts rt !! j = Some (id, t) → n ≠ orig_pid t →
  let rt' := restart_turn j (Ok n) rt in
  actors rt' = actors rt ∧ mailboxes rt' = mailboxes rt ∧ boxes rt' = boxes rt ∧
  (∀ p, is_alive p rt' = is_alive p rt) ∧
  contains_child (orig_pid t) (sup_of id rt') = false ∧ contains_child n (sup_of id rt') = true.
Proof.
  intros Hj Hn. unfold restart_turn. rewrite Hj. simpl. split_and!; try done;
    unfold sup_of, contains_child; simpl; rewrite lookup_insert_eq; simpl.
  - by rewrite lookup_delete_eq.
  - by rewrite lookup_delete_ne, lookup_insert_eq.
Qed.

(** [watch_path] puts every direct child of the prefix under the node's
    supervisor with the do-nothing factory, keeps the other children and
    changes nothing else. *)
Theorem watch_path_correct prefix rt p :
  let rt' := watch_path prefix rt in
  children (supervisor rt') !! p =
    (if decide (p ∈ (snd <$> list_children_direct prefix rt))
     then Some (mkSpec (ConstPid p) RestartOne) else children (supervisor rt) !! p) ∧
  links (supervisor rt') = links (supervisor rt) ∧
  restarting (supervisor rt') = restarting (supervisor rt) ∧
  rt' = set_sup_heap (sup_heap rt') rt ∧ ∀ id, id ≠ 0%nat → sup_of id rt' = sup_of id rt.
Proof.
  cbn zeta. unfold watch_path. generalize (list_children_direct prefix rt). intros l. revert rt.
  induction l as [|[name q] l IH]; intros rt; cbn [fold_left].
  - split_and!; [by rewrite decide_False by set_solver|done|done|by destruct rt|done].
  - destruct (IH (on_sup 0 (watch q) rt)) as (H1 & H2 & H3 & H4 & H5).
    cbn [snd]. unfold supervisor in H1, H2, H3 |- *.
    assert (Hs : sup_of 0 (on_sup 0 (watch q) rt) = watch q (sup_of 0 rt)) by by rewrite sup_of_on_sup.
    rewrite Hs in H1, H2, H3. rewrite H1, H2, H3.
    split_and!; [|done|done|by etransitivity; [exact H4|]|].
    + cbn [fmap list_fmap snd children watch set_children]. case_decide as Hd.
      * by rewrite decide_True by (by right).
      * destruct (decide (p = q)) as [->|Hne].
        -- rewrite lookup_insert_eq, decide_True by (by left). done.
        -- rewrite lookup_insert_ne, decide_False by (done || set_solver). done.
    + intros id Hid. rewrite H5, sup_of_on_sup by done. by rewrite decide_False.
Qed.
End lifecycle.

(** ** Instances at the small run *)
Lemma liveness_invariant_witness :
  (∀ p, fits 64 p → is_alive p Demo.ended = true ↔ in_use Demo.ended p) ∧
  (∀ i e, exits Demo.ended !! i = Some e → holds_slot (ex_stage e) = true →
     actors Demo.ended !! ex_pid e = None) ∧
  (∀ p, p ∈ mailboxes Demo.ended → is_alive p Demo.ended = true) ∧
  (∀ p, is_Some (actors Demo.ended !! p) → ∃ m, boxes Demo.ended !! p = Some m ∧
     receiver_alive m = true ∧ senders m = if decide (p ∈ mailboxes Demo.ended) then 1%nat else 0%nat).
Proof. apply (liveness_invariant Demo.ended). apply demo_ended_reachable. Defined.

Lemma rt_send_correct_witness :
  let (rt', r) := rt_send Demo.b (User []) Demo.ended in
  rt' = set_boxes (boxes rt') Demo.ended ∧ (∀ q, q ≠ Demo.b → boxes rt' !! q = boxes Demo.ended !! q) ∧
  if decide (Demo.b ∈ mailboxes Demo.ended ∧ is_Some (actors Demo.ended !! Demo.b)) then
    r = Ok tt ∧ ∃ m m', boxes Demo.ended !! Demo.b = Some m ∧ boxes rt' !! Demo.b = Some m' ∧
      abs m' = mkAbs (a_sys (abs m) ++ sys_of [User []]) (a_user (abs m) ++ user_of [User []])
  else r = Err (User []) ∧ (abs <$> (boxes rt' !! Demo.b)) = (abs <$> (boxes Demo.ended !! Demo.b)).
Proof. apply (rt_send_correct Demo.ended Demo.b (User [])). apply demo_ended_reachable. Defined.

Lemma exit_cleanup_completes_witness :
  let rt := Demo.ended in
  let peers := linked (links (supervisor rt)) Demo.a in
  let rt' := Nat.iter (6 + size (path_supervisors rt) + length peers) (exits_turn 0) rt in
  peers = [Demo.b] ∧
  let (reason, metadata) := exit_reason (JoinErr true "boom") in
  exits rt' !! 0%nat = Some (mkExit Demo.a (JoinErr true "boom") ExDone) ∧
  is_alive Demo.a rt' = false ∧ (Demo.a ∉ mailboxes rt') ∧
  linked (links (supervisor rt')) Demo.a = [] ∧ (∀ q, Demo.a ∉ linked (links (supervisor rt')) q) ∧
  ∀ q m, q ∈ mailboxes rt → boxes rt !! q = Some m → is_Some (actors rt !! q) →
    ∃ m', boxes rt' !! q = Some m' ∧
      abs m' = mkAbs (a_sys (abs m) ++
                 replicate (occurrences q peers) (Exit (mkExitInfo Demo.a reason metadata)))
               (a_user (abs m)).
Proof.
  split; [vm_compute; reflexivity|].
  apply (exit_cleanup_completes 0 Demo.a (JoinErr true "boom") Demo.ended);
    [apply demo_ended_reachable|vm_compute; reflexivity].
Defined.


Lemma spawn_correct_witness :
  ∃ rt' p, spawn Observed Demo.ended = Some (rt', p) ∧ fits 64 p ∧ is_alive p Demo.ended = false ∧
    (∀ q, fits 64 q → is_alive q rt' = bool_decide (q = p) || is_alive q Demo.ended) ∧
    actors rt' = <[p := Observed]> (actors Demo.ended) ∧ mailboxes rt' = {[p]} ∪ mailboxes Demo.ended ∧
    (∃ m, boxes rt' !! p = Some m ∧ abs m = mkAbs [] [] ∧ len m = 0 ∧
       ∀ msg, snd (rt_send p msg rt') = Ok tt) ∧
    (∀ q, q ≠ p → boxes rt' !! q = boxes Demo.ended !! q ∧ observers rt' !! q = observers Demo.ended !! q) ∧
    (Observed = Observed → observers rt' !! p = Some []).
Proof. apply (spawn_correct Observed Demo.ended); [apply demo_ended_reachable|done]. Defined.

Lemma restart_orphans_live_child_witness :
  let rt := set_restarts [(0%nat, mkTask Demo.b (mkSpec (UserFactory tt) RestartAll) 0 100)] Demo.two in
  let rt' := restart_turn 0 (Ok 99) rt in
  actors rt' = actors rt ∧ mailboxes rt' = mailboxes rt ∧ boxes rt' = boxes rt ∧
  (∀ p, is_alive p rt' = is_alive p rt) ∧
  contains_child Demo.b (sup_of 0 rt') = false ∧ contains_child 99 (sup_of 0 rt') = true.
Proof.
  apply (restart_orphans_live_child 0 0 (mkTask Demo.b (mkSpec (UserFactory tt) RestartAll) 0 100) 99);
    [reflexivity|discriminate].
Defined.
