(* ===== verification/ActorSpec.v ===== *)
(** * What an actor node promises, and that [Runtime] keeps it ([src/src/lib.rs])

    [Node] is the contract of [impl Runtime] with nothing of its machinery: a
    PID is free, or an actor runs under it with two queues of messages, or its
    clean-up still holds it. [node_step] says what may happen and which event
    an observer sees. The runtime of [Runtime] is run with the same events:
    [rt_labelled] labels every step of [RuntimeInv.rt_step] by what the code
    reports (the result of a send, the message a receive hands out). The
    theorems show that every trace of the runtime is a trace of the node, and
    transfer to the runtime what holds of the node's traces. *)
From S2P Require Import Prelude Pid Mailbox Registry Supervisor Runtime RuntimeInv Lifecycle.

(** ** The abstract node *)

(** A user body that owns its receiver, and the two built-in loops. *)
Inductive BodyKind := UserBody | HandlerLoop | ObserverLoop.

(** [listed] is whether the PID can be sent to. *)
Inductive Phase :=
| Running (k : BodyKind) (listed : bool) (q : AbsMailbox)
| Ending (listed : bool).

Abbreviation Node := (gmap Pid Phase).

Inductive actor_event :=
| Spawned (p : Pid) (k : BodyKind)
| Delivered (p : Pid) (msg : Message)
| Bounced (p : Pid) (msg : Message)
| Received (p : Pid) (msg : Message)
| Selected (p : Pid) (msg : Message)
| Unlisted (p : Pid)
| Ended (p : Pid) (res : JoinResult)
| Freed (p : Pid).

Definition abs_empty : AbsMailbox := mkAbs [] [].

Definition abs_push (msg : Message) (q : AbsMailbox) : AbsMailbox :=
  mkAbs (a_sys q ++ sys_of [msg]) (a_user q ++ user_of [msg]).

Definition accepts (n : Node) (p : Pid) : bool :=
  match n !! p with Some (Running _ true _) => true | _ => false end.

(** When a body may end: a user body at any time; a loop when its mailbox is
    closed and holds no system message, a handler's also by a panic. *)
Definition may_end (k : BodyKind) (listed : bool) (q : AbsMailbox) (res : JoinResult) : Prop :=
  match k with
  | UserBody => True
  | HandlerLoop => (∃ d, res = JoinErr true d) ∨ res = JoinOk ∧ listed = false ∧ a_sys q = []
  | ObserverLoop => res = JoinOk ∧ listed = false ∧ a_sys q = []
  end.

Inductive node_step (n : Node) : actor_event → Node → Prop :=
| ns_spawn p k : n !! p = None →
    node_step n (Spawned p k) (<[p := Running k true abs_empty]> n)
| ns_deliver p msg k q : n !! p = Some (Running k true q) →
    node_step n (Delivered p msg) (<[p := Running k true (abs_push msg q)]> n)
| ns_bounce p msg : accepts n p = false → node_step n (Bounced p msg) n
| ns_receive p msg k l q q' : n !! p = Some (Running k l q) → abs_recv q = Some (msg, q') →
    node_step n (Received p msg) (<[p := Running k l q']> n)
| ns_select p msg f l q q' : n !! p = Some (Running UserBody l q) → abs_select f q msg q' →
    node_step n (Selected p msg) (<[p := Running UserBody l q']> n)
| ns_unlist p k q : n !! p = Some (Running k true q) →
    node_step n (Unlisted p) (<[p := Running k false q]> n)
| ns_unlist_ending p : n !! p = Some (Ending true) →
    node_step n (Unlisted p) (<[p := Ending false]> n)
| ns_end p k l q res : n !! p = Some (Running k l q) → may_end k l q res →
    node_step n (Ended p res) (<[p := Ending l]> n)
| ns_free p : n !! p = Some (Ending false) → node_step n (Freed p) (delete p n).

Inductive node_run : Node → list actor_event → Node → Prop :=
| nr_nil n : node_run n [] n
| nr_snoc n evs n1 ev n2 : node_run n evs n1 → node_step n1 ev n2 → node_run n (evs ++ [ev]) n2.

Lemma node_run_app n evs n1 evs' n2 : node_run n evs n1 → node_run n1 evs' n2 → node_run n (evs ++ evs') n2.
Proof.
  intros H1 H2. induction H2 as [n1|n1 evs' n2 ev n3 _ IH Hs]; [by rewrite app_nil_r|].
  rewrite (assoc_L (++)). econstructor; eauto.
Qed.

Lemma node_run_one n ev n' : node_step n ev n' → node_run n [ev] n'.
Proof. intros H. apply (nr_snoc _ [] n ev n'); [constructor|done]. Qed.

(** ** Traces of one actor *)
Definition is_spawn (p : Pid) (ev : actor_event) : bool :=
  match ev with Spawned q _ => bool_decide (q = p) | _ => false end.

(** The events since [p] was last spawned. *)
Definition life (p : Pid) (evs : list actor_event) : list actor_event :=
  fold_left (λ acc ev, if is_spawn p ev then [] else acc ++ [ev]) evs [].

Definition delivered_to (p : Pid) (evs : list actor_event) : list Message :=
  omap (λ ev, match ev with Delivered q m => if decide (q = p) then Some m else None | _ => None end) evs.

Definition taken_by (p : Pid) (evs : list actor_event) : list Message :=
  omap (λ ev, match ev with
              | Received q m | Selected q m => if decide (q = p) then Some m else None
              | _ => None end) evs.

Definition selects (p : Pid) (evs : list actor_event) : Prop :=
  Exists (λ ev, match ev with Selected q _ => q = p | _ => False end) evs.

(** The process holds [x] then [y]: the order of each class. *)
Definition same_order (l1 l2 : list Message) : Prop :=
  sys_of l1 = sys_of l2 ∧ user_of l1 = user_of l2.

Lemma life_snoc p evs ev :
  life p (evs ++ [ev]) = if is_spawn p ev then [] else life p evs ++ [ev].
Proof. unfold life. by rewrite fold_left_app. Qed.

(** What the trace of [p]'s life says of its phase. *)
Definition history (p : Pid) (h : list actor_event) (ph : option Phase) : Prop :=
  match ph with
  | Some (Running _ _ q) =>
      delivered_to p h ≡ₚ taken_by p h ++ abs_all q ∧
      (¬ selects p h → sys_of (delivered_to p h) = sys_of (taken_by p h) ++ a_sys q ∧
                       user_of (delivered_to p h) = user_of (taken_by p h) ++ a_user q)
  | _ =>
      ∃ q, delivered_to p h ≡ₚ taken_by p h ++ abs_all q ∧
      (¬ selects p h → sys_of (delivered_to p h) = sys_of (taken_by p h) ++ a_sys q ∧
                       user_of (delivered_to p h) = user_of (taken_by p h) ++ a_user q)
  end.

Lemma history_weak p h k l q ph : history p h (Some (Running k l q)) → (∀ k l q, ph ≠ Some (Running k l q)) →
  history p h ph.
Proof. intros H Hn. destruct ph as [[k' l' q'|l']|]; [by destruct (Hn k' l' q')|exists q; exact H..]. Qed.

(** An event that moves no message of [p]. *)
Definition silent (p : Pid) (ev : actor_event) : Prop :=
  delivered_to p [ev] = [] ∧ taken_by p [ev] = [].

Lemma delivered_to_app p l1 l2 : delivered_to p (l1 ++ l2) = delivered_to p l1 ++ delivered_to p l2.
Proof. apply omap_app. Qed.

Lemma taken_by_app p l1 l2 : taken_by p (l1 ++ l2) = taken_by p l1 ++ taken_by p l2.
Proof. apply omap_app. Qed.

Lemma selects_app p l1 l2 : selects p (l1 ++ l2) ↔ selects p l1 ∨ selects p l2.
Proof. apply Exists_app. Qed.

Lemma history_silent p h ev ph : silent p ev → history p h ph → history p (h ++ [ev]) ph.
Proof.
  intros [Hd Ht]. assert (Hs : ¬ selects p (h ++ [ev]) → ¬ selects p h) by (rewrite selects_app; tauto).
  destruct ph as [[k l q|l]|]; simpl; rewrite delivered_to_app, taken_by_app, Hd, Ht, !app_nil_r; naive_solver.
Qed.

Lemma abs_all_push msg q : abs_all (abs_push msg q) ≡ₚ abs_all q ++ [msg].
Proof.
  unfold abs_all, abs_push. destruct msg; simpl; rewrite ?app_nil_r, ?fmap_app; simpl; solve_Permutation.
Qed.

Lemma history_deliver p h msg k q :
  history p h (Some (Running k true q)) →
  history p (h ++ [Delivered p msg]) (Some (Running k true (abs_push msg q))).
Proof.
  intros [Hp Ho]. simpl. rewrite delivered_to_app, taken_by_app. simpl. rewrite decide_True, app_nil_r by done. split.
  - rewrite abs_all_push, Hp. by rewrite (assoc_L (++)).
  - rewrite selects_app. intros Hn. destruct Ho as [Hs Hu]; [tauto|].
    rewrite sys_of_app, user_of_app, Hs, Hu. by rewrite <-!(assoc_L (++)).
Qed.
Lemma history_receive p h msg k l q q' :
  abs_recv q = Some (msg, q') → history p h (Some (Running k l q)) →
  history p (h ++ [Received p msg]) (Some (Running k l q')).
Proof.
  intros Hr [Hp Ho]. simpl. rewrite delivered_to_app, taken_by_app. simpl. rewrite decide_True, app_nil_r by done.
  destruct (abs_recv_order _ _ _ Hr) as [Hos Hou]. split.
  - rewrite Hp, (abs_recv_all _ _ _ Hr). by rewrite <-(assoc_L (++)).
  - rewrite selects_app. intros Hn. destruct Ho as [Hs Hu]; [tauto|].
    rewrite sys_of_app, user_of_app, Hs, Hu, Hos, Hou. by rewrite <-!(assoc_L (++)).
Qed.

Lemma history_select p h msg f k l q q' :
  abs_select f q msg q' → history p h (Some (Running k l q)) →
  history p (h ++ [Selected p msg]) (Some (Running k l q')).
Proof.
  intros Hr [Hp Ho]. simpl. rewrite delivered_to_app, taken_by_app. simpl. rewrite decide_True, app_nil_r by done.
  split.
  - rewrite Hp, (abs_select_all _ _ _ _ Hr). by rewrite <-(assoc_L (++)).
  - rewrite selects_app. intros Hn. destruct Hn. right. by left.
Qed.

Lemma history_spawn p k : history p [] (Some (Running k true abs_empty)).
Proof. by split. Qed.

(** The phase of every PID agrees with the trace of its life. *)
Definition histories (evs : list actor_event) (n : Node) : Prop := ∀ p, history p (life p evs) (n !! p).

Lemma node_step_history evs n ev n' :
  node_step n ev n' → histories evs n → histories (evs ++ [ev]) n'.
Proof.
  intros Hs H p. specialize (H p). rewrite life_snoc.
  destruct Hs as [q k Hq|q msg k a Hq|q msg Hq|q msg k l a a' Hq Hr|q msg f l a a' Hq Hr|q k a Hq|q Hq|q k l a res Hq Hm|q Hq];
    (destruct (decide (q = p)) as [->|Hne];
      [rewrite ?lookup_insert_eq, ?lookup_delete_eq; try rewrite Hq in H|
       rewrite ?lookup_insert_ne, ?lookup_delete_ne by done]);
    cbn [is_spawn]; rewrite ?bool_decide_true, ?bool_decide_false by done;
    try (apply history_silent; [|done]; split; cbn; by rewrite ?decide_False).
  - apply history_spawn.
  - exact (history_deliver _ _ _ _ _ H).
  - exact (history_receive _ _ _ _ _ _ _ Hr H).
  - exact (history_select _ _ _ _ _ _ _ _ Hr H).
  - apply history_silent; [done|]. by eapply history_weak.
Qed.

Lemma node_run_history evs n : node_run ∅ evs n → histories evs n.
Proof.
  remember ∅ as n0 eqn:E. induction 1 as [n|n evs n1 ev n2 _ IH Hs]; subst.
  - intros p. rewrite lookup_empty. exists abs_empty. done.
  - eapply node_step_history; eauto.
Qed.

Lemma node_run_snoc_inv n l ev n2 : node_run n (l ++ [ev]) n2 →
  ∃ n1, node_run n l n1 ∧ node_step n1 ev n2.
Proof.
  intros H. remember (l ++ [ev]) as evs eqn:E. destruct H as [n|n evs n1 ev' n2 Hr Hs]; [by destruct l|].
  apply app_inj_tail in E as [-> ->]. eauto.
Qed.

Lemma node_run_split n l1 l2 n2 : node_run n (l1 ++ l2) n2 → ∃ n1, node_run n l1 n1 ∧ node_run n1 l2 n2.
Proof.
  revert n2. induction l2 as [|ev l2 IH] using rev_ind; intros n2 H.
  - rewrite app_nil_r in H. exists n2. split; [done|constructor].
  - rewrite (assoc_L (++)) in H. destruct (node_run_snoc_inv _ _ _ _ H) as (n1 & Hr & Hs). destruct (IH _ Hr) as (n0 & ? & ?).
    exists n0. split; [done|by econstructor].
Qed.

(** A PID under which nothing runs stays so, and nothing reaches it, until it
    is spawned again. *)
Definition idle (n : Node) (p : Pid) : Prop := ∀ k l q, n !! p ≠ Some (Running k l q).

Lemma idle_run p n evs n' : node_run n evs n' → idle n p → Forall (λ ev, is_spawn p ev = false) evs →
  delivered_to p evs = [] ∧ taken_by p evs = [] ∧ idle n' p.
Proof.
  induction 1 as [n|n evs n1 ev n2 _ IH Hs]; intros Hi Hf; [done|].
  apply Forall_app in Hf as [Hf Hev]. rewrite Forall_singleton in Hev. destruct (IH Hi Hf) as (Hd & Ht & Hi1).
  rewrite delivered_to_app, taken_by_app, Hd, Ht. clear IH Hd Ht Hf Hi. simpl.
  destruct Hs as [q k Hq|q msg k a Hq|q msg Hq|q msg k l a a' Hq Hr|q msg f l a a' Hq Hr|q k a Hq|q Hq|q k l a res Hq Hm|q Hq];
    (destruct (decide (q = p)) as [->|Hne]; [|split_and!; try done; intros ???;
       rewrite ?lookup_insert_ne, ?lookup_delete_ne by done; apply Hi1]); try by destruct (Hi1 _ _ _ Hq).
  - unfold is_spawn in Hev. by case_bool_decide.
  - done.
  - split_and!; [done..|]. intros ???. by rewrite lookup_insert_eq.
  - split_and!; [done..|]. intros ???. by rewrite lookup_delete_eq.
Qed.

(** The life of an actor up to now: the events since its spawn. *)
Lemma life_no_spawn p l1 l2 : Forall (λ ev, is_spawn p ev = false) l2 → life p (l1 ++ l2) = life p l1 ++ l2.
Proof.
  induction l2 as [|ev l2 IH] using rev_ind; intros Hf; [by rewrite !app_nil_r|].
  apply Forall_app in Hf as [Hf Hev]. rewrite Forall_singleton in Hev.
  rewrite (assoc_L (++)), life_snoc, Hev, IH by done. by rewrite (assoc_L (++)).
Qed.

Lemma life_spawned p k l1 l2 : Forall (λ ev, is_spawn p ev = false) l2 → life p (l1 ++ Spawned p k :: l2) = l2.
Proof.
  intros Hf. rewrite cons_middle, (assoc_L (++)), life_no_spawn, life_snoc by done. simpl. by rewrite bool_decide_true.
Qed.

(** Since its spawn an actor keeps its kind, a built-in loop selects nothing,
    and the PID can be sent to until it is unlisted. *)
Lemma kind_run p k n evs n' : node_run n evs n' → Forall (λ ev, is_spawn p ev = false) evs →
  (∀ k' l q, n !! p = Some (Running k' l q) → k' = k ∧ l = true) →
  (∀ k' l q, n' !! p = Some (Running k' l q) → k' = k ∧ (l = false → Unlisted p ∈ evs)) ∧
  (k ≠ UserBody → ¬ selects p evs).
Proof.
  induction 1 as [n|n evs n1 ev n2 _ IH Hs]; intros Hf Hk.
  { split; [|by intros _ H%Exists_nil]. intros k' l q Hq. destruct (Hk _ _ _ Hq) as [-> ->]. done. }
  apply Forall_app in Hf as [Hf Hev]. rewrite Forall_singleton in Hev. destruct (IH Hf Hk) as [H Hsel]. clear IH Hk Hf.
  rewrite selects_app. setoid_rewrite elem_of_app.
  destruct Hs as [q k1 Hq|q msg k1 a Hq|q msg Hq|q msg k1 l a a' Hq Hr|q msg f l a a' Hq Hr|q k1 a Hq|q Hq|q k1 l a res Hq Hm|q Hq];
    (destruct (decide (q = p)) as [->|Hne];
      [rewrite ?lookup_insert_eq, ?lookup_delete_eq|rewrite ?lookup_insert_ne, ?lookup_delete_ne by done]).
  all: try (unfold is_spawn in Hev; case_bool_decide; done).
  all: split; [|intros Hu [Hx|Hx]; [by apply Hsel|apply Exists_cons in Hx as [Hx|Hx%Exists_nil]; try done; subst]].
  all: try (intros k' l' q' Hq'; try (injection Hq' as <- <- <-); try done;
    edestruct H as [? ?]; [eassumption|]; split; [done|]; intros; by (left; auto) || (right; left)).
  all: try by intros.
  - by destruct (H _ _ _ Hq) as [<- _].
  - intros k' l q [= <- <- <-]. split; [by apply (H _ _ _ Hq)|]. intros _. right. left.
Qed.

(** ** The runtime with its events *)
Section actor_spec.
Context {F S : Type} `{PA : PidAllocator S}.
Implicit Types (rt : Runtime F S) (p q : Pid) (e : ExitTask).

Definition kind_of (k : ActorKind) : BodyKind :=
  match k with Raw => UserBody | Handler _ _ => HandlerLoop | Observed => ObserverLoop end.

Definition send_event (p : Pid) (msg : Message) (r : result unit Message) : actor_event :=
  match r with Ok _ => Delivered p msg | Err _ => Bounced p msg end.

(** [hot_swap] and the sends of a clean-up drop the result of the channel. *)
Definition hot_swap_events (p : Pid) (ptr : Z) rt : list actor_event :=
  if decide (p ∈ mailboxes rt) then [send_event p (System (HotSwap ptr)) (snd (rt_send p (System (HotSwap ptr)) rt))]
  else [].

(** [mailboxes.remove] answers whether there was an entry. *)
Definition stop_events (p : Pid) rt : list actor_event :=
  if decide (p ∈ mailboxes rt) then [Unlisted p] else [].

Definition observed_events (p : Pid) rt : list actor_event :=
  match snd (actor_recv p rt) with
  | Ready (Some msg) => [Received p msg]
  | Ready None => [Ended p JoinOk]
  | Pending => []
  end.

Definition handler_events (p : Pid) (pn : option string) rt : list actor_event :=
  match actors rt !! p with
  | Some (Handler _ _) =>
      match snd (actor_recv p rt), pn with
      | Ready (Some msg), Some d => [Received p msg; Ended p (JoinErr true d)]
      | Ready (Some msg), None => [Received p msg]
      | Ready None, _ => [Ended p JoinOk]
      | Pending, _ => []
      end
  | _ => []
  end.

Definition exit_events (i : nat) rt : list actor_event :=
  match exits rt !! i with
  | Some e =>
      match ex_stage e with
      | ExRemoveMailbox => stop_events (ex_pid e) rt
      | ExDeallocate => [Freed (ex_pid e)]
      | ExSend (lp :: _) => [send_event lp (exit_message e) (snd (rt_send lp (exit_message e) rt))]
      | _ => []
      end
  | None => []
  end.

(** A receive call of a body with what it hands out. *)
Inductive recv_out (p : Pid) (m : Mailbox) : Mailbox → list actor_event → Prop :=
| out_recv m' x : recv m = (m', Ready (Some x)) → recv_out p m m' [Received p x]
| out_recv_none m' : delivered (snd (recv m)) = None → m' = fst (recv m) → recv_out p m m' []
| out_try m' x : try_recv m = (m', Some x) → recv_out p m m' [Received p x]
| out_try_none m' : try_recv m = (m', None) → recv_out p m m' []
| out_select f m' x : selective_recv f m = Some (m', Ready (Some x)) → recv_out p m m' [Selected p x]
| out_select_none f m' r : selective_recv f m = Some (m', r) → delivered r = None → recv_out p m m' [].

(** The steps of [rt_step], each with the events it shows. *)
Inductive rt_labelled : Runtime F S → list actor_event → Runtime F S → Prop :=
| lb_spawn k rt rt' p : pa_room (slab rt) → spawn k rt = Some (rt', p) →
    rt_labelled rt [Spawned p (kind_of k)] rt'
| lb_send p msg rt rt' r : rt_send p msg rt = (rt', r) → rt_labelled rt [send_event p msg r] rt'
| lb_hot_swap p ptr rt : rt_labelled rt (hot_swap_events p ptr rt) (hot_swap p ptr rt)
| lb_stop p rt : rt_labelled rt (stop_events p rt) (stop p rt)
| lb_register n p rt : rt_labelled rt [] (rt_register n p rt)
| lb_unregister n rt : rt_labelled rt [] (rt_unregister n rt)
| lb_sup id f rt : sup_call f → rt_labelled rt [] (on_sup id f rt)
| lb_notify id p rt : rt_labelled rt [] (rt_notify id p rt)
| lb_create_path path rt : rt_labelled rt [] (create_path_supervisor path rt)
| lb_remove_path path rt : rt_labelled rt [] (remove_path_supervisor path rt)
| lb_take p f rt : rt_labelled rt [] (fst (take_observed_message_matching p f rt))
| lb_config c rt : rt_labelled rt [] (set_config c rt)
| lb_observed p rt : actors rt !! p = Some Observed →
    rt_labelled rt (observed_events p rt) (observed_turn p rt)
| lb_handler p pn rt : rt_labelled rt (handler_events p pn rt) (fst (handler_turn p pn rt))
| lb_raw_recv p m m' evs rt : actors rt !! p = Some Raw → boxes rt !! p = Some m →
    recv_out p m m' evs → rt_labelled rt evs (set_boxes (<[p := m']> (boxes rt)) rt)
| lb_raw_done p res rt : actors rt !! p = Some Raw → rt_labelled rt [Ended p res] (actor_done p res rt)
| lb_exit i rt : rt_labelled rt (exit_events i rt) (exits_turn i rt)
| lb_restart i r rt : rt_labelled rt [] (restart_turn i r rt).

Inductive rt_trace : list actor_event → Runtime F S → Prop :=
| tr_new : rt_trace [] runtime_new
| tr_step evs rt new rt' : rt_trace evs rt → rt_labelled rt new rt' → rt_trace (evs ++ new) rt'.

(** The labels leave nothing out and add nothing. *)
Lemma recv_call_out p m m' : recv_call m m' → ∃ evs, recv_out p m m' evs.
Proof.
  intros [| |f m1 r Hs].
  - destruct (recv m) as [m1 [[x|]|]] eqn:E; eexists; [by apply out_recv| |]; by apply out_recv_none; rewrite E.
  - destruct (try_recv m) as [m1 [x|]] eqn:E; eexists; [by apply out_try|by apply out_try_none].
  - destruct r as [[x|]|]; eexists; [by eapply out_select| |]; by eapply out_select_none.
Qed.

Lemma recv_out_call p m m' evs : recv_out p m m' evs → recv_call m m'.
Proof.
  intros [m1 x E|m1 _ ->|m1 x E|m1 E|f m1 x E|f m1 r E _].
  - replace m1 with (fst (recv m)) by by rewrite E. constructor.
  - constructor.
  - replace m1 with (fst (try_recv m)) by by rewrite E. constructor.
  - replace m1 with (fst (try_recv m)) by by rewrite E. constructor.
  - by eapply call_selective.
  - by eapply call_selective.
Qed.

Lemma rt_step_labelled rt rt' : rt_step rt rt' ↔ ∃ evs, rt_labelled rt evs rt'.
Proof.
  split.
  - intros Hs. destruct Hs as [k rt rt' p Hr Hs|p msg rt| | | | | | | | | | |p rt|p pn rt|p m m' rt Ha Hm Hc| | |];
      try (eexists; by econstructor).
    + eexists. eapply lb_send, surjective_pairing.
    + destruct (recv_call_out p _ _ Hc) as [evs He]. exists evs. by eapply lb_raw_recv.
  - intros [evs Hs].
    destruct Hs as [k rt rt' p Hr Hs|p msg rt rt' r Hs| | | | | | | | | | |p rt|p pn rt|p m m' evs rt Ha Hm Hc| | |];
      try by econstructor.
    + replace rt' with (fst (rt_send p msg rt)) by by rewrite Hs. constructor.
    + eapply st_raw_recv; eauto using recv_out_call.
Qed.

Lemma rt_trace_reachable evs rt : rt_trace evs rt → reachable rt_init rt_step rt.
Proof.
  induction 1 as [|evs rt new rt' _ IH Hs]; [by apply reach_init|].
  apply (reach_step _ _ rt); [done|]. apply rt_step_labelled. eauto.
Qed.

(** ** The refinement *)
Definition ending (p : Pid) rt : bool :=
  existsb (λ e, holds_slot (ex_stage e) && bool_decide (ex_pid e = p)) (exits rt).

(** The phase of a PID in a state of the runtime. *)
Definition phase rt (p : Pid) : option Phase :=
  match actors rt !! p with
  | Some k =>
      match boxes rt !! p with
      | Some m => Some (Running (kind_of k) (bool_decide (p ∈ mailboxes rt)) (abs m))
      | None => None
      end
  | None => if ending p rt then Some (Ending (bool_decide (p ∈ mailboxes rt))) else None
  end.

Definition implements rt (n : Node) : Prop := ∀ p, n !! p = phase rt p.

Lemma ending_spec p rt : ending p rt = true ↔
  ∃ i e, exits rt !! i = Some e ∧ holds_slot (ex_stage e) = true ∧ ex_pid e = p.
Proof.
  unfold ending. rewrite existsb_exists. split.
  - intros (e & [i Hi]%list_elem_of_In%list_elem_of_lookup & [Hh Hp%bool_decide_eq_true]%andb_true_iff). eauto.
  - intros (i & e & Hi & Hh & <-). exists e. split; [apply list_elem_of_In, list_elem_of_lookup; eauto|].
    by rewrite Hh, bool_decide_true.
Qed.

Lemma phase_None rt p : rt_inv rt → phase rt p = None ↔ ¬ in_use rt p.
Proof.
  intros Hi. unfold phase, in_use. destruct (actors rt !! p) as [k|] eqn:Hk.
  - destruct (inv_actor _ Hi p) as (m & -> & _); [by eexists|]. split; [done|]. intros []. left. by eexists.
  - rewrite <-ending_spec. destruct (ending p rt); split; try done; try tauto.
    intros _ [[? ?]|?]; done.
Qed.

Lemma phase_ext rt rt' p :
  actors rt' !! p = actors rt !! p → abs <$> (boxes rt' !! p) = abs <$> (boxes rt !! p) →
  (p ∈ mailboxes rt' ↔ p ∈ mailboxes rt) → ending p rt' = ending p rt → phase rt' p = phase rt p.
Proof.
  intros Ha Hb Hm He. unfold phase. rewrite Ha, He, (bool_decide_ext _ _ Hm).
  destruct (actors rt !! p); [|done]. destruct (boxes rt' !! p), (boxes rt !! p); simpl in *; congruence.
Qed.

Lemma phase_running rt p k m : actors rt !! p = Some k → boxes rt !! p = Some m →
  phase rt p = Some (Running (kind_of k) (bool_decide (p ∈ mailboxes rt)) (abs m)).
Proof. unfold phase. by intros -> ->. Qed.

Lemma implements_set rt rt' n p ph :
  (∀ q, q ≠ p → phase rt' q = phase rt q) → phase rt' p = Some ph → implements rt n →
  implements rt' (<[p := ph]> n).
Proof.
  intros Hq Hp Hn q. destruct (decide (q = p)) as [->|Hne]; [by rewrite lookup_insert_eq|].
  rewrite lookup_insert_ne by done. by rewrite Hq.
Qed.

Lemma implements_delete rt rt' n p :
  (∀ q, q ≠ p → phase rt' q = phase rt q) → phase rt' p = None → implements rt n →
  implements rt' (delete p n).
Proof.
  intros Hq Hp Hn q. destruct (decide (q = p)) as [->|Hne]; [by rewrite lookup_delete_eq|].
  rewrite lookup_delete_ne by done. by rewrite Hq.
Qed.

Lemma implements_same rt rt' n : (∀ q, phase rt' q = phase rt q) → implements rt n → implements rt' n.
Proof. intros Hq Hn q. by rewrite Hq. Qed.

(** What a step of the runtime has to show. *)
Definition simulated rt (evs : list actor_event) rt' : Prop :=
  ∀ n, implements rt n → ∃ n', node_run n evs n' ∧ implements rt' n'.

Lemma simulated_quiet rt rt' : (∀ q, phase rt' q = phase rt q) → simulated rt [] rt'.
Proof. intros Hq n Hn. exists n. split; [constructor|by eapply implements_same]. Qed.

Lemma simulated_set rt ev rt' p ph :
  (∀ n, n !! p = phase rt p → node_step n ev (<[p := ph]> n)) →
  (∀ q, q ≠ p → phase rt' q = phase rt q) → phase rt' p = Some ph → simulated rt [ev] rt'.
Proof.
  intros Hs Hq Hp n Hn. exists (<[p := ph]> n). split; [apply node_run_one, Hs, Hn|by eapply implements_set].
Qed.

Lemma simulated_app rt evs rt1 evs' rt2 :
  simulated rt evs rt1 → simulated rt1 evs' rt2 → simulated rt (evs ++ evs') rt2.
Proof.
  intros H1 H2 n Hn. destruct (H1 n Hn) as (n1 & Hr1 & Hn1). destruct (H2 n1 Hn1) as (n2 & Hr2 & Hn2).
  exists n2. split; [by eapply node_run_app|done].
Qed.
(** ** Receiving, as the abstract mailbox sees it *)
Lemma recv_taken m m' x : recv m = (m', Ready (Some x)) → abs_recv (abs m) = Some (x, abs m').
Proof.
  intros E. assert (Ht : try_recv m = (m', Some x)).
  { destruct (recv_viewP m) as [l1 s l2 _ _ Er Et|s q _ _ Er Et|b st _ _ _ Er Et|_ Es Er Et];
      rewrite Er in E; rewrite Et; try congruence.
    unfold recv_select in E. rewrite Es in E. repeat split_match; congruence. }
  assert (H := try_recv_abs m). destruct (abs_recv (abs m)) as [[y a]|]; [|congruence].
  destruct H as (m1 & Hm & <-). congruence.
Qed.

Lemma try_recv_taken m m' x : try_recv m = (m', Some x) → abs_recv (abs m) = Some (x, abs m').
Proof.
  intros E. assert (H := try_recv_abs m). destruct (abs_recv (abs m)) as [[y a]|]; [|congruence].
  destruct H as (m1 & Hm & <-). congruence.
Qed.

Lemma recv_none m m' r : recv m = (m', r) → delivered r = None → m' = m.
Proof.
  intros E Hd. destruct (recv_viewP m) as [l1 s l2 _ _ Er _|s q _ _ Er _|b st _ _ _ Er _|_ Es Er _];
    rewrite Er in E; try (injection E as <- <-; done).
  unfold recv_select in E. rewrite Es in E. repeat split_match; by injection E as <- <-.
Qed.

Lemma recv_ended m m' : recv m = (m', Ready None) → senders m = 0%nat ∧ a_sys (abs m) = [].
Proof.
  intros E. destruct (recv_viewP m) as [l1 s l2 _ _ Er _|s q _ _ Er _|b st _ _ _ Er _|Est Es Er _];
    rewrite Er in E; try done.
  unfold recv_select in E. unfold abs. rewrite Es, Est in *. simpl.
  repeat split_match; try done. by rewrite <-Nat.eqb_eq.
Qed.

Lemma try_recv_none m m' : try_recv m = (m', None) → m' = m.
Proof.
  intros E. assert (H := try_recv_abs m). destruct (abs_recv (abs m)) as [[y a]|]; [|congruence].
  destruct H as (m1 & Hm & _). congruence.
Qed.

Lemma selective_recv_out f m m' r : selective_recv f m = Some (m', r) →
  match r with Ready (Some x) => abs_select f (abs m) x (abs m') | _ => abs m' = abs m end.
Proof.
  intros E. destruct (selective_recv_spec f m) as (m1 & r1 & E1 & _ & H).
  assert (m1 = m' ∧ r1 = r) as [-> ->] by (split; congruence).
  destruct r as [[x|]|]; [done|apply H..].
Qed.

(** ** Phases of the states that the steps produce *)
Lemma phase_box rt p m q : q ≠ p → phase (set_boxes (<[p := m]> (boxes rt)) rt) q = phase rt q.
Proof. intros Hne. apply phase_ext; try done. simpl. by rewrite lookup_insert_ne. Qed.

Lemma phase_box_at rt p m k : actors rt !! p = Some k →
  phase (set_boxes (<[p := m]> (boxes rt)) rt) p =
    Some (Running (kind_of k) (bool_decide (p ∈ mailboxes rt)) (abs m)).
Proof. intros Ha. exact (phase_running (set_boxes _ rt) p k m Ha (lookup_insert_eq _ _ _)). Qed.

Lemma phase_box_abs rt p m m' q : boxes rt !! p = Some m → abs m' = abs m →
  phase (set_boxes (<[p := m']> (boxes rt)) rt) q = phase rt q.
Proof.
  intros Hm Ha. destruct (decide (q = p)) as [->|Hne]; [|by apply phase_box].
  apply phase_ext; try done. simpl. rewrite lookup_insert_eq, Hm. simpl. by rewrite Ha.
Qed.

Lemma ending_done p res rt q :
  ending q (actor_done p res rt) = ending q rt || bool_decide (p = q).
Proof. unfold ending, actor_done. simpl. rewrite existsb_app. simpl. by rewrite orb_false_r. Qed.

Lemma phase_done rt p res q : q ≠ p → phase (actor_done p res rt) q = phase rt q.
Proof.
  intros Hne. apply phase_ext; simpl.
  - by rewrite lookup_delete_ne.
  - by rewrite lookup_alter_ne.
  - done.
  - rewrite ending_done, bool_decide_false by done. apply orb_false_r.
Qed.

Lemma phase_done_at rt p res :
  phase (actor_done p res rt) p = Some (Ending (bool_decide (p ∈ mailboxes rt))).
Proof.
  unfold phase. rewrite ending_done, (bool_decide_true (p = p)), orb_true_r by done. simpl.
  by rewrite lookup_delete_eq.
Qed.

(** ** Each step is simulated *)
Lemma sim_recv rt p k m m' x :
  actors rt !! p = Some k → boxes rt !! p = Some m → abs_recv (abs m) = Some (x, abs m') →
  simulated rt [Received p x] (set_boxes (<[p := m']> (boxes rt)) rt).
Proof.
  intros Ha Hm Hr. apply (simulated_set _ _ _ p (Running (kind_of k) (bool_decide (p ∈ mailboxes rt)) (abs m'))).
  - intros n Hn. rewrite (phase_running _ _ _ _ Ha Hm) in Hn. by eapply ns_receive.
  - intros q Hq. by apply phase_box.
  - by apply phase_box_at.
Qed.

Lemma sim_done rt p k m res :
  actors rt !! p = Some k → boxes rt !! p = Some m →
  may_end (kind_of k) (bool_decide (p ∈ mailboxes rt)) (abs m) res →
  simulated rt [Ended p res] (actor_done p res rt).
Proof.
  intros Ha Hm He. apply (simulated_set _ _ _ p (Ending (bool_decide (p ∈ mailboxes rt)))).
  - intros n Hn. rewrite (phase_running _ _ _ _ Ha Hm) in Hn. by eapply ns_end.
  - intros q Hq. by apply phase_done.
  - apply phase_done_at.
Qed.

Lemma sim_send p msg rt rt' r : rt_inv rt → rt_send p msg rt = (rt', r) →
  simulated rt [send_event p msg r] rt'.
Proof.
  intros Hi E. assert (H := rt_send_spec rt p msg Hi). rewrite E in H. destruct H as (Hf & Hb & H).
  assert (Hq : ∀ q, q ≠ p → phase rt' q = phase rt q).
  { intros q Hne. rewrite Hf. apply phase_ext; try done. simpl. by rewrite Hb. }
  case_decide as Hd.
  - destruct Hd as [Hp [k Hk]]. destruct H as [-> (m & m' & Hm & Hm' & Ha)].
    apply (simulated_set _ _ _ p (Running (kind_of k) true (abs_push msg (abs m)))); [|done|].
    + intros n Hn. rewrite (phase_running _ _ _ _ Hk Hm), bool_decide_true in Hn by done. by apply ns_deliver.
    + rewrite Hf. etransitivity; [apply (phase_running (set_boxes _ rt) p k m' Hk Hm')|]. simpl.
      by rewrite bool_decide_true, Ha.
  - destruct H as [-> Ha]. intros n Hn. exists n. split.
    + apply node_run_one, ns_bounce. unfold accepts. rewrite Hn. unfold phase.
      destruct (actors rt !! p) as [k|] eqn:Hk; [|by destruct (ending p rt)].
      destruct (boxes rt !! p); [|done]. rewrite bool_decide_false; [done|]. intros Hp. by apply Hd; split; [|eexists].
    + apply (implements_same rt); [|done]. intros q. destruct (decide (q = p)) as [->|Hne]; [|by apply Hq].
      rewrite Hf. by apply phase_ext.
Qed.

Lemma hot_swap_send p ptr rt : hot_swap p ptr rt = fst (rt_send p (System (HotSwap ptr)) rt).
Proof.
  unfold hot_swap, rt_send. case_decide; [|done]. destruct (boxes rt !! p) as [m|]; [|done].
  unfold send, send_system, tx_sys_send. by destruct (receiver_alive m).
Qed.

Lemma sim_hot_swap p ptr rt : rt_inv rt → simulated rt (hot_swap_events p ptr rt) (hot_swap p ptr rt).
Proof.
  intros Hi. unfold hot_swap_events. case_decide as Hp.
  - rewrite hot_swap_send. eapply sim_send; [done|apply surjective_pairing].
  - unfold hot_swap. rewrite decide_False by done. by apply simulated_quiet.
Qed.

Lemma phase_stop p q rt : q ≠ p → phase (stop p rt) q = phase rt q.
Proof.
  intros Hne. unfold stop. case_decide; [|done]. apply phase_ext; simpl; try done.
  - by rewrite lookup_alter_ne.
  - set_solver.
Qed.

Lemma sim_stop p rt : rt_inv rt → simulated rt (stop_events p rt) (stop p rt).
Proof.
  intros Hi. unfold stop_events. case_decide as Hp.
  2:{ unfold stop. rewrite decide_False by done. by apply simulated_quiet. }
  destruct (actors rt !! p) as [k|] eqn:Hk.
  - destruct (inv_box _ Hi p Hp) as (m & Hm & _).
    apply (simulated_set _ _ _ p (Running (kind_of k) false (abs m))).
    + intros n Hn. rewrite (phase_running _ _ _ _ Hk Hm), bool_decide_true in Hn by done. by apply ns_unlist.
    + intros q. apply phase_stop.
    + unfold stop. rewrite decide_True by done. unfold phase. simpl. rewrite Hk, lookup_alter_eq, Hm. simpl.
      rewrite bool_decide_false by set_solver. done.
  - assert (He : ending p rt = true).
    { apply ending_spec. destruct (inv_mail _ Hi p Hp) as [[? ?]|(i & e & ? & Hs & ?)]; [congruence|].
      exists i, e. by rewrite Hs. }
    assert (Hph : ∀ rt', actors rt' !! p = None → ending p rt' = true →
      phase rt' p = Some (Ending (bool_decide (p ∈ mailboxes rt')))) by (unfold phase; by intros rt' -> ->).
    apply (simulated_set _ _ _ p (Ending false)).
    + intros n Hn. rewrite Hph, bool_decide_true in Hn by done. by apply ns_unlist_ending.
    + intros q. apply phase_stop.
    + unfold stop. rewrite decide_True, Hph by done. simpl. by rewrite bool_decide_false by set_solver.
Qed.

(** ** Turns of the built-in loops *)
Lemma actor_recv_box p m rt : boxes rt !! p = Some m →
  actor_recv p rt = (set_boxes (<[p := fst (recv m)]> (boxes rt)) rt, snd (recv m)).
Proof. unfold actor_recv. intros ->. by destruct (recv m). Qed.

(** An actor whose receive answers that the mailbox is closed. *)
Lemma sim_closed rt p k m m' : rt_inv rt →
  actors rt !! p = Some k → boxes rt !! p = Some m → kind_of k ≠ UserBody → recv m = (m', Ready None) →
  simulated rt [Ended p JoinOk] (actor_done p JoinOk (set_boxes (<[p := m']> (boxes rt)) rt)).
Proof.
  intros Hi Hk Hm Hu Hr. destruct (recv_ended _ _ Hr) as [Hs Ha]. rewrite (recv_none _ _ _ Hr) by done.
  apply (simulated_app _ [] (set_boxes (<[p := m]> (boxes rt)) rt)).
  { apply simulated_quiet. intros q. by apply (phase_box_abs _ _ m). }
  apply (sim_done _ _ k m); [done|apply lookup_insert_eq|]. simpl.
  assert (p ∉ mailboxes rt).
  { intros Hp. destruct (inv_box _ Hi p Hp) as (m1 & Hm1 & Hs1 & _). replace m1 with m in * by congruence. lia. }
  rewrite bool_decide_false by done. destruct k; simpl in *; naive_solver.
Qed.

Lemma sim_observed p rt : rt_inv rt → actors rt !! p = Some Observed →
  simulated rt (observed_events p rt) (observed_turn p rt).
Proof.
  intros Hi Hk. destruct (inv_actor _ Hi p) as (m & Hm & _); [by eexists|].
  unfold observed_events, observed_turn. rewrite (actor_recv_box p m) by done.
  destruct (recv m) as [m' r] eqn:Hr. simpl. destruct r as [[x|]|].
  - apply (simulated_app _ [Received p x] (set_boxes (<[p := m']> (boxes rt)) rt) []).
    + eapply sim_recv; eauto using recv_taken.
    + by apply simulated_quiet.
  - by apply (sim_closed _ _ Observed m).
  - apply simulated_quiet. intros q. rewrite (recv_none _ _ _ Hr) by done. by apply (phase_box_abs _ _ m).
Qed.

Lemma phase_set_actor rt p k k' q : actors rt !! p = Some k → kind_of k' = kind_of k →
  phase (set_actors (<[p := k']> (actors rt)) rt) q = phase rt q.
Proof.
  intros Hk He. unfold phase. simpl. destruct (decide (q = p)) as [->|Hne].
  - by rewrite lookup_insert_eq, Hk, He.
  - by rewrite lookup_insert_ne.
Qed.

Lemma sim_handler p pn rt : rt_inv rt → simulated rt (handler_events p pn rt) (fst (handler_turn p pn rt)).
Proof.
  intros Hi. unfold handler_events, handler_turn.
  destruct (actors rt !! p) as [[|b c|]|] eqn:Hk; try by apply simulated_quiet.
  destruct (inv_actor _ Hi p) as (m & Hm & _); [by eexists|]. rewrite (actor_recv_box p m) by done.
  destruct (recv m) as [m' r] eqn:Hr. cbn [fst snd]. destruct r as [[x|]|].
  - assert (H1 : simulated rt [Received p x] (set_boxes (<[p := m']> (boxes rt)) rt))
      by (eapply sim_recv; eauto using recv_taken).
    destruct pn as [d|]; simpl.
    + apply (simulated_app _ [Received p x] _ [Ended p (JoinErr true d)] _ H1).
      apply (sim_done _ _ (Handler b c) m'); [done|apply lookup_insert_eq|simpl; eauto].
    + apply (simulated_app _ [Received p x] _ [] _ H1). apply simulated_quiet. intros q.
      exact (phase_set_actor (set_boxes (<[p := m']> (boxes rt)) rt) p (Handler b c)
        (Handler b (if b <=? c + 1 then 0 else c + 1)) q Hk eq_refl).
  - destruct pn; by apply (sim_closed _ _ (Handler b c) m).
  - assert (H1 : simulated rt [] (set_boxes (<[p := m']> (boxes rt)) rt)).
    { apply simulated_quiet. intros q. rewrite (recv_none _ _ _ Hr) by done. by apply (phase_box_abs _ _ m). }
    by destruct pn.
Qed.

(** ** Spawning *)
Lemma spawn_fields k rt rt' p : spawn k rt = Some (rt', p) →
  (∃ sl, pa_alloc (slab rt) = Some (sl, p)) ∧ mailboxes rt' = {[p]} ∪ mailboxes rt ∧ exits rt' = exits rt ∧
  actors rt' = <[p := k]> (actors rt) ∧ boxes rt' = <[p := drop_sender (clone_sender channel)]> (boxes rt).
Proof.
  unfold spawn. destruct (pa_alloc (slab rt)) as [[sl pid]|]; [|done]. intros [= <- <-].
  split; [by eexists|by destruct k].
Qed.

Lemma sim_spawn k rt rt' p : rt_inv rt → pa_room (slab rt) → spawn k rt = Some (rt', p) →
  simulated rt [Spawned p (kind_of k)] rt'.
Proof.
  intros Hi Hroom Hs. destruct (spawn_fields _ _ _ _ Hs) as ([sl Hsl] & Hm & He & Ha & Hb).
  assert (Hok := inv_slab _ Hi). assert (Hfit := pa_alloc_fits _ _ _ Hok Hroom Hsl).
  assert (Hfree : phase rt p = None).
  { apply phase_None; [done|]. rewrite <-(inv_live _ Hi p Hfit). unfold is_alive.
    by rewrite (pa_alloc_fresh _ _ _ Hok Hroom Hsl). }
  apply (simulated_set _ _ _ p (Running (kind_of k) true abs_empty)).
  - intros n Hn. apply ns_spawn. congruence.
  - intros q Hne. apply phase_ext; rewrite ?Ha, ?Hb, ?Hm, ?lookup_insert_ne by done; try done; [set_solver|].
    unfold ending. by rewrite He.
  - rewrite (phase_running _ _ k (drop_sender (clone_sender channel))); rewrite ?Ha, ?Hb, ?lookup_insert_eq by done; try done.
    rewrite bool_decide_true by set_solver. done.
Qed.

(** ** Clean-up *)
Lemma ending_insert rt i e e' q : exits rt !! i = Some e → ex_pid e' = ex_pid e →
  holds_slot (ex_stage e') = holds_slot (ex_stage e) →
  ending q (set_exits (<[i := e']> (exits rt)) rt) = ending q rt.
Proof.
  intros He Hp Hh. apply eq_true_iff_eq. rewrite !ending_spec. simpl. split.
  - intros (j & x & [[-> ->]|[Hne Hx]]%(exits_insert _ i e _ _ _ He) & Hs & <-); [|by exists j, x].
    exists i, e. by rewrite <-Hh.
  - intros (j & x & Hx & Hs & <-). destruct (decide (j = i)) as [->|Hne].
    + exists i, e'. replace x with e in * by congruence.
      rewrite list_lookup_insert_eq by (by eapply lookup_lt_Some). by rewrite Hh.
    + exists j, x. split; [by apply (exits_insert_some _ i e)|done].
Qed.

Lemma phase_exit_stage rt i e e' q : exits rt !! i = Some e → ex_pid e' = ex_pid e →
  holds_slot (ex_stage e') = holds_slot (ex_stage e) →
  phase (set_exits (<[i := e']> (exits rt)) rt) q = phase rt q.
Proof. intros He Hp Hh. apply phase_ext; try done. by apply (ending_insert _ _ e). Qed.

(** The stage that gives the slot back. *)
Lemma sim_deallocate rt i e : rt_inv rt → exits rt !! i = Some e → ex_stage e = ExDeallocate →
  simulated rt [Freed (ex_pid e)] (exits_turn i rt).
Proof.
  intros Hi He Hst. assert (Hh : holds_slot (ex_stage e) = true) by by rewrite Hst.
  set (p := ex_pid e). assert (Ha : actors rt !! p = None) by by eapply inv_disjoint.
  assert (Hnm : p ∉ mailboxes rt).
  { intros Hp. destruct (inv_mail _ Hi p Hp) as [[? ?]|(j & x & Hx & Hs & Hxp)]; [congruence|].
    assert (j = i) as -> by (eapply (inv_unique _ Hi j i x e); rewrite ?Hs; done). congruence. }
  assert (Hph : phase rt p = Some (Ending false)).
  { unfold phase. rewrite Ha, (proj2 (ending_spec p rt)) by eauto. by rewrite bool_decide_false. }
  rewrite (exits_turn_stage i e rt He). unfold exit_turn. rewrite Hst. simpl.
  set (rt' := set_exits _ _).
  assert (Hend : ∀ q, ending q rt' = true ↔ q ≠ p ∧ ending q rt = true).
  { intros q. rewrite !ending_spec. simpl. split.
    - intros (j & x & [[-> ->]|[Hne Hx]]%(exits_insert _ i e _ _ _ He) & Hs & <-); [done|].
      split; [|by exists j, x]. intros Heq. apply Hne. by eapply (inv_unique _ Hi j i x e).
    - intros [Hne (j & x & Hx & Hs & <-)]. exists j, x. split; [|done]. apply (exits_insert_some _ i e); try done.
      intros ->. apply Hne. unfold p. congruence. }
  intros n Hn. exists (delete p n). split.
  - apply node_run_one, ns_free. by rewrite Hn.
  - apply (implements_delete rt); [| |done].
    + intros q Hne. apply phase_ext; try done. apply eq_true_iff_eq. rewrite Hend. tauto.
    + unfold phase. simpl. rewrite Ha. destruct (ending p rt') eqn:E; [|done]. by apply Hend in E as [].
Qed.

Lemma phase_notify id p q rt : phase (rt_notify id p rt) q = phase rt q.
Proof. unfold rt_notify. by destruct (notify_exit p (sup_of id rt)). Qed.

Lemma sim_exit i rt : rt_inv rt → simulated rt (exit_events i rt) (exits_turn i rt).
Proof.
  intros Hi. unfold exit_events. destruct (exits rt !! i) as [e|] eqn:He.
  2:{ unfold exits_turn. rewrite He. by apply simulated_quiet. }
  destruct (decide (ex_stage e = ExDeallocate)) as [Hd|Hd]; [rewrite Hd; by apply sim_deallocate|].
  assert (Hst : ex_pid (snd (exit_turn e rt)) = ex_pid e ∧
    holds_slot (ex_stage (snd (exit_turn e rt))) = holds_slot (ex_stage e)).
  { destruct (decide (ex_stage e = ExRemoveMailbox)) as [Hr|Hr]; [|by apply exit_turn_shape].
    unfold exit_turn. by rewrite Hr. }
  rewrite (exits_turn_stage i e rt He). rewrite <-(app_nil_r (match ex_stage e with _ => _ end)).
  apply (simulated_app _ _ (fst (exit_turn e rt))).
  - unfold exit_turn. destruct (ex_stage e) as [| |[|id rest]| | |[|lp rest]|]; simpl; try by apply simulated_quiet.
    + by apply sim_stop.
    + apply simulated_quiet. intros q. apply phase_notify.
    + apply simulated_quiet. intros q. split_match; [apply phase_notify|done].
    + done.
    + destruct (linked_pids (ex_pid e) (sup_of 0 rt)). by apply simulated_quiet.
    + eapply sim_send; [done|apply surjective_pairing].
  - apply simulated_quiet. intros q. apply (phase_exit_stage _ i e); [by rewrite exit_turn_exits|apply Hst..].
Qed.

(** ** Every step *)
Lemma sim_raw_recv p m m' evs rt : actors rt !! p = Some Raw → boxes rt !! p = Some m →
  recv_out p m m' evs → simulated rt evs (set_boxes (<[p := m']> (boxes rt)) rt).
Proof.
  intros Hk Hm [m1 x E|m1 Hd ->|m1 x E|m1 E|f m1 x E|f m1 r E Hr].
  - eapply sim_recv; eauto using recv_taken.
  - apply simulated_quiet. intros q. apply (phase_box_abs _ _ m); [done|].
    destruct (recv m) as [m1 r] eqn:E. by rewrite (recv_none _ _ _ E Hd).
  - eapply sim_recv; eauto using try_recv_taken.
  - apply simulated_quiet. intros q. apply (phase_box_abs _ _ m); [done|]. by rewrite (try_recv_none _ _ E).
  - apply selective_recv_out in E.
    apply (simulated_set _ _ _ p (Running UserBody (bool_decide (p ∈ mailboxes rt)) (abs m1))).
    + intros n Hn. rewrite (phase_running _ _ _ _ Hk Hm) in Hn. by eapply ns_select.
    + intros q. apply phase_box.
    + by apply (phase_box_at rt p m1 Raw).
  - apply simulated_quiet. intros q. apply (phase_box_abs _ _ m); [done|].
    apply selective_recv_out in E. by destruct r as [[]|].
Qed.

Lemma labelled_simulated rt evs rt' : rt_inv rt → rt_labelled rt evs rt' → simulated rt evs rt'.
Proof.
  intros Hi Hs. destruct Hs as [k rt rt' p Hr Hs|p msg rt rt' r Hs|p ptr rt|p rt| | | | |path rt| |p f rt| |p rt|p pn rt|
    p m m' evs rt Ha Hm Hc|p res rt Ha|i rt|i r rt]; try by apply simulated_quiet.
  - by apply sim_spawn.
  - by apply sim_send.
  - by apply sim_hot_swap.
  - by apply sim_stop.
  - apply simulated_quiet. intros q. apply phase_notify.
  - apply simulated_quiet. intros q. unfold create_path_supervisor, path_entry. by split_match.
  - apply simulated_quiet. intros q. unfold take_observed_message_matching. by repeat split_match.
  - by apply sim_observed.
  - by apply sim_handler.
  - by eapply sim_raw_recv.
  - destruct (inv_actor _ Hi p) as (m & Hm & _); [by eexists|]. by eapply (sim_done _ _ Raw).
  - by apply sim_exit.
  - apply simulated_quiet. intros q. unfold restart_turn. destruct (restarts rt !! i) as [[id t]|]; [|done].
    by destruct (restart_attempt t r (sup_of id rt)) as [s' []].
Qed.

Lemma trace_implements evs rt : rt_trace evs rt → ∃ n, node_run ∅ evs n ∧ implements rt n.
Proof.
  induction 1 as [|evs rt new rt' Ht (n & Hr & Hn) Hs].
  - exists ∅. split; [constructor|]. intros p. rewrite lookup_empty. unfold phase, ending. simpl.
    by rewrite lookup_empty.
  - destruct (labelled_simulated _ _ _ (rt_reachable_inv _ (rt_trace_reachable _ _ Ht)) Hs n Hn) as (n' & Hr' & Hn').
    exists n'. split; [by eapply node_run_app|done].
Qed.

(** C6: [Runtime] implements the actor machine. Every reachable state of the
    runtime is reached by a trace of events, and every trace of the runtime is a
    trace of the abstract node, which ends in the state's phases. *)
Theorem runtime_refines_actor_machine rt :
  reachable rt_init rt_step rt →
  (∃ evs, rt_trace evs rt) ∧
  ∀ evs, rt_trace evs rt → ∃ n, node_run ∅ evs n ∧ ∀ p, n !! p = phase rt p.
Proof.
  intros Hr. split; [|intros evs; apply trace_implements].
  induction Hr as [rt ->|rt rt' _ [evs Hevs] [new Hnew]%rt_step_labelled]; [by exists []; constructor|].
  exists (evs ++ new). by eapply tr_step.
Qed.

(** C7: No message is lost, duplicated or invented, in any interleaving of
    spawns, sends, stops, receives, clean-ups and reuses of PIDs. In the life of
    a PID since its last spawn, what its actor took was delivered to it in that
    life, in order for each class of message unless a selective receive was
    used; and while the actor runs, its mailbox holds exactly the rest. *)
Theorem runtime_no_loss evs rt p :
  rt_trace evs rt →
  let h := life p evs in
  taken_by p h ⊆+ delivered_to p h ∧
  (¬ selects p h → sys_of (taken_by p h) `prefix_of` sys_of (delivered_to p h) ∧
                   user_of (taken_by p h) `prefix_of` user_of (delivered_to p h)) ∧
  (is_Some (actors rt !! p) → ∃ m, boxes rt !! p = Some m ∧
    delivered_to p h ≡ₚ taken_by p h ++ abs_all (abs m) ∧
    (¬ selects p h → sys_of (delivered_to p h) = sys_of (taken_by p h) ++ a_sys (abs m) ∧
                     user_of (delivered_to p h) = user_of (taken_by p h) ++ a_user (abs m))).
Proof.
  intros Ht h. destruct (trace_implements _ _ Ht) as (n & Hr & Hn).
  assert (H := node_run_history _ _ Hr p). fold h in H. rewrite Hn in H.
  assert (Hw : ∃ q : AbsMailbox, delivered_to p h ≡ₚ taken_by p h ++ abs_all q ∧
    (¬ selects p h → sys_of (delivered_to p h) = sys_of (taken_by p h) ++ a_sys q ∧
                     user_of (delivered_to p h) = user_of (taken_by p h) ++ a_user q))
    by (destruct (phase rt p) as [[k l q|l]|]; [by exists q|exact H..]).
  destruct Hw as (q & Hp & Ho). split_and!.
  - rewrite Hp. by apply submseteq_inserts_r.
  - intros Hs. destruct (Ho Hs) as [-> ->]. split; by eexists.
  - intros [k Hk]. destruct (inv_actor _ (rt_reachable_inv _ (rt_trace_reachable _ _ Ht)) p) as (m & Hm & _); [by eexists|].
    exists m. rewrite (phase_running _ _ _ _ Hk Hm) in H. by split.
Qed.

(** C8: After an actor with a built-in loop has ended, nothing is delivered to
    its PID and nothing is taken from its mailbox until the PID is given to a new
    actor.  Before it ended it had taken its user messages in the order of their
    delivery; and if it ended other than by a panic, it had been stopped and had
    taken every system message delivered to it.  (A user body may keep its
    receiver beyond its end: a Python pull actor's [PyMailbox] can be copied.) *)
Theorem nothing_after_the_end la p k lb res l2 rt :
  rt_trace (la ++ Spawned p k :: lb ++ Ended p res :: l2) rt → k ≠ UserBody →
  Forall (λ ev, is_spawn p ev = false) lb → Forall (λ ev, is_spawn p ev = false) l2 →
  delivered_to p l2 = [] ∧ taken_by p l2 = [] ∧ actors rt !! p = None ∧
  user_of (taken_by p lb) `prefix_of` user_of (delivered_to p lb) ∧
  (res = JoinOk → Unlisted p ∈ lb ∧ sys_of (taken_by p lb) = sys_of (delivered_to p lb)).
Proof.
  intros Ht Hk Hlb Hf. destruct (trace_implements _ _ Ht) as (n & Hr & Hn).
  rewrite (cons_middle (Spawned p k)), (assoc_L (++)), (assoc_L (++)) in Hr.
  rewrite (cons_middle (Ended p res)), (assoc_L (++)) in Hr.
  apply node_run_split in Hr as (n1 & H1 & H2). apply node_run_snoc_inv in H1 as (n0 & H0 & Hs).
  assert (Hh := node_run_history _ _ H0 p). rewrite <-(assoc_L (++)), <-cons_middle, life_spawned in Hh by done.
  apply node_run_split in H0 as (na & Ha & Hb). apply node_run_snoc_inv in Ha as (nb & _ & Hsp).
  assert (Hidle : idle n1 p) by (inversion Hs; subst; intros ???; by rewrite lookup_insert_eq).
  destruct (idle_run p _ _ _ H2 Hidle Hf) as (Hd & Htk & Hi).
  destruct (kind_run p k _ _ _ Hb Hlb) as [Hkind Hsel].
  { intros k' l q. inversion Hsp; subst. rewrite lookup_insert_eq. by intros [= <- <- <-]. }
  inversion Hs as [| | | | | | |p' k' l q res' Hq Hm|]; subst. rewrite Hq in Hh. destruct Hh as [_ Ho].
  destruct (Ho (Hsel Hk)) as [Hos Hou]. destruct (Hkind _ _ _ Hq) as [-> Hun]. split_and!; [done|done| | |].
  - destruct (actors rt !! p) as [k1|] eqn:Hk1; [|done].
    destruct (inv_actor _ (rt_reachable_inv _ (rt_trace_reachable _ _ Ht)) p) as (m & Hm' & _); [by eexists|].
    destruct (Hi (kind_of k1) (bool_decide (p ∈ mailboxes rt)) (abs m)). by rewrite Hn, (phase_running _ _ _ _ Hk1 Hm').
  - rewrite Hou. by eexists.
  - intros ->. destruct k; simpl in Hm; [done| |].
    + destruct Hm as [[d Hd']|(_ & -> & Hsys)]; [done|]. split; [by apply Hun|]. by rewrite Hos, Hsys, app_nil_r.
    + destruct Hm as (_ & -> & Hsys). split; [by apply Hun|]. by rewrite Hos, Hsys, app_nil_r.
Qed.
End actor_spec.

(** ** A run *)
Module SpecDemo.
(** A handler is spawned, gets a message and handles it; then it is stopped,
    ends and its PID is freed. *)
Definition p : Pid := Demo.a.

Definition msg : Message := User [Byte.x61].

Definition s1 : Runtime unit SlabAllocator := Demo.spawned (Handler 1 0) Demo.start.

Definition s2 : Runtime unit SlabAllocator := fst (rt_send p msg s1).

Definition s3 : Runtime unit SlabAllocator := fst (handler_turn p None s2).

Definition s4 : Runtime unit SlabAllocator := stop p s3.

Definition s5 : Runtime unit SlabAllocator := fst (handler_turn p None s4).

Definition late : Runtime unit SlabAllocator := fst (rt_send p msg s5).
End SpecDemo.

Lemma spec_demo_handled :
  rt_trace [Spawned SpecDemo.p HandlerLoop; Delivered SpecDemo.p SpecDemo.msg; Received SpecDemo.p SpecDemo.msg] SpecDemo.s3.
Proof.
  apply (tr_step [Spawned SpecDemo.p HandlerLoop; Delivered SpecDemo.p SpecDemo.msg] SpecDemo.s2
           [Received SpecDemo.p SpecDemo.msg]); [|apply (lb_handler SpecDemo.p None)].
  apply (tr_step [Spawned SpecDemo.p HandlerLoop] SpecDemo.s1 [Delivered SpecDemo.p SpecDemo.msg]);
    [|by apply (lb_send SpecDemo.p SpecDemo.msg _ _ (Ok tt))].
  apply (tr_step [] Demo.start [Spawned SpecDemo.p HandlerLoop]); [constructor|].
  by apply (lb_spawn (Handler 1 0)).
Qed.

Lemma spec_demo_ended :
  rt_trace ([Spawned SpecDemo.p HandlerLoop; Delivered SpecDemo.p SpecDemo.msg; Received SpecDemo.p SpecDemo.msg;
    Unlisted SpecDemo.p] ++ Ended SpecDemo.p JoinOk :: [Bounced SpecDemo.p SpecDemo.msg]) SpecDemo.late.
Proof.
  change (rt_trace (((([Spawned SpecDemo.p HandlerLoop; Delivered SpecDemo.p SpecDemo.msg; Received SpecDemo.p SpecDemo.msg]
    ++ [Unlisted SpecDemo.p]) ++ [Ended SpecDemo.p JoinOk]) ++ [Bounced SpecDemo.p SpecDemo.msg])) SpecDemo.late).
  apply (tr_step _ SpecDemo.s5); [|by apply (lb_send SpecDemo.p SpecDemo.msg _ _ (Err SpecDemo.msg))].
  apply (tr_step _ SpecDemo.s4); [|apply (lb_handler SpecDemo.p None)].
  apply (tr_step _ SpecDemo.s3); [apply spec_demo_handled|apply (lb_stop SpecDemo.p)].
Qed.

(** ** Witnesses *)
Lemma runtime_refines_actor_machine_witness :
  (∃ evs, rt_trace evs Demo.ended) ∧
  ∀ evs, rt_trace evs Demo.ended → ∃ n, node_run ∅ evs n ∧ ∀ p, n !! p = phase Demo.ended p.
Proof. apply (runtime_refines_actor_machine Demo.ended). apply demo_ended_reachable. Defined.

Lemma runtime_no_loss_witness :
  let h := life SpecDemo.p [Spawned SpecDemo.p HandlerLoop; Delivered SpecDemo.p SpecDemo.msg; Received SpecDemo.p SpecDemo.msg] in
  taken_by SpecDemo.p h ⊆+ delivered_to SpecDemo.p h ∧
  (¬ selects SpecDemo.p h → sys_of (taken_by SpecDemo.p h) `prefix_of` sys_of (delivered_to SpecDemo.p h) ∧
                   user_of (taken_by SpecDemo.p h) `prefix_of` user_of (delivered_to SpecDemo.p h)) ∧
  (is_Some (actors SpecDemo.s3 !! SpecDemo.p) → ∃ m, boxes SpecDemo.s3 !! SpecDemo.p = Some m ∧
    delivered_to SpecDemo.p h ≡ₚ taken_by SpecDemo.p h ++ abs_all (abs m) ∧
    (¬ selects SpecDemo.p h → sys_of (delivered_to SpecDemo.p h) = sys_of (taken_by SpecDemo.p h) ++ a_sys (abs m) ∧
                     user_of (delivered_to SpecDemo.p h) = user_of (taken_by SpecDemo.p h) ++ a_user (abs m))).
Proof. apply (runtime_no_loss _ SpecDemo.s3 SpecDemo.p). apply spec_demo_handled. Defined.

Lemma nothing_after_the_end_witness :
  let lb := [Delivered SpecDemo.p SpecDemo.msg; Received SpecDemo.p SpecDemo.msg; Unlisted SpecDemo.p] in
  let l2 := [Bounced SpecDemo.p SpecDemo.msg] in
  delivered_to SpecDemo.p l2 = [] ∧ taken_by SpecDemo.p l2 = [] ∧ actors SpecDemo.late !! SpecDemo.p = None ∧
  user_of (taken_by SpecDemo.p lb) `prefix_of` user_of (delivered_to SpecDemo.p lb) ∧
  (JoinOk = JoinOk → Unlisted SpecDemo.p ∈ lb ∧ sys_of (taken_by SpecDemo.p lb) = sys_of (delivered_to SpecDemo.p lb)).
Proof.
  apply (nothing_after_the_end [] SpecDemo.p HandlerLoop [Delivered SpecDemo.p SpecDemo.msg; Received SpecDemo.p SpecDemo.msg;
    Unlisted SpecDemo.p] JoinOk [Bounced SpecDemo.p SpecDemo.msg] SpecDemo.late);
    [apply spec_demo_ended|done|by repeat constructor|by repeat constructor].
Defined.
