(* ===== verification/Liveness.v ===== *)
(** * What happens in the end ([src/src/lib.rs])

    Infinite executions of the runtime in which other calls and tasks interleave
    freely, and the scheduler is weakly fair to the loop of an actor or to a
    clean-up: when the task can go on, it gets a turn or becomes unable to. The
    file shows that a built-in loop handles what is queued for it, that a stream
    of system messages is the only thing that can keep user messages waiting,
    and that a stopped actor ends and gives its PID back. *)
From S2P Require Import Prelude Pid Mailbox Registry Supervisor Runtime RuntimeInv Lifecycle ActorSpec.

(** ** The abstract node, from a time at which an actor runs *)
Section since.
Implicit Types (p : Pid) (q : AbsMailbox) (evs : list actor_event) (n : Node).

(** The actor of [p] has ended. *)
Definition over p evs : Prop := ∃ res, Ended p res ∈ evs.

(** What the events since a loop had [q] queued say of its phase: it is over,
    or it took a part of [q] and of what was delivered, oldest first, system
    messages first, and has the rest queued. *)
Definition since p (l : bool) q evs (ph : option Phase) : Prop :=
  over p evs ∨ ∃ k l' q', ph = Some (Running k l' q') ∧ k ≠ UserBody ∧
    a_sys q ++ sys_of (delivered_to p evs) = sys_of (taken_by p evs) ++ a_sys q' ∧
    a_user q ++ user_of (delivered_to p evs) = user_of (taken_by p evs) ++ a_user q' ∧
    (user_of (taken_by p evs) = [] ∨ a_sys q `prefix_of` sys_of (taken_by p evs)) ∧
    (l = false → l' = false ∧ delivered_to p evs = []).

Lemma over_app p l1 l2 : over p (l1 ++ l2) ↔ over p l1 ∨ over p l2.
Proof. unfold over. setoid_rewrite elem_of_app. naive_solver. Qed.

Lemma over_one p res : over p [Ended p res].
Proof. exists res. by left. Qed.

(** An event that moves no message of [p] and leaves its phase alone. *)
Lemma since_silent p l q evs ev ph : silent p ev → since p l q evs ph → since p l q (evs ++ [ev]) ph.
Proof.
  intros [Hd Ht] [Ho|(k & l' & q' & Hp & H)]; [left; apply over_app; by left|right].
  exists k, l', q'. split; [done|]. by rewrite delivered_to_app, taken_by_app, Hd, Ht, !app_nil_r.
Qed.

Lemma since_deliver p l q evs msg k q' : since p l q evs (Some (Running k true q')) →
  since p l q (evs ++ [Delivered p msg]) (Some (Running k true (abs_push msg q'))).
Proof.
  intros [Ho|(k' & l' & q1 & [= <- <- <-] & Hk & Hs & Hu & Hf & Hl)]; [left; apply over_app; by left|right].
  exists k, true, (abs_push msg q'). rewrite delivered_to_app, taken_by_app. cbn. rewrite decide_True, app_nil_r by done.
  rewrite sys_of_app, user_of_app, !(assoc_L (++)), Hs, Hu. split_and!; try done. intros Hf'. by destruct (Hl Hf').
Qed.

Lemma since_receive p l q evs msg k l' q1 q2 : abs_recv q1 = Some (msg, q2) →
  since p l q evs (Some (Running k l' q1)) → since p l q (evs ++ [Received p msg]) (Some (Running k l' q2)).
Proof.
  intros Hr [Ho|(k' & l1 & q' & [= <- <- <-] & Hk & Hs & Hu & Hf & Hl)]; [left; apply over_app; by left|right].
  exists k, l', q2. rewrite delivered_to_app, taken_by_app. cbn. rewrite decide_True, app_nil_r by done.
  destruct (abs_recv_order _ _ _ Hr) as [Hos Hou].
  rewrite sys_of_app, user_of_app, Hs, Hu, Hos, Hou, !(assoc_L (++)). split_and!; try done.
  destruct q1 as [[|s sq] uq]; cbn in *.
  - right. rewrite app_nil_r in Hs. rewrite <-Hs, <-(assoc_L (++)). by eexists.
  - injection Hr as <- <-. cbn. rewrite app_nil_r. destruct Hf as [Hf|Hf]; [by left|right]. by apply prefix_app_r.
Qed.

Lemma since_run p k l q n evs n' : node_run n evs n' → n !! p = Some (Running k l q) → k ≠ UserBody →
  since p l q evs (n' !! p).
Proof.
  intros H Hp Hk. induction H as [n|n evs n1 ev n2 _ IH Hs].
  - right. exists k, l, q. cbn. rewrite !app_nil_r. split_and!; try done. by left.
  - specialize (IH Hp). clear Hp.
    destruct Hs as [r k' Hq|r msg k' a Hq|r msg Hq|r msg k' l' a a' Hq Hr|r msg f l' a a' Hq Hr|r k' a Hq|r Hq|r k' l' a res Hq Hm|r Hq];
      (destruct (decide (r = p)) as [->|Hne];
        [rewrite ?lookup_insert_eq, ?lookup_delete_eq; try rewrite Hq in IH|
         rewrite ?lookup_insert_ne, ?lookup_delete_ne by done;
         apply since_silent; [split; cbn; by rewrite ?decide_False|done]]).
    + destruct IH as [Ho|(? & ? & ? & ? & _)]; [left; apply over_app; by left|done].
    + by apply since_deliver.
    + by apply since_silent.
    + by eapply since_receive.
    + destruct IH as [Ho|(? & ? & ? & [= <- <- <-] & Hk' & _)]; [left; apply over_app; by left|done].
    + apply since_silent; [done|]. destruct IH as [Ho|(k1 & l1 & q1 & [= <- <- <-] & H)]; [by left|right].
      exists k', false, a. split; [done|]. naive_solver.
    + destruct IH as [Ho|(? & ? & ? & ? & _)]; [left; apply over_app; by left|done].
    + left. apply over_app. right. apply over_one.
    + destruct IH as [Ho|(? & ? & ? & ? & _)]; [left; apply over_app; by left|done].
Qed.
End since.

Lemma taken_length (l : list Message) : length l = (length (sys_of l) + length (user_of l))%nat.
Proof. induction l as [|[b|s] l IH]; simpl; [done|..]; unfold sys_of, user_of in *; simpl; lia. Qed.

(** Two ways to cut a list, the second one later. *)
Lemma prefix_app_ge {X} (a b c d : list X) : a ++ b = c ++ d → (length a <= length c)%nat → a `prefix_of` c.
Proof.
  intros E H. destruct (app_eq_inv _ _ _ _ E) as [(e & -> & _)|(e & -> & _)]; [|by eexists].
  rewrite length_app in H. destruct e; [by rewrite app_nil_r|simpl in H; lia].
Qed.

(** ** Executions *)
Section liveness.
Context {F A : Type} `{PA : PidAllocator A}.
Implicit Types (rt : Runtime F A) (p : Pid) (e : ExitTask).

(** One turn of the loop of a built-in actor; [pn] is how the user's handler
    ends. *)
Definition loop_turn p (pn : option string) rt : Runtime F A * list actor_event :=
  match actors rt !! p with
  | Some Observed => (observed_turn p rt, observed_events p rt)
  | _ => (fst (handler_turn p pn rt), handler_events p pn rt)
  end.

(** Whose turn a step is. *)
Inductive owner := OfLoop (p : Pid) | OfExit (i : nat) | OfOther.

#[export] Instance owner_eq_dec : EqDecision owner.
Proof. solve_decision. Defined.

Inductive rt_move : owner → Runtime F A → list actor_event → Runtime F A → Prop :=
| mv_loop p pn rt : rt_move (OfLoop p) rt (snd (loop_turn p pn rt)) (fst (loop_turn p pn rt))
| mv_exit i rt : rt_move (OfExit i) rt (exit_events i rt) (exits_turn i rt)
| mv_other rt evs rt' : rt_labelled rt evs rt' → rt_move OfOther rt evs rt'.

(** Whether a task can go on: a loop when its receive answers, a clean-up until
    it is done. *)
Definition enabled (o : owner) rt : Prop :=
  match o with
  | OfLoop p => (∃ k, actors rt !! p = Some k ∧ k ≠ Raw) ∧ snd (actor_recv p rt) ≠ Pending
  | OfExit i => ∃ e, exits rt !! i = Some e ∧ ex_stage e ≠ ExDone
  | OfOther => False
  end.

Record execution := mkExec { at_time : nat → Runtime F A; who : nat → owner; shown : nat → list actor_event }.

Definition executes (x : execution) : Prop :=
  rt_init (at_time x 0) ∧ ∀ n, rt_move (who x n) (at_time x n) (shown x n) (at_time x (S n)).

(** Weak fairness. *)
Definition fair (x : execution) (o : owner) : Prop :=
  ∀ n, enabled o (at_time x n) → ∃ m, (n <= m)%nat ∧ (who x m = o ∨ ¬ enabled o (at_time x m)).

(** The events from time [n] up to time [m]. *)
Definition events (x : execution) (n m : nat) : list actor_event := concat (shown x <$> seq n (m - n)).

Lemma events_S x n m : (n <= m)%nat → events x n (S m) = events x n m ++ shown x m.
Proof.
  intros H. unfold events. rewrite Nat.sub_succ_l, seq_S, fmap_app, concat_app by done. simpl.
  rewrite app_nil_r. repeat f_equal. lia.
Qed.

Lemma events_split x n m j : (n <= m <= j)%nat → events x n j = events x n m ++ events x m j.
Proof.
  intros H. unfold events. replace (j - n)%nat with ((m - n) + (j - m))%nat by lia.
  rewrite seq_app, fmap_app, concat_app. repeat f_equal. lia.
Qed.

Lemma events_refl x n : events x n n = [].
Proof. unfold events. by rewrite Nat.sub_diag. Qed.

Lemma move_labelled o rt evs rt' : rt_move o rt evs rt' → rt_labelled rt evs rt'.
Proof.
  intros [p pn rt1|i rt1|rt1 evs1 rt1' H]; [|constructor|done].
  unfold loop_turn. destruct (actors rt1 !! p) as [[| |]|] eqn:E; simpl; by constructor.
Qed.

Lemma exec_trace x n : executes x → rt_trace (events x 0 n) (at_time x n).
Proof.
  intros [Hi Hm]. induction n as [|n IH]; [rewrite events_refl, Hi; constructor|].
  rewrite events_S by lia. eapply tr_step; [done|]. by eapply move_labelled.
Qed.

Lemma exec_inv x n : executes x → rt_inv (at_time x n).
Proof. intros H. eapply rt_reachable_inv, rt_trace_reachable, exec_trace, H. Qed.

Lemma exec_simulated x n m nd : executes x → (n <= m)%nat → implements (at_time x n) nd →
  ∃ nd', node_run nd (events x n m) nd' ∧ implements (at_time x m) nd'.
Proof.
  intros Hx Hle Hn. induction Hle as [|m Hle (nd1 & Hr & Hi)].
  - exists nd. rewrite events_refl. split; [constructor|done].
  - destruct (labelled_simulated _ _ _ (exec_inv x m Hx) (move_labelled _ _ _ _ (proj2 Hx m)) nd1 Hi) as (nd2 & Hr2 & Hi2).
    exists nd2. rewrite events_S by done. split; [by eapply node_run_app|done].
Qed.

(** The phase of a loop at a later time. *)
Lemma exec_since x n m p k mb : executes x → (n <= m)%nat →
  actors (at_time x n) !! p = Some k → k ≠ Raw → boxes (at_time x n) !! p = Some mb →
  since p (bool_decide (p ∈ mailboxes (at_time x n))) (abs mb) (events x n m) (phase (at_time x m) p).
Proof.
  intros Hx Hle Hk Hraw Hmb. destruct (trace_implements _ _ (exec_trace x n Hx)) as (nd & _ & Hnd).
  destruct (exec_simulated x n m nd Hx Hle Hnd) as (nd' & Hr & Hi). rewrite <-Hi.
  eapply since_run; [done|rewrite Hnd; by apply phase_running|by destruct k].
Qed.

(** ** Turns of a loop *)
Lemma recv_pending m m' : recv m = (m', Pending) → abs m = abs_empty ∧ senders m ≠ 0%nat.
Proof.
  intros E. destruct (recv_viewP m) as [l1 s l2 _ _ Er _|s q _ _ Er _|b st _ _ _ Er _|Est Es Er _];
    rewrite Er in E; try done.
  unfold recv_select in E. unfold abs. rewrite Es, Est in *. simpl.
  destruct (senders m); simpl in E; repeat split_match; try done.
Qed.

Lemma actor_recv_snd p rt mb : boxes rt !! p = Some mb → snd (actor_recv p rt) = snd (recv mb).
Proof. intros H. by rewrite (actor_recv_box p mb). Qed.

(** A turn of a loop that can go on takes a message or ends the actor. *)
Lemma loop_turn_takes p pn rt k mb : actors rt !! p = Some k → k ≠ Raw → boxes rt !! p = Some mb →
  snd (recv mb) ≠ Pending →
  over p (snd (loop_turn p pn rt)) ∨ length (taken_by p (snd (loop_turn p pn rt))) = 1%nat.
Proof.
  intros Hk Hraw Hmb Hr. unfold loop_turn. rewrite Hk. destruct k as [|b c|]; [done|..];
    unfold handler_events, observed_events; cbn [snd]; rewrite ?Hk, (actor_recv_snd p rt mb) by done;
    destruct (recv mb) as [m' [[msg|]|]]; cbn [snd] in *; try done; try (left; apply over_one).
  - destruct pn as [d|]; [left; exists (JoinErr true d); by right; left|right; cbn; by rewrite decide_True].
  - right. cbn. by rewrite decide_True.
Qed.

Definition taken_count (x : execution) p (n m : nat) : nat := length (taken_by p (events x n m)).

Lemma taken_count_mono x p n m j : (n <= m <= j)%nat → (taken_count x p n m <= taken_count x p n j)%nat.
Proof. intros H. unfold taken_count. rewrite (events_split x n m j), taken_by_app, length_app by done. lia. Qed.

Lemma over_mono x p n m j : (n <= m <= j)%nat → over p (events x n m) → over p (events x n j).
Proof. intros H Ho. rewrite (events_split x n m j) by done. apply over_app. by left. Qed.

Section one_loop.
Context (x : execution) (p : Pid) (n : nat) (k : ActorKind) (mb : Mailbox).
Context (Hx : executes x) (Hfair : fair x (OfLoop p)).
Context (Hk : actors (at_time x n) !! p = Some k) (Hraw : k ≠ Raw) (Hmb : boxes (at_time x n) !! p = Some mb).

(** At time [m] the loop still runs, and has [q'] queued. *)
Definition still (m : nat) (q' : AbsMailbox) : Prop :=
  ∃ k' mb', actors (at_time x m) !! p = Some k' ∧ k' ≠ Raw ∧ boxes (at_time x m) !! p = Some mb' ∧ abs mb' = q' ∧
    a_sys (abs mb) ++ sys_of (delivered_to p (events x n m)) = sys_of (taken_by p (events x n m)) ++ a_sys q' ∧
    a_user (abs mb) ++ user_of (delivered_to p (events x n m)) = user_of (taken_by p (events x n m)) ++ a_user q' ∧
    (user_of (taken_by p (events x n m)) = [] ∨ a_sys (abs mb) `prefix_of` sys_of (taken_by p (events x n m))) ∧
    (p ∉ mailboxes (at_time x n) → (p ∉ mailboxes (at_time x m)) ∧ delivered_to p (events x n m) = []).

Lemma over_or_still m : (n <= m)%nat → over p (events x n m) ∨ ∃ q', still m q'.
Proof.
  intros Hle. destruct (exec_since x n m p k mb Hx Hle Hk Hraw Hmb) as [Ho|(kb & l' & q' & Hp & Hkb & H1 & H2 & H3 & H4)];
    [by left|right]. exists q'.
  unfold phase in Hp. destruct (actors (at_time x m) !! p) as [k'|] eqn:Hk'; [|by destruct (ending p _)].
  destruct (boxes (at_time x m) !! p) as [mb'|] eqn:Hmb'; [|done]. injection Hp as <- <- <-.
  exists k', mb'. split_and!; try done; [by destruct k'|]. rewrite !bool_decide_eq_false in H4. exact H4.
Qed.

(** A later time at which the actor is over, has taken one more message, or
    waits with nothing queued. *)
Lemma next_turn m : (n <= m)%nat → ∃ j, (m <= j)%nat ∧
  (over p (events x n j) ∨ (taken_count x p n m < taken_count x p n j)%nat ∨
   still j abs_empty ∧ p ∈ mailboxes (at_time x j)).
Proof.
  intros Hle.
  assert (Hcan : ∀ j, (n <= j)%nat → over p (events x n j) ∨ (still j abs_empty ∧ p ∈ mailboxes (at_time x j)) ∨
    ∃ k' mb', actors (at_time x j) !! p = Some k' ∧ k' ≠ Raw ∧ boxes (at_time x j) !! p = Some mb' ∧ snd (recv mb') ≠ Pending).
  { intros j Hj. destruct (over_or_still j Hj) as [Ho|[q' Hq]]; [by left|right].
    assert (Hq' := Hq). destruct Hq as (k' & mb' & Hk' & Hr' & Hb & Ha & _).
    destruct (recv mb') as [m1 r] eqn:E. destruct r as [o|]; [right; exists k', mb'; by rewrite E|left].
    destruct (recv_pending _ _ E) as [He Hs]. split; [congruence|].
    destruct (inv_actor _ (exec_inv x j Hx) p) as (m2 & Hm2 & _ & Hn); [by eexists|].
    destruct (decide (p ∈ mailboxes (at_time x j))); [done|]. destruct Hs. rewrite <-Hn by done. congruence. }
  destruct (Hcan m Hle) as [Ho|[Hq|(k1 & b1 & Hk1 & Hr1 & Hb1 & Hp1)]]; [exists m; auto..|].
  destruct (Hfair m) as (j & Hj & Hw).
  { split; [by exists k1|]. by rewrite (actor_recv_snd p _ b1). }
  destruct (Hcan j) as [Ho|[Hq|(k2 & b2 & Hk2 & Hr2 & Hb2 & Hp2)]]; [lia|exists j; auto..|].
  destruct Hw as [Hw|Hw]; [|destruct Hw; split; [by exists k2|by rewrite (actor_recv_snd p _ b2)]].
  exists (S j). split; [lia|]. assert (Hmv := proj2 Hx j). rewrite Hw in Hmv.
  assert (Ht : over p (shown x j) ∨ length (taken_by p (shown x j)) = 1%nat).
  { inversion Hmv as [p' pn rt Hp' Hrt Hev Hnext| |]; subst. by eapply loop_turn_takes. }
  rewrite events_S by lia. destruct Ht as [Ho|Ht]; [left; apply over_app; by right|right; left].
  assert (Hmono := taken_count_mono x p n m j). unfold taken_count in *.
  rewrite events_S, taken_by_app, length_app, Ht by lia. lia.
Qed.

(** So it takes any number of messages, or is over, or has been idle. *)
Lemma takes_many c : ∃ j, (n <= j)%nat ∧
  (over p (events x n j) ∨ (c <= taken_count x p n j)%nat ∨ still j abs_empty ∧ p ∈ mailboxes (at_time x j)).
Proof.
  induction c as [|c (j & Hj & [Ho|[Hc|Hq]])]; [exists n; split; [done|]; right; left; lia|exists j; auto| |exists j; auto].
  destruct (next_turn j Hj) as (j' & Hj' & [Ho|[Ht|Hq]]); exists j'; split; try lia; auto.
Qed.
End one_loop.

(** ** Turns of a clean-up *)
Definition exits_grow rt rt' : Prop :=
  exits rt' = exits rt ∨ ∃ p res, exits rt' = exits rt ++ [mkExit p res ExRemoveMailbox].

Lemma exits_grow_done p res rt rt' : exits rt' = exits rt → exits_grow rt (actor_done p res rt').
Proof. intros E. right. exists p, res. simpl. by rewrite E. Qed.

Lemma actor_recv_exits p rt : exits (fst (actor_recv p rt)) = exits rt.
Proof. apply shape_actor_recv. Qed.

Lemma exits_grow_observed p rt : exits_grow rt (observed_turn p rt).
Proof.
  assert (Hr := actor_recv_exits p rt). unfold observed_turn.
  destruct (actor_recv p rt) as [rt' [[msg|]|]]; simpl in Hr; [by left|by apply exits_grow_done|by left].
Qed.

Lemma exits_grow_handler p pn rt : exits_grow rt (fst (handler_turn p pn rt)).
Proof.
  assert (Hr := actor_recv_exits p rt). unfold handler_turn. destruct (actors rt !! p) as [[]|]; try by left.
  destruct (actor_recv p rt) as [rt' [[msg|]|]]; simpl in Hr; [destruct pn| |]; simpl; try (by apply exits_grow_done); by left.
Qed.

(** A step leaves the clean-ups as they are, starts one, or is a turn of one. *)
Lemma labelled_exits rt evs rt' : rt_labelled rt evs rt' →
  exits_grow rt rt' ∨ ∃ i, evs = exit_events i rt ∧ rt' = exits_turn i rt.
Proof.
  intros Hs. assert (Hsh : ∀ rt', same_shape rt rt' → exits_grow rt rt') by (intros rt1 H; left; apply H).
  destruct Hs as [k rt rt' p Hr Hs|p msg rt rt' r Hs|p ptr rt|p rt| | |id f rt Hf|id p rt|path rt| |p f rt| |p rt|p pn rt|
    p m m' evs rt Ha Hm Hc|p res rt Ha|j rt|j r rt]; try (by left; left); [..|by right; exists j|]; left.
  - apply spawn_fields in Hs as (_ & _ & He & _). by left.
  - apply (f_equal fst) in Hs. simpl in Hs. subst rt'. apply Hsh, shape_send.
  - apply Hsh, shape_hot_swap.
  - left. apply stop_exits.
  - apply Hsh, shape_notify.
  - apply Hsh, shape_create_path.
  - apply Hsh, shape_take.
  - apply exits_grow_observed.
  - apply exits_grow_handler.
  - by apply exits_grow_done.
  - apply Hsh, shape_restart.
Qed.

Lemma exits_turn_other i j rt : j ≠ i → exits (exits_turn j rt) !! i = exits rt !! i.
Proof.
  intros Hne. destruct (exits rt !! j) as [ej|] eqn:Ej; [|unfold exits_turn; by rewrite Ej].
  rewrite (exits_turn_stage j ej rt Ej), exit_turn_exits. simpl. by rewrite list_lookup_insert_ne.
Qed.

(** A step leaves the [i]-th clean-up as it is, or is its turn. *)
Lemma labelled_exit i e rt evs rt' : rt_labelled rt evs rt' → exits rt !! i = Some e →
  exits rt' !! i = Some e ∨ evs = exit_events i rt ∧ rt' = exits_turn i rt.
Proof.
  intros [[E|(p & res & E)]|(j & -> & ->)]%labelled_exits He.
  - left. by rewrite E.
  - left. rewrite E. by apply lookup_app_l_Some.
  - destruct (decide (j = i)) as [->|Hne]; [by right|left]. by rewrite exits_turn_other.
Qed.

(** A clean-up that is not done gets its turn; nothing else advances it. *)
Lemma exit_turn_comes x i e n : executes x → fair x (OfExit i) →
  exits (at_time x n) !! i = Some e → ex_stage e ≠ ExDone →
  ∃ m, (n <= m)%nat ∧ (∀ k, (n <= k <= m)%nat → exits (at_time x k) !! i = Some e) ∧
    shown x m = exit_events i (at_time x m) ∧ at_time x (S m) = exits_turn i (at_time x m).
Proof.
  intros Hx Hf He Hd. destruct (Hf n) as (m & Hle & Hw); [by exists e|].
  assert (Hor : (∀ k, (n <= k <= m)%nat → exits (at_time x k) !! i = Some e) ∨ ∃ j, (n <= j)%nat ∧
    (∀ k, (n <= k <= j)%nat → exits (at_time x k) !! i = Some e) ∧
    shown x j = exit_events i (at_time x j) ∧ at_time x (S j) = exits_turn i (at_time x j)).
  { clear Hw. induction Hle as [|m Hle [IH|IH]]; [left; intros k Hk; by replace k with n by lia| |by right].
    destruct (labelled_exit i e _ _ _ (move_labelled _ _ _ _ (proj2 Hx m)) (IH m ltac:(lia))) as [H|[H1 H2]]; [left|right; by exists m].
    intros k Hk. destruct (decide (k = S m)) as [->|]; [done|apply IH; lia]. }
  destruct Hor as [Hm|Hj]; [|done]. destruct Hw as [Hw|Hw]; [|destruct Hw; exists e; split; [apply Hm; lia|done]].
  exists m. split; [done|]. split; [done|]. assert (Hmv := proj2 Hx m). rewrite Hw in Hmv.
  by inversion Hmv as [|i' rt Hi' Hrt Hev Hnext|]; subst.
Qed.

Lemma exit_gets_turn x i e n : executes x → fair x (OfExit i) →
  exits (at_time x n) !! i = Some e → ex_stage e ≠ ExDone →
  ∃ m, (n <= m)%nat ∧ exits (at_time x m) !! i = Some e ∧ shown x m = exit_events i (at_time x m) ∧
    exits (at_time x (S m)) !! i = Some (snd (exit_turn e (at_time x m))).
Proof.
  intros Hx Hf He Hd. destruct (exit_turn_comes x i e n Hx Hf He Hd) as (m & Hle & Hk & Hs & Hn).
  exists m. assert (Hm : exits (at_time x m) !! i = Some e) by (apply Hk; lia).
  split_and!; [done|done|done|]. rewrite Hn. by apply exits_turn_at.
Qed.

(** So it goes through its stages and gives the slot back. *)
Definition frees x p (n : nat) : Prop := ∃ m, (n <= m)%nat ∧ Freed p ∈ shown x m.

Lemma exit_goes_on x i p res g n : executes x → fair x (OfExit i) →
  exits (at_time x n) !! i = Some (mkExit p res g) → g ≠ ExDone →
  (∀ m, exits (at_time x (S m)) !! i = Some (snd (exit_turn (mkExit p res g) (at_time x m))) → frees x p (S m)) →
  frees x p n.
Proof.
  intros Hx Hf He Hd Hnext. destruct (exit_gets_turn x i _ n Hx Hf He Hd) as (m & Hm & _ & _ & Hn).
  destruct (Hnext m Hn) as (j & Hj & Hfr). exists j. split; [lia|done].
Qed.

Lemma exit_frees x i p res n g : executes x → fair x (OfExit i) →
  exits (at_time x n) !! i = Some (mkExit p res g) → holds_slot g = true → frees x p n.
Proof.
  intros Hx Hf.
  assert (Hdone : ∀ n, exits (at_time x n) !! i = Some (mkExit p res ExDeallocate) → frees x p n).
  { intros n0 He. destruct (exit_gets_turn x i _ n0 Hx Hf He) as (m & Hm & Hat & Hsh & Hn); [done|].
    exists m. split; [done|]. rewrite Hsh. unfold exit_events. rewrite Hat. by left. }
  assert (Hpaths : ∀ ids n, exits (at_time x n) !! i = Some (mkExit p res (ExNotifyPaths ids)) → frees x p n).
  { induction ids as [|id ids IH]; intros n0 He; apply (exit_goes_on x i p res _ n0 Hx Hf He); try done;
      intros m Hn; [by apply Hdone|by apply IH]. }
  assert (Hnotify : ∀ n, exits (at_time x n) !! i = Some (mkExit p res ExNotify) → frees x p n).
  { intros n0 He. apply (exit_goes_on x i p res _ n0 Hx Hf He); [done|]. intros m Hn. exact (Hpaths _ _ Hn). }
  intros He Hh. destruct g as [| |ids| | | |]; try done; eauto.
  apply (exit_goes_on x i p res _ n Hx Hf He); [done|]. intros m Hn. by apply Hnotify.
Qed.

(** The event that ends an actor starts its clean-up. *)
Lemma done_starts_exit p res rt : ∃ i, exits (actor_done p res rt) !! i = Some (mkExit p res ExRemoveMailbox).
Proof. exists (length (exits rt)). simpl. by rewrite lookup_app_r, Nat.sub_diag. Qed.

Lemma ended_starts_exit p res rt evs rt' : rt_labelled rt evs rt' → Ended p res ∈ evs →
  ∃ i, exits rt' !! i = Some (mkExit p res ExRemoveMailbox).
Proof.
  intros Hs Hin.
  destruct Hs as [k rt rt' p' Hr Hs|p' msg rt rt' r Hs|p' ptr rt|p' rt| | |id f rt Hf|id p' rt|path rt| |p' f rt| |p' rt Ho|
    p' pn rt|p' m m' evs rt Ha Hm Hc|p' res' rt Ha|j rt|j r rt]; try (by apply elem_of_nil in Hin).
  - apply list_elem_of_singleton in Hin. done.
  - apply list_elem_of_singleton in Hin. by destruct r.
  - unfold hot_swap_events in Hin. case_decide; [|by apply elem_of_nil in Hin].
    apply list_elem_of_singleton in Hin. by destruct (snd _).
  - unfold stop_events in Hin. case_decide; [by apply list_elem_of_singleton in Hin|by apply elem_of_nil in Hin].
  - unfold observed_events in Hin. unfold observed_turn. destruct (actor_recv p' rt) as [rt1 [[msg|]|]]; simpl in Hin;
      [by apply list_elem_of_singleton in Hin| |by apply elem_of_nil in Hin].
    apply list_elem_of_singleton in Hin. injection Hin as -> ->. apply done_starts_exit.
  - unfold handler_events in Hin. unfold handler_turn. destruct (actors rt !! p') as [[|b c|]|]; try by apply elem_of_nil in Hin.
    destruct (actor_recv p' rt) as [rt1 [[msg|]|]]; simpl in Hin; [destruct pn| |by apply elem_of_nil in Hin].
    + apply elem_of_cons in Hin as [?|Hin]; [done|]. apply list_elem_of_singleton in Hin. injection Hin as -> ->. apply done_starts_exit.
    + by apply list_elem_of_singleton in Hin.
    + destruct pn; apply list_elem_of_singleton in Hin; injection Hin as -> ->; apply done_starts_exit.
  - destruct Hc; (by apply elem_of_nil in Hin) || (by apply list_elem_of_singleton in Hin).
  - apply list_elem_of_singleton in Hin. injection Hin as -> ->. apply done_starts_exit.
  - unfold exit_events in Hin. destruct (exits rt !! j) as [e|]; [|by apply elem_of_nil in Hin].
    destruct (ex_stage e) as [| |ids| | |[|lp l]|]; try by apply elem_of_nil in Hin.
    + unfold stop_events in Hin. case_decide; [by apply list_elem_of_singleton in Hin|by apply elem_of_nil in Hin].
    + by apply list_elem_of_singleton in Hin.
    + apply list_elem_of_singleton in Hin. by destruct (snd _).
Qed.

Lemma over_freed x p n j : executes x → (∀ i, fair x (OfExit i)) → (n <= j)%nat → over p (events x n j) → frees x p n.
Proof.
  intros Hx Hf Hle [res Hin]. unfold events in Hin.
  apply list_elem_of_In, in_concat in Hin as (evs & Hevs & Hin).
  apply list_elem_of_In, list_elem_of_fmap in Hevs as (t & -> & Ht%elem_of_seq). apply list_elem_of_In in Hin.
  destruct (ended_starts_exit p res _ _ _ (move_labelled _ _ _ _ (proj2 Hx t)) Hin) as [i Hi].
  destruct (exit_frees x i p res _ _ Hx (Hf i) Hi eq_refl) as (m & Hm & Hfr). exists m. split; [lia|done].
Qed.

(** ** Properties *)

(** C9: Everything queued for a built-in loop is handled, or its actor ends: in an
    execution that is fair to the loop the system messages always, whatever
    arrives meanwhile, and the user messages when only finitely many system
    messages arrive. *)
Theorem queued_messages_are_handled (x : execution) p n k mb :
  executes x → fair x (OfLoop p) →
  actors (at_time x n) !! p = Some k → k ≠ Raw → boxes (at_time x n) !! p = Some mb →
  (∃ j, (n <= j)%nat ∧ (over p (events x n j) ∨ a_sys (abs mb) `prefix_of` sys_of (taken_by p (events x n j)))) ∧
  ∀ d, (∀ j, (length (sys_of (delivered_to p (events x n j))) <= d)%nat) →
    ∃ j, (n <= j)%nat ∧ (over p (events x n j) ∨
      a_sys (abs mb) `prefix_of` sys_of (taken_by p (events x n j)) ∧
      a_user (abs mb) `prefix_of` user_of (taken_by p (events x n j))).
Proof.
  intros Hx Hf Hk Hraw Hmb. split.
  - destruct (takes_many x p n k mb Hx Hf Hk Hraw Hmb (length (a_sys (abs mb)))) as (j & Hj & [Ho|[Hc|[Hq _]]]); [eauto..|].
    + exists j. split; [done|].
      destruct (over_or_still x p n k mb Hx Hk Hraw Hmb j Hj) as [Ho|(q' & _ & _ & _ & _ & _ & _ & Hs & _ & [Hu|Hp] & _)]; [auto| |auto].
      right. apply (prefix_app_ge _ (sys_of (delivered_to p (events x n j))) _ (a_sys q')); [done|].
      unfold taken_count in Hc. by rewrite (taken_length (taken_by p (events x n j))), Hu, Nat.add_0_r in Hc.
    + exists j. split; [done|right]. destruct Hq as (_ & _ & _ & _ & _ & _ & Hs & _). cbn in Hs. rewrite app_nil_r in Hs.
      rewrite <-Hs. by eexists.
  - intros d Hd. set (c := (length (a_sys (abs mb)) + d + length (a_user (abs mb)))%nat).
    destruct (takes_many x p n k mb Hx Hf Hk Hraw Hmb c) as (j & Hj & [Ho|[Hc|[Hq _]]]); [eauto..|].
    + exists j. split; [done|].
      destruct (over_or_still x p n k mb Hx Hk Hraw Hmb j Hj) as [Ho|(q' & _ & _ & _ & _ & _ & _ & Hs & Hu & Hf' & _)]; [auto|right].
      unfold taken_count in Hc. rewrite (taken_length (taken_by p (events x n j))) in Hc. specialize (Hd j).
      assert (Hls := f_equal length Hs). rewrite !length_app in Hls. split.
      * destruct Hf' as [Hf'|Hf']; [|done]. rewrite Hf' in Hc. simpl in Hc. apply (prefix_app_ge _ _ _ _ Hs). lia.
      * apply (prefix_app_ge _ _ _ _ Hu). lia.
    + exists j. split; [done|right]. destruct Hq as (_ & _ & _ & _ & _ & _ & Hs & Hu & _). cbn in Hs, Hu.
      rewrite app_nil_r in Hs, Hu. rewrite <-Hs, <-Hu. split; by eexists.
Qed.

(** C10: A built-in actor that has been stopped ends, and its PID is freed, in every
    execution that is fair to its loop and to the clean-ups. *)
Theorem stopped_actor_is_freed (x : execution) p n k :
  executes x → fair x (OfLoop p) → (∀ i, fair x (OfExit i)) →
  actors (at_time x n) !! p = Some k → k ≠ Raw → p ∉ mailboxes (at_time x n) →
  ∃ j, (n <= j)%nat ∧ over p (events x n j) ∧ frees x p n.
Proof.
  intros Hx Hf Hfe Hk Hraw Hm.
  destruct (inv_actor _ (exec_inv x n Hx) p) as (mb & Hmb & _); [by eexists|].
  destruct (takes_many x p n k mb Hx Hf Hk Hraw Hmb (length (a_sys (abs mb)) + length (a_user (abs mb)) + 1)) as (j & Hj & H).
  assert (Ho : over p (events x n j)).
  { destruct (over_or_still x p n k mb Hx Hk Hraw Hmb j Hj) as [Ho|(q' & _ & _ & _ & _ & _ & _ & Hs & Hu & _ & Hl)]; [done|].
    destruct (Hl Hm) as [Hm' Hd]. rewrite Hd in Hs, Hu.
    change (sys_of []) with (@nil SystemMessage) in Hs. change (user_of []) with (@nil Bytes) in Hu. rewrite app_nil_r in Hs, Hu.
    destruct H as [Ho|[Hc|[_ Hin]]]; [done| |done]. unfold taken_count in Hc.
    rewrite taken_length in Hc. apply (f_equal length) in Hs, Hu. rewrite length_app in Hs, Hu. lia. }
  exists j. split; [done|]. split; [done|]. by eapply over_freed.
Qed.
End liveness.

(** ** Executions in full *)
Module LiveDemo.
Abbreviation R := (Runtime unit SlabAllocator).

Definition p : Pid := Demo.a.

Definition msg : Message := User [Byte.x61].

(** A handler is spawned and handles a message, is stopped, ends, and its
    clean-up runs; then nothing happens any more. *)
Definition states : list R :=
  [Demo.start; SpecDemo.s1; SpecDemo.s2; SpecDemo.s3; SpecDemo.s4] ++
  ((λ n, Nat.iter n (exits_turn 0) SpecDemo.s5) <$> seq 0 7).

Definition final : R := Nat.iter 6 (exits_turn 0) SpecDemo.s5.

Definition whole_at (n : nat) : R := nth n states final.

Definition whole : execution := mkExec whole_at
  (λ n, match n with 0 | 1 | 3 => OfOther | 2 | 4 => OfLoop p | _ => OfExit 0 end%nat)
  (λ n, match n with
        | 0 => [Spawned p HandlerLoop]
        | 1 => [Delivered p msg]
        | 2 | 4 => handler_events p None (whole_at n)
        | 3 => stop_events p (whole_at n)
        | _ => exit_events 0 (whole_at n)
        end%nat).

(** A handler with a message from a user, and somebody who sends it a system
    message before each of its turns. *)
Definition swapped : R := hot_swap p 9 SpecDemo.s2.

Definition starved : execution := mkExec
  (λ n, match n with 0 => Demo.start | 1 => SpecDemo.s1 | _ => if Nat.even n then SpecDemo.s2 else swapped end%nat)
  (λ n, match n with 0 | 1 => OfOther | _ => if Nat.even n then OfOther else OfLoop p end%nat)
  (λ n, match n with
        | 0 => [Spawned p HandlerLoop]
        | 1 => [Delivered p msg]
        | _ => if Nat.even n then [Delivered p (System (HotSwap 9))] else [Received p (System (HotSwap 9))]
        end%nat).
End LiveDemo.

Lemma demo_whole_end n : LiveDemo.whole_at (11 + n) = LiveDemo.final.
Proof. unfold LiveDemo.whole_at. destruct n as [|n]; [done|]. apply nth_overflow. simpl. lia. Qed.

Lemma demo_whole_still : exits_turn 0 LiveDemo.final = LiveDemo.final.
Proof. by vm_compute. Qed.

Lemma demo_whole_succ n : LiveDemo.whole_at (S (5 + n)) = exits_turn 0 (LiveDemo.whole_at (5 + n)).
Proof.
  destruct (decide (n < 6)%nat) as [Hn|Hn]; [do 6 (destruct n as [|n]; [by vm_compute|]); lia|].
  replace (S (5 + n)) with (11 + (S n - 6))%nat by lia. replace (5 + n)%nat with (11 + (n - 6))%nat by lia.
  by rewrite !demo_whole_end, demo_whole_still.
Qed.

Lemma demo_whole_executes : executes LiveDemo.whole.
Proof.
  split; [done|]. intros [|[|[|[|[|n]]]]].
  - apply mv_other. by apply (lb_spawn (Handler 1 0)).
  - apply mv_other. by apply (lb_send LiveDemo.p LiveDemo.msg _ _ (Ok tt)).
  - exact (mv_loop LiveDemo.p None SpecDemo.s2).
  - apply mv_other. exact (lb_stop LiveDemo.p SpecDemo.s3).
  - exact (mv_loop LiveDemo.p None SpecDemo.s4).
  - change (rt_move (OfExit 0) (LiveDemo.whole_at (5 + n)) (exit_events 0 (LiveDemo.whole_at (5 + n)))
      (LiveDemo.whole_at (S (5 + n)))). rewrite demo_whole_succ. exact (mv_exit 0 (LiveDemo.whole_at (5 + n))).
Qed.

Lemma demo_whole_fair o : fair LiveDemo.whole o.
Proof.
  intros n _. exists (n + 11)%nat. split; [lia|right].
  assert (E : at_time LiveDemo.whole (n + 11) = LiveDemo.final)
    by (unfold LiveDemo.whole; cbn [at_time]; rewrite Nat.add_comm; apply demo_whole_end).
  rewrite E. clear E. destruct o as [q|i|]; [| |by intros []].
  - intros [(k & Hk & _) _].
    assert (H : actors LiveDemo.final = ∅) by by vm_compute. rewrite H, lookup_empty in Hk. discriminate Hk.
  - intros (e & He & Hd).
    assert (H : exits LiveDemo.final = [mkExit LiveDemo.p JoinOk ExDone]) by by vm_compute.
    rewrite H in He. destruct i as [|i]; [|discriminate He]. injection He as <-. by apply Hd.
Qed.

Lemma starved_states n : at_time LiveDemo.starved n ∈ [Demo.start; SpecDemo.s1; SpecDemo.s2; LiveDemo.swapped].
Proof. destruct n as [|[|n]]; cbn [LiveDemo.starved at_time]; [set_solver..|]. destruct (Nat.even _); set_solver. Qed.

Lemma starved_executes : executes LiveDemo.starved.
Proof.
  split; [done|]. intros [|[|n]].
  - apply mv_other. by apply (lb_spawn (Handler 1 0)).
  - apply mv_other. by apply (lb_send LiveDemo.p LiveDemo.msg _ _ (Ok tt)).
  - assert (H : loop_turn LiveDemo.p None LiveDemo.swapped = (SpecDemo.s2, [Received LiveDemo.p (System (HotSwap 9))]))
      by by vm_compute.
    assert (Hm := mv_loop LiveDemo.p None LiveDemo.swapped). rewrite H in Hm.
    assert (Hs := mv_other _ _ _ (lb_hot_swap LiveDemo.p 9 SpecDemo.s2)).
    unfold LiveDemo.starved. cbn [at_time who shown]. rewrite (Nat.even_succ (S (S n))), <-Nat.negb_even.
    by destruct (Nat.even (S (S n))).
Qed.

Lemma starved_fair o : fair LiveDemo.starved o.
Proof.
  intros n He. assert (Ho : o = OfLoop LiveDemo.p).
  { assert (Hn := starved_states n). revert Hn He. generalize (at_time LiveDemo.starved n). intros rt Hrt He.
    assert (Hex : exits rt = [] ∧ dom (actors rt) ⊆ {[LiveDemo.p]}).
    { repeat (apply elem_of_cons in Hrt as [->|Hrt]; [split; [done|apply (bool_decide_unpack _); by vm_compute]|]).
      by apply elem_of_nil in Hrt. }
    destruct Hex as [Hex Hac]. destruct o as [q|i|]; [| |done].
    - destruct He as [(k & Hk & _) _]. apply elem_of_dom_2, Hac, elem_of_singleton in Hk. by subst.
    - destruct He as (e & He & _). rewrite Hex in He. done. }
  subst o. exists (S (S (2 * n + 1))). split; [lia|left]. cbn [LiveDemo.starved who].
  replace (Nat.even (S (S (2 * n + 1)))) with false; [done|]. cbn [Nat.even]. by rewrite Nat.even_add, Nat.even_mul.
Qed.

(** System messages go first, without bound: in an execution that is fair to
    every task, a user message that was delivered is never handled although its
    actor never ends, because a hot swap arrives before each turn. *)
Theorem system_messages_starve_users :
  ∃ (x : execution (F := unit) (A := SlabAllocator)) p msg n,
    executes x ∧ (∀ o, fair x o) ∧ Delivered p (User msg) ∈ shown x n ∧
    ∀ j, (∀ m, Received p (User m) ∉ shown x j) ∧ ∀ res, Ended p res ∉ shown x j.
Proof.
  exists LiveDemo.starved, LiveDemo.p, [Byte.x61], 1%nat.
  split_and!; [apply starved_executes|apply starved_fair|by left|].
  intros [|[|j]]; cbn [LiveDemo.starved shown]; [| |destruct (Nat.even _)]; split; intros ? ?%list_elem_of_singleton; done.
Qed.

(** ** Witnesses *)
Lemma queued_messages_are_handled_witness :
  (∃ j, (2 <= j)%nat ∧ (over LiveDemo.p (events LiveDemo.whole 2 j) ∨
    [] `prefix_of` sys_of (taken_by LiveDemo.p (events LiveDemo.whole 2 j)))) ∧
  ∀ d, (∀ j, (length (sys_of (delivered_to LiveDemo.p (events LiveDemo.whole 2 j))) <= d)%nat) →
    ∃ j, (2 <= j)%nat ∧ (over LiveDemo.p (events LiveDemo.whole 2 j) ∨
      [] `prefix_of` sys_of (taken_by LiveDemo.p (events LiveDemo.whole 2 j)) ∧
      [[Byte.x61]] `prefix_of` user_of (taken_by LiveDemo.p (events LiveDemo.whole 2 j))).
Proof.
  apply (queued_messages_are_handled LiveDemo.whole LiveDemo.p 2 (Handler 1 0)
    (fst (send LiveDemo.msg (drop_sender (clone_sender channel)))));
    [apply demo_whole_executes|apply demo_whole_fair|by vm_compute|done|by vm_compute].
Defined.

Lemma stopped_actor_is_freed_witness :
  ∃ j, (4 <= j)%nat ∧ over LiveDemo.p (events LiveDemo.whole 4 j) ∧ frees LiveDemo.whole LiveDemo.p 4.
Proof.
  apply (stopped_actor_is_freed LiveDemo.whole LiveDemo.p 4 (Handler 1 0));
    [apply demo_whole_executes|apply demo_whole_fair|intros; apply demo_whole_fair|by vm_compute|done|
     by apply (bool_decide_unpack _); vm_compute].
Defined.
