(* ===== verification/CleanUp.v ===== *)
(** * The clean-up of an ended actor among everything else ([src/src/lib.rs])

    In an execution that is fair to a clean-up, whatever other calls and tasks do
    between its operations, it removes the mailbox, notifies the supervisors,
    frees the PID, collects the links that there are at that moment and then sends
    one EXIT message to each peer it collected; and it does nothing else that an
    observer sees.  The file uses the one-step operations on links of
    [Supervisor]. *)
From S2P Require Import Prelude Pid Mailbox Registry Supervisor Runtime RuntimeInv Lifecycle ActorSpec Liveness.
From Stdlib Require Import Sorting.Sorted.

Section clean_up.
Context {F A : Type} `{PA : PidAllocator A}.
Context (x : execution (F := F) (A := A)) (i : nat) (p : Pid) (res : JoinResult).

(** The [i]-th clean-up is at stage [g]. *)
Definition at_stage (g : ExitStage) (m : nat) : Prop := exits (at_time x m) !! i = Some (mkExit p res g).

(** The step from [m] on is one of the clean-up's own operations. *)
Definition advances (m : nat) : Prop := exits (at_time x (S m)) !! i ≠ exits (at_time x m) !! i.

(** From [a] to [b] its operations show nothing, but for those at the times [ts]. *)
Definition quiet_but (ts : list nat) (a b : nat) : Prop :=
  ∀ m, (a <= m < b)%nat → advances m → m ∈ ts ∨ shown x m = [].

(** The EXIT message reaches [q] if [q] runs and has not been stopped. *)
Definition sends_exit (m : nat) (q : Pid) : Prop :=
  shown x m = [if decide (q ∈ mailboxes (at_time x m) ∧ is_Some (actors (at_time x m) !! q))
               then Delivered q (exit_message (mkExit p res ExDone)) else Bounced q (exit_message (mkExit p res ExDone))].

Context (Hx : executes x) (Hfair : fair x (OfExit i)).

Lemma quiet_app ts1 ts2 a b c : quiet_but ts1 a b → quiet_but ts2 b c → quiet_but (ts1 ++ ts2) a c.
Proof.
  intros H1 H2 m Hm Ha. rewrite elem_of_app. destruct (decide (m < b)%nat).
  - destruct (H1 m ltac:(lia) Ha); auto.
  - destruct (H2 m ltac:(lia) Ha); auto.
Qed.

(** The next operation comes, and until then the clean-up stays where it is. *)
Lemma stage_turn g n : at_stage g n → g ≠ ExDone →
  ∃ m, (n <= m)%nat ∧ at_stage g m ∧ quiet_but [] n m ∧
    shown x m = exit_events i (at_time x m) ∧ at_time x (S m) = exits_turn i (at_time x m) ∧
    at_stage (ex_stage (snd (exit_turn (mkExit p res g) (at_time x m)))) (S m).
Proof.
  intros Hg Hd. destruct (exit_turn_comes x i _ n Hx Hfair Hg Hd) as (m & Hle & Hk & Hs & Hn). exists m.
  assert (Hm : at_stage g m) by (apply Hk; lia). split_and!; [done|done| |done|done|].
  - intros k Hlt Ha. destruct Ha. by rewrite !Hk by lia.
  - unfold at_stage in *. rewrite Hn, (exits_turn_at i _ _ Hm). f_equal.
    unfold exit_turn. destruct g as [| |[|id ids]| | |[|q qs]|]; simpl; try done. by destruct (linked_pids p _).
Qed.

(** An operation that shows nothing. *)
Lemma silent_turn g n : at_stage g n → g ≠ ExDone → (∀ rt : Runtime F A, exits rt !! i = Some (mkExit p res g) → exit_events i rt = []) →
  ∃ m, (n < m)%nat ∧ at_stage (ex_stage (snd (exit_turn (mkExit p res g) (at_time x (m - 1))))) m ∧ quiet_but [] n m.
Proof.
  intros Hg Hd Hs. destruct (stage_turn g n Hg Hd) as (m & Hle & Hm & Hq & Hsh & _ & Hn). exists (S m).
  split; [lia|]. replace (S m - 1)%nat with m by lia. split; [done|].
  intros k Hk Ha. destruct (decide (k = m)) as [->|Hne]; [right; rewrite Hsh; by apply Hs|apply Hq; [lia|done]].
Qed.

Lemma paths_notified ids n : at_stage (ExNotifyPaths ids) n → ∃ m, (n < m)%nat ∧ at_stage ExDeallocate m ∧ quiet_but [] n m.
Proof.
  revert n. induction ids as [|id ids IH]; intros n Hg.
  - apply (silent_turn _ _ Hg); [done|]. intros rt Hr. unfold exit_events. by rewrite Hr.
  - destruct (silent_turn _ _ Hg) as (m & Hm & Hn & Hq); [done| |].
    { intros rt Hr. unfold exit_events. by rewrite Hr. }
    destruct (IH m Hn) as (m' & Hm' & Hn' & Hq'). exists m'. split; [lia|]. split; [done|]. exact (quiet_app [] [] _ _ _ Hq Hq').
Qed.

Lemma exits_sent qs n : at_stage (ExSend qs) n →
  ∃ ts d, (n < d)%nat ∧ StronglySorted lt ts ∧ Forall (λ t, (n <= t < d)%nat) ts ∧ Forall2 sends_exit ts qs ∧
    at_stage ExDone d ∧ quiet_but ts n d.
Proof.
  revert n. induction qs as [|q qs IH]; intros n Hg.
  - destruct (silent_turn _ _ Hg) as (m & Hm & Hn & Hq); [done|intros rt Hr; unfold exit_events; by rewrite Hr|].
    exists [], m. split_and!; [done|constructor|constructor|constructor|done|done].
  - destruct (stage_turn _ _ Hg) as (m & Hm & Hat & Hq & Hsh & _ & Hn); [done|]. simpl in Hn.
    destruct (IH (S m) Hn) as (ts & d & Hd & Hso & Hts & Hf2 & Hdone & Hq'). exists (m :: ts), d. split_and!; [lia| | | |done|].
    + constructor; [done|]. apply (Forall_impl _ _ _ Hts). intros t Ht. lia.
    + constructor; [lia|]. apply (Forall_impl _ _ _ Hts). intros t Ht. lia.
    + constructor; [|done]. unfold sends_exit. rewrite Hsh. unfold exit_events. rewrite Hat. simpl.
      set (msg := exit_message _). assert (Hs := rt_send_spec (at_time x m) q msg (exec_inv x m Hx)).
      change (exit_message (mkExit p res ExDone)) with msg.
      destruct (rt_send q msg (at_time x m)) as [rt' r]. destruct Hs as (_ & _ & Hs). simpl.
      case_decide; by destruct Hs as [-> _].
    + apply (quiet_app [m] ts n (S m)); [|done]. intros k Hk Ha.
      destruct (decide (k = m)) as [->|Hne]; [left; left|destruct (Hq k ltac:(lia) Ha) as [Hin|]; [by apply not_elem_of_nil in Hin|by right]].
Qed.
(** A clean-up that is done stays so. *)
Lemma done_stays d m : at_stage ExDone d → (d <= m)%nat → at_stage ExDone m.
Proof.
  intros Hd Hle. induction Hle as [|m Hle IH]; [done|].
  destruct (labelled_exit i _ _ _ _ (move_labelled _ _ _ _ (proj2 Hx m)) IH) as [H|[_ H]]; [done|].
  unfold at_stage in *. rewrite H. by rewrite (exits_turn_at i _ _ IH).
Qed.

Lemma done_quiet d m : at_stage ExDone d → (d <= m)%nat → ¬ advances m.
Proof.
  intros Hd Hle Ha. apply Ha. assert (H1 := done_stays d m Hd Hle). assert (H2 := done_stays d (S m) Hd ltac:(lia)).
  unfold at_stage in *. congruence.
Qed.

Lemma freed_turn m : at_stage ExDeallocate m → at_time x (S m) = exits_turn i (at_time x m) →
  is_alive p (at_time x (S m)) = false.
Proof.
  intros Hm ->. assert (Hi := exec_inv x m Hx). rewrite (exits_turn_stage i _ _ Hm). unfold exit_turn, is_alive. simpl.
  assert (Hf : fits 64 p) by (apply (inv_fits _ Hi); right; by eexists i, _).
  rewrite pa_free_live by (done || apply Hi). by rewrite bool_decide_true.
Qed.

Lemma links_turn m : at_stage ExLinks m → at_time x (S m) = exits_turn i (at_time x m) →
  at_stage (ExSend (linked (links (supervisor (at_time x m))) p)) (S m) ∧
  ∀ q, (p ∉ linked (links (supervisor (at_time x (S m)))) q) ∧ (q ∉ linked (links (supervisor (at_time x (S m)))) p).
Proof.
  intros Hm Hn. assert (Hl := rt_reachable_links _ (rt_trace_reachable _ _ (exec_trace x m Hx)) 0%nat).
  unfold at_stage. rewrite Hn, (exits_turn_at i _ _ Hm). split; [unfold exit_turn; simpl; by rewrite linked_pids_eq|].
  assert (E : links (supervisor (exits_turn i (at_time x m))) = purge_links p (links (supervisor (at_time x m)))).
  { rewrite (exits_turn_stage i _ _ Hm). unfold exit_turn. simpl. rewrite linked_pids_eq. simpl.
    unfold supervisor, sup_of at 1. simpl. by rewrite lookup_insert_eq. }
  rewrite E. intros q. split; intros H%elem_of_linked_purge; (tauto || apply Hl).
Qed.

(** ** Property *)

(** C13: In an execution that is fair to the clean-up of an ended actor, and
    whatever the other calls and tasks do between its operations, the clean-up
    removes the actor's mailbox, later frees its PID, later takes the peers that
    are linked to it at that moment, leaving no link to it, and after that sends
    each of them, one after the other and once per link, the EXIT message with
    the reason of the end; the message is delivered to a peer that still runs
    and is listed when its turn comes.  Then it is done for good, and none of
    its operations shows anything else. *)
Theorem exit_cleanup_in_order n : at_stage ExRemoveMailbox n →
  ∃ t0 t1 t2 ts d, (n <= t0 < t1)%nat ∧ (t1 < t2)%nat ∧ StronglySorted lt (t2 :: ts) ∧ Forall (λ t, (t < d)%nat) ts ∧
    (p ∉ mailboxes (at_time x (S t0))) ∧
    shown x t1 = [Freed p] ∧ is_alive p (at_time x (S t1)) = false ∧
    (∀ q, (p ∉ linked (links (supervisor (at_time x (S t2)))) q) ∧ (q ∉ linked (links (supervisor (at_time x (S t2)))) p)) ∧
    Forall2 sends_exit ts (linked (links (supervisor (at_time x t2))) p) ∧
    (∀ m, (d <= m)%nat → at_stage ExDone m) ∧
    ∀ m, (n <= m)%nat → advances m → m ∈ t0 :: t1 :: ts ∨ shown x m = [].
Proof.
  intros H0. destruct (stage_turn _ _ H0) as (t0 & Hle0 & Hat0 & Hq0 & _ & Hn0 & H1); [done|]. simpl in H1.
  destruct (silent_turn _ _ H1) as (m1 & Hm1 & H2 & Hq1); [done|intros rt Hr; unfold exit_events; by rewrite Hr|]. simpl in H2.
  destruct (paths_notified _ _ H2) as (m2 & Hm2 & H3 & Hq2).
  destruct (stage_turn _ _ H3) as (t1 & Hle1 & Hat1 & Hq3 & Hsh1 & Hn1 & H4); [done|]. simpl in H4.
  destruct (stage_turn _ _ H4) as (t2 & Hle2 & Hat2 & Hq4 & Hsh2 & Hn2 & _); [done|].
  destruct (links_turn t2 Hat2 Hn2) as [H5 Hl].
  destruct (exits_sent _ _ H5) as (ts & d & Hd & Hso & Hts & Hf2 & Hdone & Hq5).
  exists t0, t1, t2, ts, d. split; [lia|]. split; [lia|]. split.
  { constructor; [done|]. apply (Forall_impl _ _ _ Hts). intros t Ht. lia. }
  split; [apply (Forall_impl _ _ _ Hts); intros t Ht; lia|]. split.
  { rewrite Hn0, (exits_turn_stage i _ _ Hat0). unfold exit_turn. simpl. apply stop_not_in. }
  split; [rewrite Hsh1; unfold exit_events; by rewrite Hat1|]. split; [by apply freed_turn|]. split; [done|]. split; [done|].
  split; [intros m; by apply done_stays|]. intros m Hm Ha.
  assert (Hone : ∀ t, quiet_but [t] t (S t)) by (intros t k Hk _; left; replace k with t by lia; left).
  assert (Hlinks : quiet_but [] t2 (S t2)).
  { intros k Hk _. right. replace k with t2 by lia. rewrite Hsh2. unfold exit_events. by rewrite Hat2. }
  destruct (decide (d <= m)%nat) as [Hdm|Hdm]; [by destruct (done_quiet d m Hdone Hdm)|].
  assert (Hall := quiet_app _ _ _ _ _ Hq0 (quiet_app _ _ _ _ _ (Hone t0) (quiet_app _ _ _ _ _ Hq1 (quiet_app _ _ _ _ _ Hq2
    (quiet_app _ _ _ _ _ Hq3 (quiet_app _ _ _ _ _ (Hone t1) (quiet_app _ _ _ _ _ Hq4 (quiet_app _ _ _ _ _ Hlinks Hq5)))))))).
  by apply (Hall m); [lia|].
Qed.
End clean_up.

(** ** Witness *)
Module CleanDemo.
(** Two linked actors; the first is supervised, panics, and is cleaned up. *)
Definition course : execution (F := unit) (A := SlabAllocator) := mkExec
  (λ n, match n with
        | 0 => Demo.start | 1 => Demo.one | 2 => Demo.two | 3 => Demo.joined | 4 => Demo.supervised
        | S (S (S (S (S k)))) => Demo.cleaning k
        end%nat)
  (λ n, if (n <? 5)%nat then OfOther else OfExit 0)
  (λ n, match n with
        | 0 => [Spawned Demo.a UserBody] | 1 => [Spawned Demo.b UserBody] | 2 | 3 => []
        | 4 => [Ended Demo.a (JoinErr true "boom")]
        | S (S (S (S (S k)))) => exit_events 0 (Demo.cleaning k)
        end%nat).
End CleanDemo.

Lemma course_executes : executes CleanDemo.course.
Proof.
  split; [done|]. intros [|[|[|[|[|k]]]]].
  - apply mv_other. by apply (lb_spawn Raw).
  - apply mv_other. by apply (lb_spawn Raw).
  - apply mv_other, lb_sup. constructor.
  - apply mv_other, lb_sup. constructor.
  - apply mv_other. by apply lb_raw_done.
  - exact (mv_exit 0 (Demo.cleaning k)).
Qed.

Lemma course_fair : fair CleanDemo.course (OfExit 0).
Proof. intros n _. exists (5 + n)%nat. split; [lia|by left]. Qed.

Lemma exit_cleanup_in_order_witness :
  linked (links (supervisor Demo.ended)) Demo.a = [Demo.b] ∧
  ∃ t0 t1 t2 ts d, (5 <= t0 < t1)%nat ∧ (t1 < t2)%nat ∧ StronglySorted lt (t2 :: ts) ∧ Forall (λ t, (t < d)%nat) ts ∧
    (Demo.a ∉ mailboxes (at_time CleanDemo.course (S t0))) ∧
    shown CleanDemo.course t1 = [Freed Demo.a] ∧ is_alive Demo.a (at_time CleanDemo.course (S t1)) = false ∧
    (∀ q, (Demo.a ∉ linked (links (supervisor (at_time CleanDemo.course (S t2)))) q) ∧
          (q ∉ linked (links (supervisor (at_time CleanDemo.course (S t2)))) Demo.a)) ∧
    Forall2 (sends_exit CleanDemo.course Demo.a (JoinErr true "boom")) ts
      (linked (links (supervisor (at_time CleanDemo.course t2))) Demo.a) ∧
    (∀ m, (d <= m)%nat → at_stage CleanDemo.course 0 Demo.a (JoinErr true "boom") ExDone m) ∧
    ∀ m, (5 <= m)%nat → advances CleanDemo.course 0 m → m ∈ t0 :: t1 :: ts ∨ shown CleanDemo.course m = [].
Proof.
  split; [reflexivity|].
  apply (exit_cleanup_in_order CleanDemo.course 0 Demo.a (JoinErr true "boom") course_executes course_fair 5). reflexivity.
Defined.
