(* ===== verification/Restarting.v ===== *)
(** * The way back of a supervised actor ([src/src/lib.rs], [src/src/supervisor.rs])

    From the notification of a supervisor to the new child, across the runtime:
    the clean-up of the old actor starts a restart task, the task is followed
    through any other steps of the runtime - calls, other actors, other restarts,
    which may move it in the list of tasks - and ends with the new child, or with
    the child dropped: after three failures, or after a success in which the
    factory answers the PID of the old child. *)
From S2P Require Import Prelude Pid Mailbox Registry Supervisor Runtime RuntimeInv Lifecycle ActorSpec.

Section restarting.
Context {F A : Type} `{PA : PidAllocator A}.
Implicit Types (rt : Runtime F A) (p : Pid) (e : ExitTask) (r : result Pid string).

(** ** Following a task *)

(** A step, seen by the task at position [k]: its own turn, with the answer of
    its factory, or any other step, after which it is at position [k']. *)
Inductive task_move (k : nat) rt : option (result Pid string) → nat → Runtime F A → Prop :=
| tm_turn r : task_move k rt (Some r) k (restart_turn k r rt)
| tm_other k' rt' : rt_step rt rt' → restarts rt' !! k' = restarts rt !! k → task_move k rt None k' rt'.

(** A run in which the task has been given the answers [rs]. *)
Inductive task_moves (k : nat) rt : list (result Pid string) → nat → Runtime F A → Prop :=
| tms_start : task_moves k rt [] k rt
| tms_move rs k1 rt1 o k2 rt2 : task_moves k rt rs k1 rt1 → task_move k1 rt1 o k2 rt2 →
    task_moves k rt (rs ++ option_list o) k2 rt2.

Definition failed r : bool := match r with Err _ => true | Ok _ => false end.

(** The turns of a clean-up that notify the supervisor [id]. *)
Definition notifies e (id : nat) : Prop :=
  ex_stage e = ExNotify ∧ id = 0%nat ∨ ∃ rest, ex_stage e = ExNotifyPaths (id :: rest).

(** The task that restarts [p], after [n] failures. *)
Definition restarting_at p (sp : ChildSpec F) (n : nat) (x : nat * RestartTask F) (id : nat) : Prop :=
  fst x = id ∧ orig_pid (snd x) = p ∧ spec (snd x) = sp ∧ attempts (snd x) = Z.of_nat n.

(** ** Lemmas *)
Lemma rt_notify_restarts id p rt : restarts rt `prefix_of` restarts (rt_notify id p rt).
Proof. unfold rt_notify. destruct (notify_exit _ _). by eexists. Qed.

(** Only turns of restart tasks change the tasks that there are. *)
Lemma restarts_kept rt rt' : rt_step rt rt' →
  restarts rt `prefix_of` restarts rt' ∨ ∃ j r, rt' = restart_turn j r rt.
Proof.
  intros Hs. destruct Hs as [k rt rt' p _ Hs|p msg rt|p ptr rt|p rt| | |id f rt Hf|id p rt|path rt| |p f rt| |p rt|p pn rt
    | | |i rt|j r rt]; try (by left); try (left; apply rt_notify_restarts); [..|right; by exists j, r]; left.
  - unfold spawn in Hs. destruct (pa_alloc _) as [[]|]; [|done]. injection Hs as <- <-. by destruct k.
  - by rewrite rt_send_frame.
  - by rewrite hot_swap_send, rt_send_frame.
  - unfold stop. by case_decide.
  - unfold create_path_supervisor, path_entry. by destruct (path_supervisors rt !! path).
  - unfold take_observed_message_matching. by repeat split_match.
  - unfold observed_turn, actor_recv. destruct (boxes rt !! p) as [m|]; [|done].
    by destruct (recv m) as [m' [[msg|]|]].
  - unfold handler_turn, actor_recv. destruct (actors rt !! p) as [[]|]; try done.
    destruct (boxes rt !! p) as [m|]; [|done]. destruct (recv m) as [m' [[msg|]|]]; [by destruct pn|done..].
  - destruct (exits rt !! i) as [e|] eqn:He; [|unfold exits_turn; by rewrite He].
    rewrite (exits_turn_stage i e rt He). unfold exit_turn. simpl.
    destruct (ex_stage e) as [| |[|id rest]| | |[|lp rest]|]; simpl; try done.
    + unfold stop. by case_decide.
    + apply rt_notify_restarts.
    + split_match; [apply rt_notify_restarts|done].
    + by destruct (linked_pids _ _).
    + by rewrite rt_send_frame.
Qed.

(** So whatever step is made, the task is still there or had its turn. *)
Lemma task_move_total k rt rt' x : rt_step rt rt' → restarts rt !! k = Some x →
  ∃ o k', task_move k rt o k' rt'.
Proof.
  intros Hs Hk. destruct (restarts_kept rt rt' Hs) as [Hp|(j & r & ->)].
  - exists None, k. apply tm_other; [done|]. rewrite Hk. by eapply prefix_lookup_Some.
  - destruct (decide (j = k)) as [->|Hne]; [exists (Some r), k; constructor|].
    assert (Hpos : ∃ k', restarts (restart_turn j r rt) !! k' = restarts rt !! k).
    { unfold restart_turn. destruct (restarts rt !! j) as [[id t]|] eqn:Hj; [|by exists k].
      destruct (restart_attempt t r (sup_of id rt)) as [s' [|ms t']]; simpl.
      - destruct (decide (k < j)%nat) as [Hlt|Hlt].
        + exists k. by rewrite list_lookup_delete_lt.
        + exists (k - 1)%nat. rewrite list_lookup_delete_ge by lia. f_equal. lia.
      - exists k. by rewrite list_lookup_insert_ne. }
    destruct Hpos as [k' Hk']. exists None, k'. by apply tm_other.
Qed.

Lemma notify_starts id p sp rt : children (sup_of id rt) !! p = Some sp → p ∉ restarting (sup_of id rt) →
  ∃ k x, restarts (rt_notify id p rt) !! k = Some x ∧ restarting_at p sp 0 x id.
Proof.
  intros Hc Hm. unfold rt_notify, notify_exit. rewrite bool_decide_false by done. cbn [children set_restarting]. rewrite Hc.
  set (all := map_to_list (children (sup_of id rt))).
  assert (Hin : (id, spawn_restart p sp) ∈ pair id <$> match strategy sp with
    | RestartAll => (λ kv, spawn_restart (fst kv) (snd kv)) <$> all | RestartOne => [spawn_restart p sp] end).
  { apply list_elem_of_fmap. exists (spawn_restart p sp). split; [done|]. destruct (strategy sp); [by left|].
    apply list_elem_of_fmap. exists (p, sp). split; [done|]. by apply elem_of_map_to_list. }
  apply list_elem_of_lookup in Hin as [i Hi]. exists (length (restarts rt) + i)%nat, (id, spawn_restart p sp).
  split; [|done]. destruct (strategy sp); simpl in Hi |- *;
    (rewrite lookup_app_r by lia; rewrite Nat.add_comm, Nat.add_sub; exact Hi).
Qed.

Lemma notify_turn_starts i e id sp rt : exits rt !! i = Some e → notifies e id →
  children (sup_of id rt) !! ex_pid e = Some sp → ex_pid e ∉ restarting (sup_of id rt) →
  ∃ k x, restarts (exits_turn i rt) !! k = Some x ∧ restarting_at (ex_pid e) sp 0 x id.
Proof.
  intros He Hn Hc Hm. rewrite (exits_turn_stage i e rt He). unfold exit_turn.
  destruct Hn as [[-> ->]|[rest ->]]; simpl; [by apply notify_starts|].
  unfold contains_child. rewrite bool_decide_true by (by eexists). by apply notify_starts.
Qed.

(** While its factory fails less than three times, the task goes on. *)
Lemma task_pending k rt rs k' rt' p sp id x : task_moves k rt rs k' rt' → restarts rt !! k = Some x →
  restarting_at p sp 0 x id → Forall (λ r, failed r = true) rs → (length rs < 3)%nat →
  ∃ x', restarts rt' !! k' = Some x' ∧ restarting_at p sp (length rs) x' id.
Proof.
  intros Hr Hk Hx. induction Hr as [|rs k1 rt1 o k2 rt2 _ IH Hm]; intros Hf Hl; [by exists x|].
  apply Forall_app in Hf as [Hf Ho]. rewrite length_app in Hl |- *.
  destruct IH as (x1 & Hk1 & Hx1); [done|lia|]. destruct Hm as [r|k' rt' Hs Hsame]; simpl in *.
  - rewrite Forall_singleton in Ho. destruct r as [new|err]; [done|]. destruct x1 as [id1 t].
    destruct Hx1 as (<- & Hp & Hsp & Ha). simpl in *. unfold restart_turn. rewrite Hk1. unfold restart_attempt.
    replace (max_attempts <=? attempts t + 1) with false by (symmetry; apply Z.leb_gt; unfold max_attempts; lia).
    eexists. split; [apply list_lookup_insert_eq; by eapply lookup_lt_Some|]. split_and!; simpl; try done. lia.
  - exists x1. rewrite Hsame, Nat.add_0_r. by split.
Qed.

Lemma restart_turn_sup k id t r rt : restarts rt !! k = Some (id, t) →
  sup_of id (restart_turn k r rt) = fst (restart_attempt t r (sup_of id rt)) ∧
  slab (restart_turn k r rt) = slab rt.
Proof.
  intros Hk. unfold restart_turn. rewrite Hk.
  destruct (restart_attempt t r (sup_of id rt)) as [s' [|ms t']]; simpl; (split; [|done]);
    unfold sup_of; simpl; by rewrite lookup_insert_eq.
Qed.

Lemma task_move_step k rt o k' rt' : task_move k rt o k' rt' → rt_step rt rt'.
Proof. intros [r|k1 rt1 Hs _]; [constructor|done]. Qed.

Lemma task_moves_reachable k rt rs k' rt' :
  reachable rt_init rt_step rt → task_moves k rt rs k' rt' → reachable rt_init rt_step rt'.
Proof.
  intros Hr. induction 1 as [|rs k1 rt1 o k2 rt2 _ IH Hm]; [done|].
  eapply reach_step; [exact IH|]. by eapply task_move_step.
Qed.

(** ** Property *)

(** C11: A supervised actor is restarted or given up. When the clean-up of an
    ended actor notifies a supervisor, its own or that of a path, of which the
    actor is a child that is not being restarted already, a restart task starts.
    Nothing that happens afterwards can stop or overtake it: whatever step is
    made, the task is still there or had its turn. When its factory succeeds
    after less than three failures and answers a new PID, that PID has taken the
    old one's place with the same specification, and is alive if its actor runs;
    when the factory answers the old PID again, as the one [watch] uses does, the
    child is dropped although the restart succeeded. After the third failure the
    child has been dropped and the error recorded. In each case the other
    children are as they were and the old PID is no longer marked. *)
Theorem supervised_actor_restarted_or_dropped rt i e id sp :
  reachable rt_init rt_step rt → exits rt !! i = Some e → notifies e id →
  children (sup_of id rt) !! ex_pid e = Some sp → ex_pid e ∉ restarting (sup_of id rt) →
  ∃ k, ∀ rs k' rt', task_moves k (exits_turn i rt) rs k' rt' →
    Forall (λ r, failed r = true) rs → (length rs < 3)%nat →
    (∀ rt2, rt_step rt' rt2 → ∃ o k2, task_move k' rt' o k2 rt2) ∧
    (∀ new, let s2 := sup_of id (restart_turn k' (Ok new) rt') in
       children s2 = (if decide (new = ex_pid e) then delete (ex_pid e) (children (sup_of id rt'))
                      else <[new := sp]> (delete (ex_pid e) (children (sup_of id rt')))) ∧
       (ex_pid e ∉ restarting s2) ∧
       (is_Some (actors rt' !! new) → is_alive new (restart_turn k' (Ok new) rt') = true)) ∧
    (∀ err, length rs = 2%nat → let s2 := sup_of id (restart_turn k' (Err err) rt') in
       children s2 = delete (ex_pid e) (children (sup_of id rt')) ∧ (ex_pid e ∉ restarting s2) ∧
       errors s2 = errors (sup_of id rt') ++ [err]).
Proof.
  intros Hr He Hn Hc Hm. destruct (notify_turn_starts i e id sp rt He Hn Hc Hm) as (k & x & Hk & Hx).
  exists k. intros rs k' rt' Hrun Hf Hl.
  destruct (task_pending _ _ _ _ _ _ _ _ _ Hrun Hk Hx Hf Hl) as ([id' t] & Hk' & Hid & Hp & Hsp & Ha). simpl in Hid, Hp, Hsp, Ha. subst id'.
  assert (Hinv : rt_inv rt').
  { eapply rt_reachable_inv, task_moves_reachable; [|exact Hrun]. eapply reach_step; [exact Hr|constructor]. }
  split_and!.
  - intros rt2 Hs. by eapply task_move_total.
  - intros new. destruct (restart_turn_sup k' id t (Ok new) rt' Hk') as [-> Hsl]. cbn. rewrite Hp, Hsp. split_and!.
    + case_decide as Hne; [subst new; apply delete_insert_eq|by rewrite delete_insert_ne].
    + set_solver.
    + intros Hac. unfold is_alive. rewrite Hsl. assert (Hu : in_use rt' new) by by left.
      apply (inv_live _ Hinv new); [by apply (inv_fits _ Hinv)|done].
  - intros err Hl2. destruct (restart_turn_sup k' id t (Err err) rt' Hk') as [-> _]. unfold restart_attempt.
    replace (max_attempts <=? attempts t + 1) with true by (symmetry; apply Z.leb_le; unfold max_attempts; lia).
    cbn. rewrite Hp. split_and!; [done|set_solver|done].
Qed.
End restarting.

(** ** Witness *)
Lemma supervised_actor_restarted_or_dropped_witness :
  ∃ k, ∀ rs k' rt', task_moves k (exits_turn 0 (Demo.cleaning 1)) rs k' rt' →
    Forall (λ r, failed r = true) rs → (length rs < 3)%nat →
    (∀ rt2, rt_step rt' rt2 → ∃ o k2, task_move k' rt' o k2 rt2) ∧
    (∀ new, let s2 := sup_of 0 (restart_turn k' (Ok new) rt') in
       children s2 = (if decide (new = Demo.a) then delete Demo.a (children (sup_of 0 rt'))
                      else <[new := mkSpec (UserFactory tt) RestartOne]> (delete Demo.a (children (sup_of 0 rt')))) ∧
       (Demo.a ∉ restarting s2) ∧
       (is_Some (actors rt' !! new) → is_alive new (restart_turn k' (Ok new) rt') = true)) ∧
    (∀ err, length rs = 2%nat → let s2 := sup_of 0 (restart_turn k' (Err err) rt') in
       children s2 = delete Demo.a (children (sup_of 0 rt')) ∧ (Demo.a ∉ restarting s2) ∧
       errors s2 = errors (sup_of 0 rt') ++ [err]).
Proof.
  apply (supervised_actor_restarted_or_dropped (Demo.cleaning 1) 0 (mkExit Demo.a (JoinErr true "boom") ExNotify) 0
    (mkSpec (UserFactory tt) RestartOne)); [apply demo_cleaning_reachable|by vm_compute|by left|by vm_compute|].
  apply (bool_decide_unpack _). by vm_compute.
Defined.
