(* ===== verification/SlabPoison.v ===== *)
(** * The slab's mutex ([src/src/lib.rs])

    Every spawn, [is_alive] and the clean-up of every actor take the slab's mutex
    with [lock().unwrap()]. A panic while it is held - of the allocator, or of the
    closure that [spawn_actor_with_budget] calls before it gives the mutex back -
    poisons it. The file models these error paths around the steps of [Runtime]:
    as long as nothing panics they change nothing, and after a panic nothing is
    spawned, freed or told of an end any more. *)
From S2P Require Import Prelude Pid Mailbox Registry Supervisor Runtime RuntimeInv Lifecycle ActorSpec Liveness.

Section slab_poison.
Context {F A : Type} `{PA : PidAllocator A}.
Implicit Types (rt : Runtime F A) (p : Pid) (e : ExitTask).

(** ** State *)
Record Guarded := mkGuarded { g_rt : Runtime F A; g_poisoned : bool }.

(** How a call ends: it returns, or its panic unwinds the caller. *)
Inductive outcome (X : Type) := Returned (x : X) | Unwinds.
#[global] Arguments Returned {X} x.
#[global] Arguments Unwinds {X}.

(** ** Operations *)

(** [let mut slab = self.slab.lock().unwrap()] and what follows to the end of
    the guard's scope; [None] is a panic in it. *)
Definition with_slab {X} (body : Runtime F A → option (Runtime F A * X)) (g : Guarded) : Guarded * outcome X :=
  if g_poisoned g then (g, Unwinds)
  else match body (g_rt g) with
       | Some (rt', x) => (mkGuarded rt' false, Returned x)
       | None => (mkGuarded (g_rt g) true, Unwinds)
       end.

Definition g_spawn (kind : ActorKind) : Guarded → Guarded * outcome Pid := with_slab (spawn kind).

(** [handler(rx)] of [spawn_actor_with_budget] runs with the PID published and
    the mutex held; when it panics, its receiver and the local sender go. *)
Definition publish_only rt : option (Runtime F A * Pid) :=
  match pa_alloc (slab rt) with
  | Some (slab', pid) =>
      let m := drop_sender (drop_receiver (clone_sender channel)) in
      Some (set_boxes (<[pid := m]> (boxes rt)) (set_mailboxes ({[pid]} ∪ mailboxes rt) (set_slab slab' rt)), pid)
  | None => None
  end.

Definition g_spawn_with_budget (closure_panics : bool) (g : Guarded) : Guarded * outcome Pid :=
  if closure_panics then
    match with_slab publish_only g with
    | (g', Returned _) => (mkGuarded (g_rt g') true, Unwinds)
    | (g', Unwinds) => (g', Unwinds)
    end
  else g_spawn Raw g.

Definition g_is_alive p (g : Guarded) : outcome bool :=
  snd (with_slab (λ rt, Some (rt, is_alive p rt)) g).

(** A turn of a clean-up; [slab2.lock().unwrap()] of a poisoned mutex ends the
    task. *)
Definition g_exits_turn (i : nat) (g : Guarded) : Guarded :=
  match exits (g_rt g) !! i with
  | Some e =>
      if g_poisoned g && bool_decide (ex_stage e = ExDeallocate)
      then mkGuarded (set_exits (<[i := mkExit (ex_pid e) (ex_result e) ExDone]> (exits (g_rt g))) (g_rt g)) true
      else mkGuarded (exits_turn i (g_rt g)) (g_poisoned g)
  | None => g
  end.

(** An event of a step that does not take the mutex. *)
Definition lock_free (ev : actor_event) : bool :=
  match ev with Spawned _ _ | Freed _ => false | _ => true end.

Inductive g_step (g : Guarded) : Guarded → Prop :=
| gs_spawn k : pa_room (slab (g_rt g)) → g_step g (fst (g_spawn k g))
| gs_budget closure_panics : pa_room (slab (g_rt g)) → g_step g (fst (g_spawn_with_budget closure_panics g))
| gs_exit i : g_step g (g_exits_turn i g)
| gs_other evs rt' : rt_labelled (g_rt g) evs rt' → Forall (λ ev, lock_free ev = true) evs →
    g_step g (mkGuarded rt' (g_poisoned g)).

Definition g_init (g : Guarded) : Prop := g = mkGuarded runtime_new false.

(** ** Lemmas *)
Lemma with_slab_poisoned {X} (body : Runtime F A → option (Runtime F A * X)) g : g_poisoned g = true → with_slab body g = (g, Unwinds).
Proof. intros H. unfold with_slab. by rewrite H. Qed.

Lemma g_spawn_poisoned k g : g_poisoned g = true → g_spawn k g = (g, Unwinds).
Proof. apply with_slab_poisoned. Qed.

Lemma g_budget_poisoned b g : g_poisoned g = true → g_spawn_with_budget b g = (g, Unwinds).
Proof. intros H. unfold g_spawn_with_budget. rewrite with_slab_poisoned, g_spawn_poisoned by done. by destruct b. Qed.

(** The slab is left alone and no actor starts. *)
Definition no_start rt rt' : Prop :=
  slab rt' = slab rt ∧ ∀ p, is_Some (actors rt' !! p) → is_Some (actors rt !! p).

Lemma no_start_shape rt rt' : same_shape rt rt' → no_start rt rt'.
Proof. intros [Hs _ _ Ha _]. split; [done|]. intros p. by rewrite Ha. Qed.

Lemma no_start_done p res rt rt' : no_start rt rt' → no_start rt (actor_done p res rt').
Proof.
  intros [Hs Ha]. split; [done|]. intros q Hq. apply Ha. simpl in Hq.
  destruct (decide (q = p)) as [->|Hne]; [|by rewrite lookup_delete_ne in Hq].
  rewrite lookup_delete_eq in Hq. by destruct Hq.
Qed.

Lemma no_start_observed p rt : no_start rt (observed_turn p rt).
Proof.
  assert (Hr := no_start_shape _ _ (shape_actor_recv p rt)). unfold observed_turn.
  destruct (actor_recv p rt) as [rt' [[msg|]|]]; simpl in Hr; [exact Hr|by apply no_start_done|exact Hr].
Qed.

Lemma no_start_handler p pn rt : no_start rt (fst (handler_turn p pn rt)).
Proof.
  unfold handler_turn. destruct (actors rt !! p) as [[|b n|]|] eqn:Hp; try (apply no_start_shape, same_shape_refl).
  assert (Hs := shape_actor_recv p rt). assert (Hr := no_start_shape _ _ Hs).
  assert (Ha := actor_recv_actors p rt).
  destruct (actor_recv p rt) as [rt' [[msg|]|]]; simpl in *; [destruct pn as [d|]| |exact Hr]; try by apply no_start_done.
  apply no_start_shape. apply (same_shape_trans _ rt'); [done|]. apply shape_set_actors. rewrite Ha, Hp. by eexists.
Qed.

Lemma no_start_exit i rt : Forall (λ ev, lock_free ev = true) (exit_events i rt) → no_start rt (exits_turn i rt).
Proof.
  unfold exit_events. destruct (exits rt !! i) as [e|] eqn:He; [|unfold exits_turn; by rewrite He].
  intros Hf. rewrite (exits_turn_stage i e rt He).
  assert (H : no_start rt (fst (exit_turn e rt))); [|exact H].
  destruct (decide (ex_stage e = ExRemoveMailbox)) as [Hr|Hr].
  - unfold exit_turn. rewrite Hr. simpl. unfold stop. by case_decide.
  - apply no_start_shape, exit_turn_shape; [done|]. intros Hd. rewrite Hd in Hf. by inversion Hf.
Qed.

(** A step that shows neither a spawn nor a freed PID. *)
Lemma lock_free_slab rt evs rt' : rt_labelled rt evs rt' → Forall (λ ev, lock_free ev = true) evs → no_start rt rt'.
Proof.
  intros Hs Hf. destruct Hs as [k rt rt' p Hr Hs|p msg rt rt' r Hs|p ptr rt|p rt| | |id f rt Hc|id p rt|path rt| |p f rt| |
    p rt|p pn rt|p m m' evs rt Ha Hm Hc|p res rt Ha|j rt|j r rt]; try done.
  - by inversion Hf.
  - apply (f_equal fst) in Hs. simpl in Hs. subst rt'. apply no_start_shape, shape_send.
  - apply no_start_shape, shape_hot_swap.
  - unfold stop. by case_decide.
  - apply no_start_shape, shape_notify.
  - apply no_start_shape, shape_create_path.
  - apply no_start_shape, shape_take.
  - apply no_start_observed.
  - apply no_start_handler.
  - by apply no_start_done.
  - by apply no_start_exit.
  - apply no_start_shape, shape_restart.
Qed.

(** What a poisoned node can still do. *)
Record dead_end (g g' : Guarded) : Prop := {
  de_poisoned : g_poisoned g' = true;
  de_start : no_start (g_rt g) (g_rt g');
  de_exits : ∀ i e, exits (g_rt g') !! i = Some e →
    (∀ e0, exits (g_rt g) !! i = Some e0 → holds_slot (ex_stage e0) = true) →
    holds_slot (ex_stage e) = true ∨ ex_stage e = ExDone
}.

Lemma dead_end_refl g : g_poisoned g = true → dead_end g g.
Proof. intros Hp. split; [done|done|]. intros i e He H. left. by apply H. Qed.

Lemma exit_turn_stage e rt : ex_stage e ≠ ExDeallocate → holds_slot (ex_stage e) = true ∨ ex_stage e = ExDone →
  holds_slot (ex_stage (snd (exit_turn e rt))) = true ∨ ex_stage (snd (exit_turn e rt)) = ExDone.
Proof.
  intros Hd H. unfold exit_turn. destruct (ex_stage e) as [| |[|id rest]| | |[|lp rest]|] eqn:E; simpl; auto;
    by destruct H.
Qed.

Lemma dead_end_step g g1 g2 : dead_end g g1 → g_step g1 g2 → dead_end g g2.
Proof.
  intros Hde Hs. assert (Hp := de_poisoned _ _ Hde). destruct (de_start _ _ Hde) as [Hsl Hac].
  assert (Hkeep : ∀ rt', no_start (g_rt g1) rt' →
    (∀ i e, exits rt' !! i = Some e → exits (g_rt g1) !! i = Some e ∨
       (exits (g_rt g1) !! i = None ∧ ex_stage e = ExRemoveMailbox) ∨ ex_stage e = ExDone ∨
       ∃ e0, exits (g_rt g1) !! i = Some e0 ∧ ex_stage e0 ≠ ExDeallocate ∧ e = snd (exit_turn e0 (g_rt g1))) →
    dead_end g (mkGuarded rt' true)).
  { intros rt' [Hs1 Ha1] He. split; [done|split; [by rewrite <-Hsl|auto]|].
    intros i e Hi H0. destruct (He i e Hi) as [H|[[_ H]|[H|(e0 & H & Hd & ->)]]].
    - by eapply de_exits.
    - left. by rewrite H.
    - by right.
    - apply exit_turn_stage; [done|]. by eapply de_exits. }
  destruct Hs as [k _|b _|i|evs rt' Hl Hf].
  - by rewrite g_spawn_poisoned.
  - by rewrite g_budget_poisoned.
  - unfold g_exits_turn. destruct (exits (g_rt g1) !! i) as [e|] eqn:He; [|done]. rewrite Hp. simpl.
    case_bool_decide as Hd; apply Hkeep.
    + by split.
    + intros j e' Hj. simpl in Hj. apply list_lookup_insert_Some in Hj as [(-> & <- & _)|[_ Hj]]; [by right; right; left|by left].
    + apply no_start_exit. unfold exit_events. rewrite He. destruct (ex_stage e) as [| |[|? ?]| | |[|lp l]|]; try done.
      * unfold stop_events. case_decide; by repeat constructor.
      * constructor; [|done]. by destruct (snd _).
    + intros j e' Hj. destruct (decide (j = i)) as [->|Hne]; [|left; by rewrite exits_turn_other in Hj].
      rewrite (exits_turn_at i e) in Hj by done. injection Hj as <-. right; right; right. by exists e.
  - rewrite Hp. apply Hkeep; [by eapply lock_free_slab|]. intros i e Hi.
    destruct (exits (g_rt g1) !! i) as [e0|] eqn:He.
    + destruct (labelled_exit i e0 _ _ _ Hl He) as [H|[-> ->]]; [left; congruence|right; right; right].
      rewrite (exits_turn_at i e0) in Hi by done. injection Hi as <-. exists e0. split; [done|]. split; [|done].
      intros Hd. unfold exit_events in Hf. rewrite He, Hd in Hf. by inversion Hf.
    + right; left. split; [done|]. destruct (labelled_exits _ _ _ Hl) as [[E|(p & res & E)]|(j & _ & ->)].
      * congruence.
      * rewrite E in Hi. apply lookup_app_Some in Hi as [Hi|[_ Hi]]; [congruence|].
        apply list_lookup_singleton_Some in Hi as [_ <-]. done.
      * destruct (decide (j = i)) as [->|Hne]; [unfold exits_turn in Hi; rewrite He in Hi; congruence|].
        rewrite exits_turn_other in Hi by done. congruence.
Qed.

Lemma dead_end_run g g' : g_poisoned g = true → rtc g_step g g' → dead_end g g'.
Proof.
  intros Hp Hr. assert (H := dead_end_refl g Hp). revert H. generalize g at 1 3 as g0.
  induction Hr as [g|g g1 g2 Hs _ IH]; intros g0 H; [done|]. apply IH; [|by eapply dead_end_step].
  by apply (dead_end_step g0 g g1).
Qed.

Lemma step_from_poisoned g g' : g_step g g' → g_poisoned g = true → g_poisoned g' = true.
Proof. intros Hs Hp. eapply de_poisoned, dead_end_step; [by apply dead_end_refl|done]. Qed.

Lemma unpoisoned_step g g' : g_step g g' → g_poisoned g' = false → g_poisoned g = false ∧ rt_step (g_rt g) (g_rt g').
Proof.
  intros Hs Hp'. destruct (g_poisoned g) eqn:Hp; [by rewrite (step_from_poisoned g g') in Hp'|split; [done|]].
  assert (Hspawn : ∀ k, pa_room (slab (g_rt g)) → g_poisoned (fst (g_spawn k g)) = false → rt_step (g_rt g) (g_rt (fst (g_spawn k g)))).
  { intros k Hroom. unfold g_spawn, with_slab. rewrite Hp. destruct (spawn k (g_rt g)) as [[rt1 p]|] eqn:E; [|done].
    intros _. by apply (st_spawn k _ _ p). }
  destruct Hs as [k Hroom|b Hroom|i|evs rt' Hl _].
  - by apply Hspawn.
  - destruct b; [|by apply Hspawn]. unfold g_spawn_with_budget, with_slab in Hp'. rewrite Hp in Hp'.
    by destruct (publish_only (g_rt g)) as [[]|].
  - unfold g_exits_turn in *. destruct (exits (g_rt g) !! i) eqn:E; [|].
    + rewrite Hp in *. simpl. constructor.
    + assert (H := st_exit i (g_rt g)). unfold exits_turn in H. by rewrite E in H.
  - simpl. apply rt_step_labelled. eauto.
Qed.

Lemma unpoisoned_is_reachable g : reachable g_init g_step g → g_poisoned g = false → reachable rt_init rt_step (g_rt g).
Proof.
  revert g. apply (reachable_invariant _ _ (λ g, g_poisoned g = false → reachable rt_init rt_step (g_rt g))).
  - intros g -> _. by apply reach_init.
  - intros g g' IH Hs Hp'. destruct (unpoisoned_step g g' Hs Hp') as [Hp Hst]. eapply reach_step; [by apply IH|done].
Qed.

(** ** Properties *)

(** As long as nothing panics under the mutex it changes nothing: the states of
    the node are those of [Runtime]. *)
Theorem unpoisoned_is_the_runtime g :
  reachable g_init g_step g → g_poisoned g = false → reachable rt_init rt_step (g_rt g) ∧
  ∀ k p, (∃ rt' q, spawn k (g_rt g) = Some (rt', q) ∧ g_spawn k g = (mkGuarded rt' false, Returned q)) ∧
    g_is_alive p g = Returned (is_alive p (g_rt g)).
Proof.
  intros Hr Hp. assert (H := unpoisoned_is_reachable g Hr Hp).
  split; [done|]. intros k p. split.
  - destruct (pa_alloc_total (slab (g_rt g))) as (s' & q & Ha); [by apply inv_slab, rt_reachable_inv|].
    unfold g_spawn, with_slab. rewrite Hp. unfold spawn. rewrite Ha. eauto.
  - unfold g_is_alive, with_slab. by rewrite Hp.
Qed.

(** C33: A panic of the closure of [spawn_actor_with_budget] ends the life cycle of
    the whole node. The PID it had published stays allocated for ever although no
    actor runs under it; while it is listed it gives every message back. From then on
    every spawn and every [is_alive] panics, no PID is freed, no actor starts, and
    no clean-up that had not freed its PID gets as far as telling its peers. *)
Theorem closure_panic_ends_lifecycle g g' :
  reachable g_init g_step g → g_poisoned g = false → pa_room (slab (g_rt g)) →
  rtc g_step (fst (g_spawn_with_budget true g)) g' →
  snd (g_spawn_with_budget true g) = Unwinds ∧
  (∃ p, is_alive p (g_rt g) = false ∧ is_alive p (g_rt g') = true ∧ actors (g_rt g') !! p = None ∧
     let rt1 := g_rt (fst (g_spawn_with_budget true g)) in
     p ∈ mailboxes rt1 ∧ ∀ msg, snd (rt_send p msg rt1) = Err msg) ∧
  (∀ k, g_spawn k g' = (g', Unwinds)) ∧ (∀ b, g_spawn_with_budget b g' = (g', Unwinds)) ∧
  (∀ p, g_is_alive p g' = Unwinds) ∧ slab (g_rt g') = slab (g_rt (fst (g_spawn_with_budget true g))) ∧
  (∀ p, is_Some (actors (g_rt g') !! p) → is_Some (actors (g_rt g) !! p)) ∧
  (∀ i e, exits (g_rt g') !! i = Some e → (∀ e0, exits (g_rt g) !! i = Some e0 → holds_slot (ex_stage e0) = true) →
     holds_slot (ex_stage e) = true ∨ ex_stage e = ExDone).
Proof.
  intros Hr Hp Hroom Hrun. assert (Hi : rt_inv (g_rt g)) by by apply rt_reachable_inv, unpoisoned_is_reachable.
  destruct (pa_alloc_total (slab (g_rt g))) as (s' & q & Ha); [apply Hi|].
  assert (Hfit := pa_alloc_fits _ _ _ (inv_slab _ Hi) Hroom Ha).
  unfold g_spawn_with_budget, with_slab, publish_only in *. rewrite Hp, Ha in *. cbn [fst snd g_rt] in *.
  set (g1 := mkGuarded _ true) in *. assert (Hde := dead_end_run g1 g' eq_refl Hrun).
  assert (Hp' := de_poisoned _ _ Hde). destruct (de_start _ _ Hde) as [Hsl Hac].
  assert (Hdead : is_alive q (g_rt g) = false) by by eapply pa_alloc_fresh; [apply Hi|..].
  split_and!; try done.
  - exists q. split_and!; [done| | | |].
    + unfold is_alive. rewrite Hsl. simpl. rewrite (pa_alloc_live _ _ _ q (inv_slab _ Hi) Hroom Ha Hfit).
      by rewrite bool_decide_true.
    + apply eq_None_not_Some. intros Hq. apply Hac in Hq. simpl in Hq.
      assert (in_use (g_rt g) q) as Hu by by left. apply (inv_live _ Hi q Hfit) in Hu. congruence.
    + simpl. set_solver.
    + intros msg. unfold rt_send. rewrite decide_True by (simpl; set_solver). simpl. rewrite lookup_insert_eq.
      by destruct msg.
  - intros k. by apply g_spawn_poisoned.
  - intros b. by apply g_budget_poisoned.
  - intros p. unfold g_is_alive. by rewrite with_slab_poisoned.
  - apply (de_exits _ _ Hde).
Qed.
End slab_poison.

(** ** Witnesses *)
Module PoisonDemo.
Definition fresh : Guarded (F := unit) (A := SlabAllocator) := mkGuarded runtime_new false.

Definition after : Guarded := fst (g_spawn_with_budget true fresh).
End PoisonDemo.

Lemma unpoisoned_is_the_runtime_witness :
  reachable rt_init rt_step (g_rt PoisonDemo.fresh) ∧
  ∀ k p, (∃ rt' q, spawn k (g_rt PoisonDemo.fresh) = Some (rt', q) ∧
      g_spawn k PoisonDemo.fresh = (mkGuarded rt' false, Returned q)) ∧
    g_is_alive p PoisonDemo.fresh = Returned (is_alive p (g_rt PoisonDemo.fresh)).
Proof. apply (unpoisoned_is_the_runtime PoisonDemo.fresh); [by apply reach_init|done]. Defined.

Lemma closure_panic_ends_lifecycle_witness :
  snd (g_spawn_with_budget true PoisonDemo.fresh) = Unwinds ∧
  (∃ p, is_alive p (g_rt PoisonDemo.fresh) = false ∧ is_alive p (g_rt PoisonDemo.after) = true ∧
     actors (g_rt PoisonDemo.after) !! p = None ∧
     let rt1 := g_rt (fst (g_spawn_with_budget true PoisonDemo.fresh)) in
     p ∈ mailboxes rt1 ∧ ∀ msg, snd (rt_send p msg rt1) = Err msg) ∧
  (∀ k, g_spawn k PoisonDemo.after = (PoisonDemo.after, Unwinds)) ∧
  (∀ b, g_spawn_with_budget b PoisonDemo.after = (PoisonDemo.after, Unwinds)) ∧
  (∀ p, g_is_alive p PoisonDemo.after = Unwinds) ∧
  slab (g_rt PoisonDemo.after) = slab (g_rt (fst (g_spawn_with_budget true PoisonDemo.fresh))) ∧
  (∀ p, is_Some (actors (g_rt PoisonDemo.after) !! p) → is_Some (actors (g_rt PoisonDemo.fresh) !! p)) ∧
  (∀ i e, exits (g_rt PoisonDemo.after) !! i = Some e →
     (∀ e0, exits (g_rt PoisonDemo.fresh) !! i = Some e0 → holds_slot (ex_stage e0) = true) →
     holds_slot (ex_stage e) = true ∨ ex_stage e = ExDone).
Proof.
  apply (closure_panic_ends_lifecycle PoisonDemo.fresh PoisonDemo.after);
    [by apply reach_init|done|by vm_compute|apply rtc_refl].
Defined.
