(* ===== verification/Actors.v ===== *)
(** * The message loops of the built-in actors ([src/src/lib.rs])

    The loop of a handler yields to the scheduler after a fixed number of
    messages; the loop of an observed actor records every message it receives.
    The file shows how many messages a handler takes between two yields and
    that the observation log is the sequence of messages received, from which
    the matching calls remove exactly one. *)
From S2P Require Import Prelude Pid Mailbox Registry Supervisor Runtime.

Section actors.
Context {F A : Type} `{PA : PidAllocator A}.
Implicit Types (rt : Runtime F A) (p q : Pid).

(** ** Runs of a loop *)

(** [n] turns of a handler none of whose calls panics. *)
Fixpoint handler_run (n : nat) p rt : Runtime F A * list turn_event :=
  match n with
  | O => (rt, [])
  | S n' =>
      let (rt', ev) := handler_turn p None rt in
      let (rt'', evs) := handler_run n' p rt' in (rt'', ev :: evs)
  end.

Definition handled (evs : list turn_event) : list Message :=
  omap (λ ev, match ev with Handled x _ => Some x | _ => None end) evs.

Definition is_yield (ev : turn_event) : bool :=
  match ev with Handled _ yielded => yielded | _ => false end.

Definition yields (evs : list turn_event) : nat := length (filter (λ ev, is_yield ev = true) evs).

Fixpoint observed_run (n : nat) p rt : Runtime F A :=
  match n with
  | O => rt
  | S n' => observed_run n' p (observed_turn p rt)
  end.
(** ** One receive of an open mailbox *)
Lemma abs_recv_cons a :
  match abs_recv a with
  | Some (x, a') => abs_all a = x :: abs_all a'
  | None => abs_all a = []
  end.
Proof. by destruct a as [[|s q] [|b u]]. Qed.

Lemma actor_recv_open p rt m : boxes rt !! p = Some m → senders m ≠ 0%nat →
  match abs_all (abs m) with
  | x :: l => ∃ m', actor_recv p rt = (set_boxes (<[p := m']> (boxes rt)) rt, Ready (Some x)) ∧
      abs_all (abs m') = l ∧ senders m' ≠ 0%nat
  | [] => actor_recv p rt = (set_boxes (<[p := m]> (boxes rt)) rt, Pending)
  end.
Proof.
  intros Hm Ho. unfold actor_recv. rewrite Hm. assert (H := recv_abs m Ho).
  assert (Hc := abs_recv_cons (abs m)). destruct (recv_frame m) as (Hs & _).
  destruct (abs_recv (abs m)) as [[x a]|]; [destruct H as (m' & Hr & <-)|rename H into Hr];
    rewrite Hr in *; rewrite Hc; simpl in *; [|done].
  exists m'. split_and!; congruence.
Qed.

Lemma handler_turn_open p rt b k m :
  actors rt !! p = Some (Handler b k) → boxes rt !! p = Some m → senders m ≠ 0%nat →
  let n := if b <=? k + 1 then 0 else k + 1 in
  match abs_all (abs m) with
  | x :: l => ∃ rt' m', handler_turn p None rt = (rt', Handled x (b <=? k + 1)) ∧
      actors rt' !! p = Some (Handler b n) ∧ boxes rt' !! p = Some m' ∧
      abs_all (abs m') = l ∧ senders m' ≠ 0%nat
  | [] => ∃ rt', handler_turn p None rt = (rt', Waiting) ∧
      actors rt' !! p = Some (Handler b k) ∧ boxes rt' !! p = Some m
  end.
Proof.
  intros Ha Hm Ho. unfold handler_turn. rewrite Ha. assert (H := actor_recv_open p rt m Hm Ho).
  destruct (abs_all (abs m)) as [|x l].
  - rewrite H. eexists. split_and!; [done|done|]. simpl. by rewrite lookup_insert_eq.
  - destruct H as (m' & -> & Hl & Hs). eexists _, m'.
    split_and!; [done|simpl; by rewrite lookup_insert_eq..|done|done].
Qed.

Lemma handled_cons x y evs : handled (Handled x y :: evs) = x :: handled evs.
Proof. done. Qed.

Lemma yields_cons x y evs : yields (Handled x y :: evs) = ((if y then 1 else 0) + yields evs)%nat.
Proof. unfold yields. rewrite filter_cons. by destruct y. Qed.

Lemma handler_run_idle n p rt b k m :
  actors rt !! p = Some (Handler b k) → boxes rt !! p = Some m → senders m ≠ 0%nat →
  abs_all (abs m) = [] →
  let (rt', evs) := handler_run n p rt in
  handled evs = [] ∧ yields evs = 0%nat ∧ actors rt' !! p = Some (Handler b k).
Proof.
  intros Ha Hm Ho He. revert rt Ha Hm. induction n as [|n IH]; intros rt Ha Hm; [done|]. simpl.
  assert (H := handler_turn_open p rt b k m Ha Hm Ho). rewrite He in H. destruct H as (rt' & -> & Ha' & Hm').
  specialize (IH rt' Ha' Hm'). by destruct (handler_run n p rt').
Qed.

(** ** Properties *)

(** A handler takes the messages of its mailbox in the order of the
    abstract queue, and yields exactly once per [max 1 budget] messages,
    counting those handled since its last yield. *)
Theorem handler_fairness n p rt b k m :
  actors rt !! p = Some (Handler b k) → 0 <= k < Z.max 1 b →
  boxes rt !! p = Some m → senders m ≠ 0%nat →
  let (rt', evs) := handler_run n p rt in
  let count := Z.of_nat (length (handled evs)) in
  handled evs = take n (abs_all (abs m)) ∧
  Z.of_nat (yields evs) = (k + count) `div` Z.max 1 b ∧
  actors rt' !! p = Some (Handler b ((k + count) `mod` Z.max 1 b)).
Proof.
  revert rt k m. induction n as [|n IH]; intros rt k m Ha Hk Hm Ho.
  - simpl. rewrite Z.add_0_r, Z.div_small, Z.mod_small by done. done.
  - assert (H := handler_turn_open p rt b k m Ha Hm Ho).
    destruct (abs_all (abs m)) as [|x l] eqn:Ex.
    { assert (Hidle := handler_run_idle (S n) p rt b k m Ha Hm Ho Ex).
      destruct (handler_run (S n) p rt) as [rt' evs]. destruct Hidle as (-> & -> & ->). simpl.
      rewrite Z.add_0_r, Z.div_small, Z.mod_small by done. done. }
    destruct H as (rt1 & m1 & Ht & Ha1 & Hm1 & Hl & Ho1). cbn [handler_run]. rewrite Ht.
    set (k1 := if b <=? k + 1 then 0 else k + 1) in *.
    assert (Hk1 : 0 <= k1 < Z.max 1 b) by (unfold k1; destruct (b <=? k + 1) eqn:E; breflect; lia).
    specialize (IH rt1 k1 m1 Ha1 Hk1 Hm1 Ho1). destruct (handler_run n p rt1) as [rt2 evs].
    destruct IH as (I1 & I2 & I3). rewrite Hl in I1. rewrite handled_cons, yields_cons.
    cbn [take length]. split; [by f_equal|]. set (count := Z.of_nat (length (handled evs))) in *.
    rewrite Nat2Z.inj_succ, Nat2Z.inj_add, I2. fold count.
    unfold k1 in I3 |- *. destruct (b <=? k + 1) eqn:E; breflect.
    + replace (k + Z.succ count) with (0 + count + 1 * Z.max 1 b) by lia.
      rewrite Z.div_add, Z.mod_add by lia. split; [lia|done].
    + replace (k + Z.succ count) with (k + 1 + count) by lia. split; [lia|done].
Qed.

Lemma observed_turn_open p rt m log :
  boxes rt !! p = Some m → senders m ≠ 0%nat → observers rt !! p = Some log →
  ∃ m', boxes (observed_turn p rt) !! p = Some m' ∧ senders m' ≠ 0%nat ∧
    abs_all (abs m') = tail (abs_all (abs m)) ∧
    observers (observed_turn p rt) !! p = Some (log ++ take 1 (abs_all (abs m))).
Proof.
  intros Hm Ho Hlog. unfold observed_turn. assert (H := actor_recv_open p rt m Hm Ho).
  destruct (abs_all (abs m)) as [|x l] eqn:Ex.
  - rewrite H. exists m. simpl. rewrite lookup_insert_eq, app_nil_r. done.
  - destruct H as (m' & -> & Hl & Hs). exists m'. simpl.
    rewrite lookup_insert_eq, lookup_alter_eq, Hlog. done.
Qed.

(** The log of an observed actor grows by exactly the messages received,
    in the order the mailbox delivers them, one per turn of the loop. *)
Theorem observed_log n p rt m log :
  boxes rt !! p = Some m → senders m ≠ 0%nat → observers rt !! p = Some log →
  let rt' := observed_run n p rt in
  observers rt' !! p = Some (log ++ take n (abs_all (abs m))) ∧
  ∃ m', boxes rt' !! p = Some m' ∧ abs_all (abs m') = drop n (abs_all (abs m)).
Proof.
  revert rt m log. induction n as [|n IH]; intros rt m log Hm Ho Hlog.
  - simpl. rewrite app_nil_r. split; [done|]. by exists m.
  - destruct (observed_turn_open p rt m log Hm Ho Hlog) as (m1 & Hm1 & Ho1 & Hl1 & Hlog1).
    destruct (IH _ m1 _ Hm1 Ho1 Hlog1) as (I1 & m2 & Hm2 & Hl2). cbn [observed_run]. rewrite Hl1 in *.
    split; [|exists m2; split; [done|]].
    + rewrite I1. f_equal. rewrite <-(assoc_L (++)). f_equal. destruct (abs_all (abs m)); simpl; by rewrite ?take_nil.
    + rewrite Hl2. destruct (abs_all (abs m)); simpl; by rewrite ?drop_nil.
Qed.

(** [take_observed_message_matching] removes the oldest observed message
    the matcher accepts and answers it; when there is none, or the PID is not
    observed, it answers nothing and changes nothing. *)
Theorem take_observed_correct p matcher rt :
  match take_observed_message_matching p matcher rt with
  | (rt', Some x) => ∃ l1 l2, observers rt !! p = Some (l1 ++ x :: l2) ∧ matcher x = true ∧
      Forall (λ y, matcher y = false) l1 ∧
      rt' = set_observers (<[p := l1 ++ l2]> (observers rt)) rt
  | (rt', None) => rt' = rt ∧
      ∀ l, observers rt !! p = Some l → Forall (λ y, matcher y = false) l
  end.
Proof.
  unfold take_observed_message_matching. destruct (observers rt !! p) as [l|] eqn:El; [|done].
  destruct (position matcher l) as [pos|] eqn:Ep.
  - apply position_Some in Ep as (l1 & x & l2 & -> & <- & Hx & Hl1).
    rewrite vec_remove_middle. exists l1, l2. done.
  - split; [done|]. intros l' [= <-]. by apply position_None.
Qed.
End actors.

(** ** Instances *)
Module ActorsDemo.
Definition a : Pid := 4294967296.

(** A fresh node with one actor of the given kind and two messages for it. *)
Definition busy (k : ActorKind) : Runtime unit SlabAllocator :=
  match spawn k runtime_new with
  | Some (rt, p) => fst (rt_send p (User [Byte.x01]) (fst (rt_send p (User [Byte.x00]) rt)))
  | None => runtime_new
  end.

Definition box (k : ActorKind) : Mailbox := default channel (boxes (busy k) !! a).
End ActorsDemo.

Lemma handler_fairness_witness :
  let rt := ActorsDemo.busy (Handler 2 0) in
  let (rt', evs) := handler_run 3 ActorsDemo.a rt in
  let count := Z.of_nat (length (handled evs)) in
  handled evs = take 3 (abs_all (abs (ActorsDemo.box (Handler 2 0)))) ∧
  Z.of_nat (yields evs) = (0 + count) `div` Z.max 1 2 ∧
  actors rt' !! ActorsDemo.a = Some (Handler 2 ((0 + count) `mod` Z.max 1 2)).
Proof.
  apply (handler_fairness 3 ActorsDemo.a (ActorsDemo.busy (Handler 2 0)));
    [reflexivity|lia|reflexivity|discriminate].
Defined.

Lemma observed_log_witness :
  let rt := ActorsDemo.busy Observed in
  let all := abs_all (abs (ActorsDemo.box Observed)) in
  observers (observed_run 1 ActorsDemo.a rt) !! ActorsDemo.a = Some ([] ++ take 1 all) ∧
  ∃ m', boxes (observed_run 1 ActorsDemo.a rt) !! ActorsDemo.a = Some m' ∧ abs_all (abs m') = drop 1 all.
Proof.
  apply (observed_log 1 ActorsDemo.a (ActorsDemo.busy Observed)); [reflexivity|discriminate|reflexivity].
Defined.
