(* ===== verification/Interface.v ===== *)
(** * What the network and the timers need of a node

    The connection handler, the remote monitor and the timers call a few
    operations of the runtime.  [Node] states them with the laws the clients
    rely on; [runtime_node] discharges them for [Runtime].  The clients are
    proved against the class. *)
From S2P Require Import Prelude Pid Mailbox Registry Supervisor Runtime.

Class Node (R : Type) := {
  node_send : Pid → Message → R → R * result unit Message;
  node_resolve : string → R → option Pid;
  node_alive : Pid → R → bool;
  node_stop : Pid → R → R;
  node_notify_exit : Pid → R → R;
  node_config : R → Config;
  node_send_config : ∀ p msg r, node_config (fst (node_send p msg r)) = node_config r;
  node_send_resolve : ∀ p msg n r, node_resolve n (fst (node_send p msg r)) = node_resolve n r
}.

Section instance.
Context {F S : Type} `{PA : PidAllocator S}.

Lemma rt_send_config p msg (r : Runtime F S) : config (fst (rt_send p msg r)) = config r.
Proof. unfold rt_send. by repeat split_match. Qed.

Lemma rt_send_resolve p msg n (r : Runtime F S) :
  rt_resolve n (fst (rt_send p msg r)) = rt_resolve n r.
Proof. unfold rt_send. by repeat split_match. Qed.

#[export] Instance runtime_node : Node (Runtime F S) := {|
  node_send := rt_send;
  node_resolve := rt_resolve;
  node_alive := is_alive;
  node_stop := stop;
  node_notify_exit := rt_notify 0;
  node_config := config;
  node_send_config := rt_send_config;
  node_send_resolve := rt_send_resolve
|}.
End instance.
