(* ===== verification/Timers.v ===== *)
(** * Timers ([src/src/lib.rs])

    [send_after], [send_interval] and [cancel_timer], and the tasks behind the
    timers, over any [Node].  [timers] holds the ids that still have a
    cancellation sender; a task is polled once its deadline has passed or its
    cancellation has been signalled, and when both are ready either branch of its
    [select!] may win.  Time is a clock in milliseconds; [fired] logs every send
    with its time.  Ids are 64-bit and a run creates fewer than 2^64 timers. *)
From S2P Require Import Prelude Pid Mailbox Registry Supervisor Runtime RuntimeInv Interface.

Section timers.
Context {R : Type} `{N : Node R}.

Inductive TimerKind := OneShot (delay_ms : Z) | Interval (interval_ms : Z).

(** [Armed]: waiting; [Signalled]: the cancellation has been sent; [Ending]: the
    loop is over and the entry is still to be removed; [Crashed]: the task
    panicked, its entry stays. *)
Inductive TimerState := Armed | Signalled | Ending | Over | Crashed.

Record TimerTask := mkTimer {
  tm_pid : Pid; tm_msg : Message; tm_kind : TimerKind; tm_start : Z; tm_due : Z; tm_state : TimerState
}.

Record TimerSys := mkTimers {
  t_node : R; timers : gset Z; timer_counter : Z; t_tasks : gmap Z TimerTask; clock : Z;
  fired : list (Z * Z)
}.

Definition set_state (g : TimerState) (t : TimerTask) : TimerTask :=
  mkTimer (tm_pid t) (tm_msg t) (tm_kind t) (tm_start t) (tm_due t) g.

Definition set_due (d : Z) (t : TimerTask) : TimerTask :=
  mkTimer (tm_pid t) (tm_msg t) (tm_kind t) (tm_start t) d (tm_state t).

Definition put_task (id : Z) (t : TimerTask) (s : TimerSys) : TimerSys :=
  mkTimers (t_node s) (timers s) (timer_counter s) (<[id := t]> (t_tasks s)) (clock s) (fired s).

(** The first tick of an interval is due at once. *)
Definition start_timer (pid : Pid) (k : TimerKind) (msg : Message) (s : TimerSys) : TimerSys * Z :=
  let id := ⌊timer_counter s + 1⌋₆₄ in
  let due := match k with OneShot d => clock s + d | Interval _ => clock s end in
  (mkTimers (t_node s) ({[id]} ∪ timers s) ⌊timer_counter s + 1⌋₆₄
     (<[id := mkTimer pid msg k (clock s) due Armed]> (t_tasks s)) (clock s) (fired s), id).

Definition send_after (pid : Pid) (delay_ms : Z) (msg : Message) (s : TimerSys) : TimerSys * Z :=
  start_timer pid (OneShot delay_ms) msg s.

Definition send_interval (pid : Pid) (interval_ms : Z) (msg : Message) (s : TimerSys) : TimerSys * Z :=
  start_timer pid (Interval interval_ms) msg s.

(** Removing the entry and signalling the task, if it still listens. *)
Definition cancel_timer (timer_id : Z) (s : TimerSys) : TimerSys * bool :=
  if decide (timer_id ∈ timers s) then
    let s1 := mkTimers (t_node s) (timers s ∖ {[timer_id]}) (timer_counter s) (t_tasks s) (clock s) (fired s) in
    match t_tasks s !! timer_id with
    | Some t =>
        (match tm_state t with Armed => put_task timer_id (set_state Signalled t) s1 | _ => s1 end, true)
    | None => (s1, true)
    end
  else (s, false).

(** A zero interval makes the task panic as soon as it starts. *)
Definition panics (t : TimerTask) : bool :=
  match tm_kind t with Interval p => p =? 0 | OneShot _ => false end.

Definition waiting (t : TimerTask) : bool :=
  match tm_state t with Armed | Signalled => true | _ => false end.

(** The timer branch of the task's [select!]. *)
Definition timer_fires (id : Z) (s : TimerSys) : TimerSys :=
  match t_tasks s !! id with
  | Some t =>
      if waiting t then
        if panics t then put_task id (set_state Crashed t) s
        else if tm_due t <=? clock s then
          let s1 := mkTimers (fst (node_send (tm_pid t) (tm_msg t) (t_node s))) (timers s) (timer_counter s)
                      (t_tasks s) (clock s) (fired s ++ [(id, clock s)]) in
          match tm_kind t with
          | OneShot _ => put_task id (set_state Ending t) s1
          | Interval p => put_task id (set_due (tm_due t + p) t) s1
          end
        else s
      else s
  | None => s
  end.

(** The cancellation branch. *)
Definition timer_sees_cancel (id : Z) (s : TimerSys) : TimerSys :=
  match t_tasks s !! id with
  | Some t =>
      match tm_state t with
      | Signalled => put_task id (set_state (if panics t then Crashed else Ending) t) s
      | _ => s
      end
  | None => s
  end.

(** The removal of the entry at the end of the task. *)
Definition timer_ends (id : Z) (s : TimerSys) : TimerSys :=
  match t_tasks s !! id with
  | Some t =>
      match tm_state t with
      | Ending =>
          put_task id (set_state Over t)
            (mkTimers (t_node s) (timers s ∖ {[id]}) (timer_counter s) (t_tasks s) (clock s) (fired s))
      | _ => s
      end
  | None => s
  end.

Definition advance (d : Z) (s : TimerSys) : TimerSys :=
  mkTimers (t_node s) (timers s) (timer_counter s) (t_tasks s) (clock s + d) (fired s).

(** ** Runs *)
Definition timers_init (s : TimerSys) : Prop :=
  timers s = ∅ ∧ timer_counter s = 0 ∧ t_tasks s = ∅ ∧ fired s = [].

Inductive timer_step : TimerSys → TimerSys → Prop :=
| ts_start pid k msg s : timer_counter s + 1 < 2 ^ 64 → timer_step s (fst (start_timer pid k msg s))
| ts_cancel id s : timer_step s (fst (cancel_timer id s))
| ts_fire id s : timer_step s (timer_fires id s)
| ts_see id s : timer_step s (timer_sees_cancel id s)
| ts_end id s : timer_step s (timer_ends id s)
| ts_time d s : 0 <= d → timer_step s (advance d s)
| ts_node r s : timer_step s (mkTimers r (timers s) (timer_counter s) (t_tasks s) (clock s) (fired s)).

(** The times at which a timer has sent. *)
Definition sends (id : Z) (s : TimerSys) : list Z := snd <$> filter (λ x, fst x = id) (fired s).

Definition times (id : Z) (s : TimerSys) : Z := Z.of_nat (length (sends id s)).

Definition task_ok (s : TimerSys) (id : Z) (t : TimerTask) : Prop :=
  tm_start t <= clock s ∧
  match tm_kind t with
  | OneShot d =>
      tm_due t = tm_start t + d ∧
      (waiting t = true → times id s = 0) ∧ times id s <= 1 ∧
      (1 <= times id s → tm_due t <= clock s)
  | Interval p =>
      tm_due t = tm_start t + times id s * p ∧
      (1 <= times id s → 0 <> p ∧ tm_start t + (times id s - 1) * p <= clock s)
  end ∧
  match tm_state t with
  | Armed => id ∈ timers s
  | Signalled | Over => id ∉ timers s
  | Ending | Crashed => True
  end.

Definition timers_inv (s : TimerSys) : Prop :=
  0 <= timer_counter s < 2 ^ 64 ∧
  (∀ id t, t_tasks s !! id = Some t → 1 <= id <= timer_counter s ∧ task_ok s id t) ∧
  (∀ id, id ∈ timers s → is_Some (t_tasks s !! id)) ∧
  (∀ id, t_tasks s !! id = None → sends id s = []).
(** ** Lemmas *)
Lemma task_ok_frame s s' id t :
  clock s <= clock s' → sends id s' = sends id s → (id ∈ timers s' ↔ id ∈ timers s) →
  task_ok s id t → task_ok s' id t.
Proof.
  intros Hc Hs Ht (H1 & H2 & H3). unfold task_ok, times in *. rewrite Hs. split; [lia|]. split.
  - destruct (tm_kind t); intuition lia.
  - destruct (tm_state t); tauto.
Qed.

Lemma sends_snoc id s id' r tms n tks c x :
  sends id (mkTimers r tms n tks c (fired s ++ [(id', x)])) =
    if decide (id' = id) then sends id s ++ [x] else sends id s.
Proof.
  unfold sends. simpl. rewrite filter_app, fmap_app, filter_cons, filter_nil. simpl.
  destruct (decide (id' = id)); [done|]. by rewrite app_nil_r.
Qed.

(** Replacing one task. *)
Lemma inv_put s s' id t' :
  timers_inv s → is_Some (t_tasks s !! id) → timer_counter s' = timer_counter s → clock s' = clock s →
  t_tasks s' = <[id := t']> (t_tasks s) → task_ok s' id t' →
  (∀ i, i ∈ timers s' → i ∈ timers s) → (∀ i, i ≠ id → i ∈ timers s → i ∈ timers s') →
  (∀ i, i ≠ id → sends i s' = sends i s) → timers_inv s'.
Proof.
  intros (I1 & I2 & I3 & I4) [t0 Ht0] En Ec Et Hok Hsub Hsup Hsends. split_and!; rewrite ?En, ?Et; try apply I1.
  - intros i t Hi. destruct (decide (i = id)) as [->|Hne].
    + rewrite lookup_insert_eq in Hi. injection Hi as <-. split; [by apply (I2 id t0)|done].
    + rewrite lookup_insert_ne in Hi by done. destruct (I2 i t Hi) as [Hr Hti]. split; [done|].
      apply (task_ok_frame s); [lia|by apply Hsends| |done]. split; [apply Hsub|by apply Hsup].
  - intros i Hi%Hsub. destruct (decide (i = id)) as [->|Hne]; [by rewrite lookup_insert_eq|].
    rewrite lookup_insert_ne by done. by apply I3.
  - intros i Hi. destruct (decide (i = id)) as [->|Hne]; [by rewrite lookup_insert_eq in Hi|].
    rewrite lookup_insert_ne in Hi by done. rewrite Hsends by done. by apply I4.
Qed.

Lemma inv_start pid k msg s : timer_counter s + 1 < 2 ^ 64 → timers_inv s → timers_inv (fst (start_timer pid k msg s)).
Proof.
  intros Hn (I1 & I2 & I3 & I4). unfold start_timer. cbn [fst].
  rewrite wrap_small by (unfold fits; lia). set (n := timer_counter s + 1) in *.
  assert (Hfresh : t_tasks s !! n = None).
  { destruct (t_tasks s !! n) as [t|] eqn:E; [|done]. apply I2 in E as [? _]. lia. }
  split_and!; cbn [timer_counter t_tasks timers]; try lia.
  - intros i t Hi. destruct (decide (i = n)) as [->|Hne].
    + rewrite lookup_insert_eq in Hi. injection Hi as <-. split; [lia|].
      unfold task_ok, times. change (sends n _) with (sends n s). rewrite I4 by done. simpl.
      split; [lia|]. split; [destruct k; lia|set_solver].
    + rewrite lookup_insert_ne in Hi by done. destruct (I2 i t Hi) as [Hr Hti]. split; [lia|].
      apply (task_ok_frame s); [simpl; lia|done|simpl; set_solver|done].
  - intros i [->%elem_of_singleton|Hi]%elem_of_union; [by rewrite lookup_insert_eq|].
    destruct (decide (i = n)) as [->|Hne]; [by rewrite lookup_insert_eq|].
    rewrite lookup_insert_ne by done. by apply I3.
  - intros i [Hi _]%lookup_insert_None. by apply I4.
Qed.

Lemma inv_cancel id s : timers_inv s → timers_inv (fst (cancel_timer id s)).
Proof.
  intros Hi. unfold cancel_timer. case_decide as Hid; [|done]. assert (Hi' := Hi).
  destruct Hi as (I1 & I2 & I3 & I4). destruct (I3 id Hid) as [t Ht]. rewrite Ht. cbn [fst].
  destruct (I2 id t Ht) as [Hr (H1 & H2 & H3)].
  set (s1 := mkTimers _ _ _ _ _ _).
  assert (Hput : ∀ t', task_ok s1 id t' → timers_inv (put_task id t' s1)).
  { intros t' Hok. apply (inv_put s _ id t'); try done.
    - intros i. change (i ∈ timers s ∖ {[id]} → i ∈ timers s). set_solver.
    - intros i Hne. change (i ∈ timers s → i ∈ timers s ∖ {[id]}). set_solver. }
  assert (Hsame : s1 = put_task id t s1) by (unfold put_task, s1; simpl; by rewrite insert_id).
  destruct (tm_state t) eqn:Et.
  - apply Hput. split; [done|]. unfold waiting in H2. rewrite Et in H2.
    split; [exact H2|]. change (id ∉ timers s ∖ {[id]}). set_solver.
  - by destruct H3.
  - rewrite Hsame. apply Hput. split; [done|]. split; [done|]. by rewrite Et.
  - by destruct H3.
  - rewrite Hsame. apply Hput. split; [done|]. split; [done|]. by rewrite Et.
Qed.

Lemma inv_see id s : timers_inv s → timers_inv (timer_sees_cancel id s).
Proof.
  intros Hi. unfold timer_sees_cancel. destruct (t_tasks s !! id) as [t|] eqn:Ht; [|done].
  destruct (tm_state t) eqn:Et; try done.
  destruct Hi as (I1 & I2 & I3 & I4). destruct (I2 id t Ht) as [Hr (H1 & H2 & H3)].
  apply (inv_put s _ id (set_state (if panics t then Crashed else Ending) t)); try done.
  split; [done|]. split; [|by destruct (panics t)]. cbn [tm_kind tm_due tm_start set_state].
  unfold waiting in H2. rewrite Et in H2. destruct (tm_kind t) eqn:Ek; [|done].
  destruct H2 as (? & ? & ? & ?). split_and!; try done. intros _. by auto.
Qed.

Lemma inv_ends id s : timers_inv s → timers_inv (timer_ends id s).
Proof.
  intros Hi. unfold timer_ends. destruct (t_tasks s !! id) as [t|] eqn:Ht; [|done].
  destruct (tm_state t) eqn:Et; try done.
  destruct Hi as (I1 & I2 & I3 & I4). destruct (I2 id t Ht) as [Hr (H1 & H2 & H3)].
  apply (inv_put s _ id (set_state Over t)); try done.
  - split; [done|]. unfold waiting in H2. rewrite Et in H2. cbn [tm_kind tm_due tm_start tm_state set_state waiting].
    split; [|change (id ∉ timers s ∖ {[id]}); set_solver].
    destruct (tm_kind t); [|done]. destruct H2 as (? & ? & ? & ?). split_and!; done.
  - intros i. change (i ∈ timers s ∖ {[id]} → i ∈ timers s). set_solver.
  - intros i Hne. change (i ∈ timers s → i ∈ timers s ∖ {[id]}). set_solver.
Qed.

Lemma inv_fires id s : timers_inv s → timers_inv (timer_fires id s).
Proof.
  intros Hi. unfold timer_fires. destruct (t_tasks s !! id) as [t|] eqn:Ht; [|done].
  destruct (waiting t) eqn:Ew; [|done].
  destruct Hi as (I1 & I2 & I3 & I4). destruct (I2 id t Ht) as [Hr (H1 & H2 & H3)].
  destruct (panics t) eqn:Ep.
  { apply (inv_put s _ id (set_state Crashed t)); try done.
    split; [done|]. split; [|done]. cbn [tm_kind tm_due tm_start set_state].
    unfold panics in Ep. by destruct (tm_kind t). }
  destruct (tm_due t <=? clock s) eqn:Ed; [breflect|done].
  set (s1 := mkTimers _ _ _ _ _ _).
  assert (Hs1 : sends id s1 = sends id s ++ [clock s]) by (unfold s1; by rewrite sends_snoc, decide_True).
  assert (Ht1 : times id s1 = times id s + 1) by (unfold times; rewrite Hs1, length_app; simpl; lia).
  assert (Hput : ∀ t', task_ok s1 id t' → timers_inv (put_task id t' s1)).
  { intros t' Hok. apply (inv_put s _ id t'); try done.
    intros i Hne. change (sends i (put_task id t' s1)) with (sends i s1). unfold s1.
    by rewrite sends_snoc, decide_False. }
  unfold panics in Ep. destruct (tm_kind t) as [d|p] eqn:Ek; apply Hput; (split; [done|]); rewrite Ht1.
  - destruct H2 as (E1 & E2 & E3 & E4). cbn [tm_kind set_state tm_due tm_start]. rewrite Ek.
    rewrite E2 by done. split; [|done]. simpl. split_and!; [done|done|lia|done].
  - cbn [tm_kind set_due tm_due tm_start tm_state]. rewrite Ek. split; [|by destruct (tm_state t)].
    breflect. destruct H2 as [E1 E2]. split; [lia|]. intros _. split; [lia|].
    replace (times id s + 1 - 1) with (times id s) by lia. simpl. lia.
Qed.

Lemma timer_step_inv s s' : timers_inv s → timer_step s s' → timers_inv s'.
Proof.
  intros Hi Hs. destruct Hs as [pid k msg s Hn|id s|id s|id s|id s|d s Hd|r s].
  - by apply inv_start.
  - by apply inv_cancel.
  - by apply inv_fires.
  - by apply inv_see.
  - by apply inv_ends.
  - destruct Hi as (I1 & I2 & I3 & I4). split_and!; try apply I1; try done. intros i t Ht. destruct (I2 i t Ht) as [Hr Hok].
    split; [done|]. by apply (task_ok_frame s); [simpl; lia| | |].
  - destruct Hi as (I1 & I2 & I3 & I4). split_and!; try apply I1; done.
Qed.

Lemma timers_reachable_inv s : reachable timers_init timer_step s → timers_inv s.
Proof.
  apply reachable_invariant; [|apply timer_step_inv]. intros s0 (E1 & E2 & E3 & E4).
  unfold timers_inv, sends. rewrite E1, E2, E3, E4. split_and!; by try lia.
Qed.

Lemma cancel_ok id s : timers_inv s → id ∈ timers s →
  snd (cancel_timer id s) = true ∧ timers (fst (cancel_timer id s)) = timers s ∖ {[id]} ∧
  fired (fst (cancel_timer id s)) = fired s ∧ clock (fst (cancel_timer id s)) = clock s ∧
  ∃ t, t_tasks s !! id = Some t ∧ t_tasks (fst (cancel_timer id s)) !! id =
    Some (match tm_state t with Armed => set_state Signalled t | _ => t end).
Proof.
  intros (_ & _ & I3 & _) Hid. unfold cancel_timer. rewrite decide_True by done.
  destruct (I3 id Hid) as [t Ht]. rewrite Ht. cbn [fst snd].
  destruct (tm_state t) eqn:Et; split_and!; try done; exists t; rewrite Et; (split; [done|]);
    [by apply lookup_insert_eq|done..].
Qed.

(** A task that is over, or has crashed, does nothing any more. *)
Definition silent (s : TimerSys) (id : Z) : Prop :=
  ∃ t, t_tasks s !! id = Some t ∧ waiting t = false.

Lemma step_silent s s' id : timers_inv s → timer_step s s' → silent s id →
  silent s' id ∧ sends id s' = sends id s.
Proof.
  intros (I1 & I2 & I3 & I4) Hs (t & Ht & Hw). destruct (I2 id t Ht) as [Hr _].
  assert (Hkeep : ∀ i t' r tms n c, i ≠ id → silent (mkTimers r tms n (<[i := t']> (t_tasks s)) c (fired s)) id).
  { intros i t' r tms n c Hne. exists t. simpl. by rewrite lookup_insert_ne. }
  destruct Hs as [pid k msg s Hn|i s|i s|i s|i s|d s Hd|r s]; try (split; [by exists t|done]).
  - split; [|done]. unfold start_timer. cbn [fst]. rewrite wrap_small by (unfold fits; lia). apply Hkeep. lia.
  - unfold cancel_timer. case_decide; [|by split; [exists t|]]. destruct (t_tasks s !! i) as [ti|] eqn:Ei;
      [|by split; [exists t|]]. cbn [fst]. destruct (tm_state ti) eqn:Es; try (by split; [exists t|]).
    split; [|done]. apply Hkeep. intros ->. unfold waiting in Hw. replace ti with t in * by congruence.
    by rewrite Es in Hw.
  - unfold timer_fires. destruct (t_tasks s !! i) as [ti|] eqn:Ei; [|by split; [exists t|]].
    destruct (waiting ti) eqn:Ew; [|by split; [exists t|]].
    assert (Hne : i ≠ id) by (intros ->; congruence).
    destruct (panics ti); [by split; [apply Hkeep|]|].
    destruct (tm_due ti <=? clock s); [|by split; [exists t|]]. destruct (tm_kind ti);
      (split; [exists t; simpl; by rewrite lookup_insert_ne|]); unfold put_task; cbn [fired timers t_tasks];
      unfold sends; simpl; by rewrite filter_app, fmap_app, filter_cons, filter_nil, decide_False, app_nil_r.
  - unfold timer_sees_cancel. destruct (t_tasks s !! i) as [ti|] eqn:Ei; [|by split; [exists t|]].
    destruct (tm_state ti) eqn:Es; try (by split; [exists t|]). split; [|done]. apply Hkeep.
    intros ->. unfold waiting in Hw. replace ti with t in * by congruence. by rewrite Es in Hw.
  - unfold timer_ends. destruct (t_tasks s !! i) as [ti|] eqn:Ei; [|by split; [exists t|]].
    destruct (tm_state ti) eqn:Es; try (by split; [exists t|]). split; [|done].
    destruct (decide (i = id)) as [->|Hne]; [|by apply Hkeep].
    exists (set_state Over ti). simpl. by rewrite lookup_insert_eq.
Qed.

(** ** Properties *)

(** C40: In every reachable state a one-shot timer has sent at most once and not
    before its delay; an interval timer has sent its (k+1)-th message not before
    k periods after its start, and none if its period is zero; and an id is
    cancellable exactly as long as its entry is there, which for a timer that
    still waits uncancelled is always the case. *)
Theorem timer_sends s id t :
  reachable timers_init timer_step s → t_tasks s !! id = Some t →
  match tm_kind t with
  | OneShot d => times id s <= 1 ∧ (times id s = 1 → tm_start t + d <= clock s)
  | Interval p => times id s = 0 ∨ (p ≠ 0 ∧ tm_start t + (times id s - 1) * p <= clock s)
  end ∧
  snd (cancel_timer id s) = bool_decide (id ∈ timers s) ∧ (tm_state t = Armed → id ∈ timers s).
Proof.
  intros Hi%timers_reachable_inv Ht. assert (Hi' := Hi). destruct Hi as (I1 & I2 & I3 & I4).
  destruct (I2 id t Ht) as [_ (H1 & H2 & H3)]. split_and!.
  - destruct (tm_kind t) as [d|p].
    + destruct H2 as (E1 & E2 & E3 & E4). split; [done|]. intros Ht1. rewrite <-E1. apply E4. lia.
    + destruct H2 as [E1 E2]. assert (0 <= times id s) by (unfold times; lia).
      destruct (decide (times id s = 0)) as [?|?]; [by left|right].
      destruct E2 as [? ?]; [lia|]. split; [|done]. congruence.
  - case_bool_decide as Hid; [by apply cancel_ok|]. unfold cancel_timer. by rewrite decide_False.
  - intros Es. by rewrite Es in H3.
Qed.

(** [cancel_timer] answers true exactly once per entry: it removes the entry
    and signals the task, sends nothing itself, and a second call answers false.
    Once the task has taken the signal, or has ended otherwise, it never sends
    again, whatever happens after. *)
Theorem cancel_stops_timer id s :
  reachable timers_init timer_step s → id ∈ timers s →
  let (s1, b) := cancel_timer id s in
  b = true ∧ (id ∉ timers s1) ∧ sends id s1 = sends id s ∧ snd (cancel_timer id s1) = false ∧
  ∀ s2 s3, timer_sees_cancel id s1 = s2 → rtc timer_step s2 s3 → sends id s3 = sends id s.
Proof.
  intros Hr Hid. assert (Hi := timers_reachable_inv s Hr).
  destruct (cancel_ok id s Hi Hid) as (E1 & E2 & E3 & _ & t & Ht & Ht').
  assert (Hi1 := inv_cancel id s Hi). destruct (cancel_timer id s) as [s1 b]. cbn [fst snd] in *.
  assert (Hni : id ∉ timers s1) by (rewrite E2; set_solver).
  assert (Hs1 : sends id s1 = sends id s) by (unfold sends; by rewrite E3).
  split_and!; try done; [by unfold cancel_timer; rewrite decide_False|].
  intros s2 s3 <- Hrun.
  assert (Hsil : silent (timer_sees_cancel id s1) id ∧ sends id (timer_sees_cancel id s1) = sends id s).
  { unfold timer_sees_cancel. rewrite Ht'. destruct (tm_state t) eqn:Es; cbn [tm_state set_state]; rewrite ?Es.
    - split; [|done]. eexists. cbn [put_task t_tasks]. rewrite lookup_insert_eq. split; [done|].
      by destruct (panics _).
    - destruct Hi as (_ & I2 & _ & _). destruct (I2 id t Ht) as [_ (_ & _ & H3)]. by rewrite Es in H3.
    - split; [|done]. exists t. unfold waiting. by rewrite Ht', Es.
    - split; [|done]. exists t. unfold waiting. by rewrite Ht', Es.
    - split; [|done]. exists t. unfold waiting. by rewrite Ht', Es. }
  assert (Hi2 := inv_see id s1 Hi1). destruct Hsil as [Hsil <-]. revert Hi2 Hsil.
  induction Hrun as [x|x y z Hxy Hyz IH]; intros Hix Hsx; [done|].
  destruct (step_silent x y id Hix Hxy Hsx) as [Hsy Hey].
  rewrite IH; [done| |done]. by eapply timer_step_inv.
Qed.

(** A cancellation that answered true does not exclude a later send: if the
    timer's deadline has passed but its task has not been polled yet, the task
    may still take the timer branch. *)
Theorem cancelled_timer_may_fire id t s :
  id ∈ timers s → t_tasks s !! id = Some t → tm_state t = Armed → panics t = false → tm_due t <= clock s →
  let (s1, b) := cancel_timer id s in
  b = true ∧ sends id (timer_fires id s1) = sends id s ++ [clock s] ∧
  t_node (timer_fires id s1) = fst (node_send (tm_pid t) (tm_msg t) (t_node s)).
Proof.
  intros Hid Ht Hst Hp Hd. unfold cancel_timer. rewrite decide_True, Ht, Hst by done.
  unfold timer_fires. cbn [put_task t_tasks]. rewrite lookup_insert_eq.
  unfold waiting, panics in *. cbn [put_task tm_state set_state tm_kind tm_due clock timers fired t_node tm_pid tm_msg].
  rewrite Hp. apply Z.leb_le in Hd. rewrite Hd.
  destruct (tm_kind t); (split; [done|]; split; [|done]); unfold sends; simpl;
    by rewrite filter_app, fmap_app, filter_cons, filter_nil, decide_True.
Qed.
End timers.

(** ** Instances *)
Module TimerDemo.
Definition idle : TimerSys (R := Runtime unit SlabAllocator) := mkTimers Demo.two ∅ 0 ∅ 0 [].

Definition armed : TimerSys := fst (send_after Demo.a 5 (User []) idle).

Definition due : TimerSys := advance 5 armed.

Definition task : TimerTask := mkTimer Demo.a (User []) (OneShot 5) 0 5 Armed.
End TimerDemo.

Lemma timer_demo_reachable : reachable timers_init timer_step TimerDemo.due.
Proof.
  apply (reach_step _ _ TimerDemo.armed); [|by apply ts_time].
  apply (reach_step _ _ TimerDemo.idle); [by apply reach_init|by apply ts_start].
Qed.

Lemma timer_sends_witness :
  (times 1 TimerDemo.due <= 1 ∧ (times 1 TimerDemo.due = 1 → 0 + 5 <= clock TimerDemo.due)) ∧
  snd (cancel_timer 1 TimerDemo.due) = bool_decide (1 ∈ timers TimerDemo.due) ∧
  (tm_state TimerDemo.task = Armed → 1 ∈ timers TimerDemo.due).
Proof. apply (timer_sends TimerDemo.due 1 TimerDemo.task); [apply timer_demo_reachable|reflexivity]. Defined.

Lemma cancel_stops_timer_witness :
  let (s1, b) := cancel_timer 1 TimerDemo.due in
  b = true ∧ (1 ∉ timers s1) ∧ sends 1 s1 = sends 1 TimerDemo.due ∧ snd (cancel_timer 1 s1) = false ∧
  ∀ s2 s3, timer_sees_cancel 1 s1 = s2 → rtc timer_step s2 s3 → sends 1 s3 = sends 1 TimerDemo.due.
Proof. apply (cancel_stops_timer 1 TimerDemo.due); [apply timer_demo_reachable|by vm_compute]. Defined.

Lemma cancelled_timer_may_fire_witness :
  let (s1, b) := cancel_timer 1 TimerDemo.due in
  b = true ∧ sends 1 (timer_fires 1 s1) = sends 1 TimerDemo.due ++ [clock TimerDemo.due] ∧
  t_node (timer_fires 1 s1) = fst (node_send Demo.a (User []) (t_node TimerDemo.due)).
Proof.
  apply (cancelled_timer_may_fire 1 TimerDemo.task TimerDemo.due);
    [by vm_compute|reflexivity|reflexivity|reflexivity|vm_compute; discriminate].
Defined.
