(* ===== verification/Wire.v ===== *)
(** * The wire format ([src/src/network.rs])

    Message types, big-endian integers, the UTF-8 check of names and the frames
    a client writes.  Bytes are [byte]; an integer field is written most
    significant byte first. *)
From S2P Require Import Prelude Pid Mailbox.
From Stdlib Require Import Strings.Byte.

Definition PROTOCOL_VERSION : byte := x01.

Inductive MessageType := MtUser | MtResolve | MtPing.

(** [as u8] *)
Definition type_byte (t : MessageType) : byte :=
  match t with MtUser => x00 | MtResolve => x01 | MtPing => x02 end.

(** [MessageType::try_from] *)
Definition type_of_byte (b : byte) : option MessageType :=
  match b with
  | x00 => Some MtUser
  | x01 => Some MtResolve
  | x02 => Some MtPing
  | _ => None
  end.

(** ** Integers *)
Definition Z_of_byte (b : byte) : Z := Z.of_N (Byte.to_N b).

Definition byte_of_Z (z : Z) : byte := default x00 (Byte.of_N (Z.to_N (z mod 256))).

(** [to_be_bytes] of an [n]-byte integer. *)
Fixpoint to_be_bytes (n : nat) (z : Z) : Bytes :=
  match n with
  | O => []
  | S n' => byte_of_Z (z / 256 ^ Z.of_nat n') :: to_be_bytes n' z
  end.

(** [from_be_bytes] *)
Definition from_be_bytes (l : Bytes) : Z := fold_left (λ acc b, acc * 256 + Z_of_byte b) l 0.

(** ** UTF-8

    [String::from_utf8] accepts exactly the well-formed sequences of the
    Unicode standard: no overlong form, no surrogate, nothing above U+10FFFF. *)
Definition in_range (lo hi : Z) (b : byte) : bool := (lo <=? Z_of_byte b) && (Z_of_byte b <=? hi).

Definition continuation : byte → bool := in_range 128 191.

(** The range of the second byte after a given first byte of a three- or
    four-byte sequence. *)
Definition second3 (b : byte) : byte → bool :=
  if Z_of_byte b =? 224 then in_range 160 191
  else if Z_of_byte b =? 237 then in_range 128 159
  else continuation.

Definition second4 (b : byte) : byte → bool :=
  if Z_of_byte b =? 240 then in_range 144 191
  else if Z_of_byte b =? 244 then in_range 128 143
  else continuation.

Fixpoint utf8_valid (bs : Bytes) : bool :=
  match bs with
  | [] => true
  | b :: r =>
      if in_range 0 127 b then utf8_valid r
      else if in_range 194 223 b then
        match r with
        | b1 :: r1 => continuation b1 && utf8_valid r1
        | _ => false
        end
      else if in_range 224 239 b then
        match r with
        | b1 :: b2 :: r2 => second3 b b1 && continuation b2 && utf8_valid r2
        | _ => false
        end
      else if in_range 240 244 b then
        match r with
        | b1 :: b2 :: b3 :: r3 => second4 b b1 && continuation b2 && continuation b3 && utf8_valid r3
        | _ => false
        end
      else false
  end.

(** [String::from_utf8]; a [string] is its sequence of bytes. *)
Definition from_utf8 (bs : Bytes) : option string :=
  if utf8_valid bs then Some (String.string_of_list_byte bs) else None.

Definition as_bytes (s : string) : Bytes := String.list_byte_of_string s.

(** ** Frames *)
Inductive frame :=
| FUser (pid : Pid) (data : Bytes)
| FResolve (name : string)
| FPing.

(** The bytes a client writes for a frame; lengths are cast to [u32]. *)
Definition encode_frame (f : frame) : Bytes :=
  match f with
  | FUser pid data =>
      [type_byte MtUser] ++ to_be_bytes 8 pid ++
      to_be_bytes 4 ⌊Z.of_nat (length data)⌋₃₂ ++ data
  | FResolve name =>
      [type_byte MtResolve] ++ to_be_bytes 4 ⌊Z.of_nat (length (as_bytes name))⌋₃₂ ++ as_bytes name
  | FPing => [type_byte MtPing]
  end.

Definition encode_frames (fs : list frame) : Bytes := concat (encode_frame <$> fs).

(** ** Lemmas *)
Lemma Z_of_byte_range b : 0 <= Z_of_byte b < 256.
Proof. unfold Z_of_byte. assert (H := Byte.to_N_bounded b). lia. Qed.

Lemma Z_of_byte_of_Z z : Z_of_byte (byte_of_Z z) = z mod 256.
Proof.
  unfold byte_of_Z, Z_of_byte. assert (Hz : 0 <= z mod 256 < 256) by (apply Z.mod_pos_bound; lia).
  destruct (Byte.of_N (Z.to_N (z mod 256))) as [b|] eqn:E.
  - apply Byte.to_of_N in E. simpl. rewrite E. lia.
  - apply Byte.of_N_None_iff in E. lia.
Qed.

Lemma byte_of_Z_of_byte b : byte_of_Z (Z_of_byte b) = b.
Proof.
  unfold byte_of_Z. rewrite Z.mod_small by apply Z_of_byte_range.
  unfold Z_of_byte. by rewrite N2Z.id, Byte.of_to_N.
Qed.

Lemma length_to_be_bytes n z : length (to_be_bytes n z) = n.
Proof. induction n as [|n IH]; [done|]. simpl. by rewrite IH. Qed.

Lemma fold_be_shift l a :
  fold_left (λ acc b, acc * 256 + Z_of_byte b) l a = a * 256 ^ Z.of_nat (length l) + from_be_bytes l.
Proof.
  unfold from_be_bytes. revert a. induction l as [|b l IH]; intros a; [simpl; lia|].
  cbn [fold_left length]. rewrite IH, (IH (0 * 256 + Z_of_byte b)), Nat2Z.inj_succ, Z.pow_succ_r by lia. lia.
Qed.

Lemma from_be_cons b l : from_be_bytes (b :: l) = Z_of_byte b * 256 ^ Z.of_nat (length l) + from_be_bytes l.
Proof. unfold from_be_bytes at 1. cbn [fold_left]. by rewrite fold_be_shift. Qed.

Lemma from_be_range l : 0 <= from_be_bytes l < 256 ^ Z.of_nat (length l).
Proof.
  induction l as [|b l IH]; [done|]. rewrite from_be_cons. cbn [length].
  rewrite Nat2Z.inj_succ, Z.pow_succ_r by lia. assert (Hb := Z_of_byte_range b). nia.
Qed.

Lemma from_to_be_bytes n z : from_be_bytes (to_be_bytes n z) = z mod 256 ^ Z.of_nat n.
Proof.
  induction n as [|n IH]; [by rewrite Z.mod_1_r|].
  cbn [to_be_bytes]. rewrite from_be_cons, Z_of_byte_of_Z, length_to_be_bytes, IH, Nat2Z.inj_succ, Z.pow_succ_r by lia.
  rewrite (Z.mul_comm 256), Z.rem_mul_r by lia. lia.
Qed.

Lemma to_from_be_bytes l : to_be_bytes (length l) (from_be_bytes l) = l.
Proof.
  induction l as [|b l IH]; [done|]. cbn [length to_be_bytes].
  assert (Hr := from_be_range l). set (w := 256 ^ Z.of_nat (length l)) in *.
  rewrite from_be_cons. fold w. f_equal.
  - rewrite Z.div_add_l, (Z.div_small _ w), Z.add_0_r by lia. apply byte_of_Z_of_byte.
  - etransitivity; [|exact IH]. clear IH. unfold w in *. clear w. revert Hr.
    generalize (from_be_bytes l), (Z_of_byte b). intros z y Hr.
    assert (Hgen : ∀ m, (m <= length l)%nat →
      to_be_bytes m (y * 256 ^ Z.of_nat (length l) + z) = to_be_bytes m z); [|by apply Hgen].
    induction m as [|m IHm]; intros Hm; [done|]. cbn [to_be_bytes]. rewrite IHm by lia. f_equal.
    unfold byte_of_Z. do 3 f_equal.
    replace (y * 256 ^ Z.of_nat (length l))
      with (y * 256 ^ (Z.of_nat (length l) - Z.of_nat m - 1) * 256 * 256 ^ Z.of_nat m).
    + rewrite Z.div_add_l by lia. by rewrite Z.add_comm, Z.mod_add.
    + rewrite <-!Z.mul_assoc. f_equal. rewrite <-Z.pow_succ_r, <-Z.pow_add_r by lia. f_equal. lia.
Qed.

Lemma from_utf8_as_bytes name : utf8_valid (as_bytes name) = true → from_utf8 (as_bytes name) = Some name.
Proof. unfold from_utf8, as_bytes. intros ->. by rewrite String.string_of_list_byte_of_string. Qed.

#[export] Hint Rewrite length_to_be_bytes from_to_be_bytes Z_of_byte_of_Z byte_of_Z_of_byte : actor_rw.
