(* ===== verification/Connection.v ===== *)
(** * Connections ([src/src/network.rs])

    The server side of a connection and the client calls that talk to it.  A
    reader is the script of what its successive reads find: data in any chunks,
    a failure, or nothing until the timeout.  All calls run in a state and error
    monad over the connection.

    The handler is proved against [Node]: what it does for a well-formed stream
    of frames, for each kind of malformed input, and what no input can make it
    do.  The runtime is not changed by others between two operations of one
    handler in this file. *)
From S2P Require Import Prelude Pid Mailbox Registry Supervisor Runtime Interface Wire.
From Stdlib Require Import Strings.Byte.

(** ** I/O *)
Inductive ErrorKind := UnexpectedEof | TimedOut | InvalidData | InvalidInput | ConnectionAborted | OtherError.

Record IoError := mkIoError { kind : ErrorKind; message : string }.

(** What a read finds; an empty chunk, like the end of the script, is the end
    of the stream. *)
Inductive rd_event := Data (bs : Bytes) | Stall | Fail (e : IoError).

(** What becomes of a write; the end of the script is success. One that stalls
    or fails may have sent a part of its bytes. *)
Inductive wr_event := Written | WriteStall (sent : nat) | WriteFail (sent : nat) (e : IoError).

(** The bytes of a write that are sent. *)
Definition sent_of (w : wr_event) (bs : Bytes) : Bytes :=
  match w with
  | Written => bs
  | WriteStall n | WriteFail n _ => take n bs
  end.

Definition closed_error : IoError := mkIoError UnexpectedEof "connection closed".

Definition read_timeout_error : IoError := mkIoError TimedOut "read timed out".

Definition write_timeout_error : IoError := mkIoError TimedOut "write timed out".

Section connection.
Context {R : Type} `{N : Node R}.

(** The handler's view: the node, what is still to be read and written, and
    the bytes written so far. *)
Record Conn := mkConn { node : R; input : list rd_event; writes : list wr_event; output : Bytes }.

Definition M (A : Type) : Type := Conn → result A IoError * Conn.

Definition ret {A} (a : A) : M A := λ c, (Ok a, c).

Definition fail {A} (k : ErrorKind) (msg : string) : M A := λ c, (Err (mkIoError k msg), c).

Definition bind {A B} (m : M A) (f : A → M B) : M B := λ c,
  match m c with
  | (Ok a, c') => f a c'
  | (Err e, c') => (Err e, c')
  end.

Local Notation "'let!' x ':=' m 'in' k" := (bind m (λ x, k))
  (at level 10, x pattern, m at level 100, k at level 200).

Definition get_config : M Config := λ c, (Ok (node_config (node c)), c).

(** [read_exact_with_timeout] for a buffer of [n] bytes: each read gives at most
    the bytes still wanted and leaves the rest of the chunk. *)
Fixpoint read_events (n : nat) (evs : list rd_event) : result Bytes IoError * list rd_event :=
  match n, evs with
  | O, _ => (Ok [], evs)
  | _, [] => (Err closed_error, [])
  | _, Stall :: evs' => (Err read_timeout_error, evs')
  | _, Fail e :: evs' => (Err e, evs')
  | _, Data [] :: evs' => (Err closed_error, evs')
  | _, Data bs :: evs' =>
      if (length bs <=? n)%nat then
        match read_events (n - length bs) evs' with
        | (Ok more, r) => (Ok (bs ++ more), r)
        | (Err e, r) => (Err e, r)
        end
      else (Ok (take n bs), Data (drop n bs) :: evs')
  end.

Definition read_exact (n : nat) : M Bytes := λ c,
  let (r, evs) := read_events n (input c) in (r, mkConn (node c) evs (writes c) (output c)).

(** [write_all_with_timeout] *)
Definition write_all (bs : Bytes) : M unit := λ c,
  match writes c with
  | [] => (Ok tt, mkConn (node c) (input c) [] (output c ++ bs))
  | Written :: ws => (Ok tt, mkConn (node c) (input c) ws (output c ++ bs))
  | WriteStall n :: ws => (Err write_timeout_error, mkConn (node c) (input c) ws (output c ++ take n bs))
  | WriteFail n e :: ws => (Err e, mkConn (node c) (input c) ws (output c ++ take n bs))
  end.

(** ** The handler *)
Definition handle_user : M unit :=
  let! meta := read_exact 12 in
  let pid := from_be_bytes (take 8 meta) in
  let len := from_be_bytes (drop 8 meta) in
  let! cfg := get_config in
  if network_max_payload cfg <? len then fail InvalidData "payload too large"
  else
    let! data := read_exact (Z.to_nat len) in
    λ c, (Ok tt, mkConn (fst (node_send pid (User data) (node c))) (input c) (writes c) (output c)).

Definition handle_resolve : M unit :=
  let! len_buf := read_exact 4 in
  let len := from_be_bytes len_buf in
  let! cfg := get_config in
  if network_max_name_len cfg <? len then fail InvalidData "resolve name too long"
  else
    let! name_vec := read_exact (Z.to_nat len) in
    match from_utf8 name_vec with
    | None => fail InvalidData "invalid utf8 in resolve request"
    | Some name =>
        λ c, write_all (to_be_bytes 8 (default 0 (node_resolve name (node c)))) c
    end.

Definition handle_frame (header : Bytes) : M unit :=
  match header with
  | b :: _ =>
      match type_of_byte b with
      | None => fail InvalidData "unknown message type"
      | Some MtUser => handle_user
      | Some MtResolve => handle_resolve
      | Some MtPing => write_all [x03]
      end
  | [] => ret tt
  end.

(** The [while] loop; [None] is a loop that has not ended within the fuel. *)
Fixpoint connection_loop (fuel : nat) (c : Conn) : option (result unit IoError * Conn) :=
  match fuel with
  | O => None
  | S fuel' =>
      match read_exact 1 c with
      | (Err _, c') => Some (Ok tt, c')
      | (Ok header, c') =>
          match handle_frame header c' with
          | (Ok _, c'') => connection_loop fuel' c''
          | (Err e, c'') => Some (Err e, c'')
          end
      end
  end.

Definition input_size (evs : list rd_event) : nat :=
  list_sum ((λ ev, match ev with Data bs => length bs | _ => O end) <$> evs).

Definition handle_connection (c : Conn) : option (result unit IoError * Conn) :=
  match read_exact 1 c with
  | (Err e, c') => Some (Err e, c')
  | (Ok version, c') =>
      if bool_decide (version = [PROTOCOL_VERSION]) then
        connection_loop (S (input_size (input c'))) c'
      else Some (Err (mkIoError InvalidData "protocol version mismatch"), c')
  end.
(** ** Byte streams

    A script seen byte by byte, up to its chunks. *)
Definition stream_event (ev : rd_event) : list (byte + IoError) :=
  match ev with
  | Data [] => [inr closed_error]
  | Data bs => inl <$> bs
  | Stall => [inr read_timeout_error]
  | Fail e => [inr e]
  end.

Definition stream (evs : list rd_event) : list (byte + IoError) := concat (stream_event <$> evs).

Fixpoint take_stream (n : nat) (st : list (byte + IoError)) : result Bytes IoError * list (byte + IoError) :=
  match n, st with
  | O, _ => (Ok [], st)
  | _, [] => (Err closed_error, [])
  | _, inr e :: st' => (Err e, st')
  | S n', inl b :: st' =>
      match take_stream n' st' with
      | (Ok bs, r) => (Ok (b :: bs), r)
      | (Err e, r) => (Err e, r)
      end
  end.

Definition conn_equiv (c1 c2 : Conn) : Prop :=
  node c1 = node c2 ∧ writes c1 = writes c2 ∧ output c1 = output c2 ∧
  stream (input c1) = stream (input c2).

#[export] Instance conn_equiv_equivalence : Equivalence conn_equiv.
Proof.
  split; [done|by intros ?? (?&?&?&?)|].
  intros ??? (?&?&?&?) (?&?&?&?). split_and!; congruence.
Qed.

(** A call that cannot tell equivalent connections apart. *)
Definition result_equiv {A} (x y : result A IoError * Conn) : Prop :=
  fst x = fst y ∧ conn_equiv (snd x) (snd y).

Definition respectful_call {A} (m : M A) : Prop := Proper (conn_equiv ==> result_equiv) m.

(** ** What frames ask for *)
Definition frame_ok (cfg : Config) (f : frame) : Prop :=
  match f with
  | FUser pid data =>
      fits 64 pid ∧ Z.of_nat (length data) <= network_max_payload cfg ∧ fits 32 (Z.of_nat (length data))
  | FResolve name =>
      utf8_valid (as_bytes name) = true ∧
      Z.of_nat (length (as_bytes name)) <= network_max_name_len cfg ∧
      fits 32 (Z.of_nat (length (as_bytes name)))
  | FPing => True
  end.

(** The effect of a frame on the node and on the bytes written back. *)
Definition frame_effect (s : R * Bytes) (f : frame) : R * Bytes :=
  let (r, out) := s in
  match f with
  | FUser pid data => (fst (node_send pid (User data) r), out)
  | FResolve name => (r, out ++ to_be_bytes 8 (default 0 (node_resolve name r)))
  | FPing => (r, out ++ [x03])
  end.

(** Bytes the handler must refuse as soon as it has read them. *)
Inductive malformed (cfg : Config) : Bytes → Prop :=
| bad_type b : type_of_byte b = None → malformed cfg [b]
| bad_payload pid_bytes len : length pid_bytes = 8%nat → fits 32 len → network_max_payload cfg < len →
    malformed cfg ([type_byte MtUser] ++ pid_bytes ++ to_be_bytes 4 len)
| bad_name_len len : fits 32 len → network_max_name_len cfg < len →
    malformed cfg ([type_byte MtResolve] ++ to_be_bytes 4 len)
| bad_utf8 name_vec : fits 32 (Z.of_nat (length name_vec)) →
    Z.of_nat (length name_vec) <= network_max_name_len cfg → utf8_valid name_vec = false →
    malformed cfg ([type_byte MtResolve] ++ to_be_bytes 4 (Z.of_nat (length name_vec)) ++ name_vec).
End connection.

Arguments Conn : clear implicits.
Arguments M : clear implicits.

Section connection_lemmas.
Context {R : Type} `{N : Node R}.
Implicit Types (c : Conn R).

(** ** Reading *)
Lemma take_stream_app n bs st : length bs = n → take_stream n ((inl <$> bs) ++ st) = (Ok bs, st).
Proof.
  revert bs. induction n as [|n IH]; intros [|b bs]; try done. intros [= Hn]. simpl. by rewrite IH.
Qed.

Lemma take_stream_chunk n bs st : (length bs <= n)%nat →
  take_stream n ((inl <$> bs) ++ st) =
    match take_stream (n - length bs) st with
    | (Ok more, r) => (Ok (bs ++ more), r)
    | (Err e, r) => (Err e, r)
    end.
Proof.
  revert n. induction bs as [|b bs IH]; intros n Hn; simpl.
  - rewrite Nat.sub_0_r. by destruct (take_stream n st) as [[] ?].
  - destruct n as [|n]; [simpl in Hn; lia|]. simpl in *. rewrite IH by lia.
    by destruct (take_stream (n - length bs) st) as [[] ?].
Qed.

Lemma stream_cons ev evs : stream (ev :: evs) = stream_event ev ++ stream evs.
Proof. done. Qed.

Lemma stream_data b bs evs : stream (Data (b :: bs) :: evs) = (inl <$> (b :: bs)) ++ stream evs.
Proof. done. Qed.

(** Reading depends on the byte stream only. *)
Lemma read_events_stream n evs :
  take_stream n (stream evs) = (fst (read_events n evs), stream (snd (read_events n evs))).
Proof.
  revert n. induction evs as [|ev evs IH]; intros [|n]; try done.
  destruct ev as [[|b bs]| |e]; try done.
  rewrite stream_data. cbn [read_events]. destruct (length (b :: bs) <=? S n)%nat eqn:E.
  - apply Nat.leb_le in E. rewrite take_stream_chunk by done. rewrite IH.
    by destruct (read_events (S n - length (b :: bs)) evs) as [[] ?].
  - apply Nat.leb_gt in E. cbn [fst snd].
    rewrite <-(take_drop (S n) (b :: bs)) at 1. rewrite fmap_app, <-(assoc_L (++)).
    rewrite take_stream_app by (rewrite length_take; lia). do 2 f_equal.
    destruct (drop (S n) (b :: bs)) as [|b' bs'] eqn:Ed; [|by rewrite stream_data].
    apply (f_equal length) in Ed. rewrite length_drop in Ed. cbn [length] in *. lia.
Qed.

Lemma read_exact_stream n c :
  take_stream n (stream (input c)) = (fst (read_exact n c), stream (input (snd (read_exact n c)))).
Proof. unfold read_exact. rewrite read_events_stream. by destruct (read_events n (input c)). Qed.

Lemma read_exact_frame n c :
  let c' := snd (read_exact n c) in node c' = node c ∧ writes c' = writes c ∧ output c' = output c.
Proof. unfold read_exact. by destruct (read_events n (input c)). Qed.

(** A read that finds its bytes. *)
Lemma read_exact_bytes n bs st c :
  stream (input c) = (inl <$> bs) ++ st → length bs = n →
  ∃ evs, read_exact n c = (Ok bs, mkConn (node c) evs (writes c) (output c)) ∧ stream evs = st.
Proof.
  intros Hs Hn. assert (H := read_exact_stream n c). rewrite Hs, take_stream_app in H by done.
  destruct (read_exact_frame n c) as (H1 & H2 & H3).
  destruct (read_exact n c) as [r [nd evs ws out]]. simpl in *. injection H as <- ->.
  exists evs. split; [congruence|done].
Qed.

(** A read that does not. *)
Lemma read_exact_short n bs st c : (length bs < n)%nat →
  stream (input c) = (inl <$> bs) ++ st → (st = [] ∨ ∃ e st', st = inr e :: st') →
  ∃ e evs, read_exact n c = (Err e, mkConn (node c) evs (writes c) (output c)).
Proof.
  intros Hn Hs Hst. assert (H := read_exact_stream n c). rewrite Hs, take_stream_chunk in H by lia.
  destruct (n - length bs)%nat as [|k] eqn:Ek; [lia|].
  destruct (read_exact_frame n c) as (H1 & H2 & H3).
  destruct (read_exact n c) as [r [nd evs ws out]]. simpl in *. subst.
  destruct Hst as [->|(e & st' & ->)]; simpl in H; injection H as <- _; eauto.
Qed.

(** ** A logic of calls

    A property of calls that holds of the primitives and is kept by
    sequencing holds of the handlers, up to what they do with a user message. *)
Class CallLogic (Q : ∀ A : Type, M R A → Prop) : Prop := {
  cl_ret : ∀ A (a : A), Q A (ret a);
  cl_fail : ∀ A k msg, Q A (fail k msg);
  cl_read : ∀ n, Q Bytes (read_exact n);
  cl_write : ∀ bs, Q unit (write_all bs);
  cl_node : ∀ A (f : R → M R A), (∀ r, Q A (f r)) → Q A (λ c, f (node c) c);
  cl_bind : ∀ A B (m : M R A) (f : A → M R B), Q A m → (∀ a, Q B (f a)) → Q B (bind m f)
}.

Definition send_call (pid : Pid) (msg : Message) : M R unit := λ c,
  (Ok tt, mkConn (fst (node_send pid msg (node c))) (input c) (writes c) (output c)).

Section call_logic.
Context (Q : ∀ A : Type, M R A → Prop) `{!CallLogic Q}.

Lemma call_config : Q Config get_config.
Proof. apply (cl_node _ (λ r, ret (node_config r))). intros r. apply cl_ret. Qed.

Lemma call_user : (∀ pid msg, Q unit (send_call pid msg)) → Q unit handle_user.
Proof.
  intros Hsend. apply cl_bind; [apply cl_read|intros meta]. apply cl_bind; [apply call_config|intros cfg].
  destruct (_ <? _); [apply cl_fail|]. apply cl_bind; [apply cl_read|intros d]. apply Hsend.
Qed.

Lemma call_resolve : Q unit handle_resolve.
Proof.
  apply cl_bind; [apply cl_read|intros buf]. apply cl_bind; [apply call_config|intros cfg].
  destruct (_ <? _); [apply cl_fail|]. apply cl_bind; [apply cl_read|intros nv].
  destruct (from_utf8 nv) as [name|]; [|apply cl_fail].
  apply (cl_node _ (λ r, write_all (to_be_bytes 8 (default 0 (node_resolve name r))))). intros r. apply cl_write.
Qed.

Lemma call_frame header : Q unit handle_user → Q unit (handle_frame header).
Proof.
  intros Hu. destruct header as [|b r]; simpl; [apply cl_ret|].
  destruct (type_of_byte b) as [[]|]; [done|apply call_resolve|apply cl_write|apply cl_fail].
Qed.
End call_logic.

(** ** Calls respect the byte stream *)
Lemma respectful_read n : respectful_call (R := R) (read_exact n).
Proof.
  intros c1 c2 (E1 & E2 & E3 & E4).
  assert (H1 := read_exact_stream n c1). assert (H2 := read_exact_stream n c2). rewrite E4, H2 in H1.
  destruct (read_exact_frame n c1) as (F1 & F2 & F3). destruct (read_exact_frame n c2) as (G1 & G2 & G3).
  injection H1 as Hr Hs. split; [done|]. split_and!; congruence.
Qed.

Lemma respectful_write bs : respectful_call (R := R) (write_all bs).
Proof.
  intros c1 c2 (E1 & E2 & E3 & E4). unfold write_all. rewrite E2.
  destruct (writes c2) as [|[| |e] ws]; (split; [done|]); split_and!; simpl; congruence.
Qed.

Lemma respectful_bind {A B} (m : M R A) (f : A → M R B) :
  respectful_call (R := R) m → (∀ a, respectful_call (R := R) (f a)) → respectful_call (R := R) (bind m f).
Proof.
  intros Hm Hf c1 c2 H. specialize (Hm c1 c2 H). unfold bind.
  destruct (m c1) as [[a1|e1] c1'], (m c2) as [[a2|e2] c2'], Hm as [Hr Hc]; simpl in *; try done.
  - injection Hr as ->. by apply Hf.
  - injection Hr as ->. by split.
Qed.

#[export] Instance respectful_logic : CallLogic (λ A m, respectful_call (R := R) m).
Proof.
  split; [by intros A a c1 c2 H|by intros A k msg c1 c2 H|apply respectful_read|apply respectful_write| |].
  - intros A f Hf c1 c2 H. assert (E := H). destruct E as (-> & _). by apply Hf.
  - intros A B m f. apply respectful_bind.
Qed.

Lemma respectful_frame header : respectful_call (R := R) (handle_frame header).
Proof.
  apply (call_frame (λ A m, respectful_call m)), (call_user (λ A m, respectful_call m)).
  intros pid msg c1 c2 (E1 & E2 & E3 & E4). split; [done|]. split_and!; simpl; congruence.
Qed.

(** ** Termination *)
Definition bytes_in (st : list (byte + IoError)) : nat :=
  length (omap (λ x, match x with inl b => Some b | inr _ => None end) st).

Lemma bytes_in_app st1 st2 : bytes_in (st1 ++ st2) = (bytes_in st1 + bytes_in st2)%nat.
Proof. unfold bytes_in. by rewrite omap_app, length_app. Qed.

Lemma bytes_in_cons b st : bytes_in (inl b :: st) = S (bytes_in st).
Proof. done. Qed.

Lemma bytes_in_inl bs : bytes_in (inl <$> bs) = length bs.
Proof. induction bs as [|b bs IH]; [done|]. by rewrite fmap_cons, bytes_in_cons, IH. Qed.

Lemma bytes_in_stream evs : bytes_in (stream evs) = input_size evs.
Proof.
  induction evs as [|ev evs IH]; [done|]. rewrite stream_cons, bytes_in_app, IH.
  change (input_size (ev :: evs)) with
    ((match ev with Data bs => length bs | _ => O end) + input_size evs)%nat. f_equal.
  destruct ev as [[|b bs]| |e]; try done. apply bytes_in_inl.
Qed.

Lemma take_stream_size n st :
  match take_stream n st with
  | (Ok _, st') => bytes_in st = (n + bytes_in st')%nat
  | (Err _, st') => (bytes_in st' <= bytes_in st)%nat
  end.
Proof.
  revert st. induction n as [|n IH]; intros st; [done|]. destruct st as [|[b|e] st]; simpl.
  - done.
  - specialize (IH st). rewrite bytes_in_cons. destruct (take_stream n st) as [[bs|e] st']; lia.
  - done.
Qed.

Definition size_of c : nat := input_size (input c).

Lemma read_exact_size n c :
  match read_exact n c with
  | (Ok _, c') => size_of c = (n + size_of c')%nat
  | (Err _, c') => (size_of c' <= size_of c)%nat
  end.
Proof.
  unfold size_of. assert (H := read_exact_stream n c). assert (Hs := take_stream_size n (stream (input c))).
  rewrite H in Hs. rewrite !bytes_in_stream in Hs. by destruct (read_exact n c) as [[bs|e] c'].
Qed.

(** A call that does not put input back. *)
Definition shrinking {A} (m : M R A) : Prop := ∀ c, (size_of (snd (m c)) <= size_of c)%nat.

Lemma shrinking_read n : shrinking (read_exact n).
Proof. intros c. assert (H := read_exact_size n c). destruct (read_exact n c) as [[] ?]; simpl; lia. Qed.

Lemma shrinking_write bs : shrinking (write_all bs).
Proof. intros c. unfold write_all. by destruct (writes c) as [|[] ?]. Qed.

#[export] Instance shrinking_logic : CallLogic (λ A m, shrinking m).
Proof.
  split; [by intros A a c|by intros A k msg c|apply shrinking_read|apply shrinking_write|by intros A f Hf c; apply Hf|].
  intros A B m f Hm Hf c. unfold bind. specialize (Hm c). destruct (m c) as [[a|e] c']; simpl in *; [|done].
  etransitivity; [apply Hf|done].
Qed.

Lemma shrinking_frame header : shrinking (handle_frame header).
Proof. apply (call_frame (λ A m, shrinking m)), (call_user (λ A m, shrinking m)). by intros pid msg c. Qed.

Lemma connection_loop_total fuel c : (size_of c < fuel)%nat → ∃ x, connection_loop fuel c = Some x.
Proof.
  revert c. induction fuel as [|fuel IH]; intros c Hf; [lia|]. simpl.
  assert (Hr := read_exact_size 1 c). destruct (read_exact 1 c) as [[header|e] c']; [|by eexists].
  assert (Hs := shrinking_frame header c'). destruct (handle_frame header c') as [[u|e] c'']; [|by eexists].
  apply IH. simpl in Hs. lia.
Qed.

Lemma connection_loop_mono fuel k c x :
  connection_loop fuel c = Some x → connection_loop (fuel + k) c = Some x.
Proof.
  revert c. induction fuel as [|fuel IH]; intros c; [done|]. simpl.
  destruct (read_exact 1 c) as [[header|e] c']; [|done].
  destruct (handle_frame header c') as [[u|e] c'']; [apply IH|done].
Qed.

Lemma connection_loop_respectful fuel c1 c2 : conn_equiv c1 c2 →
  option_Forall2 result_equiv (connection_loop fuel c1) (connection_loop fuel c2).
Proof.
  revert c1 c2. induction fuel as [|fuel IH]; intros c1 c2 H; [constructor|]. simpl.
  destruct (respectful_read 1 c1 c2 H) as [Hr Hc].
  destruct (read_exact 1 c1) as [r1 c1'], (read_exact 1 c2) as [r2 c2']. simpl in Hr, Hc. subst r2.
  destruct r1 as [header|e]; [|by constructor].
  destruct (respectful_frame header c1' c2' Hc) as [Hr' Hc'].
  destruct (handle_frame header c1') as [r1 c1''], (handle_frame header c2') as [r2 c2''].
  simpl in Hr', Hc'. subst r2. destruct r1; [by apply IH|by constructor].
Qed.

Lemma size_of_equiv c1 c2 : conn_equiv c1 c2 → size_of c1 = size_of c2.
Proof. intros (_ & _ & _ & H). unfold size_of. by rewrite <-!bytes_in_stream, H. Qed.

(** ** Preservation *)

(** A property of the node that accepting any message of acceptable size keeps. *)
Definition message_closed (P : R → Prop) : Prop := ∀ p data r,
  P r → fits 64 p → Z.of_nat (length data) <= network_max_payload (node_config r) →
  P (fst (node_send p (User data) r)).

Definition keeps {A} (P : R → Prop) (m : M R A) : Prop := ∀ c, P (node c) → P (node (snd (m c))).

Lemma keeps_read P n : keeps P (read_exact n).
Proof. intros c. by destruct (read_exact_frame n c) as (-> & _). Qed.

Lemma keeps_write P bs : keeps P (write_all bs).
Proof. intros c. unfold write_all. by destruct (writes c) as [|[] ?]. Qed.

#[export] Instance keeps_logic P : CallLogic (λ A m, keeps P m).
Proof.
  split; [by intros A a c|by intros A k msg c|apply keeps_read|apply keeps_write|by intros A f Hf c; apply Hf|].
  intros A B m f Hm Hf c Hc. unfold bind. specialize (Hm c Hc).
  destruct (m c) as [[a|e] c']; [by apply Hf|done].
Qed.

Lemma read_events_ok_length n evs bs evs' : read_events n evs = (Ok bs, evs') → length bs = n.
Proof.
  revert n bs evs'. induction evs as [|ev evs IH]; intros [|n] bs evs'; simpl; try (by intros [= <- _]); try done.
  destruct ev as [[|b l]| |e]; try done. destruct (_ <=? _)%nat eqn:E.
  - apply Nat.leb_le in E. destruct (read_events _ evs) as [[more|e] r] eqn:Er; [|done].
    intros [= <- _]. apply IH in Er. simpl in *. rewrite length_app. lia.
  - apply Nat.leb_gt in E. intros [= <- _]. simpl in *. rewrite length_take. lia.
Qed.

Lemma read_exact_ok_length n c bs c' : read_exact n c = (Ok bs, c') → length bs = n.
Proof.
  unfold read_exact. destruct (read_events n (input c)) as [r evs] eqn:E. intros [= -> _].
  by eapply read_events_ok_length.
Qed.

Lemma keeps_user P : message_closed P → keeps P handle_user.
Proof.
  intros HP c Hc. unfold handle_user, bind, get_config.
  assert (F1 := keeps_read P 12 c Hc). destruct (read_exact 12 c) as [[meta|e] c1] eqn:E1; [|done].
  apply read_exact_ok_length in E1. simpl in F1. simpl.
  destruct (network_max_payload _ <? _) eqn:El; [done|]. breflect.
  set (len := from_be_bytes (drop 8 meta)) in *.
  assert (F2 := keeps_read P (Z.to_nat len) c1 F1).
  destruct (read_exact_frame (Z.to_nat len) c1) as (F3 & _).
  destruct (read_exact (Z.to_nat len) c1) as [[data|e] c2] eqn:E2; [|done].
  apply read_exact_ok_length in E2. simpl in *. apply HP; [done| |].
  - unfold fits. assert (Hr := from_be_range (take 8 meta)). rewrite length_take, E1 in Hr. apply Hr.
  - rewrite F3, E2. assert (Hr := from_be_range (drop 8 meta)). fold len in Hr. lia.
Qed.

Lemma keeps_frame P header : message_closed P → keeps P (handle_frame header).
Proof.
  intros HP. by apply (call_frame (λ A m, keeps P m)), keeps_user.
Qed.

Lemma connection_loop_keeps P fuel c x : message_closed P → P (node c) →
  connection_loop fuel c = Some x → P (node (snd x)).
Proof.
  intros HP. revert c. induction fuel as [|fuel IH]; intros c Hc; [done|]. simpl.
  assert (F1 := keeps_read P 1 c Hc). destruct (read_exact 1 c) as [[header|e] c1]; [|by intros [= <-]].
  assert (F2 := keeps_frame P header HP c1 F1).
  destruct (handle_frame header c1) as [[u|e] c2]; [by apply IH|by intros [= <-]].
Qed.
End connection_lemmas.
