(* ===== verification/Server.v ===== *)
(** * What the server does with its input, and remote resolution
    ([src/src/network.rs], [src/src/lib.rs])

    The theorems about [handle_connection] for well-formed, malformed and
    arbitrary input, in any chunks, and the client call [resolve_remote] run
    against it. *)
From S2P Require Import Prelude Pid Mailbox Registry Supervisor Runtime RuntimeInv Interface Wire Connection.
From Stdlib Require Import Strings.Byte.

Section client.
Context {R : Type} `{N : Node R}.

(** ** [resolve_remote]

    The connection attempt is the first argument, the sockets of the connection
    are the script and the writes of the [Conn], the local node its node. *)
Definition resolve_remote (connected : result unit IoError) (name : string) : M R Pid :=
  bind (λ c, (connected, c)) (λ _,
  bind (write_all [PROTOCOL_VERSION]) (λ _,
  bind (write_all [type_byte MtResolve]) (λ _,
  bind get_config (λ cfg,
  if network_max_name_len cfg <? Z.of_nat (length (as_bytes name)) then
    fail InvalidInput "name too long"
  else
    bind (write_all (to_be_bytes 4 ⌊Z.of_nat (length (as_bytes name))⌋₃₂)) (λ _,
    bind (write_all (as_bytes name)) (λ _,
    bind (read_exact 8) (λ pid_buf,
    ret (from_be_bytes pid_buf)))))))).

(** The public call: PID 0 is the peer's way to say that the name is unknown. *)
Definition resolve_remote_async (connected : result unit IoError) (name : string) (c : Conn R)
  : option Pid * Conn R :=
  match resolve_remote connected name c with
  | (Ok pid, c') => (if pid =? 0 then None else Some pid, c')
  | (Err _, c') => (None, c')
  end.

(** ** Running frames *)
Lemma bind_ok {A B} (m : M R A) (f : A → M R B) c a c' : m c = (Ok a, c') → bind m f c = f a c'.
Proof. unfold bind. by intros ->. Qed.

Lemma bind_err {A B} (m : M R A) (f : A → M R B) c e c' : m c = (Err e, c') → bind m f c = (Err e, c').
Proof. unfold bind. by intros ->. Qed.

Lemma bind_config {B} (f : Config → M R B) c : bind get_config f c = f (node_config (node c)) c.
Proof. done. Qed.

Lemma mod_fits w z : fits w z → wrap w z = z.
Proof. apply wrap_small. Qed.

Lemma pow256_8 : 256 ^ Z.of_nat 8 = 2 ^ 64.
Proof. done. Qed.

Lemma pow256_4 : 256 ^ Z.of_nat 4 = 2 ^ 32.
Proof. done. Qed.

Lemma from_to_be_u64 z : fits 64 z → from_be_bytes (to_be_bytes 8 z) = z.
Proof. intros Hz. rewrite from_to_be_bytes, pow256_8. by apply Z.mod_small. Qed.

Lemma from_to_be_u32 z : fits 32 z → from_be_bytes (to_be_bytes 4 z) = z.
Proof. intros Hz. rewrite from_to_be_bytes, pow256_4. by apply Z.mod_small. Qed.

(** The header fields of a user frame. *)
Lemma user_meta pid_bytes len : length pid_bytes = 8%nat → fits 32 len →
  let meta := pid_bytes ++ to_be_bytes 4 len in
  length meta = 12%nat ∧ take 8 meta = pid_bytes ∧ from_be_bytes (drop 8 meta) = len.
Proof.
  intros Hp Hl meta. unfold meta. split_and!.
  - by rewrite length_app, Hp, length_to_be_bytes.
  - by rewrite take_app_length'.
  - rewrite drop_app_length' by done. by apply from_to_be_u32.
Qed.

Lemma handle_user_ok pid data st (c : Conn R) :
  stream (input c) = (inl <$> (to_be_bytes 8 pid ++ to_be_bytes 4 (Z.of_nat (length data)) ++ data)) ++ st →
  frame_ok (node_config (node c)) (FUser pid data) →
  ∃ evs, handle_user c = (Ok tt, mkConn (fst (node_send pid (User data) (node c))) evs (writes c) (output c)) ∧
    stream evs = st.
Proof.
  intros Hs (Hp & Hmax & Hl). rewrite (assoc_L (++)), fmap_app, <-(assoc_L (++)) in Hs.
  destruct (user_meta (to_be_bytes 8 pid) (Z.of_nat (length data))) as (M1 & M2 & M3);
    [apply length_to_be_bytes|done|].
  destruct (read_exact_bytes 12 _ _ c Hs M1) as (e1 & E1 & S1).
  unfold handle_user. rewrite (bind_ok _ _ _ _ _ E1), M2, M3, from_to_be_u64 by done.
  rewrite bind_config. cbn [node].
  assert (Hlt : (network_max_payload (node_config (node c)) <? Z.of_nat (length data)) = false)
    by (apply Z.ltb_ge; lia). rewrite Hlt, Nat2Z.id.
  destruct (read_exact_bytes (length data) data st (mkConn (node c) e1 (writes c) (output c)) S1 eq_refl)
    as (e2 & E2 & S2).
  rewrite (bind_ok _ _ _ _ _ E2). by exists e2.
Qed.

Lemma handle_resolve_name name_vec st (c : Conn R) :
  stream (input c) = (inl <$> (to_be_bytes 4 (Z.of_nat (length name_vec)) ++ name_vec)) ++ st →
  fits 32 (Z.of_nat (length name_vec)) →
  Z.of_nat (length name_vec) <= network_max_name_len (node_config (node c)) →
  ∃ evs, stream evs = st ∧ let c' := mkConn (node c) evs (writes c) (output c) in
    handle_resolve c =
      match from_utf8 name_vec with
      | None => fail InvalidData "invalid utf8 in resolve request" c'
      | Some name => write_all (to_be_bytes 8 (default 0 (node_resolve name (node c)))) c'
      end.
Proof.
  intros Hs Hf Hmax. rewrite fmap_app, <-(assoc_L (++)) in Hs.
  destruct (read_exact_bytes 4 _ _ c Hs (length_to_be_bytes _ _)) as (e1 & E1 & S1).
  unfold handle_resolve. rewrite (bind_ok _ _ _ _ _ E1), from_to_be_u32 by done.
  rewrite bind_config. cbn [node].
  assert (Hlt : (network_max_name_len (node_config (node c)) <? Z.of_nat (length name_vec)) = false)
    by (apply Z.ltb_ge; lia). rewrite Hlt, Nat2Z.id.
  destruct (read_exact_bytes (length name_vec) name_vec st (mkConn (node c) e1 (writes c) (output c)) S1 eq_refl)
    as (e2 & E2 & S2).
  rewrite (bind_ok _ _ _ _ _ E2). exists e2. split; [done|]. by destruct (from_utf8 name_vec).
Qed.

(** A turn of the loop on a well-formed frame. *)
Lemma loop_frame f st (c : Conn R) :
  stream (input c) = (inl <$> encode_frame f) ++ st → writes c = [] →
  frame_ok (node_config (node c)) f →
  ∃ c', (∀ fuel, connection_loop (S fuel) c = connection_loop fuel c') ∧
    stream (input c') = st ∧ writes c' = [] ∧
    (node c', output c') = frame_effect (node c, output c) f.
Proof.
  intros Hs Hw Hok.
  assert (Hhd : ∃ b l, encode_frame f = b :: l ∧
    b = type_byte match f with FUser _ _ => MtUser | FResolve _ => MtResolve | FPing => MtPing end)
    by (destruct f; eexists _, _; done).
  destruct Hhd as (b & l & El & Eb). rewrite El in Hs.
  destruct (read_exact_bytes 1 [b] (fmap (M:=list) inl l ++ st) c Hs eq_refl) as (e1 & E1 & S1).
  cbn [connection_loop]. rewrite E1. destruct c as [nd inp ws out]. simpl in Hw. subst ws b.
  destruct f as [pid data|name|]; injection El as <-; cbn [handle_frame type_byte type_of_byte node writes output] in *.
  - rewrite mod_fits in S1 by apply Hok.
    destruct (handle_user_ok pid data st (mkConn nd e1 [] out) S1 Hok) as (e2 & -> & S2).
    eexists. done.
  - destruct Hok as (Hu & Hmax & Hf). rewrite mod_fits in S1 by done.
    destruct (handle_resolve_name (as_bytes name) st (mkConn nd e1 [] out) S1 Hf Hmax) as (e2 & S2 & ->).
    rewrite from_utf8_as_bytes by done. eexists. done.
  - eexists. done.
Qed.

Lemma frame_effect_config s f : node_config (fst (frame_effect s f)) = node_config (fst s).
Proof. destruct s as [r out], f; simpl; [apply node_send_config|done|done]. Qed.

Lemma loop_frames fs st (c : Conn R) :
  stream (input c) = (inl <$> encode_frames fs) ++ st → writes c = [] →
  Forall (frame_ok (node_config (node c))) fs →
  ∃ c', (∀ fuel, connection_loop (length fs + fuel) c = connection_loop fuel c') ∧
    stream (input c') = st ∧ writes c' = [] ∧
    (node c', output c') = fold_left frame_effect fs (node c, output c) ∧
    node_config (node c') = node_config (node c).
Proof.
  revert c. induction fs as [|f fs IH]; intros c Hs Hw Hok; [by exists c|].
  apply Forall_cons in Hok as [Hf Hfs]. unfold encode_frames in Hs. cbn [fmap list_fmap concat] in Hs.
  rewrite fmap_app, <-(assoc_L (++)) in Hs.
  destruct (loop_frame f _ c Hs Hw Hf) as (c1 & L1 & S1 & W1 & E1).
  assert (C1 : node_config (node c1) = node_config (node c)).
  { assert (H := frame_effect_config (node c, output c) f). rewrite <-E1 in H. done. }
  destruct (IH c1 S1 W1) as (c' & L & S' & W' & E' & C'); [by rewrite C1|].
  exists c'. cbn [fold_left]. rewrite <-E1. split_and!; try done; [|congruence].
  intros fuel. rewrite <-L. apply L1.
Qed.
Lemma length_encode_frames fs : (length fs <= length (encode_frames fs))%nat.
Proof.
  induction fs as [|f fs IH]; [done|]. unfold encode_frames in *. cbn [fmap list_fmap concat length].
  rewrite length_app. assert (1 <= length (encode_frame f))%nat by (destruct f; simpl; lia). lia.
Qed.

Lemma handle_connection_start bs st (c : Conn R) :
  stream (input c) = (inl <$> (PROTOCOL_VERSION :: bs)) ++ st →
  ∃ c', handle_connection c = connection_loop (S (size_of c')) c' ∧
    stream (input c') = (inl <$> bs) ++ st ∧
    node c' = node c ∧ writes c' = writes c ∧ output c' = output c.
Proof.
  intros Hs.
  destruct (read_exact_bytes 1 [PROTOCOL_VERSION] (fmap (M:=list) inl bs ++ st) c Hs eq_refl) as (e1 & E1 & S1).
  unfold handle_connection. rewrite E1, bool_decide_true by done. by eexists.
Qed.

(** The handler has run [fs] and goes on with whatever follows. *)
Lemma handle_connection_frames fs st (c : Conn R) :
  stream (input c) = (inl <$> (PROTOCOL_VERSION :: encode_frames fs)) ++ st → writes c = [] →
  Forall (frame_ok (node_config (node c))) fs →
  ∃ c' fuel, handle_connection c = connection_loop (S fuel) c' ∧ stream (input c') = st ∧ writes c' = [] ∧
    (node c', output c') = fold_left frame_effect fs (node c, output c) ∧
    node_config (node c') = node_config (node c).
Proof.
  intros Hs Hw Hok. destruct (handle_connection_start _ _ c Hs) as (c1 & E & S1 & N1 & W1 & O1).
  destruct (loop_frames fs st c1 S1) as (c' & L & S' & W' & E' & C'); [congruence|by rewrite N1|].
  exists c', (size_of c1 - length fs)%nat. split_and!; try done; [|by rewrite E', N1, O1|congruence].
  rewrite E, <-L. f_equal. unfold size_of.
  assert (Hsz : (length (encode_frames fs) <= input_size (input c1))%nat).
  { rewrite <-bytes_in_stream, S1, bytes_in_app, bytes_in_inl. lia. }
  assert (H := length_encode_frames fs). lia.
Qed.

(** The stream is over: nothing follows, or an end or failure does. *)
Definition ended (st : list (byte + IoError)) : Prop := st = [] ∨ ∃ e st', st = inr e :: st'.

Lemma loop_ended st fuel (c : Conn R) : stream (input c) = st → ended st →
  ∃ c', connection_loop (S fuel) c = Some (Ok tt, c') ∧ node c' = node c ∧ output c' = output c.
Proof.
  intros Hs Hst. destruct (read_exact_short 1 [] st c) as (e & evs & E); [simpl; lia|done|done|].
  cbn [connection_loop]. rewrite E. by eexists.
Qed.

Lemma loop_malformed bad st fuel (c : Conn R) :
  stream (input c) = (inl <$> bad) ++ st → malformed (node_config (node c)) bad →
  ∃ e c', connection_loop (S fuel) c = Some (Err e, c') ∧ kind e = InvalidData ∧
    node c' = node c ∧ output c' = output c.
Proof.
  intros Hs Hbad.
  assert (Hhd : ∃ b l, bad = b :: l) by (destruct Hbad; eexists _, _; done).
  destruct Hhd as (b & l & El). rewrite El in Hs.
  destruct (read_exact_bytes 1 [b] (fmap (M:=list) inl l ++ st) c Hs eq_refl) as (e1 & E1 & S1).
  cbn [connection_loop]. rewrite E1. destruct c as [nd inp ws out]. cbn [node writes output] in *. clear Hs E1 inp.
  destruct Hbad as [b' Hb|pid_bytes len Hp Hf Hl|len Hf Hl|nv Hf Hmax Hu];
    assert (Et := f_equal (@tail byte) El); assert (Eh := f_equal (@head byte) El);
    cbn [app tail head type_byte] in Et, Eh; injection Eh as <-; subst l; cbn [handle_frame].
  - rewrite Hb. by eexists _, _.
  - cbn [type_of_byte type_byte]. destruct (user_meta pid_bytes len Hp Hf) as (M1 & M2 & M3).
    destruct (read_exact_bytes 12 _ _ (mkConn nd e1 ws out) S1 M1) as (e2 & E2 & S2).
    unfold handle_user. rewrite (bind_ok _ _ _ _ _ E2), bind_config. cbv beta zeta. rewrite M3. cbn [node].
    apply Z.ltb_lt in Hl. rewrite Hl. by eexists _, _.
  - cbn [type_of_byte type_byte].
    destruct (read_exact_bytes 4 _ _ (mkConn nd e1 ws out) S1 (length_to_be_bytes _ _)) as (e2 & E2 & S2).
    unfold handle_resolve. rewrite (bind_ok _ _ _ _ _ E2), bind_config. cbv beta zeta. rewrite from_to_be_u32 by done. cbn [node].
    apply Z.ltb_lt in Hl. rewrite Hl. by eexists _, _.
  - cbn [type_of_byte type_byte].
    destruct (handle_resolve_name nv st (mkConn nd e1 ws out) S1 Hf Hmax) as (e2 & S2 & ->).
    unfold from_utf8. rewrite Hu. by eexists _, _.
Qed.

Lemma run_frames fs st (c : Conn R) :
  stream (input c) = (inl <$> (PROTOCOL_VERSION :: encode_frames fs)) ++ st → ended st →
  writes c = [] → Forall (frame_ok (node_config (node c))) fs →
  ∃ c', handle_connection c = Some (Ok tt, c') ∧
    (node c', output c') = fold_left frame_effect fs (node c, output c).
Proof.
  intros Hs Hst Hw Hok.
  destruct (handle_connection_frames fs st c Hs Hw Hok) as (c1 & fuel & -> & S1 & _ & E1 & _).
  destruct (loop_ended st fuel c1 S1 Hst) as (c' & -> & E2 & E3). exists c'. split; [done|congruence].
Qed.

(** ** The client *)
Lemma write_all_ok bs (c : Conn R) : writes c = [] →
  write_all bs c = (Ok tt, mkConn (node c) (input c) [] (output c ++ bs)).
Proof. unfold write_all. by intros ->. Qed.

(** What a client that can connect and write puts on the wire, and what it
    makes of the answer. *)
Lemma resolve_remote_run name (c : Conn R) : writes c = [] → frame_ok (node_config (node c)) (FResolve name) →
  let sent := output c ++ PROTOCOL_VERSION :: encode_frame (FResolve name) in
  let (r, c') := read_exact 8 (mkConn (node c) (input c) [] sent) in
  resolve_remote (Ok tt) name c = (match r with Ok b => Ok (from_be_bytes b) | Err e => Err e end, c').
Proof.
  intros Hw (_ & Hmax & Hf). cbn zeta. unfold resolve_remote.
  rewrite (bind_ok _ _ _ tt c) by done. rewrite (bind_ok _ _ _ _ _ (write_all_ok _ c Hw)).
  rewrite (bind_ok _ _ _ _ _ (write_all_ok _ (mkConn _ _ [] _) eq_refl)), bind_config. cbn [node].
  assert (Hlt : (network_max_name_len (node_config (node c)) <? Z.of_nat (length (as_bytes name))) = false)
    by (apply Z.ltb_ge; lia). rewrite Hlt.
  rewrite (bind_ok _ _ _ _ _ (write_all_ok _ (mkConn _ _ [] _) eq_refl)).
  rewrite (bind_ok _ _ _ _ _ (write_all_ok _ (mkConn _ _ [] _) eq_refl)). cbn [node input output].
  rewrite <-!(assoc_L (++)). unfold encode_frame, bind. cbn [app].
  by destruct (read_exact 8 _) as [[b|e] c'].
Qed.

(** ** Properties *)

(** C18: A client that sends the version byte and then any sequence of frames
    within the node's limits, in any chunks and until the stream ends, has every
    frame carried out in order: user messages are sent to their PIDs, names are
    answered with the PID registered (0 when there is none), pings with 3, and
    nothing else happens. *)
Theorem server_runs_frames fs st (c : Conn R) :
  stream (input c) = (inl <$> (PROTOCOL_VERSION :: encode_frames fs)) ++ st → ended st →
  writes c = [] → Forall (frame_ok (node_config (node c))) fs →
  ∃ c', handle_connection c = Some (Ok tt, c') ∧
    (node c', output c') = fold_left frame_effect fs (node c, output c).
Proof.
  apply run_frames.
Qed.

(** C27: After any well-formed frames, an unknown type byte, a length above the
    limit (before its payload is read) or a name that is not UTF-8 ends the
    connection with InvalidData, whatever bytes follow; the frames before it
    have been carried out and nothing of it or after it is. *)
Theorem server_refuses_malformed fs bad st (c : Conn R) :
  stream (input c) = (inl <$> (PROTOCOL_VERSION :: encode_frames fs)) ++ (inl <$> bad) ++ st →
  malformed (node_config (node c)) bad →
  writes c = [] → Forall (frame_ok (node_config (node c))) fs →
  ∃ e c', handle_connection c = Some (Err e, c') ∧ kind e = InvalidData ∧
    (node c', output c') = fold_left frame_effect fs (node c, output c).
Proof.
  intros Hs Hbad Hw Hok.
  destruct (handle_connection_frames fs _ c Hs Hw Hok) as (c1 & fuel & -> & S1 & _ & E1 & C1).
  rewrite <-C1 in Hbad. destruct (loop_malformed bad st fuel c1 S1 Hbad) as (e & c' & -> & K & E2 & E3).
  exists e, c'. split_and!; [done|done|congruence].
Qed.

(** A peer whose first byte is another protocol version is refused with
    InvalidData and nothing it sends has any effect. *)
Theorem server_refuses_version b st (c : Conn R) :
  stream (input c) = inl b :: st → b ≠ PROTOCOL_VERSION →
  ∃ e c', handle_connection c = Some (Err e, c') ∧ kind e = InvalidData ∧
    node c' = node c ∧ output c' = output c.
Proof.
  intros Hs Hb. destruct (read_exact_bytes 1 [b] st c Hs eq_refl) as (e1 & E1 & S1).
  unfold handle_connection. rewrite E1, bool_decide_false by congruence. by eexists _, _.
Qed.

(** The handler ends on every input, and what it does depends on the bytes
    only, not on how they are cut into reads: two connections with the same
    byte stream give the same result, the same node and the same answers. *)
Theorem chunking_irrelevant (c1 c2 : Conn R) :
  node c1 = node c2 → writes c1 = writes c2 → output c1 = output c2 →
  stream (input c1) = stream (input c2) →
  ∃ r c1' c2', handle_connection c1 = Some (r, c1') ∧ handle_connection c2 = Some (r, c2') ∧
    node c1' = node c2' ∧ output c1' = output c2'.
Proof.
  intros H1 H2 H3 H4. assert (Hc : conn_equiv c1 c2) by done. unfold handle_connection.
  destruct (respectful_read 1 c1 c2 Hc) as [Hr Hc'].
  destruct (read_exact 1 c1) as [r1 d1], (read_exact 1 c2) as [r2 d2]. simpl in Hr, Hc'. subst r2.
  destruct r1 as [version|e]; [|destruct Hc' as (? & _ & ? & _); by eexists _, _, _].
  case_bool_decide; [|destruct Hc' as (? & _ & ? & _); by eexists _, _, _].
  assert (Hsz := size_of_equiv d1 d2 Hc'). unfold size_of in Hsz. rewrite Hsz.
  destruct (connection_loop_total (S (input_size (input d2))) d2) as [[r x2] E2]; [unfold size_of; lia|].
  assert (Hloop := connection_loop_respectful (S (input_size (input d2))) d1 d2 Hc').
  rewrite E2 in Hloop |- *. inversion Hloop as [[r1 x1] ? [Hr Hx] E1 Heq|]; subst.
  simpl in Hr, Hx. subst r1. destruct Hx as (? & _ & ? & _). by eexists _, _, _.
Qed.

(** Whatever a peer sends, in any chunks, with any read or write failure,
    the handler ends and keeps every property of the node that accepting
    user messages with a 64-bit PID and a payload within the limit keeps. *)
Theorem server_input_safe (P : R → Prop) (c : Conn R) :
  message_closed P → P (node c) →
  ∃ r c', handle_connection c = Some (r, c') ∧ P (node c').
Proof.
  intros HP Hc. unfold handle_connection. assert (F1 := keeps_read P 1 c Hc).
  destruct (read_exact 1 c) as [[version|e] d]; [|by eexists _, _].
  case_bool_decide; [|by eexists _, _]. simpl in F1.
  destruct (connection_loop_total (S (input_size (input d))) d) as [[r x] E]; [unfold size_of; lia|].
  exists r, x. split; [done|]. by apply (connection_loop_keeps P _ d (r, x) HP F1 E).
Qed.
(** C28: Resolving a name on a remote node end to end: if the bytes the client
    writes reach the server in any chunks and the server's answer reaches the
    client in any chunks, the client gets the PID registered on the server, and
    nothing when the name is not registered there - or is registered for the
    PID 0, which the answer cannot tell apart. *)
Theorem remote_resolve_end_to_end name (client server server' : Conn R) r :
  writes client = [] → output client = [] → writes server = [] → output server = [] →
  frame_ok (node_config (node client)) (FResolve name) →
  frame_ok (node_config (node server)) (FResolve name) →
  fits 64 (default 0 (node_resolve name (node server))) →
  stream (input server) = inl <$> output (snd (resolve_remote (Ok tt) name client)) →
  handle_connection server = Some (r, server') →
  stream (input client) = inl <$> output server' →
  node server' = node server ∧
  fst (resolve_remote_async (Ok tt) name client) =
    match node_resolve name (node server) with
    | Some pid => if pid =? 0 then None else Some pid
    | None => None
    end.
Proof.
  intros Wc Oc Ws Os Hc Hs Hp Hin Hrun Hback.
  assert (Hcl := resolve_remote_run name client Wc Hc). cbn zeta in Hcl. rewrite Oc in Hcl.
  set (c1 := mkConn _ _ _ _) in Hcl. destruct (read_exact_frame 8 c1) as (_ & _ & Ho).
  destruct (read_exact 8 c1) as [rd c2] eqn:Erd. rewrite Hcl in Hin. cbn [snd] in Hin, Ho. rewrite Ho in Hin.
  destruct (run_frames [FResolve name] [] server) as (s' & Hrun' & Heff);
    [|by left|done|by constructor|].
  { rewrite Hin. unfold c1, encode_frames. cbn [output fmap list_fmap concat]. by rewrite !app_nil_r. }
  rewrite Hrun in Hrun'. injection Hrun' as _ <-. cbn [fold_left frame_effect] in Heff. injection Heff as -> Hout.
  split; [done|]. rewrite Os in Hout. cbn [app] in Hout. rewrite Hout in Hback.
  destruct (read_exact_bytes 8 (to_be_bytes 8 (default 0 (node_resolve name (node server)))) [] c1)
    as (evs & E & _); [by rewrite app_nil_r|apply length_to_be_bytes|].
  rewrite Erd in E. apply (f_equal fst) in E. cbn [fst] in E. subst rd. unfold resolve_remote_async. rewrite Hcl, from_to_be_u64 by done.
  by destruct (node_resolve name (node server)) as [pid|].
Qed.
End client.

(** ** Instances *)
Module ServerDemo.
(** A node with one actor, registered as "svc". *)
Definition node0 : Runtime unit SlabAllocator := rt_register "svc" Demo.a Demo.one.

Definition requests : list frame := [FUser Demo.a [x61]; FResolve "svc"; FPing].

(** The same bytes in two cuts. *)
Definition whole : Conn (Runtime unit SlabAllocator) :=
  mkConn node0 [Data (PROTOCOL_VERSION :: encode_frames requests)] [] [].

Definition cut : Conn (Runtime unit SlabAllocator) :=
  mkConn node0 [Data [PROTOCOL_VERSION]; Data (take 5 (encode_frames requests));
    Data (drop 5 (encode_frames requests))] [] [].

Definition oversized : Conn (Runtime unit SlabAllocator) :=
  mkConn node0 [Data (PROTOCOL_VERSION :: encode_frames requests ++
    [type_byte MtUser] ++ to_be_bytes 8 Demo.a ++ to_be_bytes 4 2000000)] [] [].

Definition asking : Conn (Runtime unit SlabAllocator) :=
  mkConn runtime_new [Data (to_be_bytes 8 Demo.a)] [] [].

Definition asked : Conn (Runtime unit SlabAllocator) :=
  mkConn node0 [Data (PROTOCOL_VERSION :: encode_frames [FResolve "svc"])] [] [].

Definition answered : Conn (Runtime unit SlabAllocator) :=
  match handle_connection asked with Some (_, c) => c | None => asked end.
End ServerDemo.

Lemma server_runs_frames_witness :
  ∃ c', handle_connection ServerDemo.whole = Some (Ok tt, c') ∧
    (node c', output c') = fold_left frame_effect ServerDemo.requests (ServerDemo.node0, []).
Proof.
  apply (server_runs_frames ServerDemo.requests [] ServerDemo.whole);
    [vm_compute; reflexivity|by left|done|].
  repeat constructor; vm_compute; intuition discriminate.
Defined.

Lemma server_refuses_malformed_witness :
  ∃ e c', handle_connection ServerDemo.oversized = Some (Err e, c') ∧ kind e = InvalidData ∧
    (node c', output c') = fold_left frame_effect ServerDemo.requests (ServerDemo.node0, []).
Proof.
  apply (server_refuses_malformed ServerDemo.requests
    ([type_byte MtUser] ++ to_be_bytes 8 Demo.a ++ to_be_bytes 4 2000000) [] ServerDemo.oversized);
    [vm_compute; reflexivity| |done|].
  - apply bad_payload; [reflexivity|vm_compute; intuition discriminate|reflexivity].
  - repeat constructor; vm_compute; intuition discriminate.
Defined.

Lemma server_refuses_version_witness :
  let c := mkConn ServerDemo.node0 [Data [x02; x02]] [] [] in
  ∃ e c', handle_connection c = Some (Err e, c') ∧ kind e = InvalidData ∧ node c' = node c ∧ output c' = output c.
Proof.
  apply (server_refuses_version x02 [inl x02] (mkConn ServerDemo.node0 [Data [x02; x02]] [] []));
    [reflexivity|discriminate].
Defined.

Lemma chunking_irrelevant_witness :
  ∃ r c1' c2', handle_connection ServerDemo.whole = Some (r, c1') ∧
    handle_connection ServerDemo.cut = Some (r, c2') ∧ node c1' = node c2' ∧ output c1' = output c2'.
Proof. apply (chunking_irrelevant ServerDemo.whole ServerDemo.cut); vm_compute; reflexivity. Defined.

(** Reachability of the node is such a property. *)
Lemma message_closed_reachable :
  message_closed (λ r : Runtime unit SlabAllocator, reachable rt_init rt_step r).
Proof. intros p data r Hr _ _. eapply reach_step; [exact Hr|apply st_send]. Qed.

Lemma server_input_safe_witness :
  ∃ r c', handle_connection (mkConn Demo.ended [Data [x01; x00; x07]; Stall] [] []) = Some (r, c') ∧
    reachable rt_init rt_step (node c').
Proof.
  apply (server_input_safe (λ r : Runtime unit SlabAllocator, reachable rt_init rt_step r)
    (mkConn Demo.ended [Data [x01; x00; x07]; Stall] [] [])).
  - apply message_closed_reachable.
  - apply demo_ended_reachable.
Defined.

Lemma remote_resolve_end_to_end_witness :
  node_resolve "svc" (node ServerDemo.asked) = Some Demo.a ∧
  node ServerDemo.answered = node ServerDemo.asked ∧
  fst (resolve_remote_async (Ok tt) "svc" ServerDemo.asking) =
    match node_resolve "svc" (node ServerDemo.asked) with
    | Some pid => if pid =? 0 then None else Some pid
    | None => None
    end.
Proof.
  split; [vm_compute; reflexivity|].
  apply (remote_resolve_end_to_end "svc" ServerDemo.asking ServerDemo.asked ServerDemo.answered (Ok tt));
    try (vm_compute; reflexivity); vm_compute; intuition discriminate.
Defined.
