(* ===== verification/Listener.v ===== *)
(** * The server: many connections on one node ([src/src/network.rs], [lib.rs])

    [start_server] accepts connections and runs each in a task of its own, over
    the node all of them and everything else share.  [Connection] runs one
    handler without interference; here the handler is a program of single
    operations ([prog]), a connection advances one operation per turn
    ([conn_turn]), and turns of different connections, acceptances and steps of
    the rest of the node interleave freely ([server_step]).

    The file shows that run alone a connection does what [handle_connection]
    does, that it ends whatever the others do, that a well-formed stream is
    carried out on the node in order under any interleaving, and that no traffic
    breaks an invariant of the runtime. *)
From S2P Require Import Prelude Pid Mailbox Registry Supervisor Runtime RuntimeInv Interface Wire Connection Server.
From Stdlib Require Import Strings.Byte.

Section listener.
Context {R : Type} `{N : Node R}.

(** ** The handler as a program

    An operation that fails ends the program with its error, as [?] does. *)
Inductive prog : Type :=
| Done
| Throw (e : IoError)
| ReadExact (n : nat) (k : Bytes → prog)
| WriteAll (bs : Bytes) (k : prog)
| AskConfig (k : Config → prog)
| SendTo (pid : Pid) (msg : Message) (k : prog)
| Lookup (name : string) (k : option Pid → prog).

Definition user_prog : prog :=
  ReadExact 12 (λ meta,
    let pid := from_be_bytes (take 8 meta) in
    let len := from_be_bytes (drop 8 meta) in
    AskConfig (λ cfg,
      if network_max_payload cfg <? len then Throw (mkIoError InvalidData "payload too large")
      else ReadExact (Z.to_nat len) (λ data, SendTo pid (User data) Done))).

Definition resolve_prog : prog :=
  ReadExact 4 (λ len_buf,
    let len := from_be_bytes len_buf in
    AskConfig (λ cfg,
      if network_max_name_len cfg <? len then Throw (mkIoError InvalidData "resolve name too long")
      else ReadExact (Z.to_nat len) (λ name_vec,
        match from_utf8 name_vec with
        | None => Throw (mkIoError InvalidData "invalid utf8 in resolve request")
        | Some name => Lookup name (λ r, WriteAll (to_be_bytes 8 (default 0 r)) Done)
        end))).

Definition frame_prog (header : Bytes) : prog :=
  match header with
  | b :: _ =>
      match type_of_byte b with
      | None => Throw (mkIoError InvalidData "unknown message type")
      | Some MtUser => user_prog
      | Some MtResolve => resolve_prog
      | Some MtPing => WriteAll [x03] Done
      end
  | [] => Done
  end.

(** What a connection has done to the node and been told by it. *)
Inductive conn_event := DidSend (pid : Pid) (msg : Message) | DidLookup (name : string) (answer : option Pid).

(** The next operation of a program on a connection. *)
Definition prog_turn (p : prog) (c : Conn R) : prog * Conn R * list conn_event :=
  match p with
  | Done | Throw _ => (p, c, [])
  | ReadExact n k =>
      match read_exact n c with
      | (Ok bs, c') => (k bs, c', [])
      | (Err e, c') => (Throw e, c', [])
      end
  | WriteAll bs k =>
      match write_all bs c with
      | (Ok _, c') => (k, c', [])
      | (Err e, c') => (Throw e, c', [])
      end
  | AskConfig k => (k (node_config (node c)), c, [])
  | SendTo pid msg k =>
      (k, mkConn (fst (node_send pid msg (node c))) (input c) (writes c) (output c), [DidSend pid msg])
  | Lookup name k => (k (node_resolve name (node c)), c, [DidLookup name (node_resolve name (node c))])
  end.

(** ** A connection's task *)
Inductive conn_stage := AwaitVersion | AwaitHeader | InFrame (p : prog) | Closed (r : result unit IoError).

(** Its stage, its socket and what it has done. *)
Record ConnTask := mkConnTask {
  c_stage : conn_stage;
  c_input : list rd_event;
  c_writes : list wr_event;
  c_output : Bytes;
  c_did : list conn_event
}.

Definition conn_start (inp : list rd_event) (ws : list wr_event) : ConnTask :=
  mkConnTask AwaitVersion inp ws [] [].

Definition plug (r : R) (t : ConnTask) : Conn R := mkConn r (c_input t) (c_writes t) (c_output t).

Definition unplug (g : conn_stage) (c : Conn R) (did : list conn_event) : ConnTask * R :=
  (mkConnTask g (input c) (writes c) (output c) did, node c).

(** One turn of a connection; the node may have changed since the last. *)
Definition conn_turn (t : ConnTask) (r : R) : ConnTask * R :=
  let c := plug r t in
  match c_stage t with
  | AwaitVersion =>
      match read_exact 1 c with
      | (Err e, c') => unplug (Closed (Err e)) c' (c_did t)
      | (Ok version, c') =>
          if bool_decide (version = [PROTOCOL_VERSION]) then unplug AwaitHeader c' (c_did t)
          else unplug (Closed (Err (mkIoError InvalidData "protocol version mismatch"))) c' (c_did t)
      end
  | AwaitHeader =>
      match read_exact 1 c with
      | (Err _, c') => unplug (Closed (Ok tt)) c' (c_did t)
      | (Ok header, c') => unplug (InFrame (frame_prog header)) c' (c_did t)
      end
  | InFrame Done => unplug AwaitHeader c (c_did t)
  | InFrame (Throw e) => unplug (Closed (Err e)) c (c_did t)
  | InFrame p => let '(p', c', evs) := prog_turn p c in unplug (InFrame p') c' (c_did t ++ evs)
  | Closed _ => (t, r)
  end.

(** ** The server *)
Record Listening := mkListening { s_node : R; s_accepting : bool; s_conns : list ConnTask }.

(** [start_server], given the outcome of [bind] and [local_addr]; dropping the
    listener on an error leaves nothing behind. *)
Definition start_server (bound : result unit IoError) (local_addr : result string IoError) (s : Listening)
  : Listening * result string IoError :=
  match bound with
  | Err e => (s, Err e)
  | Ok _ =>
      match local_addr with
      | Err e => (s, Err e)
      | Ok addr => (mkListening (s_node s) true (s_conns s), Ok addr)
      end
  end.

(** One turn of the accept loop; an error is logged and the loop goes on. *)
Definition accept_turn (socket : result (list rd_event * list wr_event) IoError) (s : Listening) : Listening :=
  match socket with
  | Ok (inp, ws) => mkListening (s_node s) (s_accepting s) (s_conns s ++ [conn_start inp ws])
  | Err _ => s
  end.

Definition conns_turn (i : nat) (s : Listening) : Listening :=
  match s_conns s !! i with
  | Some t => let (t', r') := conn_turn t (s_node s) in mkListening r' (s_accepting s) (<[i := t']> (s_conns s))
  | None => s
  end.

(** [other] is what the rest of the node may do between two turns. *)
Inductive server_step (other : R → R → Prop) : Listening → Listening → Prop :=
| sv_start b a s : server_step other s (fst (start_server b a s))
| sv_accept x s : s_accepting s = true → server_step other s (accept_turn x s)
| sv_turn i s : server_step other s (conns_turn i s)
| sv_other r s : other (s_node s) r → server_step other s (mkListening r (s_accepting s) (s_conns s)).

Definition server_init (init : R → Prop) (s : Listening) : Prop :=
  init (s_node s) ∧ s_accepting s = false ∧ s_conns s = [].

(** A run of the server from [s0], with the node before and after each turn of
    the connection [i]. *)
Inductive watched (other : R → R → Prop) (i : nat) (s0 : Listening) : list (R * R) → Listening → Prop :=
| wt_init : watched other i s0 [] s0
| wt_own log s : watched other i s0 log s →
    watched other i s0 (log ++ [(s_node s, s_node (conns_turn i s))]) (conns_turn i s)
| wt_conn j log s : watched other i s0 log s → j ≠ i → watched other i s0 log (conns_turn j s)
| wt_start b a log s : watched other i s0 log s → watched other i s0 log (fst (start_server b a s))
| wt_accept x log s : watched other i s0 log s → s_accepting s = true → watched other i s0 log (accept_turn x s)
| wt_other r log s : watched other i s0 log s → other (s_node s) r →
    watched other i s0 log (mkListening r (s_accepting s) (s_conns s)).

(** What a turn that does [new] makes of the node [r]: a send leaves the node
    after that send, an answered lookup has the node's answer, any other turn
    leaves the node alone. *)
Inductive turn_effect (r : R) : list conn_event → R → Prop :=
| eff_none : turn_effect r [] r
| eff_send pid msg : turn_effect r [DidSend pid msg] (fst (node_send pid msg r))
| eff_lookup name : turn_effect r [DidLookup name (node_resolve name r)] r.

(** ** What a stream of frames asks for *)
Definition frame_events (f : frame) (answer : option Pid) : list conn_event :=
  match f with
  | FUser pid data => [DidSend pid (User data)]
  | FResolve name => [DidLookup name answer]
  | FPing => []
  end.

Definition frame_reply (f : frame) (answer : option Pid) : Bytes :=
  match f with
  | FUser _ _ => []
  | FResolve _ => to_be_bytes 8 (default 0 answer)
  | FPing => [x03]
  end.

Definition events_of (done : list (frame * option Pid)) : list conn_event :=
  concat ((λ fa, frame_events (fst fa) (snd fa)) <$> done).

Definition replies_of (done : list (frame * option Pid)) : Bytes :=
  concat ((λ fa, frame_reply (fst fa) (snd fa)) <$> done).

(** A program run on bytes, with the node's answers to lookups given: what it
    does, what it writes and what it leaves to read. *)
Fixpoint prog_run (cfg : Config) (answers : list (option Pid)) (p : prog) (bs : Bytes)
  : option (list conn_event * Bytes * Bytes) :=
  match p with
  | Done => Some ([], [], bs)
  | Throw _ => None
  | ReadExact n k => if (n <=? length bs)%nat then prog_run cfg answers (k (take n bs)) (drop n bs) else None
  | WriteAll out k =>
      match prog_run cfg answers k bs with
      | Some (evs, out', rest) => Some (evs, out ++ out', rest)
      | None => None
      end
  | AskConfig k => prog_run cfg answers (k cfg) bs
  | SendTo pid msg k =>
      match prog_run cfg answers k bs with
      | Some (evs, out, rest) => Some (DidSend pid msg :: evs, out, rest)
      | None => None
      end
  | Lookup name k =>
      let a := default None (head answers) in
      match prog_run cfg (tail answers) (k a) bs with
      | Some (evs, out, rest) => Some (DidLookup name a :: evs, out, rest)
      | None => None
      end
  end.

(** Whatever the node will answer, [p] finishes frame [f] on exactly the bytes
    [bs], having done [evs] and written [out] of it already. *)
Definition finishes (cfg : Config) (f : frame) (p : prog) (bs : Bytes) (evs : list conn_event) (out : Bytes) : Prop :=
  ∀ answers, ∃ a evs' out', prog_run cfg answers p bs = Some (evs', out', []) ∧
    evs ++ evs' = frame_events f a ∧ out ++ out' = frame_reply f a.
End listener.

Arguments Listening : clear implicits.

Section listener_lemmas.
Context {R : Type} `{N : Node R}.
Implicit Types (c : Conn R) (t : ConnTask) (s : Listening R) (p : prog).

(** ** The program and the handler *)

(** A program run to its end without interference. *)
Fixpoint interp p : M R unit := λ c,
  match p with
  | Done => (Ok tt, c)
  | Throw e => (Err e, c)
  | ReadExact n k =>
      match read_exact n c with (Ok bs, c') => interp (k bs) c' | (Err e, c') => (Err e, c') end
  | WriteAll bs k =>
      match write_all bs c with (Ok _, c') => interp k c' | (Err e, c') => (Err e, c') end
  | AskConfig k => interp (k (node_config (node c))) c
  | SendTo pid msg k => interp k (mkConn (fst (node_send pid msg (node c))) (input c) (writes c) (output c))
  | Lookup name k => interp (k (node_resolve name (node c))) c
  end.

Lemma interp_frame header c : interp (frame_prog header) c = handle_frame header c.
Proof.
  destruct header as [|b r]; [done|]. cbn [frame_prog handle_frame].
  destruct (type_of_byte b) as [[]|]; [| | |done].
  - unfold user_prog, handle_user, bind, get_config. cbn [interp].
    destruct (read_exact 12 c) as [[meta|e] c1]; [|done]. destruct (_ <? _); [done|].
    cbn [interp]. by destruct (read_exact _ c1) as [[data|e] c2].
  - unfold resolve_prog, handle_resolve, bind, get_config. cbn [interp].
    destruct (read_exact 4 c) as [[len_buf|e] c1]; [|done]. destruct (_ <? _); [done|].
    cbn [interp]. destruct (read_exact _ c1) as [[name_vec|e] c2]; [|done].
    destruct (from_utf8 name_vec) as [name|]; [|done]. cbn [interp].
    by destruct (write_all _ c2) as [[[]|e] c3].
  - cbn [interp]. by destruct (write_all [x03] c) as [[[]|e] c1].
Qed.

(** [n] turns of a connection on a node nobody else changes. *)
Definition solo (n : nat) (tr : ConnTask * R) : ConnTask * R := Nat.iter n (λ x, conn_turn (fst x) (snd x)) tr.

Lemma solo_succ n tr : solo (S n) tr = solo n (conn_turn (fst tr) (snd tr)).
Proof. unfold solo. by rewrite Nat.iter_succ_r. Qed.

Lemma solo_add n m tr : solo (n + m) tr = solo n (solo m tr).
Proof. apply Nat.iter_add. Qed.

(** Where a connection stands: its stage and the handler's view of it. *)
Definition at_stage (tr : ConnTask * R) (g : conn_stage) c : Prop :=
  c_stage (fst tr) = g ∧ plug (snd tr) (fst tr) = c.

Lemma at_stage_unplug g c did : at_stage (unplug g c did) g c.
Proof. by destruct c. Qed.

Lemma solo_one tr g c : at_stage (conn_turn (fst tr) (snd tr)) g c → at_stage (solo 1 tr) g c.
Proof. done. Qed.

(** A program is over, has failed or has an operation to do. *)
Lemma prog_cases p : p = Done ∨ (∃ e, p = Throw e) ∨ (p ≠ Done ∧ ∀ e, p ≠ Throw e).
Proof. destruct p; eauto; right; right; split; congruence. Qed.

Lemma conn_turn_op t r p : c_stage t = InFrame p → p ≠ Done → (∀ e, p ≠ Throw e) →
  conn_turn t r = let '(p', c', evs) := prog_turn p (plug r t) in unplug (InFrame p') c' (c_did t ++ evs).
Proof. intros Hg Hd He. unfold conn_turn. rewrite Hg. by destruct p; try done; destruct (He e). Qed.

Lemma conn_turn_in_frame tr p c : at_stage tr (InFrame p) c → p ≠ Done → (∀ e, p ≠ Throw e) →
  let '(p', c', _) := prog_turn p c in at_stage (conn_turn (fst tr) (snd tr)) (InFrame p') c'.
Proof.
  intros [Hg Hc] Hd He. rewrite (conn_turn_op _ _ p), Hc by done.
  destruct (prog_turn p c) as [[p' c'] evs]. apply at_stage_unplug.
Qed.

Lemma solo_prog p tr c : at_stage tr (InFrame p) c →
  ∃ n, at_stage (solo n tr) match fst (interp p c) with Ok _ => AwaitHeader | Err e => Closed (Err e) end (snd (interp p c)).
Proof.
  revert tr c. induction p as [|e|n k IH|bs k IH|k IH|pid msg k IH|name k IH]; intros tr c Hat;
    try (assert (Ht := conn_turn_in_frame tr _ c Hat ltac:(done) ltac:(done)); cbn [prog_turn interp] in *).
  - exists 1%nat. destruct Hat as [Hg Hc], tr as [t r]. simpl in *. unfold conn_turn. rewrite Hg, Hc. apply at_stage_unplug.
  - exists 1%nat. destruct Hat as [Hg Hc], tr as [t r]. simpl in *. unfold conn_turn. rewrite Hg, Hc. apply at_stage_unplug.
  - destruct (read_exact n c) as [[bs|e] c'].
    + destruct (IH bs _ _ Ht) as [m Hm]. exists (S m). by rewrite solo_succ.
    + exists 2%nat. rewrite solo_succ. destruct (conn_turn _ _) as [t' r'], Ht as [Hg Hc]. simpl in *.
      unfold conn_turn. rewrite Hg, Hc. apply at_stage_unplug.
  - destruct (write_all bs c) as [[[]|e] c'].
    + destruct (IH _ _ Ht) as [m Hm]. exists (S m). by rewrite solo_succ.
    + exists 2%nat. rewrite solo_succ. destruct (conn_turn _ _) as [t' r'], Ht as [Hg Hc]. simpl in *.
      unfold conn_turn. rewrite Hg, Hc. apply at_stage_unplug.
  - destruct (IH _ _ _ Ht) as [m Hm]. exists (S m). by rewrite solo_succ.
  - destruct (IH _ _ Ht) as [m Hm]. exists (S m). by rewrite solo_succ.
  - destruct (IH _ _ _ Ht) as [m Hm]. exists (S m). by rewrite solo_succ.
Qed.

Lemma solo_loop fuel tr c x : at_stage tr AwaitHeader c → connection_loop fuel c = Some x →
  ∃ n, at_stage (solo n tr) (Closed (fst x)) (snd x).
Proof.
  revert tr c. induction fuel as [|fuel IH]; intros tr c Hat Hx; [done|]. simpl in Hx.
  assert (Ht : at_stage (conn_turn (fst tr) (snd tr))
    match fst (read_exact 1 c) with Ok h => InFrame (frame_prog h) | Err _ => Closed (Ok tt) end (snd (read_exact 1 c))).
  { destruct Hat as [Hg Hc], tr as [t r]. simpl in *. unfold conn_turn. rewrite Hg, Hc.
    destruct (read_exact 1 c) as [[h|e] c']; apply at_stage_unplug. }
  destruct (read_exact 1 c) as [[header|e] c']; cbn [fst snd] in Ht.
  - destruct (solo_prog _ _ _ Ht) as [n Hn]. rewrite interp_frame in Hn.
    destruct (handle_frame header c') as [[u|e] c'']; cbn [fst snd] in Hn.
    + destruct (IH _ _ Hn Hx) as [m Hm]. exists (m + n + 1)%nat. by rewrite !solo_add.
    + exists (n + 1)%nat. rewrite solo_add. by injection Hx as <-.
  - exists 1%nat. by injection Hx as <-.
Qed.

Lemma solo_connection inp ws r x : handle_connection (mkConn r inp ws []) = Some x →
  ∃ n, at_stage (solo n (conn_start inp ws, r)) (Closed (fst x)) (snd x).
Proof.
  unfold handle_connection. intros Hx.
  assert (Ht : at_stage (conn_turn (conn_start inp ws) r)
    match fst (read_exact 1 (mkConn r inp ws [])) with
    | Ok v => if bool_decide (v = [PROTOCOL_VERSION]) then AwaitHeader
              else Closed (Err (mkIoError InvalidData "protocol version mismatch"))
    | Err e => Closed (Err e) end (snd (read_exact 1 (mkConn r inp ws [])))).
  { unfold conn_turn, plug. cbn [c_stage c_input c_writes c_output conn_start].
    destruct (read_exact 1 _) as [[h|e] c']; cbn [fst snd]; [case_bool_decide|]; apply at_stage_unplug. }
  destruct (read_exact 1 _) as [[v|e] c']; cbn [fst snd] in Ht; [case_bool_decide|].
  - destruct (solo_loop _ _ _ _ Ht Hx) as [n Hn]. exists (S n). by rewrite solo_succ.
  - exists 1%nat. by injection Hx as <-.
  - exists 1%nat. by injection Hx as <-.
Qed.

(** ** Termination *)

(** [p] has at most [n] operations left, whatever it is answered. *)
Inductive within : nat → prog → Prop :=
| w_done n : within n Done
| w_throw n e : within n (Throw e)
| w_read n m k : (∀ bs, within n (k bs)) → within (S n) (ReadExact m k)
| w_write n bs k : within n k → within (S n) (WriteAll bs k)
| w_config n k : (∀ cfg, within n (k cfg)) → within (S n) (AskConfig k)
| w_send n pid msg k : within n k → within (S n) (SendTo pid msg k)
| w_lookup n name k : (∀ a, within n (k a)) → within (S n) (Lookup name k).

Lemma within_frame header : within 5 (frame_prog header).
Proof.
  destruct header as [|b r]; [constructor|]. cbn [frame_prog].
  destruct (type_of_byte b) as [[]|]; unfold user_prog, resolve_prog; repeat (constructor; intros);
    destruct (_ <? _); repeat (constructor; intros). destruct (from_utf8 _); repeat (constructor; intros).
Qed.

(** Turns left. *)
Inductive turns_left : nat → ConnTask → Prop :=
| tl_version t : c_stage t = AwaitVersion → turns_left (7 * input_size (c_input t) + 1) t
| tl_header t : c_stage t = AwaitHeader → turns_left (7 * input_size (c_input t) + 1) t
| tl_frame t p n : c_stage t = InFrame p → within n p → turns_left (7 * input_size (c_input t) + n + 2) t
| tl_closed t r : c_stage t = Closed r → turns_left 0 t.

Lemma prog_turn_within n p c : within (S n) p → within n (fst (fst (prog_turn p c))) ∧
  (input_size (input (snd (fst (prog_turn p c)))) <= input_size (input c))%nat.
Proof.
  intros Hw. inversion Hw as [| |? n' k Hk|? bs k Hk| | |]; subst; cbn [prog_turn];
    try (by split; [constructor|reflexivity]); try (by split; [cbn [fst]; auto|reflexivity]).
  - assert (Hs := shrinking_read n' c). destruct (read_exact n' c) as [[bs|e] c'].
    + by split; [apply Hk|].
    + by split; [constructor|].
  - assert (Hs := shrinking_write bs c). destruct (write_all bs c) as [[[]|e] c'].
    + by split.
    + by split; [constructor|].
Qed.
Lemma turn_progress n t r : turns_left (S n) t → ∃ m, (m <= n)%nat ∧ turns_left m (fst (conn_turn t r)).
Proof.
  intros Ht. inversion Ht as [? Hg Hn|? Hg Hn|? p k Hg Hw Hn|]; subst; unfold conn_turn; rewrite Hg.
  - assert (Hs := read_exact_size 1 (plug r t)). unfold size_of in Hs. cbn [plug input] in Hs.
    destruct (read_exact 1 _) as [[v|e] c']; [case_bool_decide|]; unfold unplug; cbn [fst].
    + eexists. split; [|by apply tl_header]. cbn [c_input]. lia.
    + eexists. split; [|by eapply tl_closed]. lia.
    + eexists. split; [|by eapply tl_closed]. lia.
  - assert (Hs := read_exact_size 1 (plug r t)). unfold size_of in Hs. cbn [plug input] in Hs.
    destruct (read_exact 1 _) as [[h|e] c']; unfold unplug; cbn [fst].
    + eexists. split; [|eapply tl_frame; [done|apply within_frame]]. cbn [c_input]. lia.
    + eexists. split; [|by eapply tl_closed]. lia.
  - destruct (prog_cases p) as [->|[[e ->]|[Hd He]]].
    + eexists. split; [|by apply tl_header]. simpl. lia.
    + eexists. split; [|by eapply tl_closed]. lia.
    + destruct k as [|k]; [inversion Hw; subst; [done|by destruct (He e)]|].
      assert (E := conn_turn_op t r p Hg Hd He). unfold conn_turn in E. rewrite Hg in E. rewrite E.
      destruct (prog_turn_within k p (plug r t) Hw) as [Hw' Hs'].
      destruct (prog_turn p (plug r t)) as [[p' c'] evs]. cbn [fst snd plug input] in *.
      eexists. split; [|by eapply tl_frame]. cbn [unplug fst c_input]. lia.
Qed.

Lemma turns_end rs n t : turns_left n t → (n <= length rs)%nat →
  ∃ res, c_stage (fold_left (λ t r, fst (conn_turn t r)) rs t) = Closed res.
Proof.
  revert n t. induction rs as [|r rs IH]; intros n t Ht Hn; simpl in *.
  - assert (n = 0%nat) as -> by lia. inversion Ht; subst; try lia. eauto.
  - destruct n as [|n].
    + assert (E : fst (conn_turn t r) = t) by (inversion Ht as [| | |? ? E]; subst; try lia; unfold conn_turn; by rewrite E).
      rewrite E. apply (IH 0%nat); [done|lia].
    + destruct (turn_progress n t r Ht) as (m & Hm & Ht'). apply (IH m); [done|lia].
Qed.

(** ** Frames under interference *)
Lemma run_read cfg answers n k bs1 bs2 : length bs1 = n →
  prog_run cfg answers (ReadExact n k) (bs1 ++ bs2) = prog_run cfg answers (k bs1) bs2.
Proof.
  intros Hn. cbn [prog_run]. assert (Hle : (n <=? length (bs1 ++ bs2))%nat = true)
    by (apply Nat.leb_le; rewrite length_app; lia).
  by rewrite Hle, take_app_length', drop_app_length'.
Qed.

Lemma run_read_all cfg answers n k bs : length bs = n →
  prog_run cfg answers (ReadExact n k) bs = prog_run cfg answers (k bs) [].
Proof. intros Hn. rewrite <-(app_nil_r bs) at 1. by apply run_read. Qed.

Lemma finishes_start cfg f b bs : frame_ok cfg f → encode_frame f = b :: bs →
  finishes cfg f (frame_prog [b]) bs [] [].
Proof.
  intros Hok He answers. assert (Hb : b = hd x00 (encode_frame f)) by (by rewrite He).
  assert (Hbs : bs = tail (encode_frame f)) by (by rewrite He). clear He. subst.
  destruct f as [pid data|name|]; cbn [encode_frame hd tail app frame_prog type_byte type_of_byte].
  - destruct Hok as (Hp & Hmax & Hl). rewrite mod_fits by done.
    destruct (user_meta (to_be_bytes 8 pid) (Z.of_nat (length data))) as (M1 & M2 & M3);
      [apply length_to_be_bytes|done|].
    exists None, [DidSend pid (User data)], []. split_and!; [|done|done]. unfold user_prog.
    rewrite (assoc_L (++)), run_read by done. rewrite M2, M3, from_to_be_u64 by done. cbn [prog_run].
    assert (Hlt : (network_max_payload cfg <? Z.of_nat (length data)) = false) by (apply Z.ltb_ge; lia).
    rewrite Hlt, Nat2Z.id, run_read_all by done. done.
  - destruct Hok as (Hu & Hmax & Hf). rewrite mod_fits by done. set (a := default None (head answers)).
    exists a, [DidLookup name a], (to_be_bytes 8 (default 0 a)). split_and!; [|done|done]. unfold resolve_prog.
    rewrite run_read by apply length_to_be_bytes. rewrite from_to_be_u32 by done. cbn [prog_run].
    assert (Hlt : (network_max_name_len cfg <? Z.of_nat (length (as_bytes name))) = false) by (apply Z.ltb_ge; lia).
    rewrite Hlt, Nat2Z.id, run_read_all by done. rewrite from_utf8_as_bytes by done. cbn [prog_run].
    by rewrite app_nil_r.
  - by exists None, [], [x03].
Qed.

(** A write of frame [f] that fails at this turn, after a part of its bytes. *)
Definition write_fails f evs out (p' : prog) c c' : Prop :=
  (∃ e, p' = Throw e) ∧ ¬ Forall (λ w, w = Written) (writes c) ∧
  ∃ a o, output c' = output c ++ o ∧ evs `prefix_of` frame_events f a ∧ out ++ o `prefix_of` frame_reply f a.

Lemma finishes_write cfg f b k bs evs out : finishes cfg f (WriteAll b k) bs evs out →
  finishes cfg f k bs evs (out ++ b).
Proof.
  intros Hf answers. destruct (Hf answers) as (a & evs' & out' & Hr & He & Ho). cbn [prog_run] in Hr.
  destruct (prog_run _ _ k bs) as [[[evs1 out1] rest1]|]; [|done]. injection Hr as -> <- ->.
  exists a, evs', out1. by rewrite <-(assoc_L (++)).
Qed.

Lemma finishes_prefix cfg f p bs evs out : finishes cfg f p bs evs out →
  ∃ a, evs `prefix_of` frame_events f a ∧ out `prefix_of` frame_reply f a.
Proof. intros Hf. destruct (Hf []) as (a & evs' & out' & _ & He & Ho). exists a. rewrite <-He, <-Ho. split; by apply prefix_app_r. Qed.

Lemma finishes_part cfg f b k bs evs out n : finishes cfg f (WriteAll b k) bs evs out →
  ∃ a, evs `prefix_of` frame_events f a ∧ out ++ take n b `prefix_of` frame_reply f a.
Proof.
  intros (a & He & Ho)%finishes_write%finishes_prefix. exists a. split; [done|]. etransitivity; [|exact Ho].
  apply prefix_app. exists (drop n b). by rewrite take_drop.
Qed.

Lemma finishes_turn f p bs evs out st c :
  finishes (node_config (node c)) f p bs evs out → stream (input c) = (inl <$> bs) ++ st →
  p ≠ Done → let '(p', c', new) := prog_turn p c in
  (write_fails f evs out p' c c' ∧ new = []) ∨
  ∃ bs' out', finishes (node_config (node c)) f p' bs' (evs ++ new) (out ++ out') ∧
    stream (input c') = (inl <$> bs') ++ st ∧ output c' = output c ++ out' ∧
    (Forall (λ w, w = Written) (writes c) → Forall (λ w, w = Written) (writes c')).
Proof.
  intros Hf Hs Hd. destruct p as [|e|n k|b k|k|pid msg k|name k]; cbn [prog_turn].
  - done.
  - by destruct (Hf []) as (? & ? & ? & ? & _).
  - assert (Hn : (n <= length bs)%nat).
    { destruct (Hf []) as (? & ? & ? & Hr & _). cbn [prog_run] in Hr. destruct (_ <=? _)%nat eqn:E; [|done].
      by apply Nat.leb_le. }
    rewrite <-(take_drop n bs), fmap_app, <-(assoc_L (++)) in Hs.
    destruct (read_exact_bytes n _ _ c Hs ltac:(rewrite length_take; lia)) as (e1 & -> & S1).
    right. exists (drop n bs), []. rewrite !app_nil_r. split_and!; [|done|done|done]. intros answers.
    destruct (Hf answers) as (a & evs' & out' & Hr & H). exists a, evs', out'. split; [|done].
    cbn [prog_run] in Hr. by destruct (_ <=? _)%nat.
  - unfold write_all. destruct (writes c) as [|[|sent|sent e] ws] eqn:Ew;
      try (right; exists bs, b; rewrite app_nil_r; split_and!; [by eapply finishes_write|done|done|by inversion 1]);
      left; (split; [|done]); (split; [by eexists|]); (split; [rewrite Ew; by inversion 1|]);
      destruct (finishes_part _ _ _ _ _ _ _ sent Hf) as (a & He & Ho); by exists a, (take sent b).
  - right. exists bs, []. rewrite !app_nil_r. split_and!; [|done|done|done]. intros answers.
    destruct (Hf answers) as (a & evs' & out' & H). by exists a, evs', out'.
  - right. exists bs, []. rewrite !app_nil_r. split_and!; [|done|done|done]. intros answers.
    destruct (Hf answers) as (a & evs' & out' & Hr & He & Ho). cbn [prog_run] in Hr.
    destruct (prog_run _ _ k bs) as [[[evs1 out1] rest1]|]; [|done]. injection Hr as <- -> ->.
    exists a, evs1, out'. by rewrite <-(assoc_L (++)).
  - right. set (r := node_resolve name (node c)). exists bs, []. rewrite !app_nil_r. split_and!; [|done|done|done].
    intros answers. destruct (Hf (r :: answers)) as (a & evs' & out' & Hr & He & Ho). cbn [prog_run head tail default] in Hr.
    destruct (prog_run _ _ (k r) bs) as [[[evs1 out1] rest1]|] eqn:E; cbn in Hr; rewrite ?E in Hr; [|done].
    injection Hr as <- -> ->. exists a, evs1, out'. by rewrite <-(assoc_L (++)).
Qed.

(** A frame was begun and one of its writes failed. *)
Definition cut_off (rest : list frame) (did : list conn_event) (out : Bytes)
    (done : list (frame * option Pid)) : Prop :=
  ∃ f rest' a evs o, rest = f :: rest' ∧ did = events_of done ++ evs ∧ out = replies_of done ++ o ∧
    evs `prefix_of` frame_events f a ∧ o `prefix_of` frame_reply f a.

(** A connection given the frames [fs], then [st]: what it has served; [ok]
    tells that all its writes succeed. *)
Definition served cfg (fs : list frame) st (ok : Prop) t : Prop :=
  (ok → Forall (λ w, w = Written) (c_writes t)) ∧
  ∃ done rest, fs = (fst <$> done) ++ rest ∧
  match c_stage t with
  | AwaitVersion => done = [] ∧ c_did t = [] ∧ c_output t = [] ∧
      stream (c_input t) = (inl <$> (PROTOCOL_VERSION :: encode_frames rest)) ++ st
  | AwaitHeader => c_did t = events_of done ∧ c_output t = replies_of done ∧
      stream (c_input t) = (inl <$> encode_frames rest) ++ st
  | InFrame p =>
      (∃ f rest' bs evs out, rest = f :: rest' ∧ finishes cfg f p bs evs out ∧
        c_did t = events_of done ++ evs ∧ c_output t = replies_of done ++ out ∧
        stream (c_input t) = (inl <$> (bs ++ encode_frames rest')) ++ st) ∨
      ((∃ e, p = Throw e) ∧ ¬ ok ∧ cut_off rest (c_did t) (c_output t) done)
  | Closed res =>
      (rest = [] ∧ res = Ok tt ∧ c_did t = events_of done ∧ c_output t = replies_of done) ∨
      ((∃ e, res = Err e) ∧ ¬ ok ∧ cut_off rest (c_did t) (c_output t) done)
  end.

Lemma events_of_snoc done f a : events_of (done ++ [(f, a)]) = events_of done ++ frame_events f a.
Proof. unfold events_of. rewrite fmap_app, concat_app. simpl. by rewrite app_nil_r. Qed.

Lemma replies_of_snoc done f a : replies_of (done ++ [(f, a)]) = replies_of done ++ frame_reply f a.
Proof. unfold replies_of. rewrite fmap_app, concat_app. simpl. by rewrite app_nil_r. Qed.

Lemma finishes_done cfg f bs evs out : finishes cfg f Done bs evs out →
  bs = [] ∧ ∃ a, evs = frame_events f a ∧ out = frame_reply f a.
Proof.
  intros Hf. destruct (Hf []) as (a & evs' & out' & [= <- <- ->] & He & Ho). split; [done|].
  exists a. by rewrite app_nil_r in He, Ho.
Qed.

Lemma encode_frame_cons f : ∃ b l, encode_frame f = b :: l.
Proof. destruct f; by eexists _, _. Qed.

Lemma served_frame cfg fs st ok t r p : Forall (frame_ok cfg) fs → node_config r = cfg →
  served cfg fs st ok t → c_stage t = InFrame p → served cfg fs st ok (fst (conn_turn t r)).
Proof.
  intros Hok Hcfg (Hw & done & rest & Hfs & Hst) Hg. rewrite Hg in Hst.
  destruct Hst as [(f & rest' & bs & evs & out & -> & Hfin & Hdid & Hout & Hs)|([e ->] & Hko & Hcut)]; cycle 1.
  { unfold conn_turn. rewrite Hg. split; [done|]. exists done, rest. split; [done|]. right. split; [by eexists|done]. }
  destruct (prog_cases p) as [->|[[e ->]|[Hd He]]].
  - unfold conn_turn. rewrite Hg. destruct (finishes_done _ _ _ _ _ Hfin) as (-> & a & -> & ->). split; [done|].
    exists (done ++ [(f, a)]), rest'. split; [by rewrite fmap_app, <-(assoc_L (++))|].
    cbn [unplug fst c_stage c_did c_output c_input plug output]. by rewrite events_of_snoc, replies_of_snoc.
  - destruct (Hfin []) as (? & ? & ? & ? & _). done.
  - assert (Ht := finishes_turn f p bs evs out ((inl <$> encode_frames rest') ++ st) (plug r t)).
    cbn [plug node input] in Ht. rewrite Hcfg in Ht.
    rewrite fmap_app, <-(assoc_L (++)) in Hs. specialize (Ht Hfin Hs Hd).
    rewrite (conn_turn_op t r p) by done. destruct (prog_turn p (plug r t)) as [[p' c'] new].
    destruct Ht as [[([e ->] & Hko & a & o & Ho & He1 & Ho1) ->]|(bs' & out' & Hfin' & Hs' & Ho & Hw')].
    + assert (Hno : ¬ ok) by (intros H; by apply Hko, Hw).
      split; [done|]. exists done, (f :: rest'). split; [done|]. right.
      split; [by eexists|]. split; [done|]. exists f, rest', a, evs, (out ++ o).
      cbn [unplug fst c_did c_output]. rewrite app_nil_r, Ho. cbn [plug output]. rewrite Hout, (assoc_L (++)). by split_and!.
    + split; [intros H; by apply Hw', Hw|]. exists done, (f :: rest'). split; [done|]. left.
      exists f, rest', bs', (evs ++ new), (out ++ out').
      cbn [unplug fst c_did c_output c_input]. rewrite Hs', Ho, Hdid.
      cbn [plug output]. rewrite Hout, !(assoc_L (++)), fmap_app. by split_and!.
Qed.

Lemma served_turn cfg fs st ok t r : ended st → Forall (frame_ok cfg) fs → node_config r = cfg →
  served cfg fs st ok t → served cfg fs st ok (fst (conn_turn t r)).
Proof.
  intros Hend Hok Hcfg Hsv. destruct (c_stage t) as [| |p|res] eqn:Hg; [| |by eapply served_frame|].
  - destruct Hsv as (Hw & done & rest & Hfs & Hst). rewrite Hg in Hst. destruct Hst as (-> & Hdid & Hout & Hs).
    unfold conn_turn. rewrite Hg.
    destruct (read_exact_bytes 1 [PROTOCOL_VERSION] (fmap (M:=list) inl (encode_frames rest) ++ st) (plug r t) Hs eq_refl) as (e1 & -> & S1).
    rewrite bool_decide_true by done. split; [done|]. by exists [], rest.
  - destruct Hsv as (Hw & done & rest & Hfs & Hst). rewrite Hg in Hst. destruct Hst as (Hdid & Hout & Hs).
    unfold conn_turn. rewrite Hg. destruct rest as [|f rest'].
    + destruct (read_exact_short 1 [] st (plug r t) ltac:(simpl; lia) Hs Hend) as (e & evs & ->).
      split; [done|]. exists done, []. split; [done|]. by left.
    + destruct (encode_frame_cons f) as (b & l & El). unfold encode_frames in Hs. cbn [fmap list_fmap concat] in Hs.
      rewrite El in Hs.
      destruct (read_exact_bytes 1 [b] (fmap (M:=list) inl (l ++ encode_frames rest') ++ st) (plug r t) Hs eq_refl) as (e1 & -> & S1).
      split; [done|]. exists done, (f :: rest'). split; [done|]. left. exists f, rest', l, [], [].
      cbn [unplug fst c_did c_output c_input plug output]. rewrite !app_nil_r. split_and!; try done.
      apply finishes_start; [|done]. rewrite Hfs in Hok. by apply Forall_app in Hok as [_ [? _]%Forall_cons].
  - unfold conn_turn. by rewrite Hg.
Qed.

(** ** What a turn does to the node

    The record of what a connection did is exact. *)
Lemma conn_turn_effect t r :
  ∃ new, c_did (fst (conn_turn t r)) = c_did t ++ new ∧ turn_effect r new (snd (conn_turn t r)).
Proof.
  assert (Hr : ∀ n, node (snd (read_exact n (plug r t))) = r) by (intros n; apply (read_exact_frame n (plug r t))).
  assert (Hw : ∀ bs, node (snd (write_all bs (plug r t))) = r)
    by (intros bs; unfold write_all, plug; simpl; by destruct (c_writes t) as [|[] ?]).
  assert (Hnone : ∀ g c, node c = r → ∃ new, c_did (fst (unplug g c (c_did t))) = c_did t ++ new ∧
    turn_effect r new (snd (unplug g c (c_did t)))).
  { intros g c <-. exists []. split; [by rewrite app_nil_r|constructor]. }
  unfold conn_turn. destruct (c_stage t) as [| |p|res]; [| | |exists []; split; [by rewrite app_nil_r|constructor]].
  - specialize (Hr 1%nat). destruct (read_exact 1 _) as [[v|e] c']; [case_bool_decide|]; by apply Hnone.
  - specialize (Hr 1%nat). destruct (read_exact 1 _) as [[v|e] c']; by apply Hnone.
  - destruct p as [|e|n k|b k|k|pid msg k|name k]; cbn [prog_turn]; try by apply Hnone.
    + specialize (Hr n). destruct (read_exact n _) as [[v|e] c']; rewrite app_nil_r; by apply Hnone.
    + specialize (Hw b). destruct (write_all b _) as [[v|e] c']; rewrite app_nil_r; by apply Hnone.
    + rewrite app_nil_r. by apply Hnone.
    + eexists. split; [done|]. constructor.
    + eexists. split; [done|]. constructor.
Qed.

Lemma conn_turn_node t r :
  snd (conn_turn t r) = r ∨ ∃ pid msg, snd (conn_turn t r) = fst (node_send pid msg r).
Proof. destruct (conn_turn_effect t r) as (new & _ & []); eauto. Qed.

Lemma conn_turn_config t r : node_config (snd (conn_turn t r)) = node_config r.
Proof. destruct (conn_turn_node t r) as [->|(pid & msg & ->)]; [done|]. apply node_send_config. Qed.

Lemma conns_turn_node i s :
  s_node (conns_turn i s) = s_node s ∨ ∃ pid msg, s_node (conns_turn i s) = fst (node_send pid msg (s_node s)).
Proof.
  unfold conns_turn. destruct (s_conns s !! i) as [t|]; [|by left].
  assert (H := conn_turn_node t (s_node s)). by destruct (conn_turn t (s_node s)) as [t' r'].
Qed.

(** A step takes a connection one turn further or leaves it alone. *)
Lemma server_step_conn other s s' i t : server_step other s s' → s_conns s !! i = Some t →
  s_conns s' !! i = Some t ∨ s_conns s' !! i = Some (fst (conn_turn t (s_node s))).
Proof.
  intros Hs Ht. destruct Hs as [b a s|x s Ha|j s|r s Hr]; [| | |by left].
  - left. by destruct b, a.
  - left. destruct x as [[inp ws]|e]; [|done]. cbn [accept_turn s_conns]. by apply lookup_app_l_Some.
  - unfold conns_turn. destruct (s_conns s !! j) as [tj|] eqn:Hj; [|by left].
    destruct (conn_turn tj (s_node s)) as [t' r'] eqn:E. cbn [s_conns].
    destruct (decide (j = i)) as [->|Hne].
    + right. replace tj with t in E by congruence. rewrite list_lookup_insert_eq by (by eapply lookup_lt_Some). by rewrite E.
    + left. by rewrite list_lookup_insert_ne.
Qed.

Lemma server_step_config (other : R → R → Prop) s s' : (∀ r r', other r r' → node_config r' = node_config r) →
  server_step other s s' → node_config (s_node s') = node_config (s_node s).
Proof.
  intros Hother Hs. destruct Hs as [b a s|x s Ha|j s|r s Hr].
  - by destruct b, a.
  - by destruct x as [[inp ws]|e].
  - destruct (conns_turn_node j s) as [->|(pid & msg & ->)]; [done|apply node_send_config].
  - by apply Hother.
Qed.

Lemma served_run (other : R → R → Prop) fs st ok i s0 s t : (∀ r r', other r r' → node_config r' = node_config r) →
  ended st → Forall (frame_ok (node_config (s_node s0))) fs → s_conns s0 !! i = Some t →
  served (node_config (s_node s0)) fs st ok t → rtc (server_step other) s0 s →
  ∃ t', s_conns s !! i = Some t' ∧ served (node_config (s_node s0)) fs st ok t'.
Proof.
  intros Hother Hend Hok Ht Hsv Hrun. revert t Ht Hsv Hok.
  induction Hrun as [s|s1 s2 s3 Hstep Hrun IH]; intros t Ht Hsv Hok; [by exists t|].
  assert (Hc := server_step_config other s1 s2 Hother Hstep). rewrite <-Hc in *.
  destruct (server_step_conn other s1 s2 i t Hstep Ht) as [Ht2|Ht2].
  - by apply (IH t).
  - apply (IH _ Ht2); [|done]. rewrite Hc. apply served_turn; [done|by rewrite <-Hc|done|by rewrite <-Hc].
Qed.
(** Every run can be watched, and a watched run is a run. *)
Lemma step_watched (other : R → R → Prop) i s0 log s s' : watched other i s0 log s → server_step other s s' →
  ∃ log', watched other i s0 log' s'.
Proof.
  intros Hw Hs. destruct Hs as [b a s|x s Ha|j s|r s Hr]; [eexists; by constructor..| |eexists; by constructor].
  destruct (decide (j = i)) as [->|Hne]; eexists; [by apply wt_own|by apply wt_conn].
Qed.

Lemma run_watched (other : R → R → Prop) i s0 s : rtc (server_step other) s0 s → ∃ log, watched other i s0 log s.
Proof.
  revert s. apply (rtc_ind_r (λ s, ∃ log, watched other i s0 log s)); [exists []; constructor|].
  intros s1 s2 _ Hs [log Hw]. by eapply step_watched.
Qed.

Lemma watched_run (other : R → R → Prop) i s0 log s : watched other i s0 log s → rtc (server_step other) s0 s.
Proof. induction 1 as [|log s _ IH|j log s _ IH _|b a log s _ IH|x log s _ IH Ha|r log s _ IH Hr]; [done|eapply rtc_r; [exact IH|by constructor]..]. Qed.

Lemma conns_turn_ne i j s : j ≠ i → s_conns (conns_turn j s) !! i = s_conns s !! i.
Proof.
  intros Hne. unfold conns_turn. destruct (s_conns s !! j) as [t|]; [|done].
  destruct (conn_turn t (s_node s)). simpl. by rewrite list_lookup_insert_ne.
Qed.

(** The record of a connection is what its turns did to the node. *)
Lemma watched_record (other : R → R → Prop) i s0 log s t0 : watched other i s0 log s → s_conns s0 !! i = Some t0 → c_did t0 = [] →
  ∃ t labels, s_conns s !! i = Some t ∧ Forall2 (λ rr new, turn_effect (fst rr) new (snd rr)) log labels ∧ c_did t = concat labels.
Proof.
  intros Hw H0 Hd. induction Hw as [|log s _ IH|j log s _ IH Hne|b a log s _ IH|x log s _ IH Ha|r log s _ IH Hr];
    [exists t0, []; split_and!; [done|constructor|done]| | | | |]; destruct IH as (t & labels & Ht & Hf & Hc).
  - destruct (conn_turn_effect t (s_node s)) as (new & Hnew & Heff). unfold conns_turn. rewrite Ht.
    destruct (conn_turn t (s_node s)) as [t' r'] eqn:E. simpl in *. exists t', (labels ++ [new]). split_and!.
    + apply list_lookup_insert_eq. by eapply lookup_lt_Some.
    + apply Forall2_app; [done|]. by constructor.
    + rewrite Hnew, Hc, concat_app. simpl. by rewrite app_nil_r.
  - exists t, labels. by rewrite conns_turn_ne.
  - exists t, labels. by destruct b, a.
  - exists t, labels. split; [|done]. destruct x as [[inp ws]|e]; [|done]. simpl. by apply lookup_app_l_Some.
  - by exists t, labels.
Qed.
End listener_lemmas.

(** ** Properties *)
Section listener_theorems.
Context {R : Type} `{N : Node R}.

(** C19: A connection whose client sends the version and well-formed
    frames, in any chunks, carries them out on the node in order, each once,
    whatever other connections, acceptances and the rest of the node do in
    between.  Turn by turn the node before and after is what [labels] says: a
    message sent with [node_send], a name looked up and answered as the node
    answers at that moment, or nothing; and the labels are those of a prefix of
    the frames, each with the answer it got, which is also what has been written
    back, plus part of the next frame.  The connection is closed only when every
    frame has been served, unless one of its own writes fails. *)
Theorem concurrent_frames_served (other : R → R → Prop) i inp ws fs st (s0 s : Listening R) log :
  (∀ r r', other r r' → node_config r' = node_config r) →
  s_conns s0 !! i = Some (conn_start inp ws) →
  stream inp = (inl <$> (PROTOCOL_VERSION :: encode_frames fs)) ++ st → ended st →
  Forall (frame_ok (node_config (s_node s0))) fs →
  watched other i s0 log s →
  ∃ t labels done rest evs out, s_conns s !! i = Some t ∧ fs = (fst <$> done) ++ rest ∧
    Forall2 (λ rr new, turn_effect (fst rr) new (snd rr)) log labels ∧
    concat labels = events_of done ++ evs ∧ c_output t = replies_of done ++ out ∧
    match rest with
    | [] => evs = [] ∧ out = []
    | f :: _ => ∃ a, evs `prefix_of` frame_events f a ∧ out `prefix_of` frame_reply f a
    end ∧
    (∀ res, c_stage t = Closed res → Forall (λ w, w = Written) ws → rest = [] ∧ res = Ok tt).
Proof.
  intros Hother Hs0 Hst Hend Hok Hw.
  destruct (watched_record other i s0 log s _ Hw Hs0 eq_refl) as (t & labels & Ht & Hlab & Hdid).
  destruct (served_run other fs st (Forall (λ w, w = Written) ws)
    i s0 s _ Hother Hend Hok Hs0) as (t' & Ht' & Hwr & dn & rest & Hfs & Hstage); [|by eapply watched_run|].
  { split; [done|]. exists [], fs. by split_and!. }
  replace t' with t in * by congruence. clear Ht'. exists t, labels, dn, rest. rewrite <-Hdid.
  destruct (c_stage t) as [| |p|res] eqn:Hg.
  - destruct Hstage as (-> & Hd & Ho & _). exists [], []. rewrite Hd, Ho. split_and!; try done.
    destruct rest as [|f rest]; [done|]. exists None. split; apply prefix_nil.
  - destruct Hstage as (Hd & Ho & _). exists [], []. rewrite !app_nil_r. split_and!; try done.
    destruct rest as [|f rest]; [done|]. exists None. split; apply prefix_nil.
  - destruct Hstage as [(f & rest' & bs & evs & out & -> & Hf & Hd & Ho & _)|(_ & Hko & f & rest' & a & evs & o & -> & Hd & Ho & H1 & H2)].
    + destruct (finishes_prefix _ _ _ _ _ _ Hf) as (a & H1 & H2). exists evs, out. split_and!; try done. by exists a.
    + exists evs, o. split_and!; try done. by exists a.
  - destruct Hstage as [(-> & -> & Hd & Ho)|(_ & Hko & f & rest' & a & evs & o & -> & Hd & Ho & H1 & H2)].
    + rewrite app_nil_r in Hfs. exists [], []. rewrite !app_nil_r. split_and!; try done. intros res Hres. by injection Hres as <-.
    + exists evs, o. split_and!; try done. by exists a.
Qed.

(** C20: A connection ends: after at most seven turns of its own per byte its
    client sent, and one, it is closed, whatever state each turn finds the node
    in.  A client that never stops sending small frames can go on, a silent or
    slow one cannot keep the task alive. *)
Theorem connection_always_ends inp ws (nodes : list R) :
  (7 * input_size inp + 1 <= length nodes)%nat →
  ∃ res, c_stage (fold_left (λ t r, fst (conn_turn t r)) nodes (conn_start inp ws)) = Closed res.
Proof. intros Hn. apply (turns_end nodes (7 * input_size inp + 1)); [|done]. by apply (tl_version (conn_start inp ws)). Qed.

(** C21: Run alone, the single operations of a connection amount to
    [handle_connection]: the same result, the same node, the same bytes. *)
Theorem solo_connection_refines inp ws (r : R) :
  ∃ n res c, handle_connection (mkConn r inp ws []) = Some (res, c) ∧
    c_stage (fst (solo n (conn_start inp ws, r))) = Closed res ∧
    plug (snd (solo n (conn_start inp ws, r))) (fst (solo n (conn_start inp ws, r))) = c.
Proof.
  assert (Ht : ∃ x, handle_connection (mkConn r inp ws []) = Some x).
  { unfold handle_connection. destruct (read_exact 1 _) as [[v|e] c']; [case_bool_decide|]; try by eexists.
    apply connection_loop_total. unfold size_of. lia. }
  destruct Ht as [[res c] Hx]. destruct (solo_connection inp ws r _ Hx) as (n & Hg & Hc).
  by exists n, res, c.
Qed.
End listener_theorems.

Section listener_runtime.
Context {F A : Type} `{PA : PidAllocator A}.

(** Whatever bytes any number of clients send, in any interleaving with
    each other and with every other step of the runtime, the node stays in a
    state the runtime could have reached without a network, so that all its
    invariants hold; and no connection exists before [start_server] succeeded. *)
Theorem network_cannot_break_runtime (s : Listening (Runtime F A)) :
  reachable (server_init rt_init) (server_step rt_step) s →
  reachable rt_init rt_step (s_node s) ∧ rt_inv (s_node s) ∧ (s_accepting s = false → s_conns s = []).
Proof.
  intros Hr. assert (H : reachable rt_init rt_step (s_node s) ∧ (s_accepting s = false → s_conns s = [])).
  { revert s Hr. apply reachable_invariant.
    - intros s (Hi & _ & Hc). split; [by apply reach_init|done].
    - intros s s' [Hn Hc] Hs. destruct Hs as [b a s|x s Ha|j s|r s Ho].
      + destruct b, a; by split.
      + destruct x as [[inp ws]|e]; (split; [done|]); cbn [accept_turn s_accepting]; congruence.
      + split.
        * destruct (conns_turn_node j s) as [->|(pid & msg & ->)]; [done|].
          eapply reach_step; [exact Hn|]. apply st_send.
        * unfold conns_turn. destruct (s_conns s !! j) as [t|] eqn:Ej; [|done].
          destruct (conn_turn t (s_node s)). intros H%Hc. by rewrite H in Ej.
      + split; [|done]. by eapply reach_step. }
  destruct H as [H1 H2]. split_and!; [done|by apply rt_reachable_inv|done].
Qed.
End listener_runtime.

(** ** Witnesses *)
Module ListenerDemo.
Definition node : Runtime unit SlabAllocator := ServerDemo.node0.

(** Two clients: one cuts its frames into pieces, one sends garbage. *)
Definition good : list rd_event :=
  [Data (PROTOCOL_VERSION :: take 5 (encode_frames ServerDemo.requests)); Data (drop 5 (encode_frames ServerDemo.requests))].

Definition start : Listening (Runtime unit SlabAllocator) :=
  mkListening node true [conn_start good []; conn_start [Data [x01; x07]] []].

(** Both connections take turns until both are closed. *)
Definition later : Listening (Runtime unit SlabAllocator) :=
  Nat.iter 24 (λ s, conns_turn 1 (conns_turn 0 s)) start.
End ListenerDemo.

Lemma listener_demo_run n : rtc (server_step (λ _ _, False)) ListenerDemo.start (Nat.iter n (λ s, conns_turn 1 (conns_turn 0 s)) ListenerDemo.start).
Proof. induction n as [|n IH]; [done|]. cbn [Nat.iter]. eapply rtc_r; [eapply rtc_r; [exact IH|]|]; apply sv_turn. Qed.

Lemma concurrent_frames_served_witness :
  let s0 := ListenerDemo.start in
  let s := ListenerDemo.later in
  ∃ log, watched (λ _ _, False) 0 s0 log s ∧
  ∃ t labels done rest evs out, s_conns s !! 0%nat = Some t ∧ ServerDemo.requests = (fst <$> done) ++ rest ∧
    Forall2 (λ rr new, turn_effect (fst rr) new (snd rr)) log labels ∧
    concat labels = events_of done ++ evs ∧ c_output t = replies_of done ++ out ∧
    match rest with
    | [] => evs = [] ∧ out = []
    | f :: _ => ∃ a, evs `prefix_of` frame_events f a ∧ out `prefix_of` frame_reply f a
    end ∧
    (∀ res, c_stage t = Closed res → Forall (λ w, w = Written) [] → rest = [] ∧ res = Ok tt).
Proof.
  destruct (run_watched (λ _ _, False) 0 ListenerDemo.start ListenerDemo.later (listener_demo_run 24)) as [log Hlog].
  exists log. split; [exact Hlog|].
  apply (concurrent_frames_served (λ _ _, False) 0 ListenerDemo.good [] ServerDemo.requests []
    ListenerDemo.start ListenerDemo.later log).
  - intros r r' [].
  - reflexivity.
  - vm_compute. reflexivity.
  - by left.
  - repeat constructor; vm_compute; intuition discriminate.
  - exact Hlog.
Defined.

Lemma connection_always_ends_witness :
  ∃ res, c_stage (fold_left (λ t r, fst (conn_turn t r)) (repeat ListenerDemo.node 300)
    (conn_start ListenerDemo.good [])) = Closed res.
Proof. apply (connection_always_ends ListenerDemo.good [] (repeat ListenerDemo.node 300)). vm_compute. lia. Defined.

Lemma network_cannot_break_runtime_witness :
  let s := conns_turn 0 (accept_turn (Ok (ListenerDemo.good, []))
    (fst (start_server (Ok tt) (Ok "127.0.0.1:9000"%string) (mkListening Demo.ended false [])))) in
  reachable rt_init rt_step (s_node s) ∧ rt_inv (s_node s) ∧ (s_accepting s = false → s_conns s = []).
Proof.
  apply (network_cannot_break_runtime (F := unit) (A := SlabAllocator)).
  eapply reach_step; [|apply sv_turn]. eapply reach_step; [|by apply sv_accept].
  eapply reach_step; [|apply sv_start].
  assert (H : ∀ r : Runtime unit SlabAllocator, reachable rt_init rt_step r →
    reachable (server_init rt_init) (server_step rt_step) (mkListening r false [])).
  { intros r Hr. induction Hr as [r Hi|r r' Hr IH Hs]; [by apply reach_init|].
    eapply reach_step; [exact IH|]. apply (sv_other _ r' (mkListening r false [])). exact Hs. }
  apply H, demo_ended_reachable.
Defined.
