(* ===== verification/PeerPool.v ===== *)
(** * Outgoing connections ([src/src/network.rs])

    The pool of persistent connections to peers: [get_or_connect_peer],
    [send_remote] and the task that writes a peer's queue to its socket.  A
    connection is an identifier; its record holds the queue of the channel, the
    bytes written so far, whether the writing task still runs and the address
    under which that task will remove itself from the pool. *)
From S2P Require Import Prelude Pid Mailbox Registry Supervisor Runtime Wire Connection.
From Stdlib Require Import Strings.Byte.

Record Peer := mkPeer { queue : list Bytes; wire : Bytes; rx_open : bool; peer_addr : string }.

Record Pool := mkPool { PEER_POOL : gmap string nat; peers : gmap nat Peer; next_peer : nat }.

Definition pool_new : Pool := mkPool ∅ ∅ 0.

Definition channel_capacity : nat := 1024.

(** How a connection attempt goes: the connect, then the write of the version
    byte. *)
Record attempt := mkAttempt { connects : result unit IoError; greets : wr_event }.

(** Connecting and publishing the connection.  The lookup of
    [get_or_connect_peer] comes before an await: two callers that both find
    nothing both come here, and the second overwrites the pool entry. *)
Definition connect_peer (addr : string) (at_ : attempt) (p : Pool) : Pool * result nat IoError :=
  match connects at_ with
  | Err e => (p, Err e)
  | Ok _ =>
      match greets at_ with
      | WriteStall _ => (p, Err write_timeout_error)
      | WriteFail _ e => (p, Err e)
      | Written =>
          let id := next_peer p in
          let peer := mkPeer [] [PROTOCOL_VERSION] true addr in
          (mkPool (<[addr := id]> (PEER_POOL p)) (<[id := peer]> (peers p)) (id + 1), Ok id)
      end
  end.

Definition get_or_connect_peer (addr : string) (at_ : attempt) (p : Pool) : Pool * result nat IoError :=
  match PEER_POOL p !! addr with
  | Some id => (p, Ok id)
  | None => connect_peer addr at_ p
  end.

(** [sender.send(msg).await]: refused once the writing task is gone, waiting
    while the channel is full. *)
Definition peer_send (id : nat) (msg : Bytes) (p : Pool) : Pool * poll (result unit unit) :=
  match peers p !! id with
  | Some pr =>
      if rx_open pr then
        if (length (queue pr) <? channel_capacity)%nat then
          (mkPool (PEER_POOL p)
             (<[id := mkPeer (queue pr ++ [msg]) (wire pr) true (peer_addr pr)]> (peers p)) (next_peer p),
           Ready (Ok tt))
        else (p, Pending)
      else (p, Ready (Err tt))
  | None => (p, Ready (Err tt))
  end.

Definition unavailable_error : IoError := mkIoError ConnectionAborted "remote node unavailable".

Definition too_large_error : IoError := mkIoError InvalidInput "payload too large".

(** [send_remote] run without interference; the two attempts are for the first
    lookup and for the retry. *)
Definition send_remote (max_payload : Z) (addr : string) (pid : Pid) (data : Bytes) (a1 a2 : attempt)
    (p : Pool) : Pool * poll (result unit IoError) :=
  if max_payload <? Z.of_nat (length data) then (p, Ready (Err too_large_error))
  else
    let msg := encode_frame (FUser pid data) in
    match get_or_connect_peer addr a1 p with
    | (p1, Err e) => (p1, Ready (Err e))
    | (p1, Ok id) =>
        match peer_send id msg p1 with
        | (p2, Pending) => (p2, Pending)
        | (p2, Ready (Ok _)) => (p2, Ready (Ok tt))
        | (p2, Ready (Err _)) =>
            let p3 := mkPool (delete addr (PEER_POOL p2)) (peers p2) (next_peer p2) in
            match get_or_connect_peer addr a2 p3 with
            | (p4, Err e) => (p4, Ready (Err e))
            | (p4, Ok id2) =>
                match peer_send id2 msg p4 with
                | (p5, Pending) => (p5, Pending)
                | (p5, Ready (Ok _)) => (p5, Ready (Ok tt))
                | (p5, Ready (Err _)) => (p5, Ready (Err unavailable_error))
                end
            end
        end
    end.

(** One turn of the writing task.  With nothing queued and no sender left the
    channel is closed; on either end the task removes its address from the
    pool and drops what is still queued.  A write that fails may have written a
    part of its message. *)
Definition writer_end (id : nat) (pr : Peer) (p : Pool) : Pool :=
  mkPool (delete (peer_addr pr) (PEER_POOL p))
    (<[id := mkPeer [] (wire pr) false (peer_addr pr)]> (peers p)) (next_peer p).

Definition writer_turn (id : nat) (no_sender : bool) (w : wr_event) (p : Pool) : Pool :=
  match peers p !! id with
  | Some pr =>
      if rx_open pr then
        match queue pr with
        | msg :: rest =>
            match w with
            | Written =>
                mkPool (PEER_POOL p)
                  (<[id := mkPeer rest (wire pr ++ msg) true (peer_addr pr)]> (peers p)) (next_peer p)
            | _ => writer_end id (mkPeer rest (wire pr ++ sent_of w msg) true (peer_addr pr)) p
            end
        | [] => if no_sender then writer_end id pr p else p
        end
      else p
  | None => p
  end.

(** ** Specification vocabulary *)

(** What a connection carries, written or queued, is the version byte and then
    these frames. *)
Definition carries (pr : Peer) (fs : list frame) : Prop :=
  wire pr ++ concat (queue pr) = PROTOCOL_VERSION :: encode_frames fs.

Definition pool_ok (p : Pool) : Prop :=
  (∀ addr id, PEER_POOL p !! addr = Some id → ∃ pr, peers p !! id = Some pr ∧ peer_addr pr = addr) ∧
  (∀ id pr, peers p !! id = Some pr → (id < next_peer p)%nat).

(** Every open connection carries well-formed frames, each within the limit. *)
Definition pool_wire_ok (p : Pool) : Prop :=
  ∀ id pr, peers p !! id = Some pr → rx_open pr = true → ∃ fs, carries pr fs.

Lemma encode_frames_snoc fs f : encode_frames (fs ++ [f]) = encode_frames fs ++ encode_frame f.
Proof.
  unfold encode_frames. rewrite fmap_app, concat_app. cbn [fmap list_fmap concat]. by rewrite app_nil_r.
Qed.

Lemma carries_push pr fs f : carries pr fs →
  carries (mkPeer (queue pr ++ [encode_frame f]) (wire pr) true (peer_addr pr)) (fs ++ [f]).
Proof.
  unfold carries. cbn [queue wire]. intros H.
  rewrite concat_app, (assoc_L (++)), H, encode_frames_snoc. cbn [concat]. by rewrite app_nil_r.
Qed.

Lemma carries_written pr fs msg rest : carries pr fs → queue pr = msg :: rest →
  carries (mkPeer rest (wire pr ++ msg) true (peer_addr pr)) fs.
Proof. unfold carries. cbn [queue wire]. intros H Hq. by rewrite <-H, Hq, <-(assoc_L (++)). Qed.

(** ** Invariant *)
Lemma get_or_connect_inv addr a p :
  pool_ok p → pool_wire_ok p →
  let (p', r) := get_or_connect_peer addr a p in
  pool_ok p' ∧ pool_wire_ok p' ∧
  (∀ id pr, peers p !! id = Some pr → peers p' !! id = Some pr) ∧
  (∀ id pr, peers p' !! id = Some pr → rx_open pr = true → peers p !! id = None → carries pr []) ∧
  match r with
  | Ok id => PEER_POOL p' !! addr = Some id
  | Err _ => p' = p
  end.
Proof.
  intros [Hp Hn] Hw. unfold get_or_connect_peer, connect_peer.
  destruct (PEER_POOL p !! addr) as [id|] eqn:E; [split_and!; try done; congruence|].
  destruct (connects a) as [u|e]; [|split_and!; try done; congruence].
  destruct (greets a); [|split_and!; try done; congruence..].
  assert (Hnew : peers p !! next_peer p = None).
  { destruct (peers p !! next_peer p) as [pr|] eqn:Epr; [|done]. apply Hn in Epr. lia. }
  unfold pool_ok, pool_wire_ok. cbn [PEER_POOL peers next_peer]. split_and!.
  - intros ad id. destruct (decide (ad = addr)) as [->|Hne].
    + rewrite lookup_insert_eq. intros [= <-]. rewrite lookup_insert_eq. by eexists.
    + rewrite lookup_insert_ne by done. intros (pr & Hpr & Ha)%Hp. exists pr.
      rewrite lookup_insert_ne; [done|]. intros Heq. congruence.
  - intros id pr [[<- _]|[_ H%Hn]]%lookup_insert_Some; lia.
  - intros id pr [[<- <-]|[_ H]]%lookup_insert_Some Ho; [by exists []|by apply (Hw id)].
  - intros id pr Hpr. rewrite lookup_insert_ne; [done|]. intros Heq. congruence.
  - intros id pr [[<- <-]|[_ H]]%lookup_insert_Some; [done|congruence].
  - by rewrite lookup_insert_eq.
Qed.

Lemma peer_send_inv id f p : pool_ok p → pool_wire_ok p →
  let (p', r) := peer_send id (encode_frame f) p in
  pool_ok p' ∧ pool_wire_ok p' ∧ PEER_POOL p' = PEER_POOL p ∧
  match r with
  | Ready (Ok _) => ∃ pr pr' fs, peers p !! id = Some pr ∧ rx_open pr = true ∧ carries pr fs ∧
      peers p' = <[id := pr']> (peers p) ∧ rx_open pr' = true ∧ carries pr' (fs ++ [f])
  | _ => p' = p
  end.
Proof.
  intros [Hp Hn] Hw. unfold peer_send. destruct (peers p !! id) as [pr|] eqn:Epr; [|done].
  destruct (rx_open pr) eqn:Eo; [|done]. destruct (_ <? _)%nat; [|done].
  destruct (Hw id pr Epr Eo) as [fs Hfs]. assert (Hpush := carries_push pr fs f Hfs).
  unfold pool_ok, pool_wire_ok. cbn [PEER_POOL peers next_peer]. split_and!; try done.
  - intros ad i Hi. destruct (Hp ad i Hi) as (pri & Hpri & Ha).
    destruct (decide (i = id)) as [->|Hne]; [|rewrite lookup_insert_ne by done; eauto].
    rewrite lookup_insert_eq. eexists. split; [done|]. cbn [peer_addr]. congruence.
  - intros i pri [[<- _]|[_ H]]%lookup_insert_Some; by eapply Hn.
  - intros i pri [[<- <-]|[_ H]]%lookup_insert_Some Ho; [by eexists|by apply (Hw i)].
  - by eexists pr, _, fs.
Qed.

Lemma evict_inv addr p : pool_ok p → pool_wire_ok p →
  pool_ok (mkPool (delete addr (PEER_POOL p)) (peers p) (next_peer p)) ∧
  pool_wire_ok (mkPool (delete addr (PEER_POOL p)) (peers p) (next_peer p)).
Proof.
  intros [Hp Hn] Hw. split; [split|done]; cbn [PEER_POOL peers next_peer]; [|done].
  intros ad id [_ H]%lookup_delete_Some. by apply Hp.
Qed.

(** A writing turn only moves bytes from the queue to the wire, in order, or
    ends the connection. *)
Lemma writer_turn_inv id ns w p : pool_ok p → pool_wire_ok p →
  pool_ok (writer_turn id ns w p) ∧ pool_wire_ok (writer_turn id ns w p).
Proof.
  intros Hok Hw. unfold writer_turn. destruct (peers p !! id) as [pr|] eqn:Epr; [|done].
  destruct (rx_open pr) eqn:Eo; [|done].
  assert (Hend : ∀ q, peer_addr q = peer_addr pr → pool_ok (writer_end id q p) ∧ pool_wire_ok (writer_end id q p)).
  { intros q Hq. destruct (evict_inv (peer_addr q) p Hok Hw) as [[Hp Hn] _].
    unfold pool_ok, pool_wire_ok, writer_end in *. cbn [PEER_POOL peers next_peer] in *. split_and!.
    - intros ad i Hi. destruct (Hp ad i Hi) as (pri & Hpri & Ha).
      destruct (decide (i = id)) as [->|Hne]; [|rewrite lookup_insert_ne by done; eauto].
      rewrite lookup_insert_eq. eexists. split; [done|]. cbn [peer_addr]. congruence.
    - intros i pri [[<- _]|[_ H]]%lookup_insert_Some; by eapply Hn.
    - intros i pri [[<- <-]|[_ H]]%lookup_insert_Some Ho; [done|by apply (Hw i)]. }
  destruct (queue pr) as [|msg rest] eqn:Eq; [by destruct ns; [apply Hend|]|]. destruct w; [|by apply Hend..].
  destruct Hok as [Hp Hn]. destruct (Hw id pr Epr Eo) as [fs Hfs].
  unfold pool_ok, pool_wire_ok. cbn [PEER_POOL peers next_peer]. split_and!.
  - intros ad i Hi. destruct (Hp ad i Hi) as (pri & Hpri & Ha).
    destruct (decide (i = id)) as [->|Hne]; [|rewrite lookup_insert_ne by done; eauto].
    rewrite lookup_insert_eq. eexists. split; [done|]. cbn [peer_addr]. congruence.
  - intros i pri [[<- _]|[_ H]]%lookup_insert_Some; by eapply Hn.
  - intros i pri [[<- <-]|[_ H]]%lookup_insert_Some Ho; [|by apply (Hw i)].
    exists fs. by apply (carries_written pr fs msg).
Qed.

(** What a finished [send_remote] has done to the peers that were there. *)
Definition send_outcome (addr : string) (f : frame) (p p' : Pool) (r : poll (result unit IoError)) : Prop :=
  match r with
  | Ready (Ok _) => ∃ id pr' fs, PEER_POOL p' !! addr = Some id ∧ peers p' !! id = Some pr' ∧
      rx_open pr' = true ∧ carries pr' (fs ++ [f]) ∧
      match peers p !! id with Some pr => carries pr fs | None => fs = [] end ∧
      ∀ i pr, i ≠ id → peers p !! i = Some pr → peers p' !! i = Some pr
  | _ => ∀ i pr, peers p !! i = Some pr → peers p' !! i = Some pr
  end.

(** A lookup or connection followed by a send on the channel it gave. *)
Lemma connect_send_inv addr a f p : pool_ok p → pool_wire_ok p →
  match get_or_connect_peer addr a p with
  | (p1, Ok id) =>
      let (p2, r) := peer_send id (encode_frame f) p1 in
      pool_ok p2 ∧ pool_wire_ok p2 ∧
      send_outcome addr f p p2 match r with Ready (Ok _) => Ready (Ok tt) | _ => Pending end
  | (p1, Err _) => p1 = p
  end.
Proof.
  intros Hok Hw. assert (Hc := get_or_connect_inv addr a p Hok Hw).
  destruct (get_or_connect_peer addr a p) as [p1 [id|e]]; [|tauto].
  destruct Hc as (O1 & W1 & K1 & N1 & E1). assert (Hs := peer_send_inv id f p1 O1 W1).
  destruct (peer_send id (encode_frame f) p1) as [p2 [[u|u]|]]; destruct Hs as (O2 & W2 & E2 & Hs);
    (split; [done|]; split; [done|]); cbn [send_outcome]; [|by subst p2..].
  destruct Hs as (pr & pr' & fs & Hpr & Ho & Hfs & Hp2 & Ho' & Hfs').
  assert (Hold : match peers p !! id with Some q => carries q fs | None => carries pr [] end).
  { destruct (peers p !! id) as [q|] eqn:Eq; [|by apply (N1 id)].
    apply K1 in Eq. congruence. }
  destruct (peers p !! id) as [q|] eqn:Eq.
  - exists id, pr', fs. rewrite E2, Hp2, lookup_insert_eq, Eq. split_and!; try done.
    intros i pri Hi Hpri. rewrite lookup_insert_ne by done. by apply K1.
  - assert (Hnil : encode_frames fs = []).
    { unfold carries in Hold, Hfs. rewrite Hold in Hfs. by injection Hfs. }
    assert (fs = []) as ->.
    { destruct fs as [|[]]; [done|..]; unfold encode_frames in Hnil; simpl in Hnil; done. }
    exists id, pr', []. rewrite E2, Hp2, lookup_insert_eq, Eq. split_and!; try done.
    intros i pri Hi Hpri. rewrite lookup_insert_ne by done. by apply K1.
Qed.

(** A send right after a connection cannot fail: only a pooled connection can
    be closed or full. *)
Lemma connect_send_failed addr a msg p p1 id p2 r :
  get_or_connect_peer addr a p = (p1, Ok id) → peer_send id msg p1 = (p2, r) → r ≠ Ready (Ok tt) → p2 = p.
Proof.
  unfold get_or_connect_peer, connect_peer. destruct (PEER_POOL p !! addr) as [i|] eqn:E.
  - intros [= <- <-]. unfold peer_send. repeat split_match; naive_solver.
  - destruct (connects a); [|done]. destruct (greets a); [|done..]. intros [= <- <-].
    unfold peer_send. cbn [peers]. rewrite lookup_insert_eq. cbn [rx_open queue]. by intros [= <- <-].
Qed.

(** ** Properties *)

(** [send_remote] refuses a payload above the limit without touching the
    pool.  When it answers Ok the peer's connection, existing or new, carries
    one more frame behind those it carried: the message for that PID.  In every
    other case, and for every other connection, nothing that was queued or
    written changes; and all connections always carry well-formed frames. *)
Theorem send_remote_correct limit addr pid data a1 a2 p :
  pool_ok p → pool_wire_ok p →
  let (p', r) := send_remote limit addr pid data a1 a2 p in
  pool_ok p' ∧ pool_wire_ok p' ∧ send_outcome addr (FUser pid data) p p' r ∧
  (limit < Z.of_nat (length data) → p' = p ∧ r = Ready (Err too_large_error)) ∧
  (r = Ready (Ok tt) → Z.of_nat (length data) <= limit).
Proof.
  intros Hok Hw. unfold send_remote.
  destruct (limit <? Z.of_nat (length data)) eqn:El; breflect; [split_and!; try done; by intros ??|].
  assert (Hlim : ∀ P : Prop, limit < Z.of_nat (length data) → P) by lia.
  assert (Hc := connect_send_inv addr a1 (FUser pid data) p Hok Hw).
  destruct (get_or_connect_peer addr a1 p) as [p1 [id|e]] eqn:E1;
    [|subst p1; split_and!; try done; try (by intros ??); apply Hlim].
  destruct (peer_send id _ p1) as [p2 [[u|u]|]] eqn:E2; destruct Hc as (O2 & W2 & S2);
    [split_and!; try done; try (by intros ??); apply Hlim| |split_and!; try done; apply Hlim].
  assert (p2 = p) as -> by (by eapply connect_send_failed).
  destruct (evict_inv addr p O2 W2) as [O3 W3]. set (p3 := mkPool _ _ _) in *.
  assert (Hc := connect_send_inv addr a2 (FUser pid data) p3 O3 W3).
  destruct (get_or_connect_peer addr a2 p3) as [p4 [id2|e]]; [|subst p4; split_and!; try done; try (by intros ??); apply Hlim].
  destruct (peer_send id2 _ p4) as [p5 [[u2|u2]|]]; destruct Hc as (O5 & W5 & S5);
    (split_and!; try done; try (by intros ??); apply Hlim).
Qed.

(** When the writing task of an older connection to an address ends - its
    last sender is gone, or a write fails - it removes the address from the
    pool even if a newer, healthy connection is pooled there. *)
Theorem stale_writer_evicts_successor id id2 pr ns w p :
  peers p !! id = Some pr → rx_open pr = true → PEER_POOL p !! peer_addr pr = Some id2 → id2 ≠ id →
  (queue pr = [] ∧ ns = true) ∨ (queue pr ≠ [] ∧ w ≠ Written) →
  PEER_POOL (writer_turn id ns w p) !! peer_addr pr = None ∧
  peers (writer_turn id ns w p) !! id2 = peers p !! id2.
Proof.
  intros Hpr Ho Hpool Hne Hend. unfold writer_turn. rewrite Hpr, Ho.
  assert (Hw : ∀ q, peer_addr q = peer_addr pr → PEER_POOL (writer_end id q p) !! peer_addr pr = None ∧
    peers (writer_end id q p) !! id2 = peers p !! id2).
  { intros q Hq. unfold writer_end. cbn [PEER_POOL peers]. rewrite Hq, lookup_delete_eq, lookup_insert_ne; done. }
  destruct (queue pr) as [|msg rest]; destruct Hend as [[Hq Hns]|[Hq Hw']]; try done.
  - rewrite Hns. by apply Hw.
  - destruct w; [done|by apply Hw..].
Qed.

(** ** Instances *)
Module PoolDemo.
Definition up : attempt := mkAttempt (Ok tt) Written.

(** One message queued for "n". *)
Definition sent : Pool :=
  mkPool {[ "n"%string := 0%nat ]}
    {[ 0%nat := mkPeer [encode_frame (FUser 7 [x61])] [PROTOCOL_VERSION] true "n" ]} 1.

(** Two callers that both missed the lookup. *)
Definition twice : Pool := fst (connect_peer "n" up (fst (connect_peer "n" up pool_new))).
End PoolDemo.

Lemma send_remote_correct_witness :
  let (p', r) := send_remote 10 "n" 8 [x62] PoolDemo.up PoolDemo.up PoolDemo.sent in
  pool_ok p' ∧ pool_wire_ok p' ∧ send_outcome "n" (FUser 8 [x62]) PoolDemo.sent p' r ∧
  (10 < Z.of_nat (length [x62]) → p' = PoolDemo.sent ∧ r = Ready (Err too_large_error)) ∧
  (r = Ready (Ok tt) → Z.of_nat (length [x62]) <= 10).
Proof.
  apply (send_remote_correct 10 "n" 8 [x62] PoolDemo.up PoolDemo.up PoolDemo.sent).
  - split.
    + intros addr id. cbn [PoolDemo.sent PEER_POOL]. intros [<- <-]%lookup_singleton_Some. by eexists.
    + intros id pr. cbn [PoolDemo.sent peers]. intros [<- _]%lookup_singleton_Some. simpl. lia.
  - intros id pr. cbn [PoolDemo.sent peers]. intros [<- <-]%lookup_singleton_Some _. by exists [FUser 7 [x61]].
Defined.

Lemma stale_writer_evicts_successor_witness :
  PEER_POOL (writer_turn 0 true Written PoolDemo.twice) !! "n"%string = None ∧
  peers (writer_turn 0 true Written PoolDemo.twice) !! 1%nat = peers PoolDemo.twice !! 1%nat.
Proof.
  apply (stale_writer_evicts_successor 0 1 (mkPeer [] [PROTOCOL_VERSION] true "n") true Written PoolDemo.twice);
    [reflexivity..|discriminate|by left].
Defined.
