(* ===== verification/PoolConc.v ===== *)
(** * Sends to remote nodes side by side ([src/src/network.rs], [src/src/lib.rs])

    [PeerPool.send_remote] runs a send without interference. Here every
    [Runtime::send_remote] is a task that suspends at each await of
    [NetworkManager::send_remote] and [get_or_connect_peer], next to the writing
    tasks of the connections: the lookup, the connect, the version byte, the
    publication of the connection, the send on its channel and the eviction are
    separate steps. A writing task that leaves its loop removes its address and
    drops its receiver in a later step, so its channel still takes messages in
    between. *)
From S2P Require Import Prelude Pid Mailbox Registry Supervisor Runtime Wire Connection PeerPool.
From Stdlib Require Import Strings.Byte.

(** ** State *)

(** Where a send is; [SDone] keeps the connection that took the frame. *)
Inductive SendStage :=
| SCheck
| SLookup
| SConnect
| SGreet
| SSend (id : nat)
| SEvict
| SDone (r : result nat IoError).

Record SendTask := mkSend { s_addr : string; s_pid : Pid; s_data : Bytes; s_retry : bool; s_stage : SendStage }.

Definition s_frame (t : SendTask) : frame := FUser (s_pid t) (s_data t).

Definition s_goto (g : SendStage) (t : SendTask) : SendTask :=
  mkSend (s_addr t) (s_pid t) (s_data t) (s_retry t) g.

(** [leaving] holds the connections whose writing task has left its loop. *)
Record Net := mkNet { pool : Pool; leaving : gset nat; sends : list SendTask }.

Definition net_new : Net := mkNet pool_new ∅ [].

(** ** Steps *)

(** [Runtime::send_remote] starts a task and drops its answer. *)
Definition send_remote_task (addr : string) (pid : Pid) (data : Bytes) (n : Net) : Net :=
  mkNet (pool n) (leaving n) (sends n ++ [mkSend addr pid data false SCheck]).

Definition evict (addr : string) (p : Pool) : Pool :=
  PeerPool.mkPool (delete addr (PEER_POOL p)) (peers p) (next_peer p).

(** A turn of a send up to its next await, given the configuration it reads
    and how a connect and a write of the version byte end. *)
Definition send_turn (cfg : Config) (c : result unit IoError) (w : wr_event) (t : SendTask) (p : Pool)
  : SendTask * Pool :=
  match s_stage t with
  | SCheck =>
      if network_max_payload cfg <? Z.of_nat (length (s_data t))
      then (s_goto (SDone (Err too_large_error)) t, p) else (s_goto SLookup t, p)
  | SLookup =>
      match PEER_POOL p !! s_addr t with
      | Some id => (s_goto (SSend id) t, p)
      | None => (s_goto SConnect t, p)
      end
  | SConnect =>
      match c with
      | Ok _ => (s_goto SGreet t, p)
      | Err e => (s_goto (SDone (Err e)) t, p)
      end
  | SGreet =>
      match connect_peer (s_addr t) (mkAttempt (Ok tt) w) p with
      | (p', Ok id) => (s_goto (SSend id) t, p')
      | (p', Err e) => (s_goto (SDone (Err e)) t, p')
      end
  | SSend id =>
      match peer_send id (encode_frame (s_frame t)) p with
      | (p', Ready (Ok _)) => (s_goto (SDone (Ok id)) t, p')
      | (p', Ready (Err _)) =>
          (s_goto (if s_retry t then SDone (Err unavailable_error) else SEvict) t, p')
      | (p', Pending) => (t, p')
      end
  | SEvict => (mkSend (s_addr t) (s_pid t) (s_data t) true SLookup, evict (s_addr t) p)
  | SDone _ => (t, p)
  end.

Definition sends_turn (i : nat) (cfg : Config) (c : result unit IoError) (w : wr_event) (n : Net) : Net :=
  match sends n !! i with
  | Some t => let (t', p') := send_turn cfg c w t (pool n) in mkNet p' (leaving n) (<[i := t']> (sends n))
  | None => n
  end.

(** Whether a sender of the channel is left, in the pool or in a task. *)
Definition has_sender (id : nat) (pr : Peer) (n : Net) : bool :=
  bool_decide (PEER_POOL (pool n) !! peer_addr pr = Some id) ||
  existsb (λ t, match s_stage t with SSend j => (j =? id)%nat | _ => false end) (sends n).

Definition set_peer (id : nat) (pr : Peer) (p : Pool) : Pool :=
  PeerPool.mkPool (PEER_POOL p) (<[id := pr]> (peers p)) (next_peer p).

(** A turn of a writing task. A write that fails may have written a part of
    its message. *)
Definition writer_step (id : nat) (w : wr_event) (n : Net) : Net :=
  match peers (pool n) !! id with
  | Some pr =>
      if rx_open pr then
        if decide (id ∈ leaving n) then
          mkNet (writer_end id pr (pool n)) (leaving n) (sends n)
        else
          match queue pr with
          | msg :: rest =>
              match w with
              | Written =>
                  mkNet (set_peer id (mkPeer rest (wire pr ++ msg) true (peer_addr pr)) (pool n)) (leaving n) (sends n)
              | _ =>
                  mkNet (set_peer id (mkPeer rest (wire pr ++ sent_of w msg) true (peer_addr pr)) (pool n))
                    ({[id]} ∪ leaving n) (sends n)
              end
          | [] => if has_sender id pr n then n else mkNet (pool n) ({[id]} ∪ leaving n) (sends n)
          end
      else n
  | None => n
  end.

Inductive net_step (n : Net) : Net → Prop :=
| net_start addr pid data : net_step n (send_remote_task addr pid data n)
| net_send i cfg c w : net_step n (sends_turn i cfg c w n)
| net_writer id w : net_step n (writer_step id w n).

Definition net_init (n : Net) : Prop := n = net_new.

(** ** Specification vocabulary *)

(** The frame of a send that answered Ok, if connection [id] took it. *)
Definition frame_via (id : nat) (t : SendTask) : option frame :=
  match s_stage t with
  | SDone (Ok j) => if decide (j = id) then Some (s_frame t) else None
  | _ => None
  end.

Definition accepted (id : nat) (n : Net) : list frame := omap (frame_via id) (sends n).

Definition writing (id : nat) (pr : Peer) (n : Net) : Prop := rx_open pr = true ∧ id ∉ leaving n.

(** What a connection has taken and written. *)
Definition conn_ok (id : nat) (pr : Peer) (n : Net) : Prop :=
  ∃ fs, fs ≡ₚ accepted id n ∧ wire pr `prefix_of` PROTOCOL_VERSION :: encode_frames fs ∧
    (writing id pr n → carries pr fs).

(** The connection a send holds or used. *)
Definition conn_of (t : SendTask) : option nat :=
  match s_stage t with SSend id | SDone (Ok id) => Some id | _ => None end.

Record net_inv (n : Net) : Prop := {
  ni_pool : pool_ok (pool n);
  ni_conn : ∀ id pr, peers (pool n) !! id = Some pr → conn_ok id pr n;
  ni_task : ∀ i t id, sends n !! i = Some t → conn_of t = Some id →
    ∃ pr, peers (pool n) !! id = Some pr ∧ peer_addr pr = s_addr t;
  ni_leaving : ∀ id, id ∈ leaving n → (id < next_peer (pool n))%nat
}.

(** ** Lemmas *)
Lemma carries_prefix pr fs : carries pr fs → wire pr `prefix_of` PROTOCOL_VERSION :: encode_frames fs.
Proof. unfold carries. intros <-. by apply prefix_app_r. Qed.

Lemma conn_ok_mono id pr n n' : conn_ok id pr n → accepted id n' ≡ₚ accepted id n →
  (writing id pr n' → writing id pr n) → conn_ok id pr n'.
Proof. intros (fs & Hf & Hp & Hc) Ha Hw. exists fs. rewrite Ha. auto. Qed.

Lemma pool_ok_set_peer id pr pr' p : pool_ok p → peers p !! id = Some pr → peer_addr pr' = peer_addr pr →
  pool_ok (set_peer id pr' p).
Proof.
  intros [Hp Hn] Hpr Ha. split; cbn [set_peer PEER_POOL peers next_peer].
  - intros ad i Hi. destruct (Hp ad i Hi) as (pri & Hpri & Hai). destruct (decide (i = id)) as [->|Hne].
    + rewrite lookup_insert_eq. exists pr'. split; [done|congruence].
    + rewrite lookup_insert_ne by done. eauto.
  - intros i pri [[<- _]|[_ H]]%lookup_insert_Some; by eapply Hn.
Qed.

Lemma pool_ok_evict addr p : pool_ok p → pool_ok (evict addr p).
Proof. intros [Hp Hn]. split; [|done]. cbn [evict PEER_POOL]. intros ad i [_ H]%lookup_delete_Some. by apply Hp. Qed.

Lemma peer_send_ok id f p p' u : peer_send id (encode_frame f) p = (p', Ready (Ok u)) →
  ∃ pr, peers p !! id = Some pr ∧ rx_open pr = true ∧
    p' = set_peer id (mkPeer (queue pr ++ [encode_frame f]) (wire pr) true (peer_addr pr)) p.
Proof.
  unfold peer_send. destruct (peers p !! id) as [pr|]; [|done]. destruct (rx_open pr) eqn:Ho; [|done].
  destruct (_ <? _)%nat; [|done]. intros [= <- _]. by exists pr.
Qed.

Lemma peer_send_other id msg p p' r : peer_send id msg p = (p', r) → r ≠ Ready (Ok tt) → p' = p.
Proof. unfold peer_send. intros H Hr. repeat split_match; naive_solver. Qed.

Lemma connect_ok addr w p p' id : connect_peer addr (mkAttempt (Ok tt) w) p = (p', Ok id) →
  id = next_peer p ∧
  p' = PeerPool.mkPool (<[addr := id]> (PEER_POOL p)) (<[id := mkPeer [] [PROTOCOL_VERSION] true addr]> (peers p)) (id + 1).
Proof. unfold connect_peer. simpl. destruct w; [|done..]. by intros [= <- <-]. Qed.

Lemma connect_err addr w p p' e : connect_peer addr (mkAttempt (Ok tt) w) p = (p', Err e) → p' = p.
Proof. unfold connect_peer. simpl. destruct w; [done|by intros [= <- _]..]. Qed.

(** What a turn of a send does to the pool: nothing, a new connection, a frame
    more on a connection, or an eviction. *)
Inductive send_effect (t : SendTask) (p : Pool) : SendTask → Pool → Prop :=
| eff_none t' : (∀ id, conn_of t' = Some id → conn_of t = Some id ∨ PEER_POOL p !! s_addr t = Some id) →
    (∀ id, frame_via id t' = None) → (∀ id, frame_via id t = None) → send_effect t p t' p
| eff_stay : send_effect t p t p
| eff_connect t' : conn_of t' = Some (next_peer p) → (∀ id, frame_via id t' = None) →
    (∀ id, frame_via id t = None) →
    send_effect t p t' (PeerPool.mkPool (<[s_addr t := next_peer p]> (PEER_POOL p))
      (<[next_peer p := mkPeer [] [PROTOCOL_VERSION] true (s_addr t)]> (peers p)) (next_peer p + 1))
| eff_send t' id pr : peers p !! id = Some pr → rx_open pr = true → s_stage t = SSend id →
    s_stage t' = SDone (Ok id) → (∀ id, frame_via id t = None) →
    send_effect t p t'
      (set_peer id (mkPeer (queue pr ++ [encode_frame (s_frame t)]) (wire pr) true (peer_addr pr)) p)
| eff_evict t' : conn_of t' = None → (∀ id, frame_via id t' = None) → (∀ id, frame_via id t = None) →
    send_effect t p t' (evict (s_addr t) p).

#[local] Ltac finish Hv Hs :=
  first [done|apply Hv; congruence|apply Hs; congruence|intros ? [= <-]; by right].

Lemma send_turn_effect cfg c w t p : send_effect t p (fst (send_turn cfg c w t p)) (snd (send_turn cfg c w t p)) ∧
  s_addr (fst (send_turn cfg c w t p)) = s_addr t ∧ s_frame (fst (send_turn cfg c w t p)) = s_frame t.
Proof.
  assert (Hv : ∀ g t, (∀ j, g ≠ SDone (Ok j)) → ∀ id, frame_via id (s_goto g t) = None)
    by (intros g t0 Hg id; unfold frame_via; simpl; destruct g as [| | | | | |[j|e]]; naive_solver).
  assert (Hs : (∀ j, s_stage t ≠ SDone (Ok j)) → ∀ id, frame_via id t = None)
    by (intros Hg; destruct t; apply (Hv _ (mkSend _ _ _ _ s_stage0) Hg)).
  unfold send_turn. destruct (s_stage t) as [| | | |id| |r] eqn:E; [..|split; [apply eff_stay|done]].
  - destruct (_ <? _); (split; [|done]); apply eff_none; finish Hv Hs.
  - destruct (PEER_POOL p !! s_addr t) as [id|] eqn:El; (split; [|done]); apply eff_none; finish Hv Hs.
  - destruct c; (split; [|done]); apply eff_none; finish Hv Hs.
  - destruct (connect_peer _ _ p) as [p' [id|e]] eqn:Ec; (split; [|done]); cbn [fst snd].
    + apply connect_ok in Ec as [-> ->]. apply eff_connect; finish Hv Hs.
    + rewrite (connect_err _ _ _ _ _ Ec). apply eff_none; finish Hv Hs.
  - destruct (peer_send id _ p) as [p' [[u|u]|]] eqn:Ep; (split; [|done]); cbn [fst snd].
    + apply peer_send_ok in Ep as (pr & Hpr & Ho & ->).
      apply eff_send; try done; finish Hv Hs.
    + rewrite (peer_send_other _ _ _ _ _ Ep) by done. destruct (s_retry t); apply eff_none; finish Hv Hs.
    + rewrite (peer_send_other _ _ _ _ _ Ep) by done. apply eff_stay.
  - split; [|done]. apply eff_evict; finish Hv Hs.
Qed.

(** ** The invariant *)
Lemma accepted_same id n p' lv i t t' : sends n !! i = Some t → frame_via id t' = frame_via id t →
  accepted id (mkNet p' lv (<[i := t']> (sends n))) = accepted id n.
Proof. intros Hi Hf. unfold accepted. cbn [sends]. by apply (omap_insert_same _ _ _ t). Qed.

Lemma accepted_new id n p' lv i t t' : sends n !! i = Some t → frame_via id t = None →
  accepted id (mkNet p' lv (<[i := t']> (sends n))) ≡ₚ option_list (frame_via id t') ++ accepted id n.
Proof. intros Hi Hf. unfold accepted. cbn [sends]. by apply (omap_insert _ _ _ t). Qed.

Lemma accepted_unused id n : net_inv n → peers (pool n) !! id = None → accepted id n = [].
Proof.
  intros Hi Hn. unfold accepted. assert (Hall : ∀ t, t ∈ sends n → frame_via id t = None).
  { intros t [j Hj]%list_elem_of_lookup. unfold frame_via. destruct (s_stage t) as [| | | | | |[k|e]] eqn:E; try done.
    case_decide as Hk; [|done]. subst k.
    destruct (ni_task _ Hi j t id Hj) as (pr & Hpr & _); [unfold conn_of; by rewrite E|congruence]. }
  induction (sends n) as [|t l IH]; [done|]. simpl. rewrite Hall by left. apply IH. intros t' Ht'. apply Hall. by right.
Qed.

(** The tasks after a turn, and the connections they hold. *)
Lemma task_after n i t t' p' :
  net_inv n → sends n !! i = Some t → s_addr t' = s_addr t →
  (∀ id pr, peers (pool n) !! id = Some pr → ∃ pr', peers p' !! id = Some pr' ∧ peer_addr pr' = peer_addr pr) →
  (∀ id, conn_of t' = Some id → ∃ pr, peers p' !! id = Some pr ∧ peer_addr pr = s_addr t) →
  ∀ j u id, <[i := t']> (sends n) !! j = Some u → conn_of u = Some id →
    ∃ pr, peers p' !! id = Some pr ∧ peer_addr pr = s_addr u.
Proof.
  intros Hi Ht Ha Hk Hn j u id Hj Hu. apply list_lookup_insert_Some in Hj as [(<- & <- & _)|[Hne Hj]].
  - rewrite Ha. by apply Hn.
  - destruct (ni_task _ Hi j u id Hj Hu) as (pr & Hpr & Hpa). destruct (Hk _ _ Hpr) as (pr' & ? & ?).
    exists pr'. split; [done|congruence].
Qed.

Lemma peer_kept id pr pr' p : peers p !! id = Some pr → peer_addr pr' = peer_addr pr →
  ∀ i q, peers p !! i = Some q → ∃ q', peers (set_peer id pr' p) !! i = Some q' ∧ peer_addr q' = peer_addr q.
Proof.
  intros Hpr Ha i q Hq. cbn [set_peer peers]. destruct (decide (i = id)) as [->|Hne].
  - rewrite lookup_insert_eq. exists pr'. split; [done|congruence].
  - rewrite lookup_insert_ne by done. eauto.
Qed.

Lemma peers_fresh p : pool_ok p → peers p !! next_peer p = None.
Proof. intros [_ Hn]. destruct (peers p !! next_peer p) as [pr|] eqn:E; [apply Hn in E; lia|done]. Qed.

Lemma conn_ok_push id pr n f : conn_ok id pr n → rx_open pr = true →
  ∀ n', accepted id n' ≡ₚ f :: accepted id n → leaving n' = leaving n →
  conn_ok id (mkPeer (queue pr ++ [encode_frame f]) (wire pr) true (peer_addr pr)) n'.
Proof.
  intros (fs & Hf & Hp & Hc) Ho n' Ha Hl. exists (fs ++ [f]). split_and!.
  - rewrite Ha, Hf. apply Permutation_app_comm.
  - cbn [wire]. rewrite encode_frames_snoc, app_comm_cons. by apply prefix_app_r.
  - intros [_ Hw]. apply carries_push, Hc. split; [done|by rewrite <-Hl].
Qed.

Lemma pool_ok_connect addr pr p : pool_ok p → peer_addr pr = addr →
  pool_ok (PeerPool.mkPool (<[addr := next_peer p]> (PEER_POOL p)) (<[next_peer p := pr]> (peers p)) (next_peer p + 1)).
Proof.
  intros Hok <-. assert (Hfresh := peers_fresh _ Hok). destruct Hok as [Hp Hn].
  split; cbn [PEER_POOL peers next_peer].
  - intros ad id [[<- <-]|[_ (q & Hq & Hqa)%Hp]]%lookup_insert_Some;
      [rewrite lookup_insert_eq; eauto|rewrite lookup_insert_ne by congruence; eauto].
  - intros id q [[<- _]|[_ H%Hn]]%lookup_insert_Some; lia.
Qed.

Lemma net_send_inv i t t' p' n : net_inv n → sends n !! i = Some t → send_effect t (pool n) t' p' →
  s_addr t' = s_addr t → s_frame t' = s_frame t → net_inv (mkNet p' (leaving n) (<[i := t']> (sends n))).
Proof.
  intros Hi Ht He Ha Hfr.
  destruct He as [t' Hc Hv Hv0| |t' Hc Hv Hv0|t' id pr Hpr Ho Hc Hd Hv0|t' Hc Hv Hv0].
  - split; cbn [pool sends leaving]; [apply Hi| | |apply Hi].
    + intros id pr Hpr. eapply conn_ok_mono; [by apply (ni_conn _ Hi)| |done].
      by rewrite (accepted_same id n _ _ i t) by (rewrite ?Hv, ?Hv0; done).
    + apply (task_after n i t); eauto. intros id [Hc0|Hp]%Hc; [by apply (ni_task _ Hi i)|].
      by apply (ni_pool _ Hi) in Hp.
  - rewrite list_insert_id by done. by destruct n.
  - assert (Hfresh := peers_fresh _ (ni_pool _ Hi)). destruct (ni_pool _ Hi) as [_ Hn].
    split; cbn [pool sends leaving]; [by apply pool_ok_connect; [apply Hi|]| | |].
    + cbn [peers]. intros id pr [[<- <-]|[_ Hpr]]%lookup_insert_Some.
      * exists []. split_and!; [|by exists []|done].
        rewrite (accepted_same _ n _ _ i t) by (rewrite ?Hv, ?Hv0; done). by rewrite accepted_unused.
      * eapply conn_ok_mono; [by apply (ni_conn _ Hi)| |done].
        by rewrite (accepted_same id n _ _ i t) by (rewrite ?Hv, ?Hv0; done).
    + apply (task_after n i t); eauto; cbn [peers].
      * intros id pr Hpr. rewrite lookup_insert_ne by congruence. eauto.
      * intros id Hid. assert (id = next_peer (pool n)) as -> by congruence. rewrite lookup_insert_eq. eauto.
    + cbn [next_peer]. intros id Hl%(ni_leaving _ Hi). lia.
  - destruct (ni_task _ Hi i t id Ht) as (pr0 & Hpr0 & Hpa); [unfold conn_of; by rewrite Hc|]. assert (pr0 = pr) as -> by congruence.
    set (pr' := mkPeer _ _ _ _). assert (Ha' : peer_addr pr' = peer_addr pr) by done.
    split; cbn [pool sends leaving].
    + apply (pool_ok_set_peer _ pr); [apply Hi|done..].
    + cbn [set_peer peers]. intros j q [[<- <-]|[Hne Hq]]%lookup_insert_Some.
      * apply (conn_ok_push _ _ n); [by apply (ni_conn _ Hi)|done| |done].
        rewrite (accepted_new id n _ _ i t) by done. unfold frame_via. by rewrite Hd, decide_True, Hfr.
      * eapply conn_ok_mono; [by apply (ni_conn _ Hi)| |done].
        rewrite (accepted_new j n _ _ i t) by done. unfold frame_via. by rewrite Hd, decide_False.
    + apply (task_after n i t); eauto; [by apply (peer_kept id pr)|]. intros j Hj.
      assert (j = id) as -> by (unfold conn_of in Hj; rewrite Hd in Hj; congruence).
      cbn [set_peer peers]. rewrite lookup_insert_eq. eexists. by split.
    + apply Hi.
  - split; cbn [pool sends leaving]; [by apply pool_ok_evict, Hi| | |apply Hi].
    + intros id pr Hpr. eapply conn_ok_mono; [by apply (ni_conn _ Hi)| |done].
      by rewrite (accepted_same id n _ _ i t) by (rewrite ?Hv, ?Hv0; done).
    + apply (task_after n i t); eauto. congruence.
Qed.

Lemma sent_of_prefix w bs : sent_of w bs `prefix_of` bs.
Proof. destruct w as [|k|k ?]; [done| |]; exists (drop k bs); symmetry; apply take_drop. Qed.

(** A turn of a writing task keeps what its connection has taken. *)
Lemma net_writer_inv id w n : net_inv n → net_inv (writer_step id w n).
Proof.
  intros Hi. unfold writer_step. destruct (peers (pool n) !! id) as [pr|] eqn:Hpr; [|done].
  destruct (rx_open pr) eqn:Ho; [|done].
  assert (Hlt : (id < next_peer (pool n))%nat) by (by eapply (ni_pool _ Hi)).
  assert (Hset : ∀ pr' lv, peer_addr pr' = peer_addr pr → leaving n ⊆ lv → lv ⊆ {[id]} ∪ leaving n →
    (∀ n', accepted id n' = accepted id n → leaving n' = lv → conn_ok id pr' n') →
    net_inv (mkNet (set_peer id pr' (pool n)) lv (sends n))).
  { intros pr' lv Ha Hl1 Hl2 Hc. split; cbn [pool sends leaving].
    - apply (pool_ok_set_peer _ pr); [apply Hi|done..].
    - cbn [set_peer peers]. intros j q [[<- <-]|[Hne Hq]]%lookup_insert_Some; [by apply Hc|].
      eapply conn_ok_mono; [by apply (ni_conn _ Hi)|done|]. intros [? Hw]. split; [done|]. set_solver.
    - intros j u k Hj Hk. destruct (ni_task _ Hi j u k Hj Hk) as (q & Hq & Hqa).
      destruct (peer_kept id pr pr' _ Hpr Ha k q Hq) as (q' & ? & ?). exists q'. split; [done|congruence].
    - cbn [set_peer next_peer]. intros j Hj. apply Hl2 in Hj as [->%elem_of_singleton|Hj]%elem_of_union;
        [done|by apply (ni_leaving _ Hi)]. }
  destruct (ni_conn _ Hi id pr Hpr) as (fs & Hf & Hp & Hc). case_decide as Hlv.
  - assert (H1 : net_inv (mkNet (set_peer id (mkPeer [] (wire pr) false (peer_addr pr)) (pool n)) (leaving n) (sends n))).
    { apply Hset; [done|done|set_solver|]. intros n' Ha _. exists fs. rewrite Ha. split_and!; [done|done|by intros []]. }
    split; [exact (pool_ok_evict (peer_addr pr) _ (ni_pool _ H1))|exact (ni_conn _ H1)|exact (ni_task _ H1)|exact (ni_leaving _ H1)].
  - destruct (queue pr) as [|msg rest] eqn:Hq.
    + destruct (has_sender id pr n); [done|]. split; cbn [pool sends leaving]; try apply Hi.
      * intros j q Hj. eapply conn_ok_mono; [by apply (ni_conn _ Hi)|done|]. intros [? Hw]. split; [done|]. set_solver.
      * intros j [->%elem_of_singleton|Hj]%elem_of_union; [done|by apply (ni_leaving _ Hi)].
    + assert (Hw := carries_written pr fs msg rest (Hc (conj Ho Hlv)) Hq).
      assert (Hpre := carries_prefix _ _ Hw). cbn [wire] in Hpre.
      assert (Hfail : net_inv (mkNet (set_peer id (mkPeer rest (wire pr ++ sent_of w msg) true (peer_addr pr)) (pool n))
        ({[id]} ∪ leaving n) (sends n))).
      { apply Hset; [done|set_solver|done|]. intros n' Ha Hl. exists fs. rewrite Ha. split_and!; [done| |].
        - cbn [wire]. etransitivity; [|exact Hpre]. apply prefix_app. by apply sent_of_prefix.
        - intros [_ Hw']. rewrite Hl in Hw'. set_solver. }
      destruct w; [|done..]. apply Hset; [done|done|set_solver|]. intros n' Ha _. exists fs. rewrite Ha. by split_and!.
Qed.

Lemma net_step_inv n n' : net_inv n → net_step n n' → net_inv n'.
Proof.
  intros Hi [addr pid data|i cfg c w|id w].
  - assert (Hacc : ∀ id, accepted id (send_remote_task addr pid data n) = accepted id n).
    { intros id. unfold accepted, send_remote_task. cbn [sends]. rewrite omap_app. simpl. by rewrite app_nil_r. }
    split; cbn [send_remote_task pool sends leaving]; try apply Hi.
    + intros id pr Hpr. eapply conn_ok_mono; [by apply (ni_conn _ Hi)|by rewrite Hacc|done].
    + intros j t id [Hj|[_ Hj]]%lookup_app_Some Hc; [by apply (ni_task _ Hi j)|].
      apply list_lookup_singleton_Some in Hj as [_ <-]. done.
  - unfold sends_turn. destruct (sends n !! i) as [t|] eqn:Ht; [|done].
    destruct (send_turn_effect cfg c w t (pool n)) as (He & Ha & Hf).
    destruct (send_turn cfg c w t (pool n)) as [t' p']. by apply (net_send_inv i t).
  - by apply net_writer_inv.
Qed.

Lemma net_inv_new : net_inv net_new.
Proof.
  split; [split; intros ??; cbn; by rewrite lookup_empty|intros id pr; cbn; by rewrite lookup_empty|done|].
  intros id. cbn. set_solver.
Qed.

Lemma net_reachable_inv n : reachable net_init net_step n → net_inv n.
Proof. apply reachable_invariant; [by intros ? ->; apply net_inv_new|apply net_step_inv]. Qed.

(** ** Properties *)

(** C22: In every interleaving of sends and writing tasks, each connection has
    taken exactly the frames of the sends that answered Ok through it, each
    once: while its writing task runs, its wire and its queue together are the
    version byte and those frames; and what its wire holds is always a prefix
    of that, so the peer never reads a malformed frame before the stream ends.
    A send that answered Ok did so through a connection to its own address. *)
Theorem concurrent_sends_accounted n id pr :
  reachable net_init net_step n → peers (pool n) !! id = Some pr →
  (∃ fs, fs ≡ₚ accepted id n ∧ wire pr `prefix_of` PROTOCOL_VERSION :: encode_frames fs ∧
    (writing id pr n → wire pr ++ concat (queue pr) = PROTOCOL_VERSION :: encode_frames fs)) ∧
  ∀ t, t ∈ sends n → s_stage t = SDone (Ok id) → s_addr t = peer_addr pr.
Proof.
  intros Hr Hpr. assert (Hi := net_reachable_inv n Hr). split; [by apply (ni_conn _ Hi)|].
  intros t [i Ht]%list_elem_of_lookup Hd.
  destruct (ni_task _ Hi i t id Ht) as (pr' & Hpr' & Ha); [unfold conn_of; by rewrite Hd|]. congruence.
Qed.

(** Frames go out in the order in which their sends answered: a step leaves
    what a connection whose writing task goes on carries as it was, or adds at
    the end the frame of the send that has just answered Ok. *)
Theorem concurrent_sends_in_order n n' id pr pr' fs :
  reachable net_init net_step n → net_step n n' →
  peers (pool n) !! id = Some pr → peers (pool n') !! id = Some pr' →
  writing id pr n → writing id pr' n' → carries pr fs →
  carries pr' fs ∧ accepted id n' = accepted id n ∨
  ∃ i t, sends n !! i = Some t ∧ s_stage t = SSend id ∧ (s_stage <$> (sends n' !! i)) = Some (SDone (Ok id)) ∧
    carries pr' (fs ++ [s_frame t]).
Proof.
  intros Hr Hs Hpr Hpr' [Ho Hl] [Ho' Hl'] Hc. assert (Hi := net_reachable_inv n Hr).
  destruct Hs as [addr pid data|i cfg c w|id' w].
  - left. cbn in Hpr'. split; [congruence|]. unfold accepted. cbn. rewrite omap_app. simpl. by rewrite app_nil_r.
  - unfold sends_turn in *. destruct (sends n !! i) as [t|] eqn:Ht; [|left; split; [congruence|done]].
    destruct (send_turn_effect cfg c w t (pool n)) as (He & Ha & Hf).
    destruct (send_turn cfg c w t (pool n)) as [t' p']. cbn [fst snd pool sends] in *.
    destruct He as [t' _ Hv Hv0| |t' _ Hv Hv0|t' id' q Hq Hoq Hst Hd Hv0|t' _ Hv Hv0].
    + left. split; [congruence|]. by rewrite (accepted_same id n _ _ i t) by (rewrite ?Hv, ?Hv0; done).
    + left. split; [congruence|]. by apply (accepted_same id n _ _ i t).
    + left. cbn [peers] in Hpr'. rewrite lookup_insert_ne in Hpr' by (intros <-; by rewrite peers_fresh in Hpr by apply Hi).
      split; [congruence|]. by rewrite (accepted_same id n _ _ i t) by (rewrite ?Hv, ?Hv0; done).
    + cbn [set_peer peers] in Hpr'. destruct (decide (id' = id)) as [->|Hne].
      * right. exists i, t. rewrite lookup_insert_eq in Hpr'. apply (inj Some) in Hpr' as <-.
        assert (q = pr) as -> by congruence. rewrite list_lookup_insert_eq by (by eapply lookup_lt_Some).
        split_and!; [done..|by cbn; rewrite Hd|by apply carries_push].
      * left. rewrite lookup_insert_ne in Hpr' by done. split; [congruence|].
        apply (accepted_same id n _ _ i t); [done|]. rewrite Hv0. unfold frame_via. by rewrite Hd, decide_False.
    + left. split; [cbn in Hpr'; congruence|]. by rewrite (accepted_same id n _ _ i t) by (rewrite ?Hv, ?Hv0; done).
  - left. assert (Hsame : peers (pool n) !! id = Some pr' → carries pr' fs) by congruence.
    unfold writer_step in *. destruct (peers (pool n) !! id') as [q|] eqn:Hq; [|by split; auto].
    destruct (rx_open q) eqn:Hoq; [|by split; auto].
    destruct (decide (id' = id)) as [->|Hne].
    + assert (q = pr) as -> by congruence. rewrite decide_False in * by done.
      destruct (queue pr) as [|msg rest] eqn:Hqu; [destruct (has_sender id pr n); [by split; auto|set_solver]|].
      destruct w; cbn [set_peer pool peers leaving] in *; [|set_solver..]. rewrite lookup_insert_eq in Hpr'.
      apply (inj Some) in Hpr' as <-. split; [|done]. by eapply carries_written.
    + split; [apply Hsame|]; revert Hpr'; case_decide; unfold writer_end; cbn [pool peers set_peer];
        repeat split_match; cbn [pool peers set_peer]; rewrite ?lookup_insert_ne by done; done.
Qed.

(** ** Termination *)

(** The turns a send still needs. *)
Definition send_rank (t : SendTask) : nat :=
  match s_stage t, s_retry t with
  | SCheck, _ => 10
  | SLookup, false => 9
  | SConnect, false => 8
  | SGreet, false => 7
  | SSend _, false => 6
  | SEvict, _ => 5
  | SLookup, true => 4
  | SConnect, true => 3
  | SGreet, true => 2
  | SSend _, true => 1
  | SDone _, _ => 0
  end.

(** The channel of the connection a send wants to use is full. *)
Definition channel_full (t : SendTask) (p : Pool) : bool :=
  match s_stage t with
  | SSend id => match peers p !! id with
                | Some pr => rx_open pr && (channel_capacity <=? length (queue pr))%nat
                | None => false
                end
  | _ => false
  end.

(** A turn of a send in a world that anything may have changed since its last:
    the configuration, the network and the pool. *)
Record world := mkWorld { w_cfg : Config; w_connect : result unit IoError; w_write : wr_event; w_pool : Pool }.

Definition send_turn_in (t : SendTask) (x : world) : SendTask :=
  fst (send_turn (w_cfg x) (w_connect x) (w_write x) t (w_pool x)).

Lemma send_turn_rank t x : channel_full t (w_pool x) = false →
  (send_rank (send_turn_in t x) <= pred (send_rank t))%nat.
Proof.
  unfold channel_full, send_turn_in, send_turn, send_rank. destruct t as [addr pid data retry g].
  cbn [s_stage s_retry s_addr]. destruct g as [| | | |id| |r]; intros Hf.
  - destruct (_ <? _); destruct retry; cbn; lia.
  - destruct (PEER_POOL _ !! _); destruct retry; cbn; lia.
  - destruct (w_connect x); destruct retry; cbn; lia.
  - destruct (connect_peer _ _ _) as [p' []]; destruct retry; cbn; lia.
  - destruct (peer_send id _ _) as [p' [[u|u]|]] eqn:Ep; [destruct retry; cbn; lia..|].
    exfalso. revert Ep Hf. unfold peer_send. destruct (peers _ !! id) as [pr|]; [|done].
    destruct (rx_open pr); [|done]. rewrite andb_true_l. destruct (_ <? _)%nat eqn:El; [done|].
    apply Nat.ltb_ge in El. intros _ Hf%Nat.leb_gt. lia.
  - cbn. lia.
  - cbn. lia.
Qed.

Fixpoint channel_free (t : SendTask) (ws : list world) : Prop :=
  match ws with
  | [] => True
  | x :: ws' => channel_full t (w_pool x) = false ∧ channel_free (send_turn_in t x) ws'
  end.

Lemma turns_rank ws t : channel_free t ws → (send_rank (fold_left send_turn_in ws t) <= send_rank t - length ws)%nat.
Proof.
  revert t. induction ws as [|x ws IH]; intros t; simpl; [lia|]. intros [Hf Hw].
  apply IH in Hw. apply send_turn_rank in Hf. lia.
Qed.

(** C24: A send to a remote node ends: after ten of its own turns, whatever the
    network, the pool and the configuration do in between, it has answered,
    unless it found the channel of its connection full. *)
Theorem send_remote_always_ends addr pid data ws :
  channel_free (mkSend addr pid data false SCheck) ws → (10 <= length ws)%nat →
  ∃ r, s_stage (fold_left send_turn_in ws (mkSend addr pid data false SCheck)) = SDone r.
Proof.
  intros Hf Hl. apply turns_rank in Hf. cbn [send_rank s_stage] in Hf.
  unfold send_rank in Hf. destruct (fold_left _ ws _) as [ad pi da re g]. cbn [s_stage s_retry] in *.
  destruct g; destruct re; try lia; eauto.
Qed.

(** ** The race of two first sends *)
Module RaceDemo.
Definition turn (i : nat) (n : Net) : Net := sends_turn i config_new (Ok tt) Written n.

(** Both look the address up before either has published its connection, and
    both end Ok. *)
Definition both : Net :=
  turn 1 (turn 0 (turn 1 (turn 0 (turn 1 (turn 0 (turn 1 (turn 0 (turn 1 (turn 0
    (send_remote_task "n" 8 [x62] (send_remote_task "n" 7 [x61] net_new))))))))))).

(** The first writing task writes its message, finds its channel closed, and
    ends. *)
Definition after : Net := writer_step 0 Written (writer_step 0 Written (writer_step 0 Written both)).

Definition later : Net := writer_step 1 Written (writer_step 1 Written after).
End RaceDemo.

Lemma race_reachable : reachable net_init net_step RaceDemo.both.
Proof.
  unfold RaceDemo.both, RaceDemo.turn.
  repeat (eapply reach_step; [|first [apply net_send|apply net_start]]). by apply reach_init.
Qed.

Lemma race_after : reachable net_init net_step RaceDemo.after.
Proof.
  unfold RaceDemo.after. repeat (eapply reach_step; [|apply net_writer]). apply race_reachable.
Qed.

(** Two first sends to an address can both open a connection. Both frames
    are taken, by one connection each; but when the first connection, which the
    pool has forgotten, has been drained, its writing task removes the address,
    and the pool loses the second, healthy connection, whose writing task then
    ends too. *)
Theorem racing_sends_lose_the_pool :
  ∃ n, reachable net_init net_step n ∧ s_stage <$> sends n = [SDone (Ok 0%nat); SDone (Ok 1%nat)] ∧
    PEER_POOL (pool n) !! "n"%string = None ∧
    (∃ pr, peers (pool n) !! 1%nat = Some pr ∧ writing 1 pr n ∧ queue pr = [encode_frame (FUser 8 [x62])]) ∧
    ∃ n', rtc net_step n n' ∧ 1%nat ∈ leaving n'.
Proof.
  exists RaceDemo.after. split; [apply race_after|]. split_and!; [by vm_compute..| |].
  - eexists. split; [by vm_compute|]. split; [|by vm_compute]. split; [done|].
    apply (bool_decide_unpack _). by vm_compute.
  - exists RaceDemo.later. split.
    + unfold RaceDemo.later. eapply rtc_l; [exact (net_writer RaceDemo.after 1 Written)|].
      exact (rtc_once _ _ (net_writer _ 1 Written)).
    + apply (bool_decide_unpack _). by vm_compute.
Qed.

(** ** Witnesses *)
Lemma concurrent_sends_accounted_witness :
  (∃ fs, fs ≡ₚ accepted 0 RaceDemo.both ∧ [PROTOCOL_VERSION] `prefix_of` PROTOCOL_VERSION :: encode_frames fs ∧
    (writing 0 (mkPeer [encode_frame (FUser 7 [x61])] [PROTOCOL_VERSION] true "n") RaceDemo.both →
     [PROTOCOL_VERSION] ++ concat [encode_frame (FUser 7 [x61])] = PROTOCOL_VERSION :: encode_frames fs)) ∧
  ∀ t, t ∈ sends RaceDemo.both → s_stage t = SDone (Ok 0%nat) → s_addr t = "n"%string.
Proof.
  apply (concurrent_sends_accounted RaceDemo.both 0 (mkPeer [encode_frame (FUser 7 [x61])] [PROTOCOL_VERSION] true "n"));
    [apply race_reachable|by vm_compute].
Defined.

Lemma concurrent_sends_in_order_witness :
  carries (mkPeer [] (PROTOCOL_VERSION :: encode_frame (FUser 7 [x61])) true "n") [FUser 7 [x61]] ∧
    accepted 0 (writer_step 0 Written RaceDemo.both) = accepted 0 RaceDemo.both ∨
  ∃ i t, sends RaceDemo.both !! i = Some t ∧ s_stage t = SSend 0 ∧
    (s_stage <$> (sends (writer_step 0 Written RaceDemo.both) !! i)) = Some (SDone (Ok 0%nat)) ∧
    carries (mkPeer [] (PROTOCOL_VERSION :: encode_frame (FUser 7 [x61])) true "n") ([FUser 7 [x61]] ++ [s_frame t]).
Proof.
  apply (concurrent_sends_in_order RaceDemo.both (writer_step 0 Written RaceDemo.both) 0
    (mkPeer [encode_frame (FUser 7 [x61])] [PROTOCOL_VERSION] true "n")
    (mkPeer [] (PROTOCOL_VERSION :: encode_frame (FUser 7 [x61])) true "n") [FUser 7 [x61]]).
  - apply race_reachable.
  - apply net_writer.
  - by vm_compute.
  - by vm_compute.
  - split; [done|]. apply (bool_decide_unpack _). by vm_compute.
  - split; [done|]. apply (bool_decide_unpack _). by vm_compute.
  - by vm_compute.
Defined.

Lemma send_remote_always_ends_witness :
  ∃ r, s_stage (fold_left send_turn_in (replicate 10 (mkWorld config_new (Ok tt) Written pool_new))
    (mkSend "n" 7 [x61] false SCheck)) = SDone r.
Proof.
  apply (send_remote_always_ends "n" 7 [x61] (replicate 10 (mkWorld config_new (Ok tt) Written pool_new)));
    [by repeat (split; [by vm_compute|])|by vm_compute; lia].
Defined.
