(* ===== verification/Duration.v ===== *)
(** * Durations and doubles

    [Duration] is a number of nanoseconds; the conversions from and to [f64] are
    those of the standard library, which the monitor's backoff and the timeouts
    of the front-ends go through. *)
From S2P Require Import Prelude.
From Stdlib Require Import Floats.SpecFloat.

Definition f64_of_Z (z : Z) : spec_float := binary_normalize 53 1024 z 0 false.

Definition f64_add : spec_float → spec_float → spec_float := SFadd 53 1024.

Definition f64_mul : spec_float → spec_float → spec_float := SFmul 53 1024.

Definition f64_div : spec_float → spec_float → spec_float := SFdiv 53 1024.

Definition as_secs_f64 (ns : Z) : spec_float :=
  f64_add (f64_of_Z (ns / 10 ^ 9)) (f64_div (f64_of_Z (ns mod 10 ^ 9)) (f64_of_Z (10 ^ 9))).

(** [n / d] rounded to nearest, ties to even. *)
Definition round_half_even (n d : Z) : Z :=
  let q := n / d in
  let r := n mod d in
  if (2 * r <? d) || ((2 * r =? d) && Z.even q) then q else q + 1.

(** [None] is a panic: a negative, infinite or too large value, or not a number. *)
Definition from_secs_f64 (f : spec_float) : option Z :=
  match f with
  | S754_zero _ => Some 0
  | S754_finite false m e =>
      let ns :=
        if 0 <=? e then Z.pos m * 2 ^ e * 10 ^ 9
        else round_half_even (Z.pos m * 10 ^ 9) (2 ^ (- e)) in
      if ns <? 2 ^ 64 * 10 ^ 9 then Some ns else None
  | _ => None
  end.

Definition from_millis (ms : Z) : Z := ms * 10 ^ 6.

Lemma round_half_even_nonneg n d : 0 <= n → 0 < d → 0 <= round_half_even n d.
Proof.
  intros Hn Hd. unfold round_half_even. assert (0 <= n / d) by (apply Z.div_pos; lia). split_match; lia.
Qed.

Lemma from_secs_f64_nonneg f t : from_secs_f64 f = Some t → 0 <= t.
Proof.
  destruct f as [| | |[] m e]; simpl; try done; [by intros [= <-]|].
  destruct (_ <? _); [|done]. intros [= <-]. destruct (0 <=? e) eqn:E; breflect.
  - apply Z.mul_nonneg_nonneg; [|lia]. apply Z.mul_nonneg_nonneg; [lia|by apply Z.pow_nonneg].
  - apply round_half_even_nonneg; [lia|]. apply Z.pow_pos_nonneg; lia.
Qed.
