(* ===== verification/Monitor.v ===== *)
(** * The remote monitor ([src/src/network.rs])

    [monitor_remote]: the probe of a peer, the count of consecutive failures and
    the growing pauses, over any [Node].  Durations are nanoseconds; the
    backoff factor is an IEEE double ([spec_float] with 53 bits), and a duration
    is turned into a double and back the way [Duration] does it, rounding to
    the nearest nanosecond, ties to even.

    Between the operations of the monitor anything may happen to the node: an
    [Observation] gives the node as the liveness check finds it, the node as the
    verdict finds it, and whether the probe succeeded. *)
From S2P Require Import Prelude Pid Mailbox Registry Supervisor Runtime RuntimeInv Interface Wire Connection Server Duration.
From Stdlib Require Import Strings.Byte Floats.SpecFloat.

Section monitor.
Context {R : Type} `{N : Node R}.

(** ** The probe *)
Definition probe (connected : result unit IoError) (c : Conn R) : bool * Conn R :=
  match connected with
  | Err _ => (false, c)
  | Ok _ =>
      match write_all [PROTOCOL_VERSION] c with
      | (Err _, c1) => (false, c1)
      | (Ok _, c1) =>
          match write_all [type_byte MtPing] c1 with
          | (Err _, c2) => (false, c2)
          | (Ok _, c2) =>
              match read_exact 1 c2 with
              | (Ok pong, c3) => (bool_decide (pong = [x03]), c3)
              | (Err _, c3) => (false, c3)
              end
          end
      end
  end.

(** ** The loop *)
Record Monitor := mkMonitor { curr : Z; failures : Z }.

(** What the task has read when it started. *)
Record MonitorParams := mkParams { base : Z; factor : spec_float; max_backoff : Z; threshold : Z }.

Definition monitor_params (interval_ms : Z) (r : R) : MonitorParams :=
  let c := node_config r in
  mkParams (interval_ms * 10 ^ 6) (monitor_backoff_factor c) (monitor_backoff_max c) (monitor_failure_threshold c).

Definition monitor_start (p : MonitorParams) : Monitor := mkMonitor (base p) 0.

Record Observation := mkObs { at_check : R; at_verdict : R; is_up : bool }.

Inductive verdict := Continue (m : Monitor) | Unwatched | Down (r : R) | Panicked.

(** The part of an iteration after the probe. *)
Definition monitor_verdict (p : MonitorParams) (pid : Pid) (up : bool) (r : R) (m : Monitor) : verdict :=
  if up then Continue (mkMonitor (base p) 0)
  else
    let n := failures m + 1 in
    if threshold p <=? n then Down (node_notify_exit pid (node_stop pid r))
    else
      match from_secs_f64 (f64_mul (as_secs_f64 (curr m)) (factor p)) with
      | None => Panicked
      | Some next => Continue (mkMonitor (if max_backoff p <? next then max_backoff p else next) n)
      end.

(** A run gives the verdict it ends with, the number of probes and the pauses
    made. *)
Fixpoint monitor_run (p : MonitorParams) (pid : Pid) (obs : list Observation) (m : Monitor)
  : verdict * nat * list Z :=
  match obs with
  | [] => (Continue m, O, [])
  | o :: obs' =>
      if node_alive pid (at_check o) then
        match monitor_verdict p pid (is_up o) (at_verdict o) m with
        | Continue m' =>
            let '(v, k, pauses) := monitor_run p pid obs' m' in (v, S k, curr m :: pauses)
        | v => (v, 1%nat, [curr m])
        end
      else (Unwatched, O, [])
  end.

(** ** Lemmas *)

(** The failures needed: a threshold of zero acts as one. *)
Definition needed (p : MonitorParams) : nat := Z.to_nat (Z.max 1 (threshold p)).

Definition watched (pid : Pid) (obs : list Observation) : Prop :=
  Forall (λ o, node_alive pid (at_check o) = true) obs.

Lemma window_after_success f n pre post (ups : list bool) : (f < n)%nat →
  replicate f false ++ true :: ups = pre ++ replicate n false ++ post →
  ∃ pre', ups = pre' ++ replicate n false ++ post.
Proof.
  intros Hfn Heq. destruct (decide (length pre <= f)%nat) as [Hle|Hgt].
  - assert (H1 : (replicate f false ++ true :: ups) !! f = Some true).
    { rewrite lookup_app_r by (rewrite length_replicate; lia). by rewrite length_replicate, Nat.sub_diag. }
    rewrite Heq, lookup_app_r, lookup_app_l, lookup_replicate_2 in H1 by (rewrite ?length_replicate; lia). done.
  - exists (drop (S f) pre). apply (f_equal (drop (S f))) in Heq.
    rewrite drop_app_ge, length_replicate in Heq by (rewrite length_replicate; lia).
    replace (S f - f)%nat with 1%nat in Heq by lia. rewrite drop_app_le in Heq by lia. done.
Qed.

Lemma monitor_run_spec p pid obs m : 0 <= failures m < Z.max 1 (threshold p) → watched pid obs →
  let f := Z.to_nat (failures m) in
  let ups := replicate f false ++ (is_up <$> obs) in
  match monitor_run p pid obs m with
  | (Down r, k, _) => ∃ pre o, take (f + k) ups = pre ++ replicate (needed p) false ∧ (0 < k)%nat ∧
      obs !! pred k = Some o ∧ r = node_notify_exit pid (node_stop pid (at_verdict o))
  | (Continue m', k, _) => k = length obs ∧ ∀ pre post, ups ≠ pre ++ replicate (needed p) false ++ post
  | (Unwatched, _, _) => False
  | (Panicked, _, _) => True
  end.
Proof.
  revert m. induction obs as [|o obs IH]; intros m Hf Hobs; cbn zeta.
  { simpl. split; [done|]. intros pre post Heq. apply (f_equal length) in Heq. unfold needed in Heq.
    rewrite app_nil_r, !length_app, !length_replicate in Heq. lia. }
  apply Forall_cons in Hobs as [Ho Hobs]. cbn [monitor_run]. rewrite Ho. unfold monitor_verdict.
  cbn [fmap list_fmap]. set (f := Z.to_nat (failures m)).
  assert (Hfn : (f < needed p)%nat) by (unfold f, needed; lia).
  destruct (is_up o).
  - specialize (IH (mkMonitor (base p) 0) ltac:(simpl; lia) Hobs). cbn zeta in IH.
    change (Z.to_nat (failures (mkMonitor (base p) 0))) with 0%nat in IH. cbn [replicate app Nat.add] in IH.
    destruct (monitor_run p pid obs (mkMonitor (base p) 0)) as [[[m'| |r|] k] pauses]; try done.
    + destruct IH as [-> IH]. split; [done|]. intros pre post Heq.
      destruct (window_after_success f (needed p) pre post _ Hfn Heq) as [pre' Heq']. by apply (IH pre' post).
    + destruct IH as (pre & o' & Ht & Hk & Hl & Hr). exists (replicate f false ++ true :: pre), o'.
      split_and!; [|lia|by destruct k; [lia|]|done].
      rewrite take_app_ge by (rewrite length_replicate; lia). rewrite length_replicate.
      replace (f + S k - f)%nat with (S k) by lia. cbn [take Nat.add] in Ht |- *. rewrite Ht.
      by rewrite <-(assoc_L (++)).
  - destruct (threshold p <=? failures m + 1) eqn:Et; breflect.
    + exists [], o. split_and!; [|lia|done|done]. cbn [app].
      rewrite take_app_ge by (rewrite length_replicate; lia). rewrite length_replicate.
      replace (f + 1 - f)%nat with 1%nat by lia. cbn [take].
      replace (needed p) with (f + 1)%nat by (unfold f, needed; lia). by rewrite replicate_add.
    + destruct (from_secs_f64 _) as [next|]; [|done].
      set (m1 := mkMonitor _ _). specialize (IH m1 ltac:(simpl; lia) Hobs). cbn zeta in IH.
      assert (Hm1 : Z.to_nat (failures m1) = S f) by (unfold f; simpl; lia). rewrite Hm1 in IH.
      assert (Hups : replicate (S f) false ++ (is_up <$> obs) = replicate f false ++ false :: (is_up <$> obs)).
      { rewrite <-Nat.add_1_r, replicate_add, <-(assoc_L (++)). done. }
      rewrite Hups in IH. destruct (monitor_run p pid obs m1) as [[[m'| |r|] k] pauses]; try done.
      * destruct IH as [-> IH]. done.
      * destruct IH as (pre & o' & Ht & Hk & Hl & Hr). exists pre, o'.
        replace (f + S k)%nat with (S f + k)%nat by lia. split_and!; [done|lia|by destruct k; [lia|]|done].
Qed.

(** ** Properties *)

(** The verdict "down" comes after exactly [max 1 threshold] consecutive
    failed probes, never earlier and never later: when it comes, the last that
    many probes have failed and the PID has been stopped and its supervisor
    notified; as long as the monitor goes on, no such window has occurred. *)
Theorem monitor_detects p pid obs : watched pid obs →
  match monitor_run p pid obs (monitor_start p) with
  | (Down r, k, _) => ∃ pre o, take k (is_up <$> obs) = pre ++ replicate (needed p) false ∧
      obs !! pred k = Some o ∧ r = node_notify_exit pid (node_stop pid (at_verdict o))
  | (Continue _, k, _) => k = length obs ∧
      ∀ pre post, (is_up <$> obs) ≠ pre ++ replicate (needed p) false ++ post
  | (Unwatched, _, _) => False
  | (Panicked, _, _) => True
  end.
Proof.
  intros Hobs. assert (H := monitor_run_spec p pid obs (monitor_start p) ltac:(simpl; lia) Hobs).
  cbn zeta in H. change (Z.to_nat (failures (monitor_start p))) with 0%nat in H.
  cbn [replicate app Nat.add] in H.
  destruct (monitor_run p pid obs (monitor_start p)) as [[[m'| |r|] k] pauses]; try done.
  destruct H as (pre & o & ? & _ & ? & ?). by exists pre, o.
Qed.

Lemma monitor_pauses p pid obs m : (curr m = base p ∨ curr m <= max_backoff p) →
  let '(_, _, pauses) := monitor_run p pid obs m in
  Forall (λ d, d = base p ∨ d <= max_backoff p) pauses.
Proof.
  revert m. induction obs as [|o obs IH]; intros m Hm; [constructor|]. cbn [monitor_run].
  destruct (node_alive pid (at_check o)); [|constructor]. unfold monitor_verdict.
  destruct (is_up o).
  - specialize (IH (mkMonitor (base p) 0) ltac:(by left)).
    destruct (monitor_run p pid obs _) as [[v k] pauses]. by constructor.
  - destruct (threshold p <=? failures m + 1); [by constructor|].
    destruct (from_secs_f64 _) as [next|]; [|by constructor]. set (m1 := mkMonitor _ _).
    assert (Hm1 : curr m1 = base p ∨ curr m1 <= max_backoff p).
    { right. simpl. destruct (max_backoff p <? next) eqn:E; breflect; lia. }
    specialize (IH m1 Hm1). destruct (monitor_run p pid obs m1) as [[v k] pauses]. by constructor.
Qed.

(** Whatever happens, every pause of the monitor is the base interval or
    at most the configured maximum. *)
Theorem monitor_backoff_bounded p pid obs :
  let '(_, _, pauses) := monitor_run p pid obs (monitor_start p) in
  Forall (λ d, d = base p ∨ d <= max_backoff p) pauses.
Proof. apply monitor_pauses. by left. Qed.

(** A probe succeeds against a server of this program: if the probe's bytes
    reach it and its answer comes back, in any chunks, the node counts as up, and
    the server's node is untouched.  A connection that fails, or an answer that
    is not the one byte 3 or does not come, counts as down. *)
Theorem probe_correct (client server server' : Conn R) r :
  writes client = [] → output client = [] → writes server = [] → output server = [] →
  stream (input server) = inl <$> output (snd (probe (Ok tt) client)) →
  handle_connection server = Some (r, server') →
  node server' = node server ∧
  (stream (input client) = inl <$> output server' → fst (probe (Ok tt) client) = true) ∧
  (∀ b st, stream (input client) = inl b :: st → b ≠ x03 → fst (probe (Ok tt) client) = false) ∧
  (ended (stream (input client)) → fst (probe (Ok tt) client) = false) ∧
  (∀ e, fst (probe (Err e) client) = false).
Proof.
  intros Wc Oc Ws Os Hin Hrun. unfold probe in *.
  rewrite (write_all_ok _ client Wc), write_all_ok in * by done. rewrite Oc in *. cbn [node input output app] in *.
  set (c2 := mkConn _ _ _ _) in *. destruct (read_exact_frame 1 c2) as (_ & _ & Ho).
  assert (Hout : output (snd (read_exact 1 c2)) = PROTOCOL_VERSION :: encode_frames [FPing]) by by rewrite Ho.
  assert (Hin' : stream (input server) = (inl <$> (PROTOCOL_VERSION :: encode_frames [FPing])) ++ []).
  { rewrite app_nil_r, Hin. destruct (read_exact 1 c2) as [[pong|e] c3]; simpl in Hout |- *; by rewrite Hout. }
  destruct (run_frames [FPing] [] server Hin') as (s' & Hrun' & Heff); [by left|done|by constructor|].
  rewrite Hrun in Hrun'. injection Hrun' as _ <-. cbn [fold_left frame_effect] in Heff.
  injection Heff as Hn Hback. split; [done|]. rewrite Hback, Os. cbn [app]. split_and!; [|  | |done].
  - intros Hs. destruct (read_exact_bytes 1 [x03] [] c2) as (evs & -> & _); [exact Hs|done|done].
  - intros b st Hs Hb. destruct (read_exact_bytes 1 [b] st c2 Hs eq_refl) as (evs & -> & _). simpl.
    apply bool_decide_false. congruence.
  - intros He. destruct (read_exact_short 1 [] (stream (input c2)) c2) as (e & evs & ->); [simpl; lia|done|done|done].
Qed.

(** A monitor is over at its first check when the PID is not alive on the
    node that runs it: it probes nothing and reports nothing. *)
Theorem monitor_ignores_foreign_pid p pid o obs : node_alive pid (at_check o) = false →
  monitor_run p pid (o :: obs) (monitor_start p) = (Unwatched, O, []).
Proof. intros H. cbn [monitor_run]. by rewrite H. Qed.
End monitor.

(** ** Instances *)
Module MonitorDemo.
(** The defaults of a fresh node, with a higher threshold. *)
Definition params (threshold : Z) : MonitorParams := mkParams (10 ^ 9) f64_two (60 * 10 ^ 9) threshold.

Definition obs (ups : list bool) : list (Observation (R := Runtime unit SlabAllocator)) :=
  (λ u, mkObs Demo.one Demo.one u) <$> ups.
End MonitorDemo.

(** The pauses with the default factor, in seconds: 1, 2, 4, ... up to 60. *)
Example default_pauses :
  let '(_, k, pauses) := monitor_run (MonitorDemo.params 20) Demo.a (MonitorDemo.obs (replicate 9 false))
    (monitor_start (MonitorDemo.params 20)) in
  (k, pauses) = (9%nat, (λ x, x * 10 ^ 9) <$> [1; 2; 4; 8; 16; 32; 60; 60; 60]).
Proof. vm_compute. reflexivity. Qed.

(** The factor is not checked when it is set: with a negative one the monitor
    panics at the first failure that is not the last, and never reports. *)
Example negative_factor_panics :
  monitor_run (mkParams (10 ^ 9) (S754_finite true 4503599627370496 (-52)) (60 * 10 ^ 9) 2) Demo.a
    (MonitorDemo.obs [false; false; false]) (monitor_start (MonitorDemo.params 2)) = (Panicked, 1%nat, [10 ^ 9]).
Proof. vm_compute. reflexivity. Qed.

Lemma monitor_detects_witness :
  match monitor_run (MonitorDemo.params 2) Demo.a (MonitorDemo.obs [false; true; false; false])
          (monitor_start (MonitorDemo.params 2)) with
  | (Down r, k, _) => ∃ pre o, take k (is_up <$> MonitorDemo.obs [false; true; false; false]) =
        pre ++ replicate (needed (MonitorDemo.params 2)) false ∧
      MonitorDemo.obs [false; true; false; false] !! pred k = Some o ∧
      r = node_notify_exit Demo.a (node_stop Demo.a (at_verdict o))
  | (Continue _, k, _) => k = length (MonitorDemo.obs [false; true; false; false]) ∧
      ∀ pre post, (is_up <$> MonitorDemo.obs [false; true; false; false]) ≠
        pre ++ replicate (needed (MonitorDemo.params 2)) false ++ post
  | (Unwatched, _, _) => False
  | (Panicked, _, _) => True
  end.
Proof.
  apply (monitor_detects (MonitorDemo.params 2) Demo.a (MonitorDemo.obs [false; true; false; false])).
  repeat constructor.
Defined.

Definition ping_server : Conn (Runtime unit SlabAllocator) :=
  mkConn Demo.one [Data [x01]; Data [x02]] [] [].

Definition ping_client : Conn (Runtime unit SlabAllocator) := mkConn runtime_new [Data [x03]] [] [].

Lemma probe_correct_witness :
  let server' := mkConn Demo.one [] [] [x03] in
  node server' = node ping_server ∧
  (stream (input ping_client) = inl <$> output server' → fst (probe (Ok tt) ping_client) = true) ∧
  (∀ b st, stream (input ping_client) = inl b :: st → b ≠ x03 → fst (probe (Ok tt) ping_client) = false) ∧
  (ended (stream (input ping_client)) → fst (probe (Ok tt) ping_client) = false) ∧
  (∀ e, fst (probe (Err e) ping_client) = false).
Proof. apply (probe_correct ping_client ping_server (mkConn Demo.one [] [] [x03]) (Ok tt)); reflexivity. Defined.

Lemma monitor_ignores_foreign_pid_witness :
  monitor_run (MonitorDemo.params 2) 77 (MonitorDemo.obs [false]) (monitor_start (MonitorDemo.params 2)) =
    (Unwatched, O, []).
Proof. apply (monitor_ignores_foreign_pid (MonitorDemo.params 2) 77 (mkObs Demo.one Demo.one false) []). reflexivity. Defined.
