(* ===== verification/PyMembrane.v ===== *)
(** * The Python membrane ([src/src/py.rs])

    The conversions between runtime messages and Python objects, the strategy
    names, [send_buffer], and the push actors of [spawn_py_handler]: the handler
    that runs a Python callable in place, on a dedicated thread or on the shared
    worker pool, with the limit on dedicated threads.

    A Python callable is an abstract handler identity; what the model keeps of a
    call is which handler was called with which bytes.  The interpreter is up. *)
From S2P Require Import Prelude Pid Mailbox Registry Buffer Supervisor Runtime RuntimeInv Lifecycle.
From Stdlib Require Import Strings.Byte Strings.Ascii.

(** ** Messages *)
Record PySystemMessage := mkPySys {
  type_name : string; target_pid : option Z; py_reason : string; py_metadata : option string
}.

Inductive PyObj := PyBytes (b : Bytes) | PySys (m : PySystemMessage).

Definition reason_text (r : ExitReason) : string :=
  match r with
  | Normal => "normal"
  | Panic => "panic"
  | Timeout => "timeout"
  | Killed => "killed"
  | Oom => "oom"
  | Other s => s
  end.

Definition message_to_py (msg : Message) : PyObj :=
  match msg with
  | User b => PyBytes b
  | System (Exit info) =>
      PySys (mkPySys "EXIT" (Some (from info)) (reason_text (reason info)) (metadata info))
  | System (HotSwap _) => PySys (mkPySys "HOT_SWAP" None "" None)
  | System Ping => PySys (mkPySys "PING" None "" None)
  | System Pong => PySys (mkPySys "PONG" None "" None)
  end.

(** The result of calling a Python predicate: an exception, or a value that may
    be a bool. *)
Inductive py_answer := Raised | NotABool | ABool (b : bool).

Definition extract_bool (a : py_answer) : bool :=
  match a with ABool b => b | NotABool | Raised => false end.

Definition run_python_matcher (matcher : PyObj → py_answer) (msg : Message) : bool :=
  match msg with
  | User b => extract_bool (matcher (PyBytes b))
  | System s =>
      match s with
      | Exit info =>
          extract_bool (matcher (PySys (mkPySys "EXIT" (Some (from info)) (reason_text (reason info)) (metadata info))))
      | HotSwap _ => extract_bool (matcher (PySys (mkPySys "HOT_SWAP" None "" None)))
      | Ping => extract_bool (matcher (PySys (mkPySys "PING" None "" None)))
      | Pong => extract_bool (matcher (PySys (mkPySys "PONG" None "" None)))
      end
  end.

(** ** Strategy names

    [to_lowercase] on ASCII letters; no other character lowers to a letter of
    the accepted names. *)
Definition lower (c : ascii) : ascii :=
  let n := Ascii.nat_of_ascii c in
  if ((65 <=? n) && (n <=? 90))%nat then Ascii.ascii_of_nat (n + 32) else c.

Fixpoint to_lowercase (s : string) : string :=
  match s with
  | EmptyString => EmptyString
  | String c r => String (lower c) (to_lowercase r)
  end.

Definition parse_strategy (strategy : string) : option RestartStrategy :=
  let s := to_lowercase strategy in
  if decide (s = "restartone"%string ∨ s = "restart_one"%string ∨ s = "one"%string) then Some RestartOne
  else if decide (s = "restartall"%string ∨ s = "restart_all"%string ∨ s = "all"%string) then Some RestartAll
  else None.

Section calls.
Context {F S : Type} `{PA : PidAllocator S}.

(** [watch] of the Python and JavaScript runtimes; [None] is the exception for
    an invalid strategy. *)
Definition py_watch (pid : Pid) (strategy : string) (rt : Runtime F S) : option (Runtime F S) :=
  match parse_strategy strategy with
  | Some strat => Some (on_sup 0 (add_child pid (mkSpec (ConstPid pid) strat)) rt)
  | None => None
  end.

(** [supervise_with_factory]: the strategy is checked, then the factory is
    called once and its answer is dropped; [None] is an exception. *)
Definition supervise_with_factory (pid : Pid) (f : Factory F) (first_call : result Pid string)
    (strategy : string) (rt : Runtime F S) : option (Runtime F S) :=
  match parse_strategy strategy with
  | Some strat =>
      match first_call with
      | Ok _initial_pid => Some (supervise pid f strat rt)
      | Err _ => None
      end
  | None => None
  end.

(** [send_buffer] on the global buffer registry: the buffer is taken first;
    [Value None] is the exception for an unknown id. *)
Definition send_buffer (pid : Pid) (id : BufferId) (reg : BufferRegistry) (rt : Runtime F S)
  : BufferRegistry * Runtime F S * locked (option bool) :=
  match buf_take reg id with
  | (reg', Value (Some vec)) => let (rt', r) := rt_send pid (User vec) rt in (reg', rt', Value (Some (is_ok r)))
  | (reg', Value None) => (reg', rt, Value None)
  | (reg', Panicked) => (reg', rt, Panicked)
  end.
End calls.

(** ** Push actors *)

(** What a push actor has done to Python: its current callable and the calls
    made, latest last. *)
Record PyActor := mkPyActor { behavior : Z; calls : list (Z * Bytes) }.

Definition call_behavior (b : Bytes) (a : PyActor) : PyActor :=
  mkPyActor (behavior a) (calls a ++ [(behavior a, b)]).

Definition swap_behavior (ptr : Z) (a : PyActor) : PyActor := mkPyActor ptr (calls a).

Inductive PoolTask := Execute (b : Bytes) | PoolHotSwap (ptr : Z).

(** Where the handler of an actor finds Python: a dedicated thread's channel,
    the shared pool's, or neither. *)
Inductive route := Inline | Dedicated (queue : list Message) | Pooled (queue : list PoolTask).

(** The handler closure on one message. *)
Definition py_handler (msg : Message) (s : route * PyActor) : route * PyActor :=
  let (r, a) := s in
  match msg, r with
  | System (HotSwap _), Dedicated q => (Dedicated (q ++ [msg]), a)
  | System (HotSwap ptr), Pooled q => (Pooled (q ++ [PoolHotSwap ptr]), a)
  | User _, Dedicated q => (Dedicated (q ++ [msg]), a)
  | User b, Pooled q => (Pooled (q ++ [Execute b]), a)
  | System (HotSwap ptr), Inline => (r, swap_behavior ptr a)
  | User b, Inline => (r, call_behavior b a)
  | System (Exit _), _ => (r, a)
  | System Ping, _ | System Pong, _ => (r, a)
  end.

(** One turn of the dedicated thread on a message; [None] is its end. *)
Definition thread_turn (msg : Message) (a : PyActor) : option PyActor :=
  match msg with
  | System (HotSwap ptr) => Some (swap_behavior ptr a)
  | User b => Some (call_behavior b a)
  | System (Exit _) => None
  | System Ping | System Pong => Some a
  end.

(** The thread run until its channel is empty or it ends. *)
Fixpoint thread_drain (q : list Message) (a : PyActor) : PyActor :=
  match q with
  | [] => a
  | m :: q' => match thread_turn m a with Some a' => thread_drain q' a' | None => a end
  end.

(** The shared pool: the tasks in the channel and those a worker has taken and
    not yet run.  A worker takes the oldest task, then waits for the GIL; which
    waiting worker gets it next is not determined. *)
Record GilPool := mkGilPool { pq : list PoolTask; held : list PoolTask }.

Definition run_task (t : PoolTask) (a : PyActor) : PyActor :=
  match t with
  | Execute b => call_behavior b a
  | PoolHotSwap ptr => swap_behavior ptr a
  end.

Inductive pool_step (size : nat) : GilPool * PyActor → GilPool * PyActor → Prop :=
| worker_takes t q h a : (length h < size)%nat →
    pool_step size (mkGilPool (t :: q) h, a) (mkGilPool q (h ++ [t]), a)
| worker_runs q h1 t h2 a :
    pool_step size (mkGilPool q (h1 ++ t :: h2), a) (mkGilPool q (h1 ++ h2), run_task t a).

(** ** The limit on dedicated threads

    [RELEASE_GIL_THREADS] is shared by all spawns: each adds one, looks at the
    value before, and takes its one back when it is refused.  [entered] holds
    the values seen by the spawns between the two. *)
Record GilLimit := mkLimit { gil_counter : nat; live_threads : nat; entered : list nat }.

(** The decision of one spawn that saw [prev]. *)
Inductive decision := Dedicate | UsePool | RefuseStrict.

Definition gil_decide (max_threads : nat) (strict : bool) (prev : nat) : decision :=
  if (max_threads <=? prev)%nat then (if strict then RefuseStrict else UsePool) else Dedicate.

Inductive limit_step (max_threads : nat) (strict : bool) : GilLimit → GilLimit → Prop :=
| spawn_enters n l e : limit_step max_threads strict (mkLimit n l e) (mkLimit (n + 1) l (e ++ [n]))
| spawn_decides n l e1 prev e2 :
    limit_step max_threads strict (mkLimit n l (e1 ++ prev :: e2))
      match gil_decide max_threads strict prev with
      | Dedicate => mkLimit n (l + 1) (e1 ++ e2)
      | UsePool | RefuseStrict => mkLimit (n - 1) l (e1 ++ e2)
      end
| thread_ends n l e : limit_step max_threads strict (mkLimit n (S l) e) (mkLimit (n - 1) l e).

Definition handle_all (msgs : list Message) (s : route * PyActor) : route * PyActor :=
  fold_left (λ s m, py_handler m s) msgs s.

Definition limit_init (l : GilLimit) : Prop := l = mkLimit 0 0 [].

(** ** Lemmas *)

(** What the handler forwards to the thread: user messages and hot swaps. *)
Definition forwarded (m : Message) : bool :=
  match m with User _ | System (HotSwap _) => true | _ => false end.

Lemma handle_dedicated msgs q a :
  handle_all msgs (Dedicated q, a) = (Dedicated (q ++ filter (λ m, forwarded m = true) msgs), a).
Proof.
  revert q. induction msgs as [|m msgs IH]; intros q; [cbn; by rewrite app_nil_r|].
  unfold handle_all in *. cbn [fold_left]. rewrite filter_cons.
  destruct m as [b|[info|ptr| |]]; simpl; rewrite IH; simpl; by rewrite <-?(assoc_L (++)).
Qed.

Lemma handle_pooled msgs q a :
  handle_all msgs (Pooled q, a) =
    (Pooled (q ++ omap (λ m, match m with User b => Some (Execute b)
       | System (HotSwap ptr) => Some (PoolHotSwap ptr) | _ => None end) msgs), a).
Proof.
  revert q. induction msgs as [|m msgs IH]; intros q; [cbn; by rewrite app_nil_r|].
  unfold handle_all in *. cbn [fold_left]. destruct m as [b|[info|ptr| |]]; cbn [py_handler]; rewrite IH; cbn;
    by rewrite <-?(assoc_L (++)).
Qed.

Lemma drain_inline msgs a :
  handle_all msgs (Inline, a) = (Inline, thread_drain (filter (λ m, forwarded m = true) msgs) a).
Proof.
  revert a. induction msgs as [|m msgs IH]; intros a; [done|].
  unfold handle_all in *. cbn [fold_left]. rewrite filter_cons.
  destruct m as [b|[info|ptr| |]]; simpl; by rewrite IH.
Qed.

Definition pool_done (ts : list PoolTask) (a : PyActor) : PyActor := fold_left (λ a t, run_task t a) ts a.

Lemma pool_one_step x y : pool_step 1 x y → (length (held (fst x)) <= 1)%nat →
  (length (held (fst y)) <= 1)%nat ∧
  pool_done (held (fst y) ++ pq (fst y)) (snd y) = pool_done (held (fst x) ++ pq (fst x)) (snd x).
Proof.
  intros Hs Hl. destruct Hs as [t q h a Hh|q h1 t h2 a]; cbn [fst snd held pq] in *.
  - destruct h; [|simpl in Hh; lia]. split; [simpl; lia|done].
  - rewrite length_app in Hl. destruct h1; [|simpl in Hl; lia]. destruct h2; [|simpl in Hl; lia]. split; [simpl; lia|done].
Qed.

Lemma limit_inv max strict l : reachable limit_init (limit_step max strict) l →
  gil_counter l = (live_threads l + length (entered l))%nat ∧
  (live_threads l + length (filter (λ n, (n < max)%nat) (entered l)) <= max)%nat.
Proof.
  revert l. apply reachable_invariant; [intros l ->; simpl; lia|].
  intros l l' [Hc Hm] Hs. destruct Hs as [n lv e|n lv e1 prev e2|n lv e]; cbn [gil_counter live_threads entered] in *.
  - rewrite filter_app, !length_app, filter_cons, filter_nil. cbn [length].
    assert (Hlen := length_filter (λ n, (n < max)%nat) e). destruct (decide (n < max)%nat); cbn [length]; lia.
  - rewrite filter_app, filter_cons, length_app in Hm. rewrite length_app in Hc. cbn [length] in Hc.
    unfold gil_decide. destruct (max <=? prev)%nat eqn:E.
    + apply Nat.leb_le in E. rewrite decide_False in Hm by lia.
      destruct strict; cbn [gil_counter live_threads entered]; rewrite filter_app, !length_app; lia.
    + apply Nat.leb_gt in E. rewrite decide_True in Hm by lia. cbn [length] in Hm.
      cbn [gil_counter live_threads entered]. rewrite filter_app, !length_app. lia.
  - lia.
Qed.

(** ** Properties *)

(** The Python predicate of a selective receive is asked about exactly the
    object the message would be delivered as, and anything but a true bool
    counts as no match. *)
Theorem matcher_sees_delivered_object matcher msg :
  run_python_matcher matcher msg = true ↔ matcher (message_to_py msg) = ABool true.
Proof.
  destruct msg as [b|[info|ptr| |]]; cbn [run_python_matcher message_to_py];
    destruct (matcher _) as [| |[]]; naive_solver.
Qed.

(** An actor on a dedicated thread makes the same calls, to the same
    callables, in the same order as one whose callable runs in place, whatever
    messages it receives. *)
Theorem dedicated_thread_equals_inline msgs a :
  ∃ q, handle_all msgs (Dedicated [], a) = (Dedicated q, a) ∧
    handle_all msgs (Inline, a) = (Inline, thread_drain q a).
Proof. rewrite handle_dedicated, drain_inline. by eexists. Qed.

(** On the shared pool this holds with one worker only.  With one, every
    run that empties the pool makes the calls of the tasks in order; with two or
    more, two messages of one actor can be run in the opposite order. *)
Theorem pool_order size ts a :
  (size = 1%nat → ∀ a', rtc (pool_step size) (mkGilPool ts [], a) (mkGilPool [] [], a') → a' = pool_done ts a) ∧
  ((2 <= size)%nat → ∀ b1 b2,
     rtc (pool_step size) (mkGilPool [Execute b1; Execute b2] [], a)
       (mkGilPool [] [], call_behavior b1 (call_behavior b2 a))).
Proof.
  split.
  - intros -> a' Hrun.
    assert (Hgen : ∀ x y, rtc (pool_step 1) x y → (length (held (fst x)) <= 1)%nat →
      pool_done (held (fst y) ++ pq (fst y)) (snd y) = pool_done (held (fst x) ++ pq (fst x)) (snd x)).
    { intros x y H. induction H as [x|x y z Hxy Hyz IH]; intros Hl; [done|].
      destruct (pool_one_step x y Hxy Hl) as [Hl' Heq]. by rewrite IH. }
    apply (Hgen _ _ Hrun). simpl. lia.
  - intros Hsz b1 b2.
    eapply rtc_l; [apply worker_takes; simpl; lia|].
    eapply rtc_l; [apply worker_takes; simpl; lia|].
    eapply rtc_l; [apply (worker_runs size [] [Execute b1] (Execute b2) [])|].
    eapply rtc_l; [apply (worker_runs size [] [] (Execute b1) [])|]. done.
Qed.

(** However spawns with [release_gil] interleave, at most [max] dedicated
    threads run, and the counter is the number of running threads plus that of
    the spawns between their increment and their decision. *)
Theorem gil_thread_limit max strict l : reachable limit_init (limit_step max strict) l →
  (live_threads l <= max)%nat ∧ gil_counter l = (live_threads l + length (entered l))%nat.
Proof. intros [H1 H2]%limit_inv. lia. Qed.

(** [send_buffer] gives up the buffer in every case: on a poisoned registry it
    panics; an unknown id is an exception that changes nothing; a known one leaves
    the registry, and the answer is true exactly when the actor runs and has not
    been stopped, in which case the buffer's content is the newest message of its
    mailbox.  When the answer is false the content is gone. *)
Theorem send_buffer_consumes {F S} `{PA : PidAllocator S} (rt : Runtime F S) pid id reg :
  reachable rt_init rt_step rt →
  let '(reg', rt', r) := send_buffer pid id reg rt in
  if buf_poisoned reg then reg' = reg ∧ rt' = rt ∧ r = Panicked
  else match inner reg !! id with
  | None => reg' = reg ∧ rt' = rt ∧ r = Value None
  | Some v =>
      inner reg' !! id = None ∧
      r = Value (Some (bool_decide (pid ∈ mailboxes rt ∧ is_Some (actors rt !! pid)))) ∧
      (r = Value (Some true) → ∃ m m', boxes rt !! pid = Some m ∧ boxes rt' !! pid = Some m' ∧
         abs m' = mkAbs (a_sys (abs m)) (a_user (abs m) ++ [v])) ∧
      (r = Value (Some false) → ∀ q, (abs <$> (boxes rt' !! q)) = (abs <$> (boxes rt !! q)))
  end.
Proof.
  intros Hi%rt_reachable_inv. unfold send_buffer. rewrite buf_take_eq. destruct (buf_poisoned reg) eqn:Ep; [done|].
  destruct (inner reg !! id) as [v|] eqn:Ev.
  - assert (Hs := rt_send_spec rt pid (User v) Hi). destruct (rt_send pid (User v) rt) as [rt' r].
    destruct Hs as (_ & Hother & Hs). cbn [inner]. rewrite lookup_delete_eq.
    split; [done|]. case_decide as Hd; destruct Hs as [-> Hs]; cbn [is_ok].
    + rewrite bool_decide_true by done. split_and!; [done| |done]. intros _.
      destruct Hs as (m & m' & Hm & Hm' & Ha). exists m, m'. split_and!; [done|done|].
      rewrite Ha. cbn. by rewrite app_nil_r.
    + rewrite bool_decide_false by done. split_and!; [done|done|]. intros _ q.
      destruct (decide (q = pid)) as [->|Hne]; [done|]. by rewrite Hother.
  - split_and!; try done. destruct reg as [i n b]. cbn in *. subst b. by rewrite delete_id.
Qed.

(** ** Instances *)
Lemma gil_thread_limit_witness :
  (live_threads (mkLimit 2 1 [1%nat]) <= 1)%nat ∧
  gil_counter (mkLimit 2 1 [1%nat]) = (live_threads (mkLimit 2 1 [1%nat]) + length (entered (mkLimit 2 1 [1%nat])))%nat.
Proof.
  apply (gil_thread_limit 1 true (mkLimit 2 1 [1%nat])).
  apply (reach_step _ _ (mkLimit 1 1 [])); [|apply (spawn_enters 1 true 1 1 [])].
  apply (reach_step _ _ (mkLimit 1 0 [0%nat])); [|apply (spawn_decides 1 true 1 0 [] 0 [])].
  apply (reach_step _ _ (mkLimit 0 0 [])); [by apply reach_init|apply (spawn_enters 1 true 0 0 [])].
Defined.

Definition demo_buffers : BufferRegistry := mkBuffers {[ 1 := [x61] ]} 2 false.

Lemma send_buffer_consumes_witness :
  inner demo_buffers !! 1 = Some [x61] ∧
  let '(reg', rt', r) := send_buffer Demo.a 1 demo_buffers Demo.ended in
  if buf_poisoned demo_buffers then reg' = demo_buffers ∧ rt' = Demo.ended ∧ r = Panicked
  else match inner demo_buffers !! 1 with
  | None => reg' = demo_buffers ∧ rt' = Demo.ended ∧ r = Value None
  | Some v =>
      inner reg' !! 1 = None ∧
      r = Value (Some (bool_decide (Demo.a ∈ mailboxes Demo.ended ∧ is_Some (actors Demo.ended !! Demo.a)))) ∧
      (r = Value (Some true) → ∃ m m', boxes Demo.ended !! Demo.a = Some m ∧ boxes rt' !! Demo.a = Some m' ∧
         abs m' = mkAbs (a_sys (abs m)) (a_user (abs m) ++ [v])) ∧
      (r = Value (Some false) → ∀ q, (abs <$> (boxes rt' !! q)) = (abs <$> (boxes Demo.ended !! q)))
  end.
Proof.
  split; [reflexivity|].
  apply (send_buffer_consumes Demo.ended Demo.a 1 demo_buffers). apply demo_ended_reachable.
Defined.
