(* ===== verification/PyApi.v ===== *)
(** * The Python API ([src/src/py.rs])

    What a Python program can do: the methods of [PyRuntime] and the functions
    of the module, one constructor per method, grouped as in the source; each
    [.._exec] is the body of the methods of its group.  The state is the runtime
    with its timers, and the buffer registry.

    A Python program is then a transition system, [py_step]: its calls, and
    everything that goes on behind them - actors, clean-ups, restarts, timers,
    the network's sends and stops.  The file shows that no such run leaves the
    invariants of the components, and that every call returns a value of its
    type.  Arguments are in the range of their Rust type, which the extraction of
    arguments checks before the method runs.  The calls of the network
    ([listen], [send_remote], [monitor_remote], [resolve_remote], [is_node_up])
    are in [NetNode], blocking calls in [Waiting], push actors in [PyMembrane] and
    [PyActors]. *)
From S2P Require Import Prelude Pid Mailbox Registry Buffer Supervisor Runtime RuntimeInv Lifecycle Interface Timers PyMembrane.
From Stdlib Require Import Strings.Byte.

(** ** Values *)
Inductive py_value :=
| VNone
| VBool (b : bool)
| VInt (z : Z)
| VOptInt (o : option Z)
| VInts (l : list Z)
| VPairs (l : list (string * Z))
| VMsgs (l : list PyObj).

(** What a call raises: [PyValueError], [PyRuntimeError], the error of a Python
    factory, or the panic of a Rust call. *)
Inductive py_exn := ValueError (msg : string) | RuntimeError (msg : string) | FactoryError (msg : string) | PanicException.

Abbreviation py_result := (result py_value py_exn).

Section py_api.
Context {F S : Type} `{PA : PidAllocator S}.

Record PyState := mkPyState { py_sys : TimerSys (R := Runtime F S); py_buffers : BufferRegistry }.

Definition py_node (s : PyState) : Runtime F S := t_node (py_sys s).

Definition set_node (rt : Runtime F S) (y : TimerSys (R := Runtime F S)) : TimerSys :=
  mkTimers rt (timers y) (timer_counter y) (t_tasks y) (clock y) (fired y).

(** A spawn whose allocator panics is an exception. *)
Definition spawned (r : option (Runtime F S * Pid)) (rt : Runtime F S) : Runtime F S * py_result :=
  match r with
  | Some (rt', pid) => (rt', Ok (VInt pid))
  | None => (rt, Err PanicException)
  end.

(** ** Names and paths *)
Inductive name_call :=
| PyRegister (name : string) (pid : Pid)
| PyUnregister (name : string)
| PyResolve (name : string)
| PyWhereis (name : string)
| PyRegisterPath (path : string) (pid : Pid)
| PyUnregisterPath (path : string)
| PyWhereisPath (path : string)
| PyListChildren (prefix : string)
| PyListChildrenDirect (prefix : string)
| PyWatchPath (prefix : string)
| PySpawnWithPathObserved (budget : Z) (path : string)
| PyCreatePathSupervisor (path : string)
| PyRemovePathSupervisor (path : string)
| PyPathSupervisorWatch (path : string) (pid : Pid)
| PyPathSupervisorChildren (path : string).

Definition name_exec (c : name_call) (rt : Runtime F S) : Runtime F S * py_result :=
  match c with
  | PyRegister name pid => (rt_register name pid rt, Ok VNone)
  | PyUnregister name => (rt_unregister name rt, Ok VNone)
  | PyResolve name => (rt, Ok (VOptInt (rt_resolve name rt)))
  | PyWhereis name => (rt, Ok (VOptInt (rt_resolve name rt)))
  | PyRegisterPath path pid => (register_path path pid rt, Ok VNone)
  | PyUnregisterPath path => (unregister_path path rt, Ok VNone)
  | PyWhereisPath path => (rt, Ok (VOptInt (whereis_path path rt)))
  | PyListChildren prefix => (rt, Ok (VPairs (rt_list_children prefix rt)))
  | PyListChildrenDirect prefix => (rt, Ok (VPairs (list_children_direct prefix rt)))
  | PyWatchPath prefix => (watch_path prefix rt, Ok VNone)
  | PySpawnWithPathObserved budget path => spawned (spawn_with_path_observed budget path rt) rt
  | PyCreatePathSupervisor path => (create_path_supervisor path rt, Ok VNone)
  | PyRemovePathSupervisor path => (remove_path_supervisor path rt, Ok VNone)
  | PyPathSupervisorWatch path pid => (path_supervisor_watch path pid rt, Ok VNone)
  | PyPathSupervisorChildren path => (rt, Ok (VInts (path_supervisor_children path rt)))
  end.

(** The functions of the module, each on the runtime it is given. *)
Inductive module_fn :=
| fn_register_path (path : string) (pid : Pid)
| fn_unregister_path (path : string)
| fn_whereis_path (path : string)
| fn_list_children (prefix : string)
| fn_spawn_with_path_observed (budget : Z) (path : string)
| fn_list_children_direct (prefix : string)
| fn_watch_path (prefix : string)
| fn_create_path_supervisor (path : string)
| fn_remove_path_supervisor (path : string)
| fn_path_supervisor_watch (path : string) (pid : Pid)
| fn_path_supervisor_children (path : string).

Definition module_exec (c : module_fn) (rt : Runtime F S) : Runtime F S * py_result :=
  match c with
  | fn_register_path path pid => (register_path path pid rt, Ok VNone)
  | fn_unregister_path path => (unregister_path path rt, Ok VNone)
  | fn_whereis_path path => (rt, Ok (VOptInt (whereis_path path rt)))
  | fn_list_children prefix => (rt, Ok (VPairs (rt_list_children prefix rt)))
  | fn_spawn_with_path_observed budget path => spawned (spawn_with_path_observed budget path rt) rt
  | fn_list_children_direct prefix => (rt, Ok (VPairs (list_children_direct prefix rt)))
  | fn_watch_path prefix => (watch_path prefix rt, Ok VNone)
  | fn_create_path_supervisor path => (create_path_supervisor path rt, Ok VNone)
  | fn_remove_path_supervisor path => (remove_path_supervisor path rt, Ok VNone)
  | fn_path_supervisor_watch path pid => (path_supervisor_watch path pid rt, Ok VNone)
  | fn_path_supervisor_children path => (rt, Ok (VInts (path_supervisor_children path rt)))
  end.

(** ** Limits, actors, buffers *)
Inductive limit_call :=
| PySetReleaseGilLimits (max_threads pool_size : Z)
| PySetReleaseGilStrict (strict : bool).

Definition limit_exec (c : limit_call) (rt : Runtime F S) : Runtime F S * py_result :=
  match c with
  | PySetReleaseGilLimits m p => (set_config (set_release_gil_limits m p (config rt)) rt, Ok VNone)
  | PySetReleaseGilStrict b => (set_config (set_release_gil_strict b (config rt)) rt, Ok VNone)
  end.

Inductive actor_call :=
| PyStop (pid : Pid)
| PyHotSwap (pid : Pid) (new_handler : Z)
| PySpawnObservedHandler (budget : Z)
| PySendBuffer (pid : Pid) (buffer_id : BufferId).

Definition actor_exec (c : actor_call) (reg : BufferRegistry) (rt : Runtime F S)
  : BufferRegistry * Runtime F S * py_result :=
  match c with
  | PyStop pid => (reg, stop pid rt, Ok VNone)
  | PyHotSwap pid ptr => (reg, hot_swap pid ptr rt, Ok VNone)
  | PySpawnObservedHandler budget => let (rt', r) := spawned (spawn_observed_handler budget rt) rt in (reg, rt', r)
  | PySendBuffer pid id =>
      match send_buffer pid id reg rt with
      | (reg', rt', Value (Some b)) => (reg', rt', Ok (VBool b))
      | (reg', rt', Value None) => (reg', rt', Err (ValueError "invalid buffer id or already taken"))
      | (reg', rt', Panicked) => (reg', rt', Err PanicException)
      end
  end.

(** [allocate_buffer] on the registry; [mv] and [cap] say whether the
    interpreter could make the memoryview and the capsule.  Of the tuple it
    answers only the id is kept here; [SharedBuffer] has the memory. *)
Inductive buffer_call := PyAllocateBuffer (size : Z) (mv cap : bool).

Definition buffer_exec (c : buffer_call) (reg : BufferRegistry) : BufferRegistry * py_result :=
  match c with
  | PyAllocateBuffer size mv cap =>
      match buf_allocate reg size with
      | (reg1, Panicked) => (reg1, Err PanicException)
      | (reg1, Value id) =>
          let failed msg :=
            match buf_free reg1 id with
            | (reg2, Value _) => (reg2, Err (RuntimeError msg))
            | (reg2, Panicked) => (reg2, Err PanicException)
            end in
          match ptr_len reg1 id with
          | Panicked => (reg1, Err PanicException)
          | Value None => (reg1, Err (RuntimeError "failed to allocate"))
          | Value (Some _) =>
              if mv then (if cap then (reg1, Ok (VInt id)) else failed "failed to create capsule"%string)
              else failed "failed to create memoryview"%string
          end
      end
  end.

(** ** Messages and timers *)
Inductive message_call :=
| PySpawnWithMailbox (budget : Z)
| PySend (pid : Pid) (data : Bytes)
| PySendAfter (pid : Pid) (delay_ms : Z) (data : Bytes)
| PySendInterval (pid : Pid) (interval_ms : Z) (data : Bytes)
| PyCancelTimer (timer_id : Z).

Definition message_exec (c : message_call) (y : TimerSys) : TimerSys * py_result :=
  match c with
  | PySpawnWithMailbox budget =>
      let (rt', r) := spawned (spawn_actor_with_budget budget (t_node y)) (t_node y) in (set_node rt' y, r)
  | PySend pid data =>
      let (rt', r) := rt_send pid (User data) (t_node y) in (set_node rt' y, Ok (VBool (is_ok r)))
  | PySendAfter pid d data => let (y', id) := send_after pid d (User data) y in (y', Ok (VInt id))
  | PySendInterval pid p data => let (y', id) := send_interval pid p (User data) y in (y', Ok (VInt id))
  | PyCancelTimer id => let (y', b) := cancel_timer id y in (y', Ok (VBool b))
  end.

(** ** Questions and links *)
Inductive query_call :=
| PyGetMessages (pid : Pid)
| PyIsAlive (pid : Pid)
| PyMailboxSize (pid : Pid)
| PyChildrenCount
| PyChildPids
| PyLink (a b : Pid)
| PyUnlink (a b : Pid).

Definition query_exec (c : query_call) (rt : Runtime F S) : Runtime F S * py_result :=
  match c with
  | PyGetMessages pid =>
      (rt, Ok (VMsgs match get_observed_messages pid rt with Some v => message_to_py <$> v | None => [] end))
  | PyIsAlive pid => (rt, Ok (VBool (is_alive pid rt)))
  | PyMailboxSize pid => (rt, Ok (VOptInt (mailbox_size pid rt)))
  | PyChildrenCount => (rt, Ok (VInt (Z.of_nat (children_count (supervisor rt)))))
  | PyChildPids => (rt, Ok (VInts (child_pids (supervisor rt))))
  | PyLink a b => (rt_link a b rt, Ok VNone)
  | PyUnlink a b => (rt_unlink a b rt, Ok VNone)
  end.

(** ** Supervision *)

(** [path_supervise_with_factory]: as [supervise_with_factory], on the
    supervisor of the path, which is created when missing. *)
Definition py_path_supervise (path : string) (pid : Pid) (f : Factory F) (first_call : result Pid string)
    (strategy : string) (rt : Runtime F S) : option (Runtime F S) :=
  match parse_strategy strategy with
  | Some strat =>
      match first_call with
      | Ok _initial_pid => Some (path_supervise_with_factory path pid f strat rt)
      | Err _ => None
      end
  | None => None
  end.

Inductive supervise_call :=
| PyWatch (pid : Pid) (strategy : string)
| PySuperviseWithFactory (pid : Pid) (f : F) (first_call : result Pid string) (strategy : string)
| PyPathSuperviseWithFactory (path : string) (pid : Pid) (f : F) (first_call : result Pid string) (strategy : string).

(** The exception of a refused strategy or of the first call of a factory. *)
Definition supervise_error (strategy : string) (first_call : result Pid string) : py_exn :=
  match parse_strategy strategy, first_call with
  | Some _, Err e => FactoryError e
  | _, _ => ValueError "invalid strategy"
  end.

(** [first_call] is what the factory answers or raises when it is tried out;
    what it has done by then - actors it spawned - are calls of its own. *)
Definition supervise_exec (c : supervise_call) (rt : Runtime F S) : Runtime F S * py_result :=
  match c with
  | PyWatch pid strategy =>
      match py_watch pid strategy rt with
      | Some rt' => (rt', Ok VNone)
      | None => (rt, Err (ValueError "invalid strategy"))
      end
  | PySuperviseWithFactory pid f first strategy =>
      match supervise_with_factory pid (UserFactory f) first strategy rt with
      | Some rt' => (rt', Ok VNone)
      | None => (rt, Err (supervise_error strategy first))
      end
  | PyPathSuperviseWithFactory path pid f first strategy =>
      match py_path_supervise path pid (UserFactory f) first strategy rt with
      | Some rt' => (rt', Ok VNone)
      | None => (rt, Err (supervise_error strategy first))
      end
  end.

(** ** Calls *)
Inductive py_call :=
| CName (c : name_call)
| CModule (c : module_fn)
| CLimit (c : limit_call)
| CActor (c : actor_call)
| CBuffer (c : buffer_call)
| CMessage (c : message_call)
| CQuery (c : query_call)
| CSupervise (c : supervise_call).

Definition on_node (f : Runtime F S → Runtime F S * py_result) (s : PyState) : PyState * py_result :=
  let (rt', r) := f (py_node s) in (mkPyState (set_node rt' (py_sys s)) (py_buffers s), r).

Definition py_exec (c : py_call) (s : PyState) : PyState * py_result :=
  match c with
  | CName c => on_node (name_exec c) s
  | CModule c => on_node (module_exec c) s
  | CLimit c => on_node (limit_exec c) s
  | CActor c =>
      let '(reg', rt', r) := actor_exec c (py_buffers s) (py_node s) in
      (mkPyState (set_node rt' (py_sys s)) reg', r)
  | CBuffer c => let (reg', r) := buffer_exec c (py_buffers s) in (mkPyState (py_sys s) reg', r)
  | CMessage c => let (y', r) := message_exec c (py_sys s) in (mkPyState y' (py_buffers s), r)
  | CQuery c => on_node (query_exec c) s
  | CSupervise c => on_node (supervise_exec c) s
  end.

(** The PIDs a call is given, and the answer of a factory. *)
Definition call_pids (c : py_call) : list Pid :=
  match c with
  | CName (PyRegister _ pid) | CName (PyRegisterPath _ pid) | CName (PyPathSupervisorWatch _ pid)
  | CModule (fn_register_path _ pid) | CModule (fn_path_supervisor_watch _ pid)
  | CActor (PyStop pid) | CActor (PyHotSwap pid _) | CActor (PySendBuffer pid _)
  | CMessage (PySend pid _) | CMessage (PySendAfter pid _ _) | CMessage (PySendInterval pid _ _)
  | CQuery (PyGetMessages pid) | CQuery (PyIsAlive pid) | CQuery (PyMailboxSize pid)
  | CSupervise (PyWatch pid _) | CSupervise (PySuperviseWithFactory pid _ _ _)
  | CSupervise (PyPathSuperviseWithFactory _ pid _ _ _) => [pid]
  | CQuery (PyLink a b) | CQuery (PyUnlink a b) => [a; b]
  | _ => []
  end.

Definition call_ok (c : py_call) : Prop := Forall (fits 64) (call_pids c).

(** ** What goes on behind the calls *)
Inductive behind : Runtime F S → Runtime F S → Prop :=
| bh_observed p rt : actors rt !! p = Some Observed → behind rt (observed_turn p rt)
| bh_handler p pn rt : behind rt (fst (handler_turn p pn rt))
| bh_recv p m m' rt : actors rt !! p = Some Raw → boxes rt !! p = Some m → recv_call m m' →
    behind rt (set_boxes (<[p := m']> (boxes rt)) rt)
| bh_done p res rt : actors rt !! p = Some Raw → behind rt (actor_done p res rt)
| bh_take p f rt : behind rt (fst (take_observed_message_matching p f rt))
| bh_exit i rt : behind rt (exits_turn i rt)
| bh_restart i r rt : (∀ n, r = Ok n → fits 64 n) → behind rt (restart_turn i r rt)
| bh_send p msg rt : behind rt (fst (rt_send p msg rt))
| bh_stop p rt : behind rt (stop p rt)
| bh_notify id p rt : behind rt (rt_notify id p rt).

Inductive py_step : PyState → PyState → Prop :=
| py_calls c s : call_ok c → pa_room (slab (py_node s)) → timer_counter (py_sys s) + 1 < 2 ^ 64 →
    next (py_buffers s) + 1 < 2 ^ 64 → py_step s (fst (py_exec c s))
| py_behind rt s : behind (py_node s) rt → py_step s (mkPyState (set_node rt (py_sys s)) (py_buffers s))
| py_fire id s : py_step s (mkPyState (timer_fires id (py_sys s)) (py_buffers s))
| py_see id s : py_step s (mkPyState (timer_sees_cancel id (py_sys s)) (py_buffers s))
| py_end id s : py_step s (mkPyState (timer_ends id (py_sys s)) (py_buffers s))
| py_time d s : 0 <= d → py_step s (mkPyState (advance d (py_sys s)) (py_buffers s))
| py_free id s : buf_poisoned (py_buffers s) = false →
    py_step s (mkPyState (py_sys s) (fst (buf_free (py_buffers s) id))).

Definition py_init (s : PyState) : Prop :=
  s = mkPyState (mkTimers runtime_new ∅ 0 ∅ 0 []) buffers_new.

(** ** Types *)
Inductive py_type := TNone | TBool | TPid | TCount | TOptPid | TOptCount | TPids | TPairs | TMsgs.

Definition value_ok (t : py_type) (v : py_value) : Prop :=
  match t, v with
  | TNone, VNone | TBool, VBool _ | TMsgs, VMsgs _ | TOptCount, VOptInt _ => True
  | TPid, VInt z => fits 64 z
  | TCount, VInt z => 0 <= z
  | TOptPid, VOptInt o => ∀ z, o = Some z → fits 64 z
  | TPids, VInts l => Forall (fits 64) l
  | TPairs, VPairs l => Forall (λ kv, fits 64 (snd kv)) l
  | _, _ => False
  end.

Definition call_type (c : py_call) : py_type :=
  match c with
  | CName (PyResolve _) | CName (PyWhereis _) | CName (PyWhereisPath _) | CModule (fn_whereis_path _) => TOptPid
  | CName (PyListChildren _) | CName (PyListChildrenDirect _)
  | CModule (fn_list_children _) | CModule (fn_list_children_direct _) => TPairs
  | CName (PySpawnWithPathObserved _ _) | CModule (fn_spawn_with_path_observed _ _)
  | CActor (PySpawnObservedHandler _) | CMessage (PySpawnWithMailbox _)
  | CMessage (PySendAfter _ _ _) | CMessage (PySendInterval _ _ _) | CBuffer _ => TPid
  | CName (PyPathSupervisorChildren _) | CModule (fn_path_supervisor_children _) | CQuery PyChildPids => TPids
  | CActor (PySendBuffer _ _) | CMessage (PySend _ _) | CMessage (PyCancelTimer _) | CQuery (PyIsAlive _) => TBool
  | CQuery (PyGetMessages _) => TMsgs
  | CQuery (PyMailboxSize _) => TOptCount
  | CQuery PyChildrenCount => TCount
  | _ => TNone
  end.
End py_api.

Arguments PyState : clear implicits.
Arguments supervise_call : clear implicits.
Arguments py_call : clear implicits.

Section py_api_lemmas.
Context {F S : Type} `{PA : PidAllocator S}.
Implicit Types (rt : Runtime F S) (s : PyState F S).

(** ** PIDs in range *)
Definition children_fit (u : Supervisor F) : Prop := ∀ p, is_Some (children u !! p) → fits 64 p.

(** Every PID the runtime can name is a [u64]. *)
Record pids_fit rt : Prop := {
  pf_names : ∀ n p, registry rt !! n = Some p → fits 64 p;
  pf_children : ∀ id, children_fit (sup_of id rt)
}.

(** A step of the runtime that brings in no PID out of range. *)
Inductive fit_step : Runtime F S → Runtime F S → Prop :=
| ft_frame rt rt' : rt_step rt rt' → registry rt' = registry rt → (∀ id, sup_of id rt' = sup_of id rt) → fit_step rt rt'
| ft_register n p rt : fits 64 p → fit_step rt (rt_register n p rt)
| ft_unregister n rt : fit_step rt (rt_unregister n rt)
| ft_sup id f rt : sup_call f → (∀ u, children_fit u → children_fit (f u)) → fit_step rt (on_sup id f rt)
| ft_path path rt : fit_step rt (create_path_supervisor path rt)
| ft_behind rt rt' : behind rt rt' → fit_step rt rt'.

Lemma behind_rt_step rt rt' : behind rt rt' → rt_step rt rt'.
Proof. intros H. destruct H; by econstructor. Qed.

Lemma fit_step_rt_step rt rt' : fit_step rt rt' → rt_step rt rt'.
Proof. intros H. destruct H; [done|by econstructor..|by apply behind_rt_step]. Qed.

(** ** Children *)
Lemma children_fit_new : children_fit supervisor_new.
Proof. intros p [x Hx]. simpl in Hx. by rewrite lookup_empty in Hx. Qed.

Lemma children_fit_insert p sp u l e r : fits 64 p → children_fit u → children_fit (mkSup (<[p := sp]> (children u)) e l r).
Proof.
  intros Hp Hu q [x Hx]. simpl in Hx. destruct (decide (q = p)) as [->|Hne]; [done|].
  rewrite lookup_insert_ne in Hx by done. apply Hu. by exists x.
Qed.

Lemma children_fit_delete p u e l r : children_fit u → children_fit (mkSup (delete p (children u)) e l r).
Proof. intros Hu q [x Hx]. simpl in Hx. apply lookup_delete_Some in Hx as [_ Hx]. apply Hu. by exists x. Qed.

Lemma children_fit_same u v : children v = children u → children_fit u → children_fit v.
Proof. unfold children_fit. by intros ->. Qed.

Lemma fit_watch p u : fits 64 p → children_fit u → children_fit (watch p u).
Proof. intros Hp Hu. by apply (children_fit_insert p _ u). Qed.

Lemma fit_add_child p sp u : fits 64 p → children_fit u → children_fit (add_child p sp u).
Proof. intros Hp Hu. by apply (children_fit_insert p _ u). Qed.

Lemma notify_exit_children p (u : Supervisor F) : children (fst (notify_exit p u)) = children u.
Proof.
  unfold notify_exit. case_bool_decide; [done|]. cbn [children set_restarting].
  destruct (children u !! p) as [sp|]; [|done]. by destruct (strategy sp).
Qed.

Lemma fit_restart_attempt t r (u : Supervisor F) : (∀ n, r = Ok n → fits 64 n) →
  children_fit u → children_fit (fst (restart_attempt t r u)).
Proof.
  intros Hr Hu. unfold restart_attempt. destruct r as [n|err].
  - intros q [x Hx]. simpl in Hx. apply lookup_delete_Some in Hx as [_ Hx].
    destruct (decide (q = n)) as [->|Hne]; [by apply Hr|]. rewrite lookup_insert_ne in Hx by done. apply Hu. by exists x.
  - destruct (max_attempts <=? attempts t + 1); [|done]. by apply (children_fit_delete (orig_pid t) u).
Qed.

(** ** Steps keep PIDs in range *)
Lemma fit_frame rt rt' : registry rt' = registry rt → (∀ id, children (sup_of id rt') = children (sup_of id rt)) →
  pids_fit rt → pids_fit rt'.
Proof.
  intros Hr Hs [H1 H2]. split; [by rewrite Hr|]. intros id. by apply (children_fit_same (sup_of id rt)).
Qed.

Lemma fit_heap_insert id u rt rt' : registry rt' = registry rt → sup_heap rt' = <[id := u]> (sup_heap rt) →
  children_fit u → pids_fit rt → pids_fit rt'.
Proof.
  intros Hr Hh Hu [H1 H2]. split; [by rewrite Hr|]. intros j. rewrite (sup_of_heap_insert id u (sup_heap rt)) by done.
  destruct (decide (j = id)); [done|apply H2].
Qed.

Lemma fit_rt_notify id p rt : pids_fit rt → pids_fit (rt_notify id p rt).
Proof.
  intros Hf. unfold rt_notify. assert (H := notify_exit_children p (sup_of id rt)).
  destruct (notify_exit p (sup_of id rt)) as [u new]. simpl in H.
  apply (fit_heap_insert id u rt); [done|done| |done]. apply (children_fit_same (sup_of id rt)); [done|apply Hf].
Qed.

Lemma fit_exit_turn e rt : pids_fit rt → pids_fit (fst (exit_turn e rt)).
Proof.
  intros Hf. unfold exit_turn. destruct (ex_stage e) as [| |[|id rest]| | |[|lp rest]|]; simpl; try done;
    try by apply (fit_frame rt).
  - unfold stop. case_decide; by apply (fit_frame rt).
  - by apply fit_rt_notify.
  - split_match; [by apply fit_rt_notify|done].
  - assert (Hc : children (fst (linked_pids (ex_pid e) (sup_of 0 rt))) = children (sup_of 0 rt)) by by rewrite linked_pids_eq.
    destruct (linked_pids (ex_pid e) (sup_of 0 rt)) as [u peers]. simpl in Hc.
    apply (fit_heap_insert 0 u rt); [done|done| |done]. apply (children_fit_same (sup_of 0 rt)); [done|apply Hf].
  - unfold rt_send. repeat split_match; by apply (fit_frame rt).
Qed.

Lemma actor_recv_same p rt : registry (fst (actor_recv p rt)) = registry rt ∧ ∀ id, sup_of id (fst (actor_recv p rt)) = sup_of id rt.
Proof. split; [|intros id; apply actor_recv_sup]. unfold actor_recv. destruct (boxes rt !! p) as [m|]; [|done]. by destruct (recv m). Qed.

Lemma fit_behind rt rt' : behind rt rt' → pids_fit rt → pids_fit rt'.
Proof.
  intros H Hf. destruct H as [p rt _|p pn rt|p m m' rt _ _ _|p res rt _|p f rt|i rt|i r rt Hr|p msg rt|p rt|id p rt];
    try by apply (fit_frame rt).
  - destruct (actor_recv_same p rt) as [E1 E2]. unfold observed_turn. destruct (actor_recv p rt) as [rt' [[msg|]|]];
      (apply (fit_frame rt); [done|intros id; simpl in E2; by rewrite <-E2|done]).
  - destruct (actor_recv_same p rt) as [E1 E2]. unfold handler_turn. destruct (actors rt !! p) as [[]|]; try done.
    destruct (actor_recv p rt) as [rt' [[msg|]|]]; [destruct pn| |];
      (apply (fit_frame rt); [done|intros id; simpl in E2; by rewrite <-E2|done]).
  - unfold take_observed_message_matching. repeat split_match; by apply (fit_frame rt).
  - unfold exits_turn. destruct (exits rt !! i) as [e|]; [|done]. assert (H := fit_exit_turn e rt Hf).
    destruct (exit_turn e rt) as [rt' e']. by apply (fit_frame rt').
  - unfold restart_turn. destruct (restarts rt !! i) as [[id t]|]; [|done].
    assert (H := fit_restart_attempt t r (sup_of id rt) Hr (pf_children _ Hf id)).
    destruct (restart_attempt t r (sup_of id rt)) as [u next]. simpl in H.
    by destruct next; apply (fit_heap_insert id u rt).
  - unfold rt_send. repeat split_match; by apply (fit_frame rt).
  - unfold stop. case_decide; by apply (fit_frame rt).
  - by apply fit_rt_notify.
Qed.

Lemma fit_step_fit rt rt' : fit_step rt rt' → pids_fit rt → pids_fit rt'.
Proof.
  intros H Hf. destruct H as [rt rt' _ H1 H2|n p rt Hp|n rt|id f rt _ Hu|path rt|rt rt' H].
  - apply (fit_frame rt); [done|intros id; by rewrite H2|done].
  - split; [|apply Hf]. intros m q Hq. simpl in Hq. unfold register in Hq.
    destruct (decide (m = n)) as [->|Hne]; [rewrite lookup_insert_eq in Hq; congruence|].
    rewrite lookup_insert_ne in Hq by done. by eapply pf_names.
  - split; [|apply Hf]. intros m q Hq. simpl in Hq. unfold unregister in Hq. apply lookup_delete_Some in Hq as [_ Hq]. by eapply pf_names.
  - apply (fit_heap_insert id (f (sup_of id rt)) rt); [done|done|apply Hu, Hf|done].
  - unfold create_path_supervisor, path_entry. destruct (path_supervisors rt !! path); [done|].
    apply (fit_heap_insert (sup_next rt) supervisor_new rt); [done|done|apply children_fit_new|done].
  - by apply (fit_behind rt).
Qed.

(** ** Calls are steps *)
Lemma frame_sup rt rt' : rt_step rt rt' → registry rt' = registry rt → sup_heap rt' = sup_heap rt → fit_step rt rt'.
Proof. intros H Hr Hs. apply ft_frame; [done|done|]. intros id. unfold sup_of. by rewrite Hs. Qed.

Lemma spawn_frame k rt rt' p : spawn k rt = Some (rt', p) → registry rt' = registry rt ∧ sup_heap rt' = sup_heap rt.
Proof. unfold spawn. destruct (pa_alloc (slab rt)) as [[sl q]|]; [|done]. intros [= <- <-]. by destruct k. Qed.

Lemma spawn_fit_step k rt rt' p : pa_room (slab rt) → spawn k rt = Some (rt', p) → fit_step rt rt'.
Proof. intros Hr Hs. destruct (spawn_frame _ _ _ _ Hs). apply frame_sup; [by eapply st_spawn|done|done]. Qed.

Lemma spawned_steps k rt : pa_room (slab rt) → rtc fit_step rt (fst (spawned (spawn k rt) rt)).
Proof.
  intros Hr. unfold spawned. destruct (spawn k rt) as [[rt' p]|] eqn:E; [|done].
  apply rtc_once. by eapply spawn_fit_step.
Qed.

Lemma watch_fit_step id p rt : fits 64 p → fit_step rt (on_sup id (watch p) rt).
Proof. intros Hp. apply ft_sup; [constructor|]. intros u. by apply fit_watch. Qed.

Lemma listed_registered names prefix k p : (k, p) ∈ list_direct_children names prefix → names !! k = Some p.
Proof.
  unfold list_direct_children. intros H%list_elem_of_In%List.filter_In. destruct H as [H _].
  by apply list_elem_of_In, elem_of_map_to_list in H.
Qed.

Lemma listed_registered_all names prefix k p : (k, p) ∈ list_children names prefix → names !! k = Some p.
Proof.
  unfold list_children. intros H%list_elem_of_In%List.filter_In. destruct H as [H _].
  by apply list_elem_of_In, elem_of_map_to_list in H.
Qed.

Lemma watch_path_steps prefix rt : pids_fit rt → rtc fit_step rt (watch_path prefix rt).
Proof.
  intros Hf. unfold watch_path.
  assert (Hl : Forall (λ kv, fits 64 (snd kv)) (list_children_direct prefix rt)).
  { apply Forall_forall. intros [k p] Hin. apply listed_registered in Hin. by eapply pf_names. }
  clear Hf. revert Hl. generalize (list_children_direct prefix rt). intros l. revert rt.
  induction l as [|kv l IH]; intros rt Hl; [done|]. apply Forall_cons in Hl as [Hkv Hl]. simpl.
  eapply rtc_l; [by apply (watch_fit_step 0 (snd kv))|]. by apply IH.
Qed.

Lemma spawn_path_steps budget path rt : pids_fit rt → rt_inv rt → pa_room (slab rt) →
  rtc fit_step rt (fst (spawned (spawn_with_path_observed budget path rt) rt)).
Proof.
  intros Hf Hi Hr. unfold spawn_with_path_observed, spawn_observed_handler.
  destruct (spawn Observed rt) as [[rt' p]|] eqn:E; [|done]. simpl.
  eapply rtc_l; [by eapply spawn_fit_step|]. apply rtc_once, ft_register.
  assert (Hi' : rt_inv rt') by (by eapply inv_spawn). apply (inv_fits _ Hi'). left.
  unfold spawn in E. destruct (pa_alloc (slab rt)) as [[sl q]|]; [|done]. injection E as <- <-. simpl.
  rewrite lookup_insert_eq. by eexists.
Qed.

Lemma path_watch_steps path p rt : fits 64 p → rtc fit_step rt (path_supervisor_watch path p rt).
Proof. intros Hp. unfold path_supervisor_watch. apply rtc_once. destruct (path_supervisors rt !! path); by apply watch_fit_step. Qed.

Lemma name_steps c rt : pids_fit rt → rt_inv rt → pa_room (slab rt) → call_ok (F := F) (CName c) →
  rtc fit_step rt (fst (name_exec c rt)).
Proof.
  intros Hf Hi Hr Hok. unfold call_ok in Hok. destruct c; cbn [name_exec fst call_pids] in *; try done;
    try apply Forall_cons in Hok as [Hp _].
  - by apply rtc_once, ft_register.
  - by apply rtc_once, ft_unregister.
  - by apply rtc_once, ft_register.
  - by apply rtc_once, ft_unregister.
  - by apply watch_path_steps.
  - by apply spawn_path_steps.
  - by apply rtc_once, ft_path.
  - apply rtc_once, frame_sup; [apply st_remove_path|done|done].
  - by apply path_watch_steps.
Qed.

Lemma module_steps c rt : pids_fit rt → rt_inv rt → pa_room (slab rt) → call_ok (F := F) (CModule c) →
  rtc fit_step rt (fst (module_exec c rt)).
Proof.
  intros Hf Hi Hr Hok.
  destruct c as [path p|path|path|prefix|b path|prefix|prefix|path|path|path p|path].
  - by apply (name_steps (PyRegisterPath path p)).
  - by apply (name_steps (PyUnregisterPath path)).
  - by apply (name_steps (PyWhereisPath path)).
  - by apply (name_steps (PyListChildren prefix)).
  - by apply (name_steps (PySpawnWithPathObserved b path)).
  - by apply (name_steps (PyListChildrenDirect prefix)).
  - by apply (name_steps (PyWatchPath prefix)).
  - by apply (name_steps (PyCreatePathSupervisor path)).
  - by apply (name_steps (PyRemovePathSupervisor path)).
  - by apply (name_steps (PyPathSupervisorWatch path p)).
  - by apply (name_steps (PyPathSupervisorChildren path)).
Qed.

Lemma send_buffer_node pid id reg rt :
  snd (fst (send_buffer pid id reg rt)) = rt ∨ ∃ b, snd (fst (send_buffer pid id reg rt)) = fst (rt_send pid (User b) rt).
Proof.
  unfold send_buffer. destruct (buf_take reg id) as [reg' [[v|]|]]; [|by left..]. right. exists v.
  by destruct (rt_send pid (User v) rt).
Qed.

Lemma send_fit_step p msg rt : fit_step rt (fst (rt_send p msg rt)).
Proof. apply ft_behind, bh_send. Qed.

Lemma actor_steps c reg rt : pa_room (slab rt) → rtc fit_step rt (snd (fst (actor_exec c reg rt))).
Proof.
  intros Hr. destruct c as [p|p ptr|b|p id]; cbn [actor_exec].
  - apply rtc_once, ft_behind, bh_stop.
  - apply rtc_once, frame_sup; [apply st_hot_swap| |]; unfold hot_swap; by repeat split_match.
  - assert (H := spawned_steps Observed rt Hr). unfold spawn_observed_handler.
    by destruct (spawned (spawn Observed rt) rt).
  - assert (H := send_buffer_node p id reg rt). destruct (send_buffer p id reg rt) as [[reg' rt'] [[b|]|]]; simpl in *;
      (destruct H as [->|[v ->]]; [done|apply rtc_once, send_fit_step]).
Qed.

Lemma supervise_steps c rt : call_ok (CSupervise c) → rtc fit_step rt (fst (supervise_exec c rt)).
Proof.
  intros Hok. unfold call_ok in Hok. destruct c as [p st|p f r st|path p f r st]; cbn [supervise_exec call_pids] in *;
    apply Forall_cons in Hok as [Hp _].
  - unfold py_watch. destruct (parse_strategy st); [|done]. apply rtc_once, ft_sup; [constructor|].
    intros u. by apply fit_add_child.
  - unfold supervise_with_factory. destruct (parse_strategy st), r; try done. apply rtc_once, ft_sup; [constructor|].
    intros u. by apply fit_add_child.
  - unfold py_path_supervise, path_supervise_with_factory. destruct (parse_strategy st), r; try done.
    eapply rtc_l; [apply (ft_path path)|]. unfold create_path_supervisor. destruct (path_entry path rt) as [rt1 id].
    apply rtc_once, ft_sup; [constructor|]. intros u. by apply fit_add_child.
Qed.

Lemma on_node_node f s : py_node (fst (on_node f s)) = fst (f (py_node s)).
Proof. unfold on_node. by destruct (f (py_node s)). Qed.

Lemma exec_node_steps c s : pids_fit (py_node s) → rt_inv (py_node s) → pa_room (slab (py_node s)) → call_ok c →
  rtc fit_step (py_node s) (py_node (fst (py_exec c s))).
Proof.
  intros Hf Hi Hr Hok. destruct c as [c|c|c|c|c|c|c|c]; cbn [py_exec]; rewrite ?on_node_node.
  - by apply name_steps.
  - by apply module_steps.
  - destruct c; apply rtc_once, frame_sup; try done; apply st_config.
  - assert (H := actor_steps c (py_buffers s) (py_node s) Hr). by destruct (actor_exec c _ _) as [[reg' rt'] r].
  - by destruct (buffer_exec c (py_buffers s)).
  - unfold py_node in *. destruct c as [b|p d|p ms d|p ms d|id]; cbn [message_exec]; try done.
    + assert (H := spawned_steps Raw (t_node (py_sys s)) Hr). unfold spawn_actor_with_budget.
      by destruct (spawned (spawn Raw (t_node (py_sys s))) _).
    + destruct (rt_send p (User d) (t_node (py_sys s))) as [rt' r] eqn:E. simpl.
      assert (H := send_fit_step p (User d) (t_node (py_sys s))). rewrite E in H. by apply rtc_once.
    + unfold cancel_timer. case_decide; [|done]. destruct (t_tasks (py_sys s) !! id) as [t|]; [|done]. by destruct (tm_state t).
  - destruct c as [p|p|p| | |a b|a b]; try done.
    + apply rtc_once, ft_sup; [apply call_link|]. intros u. by apply (children_fit_same u).
    + apply rtc_once, ft_sup; [apply call_unlink|]. intros u. by apply (children_fit_same u).
  - by apply supervise_steps.
Qed.

Lemma exec_timer_steps c s : timer_counter (py_sys s) + 1 < 2 ^ 64 → rtc timer_step (py_sys s) (py_sys (fst (py_exec c s))).
Proof.
  intros Ht. assert (Hnode : ∀ rt, timer_step (py_sys s) (set_node rt (py_sys s))) by (intros rt; apply ts_node).
  assert (Hon : ∀ f, rtc timer_step (py_sys s) (py_sys (fst (on_node f s)))).
  { intros f. unfold on_node. destruct (f (py_node s)). apply rtc_once, Hnode. }
  destruct c as [c|c|c|c|c|c|c|c]; cbn [py_exec]; try apply Hon.
  - destruct (actor_exec c _ _) as [[reg' rt'] r]. apply rtc_once, Hnode.
  - by destruct (buffer_exec c (py_buffers s)).
  - destruct c as [b|p d|p ms d|p ms d|id]; cbn [message_exec].
    + destruct (spawned _ _). apply rtc_once, Hnode.
    + destruct (rt_send _ _ _). apply rtc_once, Hnode.
    + apply rtc_once. exact (ts_start p (OneShot ms) (User d) (py_sys s) Ht).
    + apply rtc_once. exact (ts_start p (Interval ms) (User d) (py_sys s) Ht).
    + assert (H := ts_cancel id (py_sys s)). destruct (cancel_timer id (py_sys s)) as [y b]. by apply rtc_once.
Qed.

Lemma send_buffer_registry pid id reg rt : fst (fst (send_buffer pid id reg rt)) = fst (buf_take reg id).
Proof.
  unfold send_buffer. destruct (buf_take reg id) as [reg' [[v|]|]]; [|done|done]. by destruct (rt_send pid (User v) rt).
Qed.

(** [allocate_buffer] on a registry that has ids left. *)
Lemma buffer_exec_eq size mv cap reg : buffers_ok reg → next reg + 1 < 2 ^ 64 →
  buffer_exec (PyAllocateBuffer size mv cap) reg =
  if buf_poisoned reg || (isize_max <? size) then (mkBuffers (inner reg) (next reg + 1) true, Err PanicException)
  else if mv && cap then (mkBuffers (<[next reg := replicate (Z.to_nat size) x00]> (inner reg)) (next reg + 1) false, Ok (VInt (next reg)))
  else (mkBuffers (inner reg) (next reg + 1) false,
        Err (RuntimeError (if mv then "failed to create capsule" else "failed to create memoryview"))).
Proof.
  intros [H1 Hd] Hn. cbn [buffer_exec]. rewrite buf_allocate_eq by done. destruct (_ || _); [done|].
  unfold ptr_len, with_buffers. cbn [buf_poisoned inner snd]. rewrite lookup_insert_eq. cbn [fmap option_fmap option_map snd].
  rewrite buf_free_eq. cbn [buf_poisoned inner next]. rewrite delete_insert_id; [by destruct mv, cap|].
  destruct (inner reg !! next reg) eqn:E; [|done]. assert (H := Hd (next reg) (mk_is_Some _ _ E)). lia.
Qed.

Lemma exec_buffers_ok c s : buffers_ok (py_buffers s) → next (py_buffers s) + 1 < 2 ^ 64 →
  buffers_ok (py_buffers (fst (py_exec c s))).
Proof.
  intros Hb Hn. assert (Hon : ∀ f, buffers_ok (py_buffers (fst (on_node f s)))).
  { intros f. unfold on_node. by destruct (f (py_node s)). }
  destruct c as [c|c|c|c|c|c|c|c]; cbn [py_exec]; try apply Hon.
  - destruct c as [p|p ptr|b|p id]; cbn [actor_exec]; try done.
    + by destruct (spawned _ _).
    + assert (H := send_buffer_registry p id (py_buffers s) (py_node s)).
      assert (Ht := buf_take_ok (py_buffers s) id Hb).
      destruct (send_buffer p id _ _) as [[reg' rt'] [[b|]|]]; simpl in *; by rewrite H.
  - destruct c as [size mv cap]. assert (Ha := buf_allocate_ok (py_buffers s) size Hb Hn).
    rewrite buf_allocate_eq in Ha by (done || by destruct Hb). rewrite buffer_exec_eq by done.
    destruct (_ || _); [done|]. destruct (mv && cap); [done|]. split; simpl; [destruct Hb; lia|].
    intros id Hid. apply Hb in Hid. lia.
  - by destruct (message_exec c (py_sys s)).
Qed.

Lemma timer_fires_node id (y : TimerSys (R := Runtime F S)) :
  t_node (timer_fires id y) = t_node y ∨ ∃ p msg, t_node (timer_fires id y) = fst (rt_send p msg (t_node y)).
Proof.
  unfold timer_fires. destruct (t_tasks y !! id) as [t|]; [|by left]. destruct (waiting t), (panics t); try by left.
  destruct (_ <=? _); [|by left]. right. exists (tm_pid t), (tm_msg t). by destruct (tm_kind t).
Qed.

(** What every state of a Python program satisfies. *)
Definition py_inv s : Prop :=
  reachable rt_init rt_step (py_node s) ∧ reachable timers_init timer_step (py_sys s) ∧
  buffers_ok (py_buffers s) ∧ pids_fit (py_node s).

Lemma py_inv_node s s' : py_inv s → rtc fit_step (py_node s) (py_node s') → rtc timer_step (py_sys s) (py_sys s') →
  buffers_ok (py_buffers s') → py_inv s'.
Proof.
  intros (Hr & Ht & _ & Hf) Hn Hy Hb. split_and!; [| |done|].
  - apply (reachable_rtc _ _ _ _ Hr). clear -Hn. induction Hn as [|r1 r2 r3 H12 _ IH]; [done|].
    eapply rtc_l; [by apply fit_step_rt_step|done].
  - by apply (reachable_rtc _ _ _ _ Ht).
  - by apply (rtc_invariant fit_step pids_fit _ _ fit_step_fit Hn).
Qed.

Lemma py_step_inv s s' : py_inv s → py_step s s' → py_inv s'.
Proof.
  intros Hi Hs. assert (H := Hi). destruct H as (Hr & Ht & Hb & Hf).
  destruct Hs as [c s Hok Hroom Htc Hnb|rt s Hbh|id s|id s|id s|d s Hd|id s Hp]; apply (py_inv_node s); try done;
    try by (apply rtc_once; constructor).
  - apply exec_node_steps; [done|by apply rt_reachable_inv|done|done].
  - by apply exec_timer_steps.
  - by apply exec_buffers_ok.
  - unfold py_node. cbn [py_sys]. destruct (timer_fires_node id (py_sys s)) as [->|(p & msg & ->)]; [done|].
    apply rtc_once, send_fit_step.
  - unfold py_node, timer_sees_cancel. simpl. by repeat split_match.
  - unfold py_node, timer_ends. simpl. by repeat split_match.
  - by apply buf_free_ok.
Qed.

Lemma py_init_inv s : py_init s → py_inv s.
Proof.
  intros ->. split_and!; [by apply reach_init|by apply reach_init|apply buffers_new_ok|]. split.
  - intros n p Hp. simpl in Hp. unfold registry_new in Hp. by rewrite lookup_empty in Hp.
  - intros id. unfold sup_of. simpl. destruct (decide (id = 0%nat)) as [->|Hne];
      [rewrite lookup_singleton_eq|rewrite lookup_singleton_ne by done]; apply children_fit_new.
Qed.

Lemma py_reachable_inv s : reachable py_init py_step s → py_inv s.
Proof. apply reachable_invariant; [apply py_init_inv|apply py_step_inv]. Qed.

(** ** Results *)

(** The calls that panic: those that lock a poisoned buffer registry, and an
    allocation beyond [isize::MAX]. *)
Definition panics_on (c : py_call F) s : bool :=
  match c with
  | CActor (PySendBuffer _ _) => buf_poisoned (py_buffers s)
  | CBuffer (PyAllocateBuffer size _ _) => buf_poisoned (py_buffers s) || (isize_max <? size)
  | _ => false
  end.

(** The state but for the counter of buffer ids. *)
Definition unchanged s s' : Prop := py_sys s' = py_sys s ∧ inner (py_buffers s') = inner (py_buffers s).

Definition result_ok (t : py_type) (panics : bool) s s' (r : py_result) : Prop :=
  match r with
  | Ok v => value_ok t v ∧ panics = false
  | Err PanicException => panics = true ∧ unchanged s s' ∧ buf_poisoned (py_buffers s') = true
  | Err _ => panics = false ∧ unchanged s s' ∧ buf_poisoned (py_buffers s') = buf_poisoned (py_buffers s)
  end.

Lemma spawned_ok t k rt : rt_inv rt → pa_room (slab rt) →
  ∃ rt' p, spawn k rt = Some (rt', p) ∧ (t = TPid → value_ok t (VInt p)).
Proof.
  intros Hi Hroom. assert (Hok : pa_ok (slab rt)) by apply Hi.
  destruct (pa_alloc_total (slab rt) Hok) as (sl & p & Ha). unfold spawn. rewrite Ha.
  eexists _, p. split; [done|]. intros ->. by eapply pa_alloc_fits.
Qed.

Lemma pairs_fit rt (l : list (string * Pid)) : pids_fit rt → (∀ k p, (k, p) ∈ l → registry rt !! k = Some p) →
  value_ok TPairs (VPairs l).
Proof. intros Hf Hl. apply Forall_forall. intros [k p] Hin. by eapply pf_names, Hl. Qed.

Lemma children_pids_fit u : children_fit u → Forall (fits 64) (child_pids u).
Proof.
  intros Hu. apply Forall_forall. intros p Hp. apply list_elem_of_fmap in Hp as ([q x] & -> & Hin).
  apply elem_of_map_to_list in Hin. apply Hu. by exists x.
Qed.

Lemma name_typed c rt : pids_fit rt → rt_inv rt → pa_room (slab rt) →
  ∃ v, snd (name_exec c rt) = Ok v ∧ value_ok (call_type (F := F) (CName c)) v.
Proof.
  intros Hf Hi Hroom. destruct c; cbn [name_exec snd call_type]; try (eexists; split; [done|]; try done;
    try (intros p Hp; by eapply pf_names)).
  - apply (pairs_fit rt); [done|]. intros k p Hin. by eapply listed_registered_all.
  - apply (pairs_fit rt); [done|]. intros k p Hin. by eapply listed_registered.
  - unfold spawn_with_path_observed, spawn_observed_handler.
    destruct (spawned_ok TPid Observed rt Hi Hroom) as (rt' & p & -> & Hp). eexists. split; [done|]. by apply Hp.
  - unfold path_supervisor_children. destruct (path_supervisors rt !! path) as [id|]; [|constructor].
    apply children_pids_fit, Hf.
Qed.

(** The module's functions are the methods of the runtime they are given. *)
Definition method_of (c : module_fn) : name_call :=
  match c with
  | fn_register_path path pid => PyRegisterPath path pid
  | fn_unregister_path path => PyUnregisterPath path
  | fn_whereis_path path => PyWhereisPath path
  | fn_list_children prefix => PyListChildren prefix
  | fn_spawn_with_path_observed budget path => PySpawnWithPathObserved budget path
  | fn_list_children_direct prefix => PyListChildrenDirect prefix
  | fn_watch_path prefix => PyWatchPath prefix
  | fn_create_path_supervisor path => PyCreatePathSupervisor path
  | fn_remove_path_supervisor path => PyRemovePathSupervisor path
  | fn_path_supervisor_watch path pid => PyPathSupervisorWatch path pid
  | fn_path_supervisor_children path => PyPathSupervisorChildren path
  end.

Lemma module_is_method c rt : module_exec c rt = name_exec (method_of c) rt.
Proof. by destruct c. Qed.

Lemma module_type c : call_type (F := F) (CModule c) = call_type (F := F) (CName (method_of c)).
Proof. by destruct c. Qed.

Lemma on_node_typed (t : py_type) f s : (∃ v, snd (f (py_node s)) = Ok v ∧ value_ok t v) →
  result_ok t false s (fst (on_node f s)) (snd (on_node f s)).
Proof. intros (v & Hv & Ht). unfold on_node. destruct (f (py_node s)) as [rt' r]. simpl in *. by rewrite Hv. Qed.

Lemma actor_typed c s : rt_inv (py_node s) → pa_room (slab (py_node s)) →
  result_ok (call_type (F := F) (CActor c)) (panics_on (CActor c) s) s (fst (py_exec (CActor c) s)) (snd (py_exec (CActor c) s)).
Proof.
  intros Hi Hroom. destruct c as [p|p ptr|b|p id]; cbn [py_exec actor_exec call_type panics_on]; [done|done| |].
  - unfold spawn_observed_handler. destruct (spawned_ok TPid Observed _ Hi Hroom) as (rt' & p & -> & Hp).
    split; [by apply Hp|done].
  - unfold send_buffer. rewrite buf_take_eq. destruct s as [[] [m n pn]]. destruct pn; [done|]. cbn.
    destruct (m !! id) as [v|] eqn:E; [by destruct (rt_send p (User v) _)|]. split; [done|]. split; [|done]. split; [done|].
    simpl. by rewrite delete_id.
Qed.

Lemma buffer_typed c s : buffers_ok (py_buffers s) → next (py_buffers s) + 1 < 2 ^ 64 →
  result_ok (call_type (F := F) (CBuffer c)) (panics_on (CBuffer c) s) s (fst (py_exec (CBuffer c) s)) (snd (py_exec (CBuffer c) s)).
Proof.
  intros Hb Hn. destruct c as [size mv cap]. cbn [py_exec call_type panics_on]. rewrite buffer_exec_eq by done.
  destruct (_ || _) eqn:E; [by split|]. apply orb_false_iff in E as [E _].
  destruct (mv && cap); cbn [fst snd result_ok]; [split; [|done]|split; [done|split; [by split|done]]].
  destruct Hb as [Hb _]. simpl. unfold fits. lia.
Qed.

Lemma message_typed c s : rt_inv (py_node s) → pa_room (slab (py_node s)) →
  result_ok (call_type (F := F) (CMessage c)) false s (fst (py_exec (CMessage c) s)) (snd (py_exec (CMessage c) s)).
Proof.
  intros Hi Hroom. destruct c as [b|p d|p ms d|p ms d|id]; cbn [py_exec message_exec call_type].
  - unfold spawn_actor_with_budget. destruct (spawned_ok TPid Raw _ Hi Hroom) as (rt' & p & E & Hp).
    unfold py_node in E. rewrite E. split; [by apply Hp|done].
  - by destruct (rt_send p (User d) _).
  - split; [by apply wrap_fits|done].
  - split; [by apply wrap_fits|done].
  - by destruct (cancel_timer id (py_sys s)).
Qed.

Lemma supervise_typed c s :
  result_ok (call_type (CSupervise c)) false s (fst (py_exec (CSupervise c) s)) (snd (py_exec (CSupervise c) s)).
Proof.
  assert (Hs : mkPyState (set_node (py_node s) (py_sys s)) (py_buffers s) = s) by by destruct s as [[? ? ? ? ? ?] ?].
  assert (Hrefl : unchanged s s) by done.
  destruct c as [p st|p f r st|path p f r st]; cbn [py_exec]; unfold on_node; cbn [supervise_exec].
  - unfold py_watch. destruct (parse_strategy st); [done|]. simpl. by rewrite Hs.
  - unfold supervise_with_factory, supervise_error. destruct (parse_strategy st), r; try done; simpl; by rewrite Hs.
  - unfold py_path_supervise, supervise_error. destruct (parse_strategy st), r; try done; simpl; by rewrite Hs.
Qed.

Lemma query_typed c rt : pids_fit rt → ∃ v, snd (query_exec c rt) = Ok v ∧ value_ok (call_type (F := F) (CQuery c)) v.
Proof.
  intros Hf. destruct c; cbn [query_exec snd call_type]; eexists; (split; [done|]); try done.
  - simpl. lia.
  - apply children_pids_fit, (pf_children _ Hf 0).
Qed.

(** ** Properties *)

(** no run of a Python program leaves the invariants: the runtime and the
    timers stay in their reachable states, live buffer ids were drawn from the
    counter, and every registered or supervised PID is a [u64]. *)
Theorem py_api_safe s : reachable py_init py_step s →
  reachable rt_init rt_step (py_node s) ∧ reachable timers_init timer_step (py_sys s) ∧
  buffers_ok (py_buffers s) ∧ pids_fit (py_node s).
Proof. apply py_reachable_inv. Qed.

End py_api_lemmas.

(** ** Instances *)
Module PyDemo.
Definition start : PyState unit SlabAllocator := mkPyState (mkTimers runtime_new ∅ 0 ∅ 0 []) buffers_new.

(** A program that spawns an observed actor under a path and sends to it. *)
Definition program : list (py_call unit) :=
  [CModule (fn_spawn_with_path_observed 100 "/svc/a"); CMessage (PySend Demo.a [x61]);
   CMessage (PySendAfter Demo.a 5 [x62]); CName (PyWatchPath "/svc")].

Definition run (cs : list (py_call unit)) : PyState unit SlabAllocator :=
  fold_left (λ s c, fst (py_exec c s)) cs start.

Definition bad_watch : py_call unit := CSupervise (PyWatch Demo.a "sometimes").

Definition huge : py_call unit := CBuffer (PyAllocateBuffer (2 ^ 63) true true).
End PyDemo.

Lemma py_demo_reachable : reachable py_init py_step (PyDemo.run PyDemo.program).
Proof.
  unfold PyDemo.run, PyDemo.program. cbn [fold_left].
  do 4 (eapply reach_step; [|apply py_calls; [repeat constructor; by unfold fits|vm_compute; done..]]).
  by apply reach_init.
Qed.

Example py_demo_children :
  snd (py_exec (CName (PyListChildren "/svc")) (PyDemo.run PyDemo.program)) = Ok (VPairs [("/svc/a", Demo.a)]) ∧
  snd (py_exec (CQuery PyChildPids) (PyDemo.run PyDemo.program)) = Ok (VInts [Demo.a]) ∧
  snd (py_exec PyDemo.bad_watch (PyDemo.run PyDemo.program)) = Err (ValueError "invalid strategy").
Proof. by vm_compute. Qed.

Lemma py_api_safe_witness :
  reachable rt_init rt_step (py_node (PyDemo.run PyDemo.program)) ∧
  reachable timers_init timer_step (py_sys (PyDemo.run PyDemo.program)) ∧
  buffers_ok (py_buffers (PyDemo.run PyDemo.program)) ∧ pids_fit (py_node (PyDemo.run PyDemo.program)).
Proof. apply (py_api_safe (PyDemo.run PyDemo.program)). apply py_demo_reachable. Defined.


(** The panic leaves a registry on which [send_buffer] panics. *)
Example py_demo_poisoned :
  snd (py_exec PyDemo.huge (PyDemo.run PyDemo.program)) = Err PanicException ∧
  snd (py_exec (CActor (PySendBuffer Demo.a 1)) (fst (py_exec PyDemo.huge (PyDemo.run PyDemo.program)))) = Err PanicException.
Proof. by vm_compute. Qed.
