(* ===== verification/PyContract.v ===== *)
(** * What the Python calls promise ([src/src/py.rs])

    The calls of [PyApi] against a specification that does not name the
    operations they are made of: what a caller can observe afterwards - the
    names, the mailboxes' contents, who accepts messages, the children and links
    of the supervisors, the timers that can be cancelled, the buffers - is stated
    from what it could observe before. *)
From S2P Require Import Prelude Pid Mailbox Registry Buffer Supervisor Runtime RuntimeInv Lifecycle Interface Timers PyMembrane PyApi.
From Stdlib Require Import Strings.Byte.

Section contract.
Context {F S : Type} `{PA : PidAllocator S}.
Implicit Types (rt : Runtime F S) (s : PyState F S) (r : py_result).

(** ** Observations *)
Definition queue rt (p : Pid) : option AbsMailbox := abs <$> boxes rt !! p.

(** The actor runs and has not been stopped. *)
Definition accepting rt (p : Pid) : Prop := p ∈ mailboxes rt ∧ is_Some (actors rt !! p).

#[export] Instance accepting_dec rt p : Decision (accepting rt p).
Proof. unfold accepting. tc_solve. Defined.

Definition node_children rt : gmap Pid (ChildSpec F) := children (supervisor rt).

(** The children of the supervisor of a path; none without one. *)
Definition path_children rt (path : string) : gmap Pid (ChildSpec F) :=
  match path_supervisors rt !! path with Some id => children (sup_of id rt) | None => ∅ end.

Definition linked_to rt (a b : Pid) : Prop := b ∈ linked (links (supervisor rt)) a.

(** [msg] is the newest message of [p], if [p] accepts messages; nobody else's
    mailbox changes. *)
Definition posted (p : Pid) (msg : Message) rt rt' : Prop :=
  (∀ q, q ≠ p → queue rt' q = queue rt q) ∧
  if decide (accepting rt p) then
    ∃ a, queue rt p = Some a ∧ queue rt' p = Some (mkAbs (a_sys a ++ sys_of [msg]) (a_user a ++ user_of [msg]))
  else queue rt' p = queue rt p.

(** [p] is a new actor of kind [k] with an empty mailbox. *)
Definition born (k : ActorKind) (p : Pid) rt rt' : Prop :=
  is_alive p rt = false ∧ is_alive p rt' = true ∧ actors rt' = <[p := k]> (actors rt) ∧ accepting rt' p ∧
  queue rt' p = Some (mkAbs [] []) ∧ (k = Observed → observers rt' !! p = Some []) ∧ ∀ q, q ≠ p → queue rt' q = queue rt q.

(** The names below a prefix, and those one level below it. *)
Definition below (pre k : string) : Prop :=
  trim_end_slashes pre = ""%string ∨ ∃ rest, k = trim_end_slashes pre +:+ "/" +:+ rest.

Definition directly_below (pre k : string) : Prop :=
  ∃ seg, contains_slash seg = false ∧
    if (trim_end_slashes pre =? "")%string then k = seg ∨ k = "/" +:+ seg else k = trim_end_slashes pre +:+ "/" +:+ seg.

(** ** The contract *)
Definition name_promise (c : name_call) rt rt' r : Prop :=
  match c with
  | PyRegister n p | PyRegisterPath n p =>
      r = Ok VNone ∧ ∀ m, rt_resolve m rt' = if decide (m = n) then Some p else rt_resolve m rt
  | PyUnregister n | PyUnregisterPath n =>
      r = Ok VNone ∧ ∀ m, rt_resolve m rt' = if decide (m = n) then None else rt_resolve m rt
  | PyResolve n | PyWhereis n | PyWhereisPath n => rt' = rt ∧ r = Ok (VOptInt (registry rt !! n))
  | PyListChildren pre =>
      rt' = rt ∧ ∃ l, r = Ok (VPairs l) ∧ NoDup l ∧
        ∀ k p, (k, p) ∈ l ↔ registry rt !! k = Some p ∧ below pre k
  | PyListChildrenDirect pre =>
      rt' = rt ∧ ∃ l, r = Ok (VPairs l) ∧ NoDup l ∧
        ∀ k p, (k, p) ∈ l ↔ registry rt !! k = Some p ∧ directly_below pre k
  | PyWatchPath pre =>
      r = Ok VNone ∧
      (∀ k p, registry rt !! k = Some p → directly_below pre k → node_children rt' !! p = Some (mkSpec (ConstPid p) RestartOne)) ∧
      (∀ p, (∀ k, registry rt !! k = Some p → ¬ directly_below pre k) → node_children rt' !! p = node_children rt !! p)
  | PySpawnWithPathObserved _ path =>
      ∃ p, r = Ok (VInt p) ∧ born Observed p rt rt' ∧
        ∀ m, rt_resolve m rt' = if decide (m = path) then Some p else rt_resolve m rt
  | PyCreatePathSupervisor path =>
      r = Ok VNone ∧ is_Some (path_supervisors rt' !! path) ∧ path_children rt' path = path_children rt path
  | PyRemovePathSupervisor path =>
      r = Ok VNone ∧ ∀ q, path_supervisors rt' !! q = if decide (q = path) then None else path_supervisors rt !! q
  | PyPathSupervisorWatch path p =>
      r = Ok VNone ∧ ∀ id, children (sup_of id rt') =
        if decide (id = default 0%nat (path_supervisors rt !! path))
        then <[p := mkSpec (ConstPid p) RestartOne]> (children (sup_of id rt)) else children (sup_of id rt)
  | PyPathSupervisorChildren path =>
      rt' = rt ∧ ∃ l, r = Ok (VInts l) ∧ NoDup l ∧ ∀ p, p ∈ l ↔ is_Some (path_children rt path !! p)
  end.

Definition supervise_promise (c : supervise_call F) rt rt' r : Prop :=
  match c with
  | PyWatch p st =>
      match parse_strategy st with
      | Some g => r = Ok VNone ∧ node_children rt' = <[p := mkSpec (ConstPid p) g]> (node_children rt)
      | None => r = Err (ValueError "invalid strategy") ∧ rt' = rt
      end
  | PySuperviseWithFactory p f first st =>
      match parse_strategy st, first with
      | Some g, Ok _ => r = Ok VNone ∧ node_children rt' = <[p := mkSpec (UserFactory f) g]> (node_children rt)
      | Some _, Err e => r = Err (FactoryError e) ∧ rt' = rt
      | None, _ => r = Err (ValueError "invalid strategy") ∧ rt' = rt
      end
  | PyPathSuperviseWithFactory path p f first st =>
      match parse_strategy st, first with
      | Some g, Ok _ => r = Ok VNone ∧ is_Some (path_supervisors rt' !! path) ∧
          path_children rt' path = <[p := mkSpec (UserFactory f) g]> (path_children rt path)
      | Some _, Err e => r = Err (FactoryError e) ∧ rt' = rt
      | None, _ => r = Err (ValueError "invalid strategy") ∧ rt' = rt
      end
  end.

Definition promise (c : py_call F) s s' r : Prop :=
  let rt := py_node s in let rt' := py_node s' in
  match c with
  | CName c => name_promise c rt rt' r
  | CModule c => name_promise (method_of c) rt rt' r
  | CLimit (PySetReleaseGilLimits m n) =>
      r = Ok VNone ∧ get_release_gil_limits (config rt') = (m, n) ∧ is_release_gil_strict rt' = is_release_gil_strict rt
  | CLimit (PySetReleaseGilStrict b) =>
      r = Ok VNone ∧ is_release_gil_strict rt' = b ∧ get_release_gil_limits (config rt') = get_release_gil_limits (config rt)
  | CActor (PyStop p) =>
      r = Ok VNone ∧ (∀ q, accepting rt' q ↔ accepting rt q ∧ q ≠ p) ∧ actors rt' = actors rt ∧ ∀ q, queue rt' q = queue rt q
  | CActor (PyHotSwap p ptr) => r = Ok VNone ∧ posted p (System (HotSwap ptr)) rt rt'
  | CActor (PySpawnObservedHandler _) => ∃ p, r = Ok (VInt p) ∧ born Observed p rt rt'
  | CActor (PySendBuffer p id) =>
      match inner (py_buffers s) !! id with
      | Some v =>
          if buf_poisoned (py_buffers s) then rt' = rt ∧ r = Err PanicException
          else r = Ok (VBool (bool_decide (accepting rt p))) ∧ posted p (User v) rt rt' ∧
            inner (py_buffers s') = delete id (inner (py_buffers s))
      | None => rt' = rt ∧ inner (py_buffers s') = inner (py_buffers s) ∧ ∃ e, r = Err e
      end
  | CBuffer (PyAllocateBuffer size mv cap) =>
      rt' = rt ∧
      match r with
      | Ok (VInt id) => inner (py_buffers s) !! id = None ∧
          inner (py_buffers s') = <[id := replicate (Z.to_nat size) x00]> (inner (py_buffers s))
      | _ => (mv && cap = true → r = Err PanicException) ∧ inner (py_buffers s') = inner (py_buffers s)
      end
  | CMessage (PySpawnWithMailbox _) => ∃ p, r = Ok (VInt p) ∧ born Raw p rt rt'
  | CMessage (PySend p b) => r = Ok (VBool (bool_decide (accepting rt p))) ∧ posted p (User b) rt rt'
  | CMessage (PySendAfter _ _ _) | CMessage (PySendInterval _ _ _) =>
      rt' = rt ∧ ∃ id, r = Ok (VInt id) ∧ timers (py_sys s') = {[id]} ∪ timers (py_sys s)
  | CMessage (PyCancelTimer id) =>
      rt' = rt ∧ r = Ok (VBool (bool_decide (id ∈ timers (py_sys s)))) ∧ timers (py_sys s') = timers (py_sys s) ∖ {[id]}
  | CQuery (PyGetMessages p) => rt' = rt ∧ r = Ok (VMsgs (message_to_py <$> default [] (observers rt !! p)))
  | CQuery (PyIsAlive p) => rt' = rt ∧ ∃ b, r = Ok (VBool b) ∧ (fits 64 p → b = true ↔ in_use rt p)
  | CQuery (PyMailboxSize p) => rt' = rt ∧ r = Ok (VOptInt (if decide (p ∈ mailboxes rt) then len <$> boxes rt !! p else None))
  | CQuery PyChildrenCount => rt' = rt ∧ r = Ok (VInt (Z.of_nat (size (node_children rt))))
  | CQuery PyChildPids => rt' = rt ∧ ∃ l, r = Ok (VInts l) ∧ NoDup l ∧ ∀ p, p ∈ l ↔ is_Some (node_children rt !! p)
  | CQuery (PyLink a b) =>
      r = Ok VNone ∧ ∀ x y, linked_to rt' x y ↔ linked_to rt x y ∨ (x = a ∧ y = b) ∨ (x = b ∧ y = a)
  | CQuery (PyUnlink a b) =>
      r = Ok VNone ∧ ∀ x y, linked_to rt' x y ↔ linked_to rt x y ∧ ¬ (x = a ∧ y = b) ∧ ¬ (x = b ∧ y = a)
  | CSupervise c => supervise_promise c rt rt' r
  end.

(** ** Lemmas *)
Lemma set_node_node rt (y : TimerSys (R := Runtime F S)) b : py_node (mkPyState (set_node rt y) b) = rt.
Proof. done. Qed.

Lemma on_node_promise f s (P : Runtime F S → py_result → Prop) :
  P (fst (f (py_node s))) (snd (f (py_node s))) → P (py_node (fst (on_node f s))) (snd (on_node f s)).
Proof. unfold on_node. by destruct (f (py_node s)). Qed.

Lemma send_posted p msg rt : rt_inv rt →
  posted p msg rt (fst (rt_send p msg rt)) ∧ is_ok (snd (rt_send p msg rt)) = bool_decide (accepting rt p).
Proof.
  intros Hi. assert (H := rt_send_spec rt p msg Hi). destruct (rt_send p msg rt) as [rt' r]. destruct H as (_ & Ho & H).
  unfold posted, queue. cbn [fst snd]. destruct (decide (accepting rt p)) as [Hd|Hd];
    [rewrite decide_True in H by done|rewrite decide_False in H by done].
  - destruct H as (-> & m & m' & Hm & Hm' & Ha). rewrite bool_decide_true by done. split; [|done]. split.
    + intros q Hq. by rewrite Ho.
    + exists (abs m). by rewrite Hm, Hm', <-Ha.
  - destruct H as [-> Hq]. rewrite bool_decide_false by done. split; [|done]. split; [|done]. intros q Hne. by rewrite Ho.
Qed.

(** A hot swap is a send whose answer nobody looks at. *)
Lemma hot_swap_posted p ptr rt : rt_inv rt → posted p (System (HotSwap ptr)) rt (hot_swap p ptr rt).
Proof.
  intros Hi. destruct (send_posted p (System (HotSwap ptr)) rt Hi) as [H _].
  enough (Hb : boxes (hot_swap p ptr rt) = boxes (fst (rt_send p (System (HotSwap ptr)) rt))).
  { unfold posted, queue in *. by rewrite Hb. }
  unfold hot_swap, rt_send. destruct (decide (p ∈ mailboxes rt)); [|done]. destruct (boxes rt !! p) as [m|]; [|done]. simpl.
  unfold send_system, send. by destruct (tx_sys_send (HotSwap ptr) m) as [m1 []].
Qed.

Lemma spawn_born k rt : rt_inv rt → pa_room (slab rt) →
  ∃ rt' p, spawn k rt = Some (rt', p) ∧ born k p rt rt' ∧ registry rt' = registry rt.
Proof.
  intros Hi Hroom. assert (Hok := inv_slab _ Hi). destruct (pa_alloc_total (slab rt) Hok) as (sl & p & Ha).
  assert (Hs : ∃ rt', spawn k rt = Some (rt', p)) by (unfold spawn; rewrite Ha; by eexists). destruct Hs as [rt' Hs].
  exists rt', p. split; [done|]. split; [|by destruct (spawn_frame _ _ _ _ Hs)].
  unfold spawn in Hs. rewrite Ha in Hs. injection Hs as <-.
  assert (Hf : fits 64 p) by by eapply pa_alloc_fits.
  assert (Hl : pa_live sl p = true) by (rewrite (pa_alloc_live _ _ _ p Hok Hroom Ha Hf); by rewrite bool_decide_true).
  unfold born, accepting, queue, is_alive. split_and!; [by eapply pa_alloc_fresh|by destruct k|by destruct k| | | | |].
  - destruct k; simpl; set_solver.
  - destruct k; simpl; rewrite lookup_insert_eq; by eexists.
  - destruct k; simpl; by rewrite lookup_insert_eq.
  - intros ->. simpl. by rewrite lookup_insert_eq.
  - intros q Hq. destruct k; simpl; by rewrite lookup_insert_ne.
Qed.

Lemma child_pids_elem (u : Supervisor F) : NoDup (child_pids u) ∧ ∀ p, p ∈ child_pids u ↔ is_Some (children u !! p).
Proof.
  split; [apply NoDup_fst_map_to_list|]. intros p. unfold child_pids. split.
  - intros Hp. apply list_elem_of_fmap in Hp as ([q x] & -> & Hin). apply elem_of_map_to_list in Hin. by exists x.
  - intros [x Hx]. apply list_elem_of_fmap. exists (p, x). split; [done|]. by apply elem_of_map_to_list.
Qed.
Lemma spawned_promise (k : ActorKind) rt : rt_inv rt → pa_room (slab rt) →
  ∃ p, snd (spawned (spawn k rt) rt) = Ok (VInt p) ∧ born k p rt (fst (spawned (spawn k rt) rt)).
Proof. intros Hi Hr. destruct (spawn_born k rt Hi Hr) as (rt' & p & -> & Hb & _). by exists p. Qed.

Lemma watch_path_promise pre rt :
  let rt' := watch_path pre rt in
  (∀ k p, registry rt !! k = Some p → directly_below pre k → node_children rt' !! p = Some (mkSpec (ConstPid p) RestartOne)) ∧
  (∀ p, (∀ k, registry rt !! k = Some p → ¬ directly_below pre k) → node_children rt' !! p = node_children rt !! p).
Proof.
  cbv zeta. split.
  - intros k p Hk Hb. destruct (watch_path_correct pre rt p) as [H _]. unfold node_children. rewrite H.
    rewrite decide_True; [done|]. apply list_elem_of_fmap. exists (k, p). split; [done|]. by apply list_direct_elem.
  - intros p Hno. destruct (watch_path_correct pre rt p) as [H _]. unfold node_children. rewrite H.
    rewrite decide_False; [done|]. intros Hin. apply list_elem_of_fmap in Hin as ([k q] & -> & Hin).
    apply list_direct_elem in Hin as [Hk Hd]. by apply (Hno k).
Qed.

Lemma resolve_register n p rt m : rt_resolve m (rt_register n p rt) = if decide (m = n) then Some p else rt_resolve m rt.
Proof.
  unfold rt_resolve, rt_register, resolve, register. simpl. destruct (decide (m = n)) as [->|Hne].
  - by rewrite lookup_insert_eq.
  - by rewrite lookup_insert_ne.
Qed.

Lemma resolve_unregister n rt m : rt_resolve m (rt_unregister n rt) = if decide (m = n) then None else rt_resolve m rt.
Proof.
  unfold rt_resolve, rt_unregister, resolve, unregister. simpl. destruct (decide (m = n)) as [->|Hne].
  - by rewrite lookup_delete_eq.
  - by rewrite lookup_delete_ne.
Qed.

Lemma path_children_pids rt path : path_supervisor_children path rt =
  match path_supervisors rt !! path with Some id => child_pids (sup_of id rt) | None => [] end.
Proof. done. Qed.

Lemma name_kept c rt : rt_inv rt → pa_room (slab rt) → name_promise c rt (fst (name_exec c rt)) (snd (name_exec c rt)).
Proof.
  intros Hi Hroom.
  destruct c as [n p|n|n|n|n p|n|n|pre|pre|pre|b path|path|path|path p|path]; cbn [name_exec name_promise fst snd];
    try (split; [done|]); try done; try by intros m; apply resolve_register.
  all: try by intros m; apply resolve_unregister.
  - eexists. split; [done|]. split; [apply list_filter_nodup|]. intros k p. apply list_children_elem.
  - eexists. split; [done|]. split; [apply list_filter_nodup|]. intros k p. apply list_direct_elem.
  - apply watch_path_promise.
  - unfold spawn_with_path_observed, spawn_observed_handler. destruct (spawn_born Observed rt Hi Hroom) as (rt' & p & -> & Hb & Hr).
    exists p. split; [done|]. split; [done|]. intros m. simpl. unfold register_path. rewrite resolve_register.
    unfold rt_resolve. by rewrite Hr.
  - unfold create_path_supervisor, path_entry, path_children. destruct (path_supervisors rt !! path) as [id|] eqn:E; simpl.
    + rewrite E. split; [by eexists|done].
    + rewrite lookup_insert_eq. split; [by eexists|]. unfold sup_of. simpl. by rewrite lookup_insert_eq.
  - intros q. unfold remove_path_supervisor. simpl. destruct (decide (q = path)) as [->|Hne];
      [by rewrite lookup_delete_eq|by rewrite lookup_delete_ne].
  - intros id. unfold path_supervisor_watch. destruct (path_supervisors rt !! path) as [i|]; cbn [default];
      rewrite sup_of_on_sup; by destruct (decide (id = _)) as [->|].
  - unfold path_children. rewrite path_children_pids. eexists. split; [done|].
    destruct (path_supervisors rt !! path) as [id|]; [apply child_pids_elem|]. split; [constructor|].
    intros p. rewrite lookup_empty. split; [by intros ?%not_elem_of_nil|by intros [? ?]].
Qed.
Lemma supervise_kept c rt : supervise_promise c rt (fst (supervise_exec c rt)) (snd (supervise_exec c rt)).
Proof.
  assert (Hadd : ∀ p sp, node_children (on_sup 0 (add_child p sp) rt) = <[p := sp]> (node_children rt)).
  { intros p sp. unfold node_children, supervisor. rewrite sup_of_on_sup. by rewrite decide_True. }
  destruct c as [p st|p f r st|path p f r st]; cbn [supervise_exec supervise_promise].
  - unfold py_watch. destruct (parse_strategy st) as [g|]; [|done]. split; [done|]. apply Hadd.
  - unfold supervise_with_factory, supervise_error, supervise. destruct (parse_strategy st) as [g|], r as [q|e]; try done.
    split; [done|]. apply Hadd.
  - unfold py_path_supervise, supervise_error, path_supervise_with_factory, path_entry, path_children.
    destruct (parse_strategy st) as [g|], r as [q|e]; try done. split; [done|].
    destruct (path_supervisors rt !! path) as [id|] eqn:E; simpl.
    + rewrite E. split; [by eexists|]. by rewrite sup_of_on_sup, decide_True.
    + rewrite lookup_insert_eq. split; [by eexists|]. rewrite sup_of_on_sup, decide_True by done.
      unfold sup_of. simpl. by rewrite lookup_insert_eq.
Qed.

Lemma stop_kept p rt : rt_inv rt →
  (∀ q, accepting (stop p rt) q ↔ accepting rt q ∧ q ≠ p) ∧ actors (stop p rt) = actors rt ∧
  ∀ q, queue (stop p rt) q = queue rt q.
Proof.
  intros Hi. destruct (stop_frame p rt) as (_ & Hm & _ & Hb).
  assert (Ha : actors (stop p rt) = actors rt) by (unfold stop; by case_decide). split_and!; [|done|].
  - intros q. unfold accepting. rewrite Hm, Ha. set_solver.
  - intros q. unfold queue. destruct (decide (q = p)) as [->|Hne]; [|by rewrite Hb].
    unfold stop. case_decide; [|done]. simpl. rewrite lookup_alter_eq. by destruct (boxes rt !! p) as [[]|].
Qed.

Lemma query_kept c s : rt_inv (py_node s) → promise (CQuery c) s (fst (py_exec (CQuery c) s)) (snd (py_exec (CQuery c) s)).
Proof.
  intros Hi. destruct c as [p|p|p| | |a b|a b]; cbn [promise py_exec]; unfold on_node; cbn [query_exec fst snd];
    rewrite ?set_node_node; (split; [done|]).
  - unfold get_observed_messages. by destruct (observers (py_node s) !! p).
  - eexists. split; [done|]. intros Hp. by apply (inv_live _ Hi).
  - unfold mailbox_size. by destruct (decide (p ∈ mailboxes (py_node s))).
  - done.
  - eexists. split; [done|]. apply child_pids_elem.
  - intros x y. unfold linked_to, rt_link, supervisor. rewrite sup_of_on_sup, decide_True by done. simpl.
    rewrite !linked_push. repeat case_decide; subst; rewrite ?elem_of_app, ?list_elem_of_singleton; naive_solver.
  - intros x y. unfold linked_to, rt_unlink, supervisor. rewrite sup_of_on_sup, decide_True by done. simpl.
    rewrite !linked_retain. repeat case_decide; subst; rewrite ?list_elem_of_filter; naive_solver.
Qed.

Lemma message_kept c s : rt_inv (py_node s) → pa_room (slab (py_node s)) →
  promise (CMessage c) s (fst (py_exec (CMessage c) s)) (snd (py_exec (CMessage c) s)).
Proof.
  intros Hi Hroom. unfold py_node in *. destruct c as [b|p d|p ms d|p ms d|id]; cbn [promise py_exec message_exec]; unfold py_node in *.
  - destruct (spawned_promise Raw _ Hi Hroom) as (p & Hp & Hb). unfold spawn_actor_with_budget.
    destruct (spawned (spawn Raw (t_node (py_sys s))) _) as [rt' r]. by exists p.
  - destruct (send_posted p (User d) _ Hi) as [Hp Ho]. destruct (rt_send p (User d) _) as [rt' r]. simpl in *. by rewrite Ho.
  - split; [done|]. by eexists.
  - split; [done|]. by eexists.
  - unfold cancel_timer. destruct (decide (id ∈ timers (py_sys s))) as [Hd|Hd].
    + rewrite bool_decide_true by done. destruct (t_tasks (py_sys s) !! id) as [t|]; [|done]. by destruct (tm_state t).
    + rewrite bool_decide_false by done. simpl. split_and!; [done|done|]. set_solver.
Qed.

Lemma actor_kept c s : rt_inv (py_node s) → pa_room (slab (py_node s)) →
  promise (CActor c) s (fst (py_exec (CActor c) s)) (snd (py_exec (CActor c) s)).
Proof.
  intros Hi Hroom. destruct c as [p|p ptr|b|p id]; cbn [promise py_exec actor_exec fst snd]; rewrite ?set_node_node.
  - split; [done|]. by apply stop_kept.
  - split; [done|]. by apply hot_swap_posted.
  - destruct (spawned_promise Observed _ Hi Hroom) as (p & Hp & Hb). unfold spawn_observed_handler.
    destruct (spawned (spawn Observed (py_node s)) _) as [rt' r]. by exists p.
  - unfold send_buffer. rewrite buf_take_eq. destruct s as [y [m n pn]]. cbn [py_node py_sys py_buffers inner buf_poisoned] in *.
    destruct pn; [destruct (m !! id); [done|by split_and!; [..|eexists]]|]. destruct (m !! id) as [v|] eqn:E.
    + destruct (send_posted p (User v) _ Hi) as [Hp Ho]. destruct (rt_send p (User v) _) as [rt' r]. simpl in *. by rewrite Ho.
    + simpl. split_and!; [done|by apply delete_id|by eexists].
Qed.

Lemma buffer_kept c s : buffers_ok (py_buffers s) → next (py_buffers s) + 1 < 2 ^ 64 →
  promise (CBuffer c) s (fst (py_exec (CBuffer c) s)) (snd (py_exec (CBuffer c) s)).
Proof.
  intros Hb Hn. destruct c as [size mv cap]. cbn [promise py_exec]. rewrite buffer_exec_eq by done.
  destruct (_ || _); [done|]. destruct (mv && cap) eqn:E; [|done]. split; [done|]. simpl. split; [|done].
  destruct (inner (py_buffers s) !! next (py_buffers s)) eqn:El; [|done].
  destruct Hb as [_ Hd]. assert (H := Hd _ (mk_is_Some _ _ El)). lia.
Qed.

(** ** Property *)

End contract.

