(* ===== verification/PyModule.v ===== *)
(** * The Python module ([src/src/py.rs])

    What [import iris] finds: [populate_module] adds the functions and classes to
    the module one after the other and stops at the first that the interpreter
    refuses. *)
From S2P Require Import Prelude Pid Registry Supervisor Runtime PyMembrane PyApi.

Section py_module.

Inductive py_item := PyFunction | PyClass.

(** A module under construction: its attributes. *)
Abbreviation PyModule := (gmap string py_item).

(** The crate's version, which [env!] reads when it is compiled. *)
Context (CARGO_PKG_VERSION : string).

Definition version : string := CARGO_PKG_VERSION.

(** [add_function] and [add_class], of which the interpreter may refuse any. *)
Definition add_item (refused : string → bool) (name : string) (it : py_item) (m : PyModule) : result PyModule string :=
  if refused name then Err name else Ok (<[name := it]> m).

(** The items in the order of the source. *)
Definition items : list (string * py_item) :=
  [("version", PyFunction); ("PyRuntime", PyClass); ("PySystemMessage", PyClass); ("PyMailbox", PyClass);
   ("allocate_buffer", PyFunction); ("register_path", PyFunction); ("unregister_path", PyFunction);
   ("whereis_path", PyFunction); ("list_children", PyFunction); ("spawn_with_path_observed", PyFunction);
   ("list_children_direct", PyFunction); ("watch_path", PyFunction); ("create_path_supervisor", PyFunction);
   ("remove_path_supervisor", PyFunction); ("path_supervisor_watch", PyFunction);
   ("path_supervisor_children", PyFunction)]%string.

Fixpoint add_items (refused : string → bool) (l : list (string * py_item)) (m : PyModule) : PyModule * result unit string :=
  match l with
  | [] => (m, Ok tt)
  | (name, it) :: rest =>
      match add_item refused name it m with
      | Ok m' => add_items refused rest m'
      | Err e => (m, Err e)
      end
  end.

Definition populate_module (refused : string → bool) (m : PyModule) : PyModule * result unit string :=
  add_items refused items m.

(** The initialiser of the extension, and the module made for an embedder. *)
Definition iris (refused : string → bool) (m : PyModule) : PyModule * result unit string := populate_module refused m.

Definition make_module (refused : string → bool) : result PyModule string :=
  match populate_module refused ∅ with
  | (m, Ok _) => Ok m
  | (_, Err e) => Err e
  end.

(** The name under which a function of the module is called. *)
Definition module_fn_name (c : module_fn) : string :=
  match c with
  | fn_register_path _ _ => "register_path"
  | fn_unregister_path _ => "unregister_path"
  | fn_whereis_path _ => "whereis_path"
  | fn_list_children _ => "list_children"
  | fn_spawn_with_path_observed _ _ => "spawn_with_path_observed"
  | fn_list_children_direct _ => "list_children_direct"
  | fn_watch_path _ => "watch_path"
  | fn_create_path_supervisor _ => "create_path_supervisor"
  | fn_remove_path_supervisor _ => "remove_path_supervisor"
  | fn_path_supervisor_watch _ _ => "path_supervisor_watch"
  | fn_path_supervisor_children _ => "path_supervisor_children"
  end.

Lemma add_items_all refused l m : Forall (λ x, refused (fst x) = false) l →
  add_items refused l m = (fold_left (λ acc x, <[fst x := snd x]> acc) l m, Ok tt).
Proof.
  revert m. induction l as [|[n it] l IH]; intros m Hf; [done|]. apply Forall_cons in Hf as [Hn Hl].
  simpl in Hn |- *. unfold add_item. rewrite Hn. by apply IH.
Qed.

Lemma add_items_stop refused l1 n it l2 m : Forall (λ x, refused (fst x) = false) l1 → refused n = true →
  add_items refused (l1 ++ (n, it) :: l2) m = (fold_left (λ acc x, <[fst x := snd x]> acc) l1 m, Err n).
Proof.
  intros Hf Hn. revert m. induction Hf as [|[n1 it1] l1 H1 _ IH]; intros m; simpl.
  - unfold add_item. by rewrite Hn.
  - simpl in H1. unfold add_item. rewrite H1. apply IH.
Qed.

(** A module that the interpreter lets be filled has exactly the names of
    [items], once each; every call of [module_fn] is one of its functions; and
    when a name is refused, the import fails with it and the module has the
    names before it only. *)
Theorem module_exports (refused : string → bool) :
  NoDup (fst <$> items) ∧
  ((∀ n, n ∈ fst <$> items → refused n = false) →
    ∃ m, make_module refused = Ok m ∧ dom m = list_to_set (fst <$> items) ∧
      ∀ c, m !! module_fn_name c = Some PyFunction) ∧
  ∀ l1 n it l2, items = l1 ++ (n, it) :: l2 → Forall (λ x, refused (fst x) = false) l1 → refused n = true →
    make_module refused = Err n ∧ dom (fst (populate_module refused ∅)) = list_to_set (fst <$> l1).
Proof.
  split_and!.
  - apply (bool_decide_unpack _). by vm_compute.
  - intros Hr. unfold make_module, populate_module. rewrite add_items_all.
    + eexists. split; [done|]. split; [apply (bool_decide_unpack _); by vm_compute|]. by intros [].
    + apply Forall_forall. intros x Hx. apply Hr, list_elem_of_fmap. by exists x.
  - intros l1 n it l2 Hi Hf Hn. unfold make_module, populate_module. rewrite Hi, add_items_stop by done.
    split; [done|]. simpl. clear. induction l1 as [|[k i] l1 IH] using rev_ind; [set_solver|].
    rewrite fold_left_app, fmap_app, list_to_set_app_L. simpl. rewrite dom_insert_L, IH. set_solver.
Qed.
End py_module.
