(* ===== verification/PyActors.v ===== *)
(** * Push actors of a Python process ([src/src/py.rs])

    [spawn_py_handler] with everything its actors share: the counter of dedicated
    threads, the worker pool that the first refused spawn creates, and the actors
    themselves.  [PyMembrane] has the handler closure and the thread's turn of one
    actor; here they run side by side.

    [spawn_py_handler] holds the GIL from beginning to end, so spawns do not
    overlap; the handlers, the dedicated threads and the workers do.  The last
    part looks inside a task: a worker takes the GIL and then the lock on the
    actor's callable, and a callable gives the GIL up and takes it back while the
    lock is held.  The interpreter is up throughout. *)
From S2P Require Import Prelude Pid Mailbox Registry Buffer Supervisor Runtime RuntimeInv PyMembrane.
From Stdlib Require Import Strings.Byte.

(** ** State *)

(** A handler closure: [c_chan] is the channel to its dedicated thread, if it has
    one, and [c_open] holds until the actor drops the closure. [c_given] lists the
    messages it was called with. *)
Record Closure := mkClosure {
  c_pid : Pid;
  c_release : bool;
  c_chan : option (list Message);
  c_open : bool;
  c_thread : bool;
  c_first : Z;
  c_cell : PyActor;
  c_given : list Message
}.

(** The shared pool; a task names the closure whose callable it runs. *)
Record SharedPool := mkPool { sp_size : nat; sp_queue : list (nat * PoolTask); sp_held : list (nat * PoolTask) }.

Record PyWorld := mkWorld { closures : list Closure; gil_threads : nat; gil_pool : option SharedPool }.

Definition world_new : PyWorld := mkWorld [] 0 None.

Definition set_closure (i : nat) (c : Closure) (w : PyWorld) : PyWorld :=
  mkWorld (<[i := c]> (closures w)) (gil_threads w) (gil_pool w).

Definition new_callable (callable : Z) : PyActor := mkPyActor callable [].

(** ** Spawning *)

(** The choice of [maybe_tx]: the flag says whether the actor gets a thread. *)
Definition claim_thread (release : bool) (c : Config) (w : PyWorld) : PyWorld * result bool string :=
  if release then
    let (max_threads, pool_size) := get_release_gil_limits c in
    let prev := gil_threads w in
    if max_threads <=? Z.of_nat prev then
      if release_gil_strict c then (w, Err "release_gil thread limit exceeded"%string)
      else
        (mkWorld (closures w) prev
           (Some match gil_pool w with Some p => p | None => mkPool (Z.to_nat pool_size) [] [] end), Ok false)
    else (mkWorld (closures w) (prev + 1) (gil_pool w), Ok true)
  else (w, Ok false).

Definition add_closure (pid : Pid) (callable : Z) (release dedicated : bool) (w : PyWorld) : PyWorld :=
  mkWorld (closures w ++ [mkClosure pid release (if dedicated then Some [] else None) true dedicated
                            callable (new_callable callable) []])
    (gil_threads w) (gil_pool w).

(** What a spawn answers: a PID, an exception, or a panic of the allocator. *)
Inductive spawn_answer := Spawned (pid : Pid) | SpawnError (msg : string) | SpawnPanic.

Section spawn.
Context {F S : Type} `{PA : PidAllocator S}.

Definition spawn_py_handler (callable budget : Z) (release_gil : option bool) (w : PyWorld) (rt : Runtime F S)
  : PyWorld * Runtime F S * spawn_answer :=
  let release := default false release_gil in
  match claim_thread release (config rt) w with
  | (w1, Ok dedicated) =>
      match spawn_handler_with_budget budget rt with
      | Some (rt', pid) => (add_closure pid callable release dedicated w1, rt', Spawned pid)
      | None => (w1, rt, SpawnPanic)
      end
  | (w1, Err e) => (w1, rt, SpawnError e)
  end.
End spawn.

(** ** The closure, the thread and the pool *)

(** The channel a message goes through, with nothing in it yet for the pool. *)
Definition route_of (c : Closure) (w : PyWorld) : route :=
  match c_chan c with
  | Some q => Dedicated q
  | None =>
      if c_release c then match gil_pool w with Some _ => Pooled [] | None => Inline end else Inline
  end.

(** A send on a channel without receiver is dropped. *)
Definition pool_send (ts : list (nat * PoolTask)) (p : SharedPool) : SharedPool :=
  if (sp_size p =? 0)%nat then p else mkPool (sp_size p) (sp_queue p ++ ts) (sp_held p).

Definition closure_call (i : nat) (msg : Message) (w : PyWorld) : PyWorld :=
  match closures w !! i with
  | Some c =>
      let given := c_given c ++ [msg] in
      match py_handler msg (route_of c w, c_cell c) with
      | (Dedicated q, a) =>
          set_closure i (mkClosure (c_pid c) (c_release c) (if c_thread c then Some q else c_chan c)
            (c_open c) (c_thread c) (c_first c) a given) w
      | (Pooled ts, a) =>
          let w' := set_closure i (mkClosure (c_pid c) (c_release c) (c_chan c) (c_open c) (c_thread c) (c_first c) a given) w in
          mkWorld (closures w') (gil_threads w') (pool_send ((λ t, (i, t)) <$> ts) <$> gil_pool w')
      | (Inline, a) =>
          set_closure i (mkClosure (c_pid c) (c_release c) (c_chan c) (c_open c) (c_thread c) (c_first c) a given) w
      end
  | None => w
  end.

(** The actor has ended: its handler is dropped, and the sender with it. *)
Definition closure_drop (i : nat) (w : PyWorld) : PyWorld :=
  match closures w !! i with
  | Some c => set_closure i (mkClosure (c_pid c) (c_release c) (c_chan c) false (c_thread c) (c_first c) (c_cell c) (c_given c)) w
  | None => w
  end.

Definition thread_over (i : nat) (c : Closure) (q : list Message) (w : PyWorld) : PyWorld :=
  mkWorld (<[i := mkClosure (c_pid c) (c_release c) (Some q) (c_open c) false (c_first c) (c_cell c) (c_given c)]> (closures w))
    (gil_threads w - 1) (gil_pool w).

(** One turn of a dedicated thread's loop; an empty channel whose sender is gone
    is disconnected. *)
Definition thread_loop (i : nat) (w : PyWorld) : PyWorld :=
  match closures w !! i with
  | Some c =>
      if c_thread c then
        match c_chan c with
        | Some (m :: q) =>
            match thread_turn m (c_cell c) with
            | Some a => set_closure i (mkClosure (c_pid c) (c_release c) (Some q) (c_open c) true (c_first c) a (c_given c)) w
            | None => thread_over i c q w
            end
        | Some [] => if c_open c then w else thread_over i c [] w
        | None => w
        end
      else w
  | None => w
  end.

(** A free worker takes the oldest task. *)
Definition worker_take (w : PyWorld) : PyWorld :=
  match gil_pool w with
  | Some (mkPool n (t :: q) h) =>
      if (length h <? n)%nat then mkWorld (closures w) (gil_threads w) (Some (mkPool n q (h ++ [t]))) else w
  | _ => w
  end.

(** The worker of the [k]th task taken runs it. *)
Definition worker_run (k : nat) (w : PyWorld) : PyWorld :=
  match gil_pool w with
  | Some (mkPool n q h) =>
      match h !! k with
      | Some (i, t) =>
          let w' := mkWorld (closures w) (gil_threads w) (Some (mkPool n q (delete k h))) in
          match closures w !! i with
          | Some c => set_closure i (mkClosure (c_pid c) (c_release c) (c_chan c) (c_open c) (c_thread c) (c_first c)
                        (run_task t (c_cell c)) (c_given c)) w'
          | None => w'
          end
      | None => w
      end
  | None => w
  end.

(** All that can happen, whatever the runtime does with its actors. *)
Inductive world_step : PyWorld → PyWorld → Prop :=
| ws_spawn pid callable release c w w1 dedicated : claim_thread release c w = (w1, Ok dedicated) →
    world_step w (add_closure pid callable release dedicated w1)
| ws_call i msg c w : closures w !! i = Some c → c_open c = true → world_step w (closure_call i msg w)
| ws_drop i w : world_step w (closure_drop i w)
| ws_thread i w : world_step w (thread_loop i w)
| ws_take w : world_step w (worker_take w)
| ws_run k w : world_step w (worker_run k w).

Definition world_init (w : PyWorld) : Prop := w = world_new.

(** One turn of a push actor's task: its handler's turn, with the closure run on
    the message or dropped at the end. *)
Definition py_actor_turn {F S} `{PA : PidAllocator S} (i : nat) (w : PyWorld) (rt : Runtime F S) : PyWorld * Runtime F S :=
  match closures w !! i with
  | Some c =>
      if c_open c then
        match handler_turn (c_pid c) None rt with
        | (rt', Handled msg _) => (closure_call i msg w, rt')
        | (rt', Stopped) => (closure_drop i w, rt')
        | (rt', Waiting) => (w, rt')
        end
      else (w, rt)
  | None => (w, rt)
  end.

(** ** Inside a task: the GIL and the callable's lock

    The workers of the pool on the tasks of one actor.  [Execute] takes the GIL,
    then a read lock held over the call, during which the interpreter may hand the
    GIL to another thread; [HotSwap] takes the GIL, then the write lock, which has
    to wait for the readers. *)
Inductive phase :=
| Free
| WantsCall
| Calling (has_gil : bool)
| WantsSwap
| Swapping.

Inductive gil_holder := NoOne | Worker (k : nat) | OtherThread.

Record LockState := mkLocks { gil : gil_holder; todo : list PoolTask; workers : list phase }.

Definition phase_of (t : PoolTask) : phase := match t with Execute _ => WantsCall | PoolHotSwap _ => WantsSwap end.

Definition reading (ph : phase) : bool := match ph with Calling _ => true | _ => false end.

Inductive lock_step : LockState → LockState → Prop :=
| lk_take k t ts g ws : ws !! k = Some Free → lock_step (mkLocks g (t :: ts) ws) (mkLocks g ts (<[k := phase_of t]> ws))
| lk_call k ts ws : ws !! k = Some WantsCall →
    lock_step (mkLocks NoOne ts ws) (mkLocks (Worker k) ts (<[k := Calling true]> ws))
| lk_give_up k ts ws : ws !! k = Some (Calling true) →
    lock_step (mkLocks (Worker k) ts ws) (mkLocks NoOne ts (<[k := Calling false]> ws))
| lk_get_back k ts ws : ws !! k = Some (Calling false) →
    lock_step (mkLocks NoOne ts ws) (mkLocks (Worker k) ts (<[k := Calling true]> ws))
| lk_return k ts ws : ws !! k = Some (Calling true) →
    lock_step (mkLocks (Worker k) ts ws) (mkLocks NoOne ts (<[k := Free]> ws))
| lk_swap k ts ws : ws !! k = Some WantsSwap →
    lock_step (mkLocks NoOne ts ws) (mkLocks (Worker k) ts (<[k := Swapping]> ws))
| lk_write k ts ws : ws !! k = Some Swapping → Forall (λ ph, reading ph = false) ws →
    lock_step (mkLocks (Worker k) ts ws) (mkLocks NoOne ts (<[k := Free]> ws))
| lk_other ts ws : lock_step (mkLocks NoOne ts ws) (mkLocks OtherThread ts ws)
| lk_other_done ts ws : lock_step (mkLocks OtherThread ts ws) (mkLocks NoOne ts ws).

Definition lock_start (n : nat) (ts : list PoolTask) : LockState := mkLocks NoOne ts (replicate n Free).

(** ** What the invariant says *)
Definition pool_task (m : Message) : option PoolTask :=
  match m with
  | User b => Some (Execute b)
  | System (HotSwap ptr) => Some (PoolHotSwap ptr)
  | System (Exit _) | System Ping | System Pong => None
  end.

(** The callable and the calls of a handler that ran every message in place. *)
Definition in_order (c : Closure) : PyActor := pool_done (omap pool_task (c_given c)) (new_callable (c_first c)).
#[local] Arguments in_order : simpl never.

Definition tasks_for (i : nat) (ts : list (nat * PoolTask)) : list PoolTask :=
  omap (λ x, if decide (fst x = i) then Some (snd x) else None) ts.

Definition pool_tasks (w : PyWorld) : list (nat * PoolTask) :=
  match gil_pool w with Some p => sp_held p ++ sp_queue p | None => [] end.

Definition pool_size (w : PyWorld) : option nat := sp_size <$> gil_pool w.

(** A closure whose tasks in the pool are [ts]. *)
Record closure_inv (sz : option nat) (ts : list PoolTask) (c : Closure) : Prop := {
  ci_thread : c_thread c = true → is_Some (c_chan c);
  ci_alive : ∀ q, c_chan c = Some q → c_thread c = false → c_open c = false ∧ q = [];
  ci_forwarded : ∀ q, c_chan c = Some q → Forall (λ m, forwarded m = true) q;
  ci_chan : ∀ q, c_chan c = Some q → pool_done (omap pool_task q) (c_cell c) = in_order c;
  ci_inline : c_chan c = None → c_release c = false → c_cell c = in_order c;
  ci_pool : c_chan c = None → c_release c = true →
    match sz with
    | None => False
    | Some 0%nat => c_cell c = new_callable (c_first c)
    | Some 1%nat => pool_done ts (c_cell c) = in_order c
    | Some _ => True
    end;
  ci_alone : is_Some (c_chan c) ∨ c_release c = false → ts = []
}.

Definition threads (cs : list Closure) : nat := length (filter (λ c, c_thread c = true) cs).

Record world_inv (w : PyWorld) : Prop := {
  wi_count : gil_threads w = threads (closures w);
  wi_held : ∀ p, gil_pool w = Some p → (length (sp_held p) <= sp_size p)%nat;
  wi_empty : ∀ p, gil_pool w = Some p → sp_size p = 0%nat → sp_queue p = [];
  wi_tasks : ∀ i t, (i, t) ∈ pool_tasks w → (i < length (closures w))%nat;
  wi_closures : ∀ i c, closures w !! i = Some c → closure_inv (pool_size w) (tasks_for i (pool_tasks w)) c
}.

(** ** Lemmas *)
Lemma pool_done_app ts ts' a : pool_done (ts ++ ts') a = pool_done ts' (pool_done ts a).
Proof. apply fold_left_app. Qed.

Lemma tasks_for_app i ts ts' : tasks_for i (ts ++ ts') = tasks_for i ts ++ tasks_for i ts'.
Proof. apply omap_app. Qed.

Lemma tasks_for_cons i j t ts :
  tasks_for i ((j, t) :: ts) = if decide (j = i) then t :: tasks_for i ts else tasks_for i ts.
Proof. unfold tasks_for. cbn. by destruct (decide (j = i)). Qed.

Lemma tasks_for_tag i j ts : tasks_for j ((λ t, (i, t)) <$> ts) = if decide (i = j) then ts else [].
Proof.
  induction ts as [|t ts IH]; [by destruct (decide (i = j))|]. unfold tasks_for in *. cbn.
  rewrite IH. by destruct (decide (i = j)).
Qed.

Lemma tasks_for_none i ts : (∀ t, (i, t) ∉ ts) → tasks_for i ts = [].
Proof.
  induction ts as [|[j t] ts IH]; intros H; [done|]. unfold tasks_for in *. cbn.
  rewrite IH by (intros t' Ht; apply (H t'); by right). destruct (decide (j = i)) as [->|]; [|done].
  destruct (H t). left.
Qed.

Lemma thread_turn_forwarded m a : forwarded m = true →
  ∃ t, pool_task m = Some t ∧ thread_turn m a = Some (run_task t a).
Proof. destruct m as [b|[info|ptr| |]]; intros H; try done; by eexists. Qed.

Lemma threads_insert cs i c c' : cs !! i = Some c → c_thread c' = c_thread c → threads (<[i := c']> cs) = threads cs.
Proof.
  unfold threads. revert i. induction cs as [|d cs IH]; intros [|i] Hi Hc; [done|done| |]; simpl in Hi |- *.
  - injection Hi as ->. rewrite !filter_cons. rewrite Hc. by destruct (decide (c_thread c = true)).
  - rewrite !filter_cons. destruct (decide (c_thread d = true)); simpl; by rewrite IH.
Qed.

Lemma threads_end cs i c c' : cs !! i = Some c → c_thread c = true → c_thread c' = false →
  threads cs = Datatypes.S (threads (<[i := c']> cs)).
Proof.
  unfold threads. revert i. induction cs as [|d cs IH]; intros [|i] Hi Hc Hc'; [done|done| |]; simpl in Hi |- *.
  - injection Hi as ->. rewrite !filter_cons. rewrite decide_True, decide_False by congruence. done.
  - rewrite !filter_cons. specialize (IH i Hi Hc Hc'). destruct (decide (c_thread d = true)); simpl; by rewrite IH.
Qed.

Lemma threads_snoc cs c : threads (cs ++ [c]) = (threads cs + if c_thread c then 1 else 0)%nat.
Proof. unfold threads. rewrite filter_app, length_app, filter_cons, filter_nil. by destruct (c_thread c). Qed.

(** A closure changed, and nothing else but the counter of threads. *)
Lemma world_inv_set i c c' w n : world_inv w → closures w !! i = Some c → n = threads (<[i := c']> (closures w)) →
  (closure_inv (pool_size w) (tasks_for i (pool_tasks w)) c → closure_inv (pool_size w) (tasks_for i (pool_tasks w)) c') →
  world_inv (mkWorld (<[i := c']> (closures w)) n (gil_pool w)).
Proof.
  intros Hi Hc Hn Hc'. split; cbn [closures gil_threads gil_pool]; try apply Hi; try done.
  - intros j t Ht. rewrite length_insert. by apply (wi_tasks _ Hi j t).
  - intros j d Hd. apply list_lookup_insert_Some in Hd as [(<- & <- & _)|[_ Hd]].
    + by apply Hc', (wi_closures _ Hi).
    + by apply (wi_closures _ Hi).
Qed.

(** A closure still open keeps its form. *)
Lemma closure_inv_call sz ts c q a given (msg : Message) :
  closure_inv sz ts c → c_open c = true → c_chan c = Some q → py_handler msg (Dedicated q, c_cell c) = (Dedicated given, a) →
  closure_inv sz ts (mkClosure (c_pid c) (c_release c) (Some given) (c_open c) (c_thread c) (c_first c) a (c_given c ++ [msg])).
Proof.
  intros Hi Ho Hq Hh. assert (Ht : c_thread c = true).
  { destruct (c_thread c) eqn:E; [done|]. destruct (ci_alive _ _ _ Hi q Hq E). congruence. }
  assert (Hf := ci_forwarded _ _ _ Hi q Hq). assert (Hd := ci_chan _ _ _ Hi q Hq).
  assert (Ha : ts = []) by (apply (ci_alone _ _ _ Hi); left; by exists q).
  assert (Hres : a = c_cell c ∧ (given = q ++ (if forwarded msg then [msg] else []))).
  { destruct msg as [b|[info|ptr| |]]; simpl in *; simplify_eq; by rewrite ?app_nil_r. }
  destruct Hres as [-> ->]. split; simpl; try done.
  - intros q' [= <-] H. congruence.
  - intros q' [= <-]. apply Forall_app. split; [done|]. destruct (forwarded msg) eqn:E; by repeat constructor.
  - intros q' [= <-]. unfold in_order in *. simpl. rewrite !omap_app, !pool_done_app, Hd.
    by destruct msg as [b|[info|ptr| |]].
Qed.

Lemma world_inv_update i c c' w w' : world_inv w → closures w !! i = Some c →
  closures w' = <[i := c']> (closures w) → gil_threads w' = threads (closures w') → pool_size w' = pool_size w →
  (∀ p, gil_pool w' = Some p → (length (sp_held p) <= sp_size p)%nat ∧ (sp_size p = 0%nat → sp_queue p = [])) →
  (∀ j t, (j, t) ∈ pool_tasks w' → (j, t) ∈ pool_tasks w ∨ j = i) →
  (∀ j, j ≠ i → tasks_for j (pool_tasks w') = tasks_for j (pool_tasks w)) →
  closure_inv (pool_size w) (tasks_for i (pool_tasks w')) c' → world_inv w'.
Proof.
  intros Hi Hc Hcs Hn Hsz Hp Ht Ho Hci. assert (Hlt := lookup_lt_Some _ _ _ Hc).
  split; [done|by intros p E; apply Hp|intros p E; by apply Hp| |].
  - intros j t [H| ->]%Ht; rewrite Hcs, length_insert; [by apply (wi_tasks _ Hi j t)|done].
  - intros j d Hd. rewrite Hsz. rewrite Hcs in Hd. apply list_lookup_insert_Some in Hd as [(<- & <- & _)|[Hne Hd]]; [done|].
    rewrite Ho by done. by apply (wi_closures _ Hi).
Qed.

Lemma held_empty w p : world_inv w → gil_pool w = Some p → sp_size p = 0%nat → pool_tasks w = [].
Proof.
  intros Hi Hp Hz. unfold pool_tasks. rewrite Hp, (wi_empty _ Hi p Hp Hz). assert (H := wi_held _ Hi p Hp).
  destruct (sp_held p); [done|simpl in H; lia].
Qed.

Lemma py_handler_inline msg a : py_handler msg (Inline, a) =
  (Inline, match pool_task msg with Some t => run_task t a | None => a end).
Proof. by destruct msg as [b|[info|ptr| |]]. Qed.

Lemma py_handler_pooled msg a : py_handler msg (Pooled [], a) =
  (Pooled match pool_task msg with Some t => [t] | None => [] end, a).
Proof. by destruct msg as [b|[info|ptr| |]]. Qed.

Lemma in_order_snoc c pid rel cell msg chan op th :
  in_order (mkClosure pid rel chan op th (c_first c) cell (c_given c ++ [msg])) =
    match pool_task msg with Some t => run_task t (in_order c) | None => in_order c end.
Proof. unfold in_order. cbn [c_given c_first]. rewrite omap_app, pool_done_app. cbn. by destruct (pool_task msg). Qed.

Lemma pool_send_tasks w w' ts p : world_inv w → gil_pool w = Some p → gil_pool w' = pool_send ts <$> gil_pool w →
  pool_tasks w' = pool_tasks w ++ (if (sp_size p =? 0)%nat then [] else ts) ∧
  (∀ p', gil_pool w' = Some p' → (length (sp_held p') <= sp_size p')%nat ∧ (sp_size p' = 0%nat → sp_queue p' = [])) ∧
  pool_size w' = pool_size w.
Proof.
  intros Hi Hp Hw. unfold pool_tasks, pool_size. rewrite Hw, Hp. cbn [fmap option_fmap option_map].
  unfold pool_send. destruct (sp_size p =? 0)%nat eqn:Hz; cbn [sp_held sp_queue sp_size].
  - split_and!; [by rewrite app_nil_r| |done]. intros p' [= <-]. split; [by apply (wi_held _ Hi)|by apply (wi_empty _ Hi)].
  - split_and!; [by rewrite (assoc_L (++))| |done]. intros p' [= <-]. cbn. apply Nat.eqb_neq in Hz. split; [by apply (wi_held _ Hi)|done].
Qed.

Lemma world_inv_call i msg c w : world_inv w → closures w !! i = Some c → c_open c = true → world_inv (closure_call i msg w).
Proof.
  intros Hi Hc Ho. assert (Hci := wi_closures _ Hi i c Hc). unfold closure_call. rewrite Hc. unfold route_of.
  destruct (c_chan c) as [q|] eqn:Hq.
  { destruct (py_handler msg (Dedicated q, c_cell c)) as [r a] eqn:Hh.
    assert (∃ q', r = Dedicated q') as [q' ->] by (destruct msg as [b|[info|ptr| |]]; simpl in Hh; simplify_eq; by eexists).
    assert (Ht : c_thread c = true).
    { destruct (c_thread c) eqn:E; [done|]. destruct (ci_alive _ _ _ Hci q Hq E). congruence. }
    rewrite Ht. assert (Hok := closure_inv_call _ _ c q a q' msg Hci Ho Hq Hh). rewrite Ht in Hok.
    apply (world_inv_set i c); [done|done| |done]. rewrite (threads_insert _ _ c) by done. apply Hi. }
  destruct (c_release c) eqn:Hr; [|].
  2:{ rewrite py_handler_inline. apply (world_inv_set i c); [done|done|rewrite (threads_insert _ _ c) by done; apply Hi|].
    intros _. split; cbn; try done; [intros H; by apply (ci_thread _ _ _ Hci) in H as [q Hq']; congruence| |].
    - intros _ _. rewrite in_order_snoc. by rewrite (ci_inline _ _ _ Hci).
    - intros _. apply (ci_alone _ _ _ Hci). by right. }
  assert (Hp := ci_pool _ _ _ Hci Hq Hr). unfold pool_size in Hp. destruct (gil_pool w) as [p|] eqn:Ep; [|done].
  rewrite py_handler_pooled. set (ts := match pool_task msg with Some t => [t] | None => [] end).
  match goal with |- world_inv ?w' => destruct (pool_send_tasks w w' ((λ t, (i, t)) <$> ts) p Hi Ep) as (Htasks & Hok & Hsz);
    [cbn; by rewrite Ep|] end.
  eapply (world_inv_update i c); [done|done|done| |done|done| | |].
  - cbn [gil_threads closures set_closure]. rewrite (threads_insert _ _ c) by done. apply Hi.
  - intros j t. rewrite Htasks. intros [H|H]%elem_of_app; [by left|right].
    destruct (sp_size p =? 0)%nat; [by apply not_elem_of_nil in H|]. by apply list_elem_of_fmap in H as (t' & [= -> ->] & _).
  - intros j Hne. rewrite Htasks, tasks_for_app. destruct (sp_size p =? 0)%nat; [by rewrite app_nil_r|].
    rewrite tasks_for_tag, decide_False by done. by rewrite app_nil_r.
  - rewrite Htasks. unfold pool_size. rewrite Ep. cbn [fmap option_fmap option_map] in *.
    split; cbn; rewrite ?Hq, ?Hr; try done.
    + intros H. apply (ci_thread _ _ _ Hci) in H as [q Hq']. congruence.
    + intros _ _. destruct (sp_size p) as [|[|n]] eqn:En; [done| |done]. cbn.
      rewrite in_order_snoc, tasks_for_app, pool_done_app, Hp, tasks_for_tag, decide_True by done. subst ts.
      by destruct (pool_task msg).
    + intros [[q H]|H]; [done|congruence].
Qed.

Lemma world_inv_drop i w : world_inv w → world_inv (closure_drop i w).
Proof.
  intros Hi. unfold closure_drop. destruct (closures w !! i) as [c|] eqn:Hc; [|done].
  apply (world_inv_set i c); [done|done|rewrite (threads_insert _ _ c) by done; apply Hi|].
  intros Hci. split; try apply Hci. intros q Hq Ht. by destruct (ci_alive _ _ _ Hci q Hq Ht).
Qed.

Lemma world_inv_thread i w : world_inv w → world_inv (thread_loop i w).
Proof.
  intros Hi. unfold thread_loop. destruct (closures w !! i) as [c|] eqn:Hc; [|done].
  destruct (c_thread c) eqn:Ht; [|done]. assert (Hci := wi_closures _ Hi i c Hc).
  assert (Halone : is_Some (c_chan c) → tasks_for i (pool_tasks w) = []) by (intros H; apply (ci_alone _ _ _ Hci); by left).
  destruct (c_chan c) as [[|m q]|] eqn:Hq; [| |done].
  - destruct (c_open c) eqn:Ho; [done|]. unfold thread_over. apply (world_inv_set i c); [done|done| |].
    + erewrite (wi_count _ Hi), (threads_end (closures w) i c _ Hc Ht); [by rewrite Nat.sub_1_r|done].
    + intros _. split; cbn; try done; [by intros q [= <-]|by intros q [= <-]| |by intros _; apply Halone].
      intros q [= <-]. by apply (ci_chan _ _ _ Hci []).
  - assert (Hf := ci_forwarded _ _ _ Hci _ Hq). apply Forall_cons in Hf as [Hm Hf].
    destruct (thread_turn_forwarded m (c_cell c) Hm) as (t & Hpt & ->).
    assert (Hd := ci_chan _ _ _ Hci _ Hq). cbn in Hd. rewrite Hpt in Hd.
    apply (world_inv_set i c); [done|done|rewrite (threads_insert _ _ c) by done; apply Hi|].
    intros _. split; cbn; try done; [by intros q' [= <-]|by intros q' [= <-]|by intros _; apply Halone].
Qed.

Lemma world_inv_take w : world_inv w → world_inv (worker_take w).
Proof.
  intros Hi. unfold worker_take. destruct (gil_pool w) as [[n [|t q] h]|] eqn:Hp; [done| |done].
  destruct (length h <? n)%nat eqn:Hlt; [|done]. apply Nat.ltb_lt in Hlt.
  assert (Htasks : pool_tasks (mkWorld (closures w) (gil_threads w) (Some (mkPool n q (h ++ [t])))) = pool_tasks w).
  { unfold pool_tasks. rewrite Hp. cbn. by rewrite <-(assoc_L (++)). }
  split; rewrite ?Htasks; cbn [closures gil_threads gil_pool].
  - apply Hi.
  - intros p [= <-]. cbn. rewrite length_app. cbn. lia.
  - intros p [= <-] H. cbn in *. lia.
  - apply Hi.
  - intros j c Hc. assert (H := wi_closures _ Hi j c Hc). unfold pool_size in *. by rewrite Hp in H.
Qed.

Lemma world_inv_run k w : world_inv w → world_inv (worker_run k w).
Proof.
  intros Hi. unfold worker_run. destruct (gil_pool w) as [[n q h]|] eqn:Hp; [|done].
  destruct (h !! k) as [[i t]|] eqn:Hk; [|done].
  assert (Hlen : (length h <= n)%nat) by apply (wi_held _ Hi _ Hp).
  assert (Hsplit : h = take k h ++ (i, t) :: drop (Datatypes.S k) h) by by rewrite take_drop_middle.
  assert (Htasks : pool_tasks w = take k h ++ (i, t) :: drop (Datatypes.S k) h ++ q).
  { unfold pool_tasks. rewrite Hp. cbn. by rewrite Hsplit at 1; rewrite <-(assoc_L (++)). }
  destruct (closures w !! i) as [c|] eqn:Hc.
  2:{ apply lookup_ge_None in Hc. assert (i < length (closures w))%nat; [|lia].
    apply (wi_tasks _ Hi i t). rewrite Htasks. apply elem_of_app. right. left. }
  assert (Hci := wi_closures _ Hi i c Hc). unfold set_closure. cbn [closures gil_threads gil_pool].
  assert (Hnew : pool_tasks (mkWorld (<[i := mkClosure (c_pid c) (c_release c) (c_chan c) (c_open c) (c_thread c) (c_first c)
      (run_task t (c_cell c)) (c_given c)]> (closures w)) (gil_threads w) (Some (mkPool n q (delete k h)))) =
      take k h ++ drop (Datatypes.S k) h ++ q).
  { unfold pool_tasks. cbn. rewrite delete_take_drop. by rewrite <-(assoc_L (++)). }
  eapply (world_inv_update i c); [done|done|done| | | | | |].
  - cbn [gil_threads closures]. rewrite (threads_insert _ _ c) by done. apply Hi.
  - unfold pool_size. by rewrite Hp.
  - intros p [= <-]. cbn. rewrite length_delete by by eexists. split; [lia|]. by apply (wi_empty _ Hi _ Hp).
  - intros j t'. rewrite Hnew, Htasks, !elem_of_app, !elem_of_cons, elem_of_app. naive_solver.
  - intros j Hne. by rewrite Hnew, Htasks, !(tasks_for_app j (take k h)), tasks_for_cons, decide_False by done.
  - assert (Hmine : tasks_for i (pool_tasks w) = tasks_for i (take k h) ++ t :: tasks_for i (drop (Datatypes.S k) h ++ q)).
    { by rewrite Htasks, tasks_for_app, tasks_for_cons, decide_True. }
    assert (Hno : ¬ (is_Some (c_chan c) ∨ c_release c = false)).
    { intros H. apply (ci_alone _ _ _ Hci) in H. rewrite Hmine in H. by destruct (tasks_for i (take k h)). }
    assert (Hone := ci_pool _ _ _ Hci). rewrite Hnew. unfold pool_size in *. rewrite Hp in *. cbn [fmap option_fmap option_map sp_size] in *.
    split; cbn; try (intros; exfalso; apply Hno; by eauto).
    + intros H. destruct Hno. left. by apply (ci_thread _ _ _ Hci).
    + intros Hcn Hr. specialize (Hone Hcn Hr). destruct n as [|[|n]]; [| |done].
      * apply lookup_lt_Some in Hk. lia.
      * assert (k = 0%nat) as -> by (apply lookup_lt_Some in Hk; lia). rewrite Hmine in Hone. cbn in Hone. done.
Qed.

Lemma claim_thread_cases release cfg w w1 d : claim_thread release cfg w = (w1, Ok d) →
  closures w1 = closures w ∧ gil_threads w1 = (gil_threads w + if d then 1 else 0)%nat ∧
  (d = true → release = true) ∧
  (gil_pool w1 = gil_pool w ∨ (gil_pool w = None ∧ ∃ n, gil_pool w1 = Some (mkPool n [] []))) ∧
  (release = true → d = false → gil_pool w1 ≠ None).
Proof.
  unfold claim_thread. destruct release; [|intros [= <- <-]; split_and!; first [done|by left|simpl; lia]].
  destruct (get_release_gil_limits cfg) as [max n]. destruct (max <=? Z.of_nat (gil_threads w)).
  - destruct (release_gil_strict cfg); [done|]. intros [= <- <-]. cbn. rewrite Nat.add_0_r.
    split_and!; try done. destruct (gil_pool w); [by left|right; eauto].
  - intros [= <- <-]. split_and!; try done. by left.
Qed.

Lemma claim_thread_pool release cfg w w1 d : claim_thread release cfg w = (w1, Ok d) →
  pool_tasks w1 = pool_tasks w ∧ (pool_size w1 = pool_size w ∨ pool_size w = None) ∧
  (∀ p, gil_pool w1 = Some p → gil_pool w = Some p ∨ sp_held p = [] ∧ sp_queue p = []).
Proof.
  intros (_ & _ & _ & Hp & _)%claim_thread_cases. unfold pool_tasks, pool_size.
  destruct Hp as [->|[-> [n ->]]].
  - split_and!; [done|by left|]. intros p H. by left.
  - split_and!; [done|by right|]. intros p [= <-]. by right.
Qed.

Lemma closure_inv_size sz ts c : closure_inv None ts c → closure_inv sz ts c.
Proof. intros Hi. split; try apply Hi. intros Hc Hr. by destruct (ci_pool _ _ _ Hi Hc Hr). Qed.

Lemma closure_inv_new pid callable release d sz : (d = true → release = true) → (release = true → d = false → sz ≠ None) →
  closure_inv sz [] (mkClosure pid release (if d then Some [] else None) true d callable (new_callable callable) []).
Proof.
  intros Hd Hs. destruct d; split; cbn; try done; try (by intros q [= <-]).
  intros _ Hr. destruct sz as [[|[|n]]|]; try done. by destruct (Hs Hr eq_refl).
Qed.

Lemma world_inv_spawn pid callable release cfg w w1 d : claim_thread release cfg w = (w1, Ok d) → world_inv w →
  world_inv (add_closure pid callable release d w1).
Proof.
  intros Hcl Hi. destruct (claim_thread_cases _ _ _ _ _ Hcl) as (Hc & Hn & Hd & _ & Hs).
  destruct (claim_thread_pool _ _ _ _ _ Hcl) as (Ht & Hsz & Hp).
  assert (Htasks : pool_tasks (add_closure pid callable release d w1) = pool_tasks w) by done.
  assert (Hsize : pool_size (add_closure pid callable release d w1) = pool_size w1) by done.
  split; cbn [closures gil_threads gil_pool add_closure]; rewrite ?Htasks, ?Hsize.
  - rewrite threads_snoc, Hc, <-(wi_count _ Hi). done.
  - intros p [H|[-> _]]%Hp; [by apply (wi_held _ Hi)|simpl; lia].
  - intros p [H|[_ ->]]%Hp; [by apply (wi_empty _ Hi)|done].
  - intros i t Hin. rewrite length_app, Hc. apply (wi_tasks _ Hi) in Hin. lia.
  - intros i c. rewrite Hc. intros [H|[Hge H]]%lookup_app_Some.
    + apply (wi_closures _ Hi) in H. destruct Hsz as [->|Hnone]; [done|]. rewrite Hnone in H. by apply closure_inv_size.
    + apply list_lookup_singleton_Some in H as [H <-]. rewrite tasks_for_none.
      * apply closure_inv_new; [done|]. intros Hr Hdf. specialize (Hs Hr Hdf). unfold pool_size. by destruct (gil_pool w1).
      * intros t Hin. apply (wi_tasks _ Hi) in Hin. lia.
Qed.

Lemma world_step_inv w w' : world_step w w' → world_inv w → world_inv w'.
Proof.
  intros Hs Hi. destruct Hs as [pid callable release cfg w w1 d Hcl|i msg c w Hc Ho|i w|i w|w|k w].
  - by apply (world_inv_spawn pid callable release cfg w w1 d).
  - by apply (world_inv_call i msg c).
  - by apply world_inv_drop.
  - by apply world_inv_thread.
  - by apply world_inv_take.
  - by apply world_inv_run.
Qed.

Lemma world_reachable_inv w : reachable world_init world_step w → world_inv w.
Proof.
  apply reachable_invariant; [|intros w1 w2 Hi Hs; by apply (world_step_inv w1 w2)].
  intros w' ->. split; cbn; try done; try (intros i t Hin; by apply not_elem_of_nil in Hin).
Qed.

(** A turn of an actor's task is a step of the world, whatever the runtime gives it. *)
Lemma py_actor_turn_world {F S} `{PA : PidAllocator S} i w (rt : Runtime F S) :
  rtc world_step w (fst (py_actor_turn i w rt)).
Proof.
  unfold py_actor_turn. destruct (closures w !! i) as [c|] eqn:Hc; [|done]. destruct (c_open c) eqn:Ho; [|done].
  destruct (handler_turn (c_pid c) None rt) as [rt' [msg y| |]]; [|apply rtc_once, ws_drop|done].
  apply rtc_once. by apply (ws_call i msg c).
Qed.

(** The pool's size is the first one. *)
Lemma pool_size_step w w' n : world_step w w' → pool_size w = Some n → pool_size w' = Some n.
Proof.
  intros Hs Hn. destruct Hs as [pid callable release cfg w w1 d Hcl|i msg c w Hc Ho|i w|i w|w|k w].
  - destruct (claim_thread_pool _ _ _ _ _ Hcl) as (_ & [H|H] & _); unfold pool_size in *; cbn; congruence.
  - unfold closure_call. rewrite Hc. destruct (py_handler _ _) as [[|q|ts] a]; try done.
    unfold pool_size in *. cbn. destruct (gil_pool w) as [p|]; [|done]. cbn in *. unfold pool_send.
    by destruct (sp_size p =? 0)%nat.
  - unfold closure_drop. by destruct (closures w !! i).
  - unfold thread_loop. destruct (closures w !! i) as [c|]; [|done]. destruct (c_thread c); [|done].
    destruct (c_chan c) as [[|m q]|]; [by destruct (c_open c)| |done]. by destruct (thread_turn m (c_cell c)).
  - unfold worker_take. destruct (gil_pool w) as [[n' [|t q] h]|] eqn:E; [done| |done].
    destruct (length h <? n')%nat; [|done]. unfold pool_size in *. by rewrite E in Hn.
  - unfold worker_run. destruct (gil_pool w) as [[n' q h]|] eqn:E; [|done]. destruct (h !! k) as [[i t]|]; [|done].
    unfold pool_size in *. rewrite E in Hn. by destruct (closures w !! i).
Qed.

Lemma pool_done_calls ts a : ∃ rest, calls (pool_done ts a) = calls a ++ rest.
Proof.
  revert a. induction ts as [|t ts IH]; intros a; [exists []; by rewrite app_nil_r|].
  destruct (IH (run_task t a)) as [rest Hr]. unfold pool_done in *. simpl. rewrite Hr.
  destruct t as [b|ptr]; [|by exists rest]. exists ((behavior a, b) :: rest). simpl. by rewrite <-(assoc_L (++)).
Qed.

(** A thread whose sender is gone empties its channel and ends. *)
Lemma thread_drains i q : ∀ w c, world_inv w → closures w !! i = Some c → c_chan c = Some q → c_open c = false → c_thread c = true →
  ∃ c', closures (Nat.iter (length q + 1) (thread_loop i) w) !! i = Some c' ∧ c_thread c' = false ∧ c_chan c' = Some [] ∧
    c_cell c' = in_order c ∧ gil_threads (Nat.iter (length q + 1) (thread_loop i) w) = (gil_threads w - 1)%nat.
Proof.
  induction q as [|m q IH]; intros w c Hi Hc Hq Ho Ht; assert (Hci := wi_closures _ Hi i c Hc).
  - simpl. unfold thread_loop. rewrite Hc, Ht, Hq, Ho. simpl. rewrite list_lookup_insert_eq by by eapply lookup_lt_Some.
    eexists. split_and!; [done|done|done| |done]. simpl. by apply (ci_chan _ _ _ Hci []).
  - cbn [length Nat.add]. rewrite Nat.iter_succ_r.
    assert (Hf := ci_forwarded _ _ _ Hci _ Hq). apply Forall_cons in Hf as [Hm _].
    destruct (thread_turn_forwarded m (c_cell c) Hm) as (t & Hpt & Htt).
    assert (Hi' := world_inv_thread i w Hi). unfold thread_loop in Hi' at 1. rewrite Hc, Ht, Hq, Htt in Hi'.
    unfold thread_loop at 2 4. rewrite Hc, Ht, Hq, Htt.
    match goal with |- context [set_closure i ?d w] => destruct (IH (set_closure i d w) d) as (c' & H1 & H2 & H3 & H4 & H5) end;
      [done|by apply list_lookup_insert_eq, (lookup_lt_Some _ _ _ Hc)|done|done|done|].
    exists c'. split_and!; [done|done|done|exact H4|exact H5].
Qed.

Lemma lock_one_inv n ts s : (n = 1%nat) → reachable (λ s, s = lock_start n ts) lock_step s →
  ∃ ph, workers s = [ph] ∧ ((gil s = Worker 0 ∧ (ph = Calling true ∨ ph = Swapping)) ∨
    ((gil s = NoOne ∨ gil s = OtherThread) ∧ ph ≠ Calling true ∧ ph ≠ Swapping)).
Proof.
  intros ->. revert s. apply reachable_invariant.
  - intros s ->. exists Free. split; [done|]. right. split_and!; [by left|done|done].
  - intros s s' (ph & Hw & Hg) Hs. destruct Hs as [k t ts' g ws Hk|k ts' ws Hk|k ts' ws Hk|k ts' ws Hk|k ts' ws Hk|k ts' ws Hk
      |k ts' ws Hk Hr|ts' ws|ts' ws]; cbn [gil workers] in *; subst ws; try (destruct k; [|done]; injection Hk as ->; simpl);
      eexists; (split; [done|]); try (by left; eauto); try (right; split_and!; by eauto);
      try (destruct Hg as [[? ?]|[? [? ?]]]; [naive_solver|]; right; destruct t; naive_solver); naive_solver.
Qed.

Lemma lock_one_finishes ts : ∀ ph g, (g = Worker 0 ∧ (ph = Calling true ∨ ph = Swapping)) ∨
    ((g = NoOne ∨ g = OtherThread) ∧ ph ≠ Calling true ∧ ph ≠ Swapping) →
  rtc lock_step (mkLocks g ts [ph]) (mkLocks NoOne [] [Free]).
Proof.
  assert (Hret : ∀ ts, rtc lock_step (mkLocks NoOne ts [Free]) (mkLocks NoOne [] [Free]) →
    ∀ ph g, (g = Worker 0 ∧ (ph = Calling true ∨ ph = Swapping)) ∨
      ((g = NoOne ∨ g = OtherThread) ∧ ph ≠ Calling true ∧ ph ≠ Swapping) →
    rtc lock_step (mkLocks g ts [ph]) (mkLocks NoOne [] [Free])).
  { clear ts. intros ts Hend.
    assert (Hcall : rtc lock_step (mkLocks (Worker 0) ts [Calling true]) (mkLocks NoOne [] [Free])).
    { eapply rtc_l; [by apply (lk_return 0)|done]. }
    assert (Hswap : rtc lock_step (mkLocks (Worker 0) ts [Swapping]) (mkLocks NoOne [] [Free])).
    { eapply rtc_l; [by apply (lk_write 0); [done|repeat constructor]|done]. }
    assert (Hfree : ∀ ph, ph ≠ Calling true → ph ≠ Swapping → rtc lock_step (mkLocks NoOne ts [ph]) (mkLocks NoOne [] [Free])).
    { intros [| |[]| |] H1 H2; try done.
      - eapply rtc_l; [by apply (lk_call 0)|done].
      - eapply rtc_l; [by apply (lk_get_back 0)|done].
      - eapply rtc_l; [by apply (lk_swap 0)|done]. }
    intros ph g [[-> [-> | ->]]|[[-> | ->] [H1 H2]]]; [done|done|by apply Hfree|].
    eapply rtc_l; [apply lk_other_done|by apply Hfree]. }
  induction ts as [|t ts IH]; intros ph g Hg; apply Hret; try done.
  eapply rtc_l; [by apply (lk_take 0)|]. apply IH. right. split_and!; [by left|by destruct t|by destruct t].
Qed.

(** What a closure's callable has been called with, against its messages run in
    order. *)
Lemma in_order_prefix w i c : reachable world_init world_step w → closures w !! i = Some c →
  (c_chan c = None → c_release c = true → pool_size w = Some 1%nat) →
  (∃ rest, calls (in_order c) = calls (c_cell c) ++ rest) ∧
  (default [] (c_chan c) = [] → tasks_for i (pool_tasks w) = [] → c_cell c = in_order c).
Proof.
  intros Hi%world_reachable_inv Hc Hone. assert (Hci := wi_closures _ Hi i c Hc).
  destruct (c_chan c) as [q|] eqn:Hq.
  - assert (Hd := ci_chan _ _ _ Hci q Hq). rewrite <-Hd. split; [apply pool_done_calls|]. simpl. by intros -> _.
  - destruct (c_release c) eqn:Hr.
    + assert (Hd := ci_pool _ _ _ Hci Hq Hr). rewrite (Hone eq_refl eq_refl) in Hd. rewrite <-Hd.
      split; [apply pool_done_calls|]. by intros _ ->.
    + rewrite (ci_inline _ _ _ Hci Hq Hr). split; [exists []; by rewrite app_nil_r|done].
Qed.

(** ** Properties *)
Section properties.
Context {F S : Type} `{PA : PidAllocator S}.
Implicit Types (rt : Runtime F S) (w : PyWorld).

(** C34: a spawn is refused exactly when it asks for a thread, the limit is reached
    and the mode is strict, and a refused spawn changes nothing, the counter of
    threads included.  Otherwise a handler actor with a fresh PID runs the
    callable: with a thread of its own when it asked for one and the limit allows
    it; a spawn that asked and got none finds the shared pool in place. *)
Theorem spawn_py_handler_spec callable budget release_gil w rt :
  reachable rt_init rt_step rt → pa_room (slab rt) →
  let max := release_gil_max_threads (config rt) in
  let asks := default false release_gil in
  let over := bool_decide (max <= Z.of_nat (gil_threads w)) in
  let '(w', rt', answer) := spawn_py_handler callable budget release_gil w rt in
  match answer with
  | Spawned pid =>
      asks && over && release_gil_strict (config rt) = false ∧
      is_alive pid rt = false ∧ actors rt' !! pid = Some (Handler budget 0) ∧
      (∃ c, closures w' = closures w ++ [c] ∧ c_pid c = pid ∧ c_thread c = asks && negb over ∧
         c_release c = asks ∧ c_cell c = new_callable callable) ∧
      gil_threads w' = (gil_threads w + if asks && negb over then 1 else 0)%nat ∧
      (asks && over = true → gil_pool w' ≠ None)
  | SpawnError _ => asks && over && release_gil_strict (config rt) = true ∧ w' = w ∧ rt' = rt
  | SpawnPanic => False
  end.
Proof.
  intros Hi%rt_reachable_inv Hroom. assert (Hok : pa_ok (slab rt)) by apply Hi.
  destruct (pa_alloc_total (slab rt) Hok) as (sl & pid & Ha).
  assert (Hfresh := pa_alloc_fresh _ _ _ Hok Hroom Ha).
  unfold spawn_py_handler, claim_thread, get_release_gil_limits, spawn_handler_with_budget, spawn. rewrite Ha.
  destruct (default false release_gil); cbn [andb].
  - destruct (release_gil_max_threads (config rt) <=? Z.of_nat (gil_threads w)) eqn:Hle.
    + apply Z.leb_le in Hle. rewrite bool_decide_true by done. destruct (release_gil_strict (config rt)); [done|].
      split_and!; first [done|by rewrite Nat.add_0_r|by simpl; rewrite lookup_insert_eq|by eexists].
    + apply Z.leb_gt in Hle. rewrite bool_decide_false by lia.
      split_and!; first [done|by simpl; rewrite lookup_insert_eq|by eexists].
  - split_and!; first [done|by rewrite Nat.add_0_r|by simpl; rewrite lookup_insert_eq|by eexists].
Qed.

(** whatever the other actors, threads and workers do, an actor that runs in
    place, on its own thread or on a pool of one worker has made its calls in the
    order of the messages its handler was given, each to the callable of the hot
    swaps before it; once nothing of it is queued it has made them all. *)
Theorem push_actor_calls_in_order w i c : reachable world_init world_step w → closures w !! i = Some c →
  (c_chan c = None → c_release c = true → pool_size w = Some 1%nat) →
  (∃ rest, calls (in_order c) = calls (c_cell c) ++ rest) ∧
  (default [] (c_chan c) = [] → tasks_for i (pool_tasks w) = [] → c_cell c = in_order c).
Proof. apply in_order_prefix. Qed.

(** the counter of dedicated threads is the number of running threads, an open
    actor with a channel has its thread, and when a handler is dropped its thread
    makes the calls that are still queued, one per turn, then ends and gives its
    place back. *)
Theorem dedicated_thread_lifetime w i c q : reachable world_init world_step w →
  closures w !! i = Some c → c_chan c = Some q →
  gil_threads w = threads (closures w) ∧ (c_open c = true → c_thread c = true) ∧
  (c_open c = false → c_thread c = true →
    let w' := Nat.iter (length q + 1) (thread_loop i) w in
    ∃ c', closures w' !! i = Some c' ∧ c_thread c' = false ∧ c_chan c' = Some [] ∧ c_cell c' = in_order c ∧
      gil_threads w' = (gil_threads w - 1)%nat).
Proof.
  intros Hi%world_reachable_inv Hc Hq. split; [apply Hi|]. split; [|intros Ho Ht; by apply thread_drains].
  intros Ho. destruct (c_thread c) eqn:Ht; [done|]. destruct (ci_alive _ _ _ (wi_closures _ Hi i c Hc) q Hq Ht). congruence.
Qed.

(** the first spawn that falls back to the pool fixes its size for good: later
    limits do not change it, and a pool without workers drops every message of
    its actors - no callable of theirs is ever called. *)
Theorem pool_size_is_final w w' n : reachable world_init world_step w → pool_size w = Some n → rtc world_step w w' →
  pool_size w' = Some n ∧
  (n = 0%nat → pool_tasks w' = [] ∧ ∀ i c, closures w' !! i = Some c → c_chan c = None → c_release c = true →
     c_cell c = new_callable (c_first c)).
Proof.
  intros Hr Hn Hrun. assert (Hn' : pool_size w' = Some n).
  { apply (rtc_invariant world_step (λ w, pool_size w = Some n) w); [|done|done]. intros x y Hxy. by apply pool_size_step. }
  split; [done|]. intros ->. assert (Hi : world_inv w') by by apply world_reachable_inv, (reachable_rtc _ _ w).
  split.
  - unfold pool_size in Hn'. destruct (gil_pool w') as [p|] eqn:Hp; [|done]. injection Hn' as Hz. by apply (held_empty w' p).
  - intros i c Hc Hq Hrel. assert (Hd := ci_pool _ _ _ (wi_closures _ Hi i c Hc) Hq Hrel). by rewrite Hn' in Hd.
Qed.

(** C35: with one worker the tasks of an actor can always be finished.  With two or
    more, a hot swap behind a message can stop the process: the worker of the swap
    holds the GIL and waits for the callable's lock, the worker of the message
    holds the lock and waits for the GIL, and no thread of the process that needs
    Python takes another step. *)
Theorem pool_hot_swap_deadlock n b ptr :
  (n = 1%nat → ∀ ts s, reachable (λ s, s = lock_start n ts) lock_step s →
     rtc lock_step s (mkLocks NoOne [] [Free])) ∧
  ((2 <= n)%nat → ∃ s, rtc lock_step (lock_start n [Execute b; PoolHotSwap ptr]) s ∧
     gil s = Worker 1 ∧ workers s !! 0%nat = Some (Calling false) ∧ ∀ s', ¬ lock_step s s').
Proof.
  split.
  - intros -> ts [g ts' ws] (ph & Hw & Hg)%(lock_one_inv 1); [|done]. simpl in Hw, Hg. subst ws. by apply lock_one_finishes.
  - intros Hn. destruct n as [|[|n]]; [lia|lia|]. unfold lock_start. simpl.
    exists (mkLocks (Worker 1) [] (Calling false :: Swapping :: replicate n Free)). split_and!; [|done|done|].
    + eapply rtc_l; [by apply (lk_take 0)|]. eapply rtc_l; [by apply (lk_take 1)|].
      eapply rtc_l; [by apply (lk_call 0)|]. eapply rtc_l; [by apply (lk_give_up 0)|].
      eapply rtc_l; [by apply (lk_swap 1)|]. done.
    + intros s' Hs. inversion Hs as [| |k ts ws Hk| |k ts ws Hk| |k ts ws Hk Hr| |]; subst; simpl in *; try congruence.
      by apply Forall_cons in Hr as [Hr _].
Qed.
End properties.

(** ** Instances *)
Module PyActorDemo.
Definition config_of (max pool_size : Z) : Config := set_release_gil_limits max pool_size (config Demo.two).

Definition claimed (cfg : Config) (w : PyWorld) : PyWorld := fst (claim_thread true cfg w).

(** An actor with a thread, given a message and then dropped. *)
Definition threaded : PyWorld := add_closure Demo.a 7 true true (claimed (config_of 1 0) world_new).

Definition dropped : PyWorld := closure_drop 0 (closure_call 0 (User [x61]) threaded).

(** An actor that fell back to a pool without workers, and the message it loses. *)
Definition fallen : PyWorld := add_closure Demo.a 7 true false (claimed (config_of 0 0) world_new).

Definition lost : PyWorld := closure_call 0 (User [x61]) fallen.
End PyActorDemo.

Lemma py_actor_threaded_reachable : reachable world_init world_step PyActorDemo.threaded.
Proof.
  apply (reach_step _ _ world_new); [by apply reach_init|].
  by apply (ws_spawn Demo.a 7 true (PyActorDemo.config_of 1 0)).
Qed.

Lemma py_actor_dropped_reachable : reachable world_init world_step PyActorDemo.dropped.
Proof.
  apply (reach_step _ _ (closure_call 0 (User [x61]) PyActorDemo.threaded)); [|apply ws_drop].
  eapply reach_step; [apply py_actor_threaded_reachable|by eapply ws_call].
Qed.

Lemma py_actor_fallen_reachable : reachable world_init world_step PyActorDemo.fallen.
Proof.
  apply (reach_step _ _ world_new); [by apply reach_init|].
  by apply (ws_spawn Demo.a 7 true (PyActorDemo.config_of 0 0)).
Qed.

Definition demo_closure : Closure :=
  mkClosure Demo.a true (Some [User [x61]]) false true 7 (new_callable 7) [User [x61]].

Lemma spawn_py_handler_spec_witness :
  let max := release_gil_max_threads (config Demo.two) in
  let asks := default false (Some true) in
  let over := bool_decide (max <= Z.of_nat (gil_threads world_new)) in
  let '(w', rt', answer) := spawn_py_handler 7 10 (Some true) world_new Demo.two in
  match answer with
  | Spawned pid =>
      asks && over && release_gil_strict (config Demo.two) = false ∧
      is_alive pid Demo.two = false ∧ actors rt' !! pid = Some (Handler 10 0) ∧
      (∃ c, closures w' = closures world_new ++ [c] ∧ c_pid c = pid ∧ c_thread c = asks && negb over ∧
         c_release c = asks ∧ c_cell c = new_callable 7) ∧
      gil_threads w' = (gil_threads world_new + if asks && negb over then 1 else 0)%nat ∧
      (asks && over = true → gil_pool w' ≠ None)
  | SpawnError _ => asks && over && release_gil_strict (config Demo.two) = true ∧ w' = world_new ∧ rt' = Demo.two
  | SpawnPanic => False
  end.
Proof.
  apply (spawn_py_handler_spec 7 10 (Some true) world_new Demo.two); [|by vm_compute].
  apply demo_spawned; [by eexists|done|]. apply demo_spawned; [by eexists|done|]. by apply reach_init.
Defined.

Lemma push_actor_calls_in_order_witness :
  (∃ rest, calls (in_order demo_closure) = calls (c_cell demo_closure) ++ rest) ∧
  (default [] (c_chan demo_closure) = [] → tasks_for 0 (pool_tasks PyActorDemo.dropped) = [] →
   c_cell demo_closure = in_order demo_closure).
Proof.
  apply (push_actor_calls_in_order PyActorDemo.dropped 0 demo_closure);
    [apply py_actor_dropped_reachable|reflexivity|discriminate].
Defined.

Lemma dedicated_thread_lifetime_witness :
  gil_threads PyActorDemo.dropped = threads (closures PyActorDemo.dropped) ∧
  (c_open demo_closure = true → c_thread demo_closure = true) ∧
  (c_open demo_closure = false → c_thread demo_closure = true →
    let w' := Nat.iter (length [User [x61]] + 1) (thread_loop 0) PyActorDemo.dropped in
    ∃ c', closures w' !! 0%nat = Some c' ∧ c_thread c' = false ∧ c_chan c' = Some [] ∧ c_cell c' = in_order demo_closure ∧
      gil_threads w' = (gil_threads PyActorDemo.dropped - 1)%nat).
Proof.
  apply (dedicated_thread_lifetime PyActorDemo.dropped 0 demo_closure [User [x61]]);
    [apply py_actor_dropped_reachable|reflexivity|reflexivity].
Defined.

Lemma pool_size_is_final_witness :
  pool_size PyActorDemo.lost = Some 0%nat ∧
  (0%nat = 0%nat → pool_tasks PyActorDemo.lost = [] ∧
   ∀ i c, closures PyActorDemo.lost !! i = Some c → c_chan c = None → c_release c = true →
     c_cell c = new_callable (c_first c)).
Proof.
  apply (pool_size_is_final PyActorDemo.fallen PyActorDemo.lost 0);
    [apply py_actor_fallen_reachable|reflexivity|apply rtc_once; by eapply ws_call].
Defined.

Lemma pool_hot_swap_deadlock_witness :
  (∀ s, reachable (λ s, s = lock_start 1 [Execute []; PoolHotSwap 8]) lock_step s →
     rtc lock_step s (mkLocks NoOne [] [Free])) ∧
  ∃ s, rtc lock_step (lock_start 2 [Execute []; PoolHotSwap 8]) s ∧
     gil s = Worker 1 ∧ workers s !! 0%nat = Some (Calling false) ∧ ∀ s', ¬ lock_step s s'.
Proof.
  split.
  - exact (proj1 (pool_hot_swap_deadlock 1 [] 8) eq_refl [Execute []; PoolHotSwap 8]).
  - apply (proj2 (pool_hot_swap_deadlock 2 [] 8)). lia.
Defined.
