(* ===== verification/SharedBuffer.v ===== *)
(** * Shared buffers in memory ([src/src/py.rs], [src/src/buffer.rs])

    [allocate_buffer] gives Python an id, a memoryview on the vector's bytes and a
    capsule that frees the id; [send_buffer] moves the vector into a message
    without copying it.  The memoryview is a raw pointer: nothing ties it to the
    vector.  This file models the memory behind [Buffer]: the live blocks, the
    registry's table from ids to blocks, the messages that own a block, the
    capsules and the views.

    Python calls run under the GIL, hence one at a time.  The allocator is free to
    choose any address that is not live.  A double free and an access to a block
    that is not live are outcomes of their own, [MemoryFault].  The registry's
    mutex is poisoned by a panic under the lock, and every later [lock().unwrap()]
    panics; in [capsule_destructor], an [extern "C"] function, a panic ends the
    process. *)
From S2P Require Import Prelude Pid Mailbox Registry Buffer Supervisor Runtime RuntimeInv PyMembrane.
From Stdlib Require Import Strings.Byte.

Abbreviation Addr := Z.

Record Shared := mkShared {
  blocks : gmap Addr (list byte);
  table : gmap BufferId Addr;
  sh_next : Z;
  poisoned : bool;
  id_boxes : gset BufferId;
  capsules : gset BufferId;
  views : gmap BufferId (Addr * nat);
  in_flight : list Addr
}.

Definition shared_new : Shared := mkShared ∅ ∅ 1 false ∅ ∅ ∅ [].

Inductive outcome (A : Type) :=
| Ret (a : A)
| Raise (msg : string)
| RustPanic
| ProcessAbort
| MemoryFault.
Arguments Ret {A} a.
Arguments Raise {A} msg.
Arguments RustPanic {A}.
Arguments ProcessAbort {A}.
Arguments MemoryFault {A}.

Definition set_blocks b s := mkShared b (table s) (sh_next s) (poisoned s) (id_boxes s) (capsules s) (views s) (in_flight s).
Definition set_table t s := mkShared (blocks s) t (sh_next s) (poisoned s) (id_boxes s) (capsules s) (views s) (in_flight s).
Definition set_next n s := mkShared (blocks s) (table s) n (poisoned s) (id_boxes s) (capsules s) (views s) (in_flight s).
Definition set_poisoned s := mkShared (blocks s) (table s) (sh_next s) true (id_boxes s) (capsules s) (views s) (in_flight s).
Definition set_id_boxes b s := mkShared (blocks s) (table s) (sh_next s) (poisoned s) b (capsules s) (views s) (in_flight s).
Definition set_capsules c s := mkShared (blocks s) (table s) (sh_next s) (poisoned s) (id_boxes s) c (views s) (in_flight s).
Definition set_views v s := mkShared (blocks s) (table s) (sh_next s) (poisoned s) (id_boxes s) (capsules s) v (in_flight s).
Definition set_in_flight l s := mkShared (blocks s) (table s) (sh_next s) (poisoned s) (id_boxes s) (capsules s) (views s) l.

(** A step that may not return. *)
Definition and_then {A B} (r : Shared * outcome A) (k : A → Shared → Shared * outcome B) : Shared * outcome B :=
  match r with
  | (s, Ret a) => k a s
  | (s, Raise m) => (s, Raise m)
  | (s, RustPanic) => (s, RustPanic)
  | (s, ProcessAbort) => (s, ProcessAbort)
  | (s, MemoryFault) => (s, MemoryFault)
  end.

(** ** The registry on memory *)
Definition drop_vec (a : Addr) (s : Shared) : Shared * outcome unit :=
  match blocks s !! a with
  | Some _ => (set_blocks (delete a (blocks s)) s, Ret tt)
  | None => (s, MemoryFault)
  end.

(** [allocate]: the counter first; then, under the lock, the vector, whose
    allocation panics beyond [isize::MAX], and the table, where an old vector of
    the same id would be dropped. *)
Definition mem_allocate (a : Addr) (size : Z) (s : Shared) : Shared * outcome BufferId :=
  let id := sh_next s in
  let s := set_next ⌊sh_next s + 1⌋₆₄ s in
  if poisoned s then (s, RustPanic)
  else if isize_max <? size then (set_poisoned s, RustPanic)
  else
    let s' := set_table (<[id := a]> (table s)) (set_blocks (<[a := replicate (Z.to_nat size) x00]> (blocks s)) s) in
    match table s !! id with
    | Some old => and_then (drop_vec old s') (λ _ s, (s, Ret id))
    | None => (s', Ret id)
    end.

Definition mem_ptr_len (id : BufferId) (s : Shared) : Shared * outcome (option (Addr * nat)) :=
  if poisoned s then (s, RustPanic)
  else (s, Ret (a ← table s !! id; v ← blocks s !! a; Some (a, length v))).

Definition mem_take (id : BufferId) (s : Shared) : Shared * outcome (option Addr) :=
  if poisoned s then (s, RustPanic) else (set_table (delete id (table s)) s, Ret (table s !! id)).

Definition mem_free (id : BufferId) (s : Shared) : Shared * outcome unit :=
  and_then (mem_take id s) (λ o s, match o with Some a => drop_vec a s | None => (s, Ret tt) end).

(** ** The Python functions *)

(** [allocate_buffer]; [mv] and [cap] say whether the interpreter could make the
    memoryview and the capsule.  The id's box is not taken back when the capsule
    fails. *)
Definition allocate_buffer (a : Addr) (size : Z) (mv cap : bool) (s : Shared) : Shared * outcome BufferId :=
  and_then (mem_allocate a size s) (λ id s,
  and_then (mem_ptr_len id s) (λ o s,
    match o with
    | None => (s, Raise "failed to allocate")
    | Some pl =>
        if mv then
          let s := set_id_boxes ({[id]} ∪ id_boxes s) s in
          if cap then (set_views (<[id := pl]> (views s)) (set_capsules ({[id]} ∪ capsules s) s), Ret id)
          else and_then (mem_free id s) (λ _ s, (s, Raise "failed to create capsule"))
        else and_then (mem_free id s) (λ _ s, (s, Raise "failed to create memoryview"))
    end)).

(** The capsule is gone, whatever its destructor does. *)
Definition capsule_destructor (id : BufferId) (s : Shared) : Shared * outcome unit :=
  let s := set_capsules (capsules s ∖ {[id]}) s in
  if decide (id ∈ id_boxes s) then
    match mem_free id s with
    | (s', Ret _) => (set_id_boxes (id_boxes s' ∖ {[id]}) s', Ret tt)
    | (s', RustPanic) => (s', ProcessAbort)
    | r => r
    end
  else (s, MemoryFault).

(** [send_buffer]: the message takes over the block; [accepts] is the answer of
    the runtime's [send] to its content.  A refused message is dropped. *)
Definition mem_send_buffer (id : BufferId) (accepts : list byte → bool) (s : Shared) : Shared * outcome bool :=
  and_then (mem_take id s) (λ o s,
    match o with
    | Some a =>
        match blocks s !! a with
        | Some v =>
            if accepts v then (set_in_flight (in_flight s ++ [a]) s, Ret true)
            else and_then (drop_vec a s) (λ _ s, (s, Ret false))
        | None => (s, MemoryFault)
        end
    | None => (s, Raise "invalid buffer id or already taken")
    end).

(** ** Python's accesses and the receiver *)
Definition view_write (id : BufferId) (i : nat) (b : byte) (s : Shared) : Shared * outcome unit :=
  match views s !! id with
  | Some (a, len) =>
      if decide (i < len)%nat then
        match blocks s !! a with
        | Some v =>
            if decide (i < length v)%nat then (set_blocks (<[a := <[i := b]> v]> (blocks s)) s, Ret tt)
            else (s, MemoryFault)
        | None => (s, MemoryFault)
        end
      else (s, Raise "index out of bounds")
  | None => (s, Raise "no such view")
  end.

(** The actor reads the [i]th message in flight and drops it. *)
Definition consume (i : nat) (s : Shared) : Shared * outcome (list byte) :=
  match in_flight s !! i with
  | Some a =>
      match blocks s !! a with
      | Some v =>
          and_then (drop_vec a (set_in_flight (delete i (in_flight s)) s)) (λ _ s, (s, Ret v))
      | None => (s, MemoryFault)
      end
  | None => (s, Raise "no such message")
  end.

(** ** Runs *)
Inductive sh_op :=
| OpAllocate (a : Addr) (size : Z) (mv cap : bool)
| OpDropCapsule (id : BufferId)
| OpSend (id : BufferId) (accepts : list byte → bool)
| OpWrite (id : BufferId) (i : nat) (b : byte)
| OpConsume (i : nat).

Definition discard {A} (r : Shared * outcome A) : Shared * outcome unit := and_then r (λ _ s, (s, Ret tt)).

Definition sh_exec (o : sh_op) (s : Shared) : Shared * outcome unit :=
  match o with
  | OpAllocate a size mv cap => discard (allocate_buffer a size mv cap s)
  | OpDropCapsule id => capsule_destructor id s
  | OpSend id accepts => discard (mem_send_buffer id accepts s)
  | OpWrite id i b => view_write id i b s
  | OpConsume i => discard (consume i s)
  end.

(** The allocator returns an address that is not live, ids do not run out, and
    only a live capsule is destroyed. *)
Definition sh_ok (o : sh_op) (s : Shared) : Prop :=
  match o with
  | OpAllocate a size _ _ => blocks s !! a = None ∧ fits 64 size ∧ sh_next s + 1 < 2 ^ 64
  | OpDropCapsule id => id ∈ capsules s
  | _ => True
  end.

(** An abort ends the run, and a memory fault ends what can be said of it. *)
Definition goes_on {A} (r : outcome A) : bool :=
  match r with Ret _ | Raise _ | RustPanic => true | ProcessAbort | MemoryFault => false end.

Inductive sh_step : Shared → Shared → Prop :=
  sh_does o s : sh_ok o s → goes_on (snd (sh_exec o s)) = true → sh_step s (fst (sh_exec o s)).

Definition sh_init (s : Shared) : Prop := s = shared_new.

(** What [Buffer] keeps of a state. *)
Definition abs_buffers (s : Shared) : BufferRegistry := mkBuffers (omap (λ a, blocks s !! a) (table s)) (sh_next s) (poisoned s).

(** ** The invariant *)
Definition owners (s : Shared) : list Addr := (snd <$> map_to_list (table s)) ++ in_flight s.

Record sh_inv (s : Shared) : Prop := {
  si_owners : (fst <$> map_to_list (blocks s)) ≡ₚ owners s;
  si_next : 1 <= sh_next s;
  si_ids : ∀ id, is_Some (table s !! id) → 1 <= id < sh_next s;
  si_boxes : capsules s ⊆ id_boxes s;
  si_fresh : ∀ id, id ∈ id_boxes s → id < sh_next s;
  si_views : ∀ id, is_Some (views s !! id) → id < sh_next s;
  si_live : ∀ id a, table s !! id = Some a →
    id ∈ capsules s ∧ ∃ v, blocks s !! a = Some v ∧ views s !! id = Some (a, length v)
}.

(** ** Lemmas *)
Lemma owned_head a rest (m : gmap Addr (list byte)) : (fst <$> map_to_list m) ≡ₚ a :: rest →
  is_Some (m !! a) ∧ (fst <$> map_to_list (delete a m)) ≡ₚ rest.
Proof.
  intros H. assert (Ha : a ∈ fst <$> map_to_list m) by (rewrite H; apply list_elem_of_here).
  apply list_elem_of_fmap in Ha as ([a' v] & -> & Hv). apply elem_of_map_to_list in Hv. simpl in *.
  split; [by exists v|]. apply (Permutation_cons_inv (a := a')). rewrite <-H. by rewrite <-(map_to_list_delete m a' v Hv).
Qed.

Lemma table_head (m : gmap BufferId Addr) id a : m !! id = Some a →
  (snd <$> map_to_list m) ≡ₚ a :: (snd <$> map_to_list (delete id m)).
Proof. intros H. by rewrite <-(map_to_list_delete m id a H). Qed.

Lemma table_insert (m : gmap BufferId Addr) id a : m !! id = None →
  (snd <$> map_to_list (<[id := a]> m)) ≡ₚ a :: (snd <$> map_to_list m).
Proof. intros H. by rewrite (map_to_list_insert m id a H). Qed.

Lemma blocks_insert (m : gmap Addr (list byte)) a v : m !! a = None →
  (fst <$> map_to_list (<[a := v]> m)) ≡ₚ a :: (fst <$> map_to_list m).
Proof. intros H. by rewrite (map_to_list_insert m a v H). Qed.

Lemma blocks_update (m : gmap Addr (list byte)) a v w : m !! a = Some v →
  (fst <$> map_to_list (<[a := w]> m)) ≡ₚ (fst <$> map_to_list m).
Proof.
  intros H. rewrite <-(insert_delete_eq m a w), blocks_insert by apply lookup_delete_eq.
  by rewrite <-(map_to_list_delete m a v H).
Qed.

Lemma owners_nodup s : sh_inv s → NoDup (owners s).
Proof. intros Hi. rewrite <-(si_owners _ Hi). apply NoDup_fst_map_to_list. Qed.

Lemma owner_live s a : sh_inv s → a ∈ owners s → is_Some (blocks s !! a).
Proof.
  intros Hi Ha. rewrite <-(si_owners _ Hi) in Ha. apply list_elem_of_fmap in Ha as ([a' v] & -> & Hv).
  apply elem_of_map_to_list in Hv. by exists v.
Qed.

Lemma fresh_id s : sh_inv s → table s !! sh_next s = None.
Proof.
  intros Hi. destruct (table s !! sh_next s) as [a|] eqn:E; [|done].
  assert (1 <= sh_next s < sh_next s) by (apply (si_ids _ Hi); by exists a). lia.
Qed.

(** A field of the invariant that did not change. *)
Ltac keep Hi :=
  first [exact (si_owners _ Hi)|exact (si_next _ Hi)|exact (si_ids _ Hi)|exact (si_boxes _ Hi)
        |exact (si_fresh _ Hi)|exact (si_views _ Hi)|exact (si_live _ Hi)|assumption].

(** What [allocate_buffer] does, in one look. *)
Lemma allocate_buffer_eq s a size mv cap : sh_inv s → blocks s !! a = None → sh_next s + 1 < 2 ^ 64 →
  let s' := set_next (sh_next s + 1) s in
  allocate_buffer a size mv cap s =
    if poisoned s then (s', RustPanic)
    else if isize_max <? size then (set_poisoned s', RustPanic)
    else if mv then
      let s2 := set_id_boxes ({[sh_next s]} ∪ id_boxes s) s' in
      if cap then
        (mkShared (<[a := replicate (Z.to_nat size) x00]> (blocks s)) (<[sh_next s := a]> (table s)) (sh_next s + 1) false
           (id_boxes s2) ({[sh_next s]} ∪ capsules s) (<[sh_next s := (a, Z.to_nat size)]> (views s)) (in_flight s),
         Ret (sh_next s))
      else (s2, Raise "failed to create capsule")
    else (s', Raise "failed to create memoryview").
Proof.
  intros Hi Ha Hn. assert (Hid := fresh_id s Hi). assert (1 <= sh_next s) by apply Hi.
  unfold allocate_buffer, mem_allocate. rewrite wrap_small by (unfold fits; lia).
  destruct s as [bl tb nx po ib ca vi fl]. cbn [sh_next set_next poisoned table blocks] in *.
  destruct po; [done|]. destruct (isize_max <? size); [done|]. rewrite Hid. cbn [and_then].
  unfold mem_ptr_len. cbn [poisoned set_table set_blocks table blocks]. rewrite lookup_insert_eq. simpl. rewrite lookup_insert_eq. simpl.
  rewrite length_replicate. destruct mv; [destruct cap; [done|]|]; unfold mem_free, mem_take; simpl; rewrite lookup_insert_eq;
    unfold drop_vec; simpl; rewrite lookup_insert_eq; simpl; unfold set_blocks, set_table, set_id_boxes; simpl;
    by rewrite !delete_insert_id.
Qed.

(** Dropping what the table holds under an id. *)
Definition released (id : BufferId) (s : Shared) : Shared :=
  match table s !! id with
  | Some a => set_table (delete id (table s)) (set_blocks (delete a (blocks s)) s)
  | None => s
  end.

Lemma set_table_same s id : table s !! id = None → set_table (delete id (table s)) s = s.
Proof. intros H. rewrite delete_id by done. by destruct s. Qed.

Lemma mem_free_eq s id : poisoned s = false → (∀ a, table s !! id = Some a → is_Some (blocks s !! a)) →
  mem_free id s = (released id s, Ret tt).
Proof.
  intros Hp Hl. unfold mem_free, mem_take, released. rewrite Hp. cbn [and_then].
  destruct (table s !! id) as [a|] eqn:E; [|by rewrite set_table_same].
  destruct (Hl a eq_refl) as [v Hv]. unfold drop_vec. cbn [set_table blocks]. by rewrite Hv.
Qed.

Lemma table_owner s id a : table s !! id = Some a →
  owners s ≡ₚ a :: (snd <$> map_to_list (delete id (table s))) ++ in_flight s.
Proof. intros H. unfold owners. by rewrite (table_head _ _ _ H). Qed.

(** Another id's block is another block. *)
Lemma table_inj s id id' a a' : sh_inv s → table s !! id = Some a → table s !! id' = Some a' → id ≠ id' → a ≠ a'.
Proof.
  intros Hi H H' Hne ->. assert (Hnd := owners_nodup _ Hi). rewrite (table_owner _ _ _ H) in Hnd.
  apply NoDup_cons in Hnd as [Hnot _]. apply Hnot, elem_of_app. left.
  rewrite (table_head _ id' a'); [left|]. by rewrite lookup_delete_ne.
Qed.

Lemma inv_released s id : sh_inv s → sh_inv (released id s).
Proof.
  intros Hi. unfold released. destruct (table s !! id) as [a|] eqn:E; [|done].
  assert (Hh : (fst <$> map_to_list (blocks s)) ≡ₚ a :: (snd <$> map_to_list (delete id (table s))) ++ in_flight s)
    by (rewrite <-(table_owner _ _ _ E); apply Hi).
  split; simpl; try keep Hi.
  - by apply (owned_head a).
  - intros id' [a' Ha']. apply lookup_delete_Some in Ha' as [_ Ha']. apply (si_ids _ Hi). by exists a'.
  - intros id' a' Ha'. apply lookup_delete_Some in Ha' as [Hne Ha'].
    rewrite lookup_delete_ne by by apply (table_inj s id id'). by apply (si_live _ Hi).
Qed.

Lemma inv_uncapsule s id : table s !! id = None → sh_inv s →
  sh_inv (set_capsules (capsules s ∖ {[id]}) (set_id_boxes (id_boxes s ∖ {[id]}) s)).
Proof.
  intros Hn Hi. split; simpl; try keep Hi.
  - assert (H := si_boxes _ Hi). set_solver.
  - intros id' Hin. apply (si_fresh _ Hi). set_solver.
  - intros id' a Ha. destruct (si_live _ Hi id' a Ha) as [Hc Hv]. split; [|done].
    assert (id' ≠ id) by congruence. set_solver.
Qed.

Lemma inv_frame s n b ib : sh_inv s → sh_next s <= n → id_boxes s ⊆ ib → (∀ id, id ∈ ib → id < n) →
  sh_inv (mkShared (blocks s) (table s) n b ib (capsules s) (views s) (in_flight s)).
Proof.
  intros Hi Hn Hb Hf. split; simpl; try keep Hi.
  - assert (H := si_next _ Hi). lia.
  - intros id Hid. assert (H := si_ids _ Hi id Hid). lia.
  - assert (H := si_boxes _ Hi). set_solver.
  - intros id Hid. assert (H := si_views _ Hi id Hid). lia.
Qed.

Lemma inv_allocate s a size mv cap : sh_inv s → sh_ok (OpAllocate a size mv cap) s →
  sh_inv (fst (allocate_buffer a size mv cap s)).
Proof.
  intros Hi (Ha & _ & Hn). rewrite allocate_buffer_eq by done. assert (Hid := fresh_id s Hi).
  assert (H1 := si_next _ Hi). assert (Hlt : ∀ id, id ∈ id_boxes s → id < sh_next s + 1).
  { intros id H. apply (si_fresh _ Hi) in H. lia. }
  destruct (poisoned s); [by apply (inv_frame s); [done|simpl; lia| |]|].
  destruct (isize_max <? size); [by apply (inv_frame s); [done|simpl; lia| |]|].
  destruct mv; [|by apply (inv_frame s); [done|simpl; lia| |]].
  destruct cap; [|apply (inv_frame s); [done|simpl; lia|set_solver|];
    intros id [->%elem_of_singleton|H]%elem_of_union; [simpl; lia|by apply Hlt]].
  split; simpl.
  - unfold owners. simpl. rewrite blocks_insert, table_insert by done. simpl. f_equiv. apply Hi.
  - lia.
  - intros id [x [[<- _]|[_ Hx]]%lookup_insert_Some]; [lia|].
    assert (1 <= id < sh_next s) by (apply (si_ids _ Hi); by exists x). lia.
  - assert (H := si_boxes _ Hi). set_solver.
  - intros id [->%elem_of_singleton|H]%elem_of_union; [lia|by apply Hlt].
  - intros id [x [[<- _]|[_ Hx]]%lookup_insert_Some]; [lia|].
    assert (id < sh_next s) by (apply (si_views _ Hi); by exists x). lia.
  - intros id a' [[<- <-]|[Hne Ha']]%lookup_insert_Some.
    + split; [set_solver|]. rewrite !lookup_insert_eq. eexists. by rewrite length_replicate.
    + destruct (si_live _ Hi id a' Ha') as (Hc & v & Hv & Hw). split; [set_solver|]. exists v.
      assert (a ≠ a') by congruence. by rewrite !lookup_insert_ne.
Qed.

Lemma capsule_destructor_eq s id : sh_inv s → id ∈ capsules s → capsule_destructor id s =
  if poisoned s then (set_capsules (capsules s ∖ {[id]}) s, ProcessAbort)
  else (set_capsules (capsules s ∖ {[id]}) (set_id_boxes (id_boxes s ∖ {[id]}) (released id s)), Ret tt).
Proof.
  intros Hi Hc. unfold capsule_destructor. rewrite decide_True by (simpl; by apply (si_boxes _ Hi)).
  destruct (poisoned s) eqn:Hp.
  - unfold mem_free, mem_take. simpl. by rewrite Hp.
  - rewrite mem_free_eq; [|done|].
    + unfold released. simpl. by destruct (table s !! id).
    + simpl. intros a (_ & v & Hv & _)%(si_live _ Hi). by exists v.
Qed.

Lemma released_none s id : table (released id s) !! id = None.
Proof. unfold released. destruct (table s !! id) eqn:E; [apply lookup_delete_eq|done]. Qed.

Lemma released_same s id : capsules (released id s) = capsules s ∧ id_boxes (released id s) = id_boxes s.
Proof. unfold released. by destruct (table s !! id). Qed.

Lemma inv_capsule s id : sh_inv s → id ∈ capsules s → goes_on (snd (capsule_destructor id s)) = true →
  sh_inv (fst (capsule_destructor id s)).
Proof.
  intros Hi Hc. rewrite capsule_destructor_eq by done. destruct (poisoned s); [done|]. intros _.
  destruct (released_same s id) as [<- <-]. apply inv_uncapsule; [apply released_none|by apply inv_released].
Qed.

(** What [send_buffer] does on a registered buffer. *)
Lemma mem_send_eq s id accepts : sh_inv s → mem_send_buffer id accepts s =
  if poisoned s then (s, RustPanic)
  else match table s !! id with
  | None => (s, Raise "invalid buffer id or already taken")
  | Some a =>
      match blocks s !! a with
      | None => (s, MemoryFault)
      | Some v =>
          if accepts v then (set_in_flight (in_flight s ++ [a]) (set_table (delete id (table s)) s), Ret true)
          else (released id s, Ret false)
      end
  end.
Proof.
  intros Hi. unfold mem_send_buffer, mem_take, released. destruct (poisoned s); [done|]. cbn [and_then].
  destruct (table s !! id) as [a|] eqn:E; [|by rewrite set_table_same].
  destruct (si_live _ Hi id a E) as (_ & v & Hv & _). simpl. rewrite Hv.
  destruct (accepts v); [done|]. unfold drop_vec. simpl. by rewrite Hv.
Qed.

Lemma inv_send s id accepts : sh_inv s → sh_inv (fst (mem_send_buffer id accepts s)).
Proof.
  intros Hi. rewrite mem_send_eq by done. destruct (poisoned s); [done|].
  destruct (table s !! id) as [a|] eqn:E; [|done]. destruct (blocks s !! a) as [v|]; [|done].
  destruct (accepts v); [|by apply inv_released]. split; simpl; try keep Hi.
  - rewrite (si_owners _ Hi), (table_owner _ _ _ E). unfold owners. simpl.
    rewrite (assoc_L (++)). apply Permutation_cons_append.
  - intros id' [a' Ha']. apply lookup_delete_Some in Ha' as [_ Ha']. apply (si_ids _ Hi). by exists a'.
  - intros id' a' Ha'. apply lookup_delete_Some in Ha' as [_ Ha']. by apply (si_live _ Hi).
Qed.

Lemma inv_write s id i b : sh_inv s → sh_inv (fst (view_write id i b s)).
Proof.
  intros Hi. unfold view_write. destruct (views s !! id) as [[a len]|]; [|done]. case_decide; [|done].
  destruct (blocks s !! a) as [v|] eqn:E; [|done]. case_decide; [|done]. split; simpl; try keep Hi.
  - rewrite (blocks_update _ _ _ _ E). apply Hi.
  - intros id' a' Ha'. destruct (si_live _ Hi id' a' Ha') as (Hc & w & Hw & Hv). split; [done|].
    destruct (decide (a' = a)) as [->|Hne]; [|rewrite lookup_insert_ne by done; eauto].
    rewrite lookup_insert_eq. eexists. split; [done|]. rewrite length_insert. by simplify_eq.
Qed.

Lemma in_flight_owner s i a : in_flight s !! i = Some a →
  owners s ≡ₚ a :: (snd <$> map_to_list (table s)) ++ delete i (in_flight s).
Proof. intros H. unfold owners. by rewrite (delete_Permutation _ _ _ H) at 1; rewrite Permutation_middle. Qed.

Lemma consume_eq s i : sh_inv s → consume i s =
  match in_flight s !! i with
  | None => (s, Raise "no such message")
  | Some a => (set_blocks (delete a (blocks s)) (set_in_flight (delete i (in_flight s)) s),
      match blocks s !! a with Some v => Ret v | None => MemoryFault end)
  end.
Proof.
  intros Hi. unfold consume. destruct (in_flight s !! i) as [a|] eqn:E; [|done].
  destruct (owner_live s a Hi) as [v Hv]; [rewrite (in_flight_owner _ _ _ E); left|].
  rewrite Hv. unfold drop_vec. simpl. by rewrite Hv.
Qed.

Lemma inv_consume s i : sh_inv s → sh_inv (fst (consume i s)).
Proof.
  intros Hi. rewrite consume_eq by done. destruct (in_flight s !! i) as [a|] eqn:E; [|done].
  assert (Hh := si_owners _ Hi). rewrite (in_flight_owner _ _ _ E) in Hh.
  split; simpl; try keep Hi.
  - by apply (owned_head a).
  - intros id a' Ha'. destruct (si_live _ Hi id a' Ha') as (Hc & v & Hv & Hw). split; [done|].
    rewrite lookup_delete_ne; [eauto|]. intros <-. assert (Hnd := owners_nodup _ Hi).
    rewrite (in_flight_owner _ _ _ E) in Hnd. apply NoDup_cons in Hnd as [Hnot _]. apply Hnot, elem_of_app. left.
    rewrite (table_head _ _ _ Ha'). left.
Qed.

Lemma discard_fst {A} (r : Shared * outcome A) : fst (discard r) = fst r.
Proof. by destruct r as [s []]. Qed.

Lemma sh_exec_inv o s : sh_inv s → sh_ok o s → goes_on (snd (sh_exec o s)) = true → sh_inv (fst (sh_exec o s)).
Proof.
  intros Hi Hok Hg. destruct o; cbn [sh_exec] in *; rewrite ?discard_fst.
  - by apply inv_allocate.
  - by apply inv_capsule.
  - by apply inv_send.
  - by apply inv_write.
  - by apply inv_consume.
Qed.

Lemma sh_reachable_inv s : reachable sh_init sh_step s → sh_inv s.
Proof.
  apply reachable_invariant.
  - intros s' ->. split; simpl; try (intros id [x Hx]; by rewrite lookup_empty in Hx); try set_solver; lia.
  - intros s1 s2 Hi Hs. destruct Hs as [o s' Hok Hg]. by apply sh_exec_inv.
Qed.

Lemma released_in_flight s id a : sh_inv s → a ∈ in_flight s → blocks (released id s) !! a = blocks s !! a.
Proof.
  intros Hi Ha. unfold released. destruct (table s !! id) as [a'|] eqn:E; [|done]. simpl.
  rewrite lookup_delete_ne; [done|]. intros ->. assert (Hnd := owners_nodup _ Hi).
  rewrite (table_owner _ _ _ E) in Hnd. apply NoDup_cons in Hnd as [Hnot _]. apply Hnot, elem_of_app. by right.
Qed.

Lemma exec_in_flight o s a : sh_inv s → sh_ok o s → a ∈ in_flight s →
  match o with OpWrite _ _ _ | OpConsume _ => True | _ => blocks (fst (sh_exec o s)) !! a = blocks s !! a end.
Proof.
  intros Hi Hok Ha. destruct o as [a' size mv cap|id|id accepts| |]; try done; cbn [sh_exec]; rewrite ?discard_fst.
  - destruct Hok as (Hf & _ & Hn). rewrite allocate_buffer_eq by done.
    destruct (poisoned s), (isize_max <? size), mv, cap; try done. simpl. rewrite lookup_insert_ne; [done|]. intros ->.
    destruct (owner_live s a Hi) as [v Hv]; [by apply elem_of_app; right|]. congruence.
  - rewrite capsule_destructor_eq by done. destruct (poisoned s); [done|]. by apply released_in_flight.
  - rewrite mem_send_eq by done. destruct (poisoned s); [done|]. destruct (table s !! id) as [a'|]; [|done].
    destruct (blocks s !! a') as [v|]; [|done]. destruct (accepts v); [done|]. by apply released_in_flight.
Qed.

Lemma exec_no_fault o s : sh_inv s → sh_ok o s → (∀ id i b, o ≠ OpWrite id i b) → snd (sh_exec o s) ≠ MemoryFault.
Proof.
  intros Hi Hok Hw. destruct o as [a' size mv cap|id|id accepts|id i b|i]; cbn [sh_exec].
  - destruct Hok as (Hf & _ & Hn). rewrite allocate_buffer_eq by done.
    by destruct (poisoned s), (isize_max <? size), mv, cap.
  - rewrite capsule_destructor_eq by done. by destruct (poisoned s).
  - rewrite mem_send_eq by done. destruct (poisoned s); [done|]. destruct (table s !! id) as [a|] eqn:E; [|done].
    destruct (si_live _ Hi id a E) as (_ & v & -> & _). by destruct (accepts v).
  - by destruct (Hw id i b).
  - rewrite consume_eq by done. destruct (in_flight s !! i) as [a|] eqn:E; [|done].
    destruct (owner_live s a Hi) as [v ->]; [rewrite (in_flight_owner _ _ _ E); left|done].
Qed.

Lemma abs_lookup s id : inner (abs_buffers s) !! id = table s !! id ≫= λ a, blocks s !! a.
Proof. by apply lookup_omap. Qed.

Lemma abs_buffers_ext s r : sh_next s = next r → poisoned s = buf_poisoned r →
  (∀ id, table s !! id ≫= (λ a, blocks s !! a) = inner r !! id) → abs_buffers s = r.
Proof.
  intros Hn Hp Hl. destruct r as [i n b]. unfold abs_buffers. simpl in *. rewrite Hn, Hp. f_equal.
  apply map_eq. intros id. by rewrite lookup_omap.
Qed.

Lemma abs_released s id : sh_inv s → poisoned s = false → abs_buffers (released id s) = fst (buf_free (abs_buffers s) id).
Proof.
  intros Hi Hp. rewrite buf_free_eq. cbn [abs_buffers buf_poisoned]. rewrite Hp. cbn [fst].
  apply abs_buffers_ext; [unfold released; by destruct (table s !! id)|unfold released; by destruct (table s !! id)|].
  intros id'. cbn [inner abs_buffers].
  destruct (decide (id' = id)) as [->|Hne]; [by rewrite released_none, lookup_delete_eq|].
  rewrite (lookup_delete_ne (omap _ _)), lookup_omap by done. unfold released.
  destruct (table s !! id) as [a|] eqn:E; [|done]. simpl. rewrite lookup_delete_ne by done.
  destruct (table s !! id') as [a'|] eqn:E'; [|done]. simpl.
  rewrite lookup_delete_ne; [done|]. by apply (table_inj s id id').
Qed.

Lemma poisoned_stays o s : sh_inv s → sh_ok o s → poisoned s = true → poisoned (fst (sh_exec o s)) = true.
Proof.
  intros Hi Hok Hp. destruct o as [a' size mv cap|id|id accepts|id i b|i]; cbn [sh_exec]; rewrite ?discard_fst.
  - destruct Hok as (Hf & _ & Hn). rewrite allocate_buffer_eq by done. by rewrite Hp.
  - rewrite capsule_destructor_eq by done. by rewrite Hp.
  - rewrite mem_send_eq by done. by rewrite Hp.
  - unfold view_write. by repeat split_match.
  - rewrite consume_eq by done. by destruct (in_flight s !! i).
Qed.

Lemma abs_send s id accepts : sh_inv s →
  abs_buffers (fst (mem_send_buffer id accepts s)) = fst (buf_take (abs_buffers s) id) ∧
  snd (mem_send_buffer id accepts s) =
    match snd (buf_take (abs_buffers s) id) with
    | Value (Some v) => Ret (accepts v)
    | Value None => Raise "invalid buffer id or already taken"
    | Panicked => RustPanic
    end.
Proof.
  intros Hi. rewrite mem_send_eq by done. rewrite buf_take_eq, abs_lookup. cbn [abs_buffers buf_poisoned].
  destruct (poisoned s) eqn:Hp; [done|]. cbn [fst snd].
  assert (Hr := abs_released s id Hi Hp). rewrite buf_free_eq in Hr. cbn [abs_buffers buf_poisoned] in Hr. rewrite Hp in Hr.
  unfold released in Hr |- *. destruct (table s !! id) as [a|] eqn:E; simpl.
  - destruct (si_live _ Hi id a E) as (_ & v & Hv & _). rewrite Hv. destruct (accepts v); [|done].
    split; [|done]. apply abs_buffers_ext; [done|done|]. intros id'. simpl.
    destruct (decide (id' = id)) as [->|Hne]; [by rewrite !lookup_delete_eq|].
    by rewrite !(lookup_delete_ne _ id id'), lookup_omap by done.
  - by split.
Qed.

Lemma abs_allocated s a v : sh_inv s → blocks s !! a = None →
  abs_buffers (set_table (<[sh_next s := a]> (table s)) (set_blocks (<[a := v]> (blocks s)) s)) =
  mkBuffers (<[sh_next s := v]> (inner (abs_buffers s))) (sh_next s) (poisoned s).
Proof.
  intros Hi Ha. apply abs_buffers_ext; [done|done|]. intros id. simpl. destruct (decide (id = sh_next s)) as [->|Hne].
  - rewrite !lookup_insert_eq. simpl. by rewrite lookup_insert_eq.
  - rewrite !(lookup_insert_ne _ (sh_next s)) by done. rewrite lookup_omap.
    destruct (table s !! id) as [a'|] eqn:E; [|done]. simpl. destruct (si_live _ Hi id a' E) as (_ & w & Hw & _).
    rewrite lookup_insert_ne; [done|congruence].
Qed.

Lemma abs_allocate s a size mv cap : sh_inv s → sh_ok (OpAllocate a size mv cap) s →
  match buf_allocate (abs_buffers s) size with
  | (r, Value id) =>
      if mv && cap then abs_buffers (fst (allocate_buffer a size mv cap s)) = r ∧ snd (allocate_buffer a size mv cap s) = Ret id
      else abs_buffers (fst (allocate_buffer a size mv cap s)) = fst (buf_free r id) ∧
        ∃ e, snd (allocate_buffer a size mv cap s) = Raise e
  | (r, Panicked) => abs_buffers (fst (allocate_buffer a size mv cap s)) = r ∧ snd (allocate_buffer a size mv cap s) = RustPanic
  end.
Proof.
  intros Hi (Ha & _ & Hn). assert (H1 := si_next _ Hi). assert (Hid := fresh_id s Hi).
  rewrite buf_allocate_eq by done. rewrite allocate_buffer_eq by done. cbn [abs_buffers buf_poisoned next].
  destruct (poisoned s) eqn:Hp; cbn [orb]; [split; [by apply abs_buffers_ext; [..|intros id; simpl; rewrite lookup_omap]|done]|].
  destruct (isize_max <? size); [split; [by apply abs_buffers_ext; [..|intros id; simpl; rewrite lookup_omap]|done]|].
  assert (Hback : delete (sh_next s) (<[sh_next s := replicate (Z.to_nat size) x00]> (inner (abs_buffers s))) = inner (abs_buffers s)).
  { apply delete_insert_id. rewrite abs_lookup. by rewrite Hid. }
  assert (Hall := abs_allocated s a (replicate (Z.to_nat size) x00) Hi Ha).
  rewrite buf_free_eq. cbn [buf_poisoned inner next fst snd].
  destruct mv; [destruct cap|]; cbn [andb fst snd]; [|split; [|by eexists]; apply abs_buffers_ext; [done|by simpl|];
    intros id; simpl; simpl in Hback; rewrite Hback; by rewrite lookup_omap..].
  split; [|done]. apply abs_buffers_ext; [done|by simpl|]. intros id.
  assert (Hl := f_equal (λ r, inner r !! id) Hall). simpl in Hl. rewrite lookup_omap in Hl. simpl. by rewrite Hl.
Qed.

(** ** Properties *)

(** C36: in every state every live block has exactly one owner - an id of the
    registry or a message in flight - and every registered buffer still has its
    capsule; no allocation, send, capsule or receiver frees a block twice or
    touches a dead one, and none of them but the receiver changes the content of
    a message in flight. *)
Theorem shared_memory_safe s o : reachable sh_init sh_step s → sh_ok o s → (∀ id i b, o ≠ OpWrite id i b) →
  (fst <$> map_to_list (blocks s)) ≡ₚ owners s ∧ NoDup (owners s) ∧
  (∀ id, is_Some (table s !! id) → id ∈ capsules s) ∧ snd (sh_exec o s) ≠ MemoryFault ∧
  ((∀ i, o ≠ OpConsume i) → ∀ a, a ∈ in_flight s → blocks (fst (sh_exec o s)) !! a = blocks s !! a).
Proof.
  intros Hi%sh_reachable_inv Hok Hw. split; [apply Hi|]. split; [by apply owners_nodup|].
  split; [intros id [a Ha]; by apply (si_live _ Hi id a Ha)|]. split; [by apply exec_no_fault|].
  intros Hc a Ha. assert (H := exec_in_flight o s a Hi Hok Ha). destruct o as [| | |id i b|i]; try done.
  - by destruct (Hw id i b).
  - by destruct (Hc i).
Qed.

(** C37: the functions on memory are the operations of the buffer registry,
    panics included: [allocate_buffer] is an allocation, taken back when the
    interpreter cannot make the view or the capsule; the capsule's destructor is a
    free, whose panic on a poisoned registry aborts the process; [send_buffer] is
    the send of [PyMembrane] with the block's content; a receiver does not touch
    the registry. *)
Theorem shared_refines_buffers {F S} `{PA : PidAllocator S} (rt : Runtime F S) s o :
  reachable sh_init sh_step s → sh_ok o s →
  match o with
  | OpAllocate a size mv cap =>
      match buf_allocate (abs_buffers s) size with
      | (r, Value id) =>
          if mv && cap then abs_buffers (fst (allocate_buffer a size mv cap s)) = r ∧ snd (allocate_buffer a size mv cap s) = Ret id
          else abs_buffers (fst (allocate_buffer a size mv cap s)) = fst (buf_free r id) ∧
            ∃ e, snd (allocate_buffer a size mv cap s) = Raise e
      | (r, Panicked) => abs_buffers (fst (allocate_buffer a size mv cap s)) = r ∧ snd (allocate_buffer a size mv cap s) = RustPanic
      end
  | OpDropCapsule id =>
      abs_buffers (fst (capsule_destructor id s)) = fst (buf_free (abs_buffers s) id) ∧
      snd (capsule_destructor id s) = match snd (buf_free (abs_buffers s) id) with Value _ => Ret tt | Panicked => ProcessAbort end
  | OpSend id _ => ∀ pid,
      let '(reg', _, r) := send_buffer pid id (abs_buffers s) rt in
      let (s', out) := mem_send_buffer id (λ v, is_ok (snd (rt_send pid (User v) rt))) s in
      abs_buffers s' = reg' ∧
      out = match r with
            | Value (Some b) => Ret b
            | Value None => Raise "invalid buffer id or already taken"
            | Panicked => RustPanic
            end
  | OpConsume i => abs_buffers (fst (consume i s)) = abs_buffers s
  | OpWrite _ _ _ => True
  end.
Proof.
  intros Hi%sh_reachable_inv Hok. destruct o as [a size mv cap|id|id acc|id i b|i]; [| | |done|].
  - by apply abs_allocate.
  - assert (Hr := abs_released s id Hi). rewrite capsule_destructor_eq by done. rewrite buf_free_eq in Hr |- *.
    cbn [abs_buffers buf_poisoned] in *. destruct (poisoned s) eqn:Hp; [split; [|done]|split; [|done]].
    + apply abs_buffers_ext; [done|by simpl|]. intros id'. simpl. by rewrite lookup_omap.
    + rewrite <-Hr by done. done.
  - intros pid. set (accepts := λ v, is_ok (snd (rt_send pid (User v) rt))).
    destruct (abs_send s id accepts Hi) as [Ha Ho]. destruct (mem_send_buffer id accepts s) as [s' out].
    unfold send_buffer. destruct (buf_take (abs_buffers s) id) as [reg' [[v|]|]]; simpl in Ha, Ho; [|done|done].
    subst accepts. simpl in Ho. by destruct (rt_send pid (User v) rt).
  - rewrite consume_eq by done. destruct (in_flight s !! i) as [a|] eqn:E; [|done].
    apply abs_buffers_ext; [done|done|]. intros id. simpl. rewrite lookup_omap.
    destruct (table s !! id) as [a'|] eqn:E'; [|done]. simpl. rewrite lookup_delete_ne; [done|]. intros <-.
    assert (Hnd := owners_nodup _ Hi). rewrite (in_flight_owner _ _ _ E) in Hnd.
    apply NoDup_cons in Hnd as [Hnot _]. apply Hnot, elem_of_app. left. rewrite (table_head _ _ _ E'). left.
Qed.

(** the memoryview outlives what it points to.  A write through it reaches
    the buffer while it is registered; after a send it changes the message on its
    way to the receiver; once the receiver has dropped the message, or once the
    capsule is destroyed, it touches memory that is not live. *)
Theorem view_outlives_buffer s id a v i b accepts : reachable sh_init sh_step s → poisoned s = false →
  table s !! id = Some a → blocks s !! a = Some v → (i < length v)%nat → accepts v = true →
  snd (view_write id i b s) = Ret tt ∧
  snd (view_write id i b (fst (capsule_destructor id s))) = MemoryFault ∧
  let sent := fst (mem_send_buffer id accepts s) in
  let written := fst (view_write id i b sent) in
  snd (view_write id i b sent) = Ret tt ∧
  snd (consume (length (in_flight s)) written) = Ret (<[i := b]> v) ∧
  snd (view_write id i b (fst (consume (length (in_flight s)) written))) = MemoryFault.
Proof.
  intros Hi%sh_reachable_inv Hp Ht Hv Hlt Hacc. destruct (si_live _ Hi id a Ht) as (Hc & w & Hw & Hview).
  assert (w = v) as -> by congruence.
  assert (Hsend : fst (mem_send_buffer id accepts s) = set_in_flight (in_flight s ++ [a]) (set_table (delete id (table s)) s)).
  { rewrite mem_send_eq by done. by rewrite Hp, Ht, Hv, Hacc. }
  assert (Hwrite : ∀ s', views s' = views s → blocks s' = blocks s →
    view_write id i b s' = (set_blocks (<[a := <[i := b]> v]> (blocks s')) s', Ret tt)).
  { intros s' E1 E2. unfold view_write. rewrite E1, E2, Hview, decide_True, Hv, decide_True by done. done. }
  split; [by rewrite Hwrite|]. split.
  - rewrite capsule_destructor_eq by done. rewrite Hp. unfold view_write, released. rewrite Ht. simpl.
    by rewrite Hview, decide_True, lookup_delete_eq.
  - cbv zeta. rewrite Hsend, Hwrite by done. split; [done|]. unfold consume. simpl.
    rewrite lookup_app_r, Nat.sub_diag by done. simpl. rewrite lookup_insert_eq. unfold drop_vec. simpl.
    rewrite lookup_insert_eq. split; [done|]. unfold view_write. simpl. by rewrite Hview, decide_True, lookup_delete_eq.
Qed.

(** one allocation beyond [isize::MAX] bytes poisons the registry for good:
    the call itself panics, and in every later state every allocation and every
    send panics and the destruction of a capsule ends the process. *)
Theorem oversized_allocation_poisons s a size mv cap s2 : reachable sh_init sh_step s →
  sh_ok (OpAllocate a size mv cap) s → isize_max < size →
  rtc sh_step (fst (allocate_buffer a size mv cap s)) s2 →
  snd (allocate_buffer a size mv cap s) = RustPanic ∧
  (∀ a' size' mv' cap', sh_ok (OpAllocate a' size' mv' cap') s2 → snd (allocate_buffer a' size' mv' cap' s2) = RustPanic) ∧
  (∀ id accepts, snd (mem_send_buffer id accepts s2) = RustPanic) ∧
  (∀ id, id ∈ capsules s2 → snd (capsule_destructor id s2) = ProcessAbort).
Proof.
  intros Hi%sh_reachable_inv Hok Hs Hrun. assert (Hi1 := inv_allocate _ _ _ _ _ Hi Hok).
  assert (H1 : poisoned (fst (allocate_buffer a size mv cap s)) = true ∧ snd (allocate_buffer a size mv cap s) = RustPanic).
  { destruct Hok as (Ha & _ & Hn). rewrite allocate_buffer_eq by done. apply Z.ltb_lt in Hs. rewrite Hs. by destruct (poisoned s) eqn:E. }
  destruct H1 as [Hp1 Hpanic]. split; [done|].
  assert (H2 : sh_inv s2 ∧ poisoned s2 = true).
  { apply (rtc_invariant sh_step (λ s, sh_inv s ∧ poisoned s = true) _ s2) in Hrun; [done| |done].
    intros x y Hxy [Hix Hpx]. destruct Hxy as [o x Hox Hg]. split; [by apply sh_exec_inv|by apply poisoned_stays]. }
  destruct H2 as [Hi2 Hp2]. split_and!.
  - intros a' size' mv' cap' (Ha & _ & Hn). rewrite allocate_buffer_eq by done. by rewrite Hp2.
  - intros id accepts. rewrite mem_send_eq by done. by rewrite Hp2.
  - intros id Hc. rewrite capsule_destructor_eq by done. by rewrite Hp2.
Qed.

(** ** Instances *)
Module SharedDemo.
(** One buffer of two bytes, at address 1000. *)
Definition one : Shared := fst (sh_exec (OpAllocate 1000 2 true true) shared_new).

Definition huge : sh_op := OpAllocate 2000 (2 ^ 63) true true.
End SharedDemo.

Lemma shared_demo_reachable : reachable sh_init sh_step SharedDemo.one.
Proof.
  apply (reach_step _ _ shared_new); [by apply reach_init|].
  apply (sh_does (OpAllocate 1000 2 true true)); [|done]. split_and!; [done|by unfold fits|done].
Qed.

Lemma shared_memory_safe_witness :
  sh_ok (OpDropCapsule 1) SharedDemo.one ∧
  (fst <$> map_to_list (blocks SharedDemo.one)) ≡ₚ owners SharedDemo.one ∧ NoDup (owners SharedDemo.one) ∧
  (∀ id, is_Some (table SharedDemo.one !! id) → id ∈ capsules SharedDemo.one) ∧
  snd (sh_exec (OpDropCapsule 1) SharedDemo.one) ≠ MemoryFault ∧
  ((∀ i, OpDropCapsule 1 ≠ OpConsume i) → ∀ a, a ∈ in_flight SharedDemo.one →
    blocks (fst (sh_exec (OpDropCapsule 1) SharedDemo.one)) !! a = blocks SharedDemo.one !! a).
Proof.
  split; [by vm_compute|].
  apply (shared_memory_safe SharedDemo.one (OpDropCapsule 1)); [apply shared_demo_reachable|by vm_compute|done].
Defined.

Lemma shared_refines_buffers_witness :
  let '(reg', _, r) := send_buffer Demo.a 1 (abs_buffers SharedDemo.one) Demo.two in
  let (s', out) := mem_send_buffer 1 (λ v, is_ok (snd (rt_send Demo.a (User v) Demo.two))) SharedDemo.one in
  abs_buffers s' = reg' ∧
  out = match r with
        | Value (Some b) => Ret b
        | Value None => Raise "invalid buffer id or already taken"
        | Panicked => RustPanic
        end.
Proof.
  apply (shared_refines_buffers Demo.two SharedDemo.one (OpSend 1 (λ _, true)) shared_demo_reachable I Demo.a).
Defined.

Lemma view_outlives_buffer_witness :
  snd (view_write 1 0 x61 SharedDemo.one) = Ret tt ∧
  snd (view_write 1 0 x61 (fst (capsule_destructor 1 SharedDemo.one))) = MemoryFault ∧
  let sent := fst (mem_send_buffer 1 (λ _, true) SharedDemo.one) in
  let written := fst (view_write 1 0 x61 sent) in
  snd (view_write 1 0 x61 sent) = Ret tt ∧
  snd (consume (length (in_flight SharedDemo.one)) written) = Ret (<[0%nat := x61]> [x00; x00]) ∧
  snd (view_write 1 0 x61 (fst (consume (length (in_flight SharedDemo.one)) written))) = MemoryFault.
Proof.
  apply (view_outlives_buffer SharedDemo.one 1 1000 [x00; x00] 0 x61 (λ _, true));
    [apply shared_demo_reachable|reflexivity|reflexivity|reflexivity|simpl; lia|reflexivity].
Defined.

Lemma oversized_allocation_poisons_witness :
  snd (allocate_buffer 2000 (2 ^ 63) true true SharedDemo.one) = RustPanic ∧
  (∀ a' size' mv' cap', sh_ok (OpAllocate a' size' mv' cap') (fst (allocate_buffer 2000 (2 ^ 63) true true SharedDemo.one)) →
    snd (allocate_buffer a' size' mv' cap' (fst (allocate_buffer 2000 (2 ^ 63) true true SharedDemo.one))) = RustPanic) ∧
  (∀ id accepts, snd (mem_send_buffer id accepts (fst (allocate_buffer 2000 (2 ^ 63) true true SharedDemo.one))) = RustPanic) ∧
  (∀ id, id ∈ capsules (fst (allocate_buffer 2000 (2 ^ 63) true true SharedDemo.one)) →
    snd (capsule_destructor id (fst (allocate_buffer 2000 (2 ^ 63) true true SharedDemo.one))) = ProcessAbort).
Proof.
  apply (oversized_allocation_poisons SharedDemo.one 2000 (2 ^ 63) true true);
    [apply shared_demo_reachable|split_and!; [reflexivity|by unfold fits|reflexivity]|reflexivity|apply rtc_refl].
Defined.
