(* ===== verification/LogLock.v ===== *)
(** * The message log's lock and the GIL ([src/src/py.rs], [src/src/lib.rs])

    The three calls that take the lock of an observed actor's message log, as
    sequences of lock operations: [get_messages] runs with the GIL and takes the
    log's lock inside it; the actor's own loop takes the log's lock alone;
    [selective_recv_observed_py] calls its matcher, which takes the GIL, under the
    log's lock.  The first two never wait for each other in a circle; the third
    can wait with the first for ever.

    All three hold a read guard of the observers' map while they use the log.
    Readers share that guard, and it is left out; so are the other locks of the
    runtime, which these calls do not take. *)
From S2P Require Import Prelude Pid.

Inductive lock := Gil | Log (pid : Pid).

#[export] Instance lock_eq_dec : EqDecision lock.
Proof. solve_decision. Defined.

Definition rank (l : lock) : nat := match l with Gil => 0 | Log _ => 1 end.

Inductive act := Acq (l : lock) | Rel (l : lock).

(** [body] under a lock. *)
Definition under (l : lock) (body : list act) : list act := Acq l :: body ++ [Rel l].

(** ** What each call locks *)

(** [PyRuntime::get_messages], under the GIL of its caller. *)
Definition get_messages_locks (pid : Pid) : list act := under Gil (under (Log pid) []).

(** One turn of the loop of [spawn_observed_handler]. *)
Definition observed_turn_locks (pid : Pid) : list act := under (Log pid) [].

(** One look of [selective_recv_observed_py] at the log, whose matcher is asked
    about [asked] messages, and the conversion of its answer. *)
Definition observed_recv_locks (pid : Pid) (asked : nat) : list act :=
  under (Log pid) (concat (replicate asked (under Gil []))) ++ under Gil [].

Inductive api := LkGetMessages (pid : Pid) | LkObservedTurn (pid : Pid) | LkObservedRecv (pid : Pid) (asked : nat).

Definition locks (c : api) : list act :=
  match c with
  | LkGetMessages pid => get_messages_locks pid
  | LkObservedTurn pid => observed_turn_locks pid
  | LkObservedRecv pid asked => observed_recv_locks pid asked
  end.

(** ** Threads *)
Record thread := mkThread { holds : list lock; remains : list act }.

Definition free (ts : list thread) (l : lock) : Prop := Forall (λ t, l ∉ holds t) ts.

Inductive lock_turn : list thread → list thread → Prop :=
| turn_acquire i h l p ts : ts !! i = Some (mkThread h (Acq l :: p)) → free ts l →
    lock_turn ts (<[i := mkThread (l :: h) p]> ts)
| turn_release i h l p ts : ts !! i = Some (mkThread h (Rel l :: p)) →
    lock_turn ts (<[i := mkThread (filter (λ x, x ≠ l) h) p]> ts).

(** A thread that makes the calls [cs] one after the other. *)
Definition caller (cs : list api) : thread := mkThread [] (concat (locks <$> cs)).

Definition finished (ts : list thread) : Prop := Forall (λ t, remains t = []) ts.

(** The call that asks Python under the lock of the log. *)
Definition asks_under_log (c : api) : bool :=
  match c with LkObservedRecv _ asked => (0 <? asked)%nat | _ => false end.

(** Locks are taken in the order of [rank] and given back in the reverse order. *)
Fixpoint ordered (h : list lock) (p : list act) : Prop :=
  match p with
  | [] => h = []
  | Acq l :: p' => Forall (λ x, (rank x < rank l)%nat) h ∧ ordered (l :: h) p'
  | Rel l :: p' => match h with x :: h' => x = l ∧ (l ∉ h') ∧ ordered h' p' | [] => False end
  end.

Definition work (ts : list thread) : nat := foldr (λ t n, (length (remains t) + n)%nat) 0%nat ts.

(** ** Lemmas *)
(** Decides [ordered] of a written-out program. *)
Ltac in_order_tac :=
  repeat match goal with
  | |- _ ∧ _ => split
  | |- Forall _ [] => constructor
  | |- Forall _ (_ :: _) => constructor
  | |- (_ < _)%nat => simpl; lia
  | |- _ ∉ _ => let H := fresh in intros H; repeat (apply elem_of_cons in H as [H|H]; [discriminate H|]); by apply not_elem_of_nil in H
  | |- _ => done
  end.

Lemma ordered_call c p : asks_under_log c = false → ordered [] p → ordered [] (locks c ++ p).
Proof.
  intros Ha Hp. destruct c as [pid|pid|pid n];
    unfold locks, get_messages_locks, observed_turn_locks, observed_recv_locks, under; [| |destruct n; [|done]]; simpl; in_order_tac.
Qed.

Lemma ordered_caller cs : Forall (λ c, asks_under_log c = false) cs → ordered [] (concat (locks <$> cs)).
Proof. induction 1; [done|]. simpl. by apply ordered_call. Qed.

Lemma work_insert i t t' ts : ts !! i = Some t → length (remains t) = Datatypes.S (length (remains t')) →
  work ts = Datatypes.S (work (<[i := t']> ts)).
Proof.
  unfold work. revert i. induction ts as [|u ts IH]; intros [|i] Hi Hl; [done|done| |]; simpl in Hi |- *.
  - injection Hi as ->. lia.
  - rewrite (IH i Hi Hl). lia.
Qed.

Lemma turn_work ts ts' : lock_turn ts ts' → work ts = Datatypes.S (work ts').
Proof. intros H. destruct H as [i h l p ts Hi _|i h l p ts Hi]; by apply (work_insert i _ _ ts Hi). Qed.

Definition all_ordered (ts : list thread) : Prop := Forall (λ t, ordered (holds t) (remains t)) ts.

Lemma filter_absent (l : lock) (h : list lock) : l ∉ h → filter (λ x, x ≠ l) h = h.
Proof.
  induction h as [|x h IH]; intros Hn; [done|]. apply not_elem_of_cons in Hn as [Hx Hn].
  rewrite filter_cons, decide_True by (intros ->; done). by rewrite IH.
Qed.

Lemma turn_ordered ts ts' : lock_turn ts ts' → all_ordered ts → all_ordered ts'.
Proof.
  intros Hs Ho. assert (H : ∀ i t, ts !! i = Some t → ordered (holds t) (remains t)) by by apply Forall_lookup.
  destruct Hs as [i h l p ts Hi Hf|i h l p ts Hi]; apply Forall_insert; try done; specialize (H i _ Hi); simpl in H |- *.
  - apply H.
  - destruct h as [|x h]; [done|]. destruct H as (-> & Hn & Hp). rewrite filter_cons, decide_False by (intros Hc; by apply Hc).
    by rewrite filter_absent.
Qed.

(** A thread that waits leads to one that can go on. *)
Lemma waiting_progress ts : all_ordered ts → ∀ n i h l p, ts !! i = Some (mkThread h (Acq l :: p)) →
  (2 - rank l <= n)%nat → ∃ ts', lock_turn ts ts'.
Proof.
  intros Ho. induction n as [|n IH]; intros i h l p Hi Hr; [destruct l; simpl in Hr; lia|].
  destruct (decide (free ts l)) as [Hf|Hf]; [eexists; by apply (turn_acquire i h l p)|].
  unfold free in Hf. apply not_Forall_Exists in Hf; [|tc_solve]. apply Exists_exists in Hf as (t & Ht & Hheld).
  assert (Hin : l ∈ holds t) by (destruct (decide (l ∈ holds t)); naive_solver).
  apply list_elem_of_lookup in Ht as [j Hj]. assert (Hot : ordered (holds t) (remains t)) by by eapply Forall_lookup_1 in Ho.
  destruct t as [h' [|[l'|l'] p']]; simpl in *.
  - subst h'. by apply not_elem_of_nil in Hin.
  - destruct Hot as [Hlt _]. rewrite Forall_forall in Hlt. apply Hlt in Hin. apply (IH j h' l' p' Hj). lia.
  - eexists. by apply (turn_release j h' l' p').
Qed.

Lemma ordered_progress ts : all_ordered ts → finished ts ∨ ∃ ts', lock_turn ts ts'.
Proof.
  intros Ho. destruct (decide (finished ts)) as [Hf|Hf]; [by left|right].
  unfold finished in Hf. apply not_Forall_Exists in Hf; [|tc_solve]. apply Exists_exists in Hf as (t & Ht & Hn).
  apply list_elem_of_lookup in Ht as [i Hi]. destruct t as [h [|[l|l] p]]; simpl in Hn; [done| |].
  - by apply (waiting_progress ts Ho 2 i h l p); [|lia].
  - eexists. by apply (turn_release i h l p).
Qed.

Lemma ordered_finishes ts : all_ordered ts → ∃ ts', rtc lock_turn ts ts' ∧ finished ts'.
Proof.
  remember (work ts) as n eqn:Hn. revert ts Hn. induction n as [|n IH]; intros ts Hn Ho;
    (destruct (ordered_progress ts Ho) as [Hf|[ts1 Hs]]; [by exists ts|]); assert (Hw := turn_work _ _ Hs); [lia|].
  destruct (IH ts1) as (ts' & Hr & Hf); [lia|by apply (turn_ordered ts)|]. exists ts'. split; [by eapply rtc_l|done].
Qed.

(** ** Properties *)

(** threads whose calls ask no Python predicate under the lock of a message
    log never block each other for good: from every state they can reach, all of
    them can finish, whatever the number of threads, their calls and the order of
    their turns; and no run of theirs has more turns than they have lock
    operations. *)
Theorem log_calls_do_not_deadlock (progs : list (list api)) ts : Forall (Forall (λ c, asks_under_log c = false)) progs →
  rtc lock_turn (caller <$> progs) ts →
  (∃ ts', rtc lock_turn ts ts' ∧ finished ts') ∧ (finished ts ∨ ∃ ts', lock_turn ts ts') ∧
  ∀ n ts', nsteps lock_turn n ts ts' → (n <= work (caller <$> progs))%nat.
Proof.
  intros Hp Hr.
  assert (Ho : all_ordered (caller <$> progs)).
  { apply Forall_fmap. apply (Forall_impl _ _ _ Hp). intros cs Hcs. by apply ordered_caller. }
  assert (Ho' : all_ordered ts) by (by apply (rtc_invariant lock_turn all_ordered _ ts turn_ordered Hr)).
  split; [by apply ordered_finishes|]. split; [by apply ordered_progress|]. intros n ts' Hn.
  assert (Hwork : ∀ k x y, nsteps lock_turn k x y → work x = (k + work y)%nat).
  { intros k x y Hk. induction Hk as [|k x y z Hxy _ IH]; [done|]. rewrite (turn_work _ _ Hxy), IH. lia. }
  apply rtc_nsteps in Hr as [k Hk]. apply Hwork in Hk, Hn. lia.
Qed.

(** a selective receive on an observed actor asks its Python predicate while
    it holds the lock of the actor's log.  One [get_messages] for that actor at
    the same moment stops both for good, with the GIL held. *)
Theorem observed_receive_deadlocks pid :
  ∃ ts, rtc lock_turn (caller <$> [[LkObservedRecv pid 1]; [LkGetMessages pid]]) ts ∧
    ¬ finished ts ∧ (∃ t, t ∈ ts ∧ Gil ∈ holds t) ∧ ∀ ts', ¬ lock_turn ts ts'.
Proof.
  set (t0 := mkThread [Log pid] [Acq Gil; Rel Gil; Rel (Log pid); Acq Gil; Rel Gil]).
  set (t1 := mkThread [Gil] [Acq (Log pid); Rel (Log pid); Rel Gil]).
  assert (Hfree : ∀ l ts, forallb (λ t, forallb (λ x, bool_decide (x ≠ l)) (holds t)) ts = true → free ts l).
  { intros l ts H. apply Forall_forall. intros t Ht Hin. rewrite forallb_forall in H.
    assert (H1 := H t (proj1 (list_elem_of_In _ _) Ht)). rewrite forallb_forall in H1.
    assert (H2 := H1 l (proj1 (list_elem_of_In _ _) Hin)). by apply bool_decide_eq_true in H2. }
  exists [t0; t1]. split_and!.
  - eapply rtc_l; [by apply (turn_acquire 0 [] (Log pid)); [|apply Hfree]|]. simpl.
    eapply rtc_l; [by apply (turn_acquire 1 [] Gil); [|apply Hfree]|]. done.
  - intros H. by apply Forall_cons in H as [H _].
  - exists t1. split; [right; left|left].
  - intros ts' Hs. inversion Hs as [i h l p ts Hi Hf|i h l p ts Hi]; subst.
    + unfold free in Hf. rewrite Forall_forall in Hf. destruct i as [|[|i]]; simpl in Hi; simplify_eq.
      * apply (Hf t1); [right; left|left].
      * apply (Hf t0); [left|left].
    + by destruct i as [|[|i]]; simpl in Hi; simplify_eq.
Qed.

(** ** Instances *)
Lemma log_calls_do_not_deadlock_witness :
  finished (caller <$> [[LkGetMessages 1]; [LkObservedTurn 1]]) ∨
  ∃ ts', lock_turn (caller <$> [[LkGetMessages 1]; [LkObservedTurn 1]]) ts'.
Proof.
  apply (log_calls_do_not_deadlock [[LkGetMessages 1]; [LkObservedTurn 1]]); [by repeat constructor|apply rtc_refl].
Defined.
