(* ===== verification/NodeMembrane.v ===== *)
(** * The JavaScript membrane ([src/src/node.rs])

    PIDs cross as [i64]; messages cross as a [WrappedMessage].  (The other
    conversion in the file, [message_to_js], does not type-check and is not
    modelled.) *)
From S2P Require Import Prelude Pid Mailbox Registry Buffer Supervisor Runtime RuntimeInv PyMembrane.
From Stdlib Require Import Strings.Byte.

(** The casts [as i64] and [as u64]. *)
Definition as_i64 (z : Z) : Z := if z <? 2 ^ 63 then z else z - 2 ^ 64.

Definition as_u64 (z : Z) : Z := ⌊z⌋₆₄.

Record JsSystemMessage := mkJsSys {
  js_type_name : string; js_target_pid : option Z; js_reason : option string; js_metadata : option string
}.

Record WrappedMessage := mkWrapped { data : option Bytes; system : option JsSystemMessage }.

Definition wrapped_from (msg : Message) : WrappedMessage :=
  match msg with
  | User b => mkWrapped (Some b) None
  | System s =>
      mkWrapped None (Some
        match s with
        | Exit info => mkJsSys "EXIT" (Some (as_i64 (from info))) (Some (reason_text (reason info))) (metadata info)
        | HotSwap _ => mkJsSys "HOT_SWAP" None None None
        | Ping => mkJsSys "PING" None None None
        | Pong => mkJsSys "PONG" None None None
        end)
  end.

Section calls.
Context {F S : Type} `{PA : PidAllocator S}.

Definition js_send (pid : Z) (b : Bytes) (rt : Runtime F S) : Runtime F S * bool :=
  let (rt', r) := rt_send (as_u64 pid) (User b) rt in (rt', is_ok r).

Definition js_send_named (name : string) (b : Bytes) (rt : Runtime F S) : Runtime F S * bool :=
  let (rt', r) := send_named name (User b) rt in (rt', is_ok r).

Definition js_register (name : string) (pid : Z) (rt : Runtime F S) : Runtime F S :=
  rt_register name (as_u64 pid) rt.

Definition js_resolve (name : string) (rt : Runtime F S) : option Z := as_i64 <$> rt_resolve name rt.

Definition js_stop (pid : Z) (rt : Runtime F S) : Runtime F S := stop (as_u64 pid) rt.

Definition js_is_alive (pid : Z) (rt : Runtime F S) : bool := is_alive (as_u64 pid) rt.

Definition js_children_count (rt : Runtime F S) : Z := ⌊Z.of_nat (children_count (supervisor rt))⌋₃₂.

Definition js_child_pids (rt : Runtime F S) : list Z := as_i64 <$> child_pids (supervisor rt).

Definition js_get_messages (pid : Z) (rt : Runtime F S) : list WrappedMessage :=
  match get_observed_messages (as_u64 pid) rt with
  | Some msgs => wrapped_from <$> msgs
  | None => []
  end.

Definition js_watch (pid : Z) (strategy : string) (rt : Runtime F S) : option (Runtime F S) :=
  match parse_strategy strategy with
  | Some strat => Some (on_sup 0 (add_child (as_u64 pid) (mkSpec (ConstPid (as_u64 pid)) strat)) rt)
  | None => None
  end.

Lemma as_u64_as_i64 z : fits 64 z → as_u64 (as_i64 z) = z.
Proof.
  unfold fits, as_u64, as_i64, wrap. intros Hz. destruct (z <? 2 ^ 63) eqn:E; breflect.
  - apply Z.mod_small. lia.
  - replace (z - 2 ^ 64) with (z + (-1) * 2 ^ 64) by lia. rewrite Z.mod_add by lia. by apply Z.mod_small.
Qed.

(** ** Properties *)

(** a PID cast to [i64] and back is the same PID, whatever its generation:
    registering, resolving, sending, stopping and asking with the [i64] act on the
    actor it came from.  (What a JavaScript number keeps of it is in [NodeApi].) *)
Theorem pid_survives_javascript name pid b (rt : Runtime F S) :
  fits 64 pid →
  js_resolve name (js_register name (as_i64 pid) rt) = Some (as_i64 pid) ∧
  rt_resolve name (js_register name (as_i64 pid) rt) = Some pid ∧
  js_is_alive (as_i64 pid) rt = is_alive pid rt ∧
  js_stop (as_i64 pid) rt = stop pid rt ∧
  js_send (as_i64 pid) b rt =
    (let (rt', r) := rt_send pid (User b) rt in (rt', is_ok r)).
Proof.
  intros Hp. unfold js_resolve, js_register, js_is_alive, js_stop, js_send.
  rewrite as_u64_as_i64 by done. unfold rt_resolve, rt_register, resolve, register, set_registry.
  cbn [registry]. by rewrite lookup_insert_eq.
Qed.

(** Both membranes show a message alike: bytes for a user message; for a
    system message the same type, the same reason ("" and none are the same) and
    metadata, and the same PID up to the sign cast. *)
Theorem membranes_agree msg :
  match message_to_py msg, wrapped_from msg with
  | PyBytes b, w => w = mkWrapped (Some b) None
  | PySys m, w => ∃ j, w = mkWrapped None (Some j) ∧ js_type_name j = type_name m ∧
      js_target_pid j = as_i64 <$> target_pid m ∧ default ""%string (js_reason j) = py_reason m ∧
      js_metadata j = py_metadata m
  end.
Proof. destruct msg as [b|[info|ptr| |]]; simpl; [done|by eexists..]. Qed.
End calls.

Lemma pid_survives_javascript_witness :
  let pid := 2 ^ 63 + 5 in
  js_resolve "n" (js_register "n" (as_i64 pid) Demo.one) = Some (as_i64 pid) ∧
  rt_resolve "n" (js_register "n" (as_i64 pid) Demo.one) = Some pid ∧
  js_is_alive (as_i64 pid) Demo.one = is_alive pid Demo.one ∧
  js_stop (as_i64 pid) Demo.one = stop pid Demo.one ∧
  js_send (as_i64 pid) [x61] Demo.one =
    (let (rt', r) := rt_send pid (User [x61]) Demo.one in (rt', is_ok r)).
Proof. apply (pid_survives_javascript "n" (2 ^ 63 + 5) [x61] Demo.one). unfold fits. lia. Defined.
