(* ===== verification/NodeApi.v ===== *)
(** * The JavaScript API ([src/src/node.rs])

    The methods of [NodeRuntime] that act on the runtime, as [js_call] and
    [js_exec], compared with the Python API; push actors, whose handler hands
    messages to a JavaScript function; and the task that keeps a pull actor alive
    while JavaScript holds its mailbox.

    An [i64] becomes a JavaScript number, a double: the file shows up to which
    generation a PID is exact as one, and that the next generation is not. *)
From S2P Require Import Prelude Pid Mailbox Registry Buffer Supervisor Runtime RuntimeInv Lifecycle Interface Timers Duration PyMembrane PyApi NodeMembrane.
From Stdlib Require Import Strings.Byte Floats.SpecFloat.

(** ** Calls *)
Inductive js_value :=
| JVoid
| JBool (b : bool)
| JNum (z : Z)
| JU32 (z : Z)
| JOptNum (o : option Z)
| JNums (l : list Z)
| JMsgs (l : list WrappedMessage).

Inductive js_exn := JsError (msg : string) | JsPanic.

Abbreviation js_result := (result js_value js_exn).

Definition default_budget (budget : option Z) : Z := default 100 budget.

Inductive js_call :=
| JsSpawn (budget : option Z)
| JsSpawnWithMailbox (budget : option Z)
| JsSend (pid : Z) (b : Bytes)
| JsSendNamed (name : string) (b : Bytes)
| JsRegister (name : string) (pid : Z)
| JsResolve (name : string)
| JsStop (pid : Z)
| JsIsAlive (pid : Z)
| JsChildrenCount
| JsChildPids
| JsHotSwap (pid : Z) (tsfn : Z)
| JsSpawnObservedHandler (budget : option Z)
| JsGetMessages (pid : Z)
| JsWatch (pid : Z) (strategy : string).

Section calls.
Context {F S : Type} `{PA : PidAllocator S}.

Definition js_spawned (r : option (Runtime F S * Pid)) (rt : Runtime F S) : Runtime F S * js_result :=
  match r with
  | Some (rt', pid) => (rt', Ok (JNum (as_i64 pid)))
  | None => (rt, Err JsPanic)
  end.

Definition js_spawn (budget : option Z) (rt : Runtime F S) : Runtime F S * js_result :=
  js_spawned (spawn_handler_with_budget (default_budget budget) rt) rt.

Definition js_spawn_with_mailbox (budget : option Z) (rt : Runtime F S) : Runtime F S * js_result :=
  js_spawned (spawn_actor_with_budget (default_budget budget) rt) rt.

Definition js_hot_swap (pid : Z) (tsfn : Z) (rt : Runtime F S) : Runtime F S := hot_swap (as_u64 pid) tsfn rt.

Definition js_spawn_observed_handler (budget : option Z) (rt : Runtime F S) : Runtime F S * js_result :=
  js_spawned (spawn_observed_handler (default_budget budget) rt) rt.

Definition js_exec (c : js_call) (rt : Runtime F S) : Runtime F S * js_result :=
  match c with
  | JsSpawn b => js_spawn b rt
  | JsSpawnWithMailbox b => js_spawn_with_mailbox b rt
  | JsSend pid b => let (rt', r) := js_send pid b rt in (rt', Ok (JBool r))
  | JsSendNamed name b => let (rt', r) := js_send_named name b rt in (rt', Ok (JBool r))
  | JsRegister name pid => (js_register name pid rt, Ok JVoid)
  | JsResolve name => (rt, Ok (JOptNum (js_resolve name rt)))
  | JsStop pid => (js_stop pid rt, Ok JVoid)
  | JsIsAlive pid => (rt, Ok (JBool (js_is_alive pid rt)))
  | JsChildrenCount => (rt, Ok (JU32 (js_children_count rt)))
  | JsChildPids => (rt, Ok (JNums (js_child_pids rt)))
  | JsHotSwap pid tsfn => (js_hot_swap pid tsfn rt, Ok JVoid)
  | JsSpawnObservedHandler b => js_spawn_observed_handler b rt
  | JsGetMessages pid => (rt, Ok (JMsgs (js_get_messages pid rt)))
  | JsWatch pid strategy =>
      match js_watch pid strategy rt with
      | Some rt' => (rt', Ok JVoid)
      | None => (rt, Err (JsError "Invalid strategy"))
      end
  end.

(** The Python call that does the same; Python has no [send_named], and its push
    actors are spawned by [spawn_py_handler]. *)
Definition py_of (c : js_call) : option (py_call F) :=
  match c with
  | JsSpawn _ | JsSendNamed _ _ => None
  | JsSpawnWithMailbox b => Some (CMessage (PySpawnWithMailbox (default_budget b)))
  | JsSend pid b => Some (CMessage (PySend (as_u64 pid) b))
  | JsRegister name pid => Some (CName (PyRegister name (as_u64 pid)))
  | JsResolve name => Some (CName (PyResolve name))
  | JsStop pid => Some (CActor (PyStop (as_u64 pid)))
  | JsIsAlive pid => Some (CQuery (PyIsAlive (as_u64 pid)))
  | JsChildrenCount => Some (CQuery PyChildrenCount)
  | JsChildPids => Some (CQuery PyChildPids)
  | JsHotSwap pid tsfn => Some (CActor (PyHotSwap (as_u64 pid) tsfn))
  | JsSpawnObservedHandler b => Some (CActor (PySpawnObservedHandler (default_budget b)))
  | JsGetMessages pid => Some (CQuery (PyGetMessages (as_u64 pid)))
  | JsWatch pid strategy => Some (CSupervise (PyWatch (as_u64 pid) strategy))
  end.
End calls.

(** The two views of one message, and of one result. *)
Definition same_message (o : PyObj) (w : WrappedMessage) : Prop :=
  match o with
  | PyBytes b => w = mkWrapped (Some b) None
  | PySys m => ∃ j, w = mkWrapped None (Some j) ∧ js_type_name j = type_name m ∧
      js_target_pid j = as_i64 <$> target_pid m ∧ default ""%string (js_reason j) = py_reason m ∧
      js_metadata j = py_metadata m
  end.

Definition same_result (p : py_result) (j : js_result) : Prop :=
  match p, j with
  | Ok VNone, Ok JVoid => True
  | Ok (VBool a), Ok (JBool b) => a = b
  | Ok (VInt z), Ok (JNum n) => n = as_i64 z
  | Ok (VInt z), Ok (JU32 n) => n = ⌊z⌋₃₂
  | Ok (VOptInt o), Ok (JOptNum o') => o' = as_i64 <$> o
  | Ok (VInts l), Ok (JNums l') => l' = as_i64 <$> l
  | Ok (VMsgs l), Ok (JMsgs l') => Forall2 same_message l l'
  | Err (ValueError _), Err (JsError _) => True
  | Err PanicException, Err JsPanic => True
  | _, _ => False
  end.

(** ** Push actors

    The handler's function is a thread-safe function, named by a number; a call
    puts the message on the function's queue without waiting. [js_queue] lists
    the calls put, latest last. *)
Record JsActor := mkJsActor { js_behavior : Z; js_queue : list (Z * Message) }.

Definition js_handler (msg : Message) (a : JsActor) : JsActor :=
  match msg with
  | System (HotSwap ptr) => mkJsActor ptr (js_queue a)
  | _ => mkJsActor (js_behavior a) (js_queue a ++ [(js_behavior a, msg)])
  end.

Definition js_handle_all (msgs : list Message) (a : JsActor) : JsActor := fold_left (λ a m, js_handler m a) msgs a.

(** A turn of a push actor's task. *)
Definition js_actor_turn {F S} `{PA : PidAllocator S} (pid : Pid) (a : JsActor) (rt : Runtime F S) : JsActor * Runtime F S :=
  match handler_turn pid None rt with
  | (rt', Handled msg _) => (js_handler msg a, rt')
  | (rt', Stopped) | (rt', Waiting) => (a, rt')
  end.

(** ** Pull actors

    The task looks every second whether JavaScript still holds the mailbox;
    [counts t] is the number of references to it at [t] milliseconds, the task's
    own included.  [None] is running out of fuel. *)
Fixpoint keep_alive (fuel : nat) (counts : Z → nat) (now : Z) : option Z :=
  match fuel with
  | O => None
  | Datatypes.S fuel' =>
      let now := now + 1000 in
      if (counts now <=? 1)%nat then Some now else keep_alive fuel' counts now
  end.

(** ** Numbers

    What JavaScript holds of an [i64] and gives back: the nearest double, and its
    integral part. *)
Definition int64_of (f : spec_float) : Z :=
  match f with
  | S754_finite s m e =>
      let n := if 0 <=? e then Z.pos m * 2 ^ e else Z.pos m / 2 ^ (- e) in
      if s then - n else n
  | _ => 0
  end.

Definition through_js (z : Z) : Z := int64_of (f64_of_Z z).

(** ** Lemmas *)
Lemma wrapped_same_message msg : same_message (message_to_py msg) (wrapped_from msg).
Proof. destruct msg as [b|[info|ptr| |]]; simpl; [done|by eexists..]. Qed.

Lemma messages_same msgs : Forall2 same_message (message_to_py <$> msgs) (wrapped_from <$> msgs).
Proof. induction msgs as [|m msgs IH]; constructor; [apply wrapped_same_message|done]. Qed.

(** What Python's handler that runs in place has done after [msgs], in terms of
    the calls JavaScript's has put. *)
Definition user_calls (q : list (Z * Message)) : list (Z * Bytes) :=
  omap (λ x, match snd x with User b => Some (fst x, b) | System _ => None end) q.

Definition is_hot_swap (m : Message) : bool := match m with System (HotSwap _) => true | _ => false end.

Lemma js_handle_all_spec msgs a p : js_behavior a = behavior p →
  let a' := js_handle_all msgs a in
  let p' := snd (handle_all msgs (Inline, p)) in
  js_behavior a' = behavior p' ∧
  ∃ new, js_queue a' = js_queue a ++ new ∧ calls p' = calls p ++ user_calls new ∧
    snd <$> new = filter (λ m, is_hot_swap m = false) msgs.
Proof.
  revert a p. induction msgs as [|m msgs IH]; intros a p Hb.
  - split; [done|]. exists []. by rewrite !app_nil_r.
  - unfold js_handle_all, handle_all in *. cbn [fold_left]. rewrite filter_cons.
    assert (Hstep : ∃ p1, py_handler m (Inline, p) = (Inline, p1) ∧ js_behavior (js_handler m a) = behavior p1 ∧
      ∃ new, js_queue (js_handler m a) = js_queue a ++ new ∧ calls p1 = calls p ++ user_calls new ∧
        snd <$> new = if is_hot_swap m then [] else [m]).
    { destruct m as [b|[info|ptr| |]]; simpl; (eexists; split; [done|]); simpl; (split; [done|]).
      - exists [(js_behavior a, User b)]. by rewrite Hb.
      - exists [(js_behavior a, System (Exit info))]. by rewrite app_nil_r.
      - exists []. by rewrite !app_nil_r.
      - exists [(js_behavior a, System Ping)]. by rewrite app_nil_r.
      - exists [(js_behavior a, System Pong)]. by rewrite app_nil_r. }
    destruct Hstep as (p1 & -> & Hb1 & new1 & Hq1 & Hc1 & Hs1).
    destruct (IH (js_handler m a) p1 Hb1) as (Hb2 & new2 & Hq2 & Hc2 & Hs2).
    split; [done|]. exists (new1 ++ new2). rewrite Hq2, Hq1, Hc2, Hc1, fmap_app, Hs1, Hs2.
    unfold user_calls. rewrite omap_app, !(assoc_L (++)). split_and!; [done|done|]. by destruct (is_hot_swap m).
Qed.

(** ** Doubles *)
Lemma digits2_size p : digits2_pos p = Pos.size p.
Proof. induction p as [p IH|p IH|]; simpl; [by rewrite IH..|done]. Qed.

Lemma iter_xO p d : Pos.iter xO p d = (p * 2 ^ d)%positive.
Proof.
  revert p. induction d as [|d IH] using Pos.peano_ind; intros p; [simpl; lia|].
  rewrite Pos.iter_succ, IH, Pos.pow_succ_r. lia.
Qed.

Lemma size_shift p d : Pos.size (Pos.iter xO p d) = (Pos.size p + d)%positive.
Proof.
  induction d as [|d IH] using Pos.peano_ind; [simpl; lia|]. rewrite Pos.iter_succ. simpl. rewrite IH. lia.
Qed.

(** A mantissa of 53 digits is not rounded. *)
Lemma round_53 s m e : digits2_pos m = 53%positive → -1074 <= e <= 0 →
  binary_round_aux 53 1024 s (Z.pos m) e loc_Exact = S754_finite s m e.
Proof.
  intros Hd He.
  assert (Hshr : shr_fexp 53 1024 (Z.pos m) e loc_Exact = (Build_shr_record (Z.pos m) false false, e)).
  { unfold shr_fexp. cbn [shr_record_of_loc Zdigits2]. rewrite Hd. unfold fexp, emin.
    replace (Z.max (53 + e - 53) (3 - 1024 - 53) - e) with 0 by lia. done. }
  unfold binary_round_aux. rewrite Hshr. cbn [loc_of_shr_record shr_m round_nearest_even]. rewrite Hshr. cbn [shr_m].
  assert ((e <=? 1024 - 53) = true) as -> by (apply Z.leb_le; lia). done.
Qed.

Lemma round_small s p : Z.pos p < 2 ^ 53 → int64_of (binary_round 53 1024 s p 0) = if s then Z.neg p else Z.pos p.
Proof.
  intros Hp. assert (Hs : (Pos.size p <= 53)%positive).
  { apply Pos.le_nlt. intros Hlt. assert (H := Pos.size_le p). assert (H2 : 2 ^ 54 <= 2 ^ Z.pos (Pos.size p)) by (apply Z.pow_le_mono_r; lia).
    rewrite <-(Pos2Z.inj_pow 2) in H2. lia. }
  unfold binary_round, shl_align. rewrite digits2_size. unfold fexp, emin.
  replace (Z.max (Z.pos (Pos.size p) + 0 - 53) (3 - 1024 - 53) - 0) with (Z.pos (Pos.size p) - 53) by lia.
  replace (Z.max (Z.pos (Pos.size p) + 0 - 53) (3 - 1024 - 53)) with (Z.pos (Pos.size p) - 53) by lia.
  destruct (decide (Pos.size p = 53%positive)) as [E|E].
  - rewrite E. change (53 - 53) with 0. cbv beta iota zeta.
    rewrite round_53 by (rewrite ?digits2_size; done || lia). simpl. destruct s; lia.
  - assert (∃ d, Z.pos (Pos.size p) - 53 = Z.neg d) as [d Hd] by (exists (53 - Pos.size p)%positive; lia).
    rewrite Hd. rewrite round_53 by (rewrite ?digits2_size, ?size_shift; lia). rewrite iter_xO. unfold int64_of.
    assert ((0 <=? Z.neg d) = false) as -> by done. rewrite Pos2Z.inj_mul, Pos2Z.inj_pow. cbn [Z.opp].
    rewrite Z.div_mul by (apply Z.pow_nonzero; lia). destruct s; lia.
Qed.

Lemma through_js_exact z : - 2 ^ 53 < z < 2 ^ 53 → through_js z = z.
Proof.
  intros Hz. unfold through_js, f64_of_Z. destruct z as [|p|p]; [done| |]; cbn [binary_normalize].
  - by rewrite round_small by lia.
  - by rewrite round_small by lia.
Qed.

(** ** Properties *)
Section properties.
Context {F S : Type} `{PA : PidAllocator S}.

(** C39: a JavaScript call that Python has too does to the runtime what Python's
    does, with the PID's bits, and answers what Python's answers, through the
    casts; it fails when Python's raises. *)
Theorem js_calls_are_python_calls (c : js_call) (c' : py_call F) (s : PyState F S) : py_of c = Some c' →
  fst (js_exec c (py_node s)) = py_node (fst (py_exec c' s)) ∧
  same_result (snd (py_exec c' s)) (snd (js_exec c (py_node s))).
Proof.
  destruct c as [b|b|pid b|name b|name pid|name|pid|pid| | |pid tsfn|b|pid|pid strategy]; intros [= <-];
    unfold py_exec, on_node, actor_exec; try done.
  - unfold message_exec, js_exec, js_spawn_with_mailbox, spawn_actor_with_budget, py_node. by destruct (spawn Raw _) as [[rt' p]|].
  - unfold message_exec, js_exec, js_send, py_node. by destruct (rt_send (as_u64 pid) (User b) _).
  - unfold js_exec, js_spawn_observed_handler, spawn_observed_handler. by destruct (spawn Observed _) as [[rt' p]|].
  - split; [done|]. simpl. unfold js_get_messages. destruct (get_observed_messages (as_u64 pid) _); [apply messages_same|constructor].
  - simpl. unfold js_watch, py_watch. by destruct (parse_strategy strategy).
Qed.

(** given the same messages, a JavaScript push actor calls the functions that
    a Python actor running in place calls, with the same user messages in the
    same order, and ends with the same function; JavaScript's is also called with
    the exit, ping and pong messages, which Python's handler keeps to itself. *)
Theorem js_handler_matches_python msgs f :
  let a := js_handle_all msgs (mkJsActor f []) in
  let p := snd (handle_all msgs (Inline, mkPyActor f [])) in
  js_behavior a = behavior p ∧ user_calls (js_queue a) = calls p ∧
  snd <$> js_queue a = filter (λ m, is_hot_swap m = false) msgs.
Proof.
  destruct (js_handle_all_spec msgs (mkJsActor f []) (mkPyActor f []) eq_refl) as (Hb & new & Hq & Hc & Hs).
  cbv zeta. simpl in Hq, Hc. rewrite Hq, Hc. done.
Qed.

(** the task of a pull actor ends, at a whole second after its start, once
    JavaScript holds the mailbox no more: not before that moment [held], and less
    than a second after it or one second after the start. *)
Theorem js_mailbox_actor_ends counts held now fuel :
  (∀ t, (counts t <=? 1)%nat = (held <=? t)) → held <= now + 1000 * Z.of_nat fuel → (0 < fuel)%nat →
  ∃ t, keep_alive fuel counts now = Some t ∧ held <= t ∧ now + 1000 <= t ∧ t <= Z.max (now + 1000) (held + 999) ∧
    (t - now) mod 1000 = 0.
Proof.
  intros Hc. revert now. induction fuel as [|fuel IH]; intros now Hf Hpos; [lia|]. cbn [keep_alive]. rewrite Hc.
  destruct (held <=? now + 1000) eqn:E; breflect.
  - exists (now + 1000). split_and!; [done|lia|lia|lia|]. by replace (now + 1000 - now) with 1000 by lia.
  - destruct (IH (now + 1000)) as (t & Ht & H1 & H2 & H3 & H4); [lia|destruct fuel; lia|].
    exists t. split_and!; [done|lia|lia|lia|]. replace (t - now) with (t - (now + 1000) + 1 * 1000) by lia.
    by rewrite Z.mod_add.
Qed.

(** as a JavaScript number a PID is exact while its generation is below
    [2^21]: what comes back names the same actor.  From that generation on it may
    name another: the PIDs of slots 0 and 1 are the same number. *)
Theorem js_number_exact i g : Z.of_nat i < 2 ^ 32 → 0 <= g < 2 ^ 21 →
  as_u64 (through_js (as_i64 (make_pid i g))) = make_pid i g ∧
  make_pid 0 (2 ^ 21) ≠ make_pid 1 (2 ^ 21) ∧
  through_js (as_i64 (make_pid 1 (2 ^ 21))) = through_js (as_i64 (make_pid 0 (2 ^ 21))) ∧
  as_u64 (through_js (as_i64 (make_pid 1 (2 ^ 21)))) = make_pid 0 (2 ^ 21).
Proof.
  intros Hi Hg. split; [|by vm_compute]. assert (Hm : make_pid i g = g * 2 ^ 32 + Z.of_nat i) by (apply make_pid_arith; [done|unfold fits; lia]).
  assert (Hr : 0 <= make_pid i g < 2 ^ 53) by (rewrite Hm; lia).
  assert (Hc : as_i64 (make_pid i g) = make_pid i g).
  { unfold as_i64. assert ((make_pid i g <? 2 ^ 63) = true) as -> by (apply Z.ltb_lt; lia). done. }
  rewrite Hc, through_js_exact by lia. apply wrap_small. unfold fits. lia.
Qed.
End properties.

(** ** Instances *)
Lemma js_calls_are_python_calls_witness :
  fst (js_exec (JsWatch Demo.a "all") (py_node PyDemo.start)) =
    py_node (fst (py_exec (CSupervise (PyWatch Demo.a "all")) PyDemo.start)) ∧
  same_result (snd (py_exec (CSupervise (PyWatch Demo.a "all")) PyDemo.start))
    (snd (js_exec (JsWatch Demo.a "all") (py_node PyDemo.start))).
Proof.
  apply (js_calls_are_python_calls (JsWatch Demo.a "all") (CSupervise (PyWatch Demo.a "all")) PyDemo.start).
  reflexivity.
Defined.

(** JavaScript lets go of the mailbox after 1.5 seconds. *)
Definition demo_counts (t : Z) : nat := if 1500 <=? t then 1 else 2.

Lemma js_mailbox_actor_ends_witness :
  ∃ t, keep_alive 3 demo_counts 0 = Some t ∧ 1500 <= t ∧ 0 + 1000 <= t ∧ t <= Z.max (0 + 1000) (1500 + 999) ∧
    (t - 0) mod 1000 = 0.
Proof.
  apply (js_mailbox_actor_ends demo_counts 1500 0 3); [|lia|lia].
  intros t. unfold demo_counts. by destruct (1500 <=? t).
Defined.

Lemma js_number_exact_witness :
  as_u64 (through_js (as_i64 (make_pid 7 5))) = make_pid 7 5 ∧
  make_pid 0 (2 ^ 21) ≠ make_pid 1 (2 ^ 21) ∧
  through_js (as_i64 (make_pid 1 (2 ^ 21))) = through_js (as_i64 (make_pid 0 (2 ^ 21))) ∧
  as_u64 (through_js (as_i64 (make_pid 1 (2 ^ 21)))) = make_pid 0 (2 ^ 21).
Proof. apply (js_number_exact 7 5); lia. Defined.
