(* ===== verification/Waiting.v ===== *)
(** * Waiting with a timeout ([src/src/py.rs], [node.rs], [lib.rs])

    The receives of the front-ends block, in slices and with a timeout, on a
    future that is dropped when the time is up.  [timeout_wait] is tokio's
    [timeout]: the future is polled, then the deadline is looked at, then the
    task sleeps until something happens.  What happens is a script of events:
    time passes, messages arrive, senders go, a signal comes.  [sliced_wait] is
    the loop of the Python membrane around it.

    The file holds [PyMailbox::recv] and [selective_recv], [JsMailbox::recv],
    [selective_recv_observed_py] and the joins, and shows when each answers what,
    that a wait given up loses no message, and that it ends in time.  A matcher
    answers the same for the same message; one task waits on a mailbox at a time. *)
From S2P Require Import Prelude Pid Mailbox Registry Supervisor Runtime RuntimeInv Lifecycle Duration PyMembrane NodeMembrane.
From Stdlib Require Import Strings.Byte Floats.SpecFloat.

(** ** Waits *)
Section wait.
Context {W E A : Type} (poll_fn : W → W * poll A) (happen : E → W → W) (now : W → Z) (interrupted : W → bool).

Inductive waited := Got (a : A) | Expired | Blocked.

Definition past (deadline : option Z) (t : Z) : bool :=
  match deadline with Some d => d <=? t | None => false end.

(** [tokio::time::timeout(d, fut).await], or [fut.await] without a deadline;
    [Blocked] is a wait still going on when the script ends. *)
Fixpoint timeout_wait (deadline : option Z) (w : W) (evs : list E) : waited * W * list E :=
  match poll_fn w with
  | (w', Ready a) => (Got a, w', evs)
  | (w', Pending) =>
      if past deadline (now w') then (Expired, w', evs)
      else
        match evs with
        | [] => (Blocked, w', [])
        | ev :: evs' => timeout_wait deadline (happen ev w') evs'
        end
  end.

Inductive sliced := SGot (a : A) | STimedOut | SInterrupted | SBlocked.

(** The loop of the Python receives: signals are looked at between waits of at
    most 100 ms; [limit] is the caller's timeout, counted from [start].  [None]
    is running out of fuel. *)
Fixpoint sliced_wait (fuel : nat) (limit : option Z) (start : Z) (w : W) (evs : list E)
  : option (sliced * W * list E) :=
  match fuel with
  | O => None
  | S fuel' =>
      if interrupted w then Some (SInterrupted, w, evs)
      else
        let wait_time := from_millis 100 in
        let elapsed := now w - start in
        if past limit elapsed then Some (STimedOut, w, evs)
        else
          let actual_wait := match limit with Some t => Z.min wait_time (t - elapsed) | None => wait_time end in
          match timeout_wait (Some (now w + actual_wait)) w evs with
          | (Got a, w', evs') => Some (SGot a, w', evs')
          | (Blocked, w', evs') => Some (SBlocked, w', evs')
          | (Expired, w', evs') =>
              if past limit (now w' - start) then Some (STimedOut, w', evs')
              else sliced_wait fuel' limit start w' evs'
          end
  end.

Definition after (evs : list E) (w : W) : W := fold_left (λ w e, happen e w) evs w.

(** ** Laws

    [rel w wi]: the wait stands at [w]; without it the world would be at [wi].
    Polls that find nothing keep that relation. *)
Context (rel : W → W → Prop).
Hypothesis rel_happen : ∀ e w wi, rel w wi → rel (happen e w) (happen e wi).
Hypothesis rel_pending : ∀ w w' wi, rel w wi → poll_fn w = (w', Pending) → rel w' wi.
Hypothesis rel_now : ∀ w wi, rel w wi → now w = now wi.
Hypothesis poll_now : ∀ w, now (fst (poll_fn w)) = now w.

(** The last poll found nothing. *)
Definition found_nothing (w' wi : W) : Prop := ∃ w1, rel w1 wi ∧ poll_fn w1 = (w', Pending).

(** Events were waited for only before [t]. *)
Definition prompt (t : option Z) (used : list E) (wi : W) : Prop :=
  ∀ u1 e u2, used = u1 ++ e :: u2 → past t (now (after u1 wi)) = false.

Lemma prompt_nil t wi : prompt t [] wi.
Proof. intros u1 e u2 H. by destruct u1. Qed.

Lemma prompt_cons t e used wi : past t (now wi) = false → prompt t used (happen e wi) → prompt t (e :: used) wi.
Proof.
  intros H1 H2 [|x u1] y u2 Heq; [done|]. simpl in Heq. injection Heq as <- Heq. by apply (H2 u1 y u2).
Qed.

Lemma prompt_app t u1 u2 wi : prompt t u1 wi → prompt t u2 (after u1 wi) → prompt t (u1 ++ u2) wi.
Proof.
  revert wi. induction u1 as [|e u1 IH]; intros wi H1 H2; [done|].
  apply prompt_cons; [by apply (H1 [] e u1)|]. apply IH; [|done].
  intros v1 e' v2 Hv. apply (H1 (e :: v1) e' v2). by rewrite Hv.
Qed.

Lemma prompt_weaken t t' used wi : (∀ x, past t x = false → past t' x = false) → prompt t used wi → prompt t' used wi.
Proof. intros Ht H u1 e u2 Hu. apply Ht. by eapply H. Qed.

Lemma timeout_wait_spec deadline w wi evs : rel w wi →
  let '(o, w', rest) := timeout_wait deadline w evs in
  ∃ used, evs = used ++ rest ∧ prompt deadline used wi ∧
  match o with
  | Got a => ∃ w1, rel w1 (after used wi) ∧ poll_fn w1 = (w', Ready a)
  | Expired => found_nothing w' (after used wi) ∧ past deadline (now w') = true
  | Blocked => rest = [] ∧ found_nothing w' (after used wi) ∧ past deadline (now w') = false
  end.
Proof.
  revert w wi. induction evs as [|e evs IH]; intros w wi Hr; cbn [timeout_wait];
    assert (Hn := poll_now w); destruct (poll_fn w) as [w' [a|]] eqn:Ep; cbn [fst] in Hn.
  - exists []. split_and!; [done|apply prompt_nil|]. by exists w.
  - destruct (past deadline (now w')) eqn:Hp; exists []; (split_and!; [done|apply prompt_nil|..]); try done; by exists w.
  - exists []. split_and!; [done|apply prompt_nil|]. by exists w.
  - destruct (past deadline (now w')) eqn:Hp.
    + exists []. split_and!; [done|apply prompt_nil| |done]. by exists w.
    + assert (Hr' := rel_pending w w' wi Hr Ep).
      specialize (IH (happen e w') (happen e wi) (rel_happen e w' wi Hr')).
      destruct (timeout_wait deadline (happen e w') evs) as [[o w2] rest].
      destruct IH as (used & -> & Hpr & Ho). exists (e :: used). split_and!; [done| |done].
      apply prompt_cons; [|done]. by rewrite <-(rel_now w' wi).
Qed.

Lemma past_slice limit start nw x : past limit (nw - start) = false →
  past (Some (nw + match limit with Some t => Z.min (from_millis 100) (t - (nw - start)) | None => from_millis 100 end)) x = false →
  past limit (x - start) = false.
Proof. destruct limit as [t|]; simpl; [|done]. intros. breflect. apply Z.leb_gt. lia. Qed.

Lemma sliced_wait_spec limit start fuel w wi evs : rel w wi → (length evs < fuel)%nat →
  ∃ o w' rest used, sliced_wait fuel limit start w evs = Some (o, w', rest) ∧ evs = used ++ rest ∧
  prompt ((λ t, t + start) <$> limit) used wi ∧
  match o with
  | SGot a => ∃ w1, rel w1 (after used wi) ∧ poll_fn w1 = (w', Ready a)
  | STimedOut => rel w' (after used wi) ∧ past limit (now w' - start) = true ∧
      (past limit (now w - start) = false → found_nothing w' (after used wi))
  | SInterrupted => rel w' (after used wi) ∧ interrupted w' = true
  | SBlocked => rest = [] ∧ found_nothing w' (after used wi) ∧ past limit (now w' - start) = false
  end.
Proof.
  revert w wi evs. induction fuel as [|fuel IH]; intros w wi evs Hr Hf; [lia|]. cbn [sliced_wait].
  destruct (interrupted w) eqn:Hi.
  { exists SInterrupted, w, evs, []. by split_and!; try apply prompt_nil. }
  destruct (past limit (now w - start)) eqn:Hp.
  { exists STimedOut, w, evs, []. split_and!; try apply prompt_nil; done. }
  assert (Hslice := past_slice limit start (now w)).
  set (wait := match limit with Some t => _ | None => _ end) in *.
  assert (Hw : 0 < wait) by (unfold wait, from_millis; destruct limit; simpl in Hp; breflect; lia).
  assert (Ht := timeout_wait_spec (Some (now w + wait)) w wi evs Hr).
  destruct (timeout_wait _ w evs) as [[o w'] rest] eqn:Et. destruct Ht as (used & -> & Hpr & Ho).
  assert (Hpr' : prompt ((λ t, t + start) <$> limit) used wi).
  { eapply prompt_weaken; [|exact Hpr]. intros x Hx. specialize (Hslice x Hp Hx).
    destruct limit; simpl in *; [|done]. breflect. apply Z.leb_gt. lia. }
  destruct o as [a| |].
  - by exists (SGot a), w', rest, used.
  - destruct Ho as [Hn He]. destruct (past limit (now w' - start)) eqn:Hp'.
    + exists STimedOut, w', rest, used. split_and!; try done.
      destruct Hn as (w1 & Hr1 & Hpoll). by eapply rel_pending.
    + assert (Hne : used ≠ []).
      { intros ->. destruct Hn as (w1 & Hr1 & Hpoll). simpl in *. assert (Hn1 := poll_now w1).
        rewrite Hpoll in Hn1. simpl in Hn1. rewrite (rel_now w1 wi), <-(rel_now w wi) in Hn1 by done. breflect. lia. }
      assert (Hr' : rel w' (after used wi)) by (destruct Hn as (w1 & ? & ?); by eapply rel_pending).
      destruct (IH w' (after used wi) rest Hr') as (o & w2 & rest2 & used2 & -> & -> & Hpr2 & Ho2).
      { rewrite length_app in Hf. destruct used; [done|]. simpl in Hf. lia. }
      exists o, w2, rest2, (used ++ used2). split_and!; [done|by rewrite (assoc_L (++))|by apply prompt_app|].
      unfold after in *. rewrite fold_left_app. destruct o; try done. by destruct Ho2 as (? & ? & ?); auto.
  - destruct Ho as (-> & Hn & He). exists SBlocked, w', [], used. split_and!; try done. by apply Hslice.
Qed.
End wait.

Arguments waited : clear implicits.
Arguments sliced : clear implicits.

(** ** Receives of the mailbox wrappers *)

(** The waiting task: its clock, in nanoseconds, its mailbox, and whether a
    signal handler of the interpreter has raised. *)
Record Waiter := mkWaiter { clock : Z; mbox : Mailbox; signalled : bool }.

Inductive event := Elapse (ns : N) | Arrive (msg : Message) | HangUp | Signal.

Definition happen (e : event) (w : Waiter) : Waiter :=
  match e with
  | Elapse ns => mkWaiter (clock w + Z.of_N ns) (mbox w) (signalled w)
  | Arrive msg => mkWaiter (clock w) (fst (send msg (mbox w))) (signalled w)
  | HangUp => mkWaiter (clock w) (drop_sender (mbox w)) (signalled w)
  | Signal => mkWaiter (clock w) (mbox w) true
  end.

Definition poll_recv (w : Waiter) : Waiter * poll (option Message) :=
  let (m, r) := recv (mbox w) in (mkWaiter (clock w) m (signalled w), r).

Definition poll_selective (f : Message → bool) (w : Waiter) : Waiter * poll (option Message) :=
  match selective_recv f (mbox w) with
  | Some (m, r) => (mkWaiter (clock w) m (signalled w), r)
  | None => (w, Pending)
  end.

(** [PyReturned None] is Python's [None]: nothing came in time, or the mailbox
    is closed.  [PyPanicked] is [Duration::from_secs_f64] refusing the timeout. *)
Inductive py_outcome := PyReturned (v : option PyObj) | PyRaised | PyPanicked | PyWaiting.

Definition py_answered (x : sliced (option Message) * Waiter * list event) : py_outcome * Waiter * list event :=
  let '(o, w, evs) := x in
  (match o with
   | SGot (Some msg) => PyReturned (Some (message_to_py msg))
   | SGot None | STimedOut => PyReturned None
   | SInterrupted => PyRaised
   | SBlocked => PyWaiting
   end, w, evs).

Definition py_blocking (poll_fn : Waiter → Waiter * poll (option Message)) (timeout : option spec_float)
    (w : Waiter) (evs : list event) : option (py_outcome * Waiter * list event) :=
  match timeout with
  | Some f =>
      match from_secs_f64 f with
      | None => Some (PyPanicked, w, evs)
      | Some t =>
          py_answered <$> sliced_wait poll_fn happen clock signalled (S (length evs)) (Some t) (clock w) w evs
      end
  | None => py_answered <$> sliced_wait poll_fn happen clock signalled (S (length evs)) None (clock w) w evs
  end.

Definition mailbox_recv : option spec_float → Waiter → list event → option (py_outcome * Waiter * list event) :=
  py_blocking poll_recv.

Definition mailbox_selective_recv (matcher : PyObj → py_answer)
  : option spec_float → Waiter → list event → option (py_outcome * Waiter * list event) :=
  py_blocking (poll_selective (run_python_matcher matcher)).

Inductive js_outcome := JsReturned (v : option WrappedMessage) | JsPanicked | JsWaiting.

Definition js_recv (timeout_sec : option spec_float) (w : Waiter) (evs : list event)
  : js_outcome * Waiter * list event :=
  let answer (x : waited (option Message) * Waiter * list event) :=
    let '(o, w', rest) := x in
    (match o with
     | Got val => JsReturned (wrapped_from <$> val)
     | Expired => JsReturned None
     | Blocked => JsWaiting
     end, w', rest) in
  match timeout_sec with
  | Some sec =>
      match from_secs_f64 sec with
      | Some d => answer (timeout_wait poll_recv happen clock (Some (clock w + d)) w evs)
      | None => (JsPanicked, w, evs)
      end
  | None => answer (timeout_wait poll_recv happen clock None w evs)
  end.

(** ** Selective receive from an observed actor's log *)
Section observed.
Context {F S : Type} `{PA : PidAllocator S}.

(** The future sleeps 10 ms between its looks at the log; [ObsStep] is the rest
    of the runtime at work. *)
Record ObsWaiter := mkObsWaiter { o_clock : Z; o_rt : Runtime F S; o_wake : Z }.

Inductive obs_event := ObsElapse (ns : N) | ObsStep (rt : Runtime F S).

Definition obs_happen (e : obs_event) (w : ObsWaiter) : ObsWaiter :=
  match e with
  | ObsElapse ns => mkObsWaiter (o_clock w + Z.of_N ns) (o_rt w) (o_wake w)
  | ObsStep rt => mkObsWaiter (o_clock w) rt (o_wake w)
  end.

Definition poll_observed (pid : Pid) (f : Message → bool) (w : ObsWaiter) : ObsWaiter * poll Message :=
  if o_clock w <? o_wake w then (w, Pending)
  else
    match take_observed_message_matching pid f (o_rt w) with
    | (rt', Some m) => (mkObsWaiter (o_clock w) rt' (o_wake w), Ready m)
    | (rt', None) => (mkObsWaiter (o_clock w) rt' (o_clock w + from_millis 10), Pending)
    end.

Definition selective_recv_observed_py (pid : Pid) (matcher : PyObj → py_answer) (timeout : option spec_float)
    (w : ObsWaiter) (evs : list obs_event) : py_outcome * ObsWaiter * list obs_event :=
  let answer (x : waited Message * ObsWaiter * list obs_event) :=
    let '(o, w', rest) := x in
    (match o with
     | Got m => PyReturned (Some (message_to_py m))
     | Expired => PyReturned None
     | Blocked => PyWaiting
     end, w', rest) in
  let op := poll_observed pid (run_python_matcher matcher) in
  match timeout with
  | Some sec =>
      match from_secs_f64 sec with
      | Some d => answer (timeout_wait op obs_happen o_clock (Some (o_clock w + d)) w evs)
      | None => (PyPanicked, w, evs)
      end
  | None => answer (timeout_wait op obs_happen o_clock None w evs)
  end.

(** ** Waiting for the end of an actor

    [seen] is the runtime as the successive looks find it, and for Python
    whether a signal was pending; [None] is still waiting. *)
Fixpoint wait (pid : Pid) (seen : list (Runtime F S)) : option (Runtime F S) :=
  match seen with
  | [] => None
  | rt :: seen' => if is_alive pid rt then wait pid seen' else Some rt
  end.

Inductive join_outcome := Joined (rt : Runtime F S) | JoinRaised | Joining.

Fixpoint py_join (pid : Pid) (seen : list (bool * Runtime F S)) : join_outcome :=
  match seen with
  | [] => Joining
  | (signal, rt) :: seen' =>
      if signal then JoinRaised
      else if is_alive pid rt then py_join pid seen' else Joined rt
  end.

Definition js_join (pid : Z) (seen : list (Runtime F S)) : option (Runtime F S) := wait (as_u64 pid) seen.
End observed.

Arguments ObsWaiter : clear implicits.
Arguments obs_event : clear implicits.

(** ** Lemmas *)
Lemma recv_pending_same m m' : recv m = (m', Pending) → m' = m ∧ senders m ≠ 0%nat.
Proof.
  intros H. destruct (decide (senders m = 0%nat)) as [Hz|Hz].
  - destruct (recv_viewP m) as [l1 s l2 E Hl Hr _|s q Hs E Hr _|b st Hs Es E Hr _|E Es Hr _]; rewrite Hr in H; try done.
    unfold recv_select in H. by rewrite Es, Hz in H.
  - split; [|done]. rewrite recv_open_eq in H by done. assert (Ht := try_recv_abs m).
    destruct (abs_recv (abs m)) as [[x a]|]; [destruct Ht as (m2 & E & _)|rename Ht into E]; rewrite E in H; by simplify_eq.
Qed.

Lemma poll_recv_eq w : poll_recv w = (mkWaiter (clock w) (fst (recv (mbox w))) (signalled w), snd (recv (mbox w))).
Proof. unfold poll_recv. by destruct (recv (mbox w)). Qed.

Lemma poll_recv_pending w w' wi : w = wi → poll_recv w = (w', Pending) → w' = wi.
Proof.
  intros <-. rewrite poll_recv_eq. destruct (recv (mbox w)) as [m r] eqn:E. intros [= <- ->].
  apply recv_pending_same in E as [-> _]. by destruct w.
Qed.

(** What a waiting selective receive keeps of the mailbox. *)
Definition same_queues (w wi : Waiter) : Prop :=
  clock w = clock wi ∧ signalled w = signalled wi ∧ abs (mbox w) = abs (mbox wi) ∧
  senders (mbox w) = senders (mbox wi) ∧ receiver_alive (mbox w) = true ∧ receiver_alive (mbox wi) = true.

Lemma same_queues_happen e w wi : same_queues w wi → same_queues (happen e w) (happen e wi).
Proof.
  intros (Hc & Hs & Ha & Hn & Hr & Hri). destruct e as [ns|msg| |]; unfold same_queues; cbn [happen clock signalled mbox].
  - split_and!; congruence.
  - destruct (send_open msg (mbox w) Hr) as (-> & -> & -> & _), (send_open msg (mbox wi) Hri) as (-> & -> & -> & _).
    split_and!; congruence.
  - unfold abs in *. simpl. split_and!; congruence.
  - split_and!; congruence.
Qed.

Lemma poll_selective_now f w : clock (fst (poll_selective f w)) = clock w.
Proof. unfold poll_selective. by destruct (selective_recv f (mbox w)) as [[m r]|]. Qed.

Lemma poll_selective_pending f w w' wi : same_queues w wi → poll_selective f w = (w', Pending) →
  same_queues w' wi ∧ abs_none_matches f (abs (mbox wi)) ∧ senders (mbox wi) ≠ 0%nat.
Proof.
  intros (Hc & Hs & Ha & Hn & Hr & Hri). unfold poll_selective.
  destruct (selective_recv_spec f (mbox w)) as (m & r & -> & (F1 & F2 & _) & Hspec). intros [= <- ->].
  destruct Hspec as (H1 & H2 & H3 & H4 & H5). unfold same_queues. simpl. split_and!; try congruence.
  - rewrite <-Ha, <-H2. by apply none_matches_stash.
Qed.

Lemma take_none pid f {F S} (rt rt' : Runtime F S) : take_observed_message_matching pid f rt = (rt', None) → rt' = rt.
Proof. unfold take_observed_message_matching. intros H. repeat split_match; by simplify_eq. Qed.

(** The log as the environment leaves it. *)
Definition same_runtime {F S} (w wi : ObsWaiter F S) : Prop := o_clock w = o_clock wi ∧ o_rt w = o_rt wi.

Lemma same_runtime_happen {F S} e (w wi : ObsWaiter F S) : same_runtime w wi → same_runtime (obs_happen e w) (obs_happen e wi).
Proof. intros [H1 H2]. destruct e; split; simpl; congruence. Qed.

Lemma poll_observed_pending {F S} pid f (w w' wi : ObsWaiter F S) : same_runtime w wi →
  poll_observed pid f w = (w', Pending) → same_runtime w' wi.
Proof.
  intros [H1 H2]. unfold poll_observed. destruct (_ <? _); [by intros [= <-]|].
  destruct (take_observed_message_matching pid f (o_rt w)) as [rt' [m|]] eqn:E; [done|].
  apply take_none in E as ->. by intros [= <-].
Qed.

Lemma poll_observed_now {F S} pid f (w : ObsWaiter F S) : o_clock (fst (poll_observed pid f w)) = o_clock w.
Proof. unfold poll_observed. destruct (_ <? _); [done|]. by destruct (take_observed_message_matching _ _ _) as [? []]. Qed.

Lemma poll_recv_now w : clock (fst (poll_recv w)) = clock w.
Proof. by rewrite poll_recv_eq. Qed.

(** The hypotheses of [sliced_wait_spec] and [timeout_wait_spec], for each wait. *)
Lemma recv_wait limit fuel w evs : (length evs < fuel)%nat →
  ∃ o w' rest used, sliced_wait poll_recv happen clock signalled fuel limit (clock w) w evs = Some (o, w', rest) ∧
  evs = used ++ rest ∧ prompt happen clock ((λ t, t + clock w) <$> limit) used w ∧
  let wi := after happen used w in
  match o with
  | SGot a => poll_recv wi = (w', Ready a)
  | STimedOut => w' = wi ∧ past limit (clock w' - clock w) = true ∧
      (past limit 0 = false → poll_recv wi = (wi, Pending))
  | SInterrupted => w' = wi ∧ signalled w' = true
  | SBlocked => rest = [] ∧ w' = wi ∧ poll_recv wi = (wi, Pending) ∧ past limit (clock w' - clock w) = false
  end.
Proof.
  intros Hf. destruct (sliced_wait_spec poll_recv happen clock signalled eq) with (limit := limit) (start := clock w)
    (fuel := fuel) (w := w) (wi := w) (evs := evs) as (o & w' & rest & used & E & -> & Hp & Ho);
    try done; [by intros ? ? ? ->|by intros; eapply poll_recv_pending|by intros ? ? ->|apply poll_recv_now|].
  assert (Hfn : ∀ wi w1, found_nothing poll_recv eq w1 wi → w1 = wi ∧ poll_recv wi = (wi, Pending)).
  { intros wi w1 (w2 & -> & H). assert (w1 = wi) as -> by (by eapply (poll_recv_pending wi)). done. }
  exists o, w', rest, used. split_and!; [done|done|done|]. destruct o.
  - by destruct Ho as (w1 & -> & H).
  - destruct Ho as (-> & Hpast & Hn). split_and!; [done|done|]. rewrite Z.sub_diag in Hn. intros [_ H]%Hn%Hfn. done.
  - done.
  - destruct Ho as (-> & [-> H]%Hfn & Hpast). done.
Qed.

Lemma selective_wait f limit fuel w evs : receiver_alive (mbox w) = true → (length evs < fuel)%nat →
  ∃ o w' rest used, sliced_wait (poll_selective f) happen clock signalled fuel limit (clock w) w evs = Some (o, w', rest) ∧
  evs = used ++ rest ∧ prompt happen clock ((λ t, t + clock w) <$> limit) used w ∧
  let wi := after happen used w in
  match o with
  | SGot (Some msg) => abs_select f (abs (mbox wi)) msg (abs (mbox w'))
  | SGot None => senders (mbox wi) = 0%nat ∧ abs (mbox w') = abs (mbox wi) ∧
      Forall (λ y, f (System y) = false) (a_sys (abs (mbox wi)))
  | STimedOut => same_queues w' wi ∧ past limit (clock w' - clock w) = true ∧
      (past limit 0 = false → abs_none_matches f (abs (mbox wi)))
  | SInterrupted => same_queues w' wi ∧ signalled w' = true
  | SBlocked => rest = [] ∧ same_queues w' wi ∧ abs_none_matches f (abs (mbox wi)) ∧
      past limit (clock w' - clock w) = false
  end.
Proof.
  intros Hr Hf. destruct (sliced_wait_spec (poll_selective f) happen clock signalled same_queues) with (limit := limit)
    (start := clock w) (fuel := fuel) (w := w) (wi := w) (evs := evs) as (o & w' & rest & used & E & -> & Hp & Ho);
    try done; [apply same_queues_happen|intros ? ? ? H1 H2; by destruct (poll_selective_pending _ _ _ _ H1 H2)
      |by intros ? ? []|apply poll_selective_now|].
  assert (Hfn : ∀ wi w1, found_nothing (poll_selective f) same_queues w1 wi →
    same_queues w1 wi ∧ abs_none_matches f (abs (mbox wi))).
  { intros wi w1 (w2 & H1 & H2). by destruct (poll_selective_pending _ _ _ _ H1 H2) as (? & ? & _). }
  exists o, w', rest, used. split_and!; [done|done|done|]. destruct o as [a| | |].
  - destruct Ho as (w1 & (_ & _ & Ha & Hn & _) & H). unfold poll_selective in H.
    destruct (selective_recv_spec f (mbox w1)) as (m & r & Es & _ & Hspec). rewrite Es in H. injection H as <- ->.
    cbn [mbox]. rewrite <-Ha, <-Hn. destruct a as [msg|]; [done|]. destruct Hspec as (H1 & H2 & _ & H4 & H5).
    split_and!; [done|done|]. rewrite <-H2. unfold abs. rewrite H4, app_nil_r. by apply forall_sys_of.
  - destruct Ho as (Hs & Hpast & Hn). split_and!; [done|done|]. rewrite Z.sub_diag in Hn. by intros [_ H]%Hn%Hfn.
  - done.
  - destruct Ho as (-> & [? ?]%Hfn & Hpast). done.
Qed.

(** ** Properties *)

(** C38: [PyMailbox.recv] with a valid timeout [t]: it hands out what a
    single receive on the mailbox as it then stands would, or [None] when the
    mailbox is closed or when at least [t] has passed; in that case, and when a
    signal interrupts it, the mailbox is exactly what the sends made of it, so
    nothing is lost, and if the timeout was not zero nothing was deliverable.
    It sleeps only before [t] has passed, so it still waits only if the time is
    not up. *)
Theorem mailbox_recv_correct f t w evs : from_secs_f64 f = Some t →
  ∃ o w' rest used, mailbox_recv (Some f) w evs = Some (o, w', rest) ∧ evs = used ++ rest ∧
  (∀ u1 e u2, used = u1 ++ e :: u2 → clock (after happen u1 w) - clock w < t) ∧
  let m := mbox (after happen used w) in
  match o with
  | PyReturned (Some v) => ∃ msg, v = message_to_py msg ∧ recv m = (mbox w', Ready (Some msg))
  | PyReturned None => recv m = (mbox w', Ready None) ∨
      (mbox w' = m ∧ t <= clock w' - clock w ∧ (0 < t → recv m = (m, Pending)))
  | PyRaised => mbox w' = m ∧ signalled w' = true
  | PyWaiting => rest = [] ∧ mbox w' = m ∧ recv m = (m, Pending) ∧ clock w' - clock w < t
  | PyPanicked => False
  end.
Proof.
  intros Hf. unfold mailbox_recv, py_blocking. rewrite Hf.
  destruct (recv_wait (Some t) (S (length evs)) w evs ltac:(lia)) as (o & w' & rest & used & -> & -> & Hp & Ho).
  cbn [fmap option_fmap option_map py_answered]. eexists _, w', rest, used. split_and!; [done|done| |].
  { intros u1 e u2 Hu. specialize (Hp u1 e u2 Hu). simpl in Hp. breflect. lia. }
  assert (Hpend : ∀ wi, poll_recv wi = (wi, Pending) → recv (mbox wi) = (mbox wi, Pending)).
  { intros wi. rewrite poll_recv_eq. destruct (recv (mbox wi)) as [m r] eqn:E. intros [= _ ->].
    by apply recv_pending_same in E as Heq; destruct Heq as [-> _]. }
  destruct o as [a| | |]; simpl in Ho.
  - rewrite poll_recv_eq in Ho. destruct (recv (mbox (after happen used w))) as [m r]. injection Ho as <- ->.
    destruct a as [msg|]; [by exists msg|by left].
  - destruct Ho as (-> & Hpast & Hn). right. breflect. split_and!; [done|done|]. intros Ht. apply Hpend, Hn, Z.leb_gt. lia.
  - by destruct Ho as (-> & ?).
  - destruct Ho as (-> & -> & Hn & Hpast). breflect. split_and!; try done. by apply Hpend.
Qed.

(** [PyMailbox.selective_recv] likewise: what it returns satisfies the
    matcher and is the oldest such message of its class, and exactly that
    message leaves the mailbox; when the time is up or a signal interrupts it
    both queues are what the sends made of them, in order, although messages
    have moved to the stash, and after a timeout that was not zero none of them
    matched. *)
Theorem mailbox_selective_recv_correct matcher f t w evs :
  from_secs_f64 f = Some t → receiver_alive (mbox w) = true →
  ∃ o w' rest used, mailbox_selective_recv matcher (Some f) w evs = Some (o, w', rest) ∧ evs = used ++ rest ∧
  let a := abs (mbox (after happen used w)) in
  let matches := run_python_matcher matcher in
  match o with
  | PyReturned (Some v) => ∃ msg, v = message_to_py msg ∧ abs_select matches a msg (abs (mbox w'))
  | PyReturned None => abs (mbox w') = a ∧
      (senders (mbox (after happen used w)) = 0%nat ∨
       t <= clock w' - clock w ∧ (0 < t → abs_none_matches matches a))
  | PyRaised => abs (mbox w') = a ∧ signalled w' = true
  | PyWaiting => rest = [] ∧ abs (mbox w') = a ∧ abs_none_matches matches a ∧ clock w' - clock w < t
  | PyPanicked => False
  end.
Proof.
  intros Hf Hr. unfold mailbox_selective_recv, py_blocking. rewrite Hf.
  destruct (selective_wait (run_python_matcher matcher) (Some t) (S (length evs)) w evs Hr ltac:(lia))
    as (o & w' & rest & used & -> & -> & Hp & Ho).
  cbn [fmap option_fmap option_map py_answered]. eexists _, w', rest, used. split_and!; [done|done|].
  destruct o as [[msg|]| | |]; simpl in Ho.
  - by exists msg.
  - destruct Ho as (H1 & H2 & _). split; [done|by left].
  - destruct Ho as ((_ & _ & Ha & _) & Hpast & Hn). breflect. split; [done|]. right. split; [done|].
    intros Ht. apply Hn, Z.leb_gt. lia.
  - by destruct Ho as ((_ & _ & Ha & _) & ?).
  - destruct Ho as (-> & (_ & _ & Ha & _) & Hn & Hpast). breflect. by split_and!.
Qed.

(** A blocking receive with a timeout ends: once the time is up it has
    returned or raised, whatever arrives, and it has waited for no event after
    the moment the time was up. *)
Theorem blocking_receives_end matcher f t w evs :
  from_secs_f64 f = Some t → receiver_alive (mbox w) = true →
  t <= clock (after happen evs w) - clock w →
  (∃ o w' rest used, mailbox_recv (Some f) w evs = Some (o, w', rest) ∧ o ≠ PyWaiting ∧ evs = used ++ rest ∧
     ∀ u1 e u2, used = u1 ++ e :: u2 → clock (after happen u1 w) - clock w < t) ∧
  (∃ o w' rest used, mailbox_selective_recv matcher (Some f) w evs = Some (o, w', rest) ∧ o ≠ PyWaiting ∧
     evs = used ++ rest ∧ ∀ u1 e u2, used = u1 ++ e :: u2 → clock (after happen u1 w) - clock w < t).
Proof.
  intros Hf Hr Ht. unfold mailbox_recv, mailbox_selective_recv, py_blocking. rewrite Hf. split.
  - destruct (recv_wait (Some t) (S (length evs)) w evs ltac:(lia)) as (o & w' & rest & used & -> & -> & Hp & Ho).
    cbn [fmap option_fmap option_map py_answered]. eexists _, w', rest, used. split_and!; [done| |done|].
    + destruct o as [[msg|]| | |]; try done. destruct Ho as (-> & -> & _ & Hlt). simpl in Hlt. breflect.
      rewrite app_nil_r in Ht. lia.
    + intros u1 e u2 Hu. specialize (Hp u1 e u2 Hu). simpl in Hp. breflect. lia.
  - destruct (selective_wait (run_python_matcher matcher) (Some t) (S (length evs)) w evs Hr ltac:(lia))
      as (o & w' & rest & used & -> & -> & Hp & Ho).
    cbn [fmap option_fmap option_map py_answered]. eexists _, w', rest, used. split_and!; [done| |done|].
    + destruct o as [[msg|]| | |]; try done. destruct Ho as (-> & (Hc & _) & _ & Hlt). simpl in Hlt. breflect.
      rewrite app_nil_r in Ht. lia.
    + intros u1 e u2 Hu. specialize (Hp u1 e u2 Hu). simpl in Hp. breflect. lia.
Qed.

(** [JsMailbox.recv] with a valid timeout [d]: as in Python it hands out
    what a single receive would and loses nothing when the time is up, but it
    always looks at the mailbox, also with a timeout of zero. *)
Theorem js_recv_correct f d w evs : from_secs_f64 f = Some d →
  let '(o, w', rest) := js_recv (Some f) w evs in
  ∃ used, evs = used ++ rest ∧
  let m := mbox (after happen used w) in
  match o with
  | JsReturned (Some v) => ∃ msg, v = wrapped_from msg ∧ recv m = (mbox w', Ready (Some msg))
  | JsReturned None => recv m = (mbox w', Ready None) ∨
      (mbox w' = m ∧ recv m = (m, Pending) ∧ d <= clock w' - clock w)
  | JsWaiting => rest = [] ∧ mbox w' = m ∧ clock w' - clock w < d
  | JsPanicked => False
  end.
Proof.
  intros Hf. unfold js_recv. rewrite Hf.
  assert (Ht := timeout_wait_spec poll_recv happen clock eq
    ltac:(by intros ? ? ? ->) ltac:(intros; by eapply poll_recv_pending) ltac:(by intros ? ? ->) poll_recv_now
    (Some (clock w + d)) w w evs eq_refl).
  destruct (timeout_wait poll_recv happen clock (Some (clock w + d)) w evs) as [[o w'] rest].
  destruct Ht as (used & -> & _ & Ho). exists used. split; [done|]. destruct o as [a| |].
  - destruct Ho as (w1 & -> & Hp). rewrite poll_recv_eq in Hp.
    destruct (recv (mbox (after happen used w))) as [m r]. injection Hp as <- ->.
    destruct a as [msg|]; [by exists msg|by left].
  - destruct Ho as ((w1 & -> & Hp) & Hpast). rewrite poll_recv_eq in Hp.
    destruct (recv (mbox (after happen used w))) as [m r] eqn:E. injection Hp as <- ->.
    apply recv_pending_same in E as Heq. destruct Heq as [-> _]. simpl in *. breflect. right.
    split_and!; [done|done|lia].
  - destruct Ho as (-> & (w1 & -> & Hp) & Hpast). rewrite poll_recv_eq in Hp.
    destruct (recv (mbox (after happen used w))) as [m r] eqn:E. injection Hp as <- ->.
    apply recv_pending_same in E as Heq. destruct Heq as [-> _]. simpl in *. breflect.
    split_and!; [done|done|lia].
Qed.

(** A timeout of zero: the Python receive answers [None] without looking at
    the mailbox, however many messages are queued; the JavaScript one delivers
    the message. *)
Theorem zero_timeout_membranes_differ sgn m m' msg now evs :
  recv m = (m', Ready (Some msg)) →
  let w := mkWaiter now m false in
  mailbox_recv (Some (S754_zero sgn)) w evs = Some (PyReturned None, w, evs) ∧
  js_recv (Some (S754_zero sgn)) w evs = (JsReturned (Some (wrapped_from msg)), mkWaiter now m' false, evs).
Proof.
  intros Hm w. split.
  - unfold mailbox_recv, py_blocking. cbn [from_secs_f64 sliced_wait signalled w]. rewrite Z.sub_diag. done.
  - unfold js_recv. cbn [from_secs_f64]. destruct evs; cbn [timeout_wait]; rewrite poll_recv_eq; cbn [mbox w]; by rewrite Hm.
Qed.

Section observed_theorems.
Context {F S : Type} `{PA : PidAllocator S}.

(** [selective_recv_observed_py]: it returns the oldest logged message the
    matcher accepts and removes exactly it, at the moment it looks; given up, it
    has left the log as everybody else made it.  It looks every 10 ms, so that
    it can time out on a message logged less than 10 ms before. *)
Theorem observed_selective_recv_correct pid matcher f d (w : ObsWaiter F S) evs :
  from_secs_f64 f = Some d →
  let '(o, w', rest) := selective_recv_observed_py pid matcher (Some f) w evs in
  ∃ used, evs = used ++ rest ∧
  let rt := o_rt (after obs_happen used w) in
  match o with
  | PyReturned (Some v) => ∃ msg, v = message_to_py msg ∧
      take_observed_message_matching pid (run_python_matcher matcher) rt = (o_rt w', Some msg)
  | PyReturned None => o_rt w' = rt ∧ d <= o_clock w' - o_clock w
  | PyWaiting => rest = [] ∧ o_rt w' = rt ∧ o_clock w' - o_clock w < d
  | PyRaised | PyPanicked => False
  end.
Proof.
  intros Hf. unfold selective_recv_observed_py. rewrite Hf. set (g := run_python_matcher matcher).
  assert (Ht := timeout_wait_spec (poll_observed pid g) obs_happen o_clock same_runtime
    same_runtime_happen (λ w w' wi, poll_observed_pending pid g w w' wi) ltac:(by intros ? ? [])
    (poll_observed_now pid g) (Some (o_clock w + d)) w w evs (conj eq_refl eq_refl)).
  destruct (timeout_wait _ _ _ _ w evs) as [[o w'] rest]. destruct Ht as (used & -> & _ & Ho).
  exists used. split; [done|]. destruct o as [a| |].
  - destruct Ho as (w1 & [_ <-] & Hp). exists a. split; [done|]. unfold poll_observed in Hp.
    destruct (_ <? _); [done|]. destruct (take_observed_message_matching pid g (o_rt w1)) as [rt' [x|]]; [|done].
    by injection Hp as <- <-.
  - destruct Ho as ((w1 & Hs & Hp) & Hpast). destruct (poll_observed_pending _ _ _ _ _ Hs Hp) as [_ ?].
    simpl in Hpast. breflect. split; [done|lia].
  - destruct Ho as (-> & (w1 & Hs & Hp) & Hpast). destruct (poll_observed_pending _ _ _ _ _ Hs Hp) as [_ ?].
    simpl in Hpast. breflect. split_and!; [done|done|lia].
Qed.

Lemma wait_spec pid (seen : list (Runtime F S)) rt : wait pid seen = Some rt →
  ∃ l1 l2, seen = l1 ++ rt :: l2 ∧ Forall (λ r, is_alive pid r = true) l1 ∧ is_alive pid rt = false.
Proof.
  induction seen as [|r seen IH]; simpl; [done|]. destruct (is_alive pid r) eqn:E.
  - intros (l1 & l2 & -> & Hl & Hd)%IH. exists (r :: l1), l2. split_and!; [done|by constructor|done].
  - intros [= ->]. exists [], seen. by split_and!.
Qed.

Lemma py_join_wait pid (seen : list (Runtime F S)) :
  py_join pid ((λ r, (false, r)) <$> seen) = match wait pid seen with Some rt => Joined rt | None => Joining end.
Proof. induction seen as [|r seen IH]; simpl; [done|]. by destruct (is_alive pid r). Qed.

(** [wait] and the joins answer the first time they find the PID dead.
    Then, if it was in use, its actor has ended, its mailbox is gone and its
    slot given back - but the clean-up need not be over: the links may still be
    there and the linked actors not yet told. *)
Theorem wait_answers pid (seen : list (Runtime F S)) rt :
  fits 64 pid → Forall (reachable rt_init rt_step) seen → wait pid seen = Some rt →
  ∃ l1 l2, seen = l1 ++ rt :: l2 ∧ Forall (λ r, in_use r pid) l1 ∧
    actors rt !! pid = None ∧ (pid ∉ mailboxes rt) ∧
    (∀ i e, exits rt !! i = Some e → ex_pid e = pid → holds_slot (ex_stage e) = false).
Proof.
  intros Hfit Hr Hw. destruct (wait_spec pid seen rt Hw) as (l1 & l2 & -> & Hl & Hd).
  apply Forall_app in Hr as [Hr1 [Hr2 _]%Forall_cons]. exists l1, l2. split; [done|].
  assert (Hi := rt_reachable_inv rt Hr2).
  assert (Hnot : ¬ in_use rt pid) by (intros H; apply (inv_live _ Hi pid Hfit) in H; congruence).
  split_and!.
  - rewrite Forall_forall in Hl, Hr1 |- *. intros r Hin.
    by apply (inv_live _ (rt_reachable_inv r (Hr1 r Hin)) pid Hfit), Hl.
  - apply eq_None_not_Some. intros H. apply Hnot. by left.
  - intros H. destruct (inv_mail _ Hi pid H) as [?|(i & e & He & Hg & Hp)]; apply Hnot; [by left|].
    right. exists i, e. by rewrite Hg.
  - intros i e He Hp. destruct (holds_slot (ex_stage e)) eqn:Eh; [|done]. destruct Hnot. right. by exists i, e.
Qed.
End observed_theorems.

(** ** Instances *)
Module WaitingDemo.
(** 0.25 seconds. *)
Definition quarter : spec_float := S754_finite false 4503599627370496 (-54).

Definition fresh : Waiter := mkWaiter 0 channel false.

(** Two messages come while the caller waits, then nothing. *)
Definition traffic : list event :=
  [Elapse 120000000; Arrive (User [x61]); Elapse 60000000; Arrive (System Ping); Elapse 500000000].

Definition only_system (o : PyObj) : py_answer := ABool (match o with PySys _ => true | PyBytes _ => false end).

Definition watched (rt : Runtime unit SlabAllocator) : ObsWaiter unit SlabAllocator := mkObsWaiter 0 rt 0.
End WaitingDemo.

Lemma quarter_ns : from_secs_f64 WaitingDemo.quarter = Some 250000000.
Proof. vm_compute. reflexivity. Qed.

Lemma mailbox_recv_correct_witness :
  ∃ o w' rest used, mailbox_recv (Some WaitingDemo.quarter) WaitingDemo.fresh WaitingDemo.traffic = Some (o, w', rest) ∧
  WaitingDemo.traffic = used ++ rest ∧
  (∀ u1 e u2, used = u1 ++ e :: u2 → clock (after happen u1 WaitingDemo.fresh) - clock WaitingDemo.fresh < 250000000) ∧
  let m := mbox (after happen used WaitingDemo.fresh) in
  match o with
  | PyReturned (Some v) => ∃ msg, v = message_to_py msg ∧ recv m = (mbox w', Ready (Some msg))
  | PyReturned None => recv m = (mbox w', Ready None) ∨
      (mbox w' = m ∧ 250000000 <= clock w' - clock WaitingDemo.fresh ∧ (0 < 250000000 → recv m = (m, Pending)))
  | PyRaised => mbox w' = m ∧ signalled w' = true
  | PyWaiting => rest = [] ∧ mbox w' = m ∧ recv m = (m, Pending) ∧ clock w' - clock WaitingDemo.fresh < 250000000
  | PyPanicked => False
  end.
Proof. apply (mailbox_recv_correct WaitingDemo.quarter 250000000 WaitingDemo.fresh WaitingDemo.traffic), quarter_ns. Defined.

Lemma mailbox_selective_recv_correct_witness :
  ∃ o w' rest used,
  mailbox_selective_recv WaitingDemo.only_system (Some WaitingDemo.quarter) WaitingDemo.fresh WaitingDemo.traffic = Some (o, w', rest) ∧
  WaitingDemo.traffic = used ++ rest ∧
  let a := abs (mbox (after happen used WaitingDemo.fresh)) in
  let matches := run_python_matcher WaitingDemo.only_system in
  match o with
  | PyReturned (Some v) => ∃ msg, v = message_to_py msg ∧ abs_select matches a msg (abs (mbox w'))
  | PyReturned None => abs (mbox w') = a ∧
      (senders (mbox (after happen used WaitingDemo.fresh)) = 0%nat ∨
       250000000 <= clock w' - clock WaitingDemo.fresh ∧ (0 < 250000000 → abs_none_matches matches a))
  | PyRaised => abs (mbox w') = a ∧ signalled w' = true
  | PyWaiting => rest = [] ∧ abs (mbox w') = a ∧ abs_none_matches matches a ∧ clock w' - clock WaitingDemo.fresh < 250000000
  | PyPanicked => False
  end.
Proof.
  apply (mailbox_selective_recv_correct WaitingDemo.only_system WaitingDemo.quarter 250000000 WaitingDemo.fresh
    WaitingDemo.traffic); [apply quarter_ns|reflexivity].
Defined.

Lemma blocking_receives_end_witness :
  let w := WaitingDemo.fresh in
  let evs := WaitingDemo.traffic in
  let never : PyObj → py_answer := λ _, Raised in
  (∃ o w' rest used, mailbox_recv (Some WaitingDemo.quarter) w evs = Some (o, w', rest) ∧ o ≠ PyWaiting ∧ evs = used ++ rest ∧
     ∀ u1 e u2, used = u1 ++ e :: u2 → clock (after happen u1 w) - clock w < 250000000) ∧
  (∃ o w' rest used, mailbox_selective_recv never (Some WaitingDemo.quarter) w evs = Some (o, w', rest) ∧ o ≠ PyWaiting ∧
     evs = used ++ rest ∧ ∀ u1 e u2, used = u1 ++ e :: u2 → clock (after happen u1 w) - clock w < 250000000).
Proof.
  apply (blocking_receives_end (λ _, Raised) WaitingDemo.quarter 250000000 WaitingDemo.fresh WaitingDemo.traffic);
    [apply quarter_ns|reflexivity|vm_compute; discriminate].
Defined.

Lemma js_recv_correct_witness :
  let '(o, w', rest) := js_recv (Some WaitingDemo.quarter) WaitingDemo.fresh WaitingDemo.traffic in
  ∃ used, WaitingDemo.traffic = used ++ rest ∧
  let m := mbox (after happen used WaitingDemo.fresh) in
  match o with
  | JsReturned (Some v) => ∃ msg, v = wrapped_from msg ∧ recv m = (mbox w', Ready (Some msg))
  | JsReturned None => recv m = (mbox w', Ready None) ∨
      (mbox w' = m ∧ recv m = (m, Pending) ∧ 250000000 <= clock w' - clock WaitingDemo.fresh)
  | JsWaiting => rest = [] ∧ mbox w' = m ∧ clock w' - clock WaitingDemo.fresh < 250000000
  | JsPanicked => False
  end.
Proof. apply (js_recv_correct WaitingDemo.quarter 250000000 WaitingDemo.fresh WaitingDemo.traffic), quarter_ns. Defined.

Lemma zero_timeout_membranes_differ_witness :
  let m := fst (send (User [x61]) channel) in
  let w := mkWaiter 5 m false in
  mailbox_recv (Some (S754_zero false)) w [] = Some (PyReturned None, w, []) ∧
  js_recv (Some (S754_zero false)) w [] =
    (JsReturned (Some (wrapped_from (User [x61]))), mkWaiter 5 (fst (recv m)) false, []).
Proof.
  apply (zero_timeout_membranes_differ false (fst (send (User [x61]) channel))
    (fst (recv (fst (send (User [x61]) channel)))) (User [x61]) 5 []). reflexivity.
Defined.

Lemma observed_selective_recv_correct_witness :
  let w := WaitingDemo.watched Demo.ended in
  let evs := [ObsElapse 400000000] in
  let '(o, w', rest) := selective_recv_observed_py Demo.a WaitingDemo.only_system (Some WaitingDemo.quarter) w evs in
  ∃ used, evs = used ++ rest ∧
  let rt := o_rt (after obs_happen used w) in
  match o with
  | PyReturned (Some v) => ∃ msg, v = message_to_py msg ∧
      take_observed_message_matching Demo.a (run_python_matcher WaitingDemo.only_system) rt = (o_rt w', Some msg)
  | PyReturned None => o_rt w' = rt ∧ 250000000 <= o_clock w' - o_clock w
  | PyWaiting => rest = [] ∧ o_rt w' = rt ∧ o_clock w' - o_clock w < 250000000
  | PyRaised | PyPanicked => False
  end.
Proof.
  apply (observed_selective_recv_correct Demo.a WaitingDemo.only_system WaitingDemo.quarter 250000000
    (WaitingDemo.watched Demo.ended) [ObsElapse 400000000]), quarter_ns.
Defined.

Lemma wait_answers_witness :
  ∃ l1 l2, [Demo.cleaning 3; Demo.cleaning 4] = l1 ++ Demo.cleaning 4 :: l2 ∧ Forall (λ r, in_use r Demo.a) l1 ∧
    actors (Demo.cleaning 4) !! Demo.a = None ∧ (Demo.a ∉ mailboxes (Demo.cleaning 4)) ∧
    (∀ i e, exits (Demo.cleaning 4) !! i = Some e → ex_pid e = Demo.a → holds_slot (ex_stage e) = false).
Proof.
  apply (wait_answers Demo.a [Demo.cleaning 3; Demo.cleaning 4] (Demo.cleaning 4)).
  - vm_compute. intuition discriminate.
  - repeat apply Forall_cons_2; [apply demo_cleaning_reachable..|apply Forall_nil_2].
  - vm_compute. reflexivity.
Defined.

(** An instance of what [wait_answers] leaves open: [wait] has answered, the
    linked actor [b] has not been sent its EXIT message yet. *)
Theorem wait_answers_before_exit_message :
  wait Demo.a [Demo.cleaning 3; Demo.cleaning 4] = Some (Demo.cleaning 4) ∧
  (abs <$> boxes (Demo.cleaning 4) !! Demo.b) = Some (mkAbs [] []) ∧
  (a_sys ∘ abs <$> boxes (Demo.cleaning 7) !! Demo.b) =
    Some [Exit (mkExitInfo Demo.a Panic (Some "join_error: boom"%string))].
Proof. split_and!; vm_compute; reflexivity. Qed.
