(* ===== verification/EndToEnd.v ===== *)
(** * From a remote send to a Python callable

    The parts joined: a peer's [send_remote] tasks and its writing tasks
    ([PoolConc]), the bytes on the connection in whatever pieces they arrive, the
    server's handler on the other node ([Connection], [Server]), the mailbox of
    the actor ([Runtime], [Mailbox]), the turns of the actor's task and the
    handler closure of [spawn_py_handler] ([PyActors]). *)
From S2P Require Import Prelude Pid Mailbox Registry Supervisor Runtime RuntimeInv Lifecycle Actors Interface Wire Connection Server PeerPool PoolConc PyMembrane PyActors.
From Stdlib Require Import Strings.Byte.

(** The payloads for [pid] among the frames of a connection. *)
Definition payloads_for (pid : Pid) (fs : list frame) : list Bytes :=
  omap (λ f, match f with FUser q d => if decide (q = pid) then Some d else None | _ => None end) fs.

(** ** The receiving actor *)
Section actor.
Context {F S : Type} `{PA : PidAllocator S}.

(** [n] turns of the push actor [i]. *)
Fixpoint py_actor_run (n i : nat) (w : PyWorld) (rt : Runtime F S) : PyWorld * Runtime F S :=
  match n with
  | O => (w, rt)
  | Datatypes.S n' => let (w', rt') := py_actor_turn i w rt in py_actor_run n' i w' rt'
  end.
End actor.

(** ** Lemmas *)
Definition is_user (f : frame) : Prop := match f with FUser _ _ => True | _ => False end.

Lemma accepted_user id n : Forall is_user (accepted id n).
Proof.
  apply Forall_forall. intros f (t & _ & Ht)%list_elem_of_omap. unfold frame_via in Ht.
  destruct (s_stage t) as [| | | |j0| |[j|e]]; try done. case_decide; by simplify_eq.
Qed.

(** What one call of the closure does to it. *)
Lemma closure_call_at i msg w c : closures w !! i = Some c →
  ∃ c', closures (closure_call i msg w) !! i = Some c' ∧ c_given c' = c_given c ++ [msg] ∧
    c_pid c' = c_pid c ∧ c_open c' = c_open c ∧ c_release c' = c_release c ∧ (c_chan c = None → c_chan c' = None) ∧
    (c_chan c = None → c_release c = false →
      c_cell c' = match pool_task msg with Some t => run_task t (c_cell c) | None => c_cell c end).
Proof.
  intros Hc. assert (Hlt := lookup_lt_Some _ _ _ Hc). unfold closure_call. rewrite Hc. unfold route_of.
  destruct (c_chan c) as [q|] eqn:Hq.
  - destruct (py_handler msg (Dedicated q, c_cell c)) as [[|q'|ts] a]; simpl; rewrite list_lookup_insert_eq by done;
      (eexists; split; [done|]); by split_and!.
  - destruct (c_release c) eqn:Hr; [destruct (gil_pool w) as [p|] eqn:Hp|].
    + rewrite py_handler_pooled. simpl. rewrite list_lookup_insert_eq by done. eexists. split; [done|]. by split_and!.
    + rewrite py_handler_inline. simpl. rewrite list_lookup_insert_eq by done. eexists. split; [done|]. by split_and!.
    + rewrite py_handler_inline. simpl. rewrite list_lookup_insert_eq by done. eexists. split; [done|]. by split_and!.
Qed.

Section end_to_end.
Context {F S : Type} `{PA : PidAllocator S}.
Implicit Types (rt : Runtime F S) (w : PyWorld).

(** What the frames of a connection leave in one mailbox. *)
Lemma deliver_frames pid fs out : Forall is_user fs → ∀ rt m, reachable rt_init rt_step rt → pid ∈ mailboxes rt →
  is_Some (actors rt !! pid) → boxes rt !! pid = Some m →
  ∃ rt' m', fold_left frame_effect fs (rt, out) = (rt', out) ∧ reachable rt_init rt_step rt' ∧
    pid ∈ mailboxes rt' ∧ actors rt' = actors rt ∧ boxes rt' !! pid = Some m' ∧
    abs m' = mkAbs (a_sys (abs m)) (a_user (abs m) ++ payloads_for pid fs).
Proof.
  induction 1 as [|[q d|?|] fs Hf _ IH]; intros rt m Hr Hp Ha Hm; [|clear Hf|done..].
  - exists rt, m. rewrite app_nil_r. by split_and!; [..|destruct (abs m)].
  - cbn [fold_left frame_effect fst snd]. assert (Hs := rt_send_spec rt q (User d) (rt_reachable_inv _ Hr)).
    assert (Hr1 : reachable rt_init rt_step (fst (rt_send q (User d) rt))) by (eapply reach_step; [exact Hr|apply st_send]).
    change (node_send q (User d) rt) with (rt_send q (User d) rt).
    destruct (rt_send q (User d) rt) as [rt1 r]. cbn [fst] in Hr1 |- *. destruct Hs as (Hframe & Hother & Hs).
    assert (Hmb : mailboxes rt1 = mailboxes rt) by by rewrite Hframe.
    assert (Hac : actors rt1 = actors rt) by by rewrite Hframe.
    assert (Hone : ∃ m1, boxes rt1 !! pid = Some m1 ∧ abs m1 = mkAbs (a_sys (abs m)) (a_user (abs m) ++ payloads_for pid [FUser q d])).
    { unfold payloads_for. cbn [omap list_omap]. destruct (decide (q = pid)) as [->|Hne].
      - rewrite decide_True in Hs by done. destruct Hs as (_ & m0 & m1 & Hm0 & Hm1 & Habs). simplify_eq.
        exists m1. split; [done|]. rewrite Habs. simpl. by rewrite app_nil_r.
      - exists m. rewrite Hother by done. split; [done|]. rewrite app_nil_r. by destruct (abs m). }
    destruct Hone as (m1 & Hm1 & Habs).
    destruct (IH rt1 m1 Hr1) as (rt' & m' & H1 & H2 & H3 & H4 & H5 & H6); [by rewrite Hmb|by rewrite Hac|done|].
    exists rt', m'. split_and!; try done; [congruence|]. rewrite H6, Habs. cbn [a_sys a_user].
    rewrite <-(assoc_L (++)). unfold payloads_for. by rewrite <-omap_app.
Qed.

(** The actor handles everything in its mailbox. *)
Lemma py_actor_run_all i msgs : ∀ w rt c m b k, closures w !! i = Some c → c_open c = true →
  actors rt !! c_pid c = Some (Handler b k) → boxes rt !! c_pid c = Some m → senders m ≠ 0%nat → abs_all (abs m) = msgs →
  ∃ c', closures (fst (py_actor_run (length msgs) i w rt)) !! i = Some c' ∧ c_given c' = c_given c ++ msgs ∧
    (c_chan c = None → c_release c = false → c_cell c' = pool_done (omap pool_task msgs) (c_cell c)).
Proof.
  induction msgs as [|x msgs IH]; intros w rt c m b k Hc Ho Ha Hm Hs Hall.
  - exists c. by rewrite app_nil_r.
  - cbn [length py_actor_run]. unfold py_actor_turn. rewrite Hc, Ho.
    assert (Ht := handler_turn_open (c_pid c) rt b k m Ha Hm Hs). cbv zeta in Ht. rewrite Hall in Ht.
    destruct Ht as (rt' & m' & -> & Ha' & Hm' & Hall' & Hs').
    destruct (closure_call_at i x w c Hc) as (c1 & Hc1 & Hg1 & Hp1 & Ho1 & Hr1 & Hch1 & Hcell1).
    rewrite <-Hp1 in Ha', Hm'. rewrite <-Ho1 in Ho.
    destruct (IH (closure_call i x w) rt' c1 m' b _ Hc1 Ho Ha' Hm' Hs' Hall') as (c' & Hc' & Hg' & Hcell').
    exists c'. split_and!; [done|rewrite Hg', Hg1; by rewrite <-(assoc_L (++))|].
    intros Hn Hrel. rewrite Hcell' by (auto; congruence). rewrite Hcell1 by done. simpl. by destruct (pool_task x).
Qed.

Lemma user_calls_done ds a : let a' := pool_done (omap pool_task (User <$> ds)) a in
  behavior a' = behavior a ∧ calls a' = calls a ++ ((λ d, (behavior a, d)) <$> ds).
Proof.
  revert a. induction ds as [|d ds IH]; intros a; [by rewrite app_nil_r|].
  destruct (IH (call_behavior d a)) as [H1 H2]. unfold pool_done in *. cbn in *. rewrite H1, H2. cbn.
  by rewrite <-(assoc_L (++)).
Qed.

(** ** Properties *)

(** C29: Messages sent with [send_remote] to a push actor of another node reach
    its callable, in every interleaving of the tasks that send them, to this and
    to other actors: when a connection is drained and the other node, doing
    nothing else meanwhile, reads what it carries, in whatever pieces and until
    the stream ends, and the actor has had a turn per message, its handler has
    been called with what its mailbox held and then with the payload of every send
    to it that answered Ok through that connection, each once, in the order of the
    wire; run in place, it has called its callable with them. The sends are tasks:
    the order is the one in which they got hold of the channel, not that of the
    calls. *)
Theorem remote_sends_reach_callable (net : Net) id pr st (cn : Conn (Runtime F S)) i w c m b k :
  reachable net_init net_step net → peers (pool net) !! id = Some pr → writing id pr net → queue pr = [] →
  stream (input cn) = (inl <$> wire pr) ++ st → ended st → writes cn = [] →
  Forall (frame_ok (config (node cn))) (accepted id net) →
  reachable rt_init rt_step (node cn) → closures w !! i = Some c → c_open c = true →
  c_pid c ∈ mailboxes (node cn) → actors (node cn) !! c_pid c = Some (Handler b k) →
  boxes (node cn) !! c_pid c = Some m →
  ∃ fs cn' c', fs ≡ₚ accepted id net ∧ wire pr = PROTOCOL_VERSION :: encode_frames fs ∧
    handle_connection cn = Some (Ok tt, cn') ∧
    let held := abs_all (abs m) in let ds := payloads_for (c_pid c) fs in
    closures (fst (py_actor_run (length held + length ds) i w (node cn'))) !! i = Some c' ∧
    c_given c' = c_given c ++ held ++ (User <$> ds) ∧
    (c_chan c = None → c_release c = false →
      let a := pool_done (omap pool_task held) (c_cell c) in
      calls (c_cell c') = calls a ++ ((λ d, (behavior a, d)) <$> ds)).
Proof.
  intros Hn Hpr Hwr Hq Hs Hst Hw Hok Hr Hc Ho Hp Ha Hm.
  destruct (ni_conn _ (net_reachable_inv _ Hn) id pr Hpr) as (fs & Hperm & _ & Hcar).
  specialize (Hcar Hwr). unfold carries in Hcar. rewrite Hq in Hcar. cbn [concat] in Hcar. rewrite app_nil_r in Hcar.
  rewrite <-Hperm in Hok. assert (Hu := accepted_user id net). rewrite <-Hperm in Hu. rewrite Hcar in Hs.
  destruct (run_frames fs st cn Hs Hst Hw ltac:(exact Hok)) as (cn' & Hrun & Heff).
  destruct (deliver_frames (c_pid c) fs (output cn) Hu (node cn) m Hr Hp (mk_is_Some _ _ Ha) Hm)
    as (rt' & m' & Hfold & Hr' & Hp' & Hac & Hm' & Habs'). rewrite Hfold in Heff. injection Heff as Hnode _.
  assert (Hi' := rt_reachable_inv _ Hr'). destruct (inv_box _ Hi' (c_pid c) Hp') as (m1 & Hm1 & Hsend & _).
  assert (m1 = m') as -> by congruence. rewrite <-Hac in Ha.
  set (ds := payloads_for (c_pid c) fs) in *.
  assert (Hall : abs_all (abs m') = abs_all (abs m) ++ (User <$> ds)).
  { rewrite Habs'. unfold abs_all. cbn [a_sys a_user]. by rewrite fmap_app, (assoc_L (++)). }
  destruct (py_actor_run_all i _ w rt' c m' b k Hc Ho Ha Hm' ltac:(lia) Hall) as (c' & Hc' & Hg & Hcell).
  rewrite length_app, length_fmap in Hc'. exists fs, cn', c'. rewrite Hnode. cbv zeta. fold ds. split_and!; try done.
  intros Hch Hrel. rewrite Hcell, omap_app by done. unfold pool_done. rewrite fold_left_app. by apply user_calls_done.
Qed.
End end_to_end.

(** ** Instances *)
Module EndDemo.
(** A node with one push actor that runs in place. *)
Definition rt : Runtime unit SlabAllocator := Demo.spawned (Handler 10 0) Demo.start.

Definition world : PyWorld := add_closure Demo.a 7 false false world_new.

Definition actor : Closure := mkClosure Demo.a false None true false 7 (new_callable 7) [].

(** Three sends, one to another PID; the second overtakes the first. *)
Definition net : Net :=
  fold_left (λ n i, RaceDemo.turn i n) [0; 0; 1; 0; 0; 1; 1; 0; 2; 2; 2]%nat
    (send_remote_task "n" 3 [x64]
      (send_remote_task "n" Demo.a [x62; x63] (send_remote_task "n" Demo.a [x61] net_new))).

Definition drained : Net := Nat.iter 3 (writer_step 0 Written) net.

Definition peer : Peer := default (mkPeer [] [] false "") (peers (pool drained) !! 0%nat).

(** What the connection carries, cut inside a header. *)
Definition conn : Conn (Runtime unit SlabAllocator) :=
  mkConn rt [Data (take 5 (wire peer)); Data (drop 5 (wire peer))] [] [].

Definition box : Mailbox := default channel (boxes rt !! Demo.a).
End EndDemo.

Example end_demo_calls :
  match handle_connection EndDemo.conn with
  | Some (_, cn') =>
      (calls ∘ c_cell) <$> closures (fst (py_actor_run 2 0 EndDemo.world (node cn'))) = [[(7, [x62; x63]); (7, [x61])]]
  | None => False
  end.
Proof. by vm_compute. Qed.

Lemma end_demo_drained : reachable net_init net_step EndDemo.drained.
Proof.
  unfold EndDemo.drained, EndDemo.net. cbn [fold_left Nat.iter nat_rect].
  do 3 (eapply reach_step; [|apply net_writer]). unfold RaceDemo.turn.
  do 11 (eapply reach_step; [|apply net_send]). do 3 (eapply reach_step; [|apply net_start]). by apply reach_init.
Qed.

Lemma remote_sends_reach_callable_witness :
  ∃ fs cn' c', fs ≡ₚ accepted 0 EndDemo.drained ∧ wire EndDemo.peer = PROTOCOL_VERSION :: encode_frames fs ∧
    handle_connection EndDemo.conn = Some (Ok tt, cn') ∧
    let held := abs_all (abs EndDemo.box) in let ds := payloads_for Demo.a fs in
    closures (fst (py_actor_run (length held + length ds) 0 EndDemo.world (node cn'))) !! 0%nat = Some c' ∧
    c_given c' = [] ++ held ++ (User <$> ds) ∧
    (None = @None (list Message) → false = false →
      let a := pool_done (omap pool_task held) (new_callable 7) in
      calls (c_cell c') = calls a ++ ((λ d, (behavior a, d)) <$> ds)).
Proof.
  apply (remote_sends_reach_callable EndDemo.drained 0 EndDemo.peer [] EndDemo.conn 0 EndDemo.world EndDemo.actor EndDemo.box 10 0).
  - apply end_demo_drained.
  - by vm_compute.
  - split; [by vm_compute|]. apply (bool_decide_unpack _). by vm_compute.
  - by vm_compute.
  - by vm_compute.
  - by left.
  - reflexivity.
  - assert (accepted 0 EndDemo.drained = [FUser Demo.a [x61]; FUser Demo.a [x62; x63]; FUser 3 [x64]]) as -> by (by vm_compute).
    repeat constructor; vm_compute; discriminate.
  - apply demo_spawned; [by eexists|done|]. by apply reach_init.
  - reflexivity.
  - reflexivity.
  - by vm_compute.
  - reflexivity.
  - reflexivity.
Defined.
