(* ===== verification/NetNode.v ===== *)
(** * A node with its network tasks ([src/src/lib.rs], [src/src/py.rs], [src/src/node.rs])

    The network calls of the front-ends - [listen], [send_remote],
    [monitor_remote], [resolve_remote] and [is_node_up] - and the tasks they
    start, all side by side with the rest of the node: servers that still have
    to bind, connections ([Listener]), sends and writing tasks ([PoolConc]) and
    monitors. A monitor is a task of its own here: its liveness check, its
    probe, its stop of the actor and its report to the supervisor are separate
    steps on the node as it then is. *)
From S2P Require Import Prelude Pid Mailbox Registry Supervisor Runtime RuntimeInv Interface Wire Connection Server Listener PeerPool PoolConc Duration Monitor PyMembrane PyApi NodeMembrane NodeApi.
From Stdlib Require Import Strings.Byte.

Section net_node.
Context {R : Type} `{N : Node R}.

(** ** State *)
Inductive MonStage :=
| MonStart
| MonCheck (p : MonitorParams) (m : Monitor)
| MonSleep (p : MonitorParams) (m : Monitor)
| MonProbe (p : MonitorParams) (m : Monitor)
| MonStop (p : MonitorParams)
| MonNotify (p : MonitorParams)
| MonEnded.

(** [m_seen] lists what the probes found. *)
Record MonTask := mkMonTask { m_addr : string; m_pid : Pid; m_interval : Z; m_stage : MonStage; m_seen : list bool }.

(** [nn_starting] holds the addresses whose server has not bound yet. *)
Record NetNode := mkNetNode {
  nn_srv : Listening R;
  nn_starting : list string;
  nn_net : Net;
  nn_mons : list MonTask
}.

Definition nn_rt (n : NetNode) : R := s_node (nn_srv n).

Definition nn_set_rt (r : R) (n : NetNode) : NetNode :=
  mkNetNode (mkListening r (s_accepting (nn_srv n)) (s_conns (nn_srv n))) (nn_starting n) (nn_net n) (nn_mons n).

(** ** The calls of [Runtime]: each starts a task *)
Definition listen (addr : string) (n : NetNode) : NetNode :=
  mkNetNode (nn_srv n) (nn_starting n ++ [addr]) (nn_net n) (nn_mons n).

Definition rt_send_remote (addr : string) (pid : Pid) (data : Bytes) (n : NetNode) : NetNode :=
  mkNetNode (nn_srv n) (nn_starting n) (send_remote_task addr pid data (nn_net n)) (nn_mons n).

Definition rt_monitor_remote (addr : string) (pid : Pid) (n : NetNode) : NetNode :=
  mkNetNode (nn_srv n) (nn_starting n) (nn_net n) (nn_mons n ++ [mkMonTask addr pid 1000 MonStart []]).

(** How the network answers a call that waits for it: the connect, what can be
    read, and how the writes end. *)
Record reply := mkReply { rp_connect : result unit IoError; rp_input : list rd_event; rp_writes : list wr_event }.

Definition rt_resolve_remote (name : string) (rp : reply) (n : NetNode) : option Pid :=
  fst (resolve_remote_async (rp_connect rp) name (mkConn (nn_rt n) (rp_input rp) (rp_writes rp) [])).

(** ** Python

    [resolve_remote] blocks its thread on the future, [resolve_remote_py] hands
    the future to the event loop; both give its answer. *)
Inductive py_net_call :=
| PyResolveRemote (addr name : string)
| PyResolveRemotePy (addr name : string)
| PyListen (addr : string)
| PySendRemote (addr : string) (pid : Pid) (b : Bytes)
| PyMonitorRemote (addr : string) (pid : Pid)
| PyIsNodeUp (addr : string).

Definition py_net_exec (c : py_net_call) (rp : reply) (n : NetNode) : NetNode * py_result :=
  match c with
  | PyResolveRemote _ name => (n, Ok (VOptInt (rt_resolve_remote name rp n)))
  | PyResolveRemotePy _ name => (n, Ok (VOptInt (rt_resolve_remote name rp n)))
  | PyListen addr => (listen addr n, Ok VNone)
  | PySendRemote addr pid b => (rt_send_remote addr pid b n, Ok VNone)
  | PyMonitorRemote addr pid => (rt_monitor_remote addr pid n, Ok VNone)
  | PyIsNodeUp _ => (n, Ok (VBool (is_ok (rp_connect rp))))
  end.

(** ** JavaScript *)
Inductive js_net_call :=
| JsResolveRemote (addr name : string)
| JsListen (addr : string)
| JsSendRemote (addr : string) (pid : Z) (b : Bytes)
| JsMonitorRemote (addr : string) (pid : Z)
| JsIsNodeUp (addr : string).

Definition js_net_exec (c : js_net_call) (rp : reply) (n : NetNode) : NetNode * js_result :=
  match c with
  | JsResolveRemote _ name => (n, Ok (JOptNum (as_i64 <$> rt_resolve_remote name rp n)))
  | JsListen addr => (listen addr n, Ok JVoid)
  | JsSendRemote addr pid b => (rt_send_remote addr (as_u64 pid) b n, Ok JVoid)
  | JsMonitorRemote addr pid => (rt_monitor_remote addr (as_u64 pid) n, Ok JVoid)
  | JsIsNodeUp _ => (n, Ok (JBool (is_ok (rp_connect rp))))
  end.

Definition py_net_of (c : js_net_call) : py_net_call :=
  match c with
  | JsResolveRemote addr name => PyResolveRemotePy addr name
  | JsListen addr => PyListen addr
  | JsSendRemote addr pid b => PySendRemote addr (as_u64 pid) b
  | JsMonitorRemote addr pid => PyMonitorRemote addr (as_u64 pid)
  | JsIsNodeUp addr => PyIsNodeUp addr
  end.

(** ** A monitor's turns *)
Definition mon_goto (g : MonStage) (t : MonTask) : MonTask :=
  mkMonTask (m_addr t) (m_pid t) (m_interval t) g (m_seen t).

(** What becomes of a monitor once its probe has ended. *)
Definition mon_after (p : MonitorParams) (m : Monitor) (up : bool) (r : R) (t : MonTask) : MonTask :=
  mkMonTask (m_addr t) (m_pid t) (m_interval t)
    (match monitor_verdict p (m_pid t) up r m with
     | Monitor.Continue m' => MonCheck p m'
     | Down _ => MonStop p
     | _ => MonEnded
     end) (m_seen t ++ [up]).

Definition mon_turn (rp : reply) (t : MonTask) (r : R) : MonTask * R :=
  match m_stage t with
  | MonStart => let p := monitor_params (m_interval t) r in (mon_goto (MonCheck p (monitor_start p)) t, r)
  | MonCheck p m => (mon_goto (if node_alive (m_pid t) r then MonSleep p m else MonEnded) t, r)
  | MonSleep p m => (mon_goto (MonProbe p m) t, r)
  | MonProbe p m =>
      let (up, _) := probe (rp_connect rp) (mkConn r (rp_input rp) (rp_writes rp) []) in
      (mon_after p m up r t, r)
  | MonStop p => (mon_goto (MonNotify p) t, node_stop (m_pid t) r)
  | MonNotify p => (mon_goto MonEnded t, node_notify_exit (m_pid t) r)
  | MonEnded => (t, r)
  end.

Definition mons_turn (i : nat) (rp : reply) (n : NetNode) : NetNode :=
  match nn_mons n !! i with
  | Some t =>
      let (t', r') := mon_turn rp t (nn_rt n) in
      let n' := nn_set_rt r' n in
      mkNetNode (nn_srv n') (nn_starting n') (nn_net n') (<[i := t']> (nn_mons n'))
  | None => n
  end.

(** A server's task binds its address and starts to accept, or reports its
    error; either way it is no longer starting. *)
Definition starting_turn (i : nat) (bound : result unit IoError) (local_addr : result string IoError) (n : NetNode)
  : NetNode :=
  match nn_starting n !! i with
  | Some _ =>
      mkNetNode (fst (start_server bound local_addr (nn_srv n))) (delete i (nn_starting n)) (nn_net n) (nn_mons n)
  | None => n
  end.

(** A turn of a send reads the configuration of the node as it is. *)
Definition out_turn (i : nat) (c : result unit IoError) (w : wr_event) (n : NetNode) : NetNode :=
  mkNetNode (nn_srv n) (nn_starting n) (sends_turn i (node_config (nn_rt n)) c w (nn_net n)) (nn_mons n).

Definition out_writer (id : nat) (w : wr_event) (n : NetNode) : NetNode :=
  mkNetNode (nn_srv n) (nn_starting n) (writer_step id w (nn_net n)) (nn_mons n).

Definition nn_set_srv (s : Listening R) (n : NetNode) : NetNode :=
  mkNetNode s (nn_starting n) (nn_net n) (nn_mons n).

(** [other] is what the rest of the node does. *)
Inductive nn_step (other : R → R → Prop) (n : NetNode) : NetNode → Prop :=
| nn_py c rp : nn_step other n (fst (py_net_exec c rp n))
| nn_js c rp : nn_step other n (fst (js_net_exec c rp n))
| nn_bind i b a : nn_step other n (starting_turn i b a n)
| nn_accept x : s_accepting (nn_srv n) = true → nn_step other n (nn_set_srv (accept_turn x (nn_srv n)) n)
| nn_conn i : nn_step other n (nn_set_srv (conns_turn i (nn_srv n)) n)
| nn_out i c w : nn_step other n (out_turn i c w n)
| nn_writer id w : nn_step other n (out_writer id w n)
| nn_mon i rp : nn_step other n (mons_turn i rp n)
| nn_other r : other (nn_rt n) r → nn_step other n (nn_set_rt r n).

Definition nn_init (init : R → Prop) (n : NetNode) : Prop :=
  server_init init (nn_srv n) ∧ nn_starting n = [] ∧ nn_net n = net_new ∧ nn_mons n = [].

(** ** A monitor's count

    The last [k] probes failed and the one before, if any, did not. *)
Definition failed_last (k : nat) (l : list bool) : Prop := ∃ pre, l = pre ++ replicate k false.

(** What a monitor's stage says of what its probes found. *)
Definition mon_ok (t : MonTask) : Prop :=
  match m_stage t with
  | MonStart => m_seen t = []
  | MonCheck p m | MonSleep p m | MonProbe p m =>
      0 <= failures m < Z.max 1 (threshold p) ∧ failed_last (Z.to_nat (failures m)) (m_seen t)
  | MonStop p | MonNotify p => failed_last (needed p) (m_seen t)
  | MonEnded => True
  end.

Lemma failed_last_snoc k l : failed_last k l → failed_last (S k) (l ++ [false]).
Proof.
  intros [pre ->]. exists pre. rewrite <-(assoc_L (++)). f_equal.
  by rewrite <-replicate_cons_app.
Qed.

Lemma mon_turn_ok rp t r : mon_ok t → mon_ok (fst (mon_turn rp t r)).
Proof.
  unfold mon_ok, mon_turn. destruct (m_stage t) as [|p m|p m|p m|p|p|] eqn:E; cbn [fst mon_goto m_stage m_seen]; auto.
  - intros ->. split; [simpl; lia|by exists []].
  - destruct (node_alive _ r); auto.
  - intros [Hf Hl]. destruct (probe _ _) as [up c]. cbn [fst mon_after m_stage m_seen]. unfold monitor_verdict.
    destruct up; [split; [simpl; lia|exists (m_seen t ++ [true]); by rewrite app_nil_r]|].
    apply failed_last_snoc in Hl. destruct (threshold p <=? failures m + 1) eqn:Et; breflect.
    + unfold needed. replace (Z.to_nat (Z.max 1 (threshold p))) with (S (Z.to_nat (failures m))) by lia. done.
    + destruct (from_secs_f64 _); [|done]. cbn [failures]. split; [lia|].
      by replace (Z.to_nat (failures m + 1)) with (S (Z.to_nat (failures m))) by lia.
  - by rewrite E.
Qed.

Lemma mon_turn_effect rp t r :
  snd (mon_turn rp t r) = r ∨
  (∃ p, m_stage t = MonStop p ∧ snd (mon_turn rp t r) = node_stop (m_pid t) r) ∨
  (∃ p, m_stage t = MonNotify p ∧ snd (mon_turn rp t r) = node_notify_exit (m_pid t) r).
Proof.
  unfold mon_turn. destruct (m_stage t) as [|p m|p m|p m|p|p|] eqn:E; auto; [|right; left|right; right]; eauto.
  destruct (probe _ _). by left.
Qed.

Lemma py_net_exec_rt c rp n : nn_srv (fst (py_net_exec c rp n)) = nn_srv n.
Proof. by destruct c. Qed.

Lemma js_net_exec_py c rp n : fst (js_net_exec c rp n) = fst (py_net_exec (py_net_of c) rp n).
Proof. by destruct c. Qed.

Lemma mons_ok_insert i t t' (l : list MonTask) : l !! i = Some t → mon_ok t' → Forall mon_ok l →
  Forall mon_ok (<[i := t']> l).
Proof. intros _ Ht Hl. by apply Forall_insert. Qed.

Lemma py_net_mons c rp n : Forall mon_ok (nn_mons n) → Forall mon_ok (nn_mons (fst (py_net_exec c rp n))).
Proof. destruct c; try done. intros H. apply Forall_app. split; [done|by repeat constructor]. Qed.

Lemma nn_reachable_mons (init : R → Prop) other n :
  reachable (nn_init init) (nn_step other) n → Forall mon_ok (nn_mons n).
Proof.
  revert n. apply reachable_invariant.
  - intros n (_ & _ & _ & ->). constructor.
  - intros n n' H Hs. destruct Hs as [c rp|c rp|j b a|x Ha|j|j c w|id w|j rp|r Hr]; try done.
    + by apply py_net_mons.
    + rewrite js_net_exec_py. by apply py_net_mons.
    + unfold starting_turn. by destruct (nn_starting n !! j).
    + unfold mons_turn. destruct (nn_mons n !! j) as [t|] eqn:Ht; [|done].
      assert (Hok : mon_ok t) by (rewrite Forall_lookup in H; by eapply H).
      apply (mon_turn_ok rp t (nn_rt n)) in Hok. destruct (mon_turn rp t (nn_rt n)) as [t' r'].
      by apply (mons_ok_insert j t).
Qed.

Lemma nn_step_net other n n' : nn_step other n n' → nn_net n' = nn_net n ∨ net_step (nn_net n) (nn_net n').
Proof.
  assert (Hpy : ∀ c rp, nn_net (fst (py_net_exec c rp n)) = nn_net n ∨ net_step (nn_net n) (nn_net (fst (py_net_exec c rp n))))
    by (intros [] rp; auto; right; constructor).
  intros [c rp|c rp|j b a|x Ha|j|j c w|id w|j rp|r Hr]; auto.
  - rewrite js_net_exec_py. apply Hpy.
  - left. unfold starting_turn. by destruct (nn_starting n !! j).
  - right. constructor.
  - right. constructor.
  - left. unfold mons_turn. destruct (nn_mons n !! j) as [t|]; [|done]. by destruct (mon_turn rp t (nn_rt n)).
Qed.

Lemma nn_reachable_net (init : R → Prop) other n :
  reachable (nn_init init) (nn_step other) n → reachable net_init net_step (nn_net n).
Proof.
  revert n. apply reachable_invariant.
  - intros n (_ & _ & -> & _). by apply reach_init.
  - intros n n' H Hs. destruct (nn_step_net _ _ _ Hs) as [->|Hn]; [done|by eapply reach_step].
Qed.

(** ** Properties *)

(** C26: A monitor stops an actor and reports it only after the number of
    consecutive failed probes it was set up with, whatever the rest of the
    node, other monitors included, does between its turns; at every other turn
    it leaves the node alone. *)
Theorem monitor_task_detects (init : R → Prop) other n i t rp :
  reachable (nn_init init) (nn_step other) n → nn_mons n !! i = Some t →
  (∀ p, m_stage t = MonStop p ∨ m_stage t = MonNotify p → ∃ pre, m_seen t = pre ++ replicate (needed p) false) ∧
  (nn_rt (mons_turn i rp n) = nn_rt n ∨
   (∃ p, m_stage t = MonStop p ∧ nn_rt (mons_turn i rp n) = node_stop (m_pid t) (nn_rt n)) ∨
   (∃ p, m_stage t = MonNotify p ∧ nn_rt (mons_turn i rp n) = node_notify_exit (m_pid t) (nn_rt n))).
Proof.
  intros Hr Ht. assert (Hok := nn_reachable_mons _ _ _ Hr). rewrite Forall_lookup in Hok.
  specialize (Hok i t Ht). split.
  - intros p Hp. unfold mon_ok in Hok. by destruct Hp as [Hp|Hp]; rewrite Hp in Hok.
  - assert (H := mon_turn_effect rp t (nn_rt n)). unfold mons_turn. rewrite Ht.
    by destruct (mon_turn rp t (nn_rt n)).
Qed.

(** The network calls of both front-ends are the same: they leave the same
    node and answer the same, up to the cast of a PID; and a PID that
    [resolveRemote] returned reaches [sendRemote] and [monitorRemote] of the
    runtime unchanged. *)
Theorem js_net_calls_are_python_calls c rp n :
  fst (js_net_exec c rp n) = fst (py_net_exec (py_net_of c) rp n) ∧
  same_result (snd (py_net_exec (py_net_of c) rp n)) (snd (js_net_exec c rp n)) ∧
  ∀ addr pid b, fits 64 pid →
    fst (js_net_exec (JsSendRemote addr (as_i64 pid) b) rp n) = rt_send_remote addr pid b n ∧
    fst (js_net_exec (JsMonitorRemote addr (as_i64 pid)) rp n) = rt_monitor_remote addr pid n.
Proof.
  split_and!; [apply js_net_exec_py|by destruct c|].
  intros addr pid b Hp. cbn [js_net_exec fst]. by rewrite as_u64_as_i64.
Qed.

(** C23: What sends to one address put on a connection, in any interleaving, the
    other node carries out: once the connection is drained, and if its messages
    are within the limits of that node, its server runs one message per send that
    answered Ok through it, each once, and nothing else. *)
Theorem concurrent_sends_delivered (net : Net) id pr st (c : Conn R) :
  reachable net_init net_step net → peers (pool net) !! id = Some pr → writing id pr net → queue pr = [] →
  stream (input c) = (inl <$> wire pr) ++ st → ended st → writes c = [] →
  Forall (frame_ok (node_config (node c))) (accepted id net) →
  ∃ fs c', fs ≡ₚ accepted id net ∧ handle_connection c = Some (Ok tt, c') ∧
    (node c', output c') = fold_left frame_effect fs (node c, output c).
Proof.
  intros Hr Hpr Hw Hq Hs Hst Hwr Hok.
  destruct (ni_conn _ (net_reachable_inv _ Hr) id pr Hpr) as (fs & Hp & _ & Hc).
  specialize (Hc Hw). unfold carries in Hc. rewrite Hq in Hc. cbn [concat] in Hc. rewrite app_nil_r in Hc.
  rewrite <-Hp in Hok. destruct (run_frames fs st c) as (c' & H1 & H2); [by rewrite <-Hc|done..|].
  by exists fs, c'.
Qed.
End net_node.

Section net_node_runtime.
Context {F A : Type} `{PA : PidAllocator A}.

(** C25: A node with any number of servers, connections, sends and monitors,
    called from Python and JavaScript, in any interleaving, stays in a state that
    the runtime could have reached without a network, its outgoing connections
    keep their invariant, and no connection exists before a server has bound. *)
Theorem net_node_sound (n : NetNode (R := Runtime F A)) :
  reachable (nn_init rt_init) (nn_step rt_step) n →
  reachable rt_init rt_step (nn_rt n) ∧ rt_inv (nn_rt n) ∧ net_inv (nn_net n) ∧
  (s_accepting (nn_srv n) = false → s_conns (nn_srv n) = []).
Proof.
  intros Hr. assert (H : reachable rt_init rt_step (nn_rt n) ∧ (s_accepting (nn_srv n) = false → s_conns (nn_srv n) = [])).
  { revert n Hr. apply reachable_invariant.
    - intros n ((Hi & _ & Hc) & _). split; [by apply reach_init|done].
    - intros n n' [Hn Hc] Hs. destruct Hs as [c rp|c rp|j b a|x Ha|j|j c w|id w|j rp|r Hr]; try done.
      + unfold nn_rt. by rewrite py_net_exec_rt.
      + rewrite js_net_exec_py. unfold nn_rt. by rewrite py_net_exec_rt.
      + unfold starting_turn. destruct (nn_starting n !! j); [|done]. by destruct b, a.
      + destruct x as [[inp ws]|e]; (split; [done|]); cbn; congruence.
      + split.
        * cbn. destruct (conns_turn_node j (nn_srv n)) as [E|(pid & msg & E)]; unfold nn_rt; cbn; rewrite E; [done|].
          eapply reach_step; [exact Hn|]. apply st_send.
        * cbn. unfold conns_turn. destruct (s_conns (nn_srv n) !! j) as [t|] eqn:Ej; [|done].
          destruct (conn_turn t (s_node (nn_srv n))). intros H%Hc. by rewrite H in Ej.
      + unfold mons_turn. destruct (nn_mons n !! j) as [t|]; [|done].
        assert (He := mon_turn_effect rp t (nn_rt n)). destruct (mon_turn rp t (nn_rt n)) as [t' r']. cbn in He |- *.
        split; [|done]. destruct He as [->|[(p & _ & ->)|(p & _ & ->)]]; [done|..];
          (eapply reach_step; [exact Hn|constructor]).
      + split; [|done]. by eapply reach_step. }
  destruct H as [H1 H2]. split_and!; [done|by apply rt_reachable_inv| |done].
  by eapply net_reachable_inv, nn_reachable_net.
Qed.
End net_node_runtime.

(** ** Instances *)
Module NetDemo.
(** The remote node is down. *)
Definition down : reply := mkReply (Err unavailable_error) [] [].

Definition n0 : NetNode (R := Runtime unit SlabAllocator) := mkNetNode (mkListening Demo.start false []) [] net_new [].

Definition asked : NetNode (R := Runtime unit SlabAllocator) :=
  fst (py_net_exec (PyMonitorRemote "n" Demo.a) down (nn_set_rt Demo.one n0)).

(** The monitor has started, found its actor alive, slept and probed. *)
Definition probed : NetNode (R := Runtime unit SlabAllocator) := Nat.iter 4 (mons_turn 0 down) asked.

Definition task : MonTask := mkMonTask "n" Demo.a 1000 (MonStop (monitor_params 1000 Demo.one)) [false].

Definition drained : Net := writer_step 0 Written RaceDemo.both.

Definition server : Conn (Runtime unit SlabAllocator) :=
  mkConn Demo.one [Data (PROTOCOL_VERSION :: encode_frame (FUser 7 [x61]))] [] [].
End NetDemo.

Lemma net_demo_probed : reachable (nn_init rt_init) (nn_step rt_step) NetDemo.probed.
Proof.
  unfold NetDemo.probed. cbn [Nat.iter nat_rect]. do 4 (eapply reach_step; [|apply nn_mon]).
  eapply reach_step; [|apply nn_py]. apply (reach_step _ _ NetDemo.n0).
  - apply reach_init. by repeat split.
  - apply nn_other. apply (st_spawn Raw _ _ Demo.a); [done|by vm_compute].
Qed.

Lemma monitor_task_detects_witness :
  (∀ p, m_stage NetDemo.task = MonStop p ∨ m_stage NetDemo.task = MonNotify p →
    ∃ pre, m_seen NetDemo.task = pre ++ replicate (needed p) false) ∧
  (nn_rt (mons_turn 0 NetDemo.down NetDemo.probed) = nn_rt NetDemo.probed ∨
   (∃ p, m_stage NetDemo.task = MonStop p ∧
      nn_rt (mons_turn 0 NetDemo.down NetDemo.probed) = node_stop (m_pid NetDemo.task) (nn_rt NetDemo.probed)) ∨
   (∃ p, m_stage NetDemo.task = MonNotify p ∧
      nn_rt (mons_turn 0 NetDemo.down NetDemo.probed) = node_notify_exit (m_pid NetDemo.task) (nn_rt NetDemo.probed))).
Proof.
  apply (monitor_task_detects rt_init rt_step NetDemo.probed 0 NetDemo.task NetDemo.down);
    [apply net_demo_probed|by vm_compute].
Defined.

Lemma net_node_sound_witness :
  reachable rt_init rt_step (nn_rt NetDemo.probed) ∧ rt_inv (nn_rt NetDemo.probed) ∧
  net_inv (nn_net NetDemo.probed) ∧
  (s_accepting (nn_srv NetDemo.probed) = false → s_conns (nn_srv NetDemo.probed) = []).
Proof. apply (net_node_sound NetDemo.probed). apply net_demo_probed. Defined.

Lemma concurrent_sends_delivered_witness :
  ∃ fs c', fs ≡ₚ accepted 0 NetDemo.drained ∧ handle_connection NetDemo.server = Some (Ok tt, c') ∧
    (node c', output c') = fold_left frame_effect fs (node NetDemo.server, output NetDemo.server).
Proof.
  apply (concurrent_sends_delivered NetDemo.drained 0 (mkPeer [] (PROTOCOL_VERSION :: encode_frame (FUser 7 [x61])) true "n")
    [] NetDemo.server).
  - eapply reach_step; [apply race_reachable|apply net_writer].
  - by vm_compute.
  - split; [done|]. apply (bool_decide_unpack _). by vm_compute.
  - done.
  - by vm_compute.
  - by left.
  - done.
  - assert (accepted 0 NetDemo.drained = [FUser 7 [x61]]) as -> by (by vm_compute).
    repeat constructor; unfold fits; simpl; lia.
Defined.

Lemma js_net_calls_are_python_calls_witness :
  let c := JsSendRemote "n" (as_i64 Demo.a) [x61] in
  fst (js_net_exec c NetDemo.down NetDemo.probed) = fst (py_net_exec (py_net_of c) NetDemo.down NetDemo.probed) ∧
  same_result (snd (py_net_exec (py_net_of c) NetDemo.down NetDemo.probed)) (snd (js_net_exec c NetDemo.down NetDemo.probed)) ∧
  ∀ addr pid b, fits 64 pid →
    fst (js_net_exec (JsSendRemote addr (as_i64 pid) b) NetDemo.down NetDemo.probed) = rt_send_remote addr pid b NetDemo.probed ∧
    fst (js_net_exec (JsMonitorRemote addr (as_i64 pid)) NetDemo.down NetDemo.probed) = rt_monitor_remote addr pid NetDemo.probed.
Proof. apply (js_net_calls_are_python_calls (JsSendRemote "n" (as_i64 Demo.a) [x61]) NetDemo.down NetDemo.probed). Defined.
