(* ===== verification/PySystem.v ===== *)
(** * Push actors inside the runtime ([src/src/py.rs], [src/src/lib.rs])

    [PyActors] runs the handler closures, threads and workers of a process with
    any messages; [ActorSpec] runs the runtime with its events. Here both run as
    one system: a push actor's handler is called by the turns of its actor's task
    and by nothing else, and everything else of the runtime goes on around it.
    The theorems follow a message from the send that delivered it to the call of
    the Python callable. *)
From S2P Require Import Prelude Pid Mailbox Registry Supervisor Runtime RuntimeInv Lifecycle ActorSpec PyMembrane PyActors EndToEnd.
From Stdlib Require Import Strings.Byte.

(** ** The node's view of an actor that goes on running *)
Definition runs_as (k : BodyKind) (n : Node) (p : Pid) : Prop := ∃ l q, n !! p = Some (Running k l q).

Definition ends (p : Pid) (ev : actor_event) : bool :=
  match ev with Ended q _ => bool_decide (q = p) | _ => false end.

(** Events in which a body acts on its own mailbox. *)
Definition body_event (p : Pid) (ev : actor_event) : bool :=
  match ev with
  | Received q _ | Selected q _ | Ended q _ => bool_decide (q = p)
  | _ => false
  end.

Lemma stays_running p k n evs n' : node_run n evs n' → runs_as k n p → Forall (λ ev, ends p ev = false) evs →
  runs_as k n' p ∧ Forall (λ ev, is_spawn p ev = false) evs.
Proof.
  induction 1 as [n|n evs n1 ev n2 _ IH Hs]; intros Hr Hf; [done|].
  apply Forall_app in Hf as [Hf Hev]. rewrite Forall_singleton in Hev.
  destruct (IH Hr Hf) as [(l & q & Hn) Hsp]. rewrite Forall_app, Forall_singleton.
  destruct Hs as [q' k' Hq|q' msg k' a Hq|q' msg Hq|q' msg k' l' a a' Hq Hrc|q' msg f l' a a' Hq Hrc|q' k' a Hq|q' Hq|q' k' l' a res Hq Hm|q' Hq];
    unfold runs_as; (destruct (decide (q' = p)) as [->|Hne];
      [rewrite ?lookup_insert_eq, ?lookup_delete_eq|rewrite ?lookup_insert_ne, ?lookup_delete_ne by done]);
    cbn [is_spawn ends] in *; rewrite ?bool_decide_true, ?bool_decide_false in * by done;
    try congruence; (split; [|split; [done|done]]); simplify_eq; eauto.
Qed.

(** A built-in loop never receives selectively. *)
Lemma loops_do_not_select evs n p k l q : node_run ∅ evs n → n !! p = Some (Running k l q) → k ≠ UserBody →
  ¬ selects p (life p evs).
Proof.
  intros Hr. revert k l q. remember ∅ as n0 eqn:E. induction Hr as [n|n evs n1 ev n2 _ IH Hs]; intros k l q Hn Hk.
  - subst. by rewrite lookup_empty in Hn.
  - rewrite life_snoc. specialize (IH E). destruct (is_spawn p ev) eqn:Hsp; [intros H; inversion H|].
    rewrite selects_app. intros [H|H].
    + revert H. destruct Hs as [q' k' Hq|q' msg k' a Hq|q' msg Hq|q' msg k' l' a a' Hq Hrc|q' msg f l' a a' Hq Hrc|q' k' a Hq|q' Hq|q' k' l' a res Hq Hm|q' Hq];
        (destruct (decide (q' = p)) as [->|Hne];
          [rewrite ?lookup_insert_eq, ?lookup_delete_eq in Hn|rewrite ?lookup_insert_ne, ?lookup_delete_ne in Hn by done]);
        simplify_eq; try (by eapply IH).
      cbn in Hsp. by rewrite bool_decide_true in Hsp.
    + apply Exists_cons in H as [H|H]; [|by inversion H].
      destruct Hs as [| | | |q' msg f l' a a' Hq Hrc| | | |]; try done. subst q'.
      rewrite lookup_insert_eq in Hn. congruence.
Qed.

Lemma life_app_quiet p evs new : Forall (λ ev, is_spawn p ev = false) new → life p (evs ++ new) = life p evs ++ new.
Proof.
  revert evs. induction new as [|ev new IH]; intros evs; [by rewrite !app_nil_r|].
  intros [He Hn]%Forall_cons. rewrite cons_middle, (assoc_L (++)), IH by done. rewrite life_snoc, He. by rewrite <-(assoc_L (++)).
Qed.

Lemma taken_by_quiet p new : Forall (λ ev, body_event p ev = false) new → taken_by p new = [].
Proof.
  induction 1 as [|ev new He _ IH]; [done|]. change (ev :: new) with ([ev] ++ new). rewrite taken_by_app, IH, app_nil_r.
  destruct ev; try done; cbn in *; case_bool_decide; try done; by rewrite decide_False.
Qed.

Section py_system.
Context {F S : Type} `{PA : PidAllocator S}.
Implicit Types (rt : Runtime F S) (w : PyWorld) (c : Closure).

(** ** The system *)

(** The events of a push actor's turn. *)
Definition py_actor_events (i : nat) w rt : list actor_event :=
  match closures w !! i with
  | Some c => if c_open c then handler_events (c_pid c) None rt else []
  | None => []
  end.

(** What the rest of the node may not do: act for a push actor. *)
Definition not_for_push_actor w (ev : actor_event) : Prop :=
  ∀ i c, closures w !! i = Some c → c_open c = true → body_event (c_pid c) ev = false.

Inductive py_trace : list actor_event → PyWorld → Runtime F S → Prop :=
| pt_new : py_trace [] world_new runtime_new
| pt_spawn evs w rt callable budget release w' rt' pid : py_trace evs w rt → pa_room (slab rt) →
    spawn_py_handler callable budget release w rt = (w', rt', PyActors.Spawned pid) →
    py_trace (evs ++ [ActorSpec.Spawned pid HandlerLoop]) w' rt'
| pt_refused evs w rt callable budget release w' rt' e : py_trace evs w rt →
    spawn_py_handler callable budget release w rt = (w', rt', SpawnError e) → py_trace evs w' rt'
| pt_actor evs w rt i : py_trace evs w rt →
    py_trace (evs ++ py_actor_events i w rt) (fst (py_actor_turn i w rt)) (snd (py_actor_turn i w rt))
| pt_thread evs w rt i : py_trace evs w rt → py_trace evs (thread_loop i w) rt
| pt_take evs w rt : py_trace evs w rt → py_trace evs (worker_take w) rt
| pt_run evs w rt k : py_trace evs w rt → py_trace evs (worker_run k w) rt
| pt_node evs w rt new rt' : py_trace evs w rt → rt_labelled rt new rt' → Forall (not_for_push_actor w) new →
    py_trace (evs ++ new) w rt'.

(** ** Lemmas *)
Lemma spawn_py_handler_spawned callable budget release w rt w' rt' pid :
  spawn_py_handler callable budget release w rt = (w', rt', PyActors.Spawned pid) →
  ∃ w1 d, claim_thread (default false release) (config rt) w = (w1, Ok d) ∧
    spawn (Handler budget 0) rt = Some (rt', pid) ∧ w' = add_closure pid callable (default false release) d w1.
Proof.
  unfold spawn_py_handler. destruct (claim_thread _ _ w) as [w1 [d|e]]; [|done].
  unfold spawn_handler_with_budget. destruct (spawn _ rt) as [[rt1 pid1]|] eqn:E; [|done].
  intros [= <- <- <-]. by exists w1, d.
Qed.

Lemma claim_thread_closures release cfg w w1 r : claim_thread release cfg w = (w1, r) → closures w1 = closures w.
Proof. unfold claim_thread. intros H. repeat split_match; simplify_eq; done. Qed.

Lemma spawn_refused callable budget release w rt w' rt' e :
  spawn_py_handler callable budget release w rt = (w', rt', SpawnError e) → w' = w ∧ rt' = rt.
Proof.
  unfold spawn_py_handler, claim_thread. intros H. repeat split_match; simplify_eq; done.
Qed.

Lemma py_actor_turn_rt i w rt :
  rt_labelled rt (py_actor_events i w rt) (snd (py_actor_turn i w rt)) ∨
  py_actor_events i w rt = [] ∧ snd (py_actor_turn i w rt) = rt.
Proof.
  unfold py_actor_events, py_actor_turn. destruct (closures w !! i) as [c|]; [|by right].
  destruct (c_open c); [left|by right]. assert (H := lb_handler (c_pid c) None rt).
  by destruct (handler_turn (c_pid c) None rt) as [rt' []].
Qed.

(** The system is a run of the runtime and a run of the process. *)
Lemma py_trace_rt evs w rt : py_trace evs w rt → rt_trace evs rt.
Proof.
  induction 1 as [|evs w rt callable budget release w' rt' pid _ IH Hroom Hs|evs w rt callable budget release w' rt' e _ IH Hs
    |evs w rt i _ IH|?????|????|?????|evs w rt new rt' _ IH Hs _]; try done.
  - constructor.
  - destruct (spawn_py_handler_spawned _ _ _ _ _ _ _ _ Hs) as (w1 & d & _ & Hsp & _).
    eapply tr_step; [exact IH|]. by apply (lb_spawn (Handler budget 0)).
  - by destruct (spawn_refused _ _ _ _ _ _ _ _ Hs) as [_ ->].
  - destruct (py_actor_turn_rt i w rt) as [H|[-> ->]]; [by eapply tr_step|by rewrite app_nil_r].
  - by eapply tr_step.
Qed.

Lemma py_trace_world evs w rt : py_trace evs w rt → reachable world_init world_step w.
Proof.
  induction 1 as [|evs w rt callable budget release w' rt' pid _ IH Hroom Hs|evs w rt callable budget release w' rt' e _ IH Hs
    |evs w rt i _ IH|evs w rt i _ IH|evs w rt _ IH|evs w rt k _ IH|evs w rt new rt' _ IH Hs _]; try done.
  - by apply reach_init.
  - destruct (spawn_py_handler_spawned _ _ _ _ _ _ _ _ Hs) as (w1 & d & Hc & _ & ->).
    eapply reach_step; [exact IH|]. by eapply ws_spawn.
  - by destruct (spawn_refused _ _ _ _ _ _ _ _ Hs) as [-> _].
  - eapply reachable_rtc; [exact IH|]. apply py_actor_turn_world.
  - eapply reach_step; [exact IH|constructor].
  - eapply reach_step; [exact IH|constructor].
  - eapply reach_step; [exact IH|constructor].
Qed.

(** ** The invariant *)

(** A handler that is still called has been given what its actor has taken in
    this life; one that was dropped, what it had taken until then. *)
Definition given_ok (evs : list actor_event) (c : Closure) : Prop :=
  if c_open c then c_given c = taken_by (c_pid c) (life (c_pid c) evs)
  else ∃ l1 l2, evs = l1 ++ l2 ∧ c_given c = taken_by (c_pid c) (life (c_pid c) l1).

Record sys_inv (evs : list actor_event) (w : PyWorld) (n : Node) : Prop := {
  si_runs : ∀ i c, closures w !! i = Some c → c_open c = true → runs_as HandlerLoop n (c_pid c);
  si_given : ∀ i c, closures w !! i = Some c → given_ok evs c;
  si_apart : ∀ i j c d, closures w !! i = Some c → closures w !! j = Some d → c_open c = true → c_open d = true →
    c_pid c = c_pid d → i = j
}.

(** The part of a closure the invariant is about. *)
Definition same_front c c' : Prop := c_pid c' = c_pid c ∧ c_open c' = c_open c ∧ c_given c' = c_given c.

Lemma sys_inv_front evs w w' n :
  (∀ i c', closures w' !! i = Some c' → ∃ c, closures w !! i = Some c ∧ same_front c c') →
  sys_inv evs w n → sys_inv evs w' n.
Proof.
  intros Hf [H1 H2 H3]. split.
  - intros i c' (c & Hc & Hp & Ho & _)%Hf. rewrite Ho, Hp. by eapply H1.
  - intros i c' (c & Hc & Hp & Ho & Hg)%Hf. unfold given_ok. rewrite Hp, Ho, Hg. by eapply H2.
  - intros i j c' d' (c & Hc & Hp & Ho & _)%Hf (d & Hd & Hp' & Ho' & _)%Hf. rewrite Hp, Ho, Hp', Ho'. by eapply H3.
Qed.

Lemma front_insert w w' i c c' : closures w !! i = Some c → same_front c c' →
  closures w' = <[i := c']> (closures w) →
  ∀ j d', closures w' !! j = Some d' → ∃ d, closures w !! j = Some d ∧ same_front d d'.
Proof.
  intros Hc Hs -> j d'. destruct (decide (j = i)) as [->|Hne].
  - rewrite list_lookup_insert_eq by (by eapply lookup_lt_Some). intros [= <-]. eauto.
  - rewrite list_lookup_insert_ne by done. intros Hd. by exists d'.
Qed.

Lemma front_refl w : ∀ j d', closures w !! j = Some d' → ∃ d, closures w !! j = Some d ∧ same_front d d'.
Proof. intros j d' Hd. by exists d'. Qed.

Lemma front_thread i w : ∀ j d', closures (thread_loop i w) !! j = Some d' → ∃ d, closures w !! j = Some d ∧ same_front d d'.
Proof.
  unfold thread_loop. destruct (closures w !! i) as [c|] eqn:Hc; [|apply front_refl].
  destruct (c_thread c); [|apply front_refl]. destruct (c_chan c) as [[|m q]|]; [| |apply front_refl].
  - destruct (c_open c) eqn:Ho; [apply front_refl|]. eapply front_insert; [exact Hc| |done]. by repeat split; simpl.
  - destruct (thread_turn m (c_cell c)); (eapply front_insert; [exact Hc| |done]); by repeat split.
Qed.

Lemma front_run k w : ∀ j d', closures (worker_run k w) !! j = Some d' → ∃ d, closures w !! j = Some d ∧ same_front d d'.
Proof.
  unfold worker_run. destruct (gil_pool w) as [[n q h]|]; [|apply front_refl].
  destruct (h !! k) as [[i t]|]; [|apply front_refl]. destruct (closures w !! i) as [c|] eqn:Hc; [|exact (front_refl w)].
  eapply front_insert; [exact Hc| |done]. by repeat split.
Qed.

Lemma front_take w : closures (worker_take w) = closures w.
Proof. unfold worker_take. by destruct (gil_pool w) as [[n [|t q] h]|]; [|case_match|]. Qed.

(** What a batch of events does to a closure that is not concerned. *)
Lemma given_quiet evs new c : given_ok evs c →
  (c_open c = true → Forall (λ ev, is_spawn (c_pid c) ev = false) new ∧ Forall (λ ev, body_event (c_pid c) ev = false) new) →
  given_ok (evs ++ new) c.
Proof.
  unfold given_ok. destruct (c_open c).
  - intros Hg Hn. destruct (Hn eq_refl) as [Hs Hb]. rewrite life_app_quiet, taken_by_app, (taken_by_quiet _ new) by done.
    by rewrite app_nil_r.
  - intros (l1 & l2 & -> & Hg) _. exists l1, (l2 ++ new). split; [by rewrite <-(assoc_L (++))|done].
Qed.

Lemma body_quiet_ends p new : Forall (λ ev, body_event p ev = false) new → Forall (λ ev, ends p ev = false) new.
Proof. intros H. eapply Forall_impl; [exact H|]. by intros []. Qed.

Lemma closure_call_other i j msg w : j ≠ i → closures (closure_call i msg w) !! j = closures w !! j.
Proof.
  intros Hne. unfold closure_call. destruct (closures w !! i) as [c|]; [|done].
  destruct (py_handler msg (route_of c w, c_cell c)) as [[|q'|ts] a]; cbn [closures set_closure];
    by rewrite list_lookup_insert_ne.
Qed.

Lemma closure_drop_at i j w c' : closures (closure_drop i w) !! j = Some c' →
  ∃ c, closures w !! j = Some c ∧ c_pid c' = c_pid c ∧ c_given c' = c_given c ∧
    c_open c' = (if decide (j = i) then false else c_open c).
Proof.
  unfold closure_drop. destruct (closures w !! i) as [c|] eqn:Hc.
  - cbn [closures set_closure]. destruct (decide (j = i)) as [->|Hne].
    + rewrite list_lookup_insert_eq by (by eapply lookup_lt_Some). intros [= <-]. by exists c.
    + rewrite list_lookup_insert_ne by done. intros Hj. by exists c'.
  - intros Hj. exists c'. split_and!; try done. destruct (decide (j = i)) as [->|]; [congruence|done].
Qed.

Lemma node_run_nil_inv n n' : node_run n [] n' → n' = n.
Proof. intros H. inversion H as [|? evs ? ev ? ? ? E]; [done|]. by destruct evs. Qed.

Lemma node_run_one_inv n ev n' : node_run n [ev] n' → node_step n ev n'.
Proof. intros H. destruct (node_run_snoc_inv n [] ev n' H) as (n1 & H1%node_run_nil_inv & H2). by subst. Qed.

(** After a batch of events in which no push actor takes a message or ends,
    the invariant holds of the same closures. *)
Lemma sys_inv_quiet evs w n new n' : sys_inv evs w n → node_run n new n' →
  Forall (not_for_push_actor w) new → sys_inv (evs ++ new) w n'.
Proof.
  intros [H1 H2 H3] Hr Hq.
  assert (Hopen : ∀ i c, closures w !! i = Some c → c_open c = true →
    Forall (λ ev, body_event (c_pid c) ev = false) new ∧ runs_as HandlerLoop n' (c_pid c) ∧
    Forall (λ ev, is_spawn (c_pid c) ev = false) new).
  { intros i c Hc Ho. assert (Hb : Forall (λ ev, body_event (c_pid c) ev = false) new)
      by (eapply Forall_impl; [exact Hq|]; intros ev Hev; by eapply Hev).
    split; [done|]. eapply stays_running; [exact Hr|by eapply H1|by apply body_quiet_ends]. }
  split; [|intros i c Hc|done].
  - intros i c Hc Ho. by apply (Hopen i c).
  - apply given_quiet; [by eapply H2|]. intros Ho. by destruct (Hopen i c Hc Ho) as (? & _ & ?).
Qed.

Lemma runs_handler rt n p : implements rt n → runs_as HandlerLoop n p →
  ∃ b k m, actors rt !! p = Some (Handler b k) ∧ boxes rt !! p = Some m.
Proof.
  intros Hi (l & q & Hn). rewrite Hi in Hn. unfold ActorSpec.phase in Hn.
  destruct (actors rt !! p) as [[|b k|]|]; [| | |by destruct (ending p rt)];
    (destruct (boxes rt !! p) as [m|]; [|done]); try done. by exists b, k, m.
Qed.

(** The cases of a push actor's turn. *)
Lemma py_actor_turn_cases i c w rt n : closures w !! i = Some c → c_open c = true → implements rt n →
  runs_as HandlerLoop n (c_pid c) →
  (∃ x rt', py_actor_turn i w rt = (closure_call i x w, rt') ∧ py_actor_events i w rt = [Received (c_pid c) x]) ∨
  (∃ rt', py_actor_turn i w rt = (closure_drop i w, rt') ∧ py_actor_events i w rt = [Ended (c_pid c) JoinOk]) ∨
  (∃ rt', py_actor_turn i w rt = (w, rt') ∧ py_actor_events i w rt = []).
Proof.
  intros Hc Ho Hi Hr. destruct (runs_handler _ _ _ Hi Hr) as (b & k & m & Ha & Hm).
  unfold py_actor_turn, py_actor_events, handler_turn, handler_events. rewrite Hc, Ho, Ha.
  rewrite (actor_recv_box _ m) by done. destruct (recv m) as [m' [[x|]|]]; cbn [fst snd].
  - left. by eexists x, _.
  - right; left. by eexists.
  - right; right. by eexists.
Qed.

Lemma sys_inv_received evs w n n' i c x : sys_inv evs w n → closures w !! i = Some c → c_open c = true →
  node_run n [Received (c_pid c) x] n' → sys_inv (evs ++ [Received (c_pid c) x]) (closure_call i x w) n'.
Proof.
  intros [H1 H2 H3] Hc Ho Hr.
  destruct (closure_call_at i x w c Hc) as (c1 & Hc1 & Hg1 & Hp1 & Ho1 & _).
  assert (Hback : ∀ j d, closures (closure_call i x w) !! j = Some d → j = i ∧ d = c1 ∨ j ≠ i ∧ closures w !! j = Some d).
  { intros j d Hd. destruct (decide (j = i)) as [->|Hne]; [left; split; congruence|right].
    by rewrite closure_call_other in Hd. }
  assert (Hruns : ∀ j d, closures w !! j = Some d → c_open d = true → runs_as HandlerLoop n' (c_pid d)).
  { intros j d Hd Hod. eapply stays_running; [exact Hr|by eapply H1|by repeat constructor]. }
  split.
  - intros j d [[-> ->]|[Hne Hd]]%Hback Hod; [rewrite Hp1; by eapply Hruns|by eapply Hruns].
  - intros j d [[-> ->]|[Hne Hd]]%Hback.
    + unfold given_ok. rewrite Ho1, Ho, Hp1, Hg1, life_app_quiet, taken_by_app by by repeat constructor.
      assert (Hg := H2 i c Hc). unfold given_ok in Hg. rewrite Ho in Hg. rewrite Hg. f_equal.
      cbn. by rewrite decide_True.
    + apply given_quiet; [by eapply H2|]. intros Hod. rewrite !Forall_singleton. split; [done|].
      cbn. rewrite bool_decide_false; [done|]. intros Heq. apply Hne. by eapply (H3 j i d c).
  - intros j k d e [[-> ->]|[Hne Hd]]%Hback [[-> ->]|[Hne' He]]%Hback Hod Hoe Hpe; [done|..].
    + rewrite Hp1 in Hpe. by eapply (H3 i k c e).
    + rewrite Hp1 in Hpe. by eapply (H3 j i d c).
    + by eapply (H3 j k d e).
Qed.

Lemma sys_inv_ended evs w n n' i c : sys_inv evs w n → closures w !! i = Some c → c_open c = true →
  node_run n [Ended (c_pid c) JoinOk] n' → sys_inv (evs ++ [Ended (c_pid c) JoinOk]) (closure_drop i w) n'.
Proof.
  intros [H1 H2 H3] Hc Ho Hr.
  assert (Hopen : ∀ j d', closures (closure_drop i w) !! j = Some d' → c_open d' = true →
    ∃ d, j ≠ i ∧ closures w !! j = Some d ∧ c_open d = true ∧ c_pid d' = c_pid d ∧ c_pid d ≠ c_pid c).
  { intros j d' (d & Hd & Hp & _ & Hod)%closure_drop_at Hod'. rewrite Hod' in Hod.
    destruct (decide (j = i)) as [->|Hne]; [done|]. exists d. split_and!; try done.
    intros Heq. apply Hne. by eapply (H3 j i d c). }
  split.
  - intros j d' Hd' Hod'. destruct (Hopen j d' Hd' Hod') as (d & _ & Hd & Hod & -> & Hne).
    eapply stays_running; [exact Hr|by eapply H1|]. rewrite Forall_singleton. cbn. by rewrite bool_decide_false.
  - intros j d' Hd'. destruct (closure_drop_at i j w d' Hd') as (d & Hd & Hp & Hg & Hod).
    assert (Hgd := H2 j d Hd). destruct (decide (j = i)) as [->|Hne].
    + assert (d = c) as -> by congruence. unfold given_ok in *. rewrite Hod, Hp, Hg. rewrite Ho in Hgd.
      by exists evs, [Ended (c_pid c) JoinOk].
    + assert (Hsame : given_ok evs d') by (unfold given_ok; by rewrite Hod, Hp, Hg).
      apply given_quiet; [done|]. intros Hod'. destruct (Hopen j d' Hd' Hod') as (d0 & _ & _ & _ & Hp0 & Hne0).
      rewrite !Forall_singleton. split; [done|]. cbn. rewrite Hp0. by rewrite bool_decide_false.
  - intros j k d' e' Hd' He' Hod' Hoe' Hpe. destruct (Hopen j d' Hd' Hod') as (d & _ & Hd & Hod & Hpd & _).
    destruct (Hopen k e' He' Hoe') as (e & _ & He & Hoe & Hpe' & _). eapply (H3 j k d e); congruence.
Qed.

Lemma sys_inv_spawned evs w w1 n n' pid callable rel d :
  sys_inv evs w n → closures w1 = closures w → node_run n [ActorSpec.Spawned pid HandlerLoop] n' →
  sys_inv (evs ++ [ActorSpec.Spawned pid HandlerLoop]) (add_closure pid callable rel d w1) n'.
Proof.
  intros Hi Hw Hr. assert (Hstep := node_run_one_inv _ _ _ Hr).
  assert (Hnew : n !! pid = None ∧ runs_as HandlerLoop n' pid).
  { inversion Hstep as [p k Hn| | | | | | | |]; subst. split; [done|]. exists true, abs_empty. apply lookup_insert_eq. }
  assert (Hq : Forall (not_for_push_actor w) [ActorSpec.Spawned pid HandlerLoop]) by (by repeat constructor).
  destruct (sys_inv_quiet _ _ _ _ _ Hi Hr Hq) as [H1 H2 H3].
  assert (Hback : ∀ j c, closures (add_closure pid callable rel d w1) !! j = Some c →
    closures w !! j = Some c ∨ j = length (closures w) ∧ c_pid c = pid ∧ c_given c = [] ∧ c_open c = true).
  { intros j c Hc. unfold add_closure in Hc. cbn [closures] in Hc. rewrite Hw in Hc.
    apply lookup_app_Some in Hc as [Hc|[Hl Hc]]; [by left|right].
    apply list_lookup_singleton_Some in Hc as [Hc <-]. split; [lia|done]. }
  assert (Hother : ∀ j c, closures w !! j = Some c → c_open c = true → c_pid c ≠ pid).
  { intros j c Hc Hoc Heq. destruct (si_runs _ _ _ Hi j c Hc Hoc) as (l & q & Hn). destruct Hnew. congruence. }
  split.
  - intros j c [Hc|(-> & -> & _ & _)]%Hback Hoc; [by eapply H1|apply Hnew].
  - intros j c [Hc|(-> & Hp & Hg & Hoc)]%Hback; [by eapply H2|]. unfold given_ok. rewrite Hoc, Hp, Hg, life_snoc.
    cbn. by rewrite bool_decide_true.
  - intros j k c e [Hc|(-> & Hp & _ & _)]%Hback [He|(-> & Hp' & _ & _)]%Hback Hoc Hoe Hpe; [by eapply H3|..|done].
    + destruct (Hother j c Hc Hoc). congruence.
    + destruct (Hother k e He Hoe). congruence.
Qed.

Lemma py_trace_inv evs w rt : py_trace evs w rt → ∃ n, node_run ∅ evs n ∧ implements rt n ∧ sys_inv evs w n.
Proof.
  induction 1 as [|evs w rt callable budget release w' rt' pid Ht (n & Hn & Hi & Hs) Hroom Hsp
    |evs w rt callable budget release w' rt' e Ht (n & Hn & Hi & Hs) Hsp|evs w rt i Ht (n & Hn & Hi & Hs)
    |evs w rt i _ (n & Hn & Hi & Hs)|evs w rt _ (n & Hn & Hi & Hs)|evs w rt k _ (n & Hn & Hi & Hs)
    |evs w rt new rt' Ht (n & Hn & Hi & Hs) Hl Hq];
    try (assert (Hrt := rt_reachable_inv _ (rt_trace_reachable _ _ (py_trace_rt _ _ _ Ht)))).
  - destruct (trace_implements [] (runtime_new (F := F) (S := S)) tr_new) as (n & Hn & Hi). exists n. split_and!; [done..|].
    by split.
  - destruct (spawn_py_handler_spawned _ _ _ _ _ _ _ _ Hsp) as (w1 & d & Hc & Hspawn & ->).
    destruct (sim_spawn _ _ _ _ Hrt Hroom Hspawn n Hi) as (n' & Hr & Hi'). exists n'.
    split_and!; [by eapply node_run_app|done|]. eapply sys_inv_spawned; [exact Hs|by eapply claim_thread_closures|done].
  - destruct (spawn_refused _ _ _ _ _ _ _ _ Hsp) as [-> ->]. by exists n.
  - assert (Hstep : ∃ n', node_run n (py_actor_events i w rt) n' ∧ implements (snd (py_actor_turn i w rt)) n').
    { destruct (py_actor_turn_rt i w rt) as [H|[-> ->]]; [by apply (labelled_simulated _ _ _ Hrt H n)|].
      exists n. split; [constructor|done]. }
    destruct Hstep as (n' & Hr & Hi'). exists n'. split_and!; [by eapply node_run_app|done|].
    destruct (closures w !! i) as [c|] eqn:Hc.
    2:{ unfold py_actor_events, py_actor_turn in *. rewrite Hc in *. rewrite app_nil_r. by rewrite (node_run_nil_inv _ _ Hr). }
    destruct (c_open c) eqn:Ho.
    2:{ unfold py_actor_events, py_actor_turn in *. rewrite Hc, Ho in *. rewrite app_nil_r. by rewrite (node_run_nil_inv _ _ Hr). }
    destruct (py_actor_turn_cases i c w rt n Hc Ho Hi (si_runs _ _ _ Hs i c Hc Ho))
      as [(x & rt' & Et & Ee)|[(rt' & Et & Ee)|(rt' & Et & Ee)]]; rewrite Et, Ee in *; cbn [fst].
    + by eapply sys_inv_received.
    + by eapply sys_inv_ended.
    + rewrite app_nil_r. by rewrite (node_run_nil_inv _ _ Hr).
  - exists n. split_and!; [done..|]. eapply sys_inv_front; [apply front_thread|done].
  - exists n. split_and!; [done..|]. eapply sys_inv_front; [|exact Hs]. rewrite front_take. apply front_refl.
  - exists n. split_and!; [done..|]. eapply sys_inv_front; [apply front_run|done].
  - destruct (labelled_simulated _ _ _ Hrt Hl n Hi) as (n' & Hr & Hi'). exists n'.
    split_and!; [by eapply node_run_app|done|by eapply sys_inv_quiet].
Qed.

(** ** Payloads *)
Lemma payloads_done msgs a :
  snd <$> calls (pool_done (omap pool_task msgs) a) = (snd <$> calls a) ++ user_of msgs.
Proof.
  revert a. induction msgs as [|m msgs IH]; intros a; [by rewrite app_nil_r|].
  unfold pool_done in *. destruct m as [b|[info|ptr| |]]; cbn; rewrite IH; cbn; try done.
  rewrite fmap_app. cbn. by rewrite <-(assoc_L (++)).
Qed.

(** ** Properties *)

(** C15: From a send to the callable. In the whole system - other actors, stops,
    clean-ups, reused PIDs, threads and workers in any interleaving - the handler
    of a push actor has been called with exactly the messages its PID was
    delivered in this life, without those still in its mailbox, each class in
    order. If the actor runs in place, on its own thread, or on a shared pool of
    one worker - several workers can swap two of its tasks ([pool_order]) - its
    callable has been called with a prefix of the payloads delivered, in order,
    and with all of them once nothing is queued. *)
Theorem delivered_messages_reach_callable evs w rt i c :
  py_trace evs w rt → closures w !! i = Some c → c_open c = true →
  let h := life (c_pid c) evs in
  ∃ m, boxes rt !! c_pid c = Some m ∧ c_given c = taken_by (c_pid c) h ∧
    delivered_to (c_pid c) h ≡ₚ c_given c ++ abs_all (abs m) ∧
    sys_of (delivered_to (c_pid c) h) = sys_of (c_given c) ++ a_sys (abs m) ∧
    user_of (delivered_to (c_pid c) h) = user_of (c_given c) ++ a_user (abs m) ∧
    ((c_chan c = None → c_release c = true → pool_size w = Some 1%nat) →
     (snd <$> calls (c_cell c)) `prefix_of` user_of (delivered_to (c_pid c) h) ∧
     (default [] (c_chan c) = [] → tasks_for i (pool_tasks w) = [] → a_user (abs m) = [] →
      snd <$> calls (c_cell c) = user_of (delivered_to (c_pid c) h))).
Proof.
  intros Ht Hc Ho h. destruct (py_trace_inv _ _ _ Ht) as (n & Hn & Hi & Hs).
  destruct (si_runs _ _ _ Hs i c Hc Ho) as (l & q & Hp).
  destruct (runs_handler _ _ _ Hi (si_runs _ _ _ Hs i c Hc Ho)) as (b & k & m & Ha & Hm).
  assert (Hq : q = abs m) by (rewrite Hi, (phase_running _ _ _ _ Ha Hm) in Hp; simplify_eq; done). subst q.
  assert (Hg := si_given _ _ _ Hs i c Hc). unfold given_ok in Hg. rewrite Ho in Hg. fold h in Hg.
  assert (Hh := node_run_history _ _ Hn (c_pid c)). rewrite Hp in Hh. destruct Hh as [Hperm Hord].
  fold h in Hperm, Hord. rewrite <-Hg in Hperm, Hord.
  destruct Hord as [Hsys Husr]; [by eapply loops_do_not_select|].
  exists m. split_and!; try done. intros Hone.
  destruct (in_order_prefix w i c (py_trace_world _ _ _ Ht) Hc Hone) as [[rest Hrest] Hall].
  assert (Hpay : snd <$> calls (in_order c) = user_of (c_given c)) by (unfold in_order; by rewrite payloads_done).
  rewrite Husr. split.
  - apply prefix_app_r. exists (snd <$> rest). by rewrite <-Hpay, Hrest, fmap_app.
  - intros H1 H2 H3. rewrite H3, app_nil_r, <-Hpay. by rewrite <-Hall.
Qed.

(** A handler that has been dropped had been called with what its actor took
    until it ended; no two live handlers share a PID, and a live handler's actor
    runs. *)
Theorem handlers_follow_actors evs w rt :
  py_trace evs w rt →
  (∀ i c, closures w !! i = Some c → c_open c = true → ∃ b k, actors rt !! c_pid c = Some (Handler b k)) ∧
  (∀ i j c d, closures w !! i = Some c → closures w !! j = Some d → c_open c = true → c_open d = true →
    c_pid c = c_pid d → i = j) ∧
  (∀ i c, closures w !! i = Some c → c_open c = false →
    ∃ l1 l2, evs = l1 ++ l2 ∧ c_given c = taken_by (c_pid c) (life (c_pid c) l1)).
Proof.
  intros Ht. destruct (py_trace_inv _ _ _ Ht) as (n & Hn & Hi & Hs). split_and!.
  - intros i c Hc Ho. destruct (runs_handler _ _ _ Hi (si_runs _ _ _ Hs i c Hc Ho)) as (b & k & m & Ha & _). eauto.
  - apply (si_apart _ _ _ Hs).
  - intros i c Hc Ho. assert (Hg := si_given _ _ _ Hs i c Hc). unfold given_ok in Hg. by rewrite Ho in Hg.
Qed.
End py_system.

(** ** A run *)
Module PySysDemo.
Abbreviation R := (Runtime unit SlabAllocator).

(** A push actor without a thread is spawned, sent two messages and handles
    one. *)
Definition spawned : PyWorld * R * spawn_answer := spawn_py_handler 7 10 None world_new Demo.start.

Definition w1 : PyWorld := fst (fst spawned).

Definition rt1 : R := snd (fst spawned).

Definition rt3 : R := fst (rt_send Demo.a (User [x62]) (fst (rt_send Demo.a (User [x61]) rt1))).

Definition w4 : PyWorld := fst (py_actor_turn 0 w1 rt3).

Definition rt4 : R := snd (py_actor_turn 0 w1 rt3).

Definition evs : list actor_event :=
  [ActorSpec.Spawned Demo.a HandlerLoop; Delivered Demo.a (User [x61]); Delivered Demo.a (User [x62]);
   Received Demo.a (User [x61])].

Definition c : Closure := mkClosure Demo.a false None true false 7 (mkPyActor 7 [(7, [x61])]) [User [x61]].
End PySysDemo.

Lemma py_sys_demo_trace : py_trace PySysDemo.evs PySysDemo.w4 PySysDemo.rt4.
Proof.
  assert (Hsend : ∀ evs (rt : PySysDemo.R) b, py_trace evs PySysDemo.w1 rt → snd (rt_send Demo.a (User b) rt) = Ok tt →
    py_trace (evs ++ [Delivered Demo.a (User b)]) PySysDemo.w1 (fst (rt_send Demo.a (User b) rt))).
  { intros evs rt b Ht Hok. eapply pt_node; [exact Ht| |].
    - apply (lb_send Demo.a (User b) rt _ (Ok tt)). rewrite <-Hok. apply surjective_pairing.
    - rewrite Forall_singleton. by intros i c. }
  apply (pt_actor [ActorSpec.Spawned Demo.a HandlerLoop; Delivered Demo.a (User [x61]); Delivered Demo.a (User [x62])]
    PySysDemo.w1 PySysDemo.rt3 0).
  apply (Hsend [ActorSpec.Spawned Demo.a HandlerLoop; Delivered Demo.a (User [x61])]); [|by vm_compute].
  apply (Hsend [ActorSpec.Spawned Demo.a HandlerLoop]); [|by vm_compute].
  apply (pt_spawn [] world_new Demo.start 7 10 None); [constructor|done|by vm_compute].
Qed.

Lemma delivered_messages_reach_callable_witness :
  let h := life Demo.a PySysDemo.evs in
  ∃ m, boxes PySysDemo.rt4 !! Demo.a = Some m ∧ [User [x61]] = taken_by Demo.a h ∧
    delivered_to Demo.a h ≡ₚ [User [x61]] ++ abs_all (abs m) ∧
    sys_of (delivered_to Demo.a h) = sys_of [User [x61]] ++ a_sys (abs m) ∧
    user_of (delivered_to Demo.a h) = user_of [User [x61]] ++ a_user (abs m) ∧
    ((None = @None (list Message) → false = true → pool_size PySysDemo.w4 = Some 1%nat) →
     (snd <$> [(7, [x61])]) `prefix_of` user_of (delivered_to Demo.a h) ∧
     (default [] None = @nil Message → tasks_for 0 (pool_tasks PySysDemo.w4) = [] → a_user (abs m) = [] →
      snd <$> [(7, [x61])] = user_of (delivered_to Demo.a h))).
Proof.
  apply (delivered_messages_reach_callable PySysDemo.evs PySysDemo.w4 PySysDemo.rt4 0 PySysDemo.c);
    [apply py_sys_demo_trace|reflexivity|reflexivity].
Defined.

Lemma handlers_follow_actors_witness :
  (∀ i c, closures PySysDemo.w4 !! i = Some c → c_open c = true → ∃ b k, actors PySysDemo.rt4 !! c_pid c = Some (Handler b k)) ∧
  (∀ i j c d, closures PySysDemo.w4 !! i = Some c → closures PySysDemo.w4 !! j = Some d → c_open c = true → c_open d = true →
    c_pid c = c_pid d → i = j) ∧
  (∀ i c, closures PySysDemo.w4 !! i = Some c → c_open c = false →
    ∃ l1 l2, PySysDemo.evs = l1 ++ l2 ∧ c_given c = taken_by (c_pid c) (life (c_pid c) l1)).
Proof. apply (handlers_follow_actors PySysDemo.evs PySysDemo.w4 PySysDemo.rt4). apply py_sys_demo_trace. Defined.
